(* ===== verification/_CoqProject ===== *)
-Q . S2P
Prelude.v
Bytes.v
Nibble.v
Trie.v
TrieSpec.v
TrieMap.v
TrieCommit.v
TraversalProof.v
TrieCodec.v
VertexCommit.v
Allocation.v
Pricing.v
FeeManager.v
Bitmask.v
ForkChoice.v
ChainChecker.v
Difficulty.v
Cursor.v
ConsensusWire.v
ProverOps.v
Envelope.v
ClientEpoch.v
QclTypes.v
Circuit.v
CircuitBuild.v
CircuitLogic.v
CircuitArith.v
CircuitMul.v
CircuitCompile.v
CircuitCodec.v
QclMpa.v
QclSsa.v
QclCircuitGen.v
QclGenCorrect.v
QclCompiler.v
QclCompilerCorrect.v
QclSource.v
QclLexer.v
QclParser.v
QclTerminate.v
QclPrint.v
QclPrintDecl.v
QclText.v
MembershipTree.v
CoinTree.v
CoinWitness.v
ShardedTree.v
ShardedRoots.v
SparseFold.v
CoinBlocks.v
AccState.v
SummaryTree.v
SummaryCorrect.v
SummaryRebuild.v
SettlementRecord.v
SpendEntry.v
Poseidon.v
ShardForest.v
FrameRelay.v
