(* ===== verification/Prelude.v ===== *)
(** * A verification development for the Quilibrium node and client

    The repository is a proof-of-meaningful-work network: a Rust node
    ([src/crates]) ported from a Go implementation, and the command-line client
    [qclient].  Provers join shards, are allocated to them epoch by epoch, prove
    frames and are paid by reward ring; the state of a shard is a hypergraph
    whose vertices are committed by a 64-ary vector commitment tree; operations
    travel as canonical bytes inside request bundles.  This library models the
    deterministic core of that system as Rocq functions and proves what its
    parts promise to each other.

    ** How the parts interact

    A prover operation ([ProverOps]) is encoded with the canonical cursor
    ([Cursor]) and wrapped in a bundle ([Envelope]).  Executed, it changes the
    frame numbers of an allocation, which [Allocation] interprets at a frame;
    the client reads the same record over the RPC and interprets it again
    ([ClientEpoch]).  Vertex data is a tree ([Trie]) stored as a blob
    ([TrieCodec]) and committed ([TrieCommit], [VertexCommit]); its membership
    is shown by traversal proofs ([TraversalProof]).  Frames carry fee votes
    ([FeeManager]) and a difficulty ([Difficulty]), are priced ([Pricing]),
    signed under bitmasks ([Bitmask]) and certified by messages
    ([ConsensusWire]), and are chained and chosen between ([ChainChecker],
    [ForkChoice]).  Compute intrinsics are QCL programs: the compiler reads
    the text ([QclLexer], [QclParser]), turns the syntax tree into static single
    assignment form ([QclCompiler], [QclSsa]), and that into a circuit of gates ([QclCircuitGen], [CircuitBuild]), pruned,
    put in order and written to a file ([CircuitCodec]) that every node reads
    back before it evaluates it ([Circuit]).

    Confidential coins are leaves of one accumulator per application: a binary
    hash tree ([MembershipTree], [CoinTree]) whose positions are split into
    blocks ([CoinBlocks]) owned by shards, which are paths of address bits
    ([ShardForest]).  Each shard computes the roots of its own blocks, the
    application root is their fold ([ShardedTree]), and the state keeps a summary
    of the blocks ([AccState], [SummaryTree]).  An executed spend is recorded as
    an entry ([SpendEntry]), a settlement as another ([SettlementRecord]); the
    headers of a shard relay both, and its accumulator report, to the global
    chain ([FrameRelay]).

    ** Files and sources (paths under [src/crates])

    - [Prelude], [Bytes]: results with panics, machine integers with their wrap,
      big-endian bytes, the reader monad and the class [RoundTrip];
    - [Nibble]: [quil-tries/src/nibble.rs], 6-bit paths of keys;
    - [Trie]: [quil-tries/src/node.rs] and [tree.rs], insertion, lookup,
      deletion, enumeration; [TrieSpec], [TrieMap]: the finite map the tree
      represents and the refinement;
    - [TrieCommit]: commitment and proof generation of [tree.rs];
    - [TraversalProof]: [quil-execution/src/traversal_proof.rs];
    - [TrieCodec]: [quil-tries/src/serialize.rs], [go_format.rs];
      [VertexCommit]: [vertex_commit.rs];
    - [Allocation]: [quil-types/src/consensus.rs], [reward_ring.rs];
    - [Pricing]: [quil-execution/src/pricing.rs], [quil-engine/src/rewards.rs];
    - [FeeManager], [ForkChoice], [ChainChecker], [Difficulty]:
      [quil-engine/src/fees.rs], [fork_choice.rs], [frame_chain_checker.rs],
      [difficulty.rs];
    - [Bitmask]: [quil-consensus/src/bitmask.rs];
    - [Cursor], [ConsensusWire], [ProverOps], [Envelope]:
      [quil-execution/src/canonical_cursor.rs], the wire types of
      [global_intrinsic], and [message_envelope.rs];
    - [ClientEpoch]: [quil-client/src/commands/node/prover/epoch.rs], the
      [timing] of [status.rs], and the allocation list of [get_node_info] in
      [quil-rpc/src/node_service.rs];
    - [QclTypes], [QclMpa]: [quil-compiler/src/types.rs] and [mpa.rs];
    - [Circuit], [CircuitCodec]: [circuit.rs], gates, evaluation, the file
      format; [CircuitBuild]: the wires, gates and arithmetic builders of
      [circuits/], its constant propagation, pruning and sorting;
      [CircuitLogic], [CircuitArith], [CircuitMul], [CircuitCompile]: what the
      built gates compute and that the passes keep it;
    - [QclSsa]: [ssa/generator.rs], [ssa/peephole.rs]; [QclCompiler]:
      [compiler.rs], statements and expressions to SSA; [QclCircuitGen]:
      [ssa/circuitgen.rs], SSA to gates; [QclGenCorrect], [QclCompilerCorrect],
      [QclSource]: the correctness of the three, composed in [QclSource];
    - [QclLexer], [QclParser]: [lexer.rs] and [parser.rs], characters to tokens
      to packages; [QclTerminate]: both end; [QclPrint], [QclPrintDecl]: a
      printer of packages as token words and what the parser makes of them;
      [QclText]: the words as text, and the whole way from text to gates;
    - [MembershipTree], [CoinTree], [CoinWitness]:
      [quil-lattice-ct/src/confidential/coin_tree.rs], the reference tree, the
      full tree, the append frontier, the indexed reader; [ShardedTree],
      [SparseFold], [ShardedRoots]: [sharded_tree.rs] beside it;
    - [CoinBlocks], [AccState], [SummaryTree]:
      [quil-execution/src/token_intrinsic/coin_blocks.rs], the record addresses
      of [state.rs], [summary_tree.rs]; [SummaryCorrect], [SummaryRebuild]: the
      map of blocks the stored summary represents;
    - [SettlementRecord], [SpendEntry]: [settlement_record.rs], the entry of
      [global_commit.rs] and [spend_relay.rs] in the same directory;
    - [Poseidon]: [quil-crypto/src/poseidon.rs];
    - [ShardForest]: the shard addressing of [quil-forest/src/lib.rs] and
      [ShardPath] of [quil-types/src/execution.rs];
    - [FrameRelay]: the per-frame records and header fields of
      [quil-engine/src/app_engine.rs] and [token_intrinsic/accumulator_header.rs].

    A state is a record, an operation a function on it; a [Result] is [result],
    whose [Panic] is a Rust panic.  Integer arithmetic wraps as in a release
    build.  Code outside the repository is a class with its documented laws:
    [Sha2] (crate sha2), [InclusionProver] with [KzgLaws] (the commitment
    scheme), [BigIntBytes] (num-bigint), [Roots] (num-integer), [Texts] (Unicode letters,
    [parse_bytes] of num-bigint), [MembershipHash] (the lattice hash of the
    coin tree), [FieldHash] (poseidon-rs); the clock store and the identity hash
    of [ChainChecker], and in [SpendEntry] and [FrameRelay] the activation frames
    and the report digest, are section arguments.  The clock store of
    [FrameRelay] and the part of the hypergraph state the accumulator uses are
    finite maps, as their operations are reads and writes by key.

    ** What the theorems show

    - Tree: insertion, deletion, lookup and enumeration refine a finite map over
      key sets without nested paths; leaf counters count; the committed root
      depends on the stored map only, for every history and thread count; what
      is proved from a committed tree verifies against its root.
    - Formats: both tree formats, traversal proofs, prover operations and
      bundles are read back exactly; consensus and proof messages are moreover
      decoded from nothing but their encoding; decoding a tree or a bundle from
      arbitrary bytes never panics.
    - Lifecycle: terminal statuses are final, the timeline of a join is exact in
      frames, hand-off counts are the next committee, ring estimates are in
      range; the client shows the node's statuses, and shows each default at
      the frame where it happens.
    - Economics: the fee multiplier is the mean of the retained votes in every
      reachable state; budgets cover charges; rewards halve ring by ring.
    - Chain: the ancestry check accepts exactly linked proposals; fork choice
      has its hysteresis; difficulty does not rise with time.
    - Compiler: the text of a printable package parses back to it, and the
      parser ends on every text without a struct type; compiling the text of a
      function of the supported fragment gives a circuit that computes what the source means, and survives its file format; the
      front end never panics and its output is in SSA form; arithmetic builders
      compute the operation modulo the width; constant propagation, pruning and
      sorting keep the outputs and end; an untrusted circuit file never panics
      the reader.  The fragment is delimited by theorems too: texts that are
      refused or parse to another program, and programs outside it that compile
      to a circuit with another meaning.
    - Accumulator: frontier, full tree and reader agree on roots and paths; the
      fold of what the shards compute is the root of the tree of all coins, and
      shard paths compose; a block has one owner however the grid was split; a
      position keeps its meaning as the accumulator grows; the stored summary
      depends on the blocks set last only; accumulator records are recognised
      exactly; a deep split leaves every address in exactly one shard.
    - Relay: spend and settlement relays are accepted exactly in their one
      encoding.  Liveness: when of any eight headers one reaches the global
      chain, every frame's spends reach it within eight headers; a changed
      report is carried by the next eight headers and by every heartbeat.
    - Behaviours worth knowing are theorems as well: one-level traversal proofs
      are accepted unchecked, an empty path panics the verifier, a rejected
      insertion empties the tree, nested keys drop a leaf.

    ** Bounds and fuel

    [get_full_path_loop] has fuel [2 * len + 1], enough by
    [full_path_loop_fuel]; [generation_loop] has 8 rounds where a [u64] needs
    five, enough by [generation_fuel]; tree decoding counts down from the
    source's own depth cap of 128, and keys of up to 64 bytes stay within it;
    the ancestry walk recurses on the frame number; [topo_sort] has one pass per
    gate and one more, enough by [topo_sort_fuel]; the optimizer's rounds are
    enough by [optimize_at_fuel]; the lexer's loops have the remaining text as
    fuel, and the parser takes a number of rounds, enough when it exceeds the
    number of characters, as its termination theorem says; the sizing loops of
    [CoinTree] have 66 and 32 rounds, enough by [size_loop_spec] and
    [depth_loop_spec]; reading a spend relay has as many rounds as bytes, and
    never runs out of them, as its canonicity theorem says; pruning the frame records
    has as many rounds as frames, enough by [prune_bounded].  Everything else is
    structural.  Where a theorem needs arithmetic not to wrap it says so by a
    range on its inputs ([frame_ok] in [ClientEpoch]: two epochs below [2^64]).

    ** Not modelled, and why

    Stores, networking, asynchronous orchestration and process wiring are input
    and output; cryptographic primitives are parameters; error messages and log
    lines are dropped.  The RPC reads the current frame several times for one
    reply; [ClientEpoch] takes one frame.  The client's threshold rendering uses
    floating point and is left out.  Concurrency is not modelled: operations
    behind a lock are atomic steps, and the parallel commit is modelled by its
    budgeted recursion, whose branches share no state.

    Of the accumulator, the flat summary older states are upgraded from, the coin
    snapshot reader, and the decision of an entry over the global state (escrows,
    deliveries, orphaned blocks) are not modelled: they work over many
    more records of the hypergraph state than [AccState] has.  Of
    the application engine only the records behind the header fields are, since
    the rest awaits networks and timers.  The state transitions of the global
    intrinsic, the prover registry, the lazy tree, the tree comparison and the
    hypergraph CRDT run over RocksDB pages and are left out with the store; the
    token, hypergraph and compute operations carry zero-knowledge arguments over
    lattice commitments.  The planners [provers/plan.rs] and [shard_drain.rs] and
    the client's action queue and wallet planning are not modelled; they choose
    what to submit and change no state of the network themselves. *)

From stdpp Require Export prelude gmap strings list sorting.
From Stdlib Require Export ZArith Lia Strings.Byte.

#[global] Open Scope Z_scope.
#[global] Set Warnings "-register-all".

(** ** Errors and results

    [QuilError] is the error enumeration of
    [src/crates/quil-types/src/error.rs] restricted to the variants the
    modelled functions raise; the message text is not modelled.  A Rust
    [Result] is [result]; [Panic] is a Rust panic (an index out of range). *)
Inductive QuilError :=
| NotFound
| InvalidArgument
| Serialization
| Internal
| Crypto
| Store.

Inductive result (A : Type) : Type :=
| Ok (a : A)
| Err (e : QuilError)
| Panic.
Arguments Ok {A} a.
Arguments Err {A} e.
Arguments Panic {A}.

#[export] Instance QuilError_eq_dec : EqDecision QuilError.
Proof. solve_decision. Defined.

#[export] Instance result_ret : MRet result := fun _ a => Ok a.
#[export] Instance result_bind : MBind result := fun _ _ f m =>
  match m with Ok a => f a | Err e => Err e | Panic => Panic end.
#[export] Instance result_fmap : FMap result := fun _ _ f m =>
  match m with Ok a => Ok (f a) | Err e => Err e | Panic => Panic end.

Definition is_ok {A} (m : result A) : bool :=
  match m with Ok _ => true | _ => false end.

(** [opt.ok_or(e)] *)
Definition ok_or {A} (o : option A) (e : QuilError) : result A :=
  match o with Some a => Ok a | None => Err e end.

Lemma bind_Ok {A B} (a : A) (f : A -> result B) : (Ok a ≫= f) = f a.
Proof. done. Qed.
Lemma bind_Err {A B} (e : QuilError) (f : A -> result B) : (Err e ≫= f) = Err e.
Proof. done. Qed.
Lemma bind_inv {A B} (m : result A) (f : A -> result B) b :
  (m ≫= f) = Ok b -> exists a, m = Ok a /\ f a = Ok b.
Proof. destruct m; simpl; naive_solver. Qed.
Lemma result_bind_assoc {A B C} (m : result A) (f : A -> result B) (g : B -> result C) :
  ((m ≫= f) ≫= g) = (m ≫= fun a => f a ≫= g).
Proof. by destruct m. Qed.

(** ** Shared arithmetic *)

(** Filling the low bits of a shifted number is addition. *)
Lemma lor_shiftl_add x y k : 0 <= k -> 0 <= y < 2 ^ k -> Z.lor (Z.shiftl x k) y = x * 2 ^ k + y.
Proof.
  intros Hk Hy. rewrite <- Z.shiftl_mul_pow2 by lia.
  destruct (decide (y = 0)) as [->|Hy0]; [by rewrite Z.lor_0_r, Z.add_0_r|].
  assert (Z.land (Z.shiftl x k) y = 0) as Hland.
  { apply Z.bits_inj'. intros n Hn. rewrite Z.land_spec, Z.bits_0, Z.shiftl_spec by lia.
    destruct (decide (n < k)); [by rewrite Z.testbit_neg_r by lia|].
    rewrite (Z.bits_above_log2 y n); [by rewrite andb_false_r|lia|].
    apply Z.log2_lt_pow2; [lia|].
    apply Z.lt_le_trans with (2 ^ k); [lia|apply Z.pow_le_mono_r; lia]. }
  by rewrite <- Z.lxor_lor, <- Z.add_nocarry_lxor.
Qed.

(** ** Stable sorting ([slice::sort_by]) *)

Section InsertionSort.
Context {A : Type} (le : A -> A -> bool).

Fixpoint ins (x : A) (l : list A) : list A :=
  match l with
  | [] => [x]
  | y :: ys => if le x y then x :: y :: ys else y :: ins x ys
  end.
Definition sort_by (l : list A) : list A := foldr ins [] l.

Lemma ins_perm x l : Permutation (ins x l) (x :: l).
Proof.
  induction l as [|y l IH]; cbn [ins]; [done|]. destruct (le x y); [done|].
  rewrite IH. apply Permutation_swap.
Qed.

Lemma sort_by_perm l : Permutation (sort_by l) l.
Proof. induction l as [|x l IH]; [done|]. cbn. rewrite ins_perm. by apply Permutation_skip. Qed.

Fixpoint sortedb (l : list A) : bool :=
  match l with
  | x :: ((y :: _) as t) => le x y && sortedb t
  | _ => true
  end.

Lemma ins_sorted x l : (forall a b, le a b = false -> le b a = true) ->
  sortedb l = true -> sortedb (ins x l) = true.
Proof.
  intros Htot. induction l as [|y l IH]; intros Hs; [done|]. cbn [ins].
  destruct (le x y) eqn:E; [cbn [sortedb]; by rewrite E|].
  specialize (IH ltac:(destruct l; [done|]; cbn in Hs; by apply andb_true_iff in Hs as [_ Hs])).
  destruct l as [|z l]; cbn [ins sortedb] in *; [by rewrite (Htot _ _ E)|].
  apply andb_true_iff in Hs as [Hyz _]. destruct (le x z) eqn:E'.
  - by rewrite (Htot _ _ E).
  - by rewrite Hyz.
Qed.

Lemma sort_by_sorted l : (forall a b, le a b = false -> le b a = true) -> sortedb (sort_by l) = true.
Proof. intros Htot. induction l as [|x l IH]; [done|]. cbn. by apply ins_sorted. Qed.

End InsertionSort.

(** Sorting by a key, and the check [windows(2).any(|p| p[0] == p[1])] after it. *)
Section SortByKey.
Context {A K : Type} `{EqDecision K} (key : A -> K) (kle : K -> K -> bool).
Context (kle_total : forall a b, kle a b = false -> kle b a = true).
Context (kle_antisym : forall a b, kle a b = true -> kle b a = true -> a = b).
Context (kle_trans : forall a b c, kle a b = true -> kle b c = true -> kle a c = true).

Definition sort_by_key : list A -> list A := sort_by (fun a b => kle (key a) (key b)).

Lemma sort_by_key_perm l : Permutation (sort_by_key l) l.
Proof. apply sort_by_perm. Qed.
Lemma sort_by_key_length l : length (sort_by_key l) = length l.
Proof. apply Permutation_length, sort_by_key_perm. Qed.

Fixpoint adjacent_repeat (l : list A) : bool :=
  match l with
  | x :: ((y :: _) as t) => bool_decide (key x = key y) || adjacent_repeat t
  | _ => false
  end.

Lemma sorted_below x l : sortedb (fun a b => kle (key a) (key b)) (x :: l) = true ->
  Forall (fun y => kle (key x) (key y) = true) l.
Proof.
  revert x. induction l as [|y l IH]; intros x; [done|]. cbn [sortedb]. rewrite andb_true_iff. intros [Hxy Hs].
  constructor; [done|]. eapply Forall_impl; [apply (IH y Hs)|]. cbn. eauto.
Qed.

Lemma sorted_strict l : sortedb (fun a b => kle (key a) (key b)) l = true -> adjacent_repeat l = false ->
  StronglySorted (fun a b => kle (key a) (key b) = true /\ key a <> key b) l.
Proof.
  induction l as [|x l IH]; intros Hs Hr; [constructor|].
  assert (sortedb (fun a b => kle (key a) (key b)) l = true) as Hs'.
  { destruct l; [done|]. cbn [sortedb] in Hs. by apply andb_true_iff in Hs as [_ Hs]. }
  assert (adjacent_repeat l = false) as Hr'.
  { destruct l; [done|]. cbn [adjacent_repeat] in Hr. by apply orb_false_iff in Hr as [_ Hr]. }
  specialize (IH Hs' Hr'). constructor; [done|]. pose proof (sorted_below x l Hs) as Hx.
  apply Forall_forall. intros y Hy. rewrite Forall_forall in Hx. split; [by apply Hx|]. intros E.
  destruct l as [|z l]; [by apply not_elem_of_nil in Hy|]. cbn [adjacent_repeat] in Hr.
  apply orb_false_iff in Hr as [Hz%bool_decide_eq_false _]. apply Hz.
  apply elem_of_cons in Hy as [->|Hy]; [done|]. apply StronglySorted_inv in IH as [_ IH].
  rewrite Forall_forall in IH. destruct (IH y Hy) as [Hzy _]. apply kle_antisym; [apply Hx; left|by rewrite E].
Qed.

Lemma strict_NoDup l : StronglySorted (fun a b => kle (key a) (key b) = true /\ key a <> key b) l -> NoDup (key <$> l).
Proof.
  induction 1 as [|x l _ IH Hx]; [constructor|]. cbn. constructor; [|done].
  rewrite list_elem_of_fmap. intros (y & E & Hy). rewrite Forall_forall in Hx. by destruct (Hx y Hy).
Qed.

Lemma NoDup_adjacent l : NoDup (key <$> l) -> adjacent_repeat l = false.
Proof.
  induction l as [|x [|y l] IH]; intros Hn; try done. cbn [fmap list_fmap] in Hn. apply NoDup_cons in Hn as [Hx Hn].
  change (bool_decide (key x = key y) || adjacent_repeat (y :: l) = false). rewrite IH by done.
  rewrite bool_decide_eq_false_2; [done|]. intros E. apply Hx. rewrite E. left.
Qed.

Lemma sort_by_key_repeat l : adjacent_repeat (sort_by_key l) = false <-> NoDup (key <$> l).
Proof.
  assert (Permutation (key <$> sort_by_key l) (key <$> l)) as Hp by (apply fmap_Permutation, sort_by_perm).
  split.
  - intros Hr. rewrite <- Hp. apply strict_NoDup, sorted_strict; [|done]. apply sort_by_sorted. eauto.
  - intros Hn. apply NoDup_adjacent. by rewrite Hp.
Qed.

Lemma sort_by_key_strict l : NoDup (key <$> l) ->
  StronglySorted (fun a b => kle (key a) (key b) = true /\ key a <> key b) (sort_by_key l).
Proof. intros Hn. apply sorted_strict; [apply sort_by_sorted; eauto|by apply sort_by_key_repeat]. Qed.

End SortByKey.

(** ** Filters that keep all, or nothing *)

Lemma filter_all {A} (P : A -> Prop) `{!forall x, Decision (P x)} l : Forall P l -> base.filter P l = l.
Proof. induction 1 as [|x l Hx _ IH]; [done|]. rewrite filter_cons_True by done. by f_equal. Qed.
Lemma filter_none {A} (P : A -> Prop) `{!forall x, Decision (P x)} l : Forall (fun x => ~ P x) l -> base.filter P l = [].
Proof. induction 1 as [|x l Hx _ IH]; [done|]. by rewrite filter_cons_False. Qed.

(** A list of non-empty pieces has at most as many pieces as elements. *)
Lemma length_bind_le {A B} (f : A -> list B) (xs : list A) : (forall x, f x <> []) -> (length xs <= length (xs ≫= f))%nat.
Proof.
  intros Hf. induction xs as [|x xs IH]; [done|]. cbn [mbind list_bind length]. rewrite length_app. specialize (Hf x).
  destruct (f x); [done|]. cbn. lia.
Qed.
