(* ===== verification/Bytes.v ===== *)
(** * Bytes, fixed-width integers and byte-stream readers

    The Rust [u8] is [Byte.byte]; wider machine integers are [Z] with their
    wrap-around written out.  [to_be_bytes]/[from_be_bytes] of the Rust
    standard library are [be_bytes] and [be_val]; an [io::Read] is a
    [reader]: a function from the unread bytes to a result and the bytes left.
    The class [RoundTrip] is the contract between a writer and a reader that
    every codec of the development is proved against. *)

From S2P Require Import Prelude.

(** ** Bytes *)

Definition byte_val (b : byte) : Z := Z.of_N (Byte.to_N b).
Definition byte_of (z : Z) : byte :=
  match Byte.of_N (Z.to_N (z mod 256)) with Some b => b | None => x00 end.

#[export] Instance byte_eq_dec : EqDecision byte.
Proof. intros a b. destruct (Byte.byte_eq_dec a b); [by left|by right]. Defined.

#[export] Instance byte_countable : Countable byte.
Proof.
  refine (inj_countable Byte.to_N Byte.of_N _).
  intros b. apply Byte.of_to_N.
Defined.

Lemma byte_val_range b : 0 <= byte_val b < 256.
Proof. unfold byte_val. pose proof (Byte.to_N_bounded b). lia. Qed.

Lemma byte_val_of z : byte_val (byte_of z) = z mod 256.
Proof.
  unfold byte_val, byte_of.
  pose proof (Z.mod_pos_bound z 256 ltac:(lia)) as Hz.
  destruct (Byte.of_N (Z.to_N (z mod 256))) as [b|] eqn:E.
  - apply Byte.to_of_N in E. rewrite E. lia.
  - apply Byte.of_N_None_iff in E. lia.
Qed.

Lemma byte_val_inj a b : byte_val a = byte_val b -> a = b.
Proof.
  unfold byte_val. intros H%N2Z.inj.
  pose proof (Byte.of_to_N a) as Ha. pose proof (Byte.of_to_N b) as Hb.
  rewrite H in Ha. congruence.
Qed.

Lemma byte_of_val b : byte_of (byte_val b) = b.
Proof.
  apply byte_val_inj. rewrite byte_val_of.
  apply Z.mod_small, byte_val_range.
Qed.

(** ** Machine integers *)

Definition u32_max : Z := 2 ^ 32 - 1.
Definition u64_max : Z := 2 ^ 64 - 1.
(** [usize] on the 64-bit targets the node is built for. *)
Definition usize_max : Z := u64_max.

Definition wrap_u32 (z : Z) : Z := z mod 2 ^ 32.
Definition wrap_u64 (z : Z) : Z := z mod 2 ^ 64.
(** Reinterpretation of a bit pattern as a signed integer ([as i32], [as i64]). *)
Definition as_signed (w z : Z) : Z :=
  let m := z mod 2 ^ w in if m <? 2 ^ (w - 1) then m else m - 2 ^ w.
Definition as_i32 (z : Z) : Z := as_signed 32 z.
Definition as_i64 (z : Z) : Z := as_signed 64 z.
Definition as_usize (z : Z) : Z := wrap_u64 z.

Definition saturating_add_u64 (a b : Z) : Z := Z.min (a + b) u64_max.
Definition saturating_sub_u64 (a b : Z) : Z := Z.max (a - b) 0.
Definition saturating_mul_u64 (a b : Z) : Z := Z.min (a * b) u64_max.
Definition checked_add_u64 (a b : Z) : option Z :=
  if a + b <=? u64_max then Some (a + b) else None.

Lemma checked_add_u64_ok a b : a + b <= u64_max -> checked_add_u64 a b = Some (a + b).
Proof. intros Hle. unfold checked_add_u64. by rewrite (proj2 (Z.leb_le _ _) Hle). Qed.

Definition is_u32 (z : Z) : Prop := 0 <= z < 2 ^ 32.
Definition is_u64 (z : Z) : Prop := 0 <= z < 2 ^ 64.
Definition is_i32 (z : Z) : Prop := - 2 ^ 31 <= z < 2 ^ 31.
Definition is_i64 (z : Z) : Prop := - 2 ^ 63 <= z < 2 ^ 63.

Lemma as_signed_range w z : 0 < w -> - 2 ^ (w - 1) <= as_signed w z < 2 ^ (w - 1).
Proof.
  intros Hw. unfold as_signed.
  assert (2 ^ w = 2 * 2 ^ (w - 1)) as E
    by (rewrite <- Z.pow_succ_r by lia; f_equal; lia).
  pose proof (Z.mod_pos_bound z (2 ^ w) ltac:(lia)).
  destruct (Z.ltb_spec (z mod 2 ^ w) (2 ^ (w - 1))); lia.
Qed.

Lemma as_signed_id w z :
  0 < w -> - 2 ^ (w - 1) <= z < 2 ^ (w - 1) -> as_signed w (z mod 2 ^ w) = z.
Proof.
  intros Hw Hz. unfold as_signed.
  assert (2 ^ w = 2 * 2 ^ (w - 1)) as E
    by (rewrite <- Z.pow_succ_r by lia; f_equal; lia).
  rewrite Z.mod_mod by lia.
  destruct (decide (0 <= z)).
  - rewrite (Z.mod_small z) by lia. destruct (Z.ltb_spec z (2 ^ (w - 1))); lia.
  - rewrite <- (Z.mod_add z 1) by lia. rewrite (Z.mod_small (z + 1 * 2 ^ w)) by lia.
    destruct (Z.ltb_spec (z + 1 * 2 ^ w) (2 ^ (w - 1))); lia.
Qed.

Lemma as_i32_id z : is_i32 z -> as_i32 z = z.
Proof.
  intros Hz. rewrite <- (as_signed_id 32 z) at 2 by (unfold is_i32 in Hz; lia).
  unfold as_i32, as_signed. by rewrite Z.mod_mod by lia.
Qed.

Lemma as_i64_id z : is_i64 z -> as_i64 z = z.
Proof.
  intros Hz. rewrite <- (as_signed_id 64 z) at 2 by (unfold is_i64 in Hz; lia).
  unfold as_i64, as_signed. by rewrite Z.mod_mod by lia.
Qed.

Lemma wrap_u64_id z : is_u64 z -> wrap_u64 z = z.
Proof. apply Z.mod_small. Qed.

Lemma wrap_u64_range z : is_u64 (wrap_u64 z).
Proof. apply Z.mod_pos_bound. lia. Qed.

(** ** Big-endian encoding *)

Fixpoint be_bytes (n : nat) (z : Z) : list byte :=
  match n with
  | O => []
  | S m => byte_of (z / 256 ^ Z.of_nat m) :: be_bytes m z
  end.

Definition be_val (bs : list byte) : Z :=
  foldl (fun acc b => acc * 256 + byte_val b) 0 bs.

Lemma be_bytes_length n z : length (be_bytes n z) = n.
Proof. induction n; simpl; congruence. Qed.

Lemma be_val_app xs ys : be_val (xs ++ ys) = be_val xs * 256 ^ Z.of_nat (length ys) + be_val ys.
Proof.
  unfold be_val. rewrite foldl_app.
  generalize (foldl (fun acc b => acc * 256 + byte_val b) 0 xs) as a.
  induction ys as [|y ys IH]; intros a; cbn [foldl length]; [lia|].
  rewrite IH, (IH (0 * 256 + byte_val y)). rewrite Nat2Z.inj_succ, Z.pow_succ_r by lia. lia.
Qed.

Lemma be_val_cons b bs : be_val (b :: bs) = byte_val b * 256 ^ Z.of_nat (length bs) + be_val bs.
Proof. apply (be_val_app [b] bs). Qed.

Lemma be_val_range bs : 0 <= be_val bs < 256 ^ Z.of_nat (length bs).
Proof.
  induction bs as [|b bs IH]; [cbv; split; congruence|].
  rewrite be_val_cons. cbn [length]. rewrite Nat2Z.inj_succ, Z.pow_succ_r by lia.
  pose proof (byte_val_range b). nia.
Qed.

Lemma be_val_bytes n z : be_val (be_bytes n z) = z mod 256 ^ Z.of_nat n.
Proof.
  induction n as [|n IH]; [cbn; by rewrite Z.mod_1_r|].
  cbn [be_bytes]. rewrite be_val_cons, be_bytes_length, IH, byte_val_of.
  rewrite Nat2Z.inj_succ, Z.pow_succ_r by lia.
  rewrite (Z.mul_comm 256), Z.rem_mul_r by lia. lia.
Qed.

Lemma be_bytes_val bs : be_bytes (length bs) (be_val bs) = bs.
Proof.
  assert (forall n z b, 0 <= b -> be_bytes n (b * 256 ^ Z.of_nat n + z) = be_bytes n z) as Hshift.
  { intros n. induction n as [|n IH]; intros z b Hb; [done|]. cbn [be_bytes]. f_equal.
    - apply byte_val_inj. rewrite !byte_val_of. rewrite Nat2Z.inj_succ, Z.pow_succ_r by lia.
      replace (b * (256 * 256 ^ Z.of_nat n) + z) with (z + b * 256 * 256 ^ Z.of_nat n) by lia.
      rewrite Z.div_add by lia. by rewrite Z.mod_add by lia.
    - rewrite <- (IH z (b * 256)) by lia. f_equal.
      rewrite Nat2Z.inj_succ, Z.pow_succ_r by lia. lia. }
  induction bs as [|b bs IH]; [done|]. cbn [length be_bytes]. f_equal.
  - rewrite be_val_cons. rewrite Z.add_comm, Z.div_add by lia.
    rewrite Z.div_small by apply be_val_range. apply byte_of_val.
  - rewrite be_val_cons, Hshift by apply byte_val_range. done.
Qed.

Lemma be_val_inj xs ys : length xs = length ys -> be_val xs = be_val ys -> xs = ys.
Proof. intros Hl Hv. rewrite <- (be_bytes_val xs), Hl, Hv. apply be_bytes_val. Qed.

(** ** Little-endian encoding *)

Definition le_bytes (n : nat) (z : Z) : list byte := rev (be_bytes n z).
Definition le_val (bs : list byte) : Z := be_val (rev bs).

Lemma le_bytes_length n z : length (le_bytes n z) = n.
Proof. unfold le_bytes. by rewrite length_rev, be_bytes_length. Qed.
Lemma le_val_bytes n z : le_val (le_bytes n z) = z mod 256 ^ Z.of_nat n.
Proof. unfold le_val, le_bytes. rewrite rev_involutive. apply be_val_bytes. Qed.
Lemma le_bytes_val bs : le_bytes (length bs) (le_val bs) = bs.
Proof. unfold le_val, le_bytes. rewrite <- length_rev, be_bytes_val. apply rev_involutive. Qed.
Lemma le_val_range bs : 0 <= le_val bs < 256 ^ Z.of_nat (length bs).
Proof. unfold le_val. rewrite <- length_rev. apply be_val_range. Qed.

(** ** The order of byte strings *)

(** Lexicographic order of byte strings ([Vec<u8>]'s [cmp]). *)
Fixpoint bytes_leb (xs ys : list byte) : bool :=
  match xs, ys with
  | [], _ => true
  | _ :: _, [] => false
  | x :: xs', y :: ys' =>
      (byte_val x <? byte_val y) || ((byte_val x =? byte_val y) && bytes_leb xs' ys')
  end.

Lemma bytes_leb_total xs ys : bytes_leb xs ys = false -> bytes_leb ys xs = true.
Proof.
  revert ys. induction xs as [|x xs IH]; intros [|y ys]; cbn; try done.
  destruct (Z.ltb_spec (byte_val x) (byte_val y)); [done|].
  destruct (Z.eqb_spec (byte_val x) (byte_val y)) as [E|E]; cbn.
  - intros H1. rewrite <- E, Z.eqb_refl, Z.ltb_irrefl. cbn. by apply IH.
  - intros _. destruct (Z.ltb_spec (byte_val y) (byte_val x)); [done|lia].
Qed.

Lemma bytes_leb_antisym xs ys : bytes_leb xs ys = true -> bytes_leb ys xs = true -> xs = ys.
Proof.
  revert ys. induction xs as [|x xs IH]; intros [|y ys]; cbn; try done.
  rewrite !orb_true_iff, !andb_true_iff, !Z.ltb_lt, !Z.eqb_eq. intros [?|[E H1]] [?|[E2 H2]]; try lia.
  apply byte_val_inj in E as ->. f_equal. by apply IH.
Qed.

Lemma bytes_leb_trans xs ys zs : bytes_leb xs ys = true -> bytes_leb ys zs = true -> bytes_leb xs zs = true.
Proof.
  revert ys zs. induction xs as [|x xs IH]; intros [|y ys] [|z zs]; cbn; try done.
  rewrite !orb_true_iff, !andb_true_iff, !Z.ltb_lt, !Z.eqb_eq. intros [?|[E H1]] [?|[E' H2]]; try (left; lia).
  right. split; [congruence|by eapply IH].
Qed.

(** ** Readers *)

Definition reader (A : Type) : Type := list byte -> result (A * list byte).

#[export] Instance reader_ret : MRet reader := fun _ a r => Ok (a, r).
#[export] Instance reader_bind : MBind reader := fun _ _ f m r =>
  match m r with
  | Ok (a, r') => f a r'
  | Err e => Err e
  | Panic => Panic
  end.

#[export] Instance reader_fmap : FMap reader := fun _ _ f m r =>
  match m r with
  | Ok (a, r') => Ok (f a, r')
  | Err e => Err e
  | Panic => Panic
  end.

Definition reader_fail {A} (e : QuilError) : reader A := fun _ => Err e.
(** [if cond { return Err(e) }] *)
Definition reader_guard (c : bool) (e : QuilError) : reader unit :=
  if c then mret () else reader_fail e.

(** [Read::read_exact]: [n] bytes or an end-of-file error. *)
Definition read_exact (e : QuilError) (n : nat) : reader (list byte) := fun r =>
  if (n <=? length r)%nat then Ok (take n r, drop n r) else Err e.

(** A loop [for _ in 0..n { v.push(rd(r)?) }]. *)
Fixpoint read_many {A} (rd : reader A) (n : nat) : reader (list A) :=
  match n with
  | O => mret []
  | S m => a ← rd; l ← read_many rd m; mret (a :: l)
  end.

(** The contract between a writer [enc] and a reader [dec] on the values
    satisfying [ok]: reading back what was written yields the value and
    leaves exactly the bytes that follow it. *)
Class RoundTrip {A : Type} (enc : A -> list byte) (dec : reader A) (ok : A -> Prop) : Prop :=
  round_trip : forall a rest, ok a -> dec (enc a ++ rest) = Ok (a, rest).

Lemma read_exact_app e bs rest n : n = length bs -> read_exact e n (bs ++ rest) = Ok (bs, rest).
Proof.
  intros ->. unfold read_exact. rewrite length_app.
  destruct (Nat.leb_spec (length bs) (length bs + length rest)); [|lia].
  by rewrite take_app_length, drop_app_length.
Qed.

Lemma read_exact_short e n r : (length r < n)%nat -> read_exact e n r = Err e.
Proof. intros H. unfold read_exact. destruct (Nat.leb_spec n (length r)); [lia|done]. Qed.

Lemma reader_bind_Ok {A B} (m : reader A) (f : A -> reader B) r a r' :
  m r = Ok (a, r') -> (m ≫= f) r = f a r'.
Proof. intros H. unfold mbind, reader_bind. by rewrite H. Qed.

Lemma read_many_app {A} (enc : A -> list byte) (dec : reader A) ok `{!RoundTrip enc dec ok} l rest :
  Forall ok l -> read_many dec (length l) (concat (enc <$> l) ++ rest) = Ok (l, rest).
Proof.
  induction 1 as [|a l Ha Hl IH]; [done|].
  cbn [read_many length fmap list_fmap concat]. rewrite <- app_assoc.
  erewrite reader_bind_Ok by (by apply round_trip).
  by erewrite reader_bind_Ok by apply IH.
Qed.

(** A reader does not invent bytes: what is left is a suffix of its input. *)
Definition reader_suffix {A} (rd : reader A) : Prop :=
  forall r a r', rd r = Ok (a, r') -> exists pre, r = pre ++ r'.

Lemma reader_fmap_Ok {A B} (f : A -> B) (m : reader A) r a r' :
  m r = Ok (a, r') -> (f <$> m) r = Ok (f a, r').
Proof. intros H. unfold fmap, reader_fmap. by rewrite H. Qed.

Lemma reader_ret_Ok {A} (a : A) r : (mret a : reader A) r = Ok (a, r).
Proof. done. Qed.

(** Inverting a sequence of reads. *)
Lemma reader_bind_inv {A B} (m : reader A) (f : A -> reader B) r b r' :
  (m ≫= f) r = Ok (b, r') -> exists a r1, m r = Ok (a, r1) /\ f a r1 = Ok (b, r').
Proof. unfold mbind, reader_bind. destruct (m r) as [[a r1]| |]; naive_solver. Qed.

Lemma read_many_inv {A} (rd : reader A) n r l r' : read_many rd n r = Ok (l, r') ->
  length l = n /\ forall i a, l !! i = Some a -> exists r1 r2, rd r1 = Ok (a, r2).
Proof.
  revert r l. induction n as [|n IH]; intros r l; cbn [read_many].
  - intros [= <- <-]. done.
  - intros (a & r1 & Ha & (l' & r2 & Hl & [= <- <-])%reader_bind_inv)%reader_bind_inv.
    apply IH in Hl as [Hlen Hl]. split; [cbn; lia|]. intros [|i] x Hi; [|by eapply Hl].
    injection Hi as <-. eauto.
Qed.

(** ** Readers that never panic *)

Definition reader_safe {A} (rd : reader A) : Prop := forall r, rd r <> Panic.

Lemma safe_ret {A} (a : A) : reader_safe (mret a).
Proof. done. Qed.
Lemma safe_fail {A} e : reader_safe (reader_fail e : reader A).
Proof. done. Qed.
Lemma safe_exact e n : reader_safe (read_exact e n).
Proof. intros r. unfold read_exact. by destruct (n <=? length r)%nat. Qed.
Lemma safe_bind {A B} (m : reader A) (f : A -> reader B) :
  reader_safe m -> (forall a, reader_safe (f a)) -> reader_safe (m ≫= f).
Proof.
  intros Hm Hf r. unfold mbind, reader_bind. specialize (Hm r).
  destruct (m r) as [[a r']| |]; [apply Hf|done|done].
Qed.
Lemma safe_fmap {A B} (f : A -> B) (m : reader A) : reader_safe m -> reader_safe (f <$> m).
Proof. intros Hm r. unfold fmap, reader_fmap. specialize (Hm r). by destruct (m r) as [[a r']| |]. Qed.
Lemma safe_many {A} (rd : reader A) n : reader_safe rd -> reader_safe (read_many rd n).
Proof.
  intros Hrd. induction n as [|n IH]; [apply safe_ret|]. cbn [read_many].
  apply safe_bind; [done|]. intros a. apply safe_bind; [done|]. intros l. apply safe_ret.
Qed.
Lemma safe_if {A} (c : bool) (m1 m2 : reader A) : reader_safe m1 -> reader_safe m2 -> reader_safe (if c then m1 else m2).
Proof. by destruct c. Qed.
Lemma safe_decide {A} (P : Prop) `{Decision P} (m1 m2 : reader A) :
  reader_safe m1 -> reader_safe m2 -> reader_safe (if decide P then m1 else m2).
Proof. by destruct (decide P). Qed.

Lemma safe_guard c e : reader_safe (reader_guard c e).
Proof. intros r. by destruct c. Qed.

Create HintDb readers.
#[export] Hint Resolve safe_guard safe_ret safe_fail safe_exact safe_bind safe_fmap safe_many safe_if safe_decide : readers.
