(* ===== verification/Nibble.v ===== *)
(** * Nibble paths of trie keys ([src/crates/quil-tries/src/nibble.rs])

    A key is read as a bit string, most significant bit first, cut into 6-bit
    nibbles; the last nibble is padded with zero bits.  [nibble_ref] is the
    reference definition on bit lists that [get_next_nibble] is proved equal to. *)

From S2P Require Import Prelude Bytes.

Abbreviation key := (list byte) (only parsing).

Definition BRANCH_NODES : nat := 64.
Definition BRANCH_BITS : nat := 6.
Definition BRANCH_MASK : Z := 63.

Definition get_next_nibble (k : key) (pos : nat) : Z :=
  let start_byte := (pos / 8)%nat in
  match k !! start_byte with
  | None => -1
  | Some b =>
      let start_bit := (pos mod 8)%nat in
      let bits_from_current_byte := (8 - start_bit)%nat in
      let result := Z.land (byte_val b) (Z.shiftl 1 (Z.of_nat bits_from_current_byte) - 1) in
      if (BRANCH_BITS <=? bits_from_current_byte)%nat then
        Z.land (Z.shiftr result (Z.of_nat (bits_from_current_byte - BRANCH_BITS))) BRANCH_MASK
      else
        let remaining_bits := (BRANCH_BITS - bits_from_current_byte)%nat in
        let result := Z.shiftl result (Z.of_nat remaining_bits) in
        let result :=
          match k !! (start_byte + 1)%nat with
          | Some next_byte => Z.lor result (Z.shiftr (byte_val next_byte) (Z.of_nat (8 - remaining_bits)))
          | None => result
          end in
        Z.land result BRANCH_MASK
  end.

(** The [loop] of [get_full_path]; the fuel [2 * len + 1] is enough because a
    key of [len] bytes has at most [2 * len] nibbles ([full_path_loop_fuel]). *)
Fixpoint get_full_path_loop (fuel : nat) (k : key) (depth : nat) : list Z :=
  match fuel with
  | O => []
  | S f =>
      let n := get_next_nibble k depth in
      if n =? -1 then [] else n :: get_full_path_loop f k (depth + BRANCH_BITS)
  end.

Definition get_full_path (k : key) : list Z :=
  get_full_path_loop (2 * length k + 1) k 0.

Fixpoint get_nibbles_until_diverge_loop (fuel : nat) (k1 k2 : key) (depth : nat) : list Z * nat :=
  match fuel with
  | O => ([], depth)
  | S f =>
      let n1 := get_next_nibble k1 depth in
      let n2 := get_next_nibble k2 depth in
      if negb (n1 =? n2) || (n1 =? -1) then ([], depth)
      else let '(ns, d) := get_nibbles_until_diverge_loop f k1 k2 (depth + BRANCH_BITS) in
           (n1 :: ns, d)
  end.

Definition get_nibbles_until_diverge (k1 k2 : key) (start_depth : nat) : list Z * nat :=
  get_nibbles_until_diverge_loop (2 * length k1 + 1) k1 k2 start_depth.

(** ** The reference: a key as a bit string *)

Definition byte_bits (b : byte) : list bool :=
  Z.testbit (byte_val b) <$> [7; 6; 5; 4; 3; 2; 1; 0].
Definition key_bits (k : key) : list bool := k ≫= byte_bits.
Definition bits_val (l : list bool) : Z := foldl (fun acc b => 2 * acc + Z.b2z b) 0 l.

Definition nibble_ref (k : key) (pos : nat) : Z :=
  if (pos <? 8 * length k)%nat
  then bits_val (take BRANCH_BITS (drop pos (key_bits k) ++ replicate BRANCH_BITS false))
  else -1.

Lemma byte_bits_length b : length (byte_bits b) = 8%nat.
Proof. done. Qed.

Lemma key_bits_length k : length (key_bits k) = (8 * length k)%nat.
Proof.
  induction k as [|b k IH]; [done|].
  change (key_bits (b :: k)) with (byte_bits b ++ key_bits k).
  rewrite length_app, IH, byte_bits_length. cbn [length]. lia.
Qed.

Lemma key_bits_app k1 k2 : key_bits (k1 ++ k2) = key_bits k1 ++ key_bits k2.
Proof. apply bind_app. Qed.

Lemma bits_val_acc l a : foldl (fun acc b => 2 * acc + Z.b2z b) a l = a * 2 ^ Z.of_nat (length l) + bits_val l.
Proof.
  unfold bits_val. revert a. induction l as [|b l IH]; intros a; cbn [foldl length]; [lia|].
  rewrite IH, (IH (2 * 0 + Z.b2z b)). rewrite Nat2Z.inj_succ, Z.pow_succ_r by lia. lia.
Qed.

Lemma bits_val_app l1 l2 : bits_val (l1 ++ l2) = bits_val l1 * 2 ^ Z.of_nat (length l2) + bits_val l2.
Proof. unfold bits_val at 1. by rewrite foldl_app, bits_val_acc. Qed.

Lemma bits_val_range l : 0 <= bits_val l < 2 ^ Z.of_nat (length l).
Proof.
  induction l as [|b l IH]; [cbv; split; congruence|].
  change (b :: l) with ([b] ++ l). rewrite bits_val_app.
  change (bits_val [b]) with (0 + Z.b2z b). rewrite length_app. cbn [length].
  rewrite Nat2Z.inj_add, Z.pow_add_r by lia.
  assert (0 <= Z.b2z b <= 1) by (destruct b; cbn; lia).
  change (2 ^ Z.of_nat 1) with 2. nia.
Qed.

Lemma bits_val_inj l1 l2 : length l1 = length l2 -> bits_val l1 = bits_val l2 -> l1 = l2.
Proof.
  revert l2. induction l1 as [|b l1 IH] using rev_ind; intros l2 Hl Hv.
  { by destruct l2. }
  destruct l2 as [|b' l2 _] using rev_ind; [rewrite length_app in Hl; cbn in Hl; lia|].
  rewrite !length_app in Hl. cbn in Hl. rewrite !bits_val_app in Hv. cbn in Hv.
  destruct b, b'; cbn in Hv; first [lia | f_equal; apply IH; lia].
Qed.

(** ** [get_next_nibble] against the reference *)

Lemma byte_bits_drop b s : (s <= 8)%nat ->
  bits_val (drop s (byte_bits b)) = Z.land (byte_val b) (Z.shiftl 1 (Z.of_nat (8 - s)) - 1).
Proof. intros Hs. do 9 (destruct s as [|s]; [destruct b; reflexivity|]). lia. Qed.

Lemma byte_bits_take b n : (n <= 8)%nat ->
  bits_val (take n (byte_bits b)) = Z.shiftr (byte_val b) (Z.of_nat (8 - n)).
Proof. intros Hn. do 9 (destruct n as [|n]; [destruct b; reflexivity|]). lia. Qed.

Lemma bits_val_byte b : bits_val (byte_bits b) = byte_val b.
Proof. by destruct b. Qed.

Lemma byte_bits_inj a b : byte_bits a = byte_bits b -> a = b.
Proof. intros H. apply byte_val_inj. by rewrite <- !bits_val_byte, H. Qed.

Lemma key_bits_inj k1 k2 : length k1 = length k2 -> key_bits k1 = key_bits k2 -> k1 = k2.
Proof.
  revert k2. induction k1 as [|a k1 IH]; intros [|b k2] Hl Hb; try done.
  change (byte_bits a ++ key_bits k1 = byte_bits b ++ key_bits k2) in Hb.
  apply app_inj_1 in Hb as [Ha Hk]; [|done].
  f_equal; [by apply byte_bits_inj|apply IH; [by injection Hl|done]].
Qed.

(** The bits of a key from position [8 q + s] on. *)
Lemma key_bits_drop k q s b : k !! q = Some b -> (s <= 8)%nat ->
  drop (8 * q + s) (key_bits k) = drop s (byte_bits b) ++ key_bits (drop (S q) k).
Proof.
  intros Hq Hs. rewrite <- (take_drop_middle k q b Hq) at 1.
  rewrite key_bits_app. rewrite drop_app_ge; rewrite key_bits_length, length_take_le;
    try (apply lookup_lt_Some in Hq; lia).
  replace (8 * q + s - 8 * q)%nat with s by lia.
  change (key_bits (b :: drop (S q) k)) with (byte_bits b ++ key_bits (drop (S q) k)).
  rewrite drop_app_le; [done|]. rewrite byte_bits_length. lia.
Qed.

Lemma land_63 z : 0 <= z < 64 -> Z.land z BRANCH_MASK = z.
Proof.
  intros H. unfold BRANCH_MASK. change 63 with (Z.ones 6).
  rewrite Z.land_ones by lia. apply Z.mod_small. done.
Qed.

Lemma nibble_one_byte b s rest : (s <= 2)%nat ->
  bits_val (take 6 (drop s (byte_bits b) ++ rest)) =
  Z.land (Z.shiftr (Z.land (byte_val b) (Z.shiftl 1 (Z.of_nat (8 - s)) - 1)) (Z.of_nat (8 - s - 6))) BRANCH_MASK.
Proof.
  intros Hs. rewrite take_app_le by (rewrite length_drop, byte_bits_length; lia).
  do 3 (destruct s as [|s]; [destruct b; reflexivity|]). lia.
Qed.

Lemma nibble_two_bytes b s tl : (2 < s < 8)%nat ->
  bits_val (take 6 (drop s (byte_bits b) ++ tl)) =
  Z.land (Z.lor (Z.shiftl (Z.land (byte_val b) (Z.shiftl 1 (Z.of_nat (8 - s)) - 1)) (Z.of_nat (s - 2)))
                (bits_val (take (s - 2) tl))) BRANCH_MASK
  \/ (length tl < s - 2)%nat.
Proof.
  intros Hs. destruct (decide (length tl < s - 2)%nat); [by right|left].
  rewrite <- byte_bits_drop by lia.
  rewrite take_app_ge by (rewrite length_drop, byte_bits_length; lia).
  rewrite length_drop, byte_bits_length. replace (6 - (8 - s))%nat with (s - 2)%nat by lia.
  rewrite bits_val_app, length_take_le by lia.
  pose proof (bits_val_range (drop s (byte_bits b))) as H1.
  pose proof (bits_val_range (take (s - 2) tl)) as H2.
  rewrite length_drop, byte_bits_length in H1. rewrite length_take_le in H2 by lia.
  rewrite lor_shiftl_add by lia. rewrite land_63; [done|].
  split; [nia|]. replace 64 with (2 ^ Z.of_nat (8 - s) * 2 ^ Z.of_nat (s - 2)); [nia|].
  rewrite <- Z.pow_add_r by lia. by replace (Z.of_nat (8 - s) + Z.of_nat (s - 2)) with 6 by lia.
Qed.

Lemma get_next_nibble_ref k pos : get_next_nibble k pos = nibble_ref k pos.
Proof.
  unfold get_next_nibble, nibble_ref.
  pose proof (Nat.div_mod_eq pos 8) as Hpos. pose proof (Nat.mod_upper_bound pos 8 ltac:(lia)) as Hs.
  set (q := (pos / 8)%nat) in *. set (s := (pos mod 8)%nat) in *.
  destruct (k !! q) as [b|] eqn:Hq.
  2: { apply lookup_ge_None in Hq. destruct (Nat.ltb_spec pos (8 * length k)); [lia|done]. }
  apply lookup_lt_Some in Hq as Hlen. destruct (Nat.ltb_spec pos (8 * length k)); [|lia].
  rewrite Hpos, (key_bits_drop _ _ _ _ Hq) by lia. rewrite <- app_assoc. unfold BRANCH_BITS.
  destruct (Nat.leb_spec 6 (8 - s)); [symmetry; apply nibble_one_byte; lia|].
  replace (6 - (8 - s))%nat with (s - 2)%nat by lia.
  destruct (nibble_two_bytes b s (key_bits (drop (S q) k) ++ replicate 6 false)) as [->|Hl]; [lia| |].
  2: { rewrite length_app, length_replicate in Hl. lia. }
  f_equal. replace (q + 1)%nat with (S q) by lia.
  destruct (k !! S q) as [nb|] eqn:Hnb.
  - rewrite (drop_S _ _ _ Hnb).
    change (key_bits (nb :: drop (S (S q)) k)) with (byte_bits nb ++ key_bits (drop (S (S q)) k)).
    rewrite <- app_assoc, take_app_le by (rewrite byte_bits_length; lia).
    by rewrite byte_bits_take by lia.
  - apply lookup_ge_None in Hnb. rewrite drop_ge by lia.
    change (key_bits []) with (@nil bool). rewrite app_nil_l, take_replicate.
    rewrite Nat.min_l by lia. symmetry.
    replace (bits_val (replicate (s - 2) false)) with 0; [apply Z.lor_0_r|].
    clear. generalize (s - 2)%nat as n. induction n as [|n IH]; [done|].
    replace (S n) with (n + 1)%nat by lia. rewrite replicate_add, bits_val_app, <- IH. done.
Qed.

Lemma get_next_nibble_range k pos : -1 <= get_next_nibble k pos < 64.
Proof.
  rewrite get_next_nibble_ref. unfold nibble_ref.
  destruct (Nat.ltb_spec pos (8 * length k)); [|lia].
  match goal with |- context [bits_val ?l] => pose proof (bits_val_range l) as H0 end.
  rewrite length_take_le in H0
    by (rewrite length_app, length_replicate, length_drop, key_bits_length; unfold BRANCH_BITS; lia).
  change (2 ^ Z.of_nat BRANCH_BITS) with 64 in H0. lia.
Qed.

Lemma get_next_nibble_neg k pos : get_next_nibble k pos = -1 <-> (8 * length k <= pos)%nat.
Proof.
  rewrite get_next_nibble_ref. unfold nibble_ref.
  destruct (Nat.ltb_spec pos (8 * length k)); [|split; [lia|done]].
  match goal with |- context [bits_val ?l] => pose proof (bits_val_range l) end. lia.
Qed.

Lemma get_next_nibble_nonneg k pos : 0 <= get_next_nibble k pos <-> (pos < 8 * length k)%nat.
Proof.
  pose proof (get_next_nibble_neg k pos). pose proof (get_next_nibble_range k pos). lia.
Qed.

(** ** Full paths *)

Lemma full_path_loop_lookup fuel k d i : (8 * length k <= d + 6 * fuel)%nat ->
  get_full_path_loop fuel k d !! i =
  if (d + 6 * i <? 8 * length k)%nat then Some (get_next_nibble k (d + 6 * i)) else None.
Proof.
  revert d i. induction fuel as [|f IH]; intros d i Hf; cbn [get_full_path_loop].
  { destruct (Nat.ltb_spec (d + 6 * i) (8 * length k)); [lia|done]. }
  destruct (Z.eqb_spec (get_next_nibble k d) (-1)) as [E|E].
  - apply get_next_nibble_neg in E. destruct (Nat.ltb_spec (d + 6 * i) (8 * length k)); [lia|done].
  - rewrite get_next_nibble_neg in E. rewrite lookup_cons. destruct i as [|i].
    + rewrite Nat.mul_0_r, Nat.add_0_r. destruct (Nat.ltb_spec d (8 * length k)); [done|lia].
    + rewrite IH by (unfold BRANCH_BITS; lia).
      unfold BRANCH_BITS. by replace (d + 6 + 6 * i)%nat with (d + 6 * S i)%nat by lia.
Qed.

Lemma full_path_lookup k i :
  get_full_path k !! i =
  if (6 * i <? 8 * length k)%nat then Some (get_next_nibble k (6 * i)) else None.
Proof. apply (full_path_loop_lookup _ _ 0). lia. Qed.

(** Any larger fuel gives the same path: the loop has run to its exit. *)
Lemma full_path_loop_fuel fuel k : (2 * length k + 1 <= fuel)%nat ->
  get_full_path_loop fuel k 0 = get_full_path k.
Proof.
  intros Hf. apply list_eq. intros i.
  by rewrite full_path_lookup, (full_path_loop_lookup _ _ 0) by lia.
Qed.

Lemma nibble_path k i : get_next_nibble k (6 * i) = default (-1) (get_full_path k !! i).
Proof.
  rewrite full_path_lookup. destruct (Nat.ltb_spec (6 * i) (8 * length k)); [done|].
  by apply get_next_nibble_neg.
Qed.

Lemma full_path_range k : Forall (fun n => 0 <= n < 64) (get_full_path k).
Proof.
  apply Forall_lookup. intros i n. rewrite full_path_lookup.
  destruct (Nat.ltb_spec (6 * i) (8 * length k)); [|done]. intros Hn%(inj Some). subst n.
  pose proof (get_next_nibble_range k (6 * i)).
  pose proof (proj2 (get_next_nibble_nonneg k (6 * i)) ltac:(lia)). lia.
Qed.

(** The number of nibbles of a key of [n] bytes. *)
Lemma nibble_count_bounds n : (8 * n <= 6 * ((8 * n + 5) / 6) < 8 * n + 6)%nat.
Proof.
  pose proof (Nat.div_mod_eq (8 * n + 5) 6).
  pose proof (Nat.mod_upper_bound (8 * n + 5) 6 ltac:(lia)). lia.
Qed.

Lemma full_path_length k : length (get_full_path k) = ((8 * length k + 5) / 6)%nat.
Proof.
  pose proof (nibble_count_bounds (length k)) as Hc.
  set (c := ((8 * length k + 5) / 6)%nat) in *.
  apply Nat.le_antisymm; apply Nat.nlt_ge; intros H.
  - apply lookup_lt_is_Some in H as [n Hn]. rewrite full_path_lookup in Hn.
    destruct (Nat.ltb_spec (6 * c) (8 * length k)); [lia|done].
  - assert (get_full_path k !! length (get_full_path k) = None) as E by (apply lookup_ge_None; lia).
    rewrite full_path_lookup in E.
    destruct (Nat.ltb_spec (6 * length (get_full_path k)) (8 * length k)); [done|lia].
Qed.

(** Keys of the same length with the same path have the same bits. *)
Lemma full_path_bits k1 k2 : length k1 = length k2 -> get_full_path k1 = get_full_path k2 ->
  key_bits k1 = key_bits k2.
Proof.
  intros Hl Hp. apply list_eq. intros p.
  destruct (decide (p < 8 * length k1)%nat) as [Hlt|Hge].
  2: { rewrite !lookup_ge_None_2; [done| |]; rewrite key_bits_length; lia. }
  set (i := (p / 6)%nat). pose proof (Nat.div_mod_eq p 6) as Hpe.
  pose proof (Nat.mod_upper_bound p 6 ltac:(lia)) as Hj. fold i in Hpe.
  set (j := (p mod 6)%nat) in *.
  assert (forall k, length k = length k1 ->
    key_bits k !! p = take 6 (drop (6 * i) (key_bits k) ++ replicate 6 false) !! j) as Hbit.
  { intros k Hk. rewrite lookup_take_lt by lia. rewrite lookup_app_l.
    - rewrite lookup_drop. f_equal. lia.
    - rewrite length_drop, key_bits_length. lia. }
  rewrite (Hbit k1), (Hbit k2) by done. f_equal.
  assert (get_next_nibble k1 (6 * i) = get_next_nibble k2 (6 * i)) as Hn
    by by rewrite !nibble_path, Hp.
  rewrite !get_next_nibble_ref in Hn. unfold nibble_ref in Hn.
  destruct (Nat.ltb_spec (6 * i) (8 * length k1)); [|lia].
  destruct (Nat.ltb_spec (6 * i) (8 * length k2)); [|lia].
  apply bits_val_inj; [|done].
  rewrite !length_take_le; [done| |]; rewrite length_app, length_replicate; lia.
Qed.

(** Nibble paths identify keys: the padding never merges two of them. *)
Lemma full_path_inj_aux k1 k2 : get_full_path k1 = get_full_path k2 -> k1 = k2.
Proof.
  intros Hp. assert (length k1 = length k2) as Hl.
  { apply (f_equal length) in Hp. rewrite !full_path_length in Hp.
    pose proof (nibble_count_bounds (length k1)). pose proof (nibble_count_bounds (length k2)). lia. }
  apply key_bits_inj; [done|]. by apply full_path_bits.
Qed.

(** ** Divergence *)

Lemma diverge_loop_spec fuel k1 k2 d :
  (length (get_full_path k1) < d + fuel)%nat -> (d <= length (get_full_path k1))%nat ->
  forall c r1 r2, max_prefix (drop d (get_full_path k1)) (drop d (get_full_path k2)) = (r1, r2, c) ->
  get_nibbles_until_diverge_loop fuel k1 k2 (6 * d) = (c, 6 * (d + length c))%nat.
Proof.
  revert d. induction fuel as [|f IH]; intros d Hf Hd c r1 r2 Hm; [lia|].
  cbn [get_nibbles_until_diverge_loop]. rewrite !nibble_path.
  destruct (get_full_path k1 !! d) as [n1|] eqn:H1; cbn [from_option]; unfold id.
  2: { apply lookup_ge_None in H1. rewrite (drop_ge (get_full_path k1)) in Hm by lia.
       cbn in Hm. injection Hm as <- <- <-. 
       replace (6 * (d + length (@nil Z)))%nat with (6 * d)%nat by (cbn; lia).
       destruct (negb _); done. }
  rewrite (drop_S _ _ _ H1) in Hm. pose proof (full_path_range k1) as HR.
  eapply Forall_lookup_1 in HR; [|exact H1]. 
  destruct (Z.eqb_spec n1 (-1)); [cbn in HR; lia|].
  rewrite orb_false_r.
  destruct (get_full_path k2 !! d) as [n2|] eqn:H2; cbn [from_option]; unfold id.
  2: { apply lookup_ge_None in H2. rewrite (drop_ge (get_full_path k2)) in Hm by lia.
       cbn in Hm. injection Hm as <- <- <-.
       destruct (Z.eqb_spec n1 (-1)); [done|]. cbn. f_equal. lia. }
  rewrite (drop_S _ _ _ H2) in Hm. cbn [max_prefix] in Hm.
  destruct (decide_rel (=) n1 n2) as [->|Hne].
  - rewrite Z.eqb_refl. cbn [negb].
    destruct (max_prefix (drop (S d) (get_full_path k1)) (drop (S d) (get_full_path k2))) as [[r1' r2'] c'] eqn:Hm'.
    cbn in Hm. injection Hm as <- <- <-.
    apply lookup_lt_Some in H1.
    replace (6 * d + BRANCH_BITS)%nat with (6 * S d)%nat by (unfold BRANCH_BITS; lia).
    rewrite (IH (S d) ltac:(lia) ltac:(lia) _ _ _ Hm'). f_equal. cbn [length]. lia.
  - injection Hm as <- <- <-. destruct (Z.eqb_spec n1 n2); [done|]. cbn. f_equal. lia.
Qed.

Lemma diverge_spec k1 k2 d c r1 r2 :
  (d <= length (get_full_path k1))%nat ->
  max_prefix (drop d (get_full_path k1)) (drop d (get_full_path k2)) = (r1, r2, c) ->
  get_nibbles_until_diverge k1 k2 (6 * d) = (c, 6 * (d + length c))%nat.
Proof.
  intros Hd Hm. eapply diverge_loop_spec; [|done|done].
  rewrite full_path_length. pose proof (nibble_count_bounds (length k1)). lia.
Qed.

(** ** What nibble paths promise *)

(** The nibble extraction, written with shifts and masks over one or two
    bytes, reads the six bits of the key's bit string that start at the given
    position, padded with zeros at the end of the key, and returns -1 exactly
    past the end. *)
Theorem nibble_is_bits (k : key) (pos : nat) : get_next_nibble k pos = nibble_ref k pos.
Proof. apply get_next_nibble_ref. Qed.

(** The path loop terminates: with any fuel of at least twice the key
    length plus one it yields the same path, which has one nibble for every six
    bits (rounded up) and determines the key. *)
Theorem full_path_total (k : key) (fuel : nat) : (2 * length k + 1 <= fuel)%nat ->
  get_full_path_loop fuel k 0 = get_full_path k /\
  length (get_full_path k) = ((8 * length k + 5) / 6)%nat /\
  (forall k', get_full_path k' = get_full_path k -> k' = k).
Proof.
  intros Hf. split_and!; [by apply full_path_loop_fuel|apply full_path_length|].
  intros k' Hk. by apply full_path_inj_aux.
Qed.

Lemma full_path_total_witness :
  get_full_path_loop 9 [xab; xcd; xef] 0 = get_full_path [xab; xcd; xef] /\
  length (get_full_path [xab; xcd; xef]) = 4%nat /\
  (forall k', get_full_path k' = get_full_path [xab; xcd; xef] -> k' = [xab; xcd; xef]).
Proof. apply (full_path_total [xab; xcd; xef] 9). cbn. lia. Defined.
