(* ===== verification/Trie.v ===== *)
(** * The vector commitment tree ([src/crates/quil-tries/src/node.rs], [tree.rs])

    The 64-way, prefix-compressed trie that commits vertex and state data: its
    nodes, and insertion, lookup, deletion and enumeration.  Commitments and
    proofs are in [TrieCommit], the abstract specification in [TrieSpec].

    A [usize] counter is a [Z] that wraps as in a release build; a depth is a
    [nat] (bit offsets into a key).  Indexing a child array with a prefix
    element outside [0, 64) is a [Panic]. *)

From S2P Require Import Prelude Bytes Nibble.

(** SHA-2 (crate [sha2]) is a parameter of the model. *)
Class Sha2 := {
  Sha512 : list byte -> list byte;
  Sha256 : list byte -> list byte;
}.

(** Documented behaviour of [sha2]: digests have a fixed length. *)
Class Sha2Laws `{Sha2} : Prop := {
  Sha512_length : forall m, length (Sha512 m) = 64%nat;
  Sha256_length : forall m, length (Sha256 m) = 32%nat;
}.

(** ** Data *)

Record LeafNode := mkLeaf {
  leaf_key : key;
  leaf_value : list byte;
  leaf_hash_target : list byte;
  leaf_commitment : list byte;
  leaf_size : Z;
}.

#[export] Instance LeafNode_eq_dec : EqDecision LeafNode.
Proof. solve_decision. Defined.

(** [BranchNode], over the type of its children. *)
Record BranchNode (N : Type) := mkBranch {
  br_prefix : list Z;
  br_children : list (option N);
  br_commitment : list byte;
  br_size : Z;
  br_leaf_count : Z;
  br_longest_branch : Z;
  br_full_prefix : list Z;
  br_fully_loaded : bool;
}.
Arguments mkBranch {N} _ _ _ _ _ _ _ _.
Arguments br_prefix {N} _.
Arguments br_children {N} _.
Arguments br_commitment {N} _.
Arguments br_size {N} _.
Arguments br_leaf_count {N} _.
Arguments br_longest_branch {N} _.
Arguments br_full_prefix {N} _.
Arguments br_fully_loaded {N} _.

Unset Elimination Schemes.
Inductive VectorCommitmentNode :=
| Leaf (l : LeafNode)
| Branch (b : BranchNode VectorCommitmentNode).
Set Elimination Schemes.

Abbreviation node := VectorCommitmentNode.
Abbreviation branch := (BranchNode VectorCommitmentNode).

Record VectorCommitmentTree := mkTree { root : option node }.

(** Apply [f] to the child in slot [i], [d] when the slot is empty. *)
Definition at_child {A R} (f : A -> R) (d : R) : list (option A) -> nat -> R :=
  fix go cs i :=
    match cs with
    | [] => d
    | c :: cs' => match i with O => match c with Some n => f n | None => d end | S j => go cs' j end
    end.

(** Record updates of a branch. *)
Definition with_prefix_commitment (b : branch) (p : list Z) (cm : list byte) : branch :=
  mkBranch p (br_children b) cm (br_size b) (br_leaf_count b) (br_longest_branch b)
    (br_full_prefix b) (br_fully_loaded b).
Definition with_children_commitment (b : branch) (cs : list (option node)) (cm : list byte) : branch :=
  mkBranch (br_prefix b) cs cm (br_size b) (br_leaf_count b) (br_longest_branch b)
    (br_full_prefix b) (br_fully_loaded b).
Definition with_counters (b : branch) (lc lb : Z) : branch :=
  mkBranch (br_prefix b) (br_children b) (br_commitment b) (br_size b) lc lb
    (br_full_prefix b) (br_fully_loaded b).

(** ** [node.rs] *)

Definition BranchNode_new (p : list Z) : branch :=
  mkBranch p (replicate BRANCH_NODES None) [] 0 0 0 [] true.

Definition child_count (b : branch) : nat :=
  length (filter (fun c : option node => is_Some c) (br_children b)).

Definition is_leaf (n : node) : bool := match n with Leaf _ => true | Branch _ => false end.
Definition is_branch (n : node) : bool := match n with Leaf _ => false | Branch _ => true end.
Definition node_commitment (n : node) : list byte :=
  match n with Leaf l => leaf_commitment l | Branch b => br_commitment b end.
Definition node_size (n : node) : Z :=
  match n with Leaf l => leaf_size l | Branch b => br_size b end.

(** The first [Some] of [f] over the children that are present. *)
Definition first_child {A R} (f : A -> option R) : list (option A) -> option R :=
  fix go cs :=
    match cs with
    | [] => None
    | Some c :: cs' => match f c with Some r => Some r | None => go cs' end
    | None :: cs' => go cs'
    end.

Fixpoint find_leaf_value (n : node) (target : key) : option (list byte) :=
  match n with
  | Leaf l => if decide (leaf_key l = target) then Some (leaf_value l) else None
  | Branch b => first_child (fun c => find_leaf_value c target) (br_children b)
  end.

(** [f] over the children that are present, concatenated. *)
Definition flat_children {A R} (f : A -> list R) : list (option A) -> list R :=
  fix go cs :=
    match cs with
    | [] => []
    | Some c :: cs' => f c ++ go cs'
    | None :: cs' => go cs'
    end.

Fixpoint collect_leaves (n : node) : list LeafNode :=
  match n with
  | Leaf l => [l]
  | Branch b => flat_children collect_leaves (br_children b)
  end.

Section Operations.
Context `{Sha2}.

Definition compute_commitment (l : LeafNode) : LeafNode :=
  let tail := if decide (leaf_hash_target l = []) then leaf_value l else leaf_hash_target l in
  mkLeaf (leaf_key l) (leaf_value l) (leaf_hash_target l)
    (Sha512 (x00 :: leaf_key l ++ tail)) (leaf_size l).

(** The leaf every insertion path builds: fields copied, commitment computed. *)
Definition new_leaf (k : key) (v h : list byte) (sz : Z) : LeafNode :=
  compute_commitment (mkLeaf k v h [] sz).

(** ** [tree.rs] *)

(** The prefix loop shared by lookup, insertion, deletion and proving: either
    the whole prefix matches and the walk continues at depth [d], or the key's
    nibble [n] differs from the prefix element [p] at index [i]. *)
Inductive prefix_walk :=
| Matched (d : nat)
| Diverged (i : nat) (n p : Z).

Fixpoint walk_prefix (k : key) (prefix : list Z) (i d : nat) : prefix_walk :=
  match prefix with
  | [] => Matched d
  | p :: ps =>
      let n := get_next_nibble k d in
      if n =? p then walk_prefix k ps (S i) (d + BRANCH_BITS) else Diverged i n p
  end.

Fixpoint get_node (n : node) (k : key) (depth : nat) : option (list byte) :=
  match n with
  | Leaf l => if decide (leaf_key l = k) then Some (leaf_value l) else None
  | Branch b =>
      match walk_prefix k (br_prefix b) 0 depth with
      | Diverged _ _ _ => None
      | Matched d =>
          let nibble := get_next_nibble k d in
          if nibble <? 0 then None
          else at_child (fun c => get_node c k (d + BRANCH_BITS)) None (br_children b) (Z.to_nat nibble)
      end
  end.

Definition get_recursive (n : option node) (k : key) (depth : nat) : option (list byte) :=
  match n with None => None | Some n => get_node n k depth end.

Definition child_leaf_count (c : option node) : Z :=
  match c with None => 0 | Some (Leaf _) => 1 | Some (Branch b) => br_leaf_count b end.
Definition child_longest_branch (c : option node) : Z :=
  match c with None => 0 | Some (Leaf _) => 0 | Some (Branch b) => br_longest_branch b end.

(** [leaf_count = sum of the children's], [longest_branch = 1 + max of the
    children's], recomputed after a child changed. *)
Definition sum_leaf_count (cs : list (option node)) : Z :=
  foldl (fun a c => wrap_u64 (a + child_leaf_count c)) 0 cs.
Definition max_longest_branch (cs : list (option node)) : Z :=
  wrap_u64 (1 + foldl (fun a c => Z.max a (child_longest_branch c)) 0 cs).
Definition refresh_counters (b : branch) : branch :=
  with_counters b (sum_leaf_count (br_children b)) (max_longest_branch (br_children b)).

(** [children[p as usize] = Some(c)] for an [i32] prefix element [p]. *)
Definition set_child (cs : list (option node)) (p : Z) (c : node) : result (list (option node)) :=
  let i := as_usize p in
  if i <? Z.of_nat (length cs) then Ok (<[Z.to_nat i := Some c]> cs) else Panic.

Definition set_child_if (cs : list (option node)) (n : Z) (c : node) : list (option node) :=
  if 0 <=? n then <[Z.to_nat n := Some c]> cs else cs.

(** A leaf is split: the branch of the common nibbles with both leaves. *)
Definition split_leaf (existing : LeafNode) (k : key) (nl : LeafNode) (depth : nat) : node :=
  let '(common, diverge_depth) := get_nibbles_until_diverge (leaf_key existing) k depth in
  let b := BranchNode_new common in
  let n1 := get_next_nibble (leaf_key existing) diverge_depth in
  let n2 := get_next_nibble k diverge_depth in
  let cs := set_child_if (br_children b) n1 (Leaf existing) in
  let cs := set_child_if cs n2 (Leaf nl) in
  Branch (with_counters (with_children_commitment b cs []) 2 (br_longest_branch b)).

(** A branch whose prefix diverges from the key at index [i] is split. *)
Definition split_branch (b : branch) (i : nat) (n p : Z) (nl : LeafNode) : result node :=
  let new_parent := BranchNode_new (take i (br_prefix b)) in
  let old := with_prefix_commitment b (drop (S i) (br_prefix b)) [] in
  cs ← set_child (br_children new_parent) p (Branch old);
  let cs := set_child_if cs n (Leaf nl) in
  mret (Branch (with_counters (with_children_commitment new_parent cs (br_commitment new_parent))
    (saturating_add_u64 (br_leaf_count b) 1) (saturating_add_u64 (br_longest_branch b) 1))).

Fixpoint insert_node (n : node) (k : key) (nl : LeafNode) (depth : nat) : result node :=
  match n with
  | Leaf existing =>
      if decide (leaf_key existing = k) then Ok (Leaf nl)
      else Ok (split_leaf existing k nl depth)
  | Branch b =>
      match walk_prefix k (br_prefix b) 0 depth with
      | Diverged i n p => split_branch b i n p nl
      | Matched d =>
          let nibble := get_next_nibble k d in
          if nibble <? 0 then Err InvalidArgument
          else
            new_child ← at_child (fun c => insert_node c k nl (d + BRANCH_BITS)) (Ok (Leaf nl))
                          (br_children b) (Z.to_nat nibble);
            let cs := <[Z.to_nat nibble := Some new_child]> (br_children b) in
            mret (Branch (refresh_counters (with_children_commitment b cs [])))
      end
  end.

Definition insert_recursive (n : option node) (k : key) (v h : list byte) (sz : Z) (depth : nat)
    : result node :=
  match n with
  | None => Ok (Leaf (new_leaf k v h sz))
  | Some n => insert_node n k (new_leaf k v h sz) depth
  end.

Definition merge_branch_with_child (b : branch) (child_index : nat) (child : node) : node :=
  match child with
  | Leaf l => Leaf l
  | Branch cb =>
      Branch (with_prefix_commitment cb (br_prefix b ++ [Z.of_nat child_index] ++ br_prefix cb) [])
  end.

(** The slots that hold a child, with their indices. *)
Fixpoint remaining_from (i : nat) (cs : list (option node)) : list (nat * node) :=
  match cs with
  | [] => []
  | Some c :: cs' => (i, c) :: remaining_from (S i) cs'
  | None :: cs' => remaining_from (S i) cs'
  end.
Definition remaining (cs : list (option node)) : list (nat * node) := remaining_from 0 cs.

(** What becomes of a branch one of whose children was deleted. *)
Definition collapse (b : branch) : option node :=
  match remaining (br_children b) with
  | [] => None
  | [(i, only)] => Some (merge_branch_with_child b i only)
  | _ => Some (Branch (refresh_counters b))
  end.

Fixpoint delete_node (n : node) (k : key) (depth : nat) : bool * option node :=
  match n with
  | Leaf l => if decide (leaf_key l = k) then (true, None) else (false, Some (Leaf l))
  | Branch b =>
      match walk_prefix k (br_prefix b) 0 depth with
      | Diverged _ _ _ => (false, Some (Branch b))
      | Matched d =>
          let nibble := get_next_nibble k d in
          if nibble <? 0 then (false, Some (Branch b))
          else
            let '(found, new_child) :=
              at_child (fun c => delete_node c k (d + BRANCH_BITS)) (false, None)
                (br_children b) (Z.to_nat nibble) in
            let cs := <[Z.to_nat nibble := new_child]> (br_children b) in
            if negb found then (false, Some (Branch (with_children_commitment b cs (br_commitment b))))
            else (true, collapse (with_children_commitment b cs []))
      end
  end.

Definition delete_recursive (n : option node) (k : key) (depth : nat) : bool * option node :=
  match n with None => (false, None) | Some n => delete_node n k depth end.

(** ** The public operations *)

Definition tree_new : VectorCommitmentTree := mkTree None.

(** [self.root.take()] empties the tree before the recursion: an error leaves
    it empty. *)
Definition tree_insert (t : VectorCommitmentTree) (k : key) (v h : list byte) (sz : Z)
    : VectorCommitmentTree * result unit :=
  match insert_recursive (root t) k v h sz 0 with
  | Ok n => (mkTree (Some n), Ok ())
  | Err e => (mkTree None, Err e)
  | Panic => (mkTree None, Panic)
  end.

Definition tree_get (t : VectorCommitmentTree) (k : key) : option (list byte) :=
  get_recursive (root t) k 0.

Definition tree_delete (t : VectorCommitmentTree) (k : key) : VectorCommitmentTree * result unit :=
  if decide (k = []) then (t, Err InvalidArgument)
  else
    let '(found, new_root) := delete_recursive (root t) k 0 in
    (mkTree new_root, if found then Ok () else Err NotFound).

Definition tree_leaves (t : VectorCommitmentTree) : list (key * list byte) :=
  match root t with
  | None => []
  | Some r => (fun l => (leaf_key l, leaf_value l)) <$> collect_leaves r
  end.

End Operations.
