(* ===== verification/TrieSpec.v ===== *)
(** * What the trie promises: it is a finite map, and its shape is canonical

    [trie_rep] relates a tree to the finite map from keys to leaves it stores;
    insertion, lookup, deletion and enumeration are proved to implement the
    map's operations on every key set [K] no two of whose keys have nested
    nibble paths ([PrefixFree], an interface: keys of one length are an
    instance).  [wf_node] is the well-formedness invariant: children sit on the
    path of their slot, and every branch has at least two children.  Two
    well-formed trees with the same leaves have the same [skeleton], however
    they were built. *)

From S2P Require Import Prelude Bytes Nibble Trie.

(** ** Induction over nodes *)

Lemma node_ind (P : node -> Prop) :
  (forall l, P (Leaf l)) ->
  (forall b, (forall c, Some c ∈ br_children b -> P c) -> P (Branch b)) ->
  forall n, P n.
Proof.
  intros HL HB. fix IH 1. intros [l|b]; [apply HL|]. apply HB.
  destruct b as [p cs cm sz lc lb fp fl]. cbn [br_children].
  assert (Forall (fun o => match o with Some c => P c | None => True end) cs) as Hcs.
  { induction cs as [|c cs IHcs]; constructor; [|exact IHcs].
    destruct c as [c|]; [exact (IH c)|exact I]. }
  clear IH. intros c Hc. rewrite Forall_forall in Hcs. exact (Hcs _ Hc).
Qed.

(** ** Walking the children *)

Lemma at_child_spec {A R} (f : A -> R) d cs i :
  at_child f d cs i = match cs !! i with Some (Some c) => f c | _ => d end.
Proof.
  revert i. induction cs as [|c cs IH]; intros i; [done|].
  rewrite lookup_cons. destruct i; [by destruct c|]. apply IH.
Qed.

Lemma elem_of_flat_children {A R} (f : A -> list R) cs x :
  x ∈ flat_children f cs <-> exists i c, cs !! i = Some (Some c) /\ x ∈ f c.
Proof.
  induction cs as [|[c|] cs IH]; cbn [flat_children].
  - split; [by intros ?%not_elem_of_nil|by intros (?&?&?&?)].
  - rewrite elem_of_app, IH. split.
    + intros [Hx|(i & c' & Hi & Hx)]; [by exists 0%nat, c|by exists (S i), c'].
    + intros ([|i] & c' & Hi & Hx); cbn in Hi; [left; by injection Hi as ->|right; by exists i, c'].
  - rewrite IH. split.
    + intros (i & c' & Hi & Hx). by exists (S i), c'.
    + intros ([|i] & c' & Hi & Hx); cbn in Hi; [done|by exists i, c'].
Qed.

Lemma elem_of_leaves_branch b l :
  l ∈ collect_leaves (Branch b) <->
  exists i c, br_children b !! i = Some (Some c) /\ l ∈ collect_leaves c.
Proof. apply elem_of_flat_children. Qed.

Lemma elem_of_remaining_from j cs i c :
  (i, c) ∈ remaining_from j cs <-> (j <= i)%nat /\ cs !! (i - j)%nat = Some (Some c).
Proof.
  revert j. induction cs as [|[c'|] cs IH]; intros j; cbn [remaining_from].
  - split; [by intros ?%not_elem_of_nil|by intros [_ ?]].
  - rewrite elem_of_cons, IH. split.
    + intros [[= -> ->]|[Hj Hi]]; [split; [lia|]; by rewrite Nat.sub_diag|].
      split; [lia|]. by replace (i - j)%nat with (S (i - S j)) by lia.
    + intros [Hj Hi]. destruct (decide (i = j)) as [->|Hne].
      * rewrite Nat.sub_diag in Hi. left. by injection Hi as ->.
      * right. split; [lia|]. by replace (i - j)%nat with (S (i - S j)) in Hi by lia.
  - rewrite IH. split.
    + intros [Hj Hi]. split; [lia|]. by replace (i - j)%nat with (S (i - S j)) by lia.
    + intros [Hj Hi]. destruct (decide (i = j)) as [->|Hne]; [by rewrite Nat.sub_diag in Hi|].
      split; [lia|]. by replace (i - j)%nat with (S (i - S j)) in Hi by lia.
Qed.

Lemma elem_of_remaining cs i c : (i, c) ∈ remaining cs <-> cs !! i = Some (Some c).
Proof. unfold remaining. rewrite elem_of_remaining_from, Nat.sub_0_r. split; [naive_solver|split; [lia|done]]. Qed.

Lemma remaining_from_NoDup j cs : NoDup ((remaining_from j cs).*1).
Proof.
  revert j. induction cs as [|[c|] cs IH]; intros j; cbn [remaining_from]; [constructor| |apply IH].
  cbn [fmap list_fmap fst]. constructor; [|apply IH].
  intros ([i c'] & -> & Hi)%list_elem_of_fmap. apply elem_of_remaining_from in Hi. cbn in Hi. lia.
Qed.

(** Two slots are occupied. *)
Definition two_children (cs : list (option node)) : Prop :=
  exists i j ci cj, i <> j /\ cs !! i = Some (Some ci) /\ cs !! j = Some (Some cj).

Lemma remaining_two cs x y l : remaining cs = x :: y :: l -> two_children cs.
Proof.
  intros E. pose proof (remaining_from_NoDup 0 cs) as ND. fold (remaining cs) in ND.
  rewrite E in ND. destruct x as [i ci], y as [j cj]. cbn [fmap list_fmap fst] in ND. rewrite NoDup_cons in ND.
  exists i, j, ci, cj. split_and!.
  - intros ->. apply (proj1 ND). by left.
  - apply elem_of_remaining. rewrite E. by left.
  - apply elem_of_remaining. rewrite E. right. by left.
Qed.

Lemma remaining_one cs i c : remaining cs = [(i, c)] ->
  cs !! i = Some (Some c) /\ forall j c', cs !! j = Some (Some c') -> j = i /\ c' = c.
Proof.
  intros E. split; [apply elem_of_remaining; rewrite E; by left|].
  intros j c' Hj. apply elem_of_remaining in Hj. rewrite E in Hj.
  apply list_elem_of_singleton in Hj. by injection Hj as -> ->.
Qed.

Lemma remaining_nil cs : remaining cs = [] -> forall j c, cs !! j <> Some (Some c).
Proof.
  intros E j c Hj%elem_of_remaining. rewrite E in Hj. by apply not_elem_of_nil in Hj.
Qed.

(** ** The prefix walk, on nibble paths *)

Abbreviation path := get_full_path.

Lemma walk_prefix_matched k ps i d :
  ps `prefix_of` drop d (path k) -> walk_prefix k ps i (6 * d) = Matched (6 * (d + length ps)).
Proof.
  revert i d. induction ps as [|p ps IH]; intros i d Hp; cbn [walk_prefix length].
  { f_equal. lia. }
  destruct Hp as [r Hr]. change ((p :: ps) ++ r) with (p :: (ps ++ r)) in Hr.
  assert (path k !! d = Some p) as Hd
    by (rewrite <- (Nat.add_0_r d), <- lookup_drop, Hr; done).
  rewrite nibble_path, Hd. cbn [from_option]. unfold id. rewrite Z.eqb_refl.
  replace (6 * d + BRANCH_BITS)%nat with (6 * S d)%nat by (unfold BRANCH_BITS; lia).
  rewrite IH; [f_equal; lia|]. exists r.
  rewrite (drop_S _ _ _ Hd) in Hr. by injection Hr.
Qed.

Lemma walk_prefix_inv k ps i d : Forall (fun p => 0 <= p < 64) ps ->
  match walk_prefix k ps i (6 * d) with
  | Matched d' => ps `prefix_of` drop d (path k) /\ d' = (6 * (d + length ps))%nat
  | Diverged i' n p =>
      exists pre post, ps = pre ++ p :: post /\ i' = (i + length pre)%nat /\
        pre `prefix_of` drop d (path k) /\
        n = default (-1) (path k !! (d + length pre)%nat) /\ n <> p
  end.
Proof.
  intros HF. revert i d. induction HF as [|p ps Hp HF IH]; intros i d; cbn [walk_prefix].
  { split; [apply prefix_nil|cbn; lia]. }
  destruct (Z.eqb_spec (get_next_nibble k (6 * d)) p) as [E|E].
  2: { exists [], ps. split_and!; [done|cbn; lia|apply prefix_nil| |done].
       cbn [length]. by rewrite Nat.add_0_r, nibble_path. }
  replace (6 * d + BRANCH_BITS)%nat with (6 * S d)%nat by (unfold BRANCH_BITS; lia).
  rewrite nibble_path in E.
  destruct (path k !! d) as [p'|] eqn:Hd; cbn in E; unfold id in E; subst; [|lia].
  specialize (IH (S i) (S d)). destruct (walk_prefix k ps (S i) (6 * S d)) as [d'|i' n q].
  - destruct IH as [[r Hr] ->]. split; [|cbn; lia].
    exists r. by rewrite (drop_S _ _ _ Hd), Hr.
  - destruct IH as (pre & post & -> & -> & [r Hr] & Hn & Hne).
    exists (p :: pre), post. split_and!; [done|cbn; lia| | |done].
    + exists r. by rewrite (drop_S _ _ _ Hd), Hr.
    + rewrite Hn. cbn [length]. by replace (d + S (length pre))%nat with (S d + length pre)%nat by lia.
Qed.

(** ** Well-formedness *)

(** Distinct keys of [K] never have nested nibble paths, so each can be a leaf
    beside the others. *)
Class PrefixFree (K : key -> Prop) : Prop :=
  prefix_free : forall k1 k2, K k1 -> K k2 -> path k1 `prefix_of` path k2 -> k1 = k2.

(** Keys of one length, as in the address-keyed trees. *)
#[export] Instance same_length_prefix_free n : PrefixFree (fun k => length k = n).
Proof.
  intros k1 k2 H1 H2 Hp. apply full_path_inj_aux. apply prefix_length_eq; [done|].
  by rewrite !full_path_length, H1, H2.
Qed.

Section Refinement.
Context `{Sha2} (K : key -> Prop) `{HK : !PrefixFree K}.

Inductive wf_node : list Z -> node -> Prop :=
| wf_leaf p l :
    K (leaf_key l) -> p `prefix_of` path (leaf_key l) -> wf_node p (Leaf l)
| wf_branch p b :
    length (br_children b) = BRANCH_NODES ->
    Forall (fun x => 0 <= x < 64) (br_prefix b) ->
    two_children (br_children b) ->
    (forall i c, br_children b !! i = Some (Some c) ->
      wf_node (p ++ br_prefix b ++ [Z.of_nat i]) c) ->
    wf_node p (Branch b).

Definition wf_tree (t : VectorCommitmentTree) : Prop :=
  match root t with None => True | Some n => wf_node [] n end.

Lemma wf_leaves p n l : wf_node p n -> l ∈ collect_leaves n ->
  K (leaf_key l) /\ p `prefix_of` path (leaf_key l).
Proof.
  induction 1 as [p l' HKl Hp|p b Hlen Hpre Htwo Hch IH].
  - intros ->%list_elem_of_singleton. done.
  - intros (i & c & Hc & Hl)%elem_of_leaves_branch.
    destruct (IH i c Hc Hl) as [? Hp]. split; [done|].
    etrans; [|exact Hp]. by apply prefix_app_r.
Qed.

Lemma wf_branch_leaf p b i c l : wf_node p (Branch b) -> br_children b !! i = Some (Some c) ->
  l ∈ collect_leaves c -> K (leaf_key l) /\ (p ++ br_prefix b ++ [Z.of_nat i]) `prefix_of` path (leaf_key l).
Proof. inversion 1; subst. intros Hc Hl. eapply wf_leaves; eauto. Qed.

Lemma wf_nonempty p n : wf_node p n -> exists l, l ∈ collect_leaves n.
Proof.
  induction 1 as [p l HKl Hp|p b Hlen Hpre (i & j & ci & cj & Hij & Hi & Hj) Hch IH].
  - exists l. by left.
  - destruct (IH i ci Hi) as [l Hl]. exists l. apply elem_of_leaves_branch. eauto.
Qed.

(** The nibble that follows a path. *)
Lemma prefix_lookup {A} (l r : list A) x y : (l ++ [x]) `prefix_of` r -> r !! length l = Some y -> x = y.
Proof.
  intros [r' ->] Hy. rewrite <- app_assoc, lookup_app_r, Nat.sub_diag in Hy by lia.
  by injection Hy.
Qed.

(** A key that stops at or inside a branch's prefix is not in [K] beside its leaves. *)
Lemma wf_key_continues p b k pre post : wf_node p (Branch b) -> K k ->
  br_prefix b = pre ++ post -> (p ++ pre) `prefix_of` path k ->
  exists n, path k !! (length p + length pre)%nat = Some n.
Proof.
  intros Hwf HKk Hpre Hk.
  destruct (path k !! (length p + length pre)%nat) as [n|] eqn:E; [by exists n|exfalso].
  apply lookup_ge_None in E.
  inversion Hwf as [|? ? Hlen HF (i & j & ci & cj & Hij & Hi & Hj) Hch]; subst.
  assert (path k = p ++ pre) as Hpk.
  { symmetry. apply prefix_length_eq; [done|]. rewrite length_app. lia. }
  assert (forall i c, br_children b !! i = Some (Some c) ->
    exists l, l ∈ collect_leaves c /\ leaf_key l = k) as Hall.
  { intros i' c Hc. destruct (wf_nonempty _ _ (Hch _ _ Hc)) as [l Hl]. exists l. split; [done|].
    destruct (wf_leaves _ _ _ (Hch _ _ Hc) Hl) as [HKl Hp]. symmetry. apply HK; [done|done|].
    rewrite Hpk. etrans; [|exact Hp]. rewrite Hpre, <- !app_assoc, app_assoc. by apply prefix_app_r. }
  destruct (Hall _ _ Hi) as (li & Hli & Hki), (Hall _ _ Hj) as (lj & Hlj & Hkj).
  destruct (wf_leaves _ _ _ (Hch _ _ Hi) Hli) as [_ Hpi].
  rewrite Hki, Hpk in Hpi. apply prefix_length in Hpi.
  rewrite Hpre, !length_app in Hpi. cbn [length] in Hpi. lia.
Qed.

(** ** Insertion *)

(** The two-child array every split builds. *)
Lemma pair_children (x y : node) (n1 n2 : nat) : (n1 < 64)%nat -> (n2 < 64)%nat -> n1 <> n2 ->
  let cs := <[n2 := Some y]> (<[n1 := Some x]> (replicate BRANCH_NODES None)) in
  length cs = BRANCH_NODES /\ two_children cs /\
  forall i c, cs !! i = Some (Some c) <-> (i = n1 /\ c = x) \/ (i = n2 /\ c = y).
Proof.
  intros H1 H2 Hne cs.
  assert (length cs = BRANCH_NODES) as Hlen by (unfold cs; by rewrite !length_insert, length_replicate).
  assert (forall i c, cs !! i = Some (Some c) <-> (i = n1 /\ c = x) \/ (i = n2 /\ c = y)) as Hcs.
  { intros i c. unfold cs. destruct (decide (i = n2)) as [->|Hi2].
    { rewrite list_lookup_insert_eq by (rewrite length_insert, length_replicate; unfold BRANCH_NODES; lia).
      naive_solver. }
    rewrite list_lookup_insert_ne by done. destruct (decide (i = n1)) as [->|Hi1].
    { rewrite list_lookup_insert_eq by (rewrite length_replicate; unfold BRANCH_NODES; lia). naive_solver. }
    rewrite list_lookup_insert_ne by done. rewrite lookup_replicate. naive_solver. }
  split_and!; [done| |done].
  exists n1, n2, x, y. split_and!; [done| |]; apply Hcs; auto.
Qed.

(** A branch over such an array: well formed when each child is on its slot's
    path, and its leaves are its children's. *)
Lemma wf_pair p b n1 n2 x y : 0 <= n1 < 64 -> 0 <= n2 < 64 -> n1 <> n2 ->
  Forall (fun x => 0 <= x < 64) (br_prefix b) ->
  br_children b = <[Z.to_nat n2 := Some y]> (<[Z.to_nat n1 := Some x]> (replicate BRANCH_NODES None)) ->
  wf_node (p ++ br_prefix b ++ [n1]) x -> wf_node (p ++ br_prefix b ++ [n2]) y ->
  wf_node p (Branch b) /\
  forall l, l ∈ collect_leaves (Branch b) <-> l ∈ collect_leaves x \/ l ∈ collect_leaves y.
Proof.
  intros H1 H2 Hne HF Hcs Hx Hy.
  destruct (pair_children x y (Z.to_nat n1) (Z.to_nat n2) ltac:(lia) ltac:(lia) ltac:(lia)) as (Hlen & Htwo & Hl).
  rewrite <- Hcs in Hlen, Htwo, Hl. split.
  - constructor; [done..|]. intros i c [[-> ->]|[-> ->]]%Hl; by rewrite Z2Nat.id by lia.
  - intros l. rewrite elem_of_leaves_branch. split.
    + intros (i & c & [[-> ->]|[-> ->]]%Hl & Hin); auto.
    + intros [Hin|Hin]; [exists (Z.to_nat n1), x|exists (Z.to_nat n2), y]; rewrite Hl; auto.
Qed.

Lemma set_child_if_nonneg cs n c : 0 <= n -> set_child_if cs n c = <[Z.to_nat n := Some c]> cs.
Proof. intros Hn. unfold set_child_if. destruct (Z.leb_spec 0 n); [done|lia]. Qed.

Lemma path_nibble_range k i n : path k !! i = Some n -> 0 <= n < 64.
Proof. intros Hn. by apply (Forall_lookup_1 _ _ _ _ (full_path_range k)) in Hn. Qed.

(** Two keys of [K] that share [p] split after a longest common path. *)
Lemma keys_diverge p k1 k2 : K k1 -> K k2 -> k1 <> k2 -> p `prefix_of` path k1 -> p `prefix_of` path k2 ->
  exists c n1 n2, get_nibbles_until_diverge k1 k2 (6 * length p) = (c, 6 * (length p + length c))%nat /\
    n1 <> n2 /\ (p ++ c ++ [n1]) `prefix_of` path k1 /\ (p ++ c ++ [n2]) `prefix_of` path k2.
Proof.
  intros HK1 HK2 Hne [q1 E1] [q2 E2].
  destruct (max_prefix (drop (length p) (path k1)) (drop (length p) (path k2))) as [[r1 r2] c] eqn:Hm.
  assert (length p <= length (path k1))%nat as Hlp by (rewrite E1, length_app; lia).
  pose proof (diverge_spec _ _ _ _ _ _ Hlp Hm) as Hd.
  rewrite E1, E2, !drop_app_length in Hm.
  rewrite (max_prefix_fst_alt _ _ _ _ _ Hm) in E1. rewrite (max_prefix_snd_alt _ _ _ _ _ Hm) in E2.
  destruct r1 as [|n1 r1].
  { exfalso. apply Hne, HK; [done..|]. rewrite E1, E2, app_nil_r, app_assoc. by apply prefix_app_r. }
  destruct r2 as [|n2 r2].
  { exfalso. apply Hne. symmetry. apply HK; [done..|]. rewrite E1, E2, app_nil_r, app_assoc. by apply prefix_app_r. }
  exists c, n1, n2. split_and!; [done|by eapply max_prefix_max_snoc| |].
  - exists r1. by rewrite E1, <- !app_assoc.
  - exists r2. by rewrite E2, <- !app_assoc.
Qed.

Lemma prefix_snoc_nibble p c n k : (p ++ c ++ [n]) `prefix_of` path k ->
  get_next_nibble k (6 * (length p + length c)) = n /\ 0 <= n < 64 /\ Forall (fun x => 0 <= x < 64) c.
Proof.
  intros [r E]. rewrite nibble_path.
  assert (path k !! (length p + length c)%nat = Some n) as Hn.
  { rewrite E, !app_assoc, <- app_assoc, <- length_app, lookup_app_r, Nat.sub_diag by lia. done. }
  rewrite Hn. split_and!; [done|by eapply path_nibble_range..|].
  pose proof (full_path_range k) as HF. rewrite E, !Forall_app in HF. naive_solver.
Qed.

Lemma split_leaf_spec p e nl : wf_node p (Leaf e) -> K (leaf_key nl) -> leaf_key e <> leaf_key nl ->
  p `prefix_of` path (leaf_key nl) ->
  wf_node p (split_leaf e (leaf_key nl) nl (6 * length p)) /\
  forall l, l ∈ collect_leaves (split_leaf e (leaf_key nl) nl (6 * length p)) <-> l = e \/ l = nl.
Proof.
  intros Hwf HKk Hne Hp. inversion Hwf as [? ? HKe Hpe|]; subst. unfold split_leaf.
  destruct (keys_diverge p _ _ HKe HKk Hne Hpe Hp) as (c & n1 & n2 & -> & Hn & Hp1 & Hp2).
  destruct (prefix_snoc_nibble _ _ _ _ Hp1) as (-> & Hr1 & Hc).
  destruct (prefix_snoc_nibble _ _ _ _ Hp2) as (-> & Hr2 & _).
  rewrite !set_child_if_nonneg by lia.
  match goal with |- wf_node _ (Branch ?b) /\ _ =>
    destruct (wf_pair p b n1 n2 (Leaf e) (Leaf nl)) as [Hw Hl]; [cbn; eauto using wf_leaf..|] end.
  split; [exact Hw|]. intros l. rewrite Hl. cbn [collect_leaves]. by rewrite !list_elem_of_singleton.
Qed.

Lemma prefix_snoc_lookup {A} (p : list A) l n : p `prefix_of` l -> l !! length p = Some n -> (p ++ [n]) `prefix_of` l.
Proof.
  intros [[|y r] ->] Hn; rewrite lookup_app_r, Nat.sub_diag in Hn by lia; [done|].
  injection Hn as ->. apply prefix_app. by exists r.
Qed.

(** What splitting a branch builds: a branch of the shared part of the prefix,
    with the old branch and the new leaf in two different slots. *)
Lemma split_branch_shape p b i n x nl : wf_node p (Branch b) -> K (leaf_key nl) ->
  p `prefix_of` path (leaf_key nl) ->
  walk_prefix (leaf_key nl) (br_prefix b) 0 (6 * length p) = Diverged i n x ->
  exists pre post, br_prefix b = pre ++ x :: post /\ 0 <= x < 64 /\ 0 <= n < 64 /\ x <> n /\
    (p ++ pre ++ [n]) `prefix_of` path (leaf_key nl) /\
    split_branch b i n x nl = Ok (Branch (mkBranch pre
      (<[Z.to_nat n := Some (Leaf nl)]> (<[Z.to_nat x := Some (Branch (with_prefix_commitment b post []))]>
        (replicate BRANCH_NODES None)))
      [] 0 (saturating_add_u64 (br_leaf_count b) 1) (saturating_add_u64 (br_longest_branch b) 1) [] true)).
Proof.
  intros Hwf HKk [q Hq] Hw. inversion Hwf as [|? ? Hlen HF Htwo Hch]; subst.
  pose proof (walk_prefix_inv (leaf_key nl) (br_prefix b) 0 (length p) HF) as Hinv. rewrite Hw in Hinv.
  destruct Hinv as (pre & post & Hpre & -> & Hpp & -> & Hne). rewrite Nat.add_0_l in *.
  assert ((p ++ pre) `prefix_of` path (leaf_key nl)) as Hpk.
  { rewrite Hq, drop_app_length in Hpp. rewrite Hq. by apply prefix_app. }
  destruct (wf_key_continues p b _ pre (x :: post) Hwf HKk Hpre Hpk) as [n Hn].
  rewrite Hn in *. cbn [from_option] in *. unfold id in *.
  rewrite Hpre, Forall_app, Forall_cons in HF. destruct HF as (HF1 & Hx & HF2).
  pose proof (path_nibble_range _ _ _ Hn).
  exists pre, post. split_and!; [done|lia|lia|lia|lia|done| |].
  { rewrite app_assoc. apply prefix_snoc_lookup; [done|by rewrite length_app]. }
  unfold split_branch, set_child, as_usize. rewrite (wrap_u64_id x) by (unfold is_u64, u64_max; lia).
  cbn [BranchNode_new br_children]. rewrite length_replicate.
  destruct (Z.ltb_spec x (Z.of_nat BRANCH_NODES)) as [_|Hb]; [|unfold BRANCH_NODES in Hb; lia].
  rewrite bind_Ok, set_child_if_nonneg by lia.
  assert (take (length pre) (br_prefix b) = pre) as -> by (by rewrite Hpre, take_app_length).
  assert (drop (S (length pre)) (br_prefix b) = post) as ->; [|done].
  rewrite Hpre. replace (S (length pre)) with (length (pre ++ [x])) by (rewrite length_app; cbn; lia).
  by rewrite (cons_middle x pre post), app_assoc, drop_app_length.
Qed.

Lemma split_branch_spec p b i n x nl : wf_node p (Branch b) -> K (leaf_key nl) ->
  p `prefix_of` path (leaf_key nl) ->
  walk_prefix (leaf_key nl) (br_prefix b) 0 (6 * length p) = Diverged i n x ->
  exists n', split_branch b i n x nl = Ok n' /\ wf_node p n' /\
    forall l, l ∈ collect_leaves n' <-> l ∈ collect_leaves (Branch b) \/ l = nl.
Proof.
  intros Hwf HKk Hp Hw.
  destruct (split_branch_shape p b i n x nl Hwf HKk Hp Hw) as (pre & post & Hpre & Hx & Hn & Hxn & Hpn & ->).
  inversion Hwf as [|? ? Hlen HF Htwo Hch]; subst. eexists. split; [reflexivity|].
  rewrite Hpre, Forall_app, Forall_cons in HF. destruct HF as (HF1 & _ & HF2).
  assert (wf_node (p ++ pre ++ [x]) (Branch (with_prefix_commitment b post []))) as Hold.
  { constructor; [done..|]. cbn. intros i' c Hc. specialize (Hch i' c Hc).
    rewrite Hpre in Hch. by rewrite <- !app_assoc in *. }
  match goal with |- wf_node _ (Branch ?b') /\ _ =>
    destruct (wf_pair p b' x n _ _ Hx Hn Hxn HF1 eq_refl Hold (wf_leaf _ _ HKk Hpn)) as [Hwn Hl] end.
  split; [exact Hwn|]. intros l. rewrite Hl. cbn [collect_leaves with_prefix_commitment br_children].
  by rewrite list_elem_of_singleton.
Qed.

(** The walk of a stored key leads to the child that holds it. *)
Lemma wf_route p b l i c : wf_node p (Branch b) -> br_children b !! i = Some (Some c) ->
  l ∈ collect_leaves c ->
  walk_prefix (leaf_key l) (br_prefix b) 0 (6 * length p) = Matched (6 * (length p + length (br_prefix b))) /\
  get_next_nibble (leaf_key l) (6 * (length p + length (br_prefix b))) = Z.of_nat i.
Proof.
  intros Hwf Hc Hl. destruct (wf_branch_leaf _ _ _ _ _ Hwf Hc Hl) as [_ Hp].
  split; [|by eapply prefix_snoc_nibble].
  apply walk_prefix_matched. destruct Hp as [r ->]. rewrite <- !app_assoc, drop_app_length.
  by apply prefix_app_r.
Qed.

(** A matched prefix: the walk continues on the path [p ++ br_prefix b]. *)
Lemma wf_matched p b k d : wf_node p (Branch b) -> p `prefix_of` path k ->
  walk_prefix k (br_prefix b) 0 (6 * length p) = Matched d ->
  d = (6 * (length p + length (br_prefix b)))%nat /\ (p ++ br_prefix b) `prefix_of` path k.
Proof.
  intros Hwf [q Hq] Hw. inversion Hwf as [|? ? Hlen HF Htwo Hch]; subst.
  pose proof (walk_prefix_inv k (br_prefix b) 0 (length p) HF) as Hinv. rewrite Hw in Hinv.
  destruct Hinv as [Hpp ->]. split; [done|]. rewrite Hq, drop_app_length in Hpp. rewrite Hq. by apply prefix_app.
Qed.

(** The nibble after a matched prefix, when it is not the end of the key: a
    slot of the array, and the path continues through it. *)
Lemma nibble_slot q k : q `prefix_of` path k -> 0 <= get_next_nibble k (6 * length q) ->
  let i := Z.to_nat (get_next_nibble k (6 * length q)) in
  (i < BRANCH_NODES)%nat /\ (q ++ [Z.of_nat i]) `prefix_of` path k.
Proof.
  intros Hq. rewrite nibble_path. destruct (path k !! length q) as [n|] eqn:Hn; cbn; unfold id; [|lia].
  intros Hn0. pose proof (path_nibble_range _ _ _ Hn). split; [unfold BRANCH_NODES; lia|].
  rewrite Z2Nat.id by lia. by apply prefix_snoc_lookup.
Qed.

(** Replacing one child by another on the same path. *)
Lemma wf_set_child p b b' i c : wf_node p (Branch b) -> br_prefix b' = br_prefix b ->
  br_children b' = <[i := Some c]> (br_children b) -> (i < BRANCH_NODES)%nat ->
  wf_node (p ++ br_prefix b ++ [Z.of_nat i]) c -> wf_node p (Branch b').
Proof.
  intros Hwf Hpre Hcs Hi Hc.
  inversion Hwf as [|? ? Hlen HF (i1 & i2 & c1 & c2 & Hne & H1 & H2) Hch]; subst.
  constructor; rewrite ?Hpre, ?Hcs; [by rewrite length_insert|done| |].
  - assert (forall j cj, br_children b !! j = Some (Some cj) ->
      exists cj', <[i := Some c]> (br_children b) !! j = Some (Some cj')) as Hj.
    { intros j cj Hj. destruct (decide (j = i)) as [->|Hji].
      - exists c. apply list_lookup_insert_eq. lia.
      - exists cj. by rewrite list_lookup_insert_ne. }
    destruct (Hj _ _ H1) as [c1' ?], (Hj _ _ H2) as [c2' ?]. by exists i1, i2, c1', c2'.
  - intros j cj. destruct (decide (j = i)) as [->|Hji].
    + rewrite list_lookup_insert_eq by lia. by intros [= <-].
    + rewrite list_lookup_insert_ne by done. apply Hch.
Qed.

Lemma leaves_set_child b b' i c l : br_children b' = <[i := c]> (br_children b) ->
  (i < length (br_children b))%nat ->
  l ∈ collect_leaves (Branch b') <->
    (exists c', c = Some c' /\ l ∈ collect_leaves c') \/
    (exists j c', j <> i /\ br_children b !! j = Some (Some c') /\ l ∈ collect_leaves c').
Proof.
  intros Hcs Hi. rewrite elem_of_leaves_branch, Hcs. split.
  - intros (j & c' & Hj & Hl). destruct (decide (j = i)) as [->|Hji].
    + rewrite list_lookup_insert_eq in Hj by done. injection Hj as ->. left. eauto.
    + rewrite list_lookup_insert_ne in Hj by done. right. eauto.
  - intros [(c' & -> & Hl)|(j & c' & Hji & Hj & Hl)].
    + exists i, c'. by rewrite list_lookup_insert_eq.
    + exists j, c'. by rewrite list_lookup_insert_ne.
Qed.

(** What insertion promises of one subtree. *)
Definition inserts (nl : LeafNode) (p : list Z) (n : node) : Prop :=
  exists n', insert_node n (leaf_key nl) nl (6 * length p) = Ok n' /\ wf_node p n' /\
    forall l, l ∈ collect_leaves n' <-> l = nl \/ (l ∈ collect_leaves n /\ leaf_key l <> leaf_key nl).

(** The slot of a branch: a fresh leaf in an empty one, insertion in a child. *)
Lemma insert_slot nl b q i : K (leaf_key nl) -> (q ++ [Z.of_nat i]) `prefix_of` path (leaf_key nl) ->
  (forall c, br_children b !! i = Some (Some c) -> inserts nl (q ++ [Z.of_nat i]) c) ->
  exists c', at_child (fun c => insert_node c (leaf_key nl) nl (6 * length q + BRANCH_BITS)) (Ok (Leaf nl))
      (br_children b) i = Ok c' /\
    wf_node (q ++ [Z.of_nat i]) c' /\ forall l, l ∈ collect_leaves c' <-> l = nl \/
      ((exists c, br_children b !! i = Some (Some c) /\ l ∈ collect_leaves c) /\ leaf_key l <> leaf_key nl).
Proof.
  intros HKk Hq Hc. rewrite at_child_spec.
  replace (6 * length q + BRANCH_BITS)%nat with (6 * length (q ++ [Z.of_nat i]))%nat
    by (rewrite length_app; cbn [length]; unfold BRANCH_BITS; lia).
  destruct (br_children b !! i) as [[c|]|] eqn:E.
  - destruct (Hc c eq_refl) as (c' & -> & Hw' & Hl').
    exists c'. split_and!; [done..|]. intros l. rewrite Hl'. naive_solver.
  - exists (Leaf nl). split_and!; [done|by constructor|]. intros l. cbn [collect_leaves].
    rewrite list_elem_of_singleton. naive_solver.
  - exists (Leaf nl). split_and!; [done|by constructor|]. intros l. cbn [collect_leaves].
    rewrite list_elem_of_singleton. naive_solver.
Qed.

Lemma insert_matched nl p b d : K (leaf_key nl) -> wf_node p (Branch b) -> p `prefix_of` path (leaf_key nl) ->
  walk_prefix (leaf_key nl) (br_prefix b) 0 (6 * length p) = Matched d ->
  (forall i c, br_children b !! i = Some (Some c) ->
    (p ++ br_prefix b ++ [Z.of_nat i]) `prefix_of` path (leaf_key nl) ->
    inserts nl (p ++ br_prefix b ++ [Z.of_nat i]) c) ->
  inserts nl p (Branch b).
Proof.
  intros HKk Hwf Hp Hw IH. destruct (wf_matched _ _ _ _ Hwf Hp Hw) as [-> Hpp].
  destruct (wf_key_continues p b _ (br_prefix b) [] Hwf HKk ltac:(by rewrite app_nil_r) Hpp) as [n Hn].
  unfold inserts. cbn [insert_node]. rewrite Hw. rewrite <- length_app in *.
  assert (0 <= get_next_nibble (leaf_key nl) (6 * length (p ++ br_prefix b))) as H0.
  { rewrite nibble_path, Hn. apply path_nibble_range in Hn. cbn. unfold id. lia. }
  destruct (nibble_slot _ _ Hpp H0) as [Hi Hqi].
  destruct (Z.ltb_spec (get_next_nibble (leaf_key nl) (6 * length (p ++ br_prefix b))) 0) as [?|_]; [lia|].
  set (i := Z.to_nat (get_next_nibble (leaf_key nl) (6 * length (p ++ br_prefix b)))) in *.
  destruct (insert_slot nl b (p ++ br_prefix b) i HKk Hqi) as (c' & -> & Hwc & Hlc).
  { intros c Hc. rewrite <- app_assoc in *. by apply IH. }
  rewrite <- app_assoc in *. rewrite bind_Ok. eexists. split; [reflexivity|]. split.
  { by eapply wf_set_child. }
  inversion Hwf as [|? ? Hlen HF Htwo Hch]; subst.
  intros l. rewrite (leaves_set_child b _ i (Some c') l) by (done || rewrite Hlen; done).
  rewrite elem_of_leaves_branch. split.
  - intros [(cx & Hcx & Hl)|(j & c & Hji & Hj & Hl)].
    { injection Hcx as <-. apply Hlc in Hl. naive_solver. }
    right. split; [eauto|]. intros Heq. destruct (wf_route _ _ _ _ _ Hwf Hj Hl) as [_ Hr].
    rewrite Heq, <- length_app in Hr. unfold i in Hji. rewrite Hr in Hji. lia.
  - intros [->|[(j & c & Hj & Hl) Hne]]; [left; exists c'; split; [done|apply Hlc; by left]|].
    destruct (decide (j = i)) as [->|Hji]; [left; exists c'; split; [done|apply Hlc; eauto]|right; eauto].
Qed.

(** Insertion into a well-formed subtree succeeds, keeps it well formed, and
    replaces the leaf of the key. *)
Lemma insert_node_spec nl n : K (leaf_key nl) ->
  forall p, wf_node p n -> p `prefix_of` path (leaf_key nl) -> inserts nl p n.
Proof.
  intros HKk. induction n as [e|b IH] using node_ind; intros p Hwf Hp.
  - unfold inserts. cbn [insert_node]. destruct (decide (leaf_key e = leaf_key nl)) as [He|He].
    + eexists. split_and!; [done|by constructor|]. intros l. cbn [collect_leaves].
      rewrite !list_elem_of_singleton. naive_solver.
    + destruct (split_leaf_spec p e nl Hwf HKk He Hp) as [Hw Hl]. eexists. split_and!; [done|exact Hw|].
      intros l. rewrite Hl. cbn [collect_leaves]. rewrite list_elem_of_singleton. naive_solver.
  - destruct (walk_prefix (leaf_key nl) (br_prefix b) 0 (6 * length p)) as [d|i n x] eqn:Hw.
    + eapply insert_matched; [done..|]. intros i c Hc Hpc.
      inversion Hwf; subst. apply IH; eauto using list_elem_of_lookup_2.
    + destruct (split_branch_spec p b i n x nl Hwf HKk Hp Hw) as (n' & Hn' & Hwf' & Hl).
      exists n'. cbn [insert_node]. rewrite Hw. split_and!; [done..|]. intros l. rewrite Hl. split; [|naive_solver].
      intros [Hin| ->]; [right; split; [done|]|by left]. intros Heq.
      apply elem_of_leaves_branch in Hin as (j & c & Hc & Hin).
      destruct (wf_route _ _ _ _ _ Hwf Hc Hin) as [Hm _]. by rewrite Heq, Hw in Hm.
Qed.

(** ** Lookup *)

(** The children of a branch off the key's route do not hold the key. *)
Lemma off_route p b k d : wf_node p (Branch b) -> p `prefix_of` path k ->
  walk_prefix k (br_prefix b) 0 (6 * length p) = Matched d ->
  get_next_nibble k d < 0 \/
  (exists i, get_next_nibble k d = Z.of_nat i /\ (i < BRANCH_NODES)%nat /\
    (d + BRANCH_BITS)%nat = (6 * length (p ++ br_prefix b ++ [Z.of_nat i]))%nat /\
    (p ++ br_prefix b ++ [Z.of_nat i]) `prefix_of` path k).
Proof.
  intros Hwf Hp Hw. destruct (wf_matched _ _ _ _ Hwf Hp Hw) as [-> Hpp]. rewrite <- length_app in *.
  destruct (Z.lt_ge_cases (get_next_nibble k (6 * length (p ++ br_prefix b))) 0) as [?|H0]; [by left|right].
  destruct (nibble_slot _ _ Hpp H0) as [Hi Hqi]. eexists. split; [symmetry; by apply Z2Nat.id|].
  split; [done|]. rewrite !length_app in *. rewrite <- app_assoc in Hqi. split; [|done].
  cbn [length]. unfold BRANCH_BITS. lia.
Qed.

(** The stored leaf of a key, if there is one. *)
Definition found_leaf (k : key) (L : list LeafNode) (l : LeafNode) : Prop := l ∈ L /\ leaf_key l = k.
Definition no_leaf (k : key) (L : list LeafNode) : Prop := forall l, l ∈ L -> leaf_key l <> k.

Lemma no_leaf_route p b k i : wf_node p (Branch b) ->
  get_next_nibble k (6 * (length p + length (br_prefix b))) = i ->
  (forall j c, br_children b !! j = Some (Some c) -> i = Z.of_nat j -> no_leaf k (collect_leaves c)) ->
  no_leaf k (collect_leaves (Branch b)).
Proof.
  intros Hwf Hi Hc l (j & c & Hj & Hl)%elem_of_leaves_branch Heq.
  destruct (wf_route _ _ _ _ _ Hwf Hj Hl) as [_ Hr]. rewrite Heq, Hi in Hr. by eapply Hc.
Qed.

Lemma no_leaf_diverged p b k i n x : wf_node p (Branch b) ->
  walk_prefix k (br_prefix b) 0 (6 * length p) = Diverged i n x -> no_leaf k (collect_leaves (Branch b)).
Proof.
  intros Hwf Hw l (j & c & Hj & Hl)%elem_of_leaves_branch Heq.
  destruct (wf_route _ _ _ _ _ Hwf Hj Hl) as [Hm _]. by rewrite Heq, Hw in Hm.
Qed.

Lemma get_node_spec k n : forall p, wf_node p n -> p `prefix_of` path k ->
  (exists l, found_leaf k (collect_leaves n) l /\ get_node n k (6 * length p) = Some (leaf_value l)) \/
  (no_leaf k (collect_leaves n) /\ get_node n k (6 * length p) = None).
Proof.
  induction n as [e|b IH] using node_ind; intros p Hwf Hp; cbn [get_node].
  { unfold found_leaf, no_leaf. cbn [collect_leaves]. setoid_rewrite list_elem_of_singleton.
    destruct (decide (leaf_key e = k)); naive_solver. }
  destruct (walk_prefix k (br_prefix b) 0 (6 * length p)) as [d|i n x] eqn:Hw;
    [|right; split; [by eapply no_leaf_diverged|done]].
  destruct (wf_matched _ _ _ _ Hwf Hp Hw) as [Hd _].
  destruct (off_route _ _ _ _ Hwf Hp Hw) as [Hneg|(i & Hi & Hi64 & Hdepth & Hpi)].
  { right. destruct (Z.ltb_spec (get_next_nibble k d) 0); [split; [|done]|lia].
    eapply no_leaf_route; [done|by rewrite <- Hd|]. intros; lia. }
  rewrite Hi. destruct (Z.ltb_spec (Z.of_nat i) 0); [lia|]. rewrite Nat2Z.id, at_child_spec.
  inversion Hwf as [|? ? Hlen HF Htwo Hch]; subst.
  destruct (br_children b !! i) as [[c|]|] eqn:Hc.
  2,3: right; split; [eapply no_leaf_route; [done|exact Hi|]; intros j c Hj Hij;
    apply Nat2Z.inj in Hij as <-; congruence|done].
  rewrite Hdepth. destruct (IH c ltac:(by eapply list_elem_of_lookup_2) _ (Hch _ _ Hc) Hpi) as [(l & [Hl Hk] & ->)|[Hno ->]].
  - left. exists l. split; [|done]. split; [|done]. apply elem_of_leaves_branch. eauto.
  - right. split; [|done]. eapply no_leaf_route; [done|exact Hi|]. intros j c' Hj Hij.
    apply Nat2Z.inj in Hij as <-. rewrite Hc in Hj. by injection Hj as <-.
Qed.

(** ** Deletion *)

(** A branch that lost a child: gone, merged with the one left, or kept. *)
Lemma collapse_spec p b : length (br_children b) = BRANCH_NODES ->
  Forall (fun x => 0 <= x < 64) (br_prefix b) ->
  (forall i c, br_children b !! i = Some (Some c) -> wf_node (p ++ br_prefix b ++ [Z.of_nat i]) c) ->
  match collapse b with
  | None => forall l, l ∉ collect_leaves (Branch b)
  | Some n' => wf_node p n' /\ forall l, l ∈ collect_leaves n' <-> l ∈ collect_leaves (Branch b)
  end.
Proof.
  intros Hlen HF Hch. unfold collapse.
  destruct (remaining (br_children b)) as [|[i c] [|x r]] eqn:Hr.
  - intros l (j & c & Hj & _)%elem_of_leaves_branch. by eapply remaining_nil.
  - destruct (remaining_one _ _ _ Hr) as [Hc Honly].
    assert (forall l, l ∈ collect_leaves (Branch b) <-> l ∈ collect_leaves c) as Hl.
    { intros l. rewrite elem_of_leaves_branch. split; [|by eauto].
      intros (j & c' & Hj & Hl). by destruct (Honly _ _ Hj) as [_ ->]. }
    pose proof (Hch i c Hc) as Hwc. destruct c as [l|cb]; cbn [merge_branch_with_child].
    + split; [|intros l'; by rewrite Hl]. inversion Hwc as [? ? HKl Hp|]; subst.
      constructor; [done|]. etrans; [|exact Hp]. by apply prefix_app_r.
    + split; [|intros l'; by rewrite Hl]. inversion Hwc as [|? ? Hlen' HF' Htwo' Hch']; subst.
      constructor; cbn; [done| |done|].
      * apply lookup_lt_Some in Hc. rewrite Hlen in Hc. unfold BRANCH_NODES in Hc.
        rewrite Forall_app, Forall_cons. split_and!; [done|lia|lia|done].
      * intros j c Hj. specialize (Hch' j c Hj). by rewrite <- !app_assoc in *.
  - split; [|done]. constructor; [done|done|by eapply remaining_two|done].
Qed.

(** What deletion promises of one subtree. *)
Definition deletes (k : key) (p : list Z) (n : node) : Prop :=
  match delete_node n k (6 * length p) with
  | (true, n') => (exists l, found_leaf k (collect_leaves n) l) /\
      (forall n'', n' = Some n'' -> wf_node p n'') /\
      forall l, l ∈ default [] (collect_leaves <$> n') <-> l ∈ collect_leaves n /\ leaf_key l <> k
  | (false, n') => n' = Some n /\ no_leaf k (collect_leaves n)
  end.

Lemma collapse_deleted k p b i c n' : wf_node p (Branch b) -> br_children b !! i = Some (Some c) ->
  get_next_nibble k (6 * (length p + length (br_prefix b))) = Z.of_nat i ->
  (forall n'', n' = Some n'' -> wf_node (p ++ br_prefix b ++ [Z.of_nat i]) n'') ->
  (forall l, l ∈ default [] (collect_leaves <$> n') <-> l ∈ collect_leaves c /\ leaf_key l <> k) ->
  let b' := with_children_commitment b (<[i := n']> (br_children b)) [] in
  (forall n'', collapse b' = Some n'' -> wf_node p n'') /\
  forall l, l ∈ default [] (collect_leaves <$> collapse b') <-> l ∈ collect_leaves (Branch b) /\ leaf_key l <> k.
Proof.
  intros Hwf Hc Hi Hwf' Hl' b'. inversion Hwf as [|? ? Hlen HF Htwo Hch]; subst.
  pose proof (lookup_lt_Some _ _ _ Hc) as Hilt.
  assert (forall l, l ∈ collect_leaves (Branch b') <-> l ∈ collect_leaves (Branch b) /\ leaf_key l <> k) as Hb'.
  { intros l. rewrite (leaves_set_child b b' i n') by done. rewrite elem_of_leaves_branch. split.
    - intros [(c' & -> & Hl)|(j & c' & Hji & Hj & Hl)].
      + apply Hl' in Hl as [Hl Hk]. split; eauto.
      + split; [by eauto|]. intros Hk. destruct (wf_route _ _ _ _ _ Hwf Hj Hl) as [_ Hr].
        rewrite Hk, Hi in Hr. by apply Nat2Z.inj in Hr.
    - intros [(j & c' & Hj & Hl) Hk]. destruct (decide (j = i)) as [->|Hji]; [left|right; by eauto].
      rewrite Hc in Hj. injection Hj as <-. destruct n' as [n''|].
      + exists n''. split; [done|]. by apply Hl'.
      + exfalso. eapply not_elem_of_nil. by apply Hl'. }
  pose proof (collapse_spec p b') as Hcol.
  lapply Hcol; [clear Hcol; intros Hcol|by cbn; rewrite length_insert].
  lapply Hcol; [clear Hcol; intros Hcol|done]. lapply Hcol; [clear Hcol; intros Hcol|].
  - destruct (collapse b') as [n''|]; cbn; [split; [naive_solver|]; intros l; rewrite <- Hb'; apply Hcol|].
    split; [done|]. intros l. rewrite <- Hb'. split; [by intros ?%not_elem_of_nil|by intros ?%Hcol].
  - intros j cj. cbn. destruct (decide (j = i)) as [->|Hji].
    + rewrite list_lookup_insert_eq by done. intros [= ->]. by apply Hwf'.
    + rewrite list_lookup_insert_ne by done. apply Hch.
Qed.

Lemma delete_matched k p b d i : wf_node p (Branch b) ->
  walk_prefix k (br_prefix b) 0 (6 * length p) = Matched d ->
  get_next_nibble k d = Z.of_nat i -> (i < BRANCH_NODES)%nat ->
  d = (6 * (length p + length (br_prefix b)))%nat ->
  (d + BRANCH_BITS)%nat = (6 * length (p ++ br_prefix b ++ [Z.of_nat i]))%nat ->
  (forall c, br_children b !! i = Some (Some c) -> deletes k (p ++ br_prefix b ++ [Z.of_nat i]) c) ->
  deletes k p (Branch b).
Proof.
  intros Hwf Hw Hi Hi64 Hd Hdepth IH. unfold deletes. cbn [delete_node]. rewrite Hw, Hi.
  destruct (Z.ltb_spec (Z.of_nat i) 0); [lia|]. rewrite Nat2Z.id, at_child_spec, Hdepth.
  inversion Hwf as [|? ? Hlen HF Htwo Hch]; subst.
  assert (no_leaf k (default [] (collect_leaves <$> (default None (br_children b !! i)))) ->
    no_leaf k (collect_leaves (Branch b))) as Hno.
  { intros Hno. eapply no_leaf_route; [done|exact Hi|]. intros j c Hj <-%Nat2Z.inj. by rewrite Hj in Hno. }
  destruct (br_children b !! i) as [[c|]|] eqn:Hc; cbn in Hno.
  3: { apply lookup_ge_None in Hc. lia. }
  2: { cbn [negb]. rewrite list_insert_id by done. split; [by destruct b|]. apply Hno. by intros ? ?%not_elem_of_nil. }
  specialize (IH c eq_refl). unfold deletes in IH.
  destruct (delete_node c k _) as [[|] n']; cbn [negb].
  2: { destruct IH as [-> Hn]. rewrite list_insert_id by done. split; [by destruct b|by apply Hno]. }
  destruct IH as ((l & Hl & Hk) & Hwf' & Hl').
  split; [exists l; split; [apply elem_of_leaves_branch; eauto|done]|]. by apply (collapse_deleted k p b i c).
Qed.

(** Deletion from a well-formed subtree reports whether the key was stored,
    changes nothing when it was not, and otherwise removes exactly its leaf. *)
Lemma delete_node_spec k n : forall p, wf_node p n -> p `prefix_of` path k -> deletes k p n.
Proof.
  induction n as [e|b IH] using node_ind; intros p Hwf Hp.
  { unfold deletes, found_leaf, no_leaf. cbn [delete_node collect_leaves].
    destruct (decide (leaf_key e = k)); setoid_rewrite list_elem_of_singleton; [|naive_solver].
    split_and!; [by eauto|done|]. intros l. cbn. split; [by intros ?%not_elem_of_nil|naive_solver]. }
  destruct (walk_prefix k (br_prefix b) 0 (6 * length p)) as [d|i n x] eqn:Hw.
  2: { unfold deletes. cbn [delete_node]. rewrite Hw. split; [done|by eapply no_leaf_diverged]. }
  destruct (wf_matched _ _ _ _ Hwf Hp Hw) as [Hd _].
  destruct (off_route _ _ _ _ Hwf Hp Hw) as [Hneg|(i & Hi & Hi64 & Hdepth & Hpi)].
  - unfold deletes. cbn [delete_node]. rewrite Hw.
    destruct (Z.ltb_spec (get_next_nibble k d) 0); [split; [done|]|lia].
    eapply no_leaf_route; [done|by rewrite <- Hd|]. intros; lia.
  - eapply delete_matched; [done..|]. intros c Hc. inversion Hwf; subst.
    apply IH; eauto using list_elem_of_lookup_2.
Qed.

End Refinement.
