(* ===== verification/TrieMap.v ===== *)
(** * The trie refines a finite map

    [trie_rep t m]: the tree [t] is well formed and stores exactly the leaves of
    the finite map [m].  Insertion, lookup, deletion and enumeration implement
    the operations of [gmap]; the shape of a tree ([≡]: everything but cached
    commitments, sizes and counters) is a function of the map, whatever the
    history of operations; and the leaf counters count. *)

From S2P Require Import Prelude Bytes Nibble Trie TrieSpec.

(** ** Structural equality of nodes, up to cached metadata *)

Definition slot {A} (cs : list (option A)) (i : nat) : option A := mjoin (cs !! i).

Lemma slot_Some {A} (cs : list (option A)) i c : slot cs i = Some c <-> cs !! i = Some (Some c).
Proof. unfold slot. destruct (cs !! i) as [[c'|]|]; cbn; naive_solver. Qed.

Inductive node_equiv : Equiv node :=
| leaf_equiv l : Leaf l ≡ Leaf l
| branch_equiv b1 b2 :
    br_prefix b1 = br_prefix b2 ->
    length (br_children b1) = length (br_children b2) ->
    (forall i, is_Some (slot (br_children b1) i) <-> is_Some (slot (br_children b2) i)) ->
    (forall i c1 c2, slot (br_children b1) i = Some c1 -> slot (br_children b2) i = Some c2 -> c1 ≡ c2) ->
    Branch b1 ≡ Branch b2.
#[export] Existing Instance node_equiv.

#[export] Instance node_equivalence : Equivalence (≡@{node}).
Proof.
  split.
  - intros n. induction n as [l|b IH] using node_ind; constructor; [done..|].
    intros i c1 c2 H1 H2. rewrite H1 in H2. injection H2 as <-. apply IH.
    apply slot_Some in H1. by eapply list_elem_of_lookup_2.
  - induction 1 as [l|b1 b2 Hp Hl Hs _ IH]; constructor; [done|done|by intros i; rewrite Hs|].
    intros i c1 c2 H1 H2. by eapply IH.
  - intros n1 n2 n3 H12. revert n3. induction H12 as [l|b1 b2 Hp Hl Hs Hc IH]; intros n3 H23; [done|].
    inversion H23 as [|? b3 Hp' Hl' Hs' Hc']; subst.
    constructor; [congruence|congruence|by intros i; rewrite Hs|].
    intros i c1 c3 H1 H3. destruct (proj1 (Hs i)) as [c2 H2]; [by rewrite H1|]. by eapply IH; eauto.
Qed.

(** ** Enumeration has no duplicate keys *)

Section Map.
Context `{Sha2} (K : key -> Prop) `{HK : !PrefixFree K}.

Abbreviation wf_node := (wf_node K).
Abbreviation wf_tree := (wf_tree K).

Lemma flat_children_keys (p : list Z) j cs :
  (forall i c, cs !! i = Some (Some c) -> NoDup (leaf_key <$> collect_leaves c) /\
    forall l, l ∈ collect_leaves c -> path (leaf_key l) !! length p = Some (Z.of_nat (j + i))) ->
  NoDup (leaf_key <$> flat_children collect_leaves cs).
Proof.
  revert j. induction cs as [|[c|] cs IH]; intros j Hcs; cbn [flat_children].
  - constructor.
  - assert (NoDup (leaf_key <$> flat_children collect_leaves cs)) as Hrest.
    { apply (IH (S j)). intros i c' Hi. destruct (Hcs (S i) c' Hi) as [? Hl]. split; [done|].
      intros l Hin. rewrite (Hl l Hin). do 2 f_equal. lia. }
    destruct (Hcs 0%nat c eq_refl) as [Hc Hc0].
    rewrite fmap_app. apply NoDup_app. split_and!; [done| |done].
    intros k (l & -> & Hl)%list_elem_of_fmap (l' & Hk & Hl')%list_elem_of_fmap.
    apply elem_of_flat_children in Hl' as (i & c' & Hi & Hl').
    destruct (Hcs (S i) c' Hi) as [_ Hi']. specialize (Hi' _ Hl'). rewrite <- Hk, (Hc0 _ Hl) in Hi'.
    injection Hi'. lia.
  - apply (IH (S j)). intros i c' Hi. destruct (Hcs (S i) c' Hi) as [? Hl]. split; [done|].
    intros l Hin. rewrite (Hl l Hin). do 2 f_equal. lia.
Qed.

Lemma wf_NoDup_keys p n : wf_node p n -> NoDup (leaf_key <$> collect_leaves n).
Proof.
  induction 1 as [p l HKl Hp|p b Hlen HF Htwo Hch IH]; [cbn; apply NoDup_singleton|].
  apply (flat_children_keys (p ++ br_prefix b) 0). intros i c Hc. split; [by apply (IH i)|].
  intros l Hl. destruct (wf_leaves _ _ _ _ (Hch _ _ Hc) Hl) as [_ [r ->]].
  rewrite (app_assoc p), <- app_assoc, lookup_app_r, Nat.sub_diag by lia. done.
Qed.

Lemma NoDup_keys_inj (L : list LeafNode) l1 l2 : NoDup (leaf_key <$> L) -> l1 ∈ L -> l2 ∈ L ->
  leaf_key l1 = leaf_key l2 -> l1 = l2.
Proof.
  intros HN H1 H2 E. apply list_elem_of_lookup in H1 as [i Hi], H2 as [j Hj].
  assert (i = j) as ->; [|congruence].
  eapply (NoDup_lookup (leaf_key <$> L)); [done|..]; rewrite list_lookup_fmap.
  - by rewrite Hi.
  - rewrite Hj. cbn. by rewrite E.
Qed.

(** ** The representation relation *)

Definition leaf_nodes (t : VectorCommitmentTree) : list LeafNode :=
  default [] (collect_leaves <$> root t).

Definition trie_rep (t : VectorCommitmentTree) (m : gmap key LeafNode) : Prop :=
  wf_tree t /\ forall k l, m !! k = Some l <-> l ∈ leaf_nodes t /\ leaf_key l = k.

Lemma leaf_nodes_NoDup t : wf_tree t -> NoDup (leaf_key <$> leaf_nodes t).
Proof. destruct t as [[n|]]; [apply wf_NoDup_keys|intros _; apply NoDup_nil_2]. Qed.

Lemma leaf_nodes_K t l : wf_tree t -> l ∈ leaf_nodes t -> K (leaf_key l).
Proof.
  destruct t as [[n|]]; [|by intros _ ?%not_elem_of_nil].
  intros Hwf Hl. by eapply (wf_leaves K [] n).
Qed.

(** Every well-formed tree represents the map of its leaves. *)
Lemma trie_rep_exists t : wf_tree t ->
  trie_rep t (list_to_map ((fun l => (leaf_key l, l)) <$> leaf_nodes t)).
Proof.
  intros Hwf. split; [done|]. intros k l.
  assert (NoDup ((fun l => (leaf_key l, l)) <$> leaf_nodes t).*1) as HN.
  { rewrite <- list_fmap_compose. by apply leaf_nodes_NoDup. }
  rewrite <- elem_of_list_to_map by done. rewrite list_elem_of_fmap. split; [|naive_solver].
  by intros (l' & [= -> ->] & Hl).
Qed.

Lemma trie_rep_new : trie_rep tree_new ∅.
Proof. split; [done|]. intros k l. rewrite lookup_empty. cbn. rewrite elem_of_nil. naive_solver. Qed.

Lemma rep_insert t m k v h sz : trie_rep t m -> K k ->
  exists t', tree_insert t k v h sz = (t', Ok ()) /\ trie_rep t' (<[k := new_leaf k v h sz]> m).
Proof.
  intros [Hwf Hm] HKk. unfold tree_insert. destruct t as [[n|]]; cbn [root insert_recursive].
  - destruct (insert_node_spec K (new_leaf k v h sz) n HKk [] Hwf (prefix_nil _)) as (n' & Hn' & Hwf' & Hl').
    cbn [leaf_key new_leaf compute_commitment length] in Hn'. rewrite Nat.mul_0_r in Hn'. rewrite Hn'.
    eexists. split; [done|]. split; [done|]. intros k' l. cbn. rewrite Hl'.
    destruct (decide (k = k')) as [<-|Hne].
    + rewrite lookup_insert_eq. split; [intros [= <-]; auto|]. intros [[->|[_ ?]] ?]; done.
    + rewrite lookup_insert_ne by done. rewrite Hm. split; [|by intros [[->|[? _]] ?]].
      intros [Hl <-]. auto.
  - eexists. split; [done|]. split; [constructor; [done|apply prefix_nil]|].
    intros k' l. cbn. rewrite list_elem_of_singleton.
    destruct (decide (k = k')) as [<-|Hne].
    + rewrite lookup_insert_eq. split; [by intros [= <-]|]. by intros [-> _].
    + rewrite lookup_insert_ne by done. rewrite Hm. cbn. rewrite elem_of_nil.
      split; [by intros [? _]|by intros [-> ?]].
Qed.

Lemma rep_get t m k : trie_rep t m -> tree_get t k = leaf_value <$> m !! k.
Proof.
  intros [Hwf Hm]. unfold tree_get. destruct t as [[n|]]; cbn [root get_recursive].
  - destruct (get_node_spec K k n [] Hwf (prefix_nil _)) as [(l & Hl & Hg)|[Hno Hg]];
      cbn [length] in Hg; rewrite Nat.mul_0_r in Hg; rewrite Hg.
    + by rewrite (proj2 (Hm k l) Hl).
    + destruct (m !! k) as [l|] eqn:E; [|done]. apply Hm in E as [Hl Hk]. by destruct (Hno l).
  - destruct (m !! k) as [l|] eqn:E; [|done]. apply Hm in E as [Hl Hk]. by apply not_elem_of_nil in Hl.
Qed.

Lemma rep_delete t m k : trie_rep t m -> k <> [] ->
  match m !! k with
  | Some _ => exists t', tree_delete t k = (t', Ok ()) /\ trie_rep t' (delete k m)
  | None => tree_delete t k = (t, Err NotFound)
  end.
Proof.
  intros [Hwf Hm] Hk. unfold tree_delete. rewrite decide_False by done.
  destruct t as [[n|]]; cbn [root delete_recursive].
  2: { destruct (m !! k) as [l|] eqn:E; [|done]. apply Hm in E as [Hl _]. by apply not_elem_of_nil in Hl. }
  pose proof (delete_node_spec K k n [] Hwf (prefix_nil _)) as Hd.
  unfold deletes in Hd. cbn [length] in Hd. rewrite Nat.mul_0_r in Hd.
  destruct (delete_node n k 0) as [[|] n'].
  - destruct Hd as ([l Hl] & Hwf' & Hl'). rewrite (proj2 (Hm k l) Hl).
    eexists. split; [done|]. split.
    + destruct n' as [n'|]; [by apply Hwf'|done].
    + intros k' l'. unfold leaf_nodes. cbn [root]. rewrite Hl'. rewrite lookup_delete_Some, Hm. cbn. naive_solver.
  - destruct Hd as [-> Hno]. destruct (m !! k) as [l|] eqn:E; [|done].
    apply Hm in E as [Hl Hk']. by destruct (Hno l).
Qed.

(** ** Canonicity *)

(** Two leaves of a branch whose paths part right after its prefix. *)
Lemma branch_two_leaves p b : wf_node p (Branch b) -> exists l1 l2 i j, i <> j /\
  l1 ∈ collect_leaves (Branch b) /\ l2 ∈ collect_leaves (Branch b) /\
  (p ++ br_prefix b ++ [Z.of_nat i]) `prefix_of` path (leaf_key l1) /\
  (p ++ br_prefix b ++ [Z.of_nat j]) `prefix_of` path (leaf_key l2).
Proof.
  inversion 1 as [|? ? Hlen HF (i & j & ci & cj & Hij & Hi & Hj) Hch]; subst.
  destruct (wf_nonempty K _ _ (Hch _ _ Hi)) as [l1 H1], (wf_nonempty K _ _ (Hch _ _ Hj)) as [l2 H2].
  exists l1, l2, i, j. split_and!; [done|apply elem_of_leaves_branch; by eauto..| |].
  - by eapply (wf_leaves K); [apply Hch|].
  - by eapply (wf_leaves K); [apply Hch|].
Qed.

Lemma prefix_snoc_agree {A} (u v r : list A) x y : (u ++ [x]) `prefix_of` r -> v `prefix_of` r ->
  v !! length u = Some y -> x = y.
Proof. intros Hu [t ->] Hy. eapply prefix_lookup; [done|]. by apply lookup_app_l_Some. Qed.

Lemma branch_prefix_le p b1 b2 : wf_node p (Branch b1) -> wf_node p (Branch b2) ->
  (forall l, l ∈ collect_leaves (Branch b1) -> l ∈ collect_leaves (Branch b2)) ->
  (length (br_prefix b2) <= length (br_prefix b1))%nat.
Proof.
  intros H1 H2 Hl. destruct (branch_two_leaves p b1 H1) as (l1 & l2 & i & j & Hij & Hl1 & Hl2 & Hp1 & Hp2).
  destruct (decide (length (br_prefix b2) <= length (br_prefix b1))%nat) as [?|Hlt]; [done|exfalso].
  destruct (lookup_lt_is_Some_2 (br_prefix b2) (length (br_prefix b1)) ltac:(lia)) as [x Hx].
  assert (forall l, l ∈ collect_leaves (Branch b2) -> (p ++ br_prefix b2) `prefix_of` path (leaf_key l)) as Hp.
  { intros l (k & c & Hk & Hin)%elem_of_leaves_branch. destruct (wf_branch_leaf _ _ _ _ _ _ H2 Hk Hin) as [_ Hpk].
    etrans; [|exact Hpk]. apply prefix_app. by apply prefix_app_r. }
  assert ((p ++ br_prefix b2) !! length (p ++ br_prefix b1) = Some x) as Hx'.
  { rewrite length_app, lookup_app_r by lia. by replace (_ + _ - _)%nat with (length (br_prefix b1)) by lia. }
  rewrite app_assoc in Hp1, Hp2.
  pose proof (prefix_snoc_agree _ _ _ _ _ Hp1 (Hp _ (Hl _ Hl1)) Hx').
  pose proof (prefix_snoc_agree _ _ _ _ _ Hp2 (Hp _ (Hl _ Hl2)) Hx'). lia.
Qed.

Lemma branch_prefix_eq p b1 b2 : wf_node p (Branch b1) -> wf_node p (Branch b2) ->
  (forall l, l ∈ collect_leaves (Branch b1) <-> l ∈ collect_leaves (Branch b2)) ->
  br_prefix b1 = br_prefix b2.
Proof.
  intros H1 H2 Hl. pose proof (branch_prefix_le p b1 b2 H1 H2 ltac:(intros ?; apply Hl)).
  pose proof (branch_prefix_le p b2 b1 H2 H1 ltac:(intros ?; apply Hl)).
  destruct (branch_two_leaves p b1 H1) as (l1 & _ & i & _ & _ & Hl1 & _ & Hp1 & _).
  pose proof (proj1 (Hl _) Hl1) as (k & c & Hk & Hin)%elem_of_leaves_branch.
  destruct (wf_branch_leaf _ _ _ _ _ _ H2 Hk Hin) as [_ Hp2].
  destruct Hp1 as [r1 E1], Hp2 as [r2 E2]. rewrite E1, <- !app_assoc in E2.
  apply app_inv_head in E2. apply app_inj_1 in E2; [|lia]. apply E2.
Qed.

(** A leaf of a branch is under the slot that its key's next nibble names. *)
Lemma branch_leaf_slot p b l i c : wf_node p (Branch b) -> l ∈ collect_leaves (Branch b) ->
  br_children b !! i = Some (Some c) ->
  l ∈ collect_leaves c <-> get_next_nibble (leaf_key l) (6 * (length p + length (br_prefix b))) = Z.of_nat i.
Proof.
  intros Hwf (j & cj & Hj & Hl)%elem_of_leaves_branch Hc. split; [intros Hin; by apply (wf_route K p b l i c)|].
  intros Hn. destruct (wf_route K p b l j cj Hwf Hj Hl) as [_ Hn']. rewrite Hn in Hn'.
  apply Nat2Z.inj in Hn' as ->. by simplify_eq.
Qed.

Lemma slot_transfer p b1 b2 i c1 : wf_node p (Branch b1) -> wf_node p (Branch b2) ->
  br_prefix b1 = br_prefix b2 ->
  (forall l, l ∈ collect_leaves (Branch b1) <-> l ∈ collect_leaves (Branch b2)) ->
  br_children b1 !! i = Some (Some c1) -> exists c2, br_children b2 !! i = Some (Some c2).
Proof.
  intros H1 H2 Hpre Hl Hc1. inversion H1 as [|? ? Hlen HF Htwo Hch]; subst.
  destruct (wf_nonempty K _ _ (Hch _ _ Hc1)) as [l Hin].
  destruct (wf_route K p b1 l i c1 H1 Hc1 Hin) as [_ Hn].
  assert (l ∈ collect_leaves (Branch b2)) as (j & c2 & Hj & Hin2)%elem_of_leaves_branch.
  { apply Hl, elem_of_leaves_branch. eauto. }
  destruct (wf_route K p b2 l j c2 H2 Hj Hin2) as [_ Hn2]. rewrite <- Hpre, Hn in Hn2.
  apply Nat2Z.inj in Hn2 as ->. eauto.
Qed.

Lemma branch_not_one p b l0 : wf_node p (Branch b) -> ~ (forall l, l ∈ collect_leaves (Branch b) -> l = l0).
Proof.
  intros Hwf Hl. destruct (branch_two_leaves p b Hwf) as (x & y & i & j & Hij & Hx & Hy & Hp1 & Hp2).
  apply Hl in Hx as ->. apply Hl in Hy as ->. rewrite app_assoc in Hp1, Hp2.
  destruct Hp2 as [r Hr]. apply Hij, Nat2Z.inj. eapply prefix_lookup; [done|].
  rewrite Hr, <- app_assoc, lookup_app_r, Nat.sub_diag by lia. done.
Qed.

(** The shape of a well-formed node is a function of its path and its leaves. *)
Lemma wf_canonical n1 : forall p n2, wf_node p n1 -> wf_node p n2 ->
  (forall l, l ∈ collect_leaves n1 <-> l ∈ collect_leaves n2) -> n1 ≡ n2.
Proof.
  induction n1 as [l1|b1 IH] using node_ind; intros p [l2|b2] H1 H2 Hl.
  - cbn in Hl. setoid_rewrite list_elem_of_singleton in Hl. rewrite (proj1 (Hl l1) eq_refl). constructor.
  - destruct (branch_not_one p b2 l1 H2). intros l. rewrite <- Hl. cbn. by rewrite list_elem_of_singleton.
  - destruct (branch_not_one p b1 l2 H1). intros l. rewrite Hl. cbn. by rewrite list_elem_of_singleton.
  - pose proof (branch_prefix_eq p b1 b2 H1 H2 Hl) as Hpre.
    inversion H1 as [|? ? Hlen1 HF1 Htwo1 Hch1]; inversion H2 as [|? ? Hlen2 HF2 Htwo2 Hch2]; subst.
    constructor; [done|congruence| |].
    + intros i. split; intros [c Hc%slot_Some].
      * destruct (slot_transfer p b1 b2 i c) as [c2 Hc2%slot_Some]; [done..|]. by rewrite Hc2.
      * destruct (slot_transfer p b2 b1 i c) as [c2 Hc2%slot_Some]; [done..| |done|by rewrite Hc2].
        intros l. by rewrite Hl.
    + intros i c1 c2 Hc1%slot_Some Hc2%slot_Some.
      eapply IH; [by eapply list_elem_of_lookup_2|by apply Hch1|rewrite Hpre; by apply Hch2|].
      intros l. split; intros Hin.
      * assert (l ∈ collect_leaves (Branch b1)) as Hb by (apply elem_of_leaves_branch; eauto).
        apply (branch_leaf_slot p b2 l i c2); [done|by apply Hl|done|]. rewrite <- Hpre.
        by apply (branch_leaf_slot p b1 l i c1).
      * assert (l ∈ collect_leaves (Branch b2)) as Hb by (apply elem_of_leaves_branch; eauto).
        apply (branch_leaf_slot p b1 l i c1); [done|by apply Hl|done|]. rewrite Hpre.
        by apply (branch_leaf_slot p b2 l i c2).
Qed.

(** Two trees of one map have the same shape. *)
Lemma rep_canonical t1 t2 m : trie_rep t1 m -> trie_rep t2 m ->
  match root t1, root t2 with
  | Some n1, Some n2 => n1 ≡ n2
  | None, None => True
  | _, _ => False
  end.
Proof.
  intros [Hwf1 Hm1] [Hwf2 Hm2].
  assert (forall l, l ∈ leaf_nodes t1 <-> l ∈ leaf_nodes t2) as Hl.
  { intros l. pose proof (Hm1 (leaf_key l) l). pose proof (Hm2 (leaf_key l) l). naive_solver. }
  destruct t1 as [[n1|]], t2 as [[n2|]]; cbn in *; [by apply (wf_canonical n1 [])|..|done].
  - destruct (wf_nonempty K _ _ Hwf1) as [l Hin]. apply Hl in Hin. by apply not_elem_of_nil in Hin.
  - destruct (wf_nonempty K _ _ Hwf2) as [l Hin]. apply Hl in Hin. by apply not_elem_of_nil in Hin.
Qed.

(** ** Enumeration *)

Lemma rep_leaves t m : trie_rep t m ->
  Permutation (tree_leaves t) ((fun kl => (kl.1, leaf_value kl.2)) <$> map_to_list m).
Proof.
  intros [Hwf Hm].
  assert (tree_leaves t = (fun kl => (kl.1, leaf_value kl.2)) <$> ((fun l => (leaf_key l, l)) <$> leaf_nodes t)) as ->.
  { rewrite <- list_fmap_compose. destruct t as [[n|]]; done. }
  apply fmap_Permutation, NoDup_Permutation; [|apply NoDup_map_to_list|].
  - apply (NoDup_fmap_1 fst). rewrite <- list_fmap_compose. by apply leaf_nodes_NoDup.
  - intros [k l]. rewrite elem_of_map_to_list, Hm, list_elem_of_fmap. split; [|naive_solver].
    by intros (l' & [= -> ->] & Hl).
Qed.

Lemma first_child_spec {A R} (f : A -> option R) cs r : first_child f cs = Some r ->
  exists i c, cs !! i = Some (Some c) /\ f c = Some r.
Proof.
  induction cs as [|[c|] cs IH]; cbn [first_child]; [done| |].
  - destruct (f c) as [r'|] eqn:E; [intros [= <-]; by exists 0%nat, c|].
    intros (i & c' & Hi & Hc)%IH. by exists (S i), c'.
  - intros (i & c' & Hi & Hc)%IH. by exists (S i), c'.
Qed.

Lemma first_child_None {A R} (f : A -> option R) cs : first_child f cs = None ->
  forall i c, cs !! i = Some (Some c) -> f c = None.
Proof.
  induction cs as [|[c|] cs IH]; cbn [first_child]; intros E i c' Hi; [done| |].
  - destruct (f c) eqn:Ec; [done|]. destruct i as [|i]; [by injection Hi as <-|by apply (IH E i)].
  - destruct i as [|i]; [done|by apply (IH E i)].
Qed.

(** The full scan returns the value of a leaf with the key, if there is one. *)
Lemma find_leaf_value_spec k n :
  match find_leaf_value n k with
  | Some v => exists l, found_leaf k (collect_leaves n) l /\ v = leaf_value l
  | None => no_leaf k (collect_leaves n)
  end.
Proof.
  induction n as [l|b IH] using node_ind; cbn [find_leaf_value].
  { unfold found_leaf, no_leaf. cbn [collect_leaves]. destruct (decide (leaf_key l = k));
      setoid_rewrite list_elem_of_singleton; naive_solver. }
  destruct (first_child _ _) as [v|] eqn:E.
  - apply first_child_spec in E as (i & c & Hc & Hv).
    specialize (IH c ltac:(by eapply list_elem_of_lookup_2)). rewrite Hv in IH.
    destruct IH as (l & [Hl Hk] & ->). exists l. split; [|done]. split; [|done].
    apply elem_of_leaves_branch. eauto.
  - intros l (i & c & Hc & Hl)%elem_of_leaves_branch.
    specialize (IH c ltac:(by eapply list_elem_of_lookup_2)).
    rewrite (first_child_None _ _ E _ _ Hc) in IH. by apply IH.
Qed.

Lemma find_leaf_value_get t r k : wf_tree t -> root t = Some r -> find_leaf_value r k = tree_get t k.
Proof.
  intros Hwf Hr. rewrite (rep_get t _ k (trie_rep_exists t Hwf)).
  destruct (trie_rep_exists t Hwf) as [_ Hm]. set (m := list_to_map _ : gmap key LeafNode) in *.
  assert (leaf_nodes t = collect_leaves r) as HL by (unfold leaf_nodes; by rewrite Hr).
  pose proof (find_leaf_value_spec k r) as Hf. rewrite <- HL in Hf.
  destruct (find_leaf_value r k) as [v|].
  - destruct Hf as (l & Hl & ->). by rewrite (proj2 (Hm k l) Hl).
  - destruct (m !! k) as [l|] eqn:E; [|done]. apply Hm in E as [Hl Hk]. by destruct (Hf l).
Qed.

(** ** Leaf counters *)

Inductive counted : node -> Prop :=
| counted_leaf l : counted (Leaf l)
| counted_branch b :
    br_leaf_count b = Z.of_nat (length (collect_leaves (Branch b))) ->
    (forall i c, br_children b !! i = Some (Some c) -> counted c) ->
    counted (Branch b).

Lemma flat_children_insert {A R} (f : A -> list R) cs i y : cs !! i = Some None ->
  length (flat_children f (<[i := Some y]> cs)) = (length (f y) + length (flat_children f cs))%nat.
Proof.
  revert i. induction cs as [|[c|] cs IH]; intros [|i] Hi; try done.
  - change (<[S i := Some y]> (Some c :: cs)) with (Some c :: <[i := Some y]> cs).
    cbn [flat_children]. rewrite !length_app, (IH i Hi). lia.
  - cbn. by rewrite length_app.
  - change (<[S i := Some y]> (None :: cs)) with (None :: <[i := Some y]> cs).
    cbn [flat_children]. by rewrite (IH i Hi).
Qed.

Lemma flat_children_none {A R} (f : A -> list R) n : flat_children f (replicate n None) = [].
Proof. by induction n. Qed.

Lemma flat_children_length_ge {A R} (f : A -> list R) cs i c : cs !! i = Some (Some c) ->
  (length (f c) <= length (flat_children f cs))%nat.
Proof.
  revert i. induction cs as [|[c'|] cs IH]; intros [|i] Hi; try done; cbn; rewrite ?length_app.
  - injection Hi as ->. lia.
  - specialize (IH i Hi). lia.
  - by apply (IH i).
Qed.

Lemma pair_leaves_length (x y : node) n1 n2 : (n1 < 64)%nat -> (n2 < 64)%nat -> n1 <> n2 ->
  length (flat_children collect_leaves (<[n2 := Some y]> (<[n1 := Some x]> (replicate BRANCH_NODES None)))) =
  (length (collect_leaves x) + length (collect_leaves y))%nat.
Proof.
  intros H1 H2 Hne. rewrite flat_children_insert, flat_children_insert, flat_children_none.
  - cbn. lia.
  - by apply lookup_replicate_2.
  - rewrite list_lookup_insert_ne by done. by apply lookup_replicate_2.
Qed.

Lemma child_leaf_count_spec c : counted c -> child_leaf_count (Some c) = Z.of_nat (length (collect_leaves c)).
Proof. by destruct 1. Qed.

Lemma sum_leaf_count_acc cs a : (forall i c, cs !! i = Some (Some c) -> counted c) ->
  foldl (fun a c => wrap_u64 (a + child_leaf_count c)) (wrap_u64 a) cs =
  wrap_u64 (a + Z.of_nat (length (flat_children collect_leaves cs))).
Proof.
  revert a. induction cs as [|c cs IH]; intros a Hc; [cbn; by rewrite Z.add_0_r|].
  cbn [foldl]. assert (forall i c', cs !! i = Some (Some c') -> counted c') as Hcs by (intros i; apply (Hc (S i))).
  assert (wrap_u64 (wrap_u64 a + child_leaf_count c) = wrap_u64 (a + child_leaf_count c)) as ->
    by (unfold wrap_u64; apply Zplus_mod_idemp_l).
  rewrite (IH _ Hcs). f_equal. destruct c as [c|].
  - rewrite child_leaf_count_spec by exact (Hc 0%nat c eq_refl). cbn [flat_children]. rewrite length_app. lia.
  - cbn [flat_children child_leaf_count]. lia.
Qed.

Lemma refresh_counted b : (forall i c, br_children b !! i = Some (Some c) -> counted c) ->
  is_u64 (Z.of_nat (length (collect_leaves (Branch b)))) -> counted (Branch (refresh_counters b)).
Proof.
  intros Hc Hlen. constructor; [|done]. cbn [refresh_counters with_counters br_leaf_count br_children].
  unfold sum_leaf_count. change 0 with (wrap_u64 0) at 1. rewrite sum_leaf_count_acc by done. by apply wrap_u64_id.
Qed.

Lemma split_leaf_counted p e nl : wf_node p (Leaf e) -> K (leaf_key nl) -> leaf_key e <> leaf_key nl ->
  p `prefix_of` path (leaf_key nl) -> counted (split_leaf e (leaf_key nl) nl (6 * length p)).
Proof.
  intros Hwf HKk Hne Hp. inversion Hwf as [? ? HKe Hpe|]; subst. unfold split_leaf.
  destruct (keys_diverge K p _ _ HKe HKk Hne Hpe Hp) as (c & n1 & n2 & -> & Hn & Hp1 & Hp2).
  destruct (prefix_snoc_nibble _ _ _ _ Hp1) as (-> & Hr1 & Hc).
  destruct (prefix_snoc_nibble _ _ _ _ Hp2) as (-> & Hr2 & _).
  rewrite !set_child_if_nonneg by lia. constructor.
  - cbn [br_leaf_count with_counters with_children_commitment collect_leaves br_children].
    cbn [BranchNode_new br_children]. rewrite pair_leaves_length by lia. done.
  - cbn [br_children with_counters with_children_commitment BranchNode_new]. intros i c'.
    rewrite (proj2 (proj2 (pair_children (Leaf e) (Leaf nl) (Z.to_nat n1) (Z.to_nat n2)
      ltac:(lia) ltac:(lia) ltac:(lia))) i c'). intros [[_ ->]|[_ ->]]; constructor.
Qed.

Lemma split_branch_counted p b i n x nl n' : wf_node p (Branch b) -> counted (Branch b) ->
  K (leaf_key nl) -> p `prefix_of` path (leaf_key nl) ->
  walk_prefix (leaf_key nl) (br_prefix b) 0 (6 * length p) = Diverged i n x ->
  split_branch b i n x nl = Ok n' -> Z.of_nat (length (collect_leaves n')) <= u64_max -> counted n'.
Proof.
  intros Hwf Hcnt HKk Hp Hw.
  destruct (split_branch_shape K p b i n x nl Hwf HKk Hp Hw) as (pre & post & _ & Hx & Hn & Hxn & _ & ->).
  inversion Hcnt as [|? Hlc Hcc]; subst. intros [= <-]. cbn [collect_leaves br_children].
  rewrite pair_leaves_length by lia. cbn [collect_leaves length with_prefix_commitment br_children]. intros Hmax.
  constructor; cbn [br_leaf_count br_children collect_leaves].
  - rewrite pair_leaves_length by lia. cbn [collect_leaves length with_prefix_commitment br_children].
    rewrite Hlc. cbn [collect_leaves]. unfold saturating_add_u64. lia.
  - intros j c. rewrite (proj2 (proj2 (pair_children _ (Leaf nl) (Z.to_nat x) (Z.to_nat n)
      ltac:(lia) ltac:(lia) ltac:(lia))) j c). intros [[_ ->]|[_ ->]]; constructor; done.
Qed.

Lemma insert_counted nl n : K (leaf_key nl) -> forall p n', wf_node p n -> counted n ->
  p `prefix_of` path (leaf_key nl) -> insert_node n (leaf_key nl) nl (6 * length p) = Ok n' ->
  Z.of_nat (length (collect_leaves n')) <= u64_max -> counted n'.
Proof.
  intros HKk. induction n as [e|b IH] using node_ind; intros p n' Hwf Hcnt Hp; cbn [insert_node].
  { destruct (decide (leaf_key e = leaf_key nl)); intros [= <-] _; [constructor|].
    by apply split_leaf_counted. }
  destruct (walk_prefix (leaf_key nl) (br_prefix b) 0 (6 * length p)) as [d|i n x] eqn:Hw;
    [|intros Hs Hmax; by eapply split_branch_counted].
  destruct (off_route K _ _ _ _ Hwf Hp Hw) as [Hneg|(i & Hi & Hi64 & Hdepth & Hpi)].
  { destruct (Z.ltb_spec (get_next_nibble (leaf_key nl) d) 0); [done|lia]. }
  rewrite Hi. destruct (Z.ltb_spec (Z.of_nat i) 0); [lia|]. rewrite Nat2Z.id, at_child_spec, Hdepth.
  inversion Hwf as [|? ? Hlen HF Htwo Hch]; inversion Hcnt as [|? Hlc Hcc]; subst.
  intros (c' & Hc' & [= <-])%bind_inv Hmax.
  assert (<[i := Some c']> (br_children b) !! i = Some (Some c')) as Hic
    by (apply list_lookup_insert_eq; lia).
  pose proof (flat_children_length_ge collect_leaves _ _ _ Hic) as Hge.
  cbn [collect_leaves refresh_counters with_counters with_children_commitment br_children] in Hmax.
  apply refresh_counted; cbn [br_children with_children_commitment collect_leaves];
    [|split; [lia|unfold u64_max in *; lia]].
  intros j c. destruct (decide (j = i)) as [->|Hji]; [|rewrite list_lookup_insert_ne by done; apply Hcc].
  rewrite Hic. intros [= <-].
  destruct (br_children b !! i) as [[c|]|] eqn:Hc; [|injection Hc' as <-; constructor..].
  eapply (IH c); [by eapply list_elem_of_lookup_2|by apply Hch|by eapply Hcc|done|done|lia].
Qed.

(** Fewer leaves, by inclusion: keys are distinct. *)
Lemma wf_leaves_le p n L : wf_node p n -> (forall l, l ∈ collect_leaves n -> l ∈ L) ->
  (length (collect_leaves n) <= length L)%nat.
Proof.
  intros Hwf Hl. apply submseteq_length, NoDup_submseteq; [|done].
  by eapply NoDup_fmap_1, wf_NoDup_keys.
Qed.

Lemma collapse_counted b n' : (forall i c, br_children b !! i = Some (Some c) -> counted c) ->
  collapse b = Some n' -> Z.of_nat (length (collect_leaves n')) <= u64_max -> counted n'.
Proof.
  intros Hc. unfold collapse. destruct (remaining (br_children b)) as [|[i c] [|x r]] eqn:Hr; [done| |].
  - intros [= <-] _. destruct (remaining_one _ _ _ Hr) as [Hi _]. specialize (Hc _ _ Hi).
    destruct c as [l|cb]; [constructor|]. inversion Hc; subst. by constructor.
  - intros [= <-] Hmax. apply refresh_counted; [done|]. split; [lia|unfold u64_max in *; cbn in *; lia].
Qed.

Lemma delete_counted k n : forall p f n', wf_node p n -> counted n ->
  Z.of_nat (length (collect_leaves n)) <= u64_max -> p `prefix_of` path k ->
  delete_node n k (6 * length p) = (f, Some n') -> counted n'.
Proof.
  induction n as [e|b IH] using node_ind; intros p f n' Hwf Hcnt Hmax Hp Hdel;
    pose proof (delete_node_spec K k _ p Hwf Hp) as Hspec; unfold deletes in Hspec; rewrite Hdel in Hspec;
    (destruct f; [|destruct Hspec as [[= ->] _]; done]).
  { revert Hdel. cbn. by destruct (decide (leaf_key e = k)). }
  destruct Hspec as (_ & Hwf' & Hl'). cbn in Hl'.
  pose proof (wf_leaves_le p n' (collect_leaves (Branch b)) (Hwf' _ eq_refl) ltac:(intros l; by rewrite Hl'; intros [? _])) as Hle.
  revert Hdel. cbn [delete_node].
  destruct (walk_prefix k (br_prefix b) 0 (6 * length p)) as [d|i n x] eqn:Hw; [|by intros [=]].
  destruct (off_route K _ _ _ _ Hwf Hp Hw) as [Hneg|(i & Hi & Hi64 & Hdepth & Hpi)].
  { destruct (Z.ltb_spec (get_next_nibble k d) 0); [by intros [=]|lia]. }
  rewrite Hi. destruct (Z.ltb_spec (Z.of_nat i) 0); [lia|]. rewrite Nat2Z.id, at_child_spec, Hdepth.
  inversion Hwf as [|? ? Hlen HF Htwo Hch]; inversion Hcnt as [|? Hlc Hcc]; subst.
  destruct (br_children b !! i) as [[c|]|] eqn:Hc; [|by intros [=]..].
  destruct (delete_node c k _) as [[|] nc] eqn:Hdc; cbn [negb]; [|by intros [=]]. intros [= Hcol].
  eapply collapse_counted; [|exact Hcol|lia]. intros j cj. cbn.
  destruct (decide (j = i)) as [->|Hji]; [|rewrite list_lookup_insert_ne by done; apply Hcc].
  rewrite list_lookup_insert_eq by lia. intros [= ->].
  pose proof (flat_children_length_ge collect_leaves _ _ _ Hc) as Hge. cbn [collect_leaves] in Hmax.
  eapply (IH c); [by eapply list_elem_of_lookup_2|by apply Hch|by eapply Hcc|lia|done|done].
Qed.

(** ** Histories of operations *)

Inductive trie_op :=
| OpInsert (k : key) (v h : list byte) (sz : Z)
| OpDelete (k : key).

Definition apply_op (t : VectorCommitmentTree) (o : trie_op) : VectorCommitmentTree :=
  match o with
  | OpInsert k v h sz => (tree_insert t k v h sz).1
  | OpDelete k => (tree_delete t k).1
  end.
Definition run_ops (ops : list trie_op) : VectorCommitmentTree := foldl apply_op tree_new ops.

(** What a history means: the finite map it leaves. *)
Definition spec_op (m : gmap key LeafNode) (o : trie_op) : gmap key LeafNode :=
  match o with
  | OpInsert k v h sz => <[k := new_leaf k v h sz]> m
  | OpDelete k => delete k m
  end.
Definition spec_ops (ops : list trie_op) : gmap key LeafNode := foldl spec_op ∅ ops.

Definition op_ok (o : trie_op) : Prop :=
  match o with OpInsert k _ _ _ => K k | OpDelete k => k <> [] end.

Definition tree_counted (t : VectorCommitmentTree) : Prop :=
  match root t with None => True | Some n => counted n end.

Lemma rep_op t m o : trie_rep t m -> op_ok o -> trie_rep (apply_op t o) (spec_op m o).
Proof.
  intros Hr Ho. destruct o as [k v h sz|k]; cbn [apply_op spec_op].
  - destruct (rep_insert t m k v h sz Hr Ho) as (t' & -> & Hr'). done.
  - pose proof (rep_delete t m k Hr Ho) as Hd. destruct (m !! k) eqn:E.
    + by destruct Hd as (t' & -> & Hr').
    + rewrite Hd, delete_id by done. done.
Qed.

Lemma run_ops_rep_from t m ops : trie_rep t m -> Forall op_ok ops ->
  trie_rep (foldl apply_op t ops) (foldl spec_op m ops).
Proof.
  intros Hr Hok. revert t m Hr. induction Hok as [|o ops Ho Hok IH]; intros t m Hr; [done|].
  cbn [foldl]. by apply IH, rep_op.
Qed.

Lemma run_ops_rep ops : Forall op_ok ops -> trie_rep (run_ops ops) (spec_ops ops).
Proof. apply run_ops_rep_from, trie_rep_new. Qed.

Lemma rep_size t m : trie_rep t m -> length (leaf_nodes t) = size m.
Proof.
  intros Hr. pose proof (rep_leaves t m Hr) as HP%Permutation_length. rewrite length_fmap in HP.
  rewrite <- (length_map_to_list m), <- HP. unfold tree_leaves, leaf_nodes.
  destruct (root t); cbn; by rewrite ?length_fmap.
Qed.

Lemma spec_op_size m o : (size (spec_op m o) <= S (size m))%nat.
Proof.
  destruct o as [k v h sz|k]; cbn [spec_op].
  - rewrite map_size_insert. destruct (m !! k); unfold id; lia.
  - rewrite map_size_delete. destruct (m !! k); unfold id; lia.
Qed.

Lemma counted_op t m o : trie_rep t m -> tree_counted t -> op_ok o ->
  Z.of_nat (size m) < u64_max -> tree_counted (apply_op t o).
Proof.
  intros Hr Hc Ho Hsz. pose proof (rep_size _ _ Hr) as Hlen.
  pose proof (rep_size _ _ (rep_op t m o Hr Ho)) as Hlen'. pose proof (spec_op_size m o). destruct Hr as [Hwf _].
  destruct o as [k v h sz|k]; cbn [apply_op spec_op] in *.
  - unfold tree_insert in *. destruct t as [[n|]]; cbn [root insert_recursive] in *; [|constructor].
    destruct (insert_node n k (new_leaf k v h sz) 0) as [n'| |] eqn:E; cbn in *; [|done..].
    eapply (insert_counted (new_leaf k v h sz) n Ho []); [done|done|apply prefix_nil|done|].
    unfold leaf_nodes in Hlen'. cbn in Hlen'. lia.
  - unfold tree_delete in *. rewrite decide_False in * by done.
    destruct t as [[n|]]; cbn [root delete_recursive] in *; [|done].
    destruct (delete_node n k 0) as [f [n'|]] eqn:E; cbn in *; [|done].
    eapply (delete_counted k n []); [done|done| |apply prefix_nil|done].
    unfold leaf_nodes in Hlen. cbn in Hlen. lia.
Qed.

Lemma counted_ops_from t m ops : trie_rep t m -> tree_counted t -> Forall op_ok ops ->
  Z.of_nat (size m) + Z.of_nat (length ops) <= u64_max -> tree_counted (foldl apply_op t ops).
Proof.
  intros Hr Hc Hok. revert t m Hr Hc. induction Hok as [|o ops Ho Hok IH]; intros t m Hr Hc Hsz; [done|].
  cbn [foldl length] in *. pose proof (spec_op_size m o).
  apply (IH _ (spec_op m o)); [by apply rep_op|eapply counted_op; [done..|lia]|lia].
Qed.

End Map.

(** ** A concrete instance *)

(** A stand-in for the hash functions with digests of the right length. *)
Definition pad_digest (n : nat) (m : list byte) : list byte := take n (m ++ replicate n x00).
Definition sample_sha2 : Sha2 := {| Sha512 := pad_digest 64; Sha256 := pad_digest 32 |}.

Lemma pad_digest_length n m : length (pad_digest n m) = n.
Proof. unfold pad_digest. rewrite length_take, length_app, length_replicate. lia. Qed.

Lemma sample_sha2_laws : @Sha2Laws sample_sha2.
Proof. split; intros m; apply pad_digest_length. Qed.

(** Two-byte keys, and a history that splits a leaf, splits a branch, and
    deletes. *)
Definition sample_key (k : key) : Prop := length k = 2%nat.
#[export] Instance sample_key_prefix_free : PrefixFree sample_key := same_length_prefix_free 2.
Definition sample_ops : list trie_op :=
  [OpInsert [x01; x02] [x0a] [] 1; OpInsert [x01; x03] [x0b] [] 2; OpInsert [xf1; x03] [x0c] [x0d] 3;
   OpInsert [x01; x02] [x0e] [] 1; OpDelete [x01; x03]].

Lemma sample_ops_ok : Forall (op_ok sample_key) sample_ops.
Proof. by repeat constructor. Qed.

(** ** What the trie promises *)

(** C2. Inserting a key of the key set always succeeds (no error, no panic),
    and the tree then represents the old map updated at the key with the new
    leaf: every other binding is kept and the tree stays well formed. *)
Theorem trie_insert_refines `{Sha2} (K : key -> Prop) `{!PrefixFree K} t m k v h sz :
  trie_rep K t m -> K k ->
  exists t', tree_insert t k v h sz = (t', Ok ()) /\ trie_rep K t' (<[k := new_leaf k v h sz]> m).
Proof. by apply (rep_insert K). Qed.

Lemma trie_insert_refines_witness :
  exists t', @tree_insert sample_sha2 (@run_ops sample_sha2 sample_ops) [x01; x04] [x07] [] 9 = (t', Ok ()) /\
    trie_rep sample_key t' (<[[x01; x04] := @new_leaf sample_sha2 [x01; x04] [x07] [] 9]>
      (@spec_ops sample_sha2 sample_ops)).
Proof.
  apply (@trie_insert_refines sample_sha2 sample_key _ _ _ [x01; x04] [x07] [] 9);
    [|reflexivity]. apply run_ops_rep; [apply _|apply sample_ops_ok].
Defined.

(** C4. Lookup by walking the prefix-compressed path returns exactly the value
    the represented map has for the key, for every key, of the key set or not. *)
Theorem trie_get_refines (K : key -> Prop) `{!PrefixFree K} t m k :
  trie_rep K t m -> tree_get t k = leaf_value <$> m !! k.
Proof. by apply (rep_get K). Qed.

Lemma trie_get_refines_witness :
  tree_get (@run_ops sample_sha2 sample_ops) [x01; x02] = Some [x0e] /\
  tree_get (@run_ops sample_sha2 sample_ops) [x01] = None.
Proof.
  split; (rewrite (trie_get_refines sample_key _ (@spec_ops sample_sha2 sample_ops));
    [vm_compute; reflexivity|apply run_ops_rep; [apply _|apply sample_ops_ok]]).
Defined.

(** C3. Deletion removes exactly the binding of the key and keeps the tree
    well formed (single children are merged upwards); a key that is not stored
    is reported as [NotFound] and leaves the tree unchanged, and the empty key
    is rejected. *)
Theorem trie_delete_refines (K : key -> Prop) `{!PrefixFree K} t m k : trie_rep K t m ->
  if decide (k = []) then tree_delete t k = (t, Err InvalidArgument)
  else match m !! k with
       | Some _ => exists t', tree_delete t k = (t', Ok ()) /\ trie_rep K t' (delete k m)
       | None => tree_delete t k = (t, Err NotFound)
       end.
Proof.
  intros Hr. destruct (decide (k = [])) as [->|Hk]; [done|]. by apply (rep_delete K).
Qed.

Lemma trie_delete_refines_witness :
  exists t', tree_delete (@run_ops sample_sha2 sample_ops) [xf1; x03] = (t', Ok ()) /\
    trie_rep sample_key t' (delete [xf1; x03] (@spec_ops sample_sha2 sample_ops)).
Proof.
  exact (@trie_delete_refines sample_key _ _ (@spec_ops sample_sha2 sample_ops) [xf1; x03]
    (@run_ops_rep sample_sha2 sample_key _ sample_ops sample_ops_ok)).
Defined.

(** [leaves] enumerates the represented map: every binding once, with its
    value, and nothing else. *)
Theorem trie_leaves_refines (K : key -> Prop) `{!PrefixFree K} t m : trie_rep K t m ->
  Permutation (tree_leaves t) ((fun kl => (kl.1, leaf_value kl.2)) <$> map_to_list m).
Proof. by apply (rep_leaves K). Qed.

Lemma trie_leaves_refines_witness :
  Permutation (tree_leaves (@run_ops sample_sha2 sample_ops))
    ((fun kl => (kl.1, leaf_value kl.2)) <$> map_to_list (@spec_ops sample_sha2 sample_ops)).
Proof.
  apply (trie_leaves_refines sample_key). apply run_ops_rep; [apply _|apply sample_ops_ok].
Defined.

(** After any history of fewer than 2^64 insertions and deletions the
    [leaf_count] of every branch of the tree is the number of leaves below it:
    neither the splits, nor the recomputation after a child changed, nor the
    merges miscount, and no addition wraps or saturates. *)
Theorem trie_leaf_counts `{Sha2} (K : key -> Prop) `{!PrefixFree K} ops :
  Forall (op_ok K) ops -> Z.of_nat (length ops) <= u64_max -> tree_counted (run_ops ops).
Proof.
  intros Hok Hlen. eapply (counted_ops_from K); [apply trie_rep_new|done|done|].
  by rewrite map_size_empty.
Qed.

Lemma trie_leaf_counts_witness : tree_counted (@run_ops sample_sha2 sample_ops).
Proof. apply (trie_leaf_counts sample_key); [apply sample_ops_ok|vm_compute; discriminate]. Defined.

(** The exhaustive scan [find_leaf_value] over the root agrees with the
    path-directed [get] on every well-formed tree and every key. *)
Theorem trie_scan_is_get (K : key -> Prop) `{!PrefixFree K} t r k :
  wf_tree K t -> root t = Some r -> find_leaf_value r k = tree_get t k.
Proof. by apply (find_leaf_value_get K). Qed.

Lemma trie_scan_is_get_witness :
  let t := @run_ops sample_sha2 sample_ops in
  find_leaf_value (default (Leaf (mkLeaf [] [] [] [] 0)) (root t)) [xf1; x03] = tree_get t [xf1; x03].
Proof.
  intros t. apply (trie_scan_is_get sample_key t); [|vm_compute; reflexivity].
  apply (@run_ops_rep sample_sha2 sample_key _ sample_ops), sample_ops_ok.
Defined.

(** Outside a prefix-free key set insertion loses data: after inserting
    a one-byte key and then the same byte followed by zero, both calls have
    returned [Ok] but the first key is gone, and the root still counts two
    leaves. *)
Theorem trie_nested_keys_drop_leaf `{Sha2} (v w : list byte) :
  let t1 := tree_insert tree_new [xab] v [] 1 in
  let t2 := tree_insert t1.1 [xab; x00] w [] 1 in
  t1.2 = Ok () /\ t2.2 = Ok () /\ tree_get t1.1 [xab] = Some v /\ tree_get t2.1 [xab] = None /\
  option_map (fun n => (length (collect_leaves n), child_leaf_count (Some n))) (root t2.1) = Some (1%nat, 2).
Proof. by vm_compute. Qed.

(** A rejected insertion empties the tree: [insert] takes the root before
    the recursion, so when a key ends inside the tree ([InvalidArgument]) every
    stored entry is lost. *)
Theorem trie_insert_error_empties `{Sha2} (v w : list byte) :
  let t := run_ops [OpInsert [x01; x02] v [] 1; OpInsert [x01; x03] w [] 1] in
  tree_get t [x01; x02] = Some v /\
  tree_insert t [x01] v [] 1 = (tree_new, Err InvalidArgument).
Proof. by vm_compute. Qed.
