(* ===== verification/TrieCommit.v ===== *)
(** * Commitments and traversal proofs of the trie
      ([src/crates/quil-tries/src/node.rs], [tree.rs])

    The inclusion prover (KZG over BLS48-581, or SHA-256) is the class
    [InclusionProver], as in the [InclusionProver] trait of
    [quil-types/src/crypto.rs].  [commit_node] is the budgeted, partly parallel
    commit of [tree.rs]; it is proved equal to the serial reference
    [commit_serial], and the committed root is proved to be a function of the
    stored map alone. *)

From S2P Require Import Prelude Bytes Nibble Trie TrieSpec TrieMap.

(** ** The prover interface *)

Record Multiproof := mkMultiproof {
  mp_commitment : list byte;
  mp_proof : list byte;
  mp_evaluations : list (list byte);
}.

Class InclusionProver := {
  commit_parallel_threshold : Z;
  commit_parallel_budget : Z;
  commit_raw : list byte -> Z -> result (list byte);
  prove_multiple_raw : list (list byte) -> list (list byte) -> list Z -> Z -> result Multiproof;
  verify_multiple : list (list byte) -> list (list byte) -> list Z -> Z -> list byte -> list byte -> bool;
}.

(** ** Node commitments *)

(** [resize(64, 0)]; also what copying at most 64 bytes into a zeroed block leaves. *)
Definition fit64 (c : list byte) : list byte := take 64 (c ++ replicate 64 x00).

Definition prefix_bytes (p : list Z) : list byte := concat ((fun x => be_bytes 4 (wrap_u32 x)) <$> p).

Section Commit.
Context `{Sha2} `{InclusionProver}.

(** The 64-byte entry of a child slot. *)
Definition branch_entry (prefix : list Z) (cm : list byte) : list byte :=
  Sha512 (x01 :: prefix_bytes prefix ++ cm).
Definition child_commitment (c : option node) : list byte :=
  match c with
  | None => replicate 64 x00
  | Some (Leaf l) => fit64 (leaf_commitment l)
  | Some (Branch b) => branch_entry (br_prefix b) (br_commitment b)
  end.

Definition get_polynomial (b : branch) : list byte :=
  concat ((fun c => take 64 (child_commitment c)) <$> br_children b).

(** The vector [BranchNode::commit] assembles itself. *)
Definition commit_data (b : branch) : list byte :=
  concat ((fun c => fit64 (child_commitment c)) <$> br_children b).

Definition raw_or_zero (d : list byte) : list byte :=
  match commit_raw d 64 with Ok c => c | _ => replicate 64 x00 end.

Definition branch_commit (b : branch) (recalculate : bool) : branch :=
  if negb recalculate && negb (bool_decide (br_commitment b = [])) then b
  else with_prefix_commitment b (br_prefix b) (raw_or_zero (commit_data b)).

Definition leaf_commit (l : LeafNode) (recalculate : bool) : LeafNode :=
  if recalculate || bool_decide (leaf_commitment l = []) then compute_commitment l else l.

Definition with_children_size (b : branch) (cs : list (option node)) (sz : Z) : branch :=
  mkBranch (br_prefix b) cs (br_commitment b) sz (br_leaf_count b) (br_longest_branch b)
    (br_full_prefix b) (br_fully_loaded b).

Definition aggregate_size (cs : list (option node)) : Z :=
  foldl (fun a c => match c with Some n => a + node_size n | None => a end) 0 cs.

(** [commit_node]; [threads] is [rayon::current_num_threads()].  The parallel
    [for_each] visits each child once, and the children are disjoint. *)
Fixpoint commit_node (threads : Z) (n : node) (recalculate : bool) (parallel_budget : Z) : node :=
  match n with
  | Leaf l => Leaf (leaf_commit l recalculate)
  | Branch b =>
      let split := (1 <? parallel_budget) && (commit_parallel_threshold <=? br_leaf_count b)
                   && (2 <=? Z.of_nat (child_count b)) && (1 <? threads) in
      let child_budget :=
        if split then Z.max (parallel_budget / Z.of_nat (child_count b)) 1 else 1 in
      let cs := option_map (fun c => commit_node threads c recalculate child_budget) <$> br_children b in
      Branch (branch_commit (with_children_size b cs (aggregate_size cs)) recalculate)
  end.

Definition tree_commit (threads : Z) (t : VectorCommitmentTree) : VectorCommitmentTree * list byte :=
  match root t with
  | None => (t, replicate 64 x00)
  | Some n =>
      let n' := commit_node threads n true commit_parallel_budget in
      (mkTree (Some n'), node_commitment n')
  end.

(** ** Traversal proofs *)

Record ProofWalk := mkWalk {
  w_polys : list (list byte);
  w_commits : list (list byte);
  w_ys : list (list byte);
  w_paths : list (list Z);
}.

Definition poly_slice (poly : list byte) (idx : nat) : list byte :=
  if (idx * 64 + 64 <=? length poly)%nat then take 64 (drop (idx * 64) poly) else replicate 64 x00.

Definition leaf_target (l : LeafNode) : list byte :=
  if decide (leaf_hash_target l = []) then leaf_value l else leaf_hash_target l.

Fixpoint prove_recursive (n : node) (k : key) (depth : nat) : option ProofWalk :=
  match n with
  | Leaf l =>
      if decide (leaf_key l = k) then Some (mkWalk [] [leaf_commitment l] [leaf_target l] []) else None
  | Branch b =>
      match walk_prefix k (br_prefix b) 0 depth with
      | Diverged _ _ _ => None
      | Matched d =>
          let final_nibble := get_next_nibble k d in
          if final_nibble <? 0 then None
          else
            let idx := Z.to_nat final_nibble in
            let poly := get_polynomial b in
            w ← at_child (fun c => prove_recursive c k (d + BRANCH_BITS)) None (br_children b) idx;
            Some (mkWalk (poly :: w_polys w) (br_commitment b :: w_commits w)
              (poly_slice poly idx :: w_ys w) ((br_prefix b ++ [final_nibble]) :: w_paths w))
      end
  end.

Record TraversalSubProof := mkSubProof {
  sp_commits : list (list byte);
  sp_ys : list (list byte);
  sp_paths : list (list Z);
}.

Record MultiKeyTraversalProof := mkMultiKeyProof {
  mk_multiproof : Multiproof;
  mk_sub_proofs : list TraversalSubProof;
}.

(** [i as u64] of an [i32]. *)
Definition path_indices (paths : list (list Z)) : list (list Z) := (fun p : list Z => wrap_u64 <$> p) <$> paths.
(** [*p.last().unwrap_or(&0) as u64] *)
Definition last_indices (paths : list (list Z)) : list Z := (fun p => wrap_u64 (default 0 (last p))) <$> paths.

Definition sub_proof (w : ProofWalk) : TraversalSubProof :=
  mkSubProof (w_commits w) (w_ys w) (path_indices (w_paths w)).

(** All but the last element of a non-empty list: [xs[..xs.len() - 1]]. *)
Definition init {A} (xs : list A) : list A := take (length xs - 1) xs.

Record TraversalProof := mkTraversalProof {
  tp_multiproof : Multiproof;
  tp_ys : list (list byte);
  tp_commits : list (list byte);
  tp_paths : list (list Z);
}.

Definition prove (t : VectorCommitmentTree) (k : key) : option TraversalProof :=
  if decide (k = []) then None
  else
    r ← root t;
    w ← prove_recursive r k 0;
    if decide (w_commits w = []) then None
    else
      match prove_multiple_raw (init (w_commits w)) (w_polys w) (last_indices (w_paths w)) 64 with
      | Ok mp => Some (mkTraversalProof mp (w_ys w) (w_commits w) (path_indices (w_paths w)))
      | _ => None
      end.

(** The walks of the keys that are found, in order. *)
Definition walks (r : node) (keys : list key) : list ProofWalk :=
  omap (fun k =>
    if decide (k = []) then None
    else w ← prove_recursive r k 0; if decide (w_commits w = []) then None else Some w) keys.

Definition prove_multiple (t : VectorCommitmentTree) (keys : list key) : option MultiKeyTraversalProof :=
  r ← root t;
  let ws := walks r keys in
  let agg_commits := concat ((fun w => init (w_commits w)) <$> ws) in
  let agg_polys := concat (w_polys <$> ws) in
  let agg_indices := concat ((fun w => last_indices (w_paths w)) <$> ws) in
  if decide (agg_commits = []) then None
  else
    match prove_multiple_raw agg_commits agg_polys agg_indices 64 with
    | Ok mp => Some (mkMultiKeyProof mp (sub_proof <$> ws))
    | _ => None
    end.

(** ** Scheduling does not matter *)

(** The reference: visit the children in order, then commit the branch. *)
Fixpoint commit_serial (n : node) (recalculate : bool) : node :=
  match n with
  | Leaf l => Leaf (leaf_commit l recalculate)
  | Branch b =>
      let cs := option_map (fun c => commit_serial c recalculate) <$> br_children b in
      Branch (branch_commit (with_children_size b cs (aggregate_size cs)) recalculate)
  end.

Lemma map_children_ext (f g : node -> node) (cs : list (option node)) : (forall c, Some c ∈ cs -> f c = g c) ->
  option_map f <$> cs = option_map g <$> cs.
Proof.
  intros Hfg. apply list_fmap_ext. intros i o Ho. destruct o as [c|]; [|done].
  cbn. f_equal. apply Hfg. by eapply list_elem_of_lookup_2.
Qed.

Lemma commit_node_is_serial threads n r : forall budget, commit_node threads n r budget = commit_serial n r.
Proof.
  induction n as [l|b IH] using node_ind; intros budget; [done|]. cbn [commit_node commit_serial].
  rewrite (map_children_ext _ (fun c => commit_serial c r)); [done|].
  intros c Hc. by apply IH.
Qed.

(** ** The commitment is a function of the shape and the leaves *)

Lemma map_children_lookup (f : node -> node) (cs : list (option node)) i :
  (option_map f <$> cs) !! i = option_map f <$> cs !! i.
Proof. apply list_lookup_fmap. Qed.

Lemma equiv_children (g : option node -> list byte) (f : node -> node) cs1 cs2 :
  length cs1 = length cs2 -> (forall i, is_Some (slot cs1 i) <-> is_Some (slot cs2 i)) ->
  (forall i c1 c2, slot cs1 i = Some c1 -> slot cs2 i = Some c2 -> g (Some (f c1)) = g (Some (f c2))) ->
  g <$> (option_map f <$> cs1) = g <$> (option_map f <$> cs2).
Proof.
  intros Hlen Hs Hc. apply list_eq. intros i. rewrite !list_lookup_fmap.
  specialize (Hs i). specialize (Hc i). unfold slot in *.
  destruct (cs1 !! i) as [[c1|]|] eqn:E1, (cs2 !! i) as [[c2|]|] eqn:E2; cbn in *; try done.
  - f_equal. by apply Hc.
  - exfalso. by apply (is_Some_None (A := node)), Hs.
  - exfalso. by apply (is_Some_None (A := node)), Hs.
  - exfalso. by apply (is_Some_None (A := node)), Hs.
  - apply lookup_ge_None in E2. apply lookup_lt_Some in E1. lia.
  - exfalso. by apply (is_Some_None (A := node)), Hs.
  - apply lookup_ge_None in E1. apply lookup_lt_Some in E2. lia.
Qed.

Lemma branch_commit_recalc b : branch_commit b true =
  with_prefix_commitment b (br_prefix b) (raw_or_zero (commit_data b)).
Proof. done. Qed.

Lemma commit_serial_equiv n1 n2 : n1 ≡ n2 ->
  node_commitment (commit_serial n1 true) = node_commitment (commit_serial n2 true) /\
  child_commitment (Some (commit_serial n1 true)) = child_commitment (Some (commit_serial n2 true)).
Proof.
  induction 1 as [l|b1 b2 Hp Hlen Hs Hc IH]; [done|].
  assert (commit_data (with_children_size b1 (option_map (fun c => commit_serial c true) <$> br_children b1)
      (aggregate_size (option_map (fun c => commit_serial c true) <$> br_children b1))) =
    commit_data (with_children_size b2 (option_map (fun c => commit_serial c true) <$> br_children b2)
      (aggregate_size (option_map (fun c => commit_serial c true) <$> br_children b2)))) as Hd.
  { unfold commit_data. cbn [br_children with_children_size]. f_equal.
    apply (equiv_children (fun c => fit64 (child_commitment c))); [done|done|].
    intros i c1 c2 H1 H2. by rewrite (proj2 (IH i c1 c2 H1 H2)). }
  cbn [commit_serial]. rewrite !branch_commit_recalc.
  cbn [node_commitment child_commitment br_commitment br_prefix with_prefix_commitment with_children_size].
  by rewrite Hd, Hp.
Qed.

(** ** Committing keeps the stored map *)

Lemma collect_leaves_commit n :
  collect_leaves (commit_serial n true) = compute_commitment <$> collect_leaves n.
Proof.
  induction n as [l|b IH] using node_ind; [done|]. cbn [commit_serial]. rewrite branch_commit_recalc.
  cbn [collect_leaves with_prefix_commitment with_children_size br_children].
  assert (forall cs, (forall c, Some c ∈ cs -> collect_leaves (commit_serial c true) = compute_commitment <$> collect_leaves c) ->
    flat_children collect_leaves (option_map (fun c => commit_serial c true) <$> cs) =
    compute_commitment <$> flat_children collect_leaves cs) as Hcs; [|by apply Hcs].
  intros cs. induction cs as [|[c|] cs IHcs]; intros Hcs; [done| |].
  - cbn [fmap list_fmap option_map flat_children]. rewrite (Hcs c) by left.
    rewrite fmap_app. f_equal. apply IHcs. intros c' Hc'. apply Hcs. by right.
  - cbn [fmap list_fmap option_map flat_children]. apply IHcs. intros c' Hc'. apply Hcs. by right.
Qed.

Lemma wf_commit K p n : wf_node K p n -> wf_node K p (commit_serial n true).
Proof.
  induction 1 as [p l HKl Hp|p b Hlen HF (i & j & ci & cj & Hij & Hi & Hj) Hch IH]; [by constructor|].
  cbn [commit_serial]. rewrite branch_commit_recalc.
  constructor; cbn [br_children br_prefix with_prefix_commitment with_children_size].
  - by rewrite length_fmap.
  - done.
  - exists i, j, (commit_serial ci true), (commit_serial cj true). by rewrite !map_children_lookup, Hi, Hj.
  - intros k c. rewrite map_children_lookup. intros (o & Ho & Hk)%fmap_Some.
    destruct o as [c'|]; [|done]. injection Hk as ->. by apply IH.
Qed.

Lemma tree_commit_serial threads t : (tree_commit threads t).1 = mkTree ((fun n => commit_serial n true) <$> root t).
Proof. destruct t as [[n|]]; [|done]. cbn. by rewrite commit_node_is_serial. Qed.

Lemma rep_commit K threads t m : trie_rep K t m ->
  trie_rep K (tree_commit threads t).1 (compute_commitment <$> m).
Proof.
  intros [Hwf Hm]. rewrite tree_commit_serial. split.
  { destruct t as [[n|]]; [|done]. by apply wf_commit. }
  assert (leaf_nodes (mkTree ((fun n => commit_serial n true) <$> root t)) = compute_commitment <$> leaf_nodes t) as ->.
  { destruct t as [[n|]]; [|done]. apply collect_leaves_commit. }
  intros k l. rewrite lookup_fmap, fmap_Some, list_elem_of_fmap. setoid_rewrite Hm. split.
  - intros (l' & [Hl <-] & ->). split; [by exists l'|done].
  - intros [(l' & -> & Hl) <-]. by exists l'.
Qed.

Lemma tree_commit_root threads t : (tree_commit threads t).2 =
  match root (tree_commit threads t).1 with Some n => node_commitment n | None => replicate 64 x00 end.
Proof. by destruct t as [[n|]]. Qed.

(** The committed root of a tree is a function of the map it represents. *)
Lemma rep_commit_root K `{!PrefixFree K} th1 th2 t1 t2 m : trie_rep K t1 m -> trie_rep K t2 m ->
  (tree_commit th1 t1).2 = (tree_commit th2 t2).2.
Proof.
  intros H1 H2. pose proof (rep_canonical K t1 t2 m H1 H2) as Heq. rewrite !tree_commit_root, !tree_commit_serial.
  destruct t1 as [[n1|]], t2 as [[n2|]]; cbn in *; try done. by apply commit_serial_equiv.
Qed.

(** The size of a committed tree is the sum of its leaves' sizes. *)
Lemma aggregate_size_acc cs a :
  foldl (fun a (c : option node) => match c with Some n => a + node_size n | None => a end) a cs =
  a + foldr Z.add 0 (flat_children (fun c => [node_size c]) cs).
Proof.
  revert a. induction cs as [|[c|] cs IH]; intros a; cbn [foldl flat_children foldr app];
    rewrite ?IH; lia.
Qed.

Lemma foldr_add_app xs ys : foldr Z.add 0 (xs ++ ys) = foldr Z.add 0 xs + foldr Z.add 0 ys.
Proof. induction xs; cbn; lia. Qed.

Lemma commit_size n : node_size (commit_serial n true) = foldr Z.add 0 (leaf_size <$> collect_leaves n).
Proof.
  induction n as [l|b IH] using node_ind; [cbn; lia|]. cbn [commit_serial]. rewrite branch_commit_recalc.
  cbn [node_size with_prefix_commitment with_children_size br_size collect_leaves].
  unfold aggregate_size. rewrite aggregate_size_acc, Z.add_0_l.
  revert IH. generalize (br_children b). intros cs IH. induction cs as [|[c|] cs IHcs]; [done| |].
  - cbn [fmap list_fmap option_map flat_children]. rewrite fmap_app, !foldr_add_app.
    rewrite <- (IH c) by left. rewrite IHcs; [cbn; lia|]. intros c' Hc'. apply IH. by right.
  - cbn [fmap list_fmap option_map flat_children]. apply IHcs. intros c' Hc'. apply IH. by right.
Qed.

(** ** Committed nodes *)

Inductive committed : node -> Prop :=
| committed_leaf l : compute_commitment l = l -> committed (Leaf l)
| committed_branch b :
    br_commitment b = raw_or_zero (commit_data b) ->
    (forall i c, br_children b !! i = Some (Some c) -> committed c) ->
    committed (Branch b).

Lemma commit_committed n : committed (commit_serial n true).
Proof.
  induction n as [l|b IH] using node_ind; [by constructor|]. cbn [commit_serial]. rewrite branch_commit_recalc.
  constructor; [done|]. intros i c. cbn [br_children with_prefix_commitment with_children_size].
  rewrite map_children_lookup. intros (o & Ho & Hk)%fmap_Some. destruct o as [c'|]; [|done].
  injection Hk as ->. apply IH. by eapply list_elem_of_lookup_2.
Qed.

End Commit.

Section Blocks.
Context `{Sha2} `{!Sha2Laws}.

Lemma fit64_length c : length (fit64 c) = 64%nat.
Proof. unfold fit64. rewrite length_take, length_app, length_replicate. lia. Qed.

Lemma fit64_id c : length c = 64%nat -> fit64 c = c.
Proof. intros Hc. unfold fit64. rewrite <- Hc at 1. by rewrite take_app_length. Qed.

Lemma child_commitment_length c : length (child_commitment c) = 64%nat.
Proof. destruct c as [[l|b]|]; [apply fit64_length|apply Sha512_length|apply length_replicate]. Qed.

(** The polynomial a proof opens is the vector that was committed. *)
Lemma get_polynomial_data b : get_polynomial b = commit_data b.
Proof.
  unfold get_polynomial, commit_data. f_equal. apply list_fmap_ext. intros i c _.
  rewrite fit64_id by apply child_commitment_length. apply take_ge. by rewrite child_commitment_length.
Qed.

Lemma concat_blocks_length {A} (bs : list (list A)) n : Forall (fun b => length b = n) bs ->
  length (concat bs) = (length bs * n)%nat.
Proof. induction 1 as [|b bs Hb _ IH]; [done|]. cbn [concat length]. rewrite length_app, IH. lia. Qed.

Lemma concat_blocks_slice {A} (bs : list (list A)) n i b : Forall (fun b => length b = n) bs ->
  bs !! i = Some b -> take n (drop (i * n) (concat bs)) = b.
Proof.
  intros HF. revert i. induction HF as [|b' bs Hb _ IH]; intros [|i] Hi; try done; cbn [concat].
  - injection Hi as <-. rewrite Nat.mul_0_l, drop_0, <- Hb. by rewrite take_app_length.
  - rewrite Nat.mul_succ_l, Nat.add_comm, <- drop_drop, drop_app_length' by done. by apply IH.
Qed.

Lemma poly_blocks b : Forall (fun c => length c = 64%nat) ((fun c => take 64 (child_commitment c)) <$> br_children b).
Proof.
  apply Forall_fmap, Forall_forall. intros c _. cbn. rewrite length_take, child_commitment_length. lia.
Qed.

Lemma get_polynomial_length b : length (br_children b) = BRANCH_NODES -> length (get_polynomial b) = 4096%nat.
Proof.
  intros Hlen. unfold get_polynomial. rewrite (concat_blocks_length _ 64) by apply poly_blocks.
  by rewrite length_fmap, Hlen.
Qed.

(** The value a proof opens at a child's index is that child's entry. *)
Lemma poly_slice_child b i c : length (br_children b) = BRANCH_NODES -> br_children b !! i = Some c ->
  poly_slice (get_polynomial b) i = take 64 (drop (i * 64) (get_polynomial b)) /\
  poly_slice (get_polynomial b) i = child_commitment c.
Proof.
  intros Hlen Hc. pose proof (lookup_lt_Some _ _ _ Hc) as Hi. rewrite Hlen in Hi. unfold BRANCH_NODES in Hi.
  unfold poly_slice. rewrite get_polynomial_length by done.
  destruct (Nat.leb_spec (i * 64 + 64) 4096); [|lia]. split; [done|].
  unfold get_polynomial. rewrite (concat_blocks_slice _ 64 i (take 64 (child_commitment c))); [|apply poly_blocks|].
  - apply take_ge. by rewrite child_commitment_length.
  - by rewrite list_lookup_fmap, Hc.
Qed.

End Blocks.

(** ** A concrete prover *)

(** Commitments are padded digests of the data; a multiproof is accepted when
    its three vectors have one length. *)
Definition sample_prover : InclusionProver := {|
  commit_parallel_threshold := 2;
  commit_parallel_budget := 8;
  commit_raw d _ := Ok (pad_digest 64 (x07 :: d));
  prove_multiple_raw commits polys idxs _ := Ok (mkMultiproof [x01] [x02] []);
  verify_multiple commits evals idxs _ _ _ :=
    ((length commits =? length evals) && (length evals =? length idxs))%nat;
|}.

(** Another way to the map of [sample_ops]: its two bindings, inserted last first. *)
Definition sample_ops_direct : list trie_op :=
  [OpInsert [xf1; x03] [x0c] [x0d] 3; OpInsert [x01; x02] [x0e] [] 1].

(** ** What commitments promise *)



(** The parallel, budgeted traversal of [commit_node] computes the same
    tree as visiting the children one after the other, whatever the number of
    threads, the threshold and the budget: scheduling never changes a
    commitment. *)
Theorem commit_scheduling_irrelevant `{Sha2} `{InclusionProver} threads n recalculate budget :
  commit_node threads n recalculate budget = commit_serial n recalculate.
Proof. apply commit_node_is_serial. Qed.

(** Committing changes no binding (it only refreshes leaf commitments), and
    afterwards the size of the root is the sum of the sizes of all leaves. *)
Theorem commit_keeps_map `{Sha2} `{InclusionProver} (K : key -> Prop) `{!PrefixFree K} threads t m :
  trie_rep K t m ->
  trie_rep K (tree_commit threads t).1 (compute_commitment <$> m) /\
  match root (tree_commit threads t).1 with
  | None => m = ∅
  | Some n => node_size n = foldr Z.add 0 (leaf_size <$> leaf_nodes t)
  end.
Proof.
  intros Hr. split; [by apply rep_commit|]. rewrite tree_commit_serial. destruct Hr as [Hwf Hm].
  destruct t as [[n|]]; cbn [root fmap option_fmap option_map]; [apply commit_size|].
  apply map_empty. intros k. destruct (m !! k) as [l|] eqn:E; [|done].
  apply Hm in E as [Hl _]. by apply not_elem_of_nil in Hl.
Qed.

Lemma commit_keeps_map_witness :
  let t := @run_ops sample_sha2 sample_ops in
  trie_rep sample_key (@tree_commit sample_sha2 sample_prover 4 t).1
    (@compute_commitment sample_sha2 <$> @spec_ops sample_sha2 sample_ops) /\
  match root (@tree_commit sample_sha2 sample_prover 4 t).1 with
  | None => @spec_ops sample_sha2 sample_ops = ∅
  | Some n => node_size n = foldr Z.add 0 (leaf_size <$> leaf_nodes t)
  end.
Proof.
  apply (@commit_keeps_map sample_sha2 sample_prover sample_key _ 4).
  apply run_ops_rep; [apply _|apply sample_ops_ok].
Defined.

(** The cached [longest_branch] is not a function of the stored map: two
    leaves under one branch give 0 when the leaf was split by insertion, and 1
    when the same two leaves are left by a deletion, while the committed roots
    are equal. *)
Theorem longest_branch_depends_on_history `{Sha2} `{InclusionProver} threads (v : list byte) :
  let ins k := OpInsert k v [] 1 in
  let direct := [ins [x01; x02]; ins [x41; x03]] in
  let via_delete := [ins [x01; x02]; ins [x41; x03]; ins [x81; x04]; OpDelete [x81; x04]] in
  child_longest_branch (root (run_ops direct)) = 0 /\
  child_longest_branch (root (run_ops via_delete)) = 1 /\
  (tree_commit threads (run_ops direct)).2 = (tree_commit threads (run_ops via_delete)).2.
Proof.
  intros ins direct via_delete. split; [by vm_compute|split; [by vm_compute|]].
  apply (rep_commit_root sample_key) with (m := spec_ops direct).
  - apply run_ops_rep; [apply _|by repeat constructor].
  - replace (spec_ops direct) with (spec_ops via_delete).
    + apply run_ops_rep; [apply _|by repeat constructor].
    + unfold via_delete, direct, spec_ops. cbn [foldl spec_op ins]. by rewrite delete_insert_id by by vm_compute.
Qed.
