(* ===== verification/TraversalProof.v ===== *)
(** * Verifying traversal proofs
      ([src/crates/quil-execution/src/traversal_proof.rs], and the wire format of
      [quil-tries/src/tree.rs])

    The verifier and parser of traversal proofs, against the generator of
    [TrieCommit]: what [prove_multiple] produces from a committed tree is
    accepted against the committed root, survives the wire format, and covers
    exactly the stored keys.  Two inputs the verifier should not accept or
    survive are exhibited. *)

From S2P Require Import Prelude Bytes Nibble Trie TrieSpec TrieMap TrieCommit.

(** ** The verifier *)

(** The decoded proof; its sub-proofs have the fields of [TraversalSubProof]. *)
Record DecodedProof := mkDecoded {
  dp_multicommitment : list byte;
  dp_proof : list byte;
  dp_sub_proofs : list TraversalSubProof;
}.

Section Verify.
Context `{Sha2} `{InclusionProver}.

(** [p[..p.len() - 1]]: an empty [p] underflows and panics. *)
Definition path_prefix (p : list Z) : result (list Z) :=
  match p with [] => Panic | _ => Ok (init p) end.

Fixpoint verify_path_chain (commits : list (list byte)) (paths : list (list Z)) (ys : list (list byte))
    : result bool :=
  match commits with
  | _ :: ((c1 :: rest) as tl) =>
      out ← match rest with
            | _ :: _ =>
                prefix ← match paths with _ :: p1 :: _ => path_prefix p1 | _ => Ok [] end;
                mret (Sha512 (x01 :: prefix_bytes prefix ++ c1))
            | [] => mret c1
            end;
      match ys, paths with
      | y0 :: ys', _ :: paths' =>
          if decide (out = y0) then verify_path_chain tl paths' ys' else Ok false
      | y0 :: _, [] => if decide (out = y0) then Panic else Ok false
      | [], _ => Panic
      end
  | _ => Ok true
  end.

Definition structural_check (sp : TraversalSubProof) : result unit :=
  if decide (sp_commits sp = []) then Err InvalidArgument
  else if negb (length (sp_paths sp) =? length (sp_commits sp) - 1)%nat then Err InvalidArgument
  else if negb (length (sp_ys sp) =? length (sp_commits sp))%nat then Err InvalidArgument
  else Ok ().

Definition root_check (rt : list byte) (sp : TraversalSubProof) : result unit :=
  match sp_commits sp with
  | [] => Panic
  | c0 :: _ => if decide (c0 = rt) then Ok () else Err InvalidArgument
  end.

(** A loop of checks that returns at the first failure. *)
Fixpoint check_all {A} (f : A -> result unit) (xs : list A) : result unit :=
  match xs with [] => Ok () | x :: xs' => f x ≫= fun _ => check_all f xs' end.

Record kzg_inputs := mkInputs {
  all_commits : list (list byte);
  all_indices : list Z;
  all_ys : list (list byte);
}.

(** The loop that collects the openings; [Ok None] is [return Ok(false)]. *)
Fixpoint collect_openings (acc : kzg_inputs) (sps : list TraversalSubProof) : result (option kzg_inputs) :=
  match sps with
  | [] => Ok (Some acc)
  | sp :: sps' =>
      if (length (sp_commits sp) <=? 1)%nat then collect_openings acc sps'
      else
        let acc' := mkInputs (all_commits acc ++ init (sp_commits sp))
                             (all_indices acc ++ omap last (sp_paths sp))
                             (all_ys acc ++ init (sp_ys sp)) in
        ok ← verify_path_chain (sp_commits sp) (sp_paths sp) (sp_ys sp);
        if (ok : bool) then collect_openings acc' sps' else Ok None
  end.

Definition verify_traversal_proof (rt : list byte) (p : DecodedProof) : result bool :=
  if decide (dp_multicommitment p = [] \/ dp_proof p = []) then Err InvalidArgument
  else
    check_all structural_check (dp_sub_proofs p) ≫= fun _ =>
    check_all (root_check rt) (dp_sub_proofs p) ≫= fun _ =>
    collected ← collect_openings (mkInputs [] [] []) (dp_sub_proofs p);
    match collected with
    | None => Ok false
    | Some a =>
        if (1 <? length (all_commits a))%nat
        then Ok (verify_multiple (all_commits a) (all_ys a) (all_indices a) 64
                   (dp_multicommitment p) (dp_proof p))
        else Ok true
    end.

End Verify.

(** ** The wire format *)

(** [put_u32] of a length, then the bytes. *)
Definition put_u32 (v : Z) : list byte := be_bytes 4 v.
Definition put_bytes (c : list byte) : list byte := put_u32 (Z.of_nat (length c)) ++ c.
Definition put_seq {A} (f : A -> list byte) (xs : list A) : list byte :=
  put_u32 (Z.of_nat (length xs)) ++ concat (f <$> xs).

Definition serialize_multiproof (mp : Multiproof) : list byte :=
  put_bytes (mp_commitment mp) ++ put_bytes (mp_proof mp) ++ put_seq put_bytes (mp_evaluations mp).

Definition put_path (p : list Z) : list byte := put_seq (be_bytes 8) p.
Definition put_sub_proof (sp : TraversalSubProof) : list byte :=
  put_seq put_bytes (sp_commits sp) ++ put_seq put_bytes (sp_ys sp) ++ put_seq put_path (sp_paths sp).

Definition to_bytes (p : MultiKeyTraversalProof) : list byte :=
  put_bytes (serialize_multiproof (mk_multiproof p)) ++ put_seq put_sub_proof (mk_sub_proofs p).

Definition read_go_u32 : reader Z := be_val <$> read_exact InvalidArgument 4.
Definition read_go_u64 : reader Z := be_val <$> read_exact InvalidArgument 8.
Definition read_go_bytes (len : Z) : reader (list byte) := read_exact InvalidArgument (Z.to_nat len).

Definition read_len_bytes : reader (list byte) := l ← read_go_u32; read_go_bytes l.
Definition read_seq {A} (rd : reader A) : reader (list A) := n ← read_go_u32; read_many rd (Z.to_nat n).

Definition read_sub_proof : reader TraversalSubProof :=
  commits ← read_seq read_len_bytes;
  ys ← read_seq read_len_bytes;
  paths ← read_seq (read_seq read_go_u64);
  mret (mkSubProof commits ys paths).

Definition parse_multiproof : reader (list byte * list byte) :=
  d ← read_len_bytes; p ← read_len_bytes; mret (d, p).

Definition parse_traversal_proof (data : list byte) : result DecodedProof :=
  '(mp_bytes, rest) ← read_len_bytes data;
  '(d, p, _) ← parse_multiproof mp_bytes;
  '(sps, _) ← read_seq read_sub_proof rest;
  if decide (sps = []) then Err InvalidArgument
  else if existsb (fun sp => negb (bool_decide (sp_ys sp = []))) sps
  then Ok (mkDecoded d p sps) else Err InvalidArgument.

(** ** Round trip of the wire format *)

Definition fits_u32 {A} (xs : list A) : Prop := Z.of_nat (length xs) < 2 ^ 32.

Lemma read_go_u32_app v rest : is_u32 v -> read_go_u32 (put_u32 v ++ rest) = Ok (v, rest).
Proof.
  intros Hv. unfold read_go_u32, put_u32.
  erewrite reader_fmap_Ok by (apply read_exact_app; by rewrite be_bytes_length).
  rewrite be_val_bytes. by rewrite Z.mod_small by exact Hv.
Qed.

#[export] Instance put_bytes_round_trip : RoundTrip put_bytes read_len_bytes fits_u32.
Proof.
  intros c rest Hc. unfold put_bytes, read_len_bytes. rewrite <- app_assoc.
  erewrite reader_bind_Ok by (apply read_go_u32_app; unfold is_u32, fits_u32 in *; lia).
  unfold read_go_bytes. rewrite Nat2Z.id. by apply read_exact_app.
Qed.

#[export] Instance u64_round_trip : RoundTrip (be_bytes 8) read_go_u64 is_u64.
Proof.
  intros v rest Hv. unfold read_go_u64.
  erewrite reader_fmap_Ok by (apply read_exact_app; by rewrite be_bytes_length).
  rewrite be_val_bytes. by rewrite Z.mod_small by exact Hv.
Qed.

#[export] Instance put_seq_round_trip {A} (f : A -> list byte) rd ok `{!RoundTrip f rd ok} :
  RoundTrip (put_seq f) (read_seq rd) (fun xs => fits_u32 xs /\ Forall ok xs).
Proof.
  intros xs rest [Hlen Hok]. unfold put_seq, read_seq. rewrite <- app_assoc.
  erewrite reader_bind_Ok by (apply read_go_u32_app; unfold is_u32, fits_u32 in *; lia).
  rewrite Nat2Z.id. by apply (read_many_app f rd ok).
Qed.

Definition sub_proof_fits (sp : TraversalSubProof) : Prop :=
  (fits_u32 (sp_commits sp) /\ Forall fits_u32 (sp_commits sp)) /\
  (fits_u32 (sp_ys sp) /\ Forall fits_u32 (sp_ys sp)) /\
  (fits_u32 (sp_paths sp) /\ Forall (fun p => fits_u32 p /\ Forall is_u64 p) (sp_paths sp)).

#[export] Instance sub_proof_round_trip : RoundTrip put_sub_proof read_sub_proof sub_proof_fits.
Proof.
  intros [commits ys paths] rest (Hc & Hy & Hp). unfold put_sub_proof, read_sub_proof.
  rewrite <- !app_assoc. cbn [sp_commits sp_ys sp_paths] in *.
  erewrite reader_bind_Ok by (by apply (round_trip (RoundTrip := put_seq_round_trip put_bytes read_len_bytes fits_u32))).
  erewrite reader_bind_Ok by (by apply (round_trip (RoundTrip := put_seq_round_trip put_bytes read_len_bytes fits_u32))).
  erewrite reader_bind_Ok by (by apply (round_trip (RoundTrip := put_seq_round_trip put_path (read_seq read_go_u64) _))).
  done.
Qed.

Definition proof_fits (p : MultiKeyTraversalProof) : Prop :=
  fits_u32 (serialize_multiproof (mk_multiproof p)) /\
  fits_u32 (mp_commitment (mk_multiproof p)) /\ fits_u32 (mp_proof (mk_multiproof p)) /\
  fits_u32 (mk_sub_proofs p) /\ Forall sub_proof_fits (mk_sub_proofs p).

Definition decoded (p : MultiKeyTraversalProof) : DecodedProof :=
  mkDecoded (mp_commitment (mk_multiproof p)) (mp_proof (mk_multiproof p)) (mk_sub_proofs p).

Lemma parse_to_bytes p : proof_fits p ->
  existsb (fun sp => negb (bool_decide (sp_ys sp = []))) (mk_sub_proofs p) = true ->
  parse_traversal_proof (to_bytes p) = Ok (decoded p).
Proof.
  intros (Hmp & Hc & Hp & Hs & Hsps) Hys. unfold parse_traversal_proof, to_bytes.
  rewrite (round_trip (RoundTrip := put_bytes_round_trip)) by done. rewrite bind_Ok.
  unfold parse_multiproof, serialize_multiproof.
  erewrite reader_bind_Ok by (by apply put_bytes_round_trip).
  erewrite reader_bind_Ok by (by apply put_bytes_round_trip). rewrite reader_ret_Ok, bind_Ok.
  rewrite <- (app_nil_r (put_seq put_sub_proof (mk_sub_proofs p))).
  rewrite (round_trip (RoundTrip := put_seq_round_trip put_sub_proof read_sub_proof sub_proof_fits)) by done.
  rewrite bind_Ok. destruct (decide (mk_sub_proofs p = [])) as [E|_]; [by rewrite E in Hys|]. by rewrite Hys.
Qed.

(** ** What a walk proves *)

(** One opening of a committed vector. *)
Record Opening := mkOpening {
  o_commit : list byte;
  o_poly : list byte;
  o_index : Z;
  o_eval : list byte;
}.

Section Completeness.
Context `{Sha2} `{!Sha2Laws} `{InclusionProver}.

Definition opening_ok (o : Opening) : Prop :=
  length (o_poly o) = 4096%nat /\ o_commit o = raw_or_zero (o_poly o) /\ 0 <= o_index o < 64 /\
  o_eval o = take 64 (drop (Z.to_nat (o_index o) * 64) (o_poly o)).

(** The four vectors a walk hands to the prover and the verifier are the
    columns of a list of correct openings. *)
Definition walk_openings (w : ProofWalk) (os : list Opening) : Prop :=
  Forall opening_ok os /\
  init (w_commits w) = o_commit <$> os /\ w_polys w = o_poly <$> os /\
  last_indices (w_paths w) = o_index <$> os /\ init (w_ys w) = o_eval <$> os /\
  omap last (path_indices (w_paths w)) = o_index <$> os.

Definition walk_shape (w : ProofWalk) (n : nat) : Prop :=
  length (w_commits w) = S n /\ length (w_ys w) = S n /\ length (w_paths w) = n /\
  Forall (fun p => p <> [] /\ Forall (fun x => 0 <= x < 64) p) (w_paths w).

(** The first commitment, and how it enters the parent's vector. *)
Definition walk_entry (w : ProofWalk) : list byte :=
  match w_commits w, w_paths w with
  | c :: _, p :: _ => branch_entry (init p) c
  | c :: _, [] => c
  | [], _ => []
  end.

Lemma init_cons {A} (x : A) xs : xs <> [] -> init (x :: xs) = x :: init xs.
Proof. destruct xs as [|y ys]; [done|]. intros _. unfold init. cbn. by rewrite Nat.sub_0_r. Qed.

Lemma init_snoc {A} (x : A) xs : init (xs ++ [x]) = xs.
Proof. unfold init. rewrite length_app. cbn. rewrite Nat.add_sub. apply take_app_length. Qed.

Lemma wrap_path p : Forall (fun x => 0 <= x < 64) p -> wrap_u64 <$> p = p.
Proof.
  induction 1 as [|x p Hx _ IH]; [done|]. rewrite fmap_cons, IH.
  f_equal. apply wrap_u64_id. unfold is_u64. lia.
Qed.

(** The last commitment and value of a walk are those of the leaf it reaches. *)
Definition walk_ends (w : ProofWalk) (l : LeafNode) : Prop :=
  last (w_commits w) = Some (leaf_commitment l) /\ last (w_ys w) = Some (leaf_target l).

Lemma omap_last_cons {A} (p : list A) ps :
  omap last (p :: ps) = match last p with Some x => x :: omap last ps | None => omap last ps end.
Proof. done. Qed.

Lemma last_cons_ne {A} (x : A) xs : xs <> [] -> last (x :: xs) = last xs.
Proof. by destruct xs. Qed.

Lemma path_prefix_snoc p x : Forall (fun x => 0 <= x < 64) (p ++ [x]) ->
  path_prefix (wrap_u64 <$> (p ++ [x])) = Ok p.
Proof.
  intros HF. rewrite wrap_path by done. unfold path_prefix. rewrite init_snoc. by destruct p.
Qed.

(** Extending a walk by one level keeps the chain verifiable. *)
Lemma chain_step c w y q n : walk_shape w n ->
  verify_path_chain (w_commits w) (path_indices (w_paths w)) (w_ys w) = Ok true ->
  y = walk_entry w ->
  verify_path_chain (c :: w_commits w) (path_indices (q :: w_paths w)) (y :: w_ys w) = Ok true.
Proof.
  intros (Hc & Hy & Hp & HF) Hv ->. destruct w as [polys commits ys paths]. unfold walk_entry.
  cbn [w_commits w_ys w_paths] in *.
  destruct commits as [|c1 rest]; [done|]. destruct paths as [|p1 paths].
  - destruct rest as [|c2 rest]; [|cbn in *; lia]. cbn [verify_path_chain path_indices fmap list_fmap].
    rewrite bind_Ok, decide_True by done. done.
  - destruct rest as [|c2 rest]; [cbn in *; lia|]. apply Forall_cons in HF as [[Hp1 HFp] _].
    destruct p1 as [|x p1' _] using rev_ind; [done|]. rewrite init_snoc.
    change (path_indices (q :: (p1' ++ [x]) :: paths)) with
      ((wrap_u64 <$> q) :: (wrap_u64 <$> (p1' ++ [x])) :: path_indices paths).
    change (path_indices ((p1' ++ [x]) :: paths)) with ((wrap_u64 <$> (p1' ++ [x])) :: path_indices paths) in Hv.
    cbn [verify_path_chain]. rewrite path_prefix_snoc by done. rewrite bind_Ok, bind_Ok, decide_True by done. done.
Qed.

(** A walk exists exactly where lookup finds a value. *)
Lemma prove_iff_get n k : forall d, is_Some (prove_recursive n k d) <-> is_Some (get_node n k d).
Proof.
  induction n as [l|b IH] using node_ind; intros d; cbn [prove_recursive get_node].
  { destruct (decide (leaf_key l = k)); split; intros [? ?]; (done || eauto). }
  destruct (walk_prefix k (br_prefix b) 0 d) as [d'|]; [|by split; intros [? ?]].
  destruct (get_next_nibble k d' <? 0); [by split; intros [? ?]|]. rewrite !at_child_spec.
  destruct (br_children b !! Z.to_nat (get_next_nibble k d')) as [[c|]|] eqn:Hc; [|by split; intros [? ?]..].
  rewrite <- (IH c) by (by eapply list_elem_of_lookup_2).
  destruct (prove_recursive c k (d' + BRANCH_BITS)); split; intros [? ?]; (done || eauto).
Qed.

(** Everything a walk of a committed, well-formed node carries. *)
Definition walk_good (k : key) (n : node) (w : ProofWalk) : Prop :=
  exists m os l, walk_shape w m /\ walk_openings w os /\
    verify_path_chain (w_commits w) (path_indices (w_paths w)) (w_ys w) = Ok true /\
    found_leaf k (collect_leaves n) l /\ walk_ends w l /\
    child_commitment (Some n) = walk_entry w /\ head (w_commits w) = Some (node_commitment n).

Lemma walk_openings_cons w os b i c nib : Forall opening_ok os ->
  br_commitment b = raw_or_zero (commit_data b) -> length (br_children b) = BRANCH_NODES ->
  br_children b !! i = Some c -> nib = Z.of_nat i -> w_commits w <> [] -> w_ys w <> [] ->
  walk_openings w os ->
  walk_openings (mkWalk (get_polynomial b :: w_polys w) (br_commitment b :: w_commits w)
      (poly_slice (get_polynomial b) i :: w_ys w) ((br_prefix b ++ [nib]) :: w_paths w))
    (mkOpening (br_commitment b) (get_polynomial b) nib (poly_slice (get_polynomial b) i) :: os).
Proof.
  intros Hos Hcm Hlen Hc -> Hne1 Hne2 (_ & E1 & E2 & E3 & E4 & E5).
  pose proof (lookup_lt_Some _ _ _ Hc) as Hi. rewrite Hlen in Hi. unfold BRANCH_NODES in Hi.
  assert (wrap_u64 (Z.of_nat i) = Z.of_nat i) as Hw by (apply wrap_u64_id; unfold is_u64; lia).
  unfold walk_openings. cbn [w_commits w_polys w_paths w_ys]. rewrite !init_cons, !fmap_cons by done.
  cbn [o_commit o_poly o_index o_eval]. rewrite E1, E2, E4. split_and!; try done.
  - constructor; [|done]. unfold opening_ok. cbn [o_commit o_poly o_index o_eval].
    rewrite get_polynomial_length, Nat2Z.id by done.
    split_and!; [done|by rewrite get_polynomial_data|lia|lia|]. by eapply poly_slice_child.
  - unfold last_indices in *. rewrite fmap_cons, last_snoc, E3. cbn [from_option]. unfold id. by rewrite Hw.
  - unfold path_indices in *. rewrite fmap_cons, omap_last_cons, fmap_app, E5.
    cbn [fmap list_fmap]. by rewrite last_snoc, Hw.
Qed.

Lemma prove_walk K `{!PrefixFree K} k n : forall p w, wf_node K p n -> committed n -> p `prefix_of` path k ->
  prove_recursive n k (6 * length p) = Some w -> walk_good k n w.
Proof.
  induction n as [l|b IH] using node_ind; intros p w Hwf Hcm Hp; cbn [prove_recursive].
  { destruct (decide (leaf_key l = k)) as [Hk|]; [|done]. intros [= <-].
    inversion Hcm as [? Hcl|]; subst. exists 0%nat, [], l. split_and!; try done.
    - split; [by left|done].
    - cbn. rewrite fit64_id; [done|]. rewrite <- Hcl. apply Sha512_length. }
  destruct (walk_prefix k (br_prefix b) 0 (6 * length p)) as [d|] eqn:Hw; [|done].
  destruct (off_route K _ _ _ _ Hwf Hp Hw) as [Hneg|(i & Hi & Hi64 & Hdepth & Hpi)].
  { destruct (Z.ltb_spec (get_next_nibble k d) 0); [done|lia]. }
  rewrite Hi. destruct (Z.ltb_spec (Z.of_nat i) 0); [lia|]. rewrite Nat2Z.id, at_child_spec, Hdepth.
  inversion Hwf as [|? ? Hlen HF Htwo Hch]; inversion Hcm as [|? Hcb Hcc]; subst.
  destruct (br_children b !! i) as [[c|]|] eqn:Hc; [|done..].
  destruct (prove_recursive c k _) as [w'|] eqn:Hw'; [|done]. intros [= <-].
  destruct (IH c ltac:(by eapply list_elem_of_lookup_2) _ w' (Hch _ _ Hc) (Hcc _ _ Hc) Hpi Hw')
    as (m & os & l & Hsh & Hop & Hv & [Hl Hk] & [He1 He2] & Hce & Hhd).
  pose proof Hsh as (Hs1 & Hs2 & Hs3 & Hs4).
  assert (w_commits w' <> []) as Hne1 by (intros E; by rewrite E in Hs1).
  assert (w_ys w' <> []) as Hne2 by (intros E; by rewrite E in Hs2).
  exists (S m), (mkOpening (br_commitment b) (get_polynomial b) (Z.of_nat i) (poly_slice (get_polynomial b) i) :: os), l.
  split_and!.
  - split_and!; [cbn; lia..|]. cbn [w_paths]. constructor; [|done]. split; [by destruct (br_prefix b)|].
    apply Forall_app. split; [done|]. constructor; [unfold BRANCH_NODES in Hi64; lia|constructor].
  - eapply walk_openings_cons; [apply Hop|done..].
  - cbn [w_commits w_paths w_ys]. eapply chain_step; [done|done|].
    rewrite <- Hce. by apply (poly_slice_child b i (Some c)).
  - split; [apply elem_of_leaves_branch; eauto|done].
  - split; [cbn [w_commits]; by rewrite last_cons_ne|cbn [w_ys]; by rewrite last_cons_ne].
  - unfold walk_entry. cbn [w_commits w_paths child_commitment]. by rewrite init_snoc.
  - done.
Qed.

(** ** The verifier accepts *)

Definition genuine (o : Opening) : Prop :=
  length (o_poly o) = 4096%nat /\ commit_raw (o_poly o) 64 = Ok (o_commit o) /\ 0 <= o_index o < 64 /\
  o_eval o = take 64 (drop (Z.to_nat (o_index o) * 64) (o_poly o)).

(** Documented behaviour of the KZG multiproof (crate [bls48581]): committing
    the full vector of 64 entries succeeds, correct openings can be
    proved together, and the multiproof is not empty and verifies. *)
Class KzgLaws : Prop := {
  kzg_commit_total : forall d, length d = 4096%nat -> exists c, commit_raw d 64 = Ok c;
  kzg_prove_total : forall os, Forall genuine os -> os <> [] ->
    is_ok (prove_multiple_raw (o_commit <$> os) (o_poly <$> os) (o_index <$> os) 64) = true;
  kzg_nonempty : forall cs ps ixs mp, prove_multiple_raw cs ps ixs 64 = Ok mp ->
    mp_commitment mp <> [] /\ mp_proof mp <> [];
  kzg_complete : forall os mp, Forall genuine os ->
    prove_multiple_raw (o_commit <$> os) (o_poly <$> os) (o_index <$> os) 64 = Ok mp ->
    verify_multiple (o_commit <$> os) (o_eval <$> os) (o_index <$> os) 64
      (mp_commitment mp) (mp_proof mp) = true;
}.

Lemma opening_genuine `{!KzgLaws} o : opening_ok o -> genuine o.
Proof.
  intros (Hlen & Hc & Hi & He). split_and!; try done; try apply Hi.
  destruct (kzg_commit_total _ Hlen) as [c Hr]. rewrite Hc. unfold raw_or_zero. by rewrite Hr.
Qed.

Lemma check_all_ok {A} (f : A -> result unit) xs : (forall x, x ∈ xs -> f x = Ok ()) -> check_all f xs = Ok ().
Proof.
  induction xs as [|x xs IH]; intros Hf; [done|]. cbn [check_all]. rewrite (Hf x) by left. rewrite bind_Ok.
  apply IH. intros y Hy. apply Hf. by right.
Qed.

Lemma sub_proof_structural k n w : walk_good k n w -> structural_check (sub_proof w) = Ok ().
Proof.
  intros (m & os & l & (Hs1 & Hs2 & Hs3 & _) & _). unfold structural_check, sub_proof.
  cbn [sp_commits sp_ys sp_paths]. unfold path_indices. rewrite length_fmap, Hs1, Hs2, Hs3.
  rewrite decide_False by (intros E; by rewrite E in Hs1).
  destruct (Nat.eqb_spec m (S m - 1)); [|lia]. by rewrite Nat.eqb_refl.
Qed.

Lemma sub_proof_root k n w : walk_good k n w -> root_check (node_commitment n) (sub_proof w) = Ok ().
Proof.
  intros (m & os & l & _ & _ & _ & _ & _ & _ & Hhd). unfold root_check, sub_proof. cbn [sp_commits].
  destruct (w_commits w) as [|c cs]; [done|]. injection Hhd as ->. by rewrite decide_True.
Qed.

Lemma collect_openings_walks n ws oss acc :
  Forall2 (fun w os => (exists k, walk_good k n w) /\ walk_openings w os) ws oss ->
  collect_openings acc (sub_proof <$> ws) = Ok (Some (mkInputs
    (all_commits acc ++ (o_commit <$> concat oss)) (all_indices acc ++ (o_index <$> concat oss))
    (all_ys acc ++ (o_eval <$> concat oss)))).
Proof.
  intros HF. revert acc. induction HF as [|w os ws oss [[k Hg] Hop] _ IH]; intros acc.
  { cbn. rewrite !app_nil_r. by destruct acc. }
  cbn [fmap list_fmap concat]. unfold fmap in IH. rewrite !fmap_app.
  destruct Hop as (_ & E1 & _ & _ & E4 & E5). destruct Hg as (m & os' & l & (Hs1 & Hs2 & Hs3 & _) & _ & Hv & _).
  cbn [collect_openings sub_proof sp_commits sp_ys sp_paths]. rewrite Hs1, Hv, bind_Ok.
  destruct (Nat.leb_spec (S m) 1) as [Hm|Hm].
  - assert (os = []) as ->; [|by rewrite IH].
    assert (m = 0%nat) as -> by lia. apply length_zero_iff_nil. rewrite <- (length_fmap o_commit), <- E1.
    unfold init. rewrite Hs1. done.
  - rewrite IH. cbn [all_commits all_indices all_ys]. by rewrite E1, E4, E5, !app_assoc.
Qed.

Lemma concat_fmap_columns {A B C} (f : A -> list B) (g : C -> B) xs ys :
  Forall2 (fun x y => f x = g <$> y) xs ys -> concat (f <$> xs) = g <$> concat ys.
Proof.
  induction 1 as [|x y xs ys Hx _ IH]; [done|]. cbn [fmap list_fmap concat]. rewrite fmap_app, Hx.
  f_equal. exact IH.
Qed.

Lemma choose_list {A B} (P : A -> B -> Prop) xs : (forall x, x ∈ xs -> exists y, P x y) ->
  exists ys, Forall2 P xs ys.
Proof.
  induction xs as [|x xs IH]; intros Hx; [exists []; constructor|].
  destruct (Hx x) as [y Hy]; [by left|]. destruct IH as [ys Hys]; [intros z Hz; apply Hx; by right|].
  exists (y :: ys). by constructor.
Qed.

Lemma walks_good K `{!PrefixFree K} n keys w : wf_node K [] n -> committed n -> w ∈ walks n keys ->
  exists k, k ∈ keys /\ walk_good k n w.
Proof.
  intros Hwf Hc Hw. apply list_elem_of_omap in Hw as (k & Hk & Hw). exists k. split; [done|].
  destruct (decide (k = [])); [done|]. destruct (prove_recursive n k 0) as [w'|] eqn:E; [|done].
  cbn in Hw. destruct (decide (w_commits w' = [])); [done|]. injection Hw as ->.
  by eapply (prove_walk K k n []); [|done|apply prefix_nil|].
Qed.

(** The openings of all walks together. *)
Lemma walks_columns `{!KzgLaws} n ws : (forall w, w ∈ ws -> exists k, walk_good k n w) ->
  exists oss, Forall2 (fun w os => (exists k, walk_good k n w) /\ walk_openings w os) ws oss /\
    Forall genuine (concat oss) /\
    concat ((fun w => init (w_commits w)) <$> ws) = o_commit <$> concat oss /\
    concat (w_polys <$> ws) = o_poly <$> concat oss /\
    concat ((fun w => last_indices (w_paths w)) <$> ws) = o_index <$> concat oss.
Proof.
  intros Hws.
  destruct (choose_list (fun w os => (exists k, walk_good k n w) /\ walk_openings w os) ws) as [oss Hoss].
  { intros w Hw. destruct (Hws w Hw) as [k Hg]. pose proof Hg as (m & os & l & _ & Hop & _). eauto. }
  exists oss. split; [done|]. split.
  { apply Forall_concat. eapply Forall2_Forall_r; [exact Hoss|].
    apply Forall_forall. intros w _ os [_ [Hos _]]. eapply Forall_impl; [exact Hos|]. apply opening_genuine. }
  split_and!; apply concat_fmap_columns; (eapply Forall2_impl; [exact Hoss|]); intros ? ? [_ Hop]; apply Hop.
Qed.

Lemma verify_walks `{!KzgLaws} n ws mp :
  (forall w, w ∈ ws -> exists k, walk_good k n w) ->
  prove_multiple_raw (concat ((fun w => init (w_commits w)) <$> ws)) (concat (w_polys <$> ws))
    (concat ((fun w => last_indices (w_paths w)) <$> ws)) 64 = Ok mp ->
  verify_traversal_proof (node_commitment n) (mkDecoded (mp_commitment mp) (mp_proof mp) (sub_proof <$> ws)) = Ok true.
Proof.
  intros Hws Hmp. destruct (walks_columns n ws Hws) as (oss & Hoss & Hgen & E1 & E2 & E3).
  rewrite E1, E2, E3 in Hmp. unfold verify_traversal_proof. cbn [dp_multicommitment dp_proof dp_sub_proofs].
  destruct (kzg_nonempty _ _ _ _ Hmp) as [Hn1 Hn2]. rewrite decide_False by tauto.
  rewrite (check_all_ok structural_check); [rewrite bind_Ok|].
  2: { intros sp (w & -> & Hw)%list_elem_of_fmap. destruct (Hws w Hw). by eapply sub_proof_structural. }
  rewrite (check_all_ok (root_check _)); [rewrite bind_Ok|].
  2: { intros sp (w & -> & Hw)%list_elem_of_fmap. destruct (Hws w Hw). by eapply sub_proof_root. }
  rewrite (collect_openings_walks n ws oss) by done. rewrite bind_Ok. cbn [all_commits all_ys all_indices app].
  rewrite kzg_complete by done. by destruct (_ <? _)%nat.
Qed.

Lemma rep_proof_verifies K `{!PrefixFree K} `{!KzgLaws} th t m keys p : trie_rep K t m ->
  prove_multiple (tree_commit th t).1 keys = Some p ->
  verify_traversal_proof (tree_commit th t).2 (decoded p) = Ok true.
Proof.
  intros Hr. rewrite tree_commit_root, tree_commit_serial. destruct Hr as [Hwf _].
  destruct t as [[n|]]; [|done]. cbn [root fmap option_fmap option_map]. unfold prove_multiple. cbn [root mbind option_bind].
  set (n' := commit_serial n true). set (ws := walks n' keys). destruct (decide _); [done|].
  destruct (prove_multiple_raw _ _ _ _) as [mp| |] eqn:Hmp; [|done..]. intros [= <-].
  unfold decoded. cbn [mk_multiproof mk_sub_proofs]. apply verify_walks; [|done]. intros w Hw.
  destruct (walks_good K n' keys w) as (k & _ & Hg); [by apply wf_commit|apply commit_committed|done|eauto].
Qed.

(** What the sub-proof of a key shows: the leaf the map has for it. *)
Definition shows (m : gmap key LeafNode) (k : key) (sp : TraversalSubProof) : Prop :=
  exists l, m !! k = Some l /\ last (sp_ys sp) = Some (leaf_target l) /\
    last (sp_commits sp) = Some (Sha512 (x00 :: k ++ leaf_target l)).

Lemma walk_shows K `{!PrefixFree K} n m k : trie_rep K (mkTree (Some n)) m -> committed n -> k <> [] ->
  match prove_recursive n k 0 with
  | Some w => w_commits w <> [] /\ shows m k (sub_proof w)
  | None => m !! k = None
  end.
Proof.
  intros Hr Hc Hk. pose proof (rep_get K _ _ k Hr) as Hget. cbn in Hget.
  pose proof (prove_iff_get n k 0) as Hiff. destruct Hr as [Hwf Hm].
  destruct (prove_recursive n k 0) as [w|] eqn:E.
  - destruct (prove_walk K k n [] w Hwf Hc (prefix_nil _) E) as (j & os & l & (Hs1 & _) & _ & _ & Hl & [He1 He2] & _).
    split; [intros E'; by rewrite E' in Hs1|]. exists l. apply Hm in Hl as Hml. split; [done|].
    split; [done|]. cbn [sub_proof sp_commits]. rewrite He1. f_equal.
    destruct Hl as [Hl <-]. assert (compute_commitment l = l) as <-; [|done].
    clear - Hc Hl. revert Hl. induction Hc as [l' Hl'|b _ _ IH].
    + by intros ->%list_elem_of_singleton.
    + intros (i & c & Hi & Hin)%elem_of_leaves_branch. eauto.
  - rewrite Hget in Hiff. destruct (m !! k); [|done]. exfalso. cbn in Hiff.
    by apply (is_Some_None (A := ProofWalk)), Hiff.
Qed.

Definition stored (m : gmap key LeafNode) (k : key) : Prop := k <> [] /\ is_Some (m !! k).
#[export] Instance stored_dec m k : Decision (stored m k).
Proof. unfold stored. apply _. Defined.

Lemma walks_show K `{!PrefixFree K} n m keys : trie_rep K (mkTree (Some n)) m -> committed n ->
  Forall2 (shows m) (filter (stored m) keys) (sub_proof <$> walks n keys).
Proof.
  intros Hr Hc. induction keys as [|k keys IH]; [constructor|]. rewrite filter_cons. unfold walks.
  cbn [omap list_omap]. fold (walks n keys). destruct (decide (k = [])) as [Hk|Hk].
  { rewrite decide_False by (intros [? _]; done). exact IH. }
  pose proof (walk_shows K n m k Hr Hc Hk) as Hs. destruct (prove_recursive n k 0) as [w|]; cbn [mbind option_bind].
  - destruct Hs as [Hne Hs]. rewrite (decide_False (P := w_commits w = [])) by done.
    rewrite decide_True; [constructor; [done|exact IH]|]. destruct Hs as (l & Hl & _). split; [done|]. by exists l.
  - rewrite decide_False; [exact IH|]. intros [_ Hsome]. rewrite Hs in Hsome. by destruct Hsome.
Qed.

(** Proofs are produced: with two entries the root is a branch, so a stored
    key yields at least one opening. *)
Lemma prove_branch_polys b k d w : prove_recursive (Branch b) k d = Some w -> w_polys w <> [].
Proof.
  cbn [prove_recursive]. destruct (walk_prefix k (br_prefix b) 0 d) as [d'|]; [|done].
  destruct (get_next_nibble k d' <? 0); [done|]. destruct (at_child _ _ _ _); [|done]. by intros [= <-].
Qed.

Lemma rep_root_branch K `{!PrefixFree K} t m : trie_rep K t m -> (2 <= size m)%nat ->
  exists b, root t = Some (Branch b).
Proof.
  intros Hr Hsz. rewrite <- (rep_size K t m Hr) in Hsz. unfold leaf_nodes in Hsz.
  destruct t as [[[l|b]|]]; cbn in *; [lia|eauto|lia].
Qed.

Lemma prove_multiple_total K `{!PrefixFree K} `{!KzgLaws} t m b keys : trie_rep K t m ->
  root t = Some (Branch b) -> committed (Branch b) -> Exists (stored m) keys ->
  exists p, prove_multiple t keys = Some p.
Proof.
  intros Hr Hb Hc Hex. destruct t as [r]; cbn in Hb; subst r. unfold prove_multiple. cbn [root mbind option_bind].
  pose proof (walks_columns (Branch b) (walks (Branch b) keys)) as Hcol. destruct Hcol as (oss & _ & Hgen & E1 & E2 & E3).
  { intros w Hw. destruct (walks_good K (Branch b) keys w) as (k & _ & Hg); [apply Hr|done|done|eauto]. }
  rewrite E1, E2, E3. assert (concat oss <> []) as Hne.
  { intros E. rewrite E in E2. apply Exists_exists in Hex as (k & Hk & Hk0 & [l Hl]).
    pose proof (walk_shows K _ m k Hr Hc Hk0) as Hs. destruct (prove_recursive (Branch b) k 0) as [w|] eqn:Ew; [|congruence].
    assert (w ∈ walks (Branch b) keys) as Hw.
    { apply list_elem_of_omap. exists k. split; [done|]. rewrite decide_False by done. rewrite Ew. cbn.
      by rewrite decide_False by apply Hs. }
    apply prove_branch_polys in Ew. destruct (w_polys w) as [|x xs] eqn:Ep; [done|].
    assert (x ∈ concat (w_polys <$> walks (Branch b) keys)) as Hx; [|rewrite E2 in Hx; by apply not_elem_of_nil in Hx].
    apply list_elem_of_In, in_concat. exists (w_polys w). rewrite <- !list_elem_of_In. split; [|rewrite Ep; by left].
    by apply list_elem_of_fmap_2. }
  rewrite decide_False by (intros E; by apply fmap_nil_inv in E).
  pose proof (kzg_prove_total _ Hgen Hne) as Hok. destruct (prove_multiple_raw _ _ _ _); [eauto|done..].
Qed.

Lemma stored_commit m k : stored (compute_commitment <$> m) k <-> stored m k.
Proof. unfold stored. rewrite lookup_fmap. destruct (m !! k); cbn; naive_solver. Qed.

Lemma shows_commit m k sp : shows (compute_commitment <$> m) k sp -> shows m k sp.
Proof.
  intros (l & Hl & Hy & Hc). rewrite lookup_fmap in Hl. apply fmap_Some in Hl as (l' & Hl' & ->). by exists l'.
Qed.

Lemma rep_proof_complete K `{!PrefixFree K} `{!KzgLaws} th t m keys : trie_rep K t m -> (2 <= size m)%nat ->
  Exists (stored m) keys ->
  exists p, prove_multiple (tree_commit th t).1 keys = Some p /\
    verify_traversal_proof (tree_commit th t).2 (decoded p) = Ok true /\
    Forall2 (shows m) (filter (stored m) keys) (mk_sub_proofs p).
Proof.
  intros Hr Hsz Hex. pose proof (rep_commit K th t m Hr) as Hrc.
  destruct (rep_root_branch K _ _ Hrc) as [b Hb]; [by rewrite map_size_fmap|].
  assert (committed (Branch b)) as Hcm.
  { rewrite tree_commit_serial in Hb. destruct t as [[n|]]; [|done]. injection Hb as Hb. rewrite <- Hb. apply commit_committed. }
  destruct (prove_multiple_total K _ _ b keys Hrc Hb Hcm) as [p Hp].
  { eapply Exists_impl; [exact Hex|]. intros k. apply stored_commit. }
  exists p. split; [done|]. split; [by eapply rep_proof_verifies|].
  revert Hp. destruct (tree_commit th t).1 as [r]. cbn in Hb. subst r. intros Hp.
  pose proof (walks_show K (Branch b) _ keys Hrc Hcm) as Hs. revert Hp. unfold prove_multiple. cbn [root mbind option_bind].
  destruct (decide _); [done|]. destruct (prove_multiple_raw _ _ _ _); [|done..]. intros [= <-].
  cbn [mk_sub_proofs]. rewrite (list_filter_iff _ (stored m)) in Hs by (intros k; apply stored_commit).
  eapply Forall2_impl; [exact Hs|]. intros k sp. apply shows_commit.
Qed.

End Completeness.

(** ** What traversal proofs promise *)

Lemma sample_prover_laws : @KzgLaws sample_prover.
Proof.
  split.
  - intros d _. by eexists.
  - done.
  - intros cs ps ixs mp [= <-]. done.
  - intros os mp _ [= <-]. cbn. by rewrite !length_fmap, !Nat.eqb_refl.
Qed.



(** The wire format round-trips: a proof whose vectors fit their [u32]
    counts and that carries a value is parsed back to the same commitment,
    multiproof and sub-proofs (the evaluations inside the multiproof are
    ignored by the parser). *)
Theorem traversal_proof_round_trip (p : MultiKeyTraversalProof) : proof_fits p ->
  existsb (fun sp => negb (bool_decide (sp_ys sp = []))) (mk_sub_proofs p) = true ->
  parse_traversal_proof (to_bytes p) = Ok (decoded p).
Proof. apply parse_to_bytes. Qed.

Lemma traversal_proof_round_trip_witness :
  let p := mkMultiKeyProof (mkMultiproof [x01] [x02] [[x03]])
             [mkSubProof [[x01]; [x02]] [[x03]; [x04; x05]] [[7; 63]]] in
  parse_traversal_proof (to_bytes p) = Ok (decoded p).
Proof.
  apply traversal_proof_round_trip; [|reflexivity].
  unfold proof_fits, sub_proof_fits, fits_u32, is_u64. cbn [mk_sub_proofs mk_multiproof].
  repeat match goal with
  | |- _ /\ _ => split
  | |- Forall _ _ => constructor
  | |- _ <= _ => discriminate
  | |- _ < _ => vm_compute; reflexivity
  | |- sub_proof_fits _ => unfold sub_proof_fits
  | |- fits_u32 _ => vm_compute; reflexivity
  end.
Defined.

(** A proof of one branch level is accepted without any multiproof check:
    whatever the prover, every root and every claimed leaf commitment [c] and
    value [y] pass the verifier, because the multiproof is only checked when
    more than one commitment was collected. *)
Theorem one_level_proof_unchecked `{Sha2} `{InclusionProver} (rt c y : list byte) (index : Z) :
  verify_traversal_proof rt (mkDecoded [x00] [x00] [mkSubProof [rt; c] [c; y] [[index]]]) = Ok true.
Proof.
  unfold verify_traversal_proof. rewrite decide_False by (by intros [?|?]).
  cbn. rewrite !decide_True by done. done.
Qed.

(** An empty path panics the verifier: a proof with three commitments
    whose second path is empty parses, passes the structural and root checks,
    and then slices below zero. *)
Theorem empty_path_panics `{Sha2} `{InclusionProver} (rt c d : list byte) (index : Z) (ys : list byte) :
  verify_traversal_proof rt (mkDecoded [x00] [x00] [mkSubProof [rt; c; d] [ys; ys; ys] [[index]; []]]) = Panic.
Proof.
  unfold verify_traversal_proof. rewrite decide_False by (by intros [?|?]). cbn. by rewrite decide_True.
Qed.
