(* ===== verification/TrieCodec.v ===== *)
(** * Serialization of the trie ([src/crates/quil-tries/src/serialize.rs],
      [go_format.rs], [vertex_commit.rs])

    The two tree formats have one layout and differ in the bound on a
    length-prefixed field and in how a size (a [BigInt]) is written; [Format]
    is that difference, [encode_node]/[decode_node] the layout.  The depth
    argument of [decode_node] counts down from the depth cap, so decoding is
    structural and needs no fuel.  The round trip is proved for every node that
    fits the field bounds and the depth cap, and well-formed trees with keys of
    up to 64 bytes are proved to fit the depth cap. *)

From S2P Require Import Prelude Bytes Nibble Trie TrieSpec TrieMap TrieCommit.

(** [num-bigint]'s conversions are parameters. *)
Class BigIntBytes := {
  to_signed_bytes_be : Z -> list byte;
  from_signed_bytes_be : list byte -> Z;
  to_bytes_be : Z -> list byte;
  from_bytes_be : list byte -> Z;
}.

(** Documented behaviour: each pair is inverse, and a number is never written
    as no bytes at all ([to_bytes_be] is used on positive numbers). *)
Class BigIntLaws `{BigIntBytes} : Prop := {
  signed_bytes_inv : forall z, from_signed_bytes_be (to_signed_bytes_be z) = z;
  signed_bytes_nonempty : forall z, to_signed_bytes_be z <> [];
  bytes_inv : forall z, 0 < z -> from_bytes_be (to_bytes_be z) = z;
  bytes_nonempty : forall z, 0 < z -> to_bytes_be z <> [];
}.

Definition TYPE_NIL : byte := x00.
Definition TYPE_LEAF : byte := x01.
Definition TYPE_BRANCH : byte := x02.

Definition MAX_TREE_PREFIX_LEN : Z := 256.
Definition MAX_LENGTH_PREFIXED_FIELD : Z := 16 * 1024 * 1024.
Definition MAX_DESERIALIZE_DEPTH : nat := 128.

(** ** Fields *)

Record Format := mkFormat {
  max_field : Z;
  size_bytes : Z -> result (list byte);
  size_value : list byte -> Z;
}.

Definition write_length_prefixed (data : list byte) : list byte :=
  be_bytes 8 (Z.of_nat (length data)) ++ data.

Definition read_u32 : reader Z := be_val <$> read_exact Serialization 4.
Definition read_i32 : reader Z := as_i32 <$> read_u32.
Definition read_u64 : reader Z := be_val <$> read_exact Serialization 8.
Definition read_i64 : reader Z := as_i64 <$> read_u64.

Definition read_length_prefixed (f : Format) : reader (list byte) :=
  len ← read_u64;
  if max_field f <? len then reader_fail Serialization
  else read_exact Serialization (Z.to_nat len).

Definition write_int_slice (p : list Z) : list byte :=
  be_bytes 4 (Z.of_nat (length p)) ++ concat (be_bytes 4 <$> p).
Definition read_int_slice : reader (list Z) :=
  len ← read_u32;
  if MAX_TREE_PREFIX_LEN <? len then reader_fail Serialization
  else read_many read_i32 (Z.to_nat len).

Definition read_size (f : Format) : reader Z := size_value f <$> read_length_prefixed f.

(** The leaf fields, and the fields after a branch's children. *)
Definition encode_leaf (f : Format) (l : LeafNode) (value : list byte) : result (list byte) :=
  sz ← size_bytes f (leaf_size l);
  mret (write_length_prefixed (leaf_key l) ++ write_length_prefixed value
        ++ write_length_prefixed (leaf_hash_target l) ++ write_length_prefixed (leaf_commitment l)
        ++ write_length_prefixed sz).

Definition decode_leaf (f : Format) : reader LeafNode :=
  k ← read_length_prefixed f;
  v ← read_length_prefixed f;
  h ← read_length_prefixed f;
  c ← read_length_prefixed f;
  sz ← read_size f;
  mret (mkLeaf k v h c sz).

Definition encode_branch_tail (f : Format) (b : branch) : result (list byte) :=
  sz ← size_bytes f (br_size b);
  mret (write_length_prefixed (br_commitment b) ++ write_length_prefixed sz
        ++ be_bytes 8 (br_leaf_count b) ++ be_bytes 4 (br_longest_branch b)).

Definition decode_branch_tail (f : Format) (p : list Z) (cs : list (option node)) (loaded : bool)
    : reader branch :=
  c ← read_length_prefixed f;
  sz ← read_size f;
  lc ← read_i64;
  lb ← read_i32;
  mret (mkBranch p cs c sz (as_usize lc) (as_usize lb) [] loaded).

(** ** Nodes *)

Definition encode_children {A} (enc : A -> result (list byte)) : list (option A) -> result (list byte) :=
  fix go cs :=
    match cs with
    | [] => Ok []
    | None :: cs' => rest ← go cs'; mret (TYPE_NIL :: rest)
    | Some c :: cs' => bs ← enc c; rest ← go cs'; mret (bs ++ rest)
    end.

Fixpoint encode_node (f : Format) (n : node) : result (list byte) :=
  match n with
  | Leaf l => bs ← encode_leaf f l (leaf_value l); mret (TYPE_LEAF :: bs)
  | Branch b =>
      cs ← encode_children (encode_node f) (br_children b);
      tl ← encode_branch_tail f b;
      mret (TYPE_BRANCH :: write_int_slice (br_prefix b) ++ cs ++ tl)
  end.

Definition encode_opt (f : Format) (n : option node) : result (list byte) :=
  match n with None => Ok [TYPE_NIL] | Some n => encode_node f n end.

(** [levels] is [MAX_DESERIALIZE_DEPTH + 1 - depth]. *)
Fixpoint decode_node (f : Format) (levels : nat) : reader (option node) :=
  match levels with
  | O => reader_fail Serialization
  | S below =>
      tag ← read_exact Serialization 1;
      if decide (tag = [TYPE_NIL]) then mret None
      else if decide (tag = [TYPE_LEAF]) then l ← decode_leaf f; mret (Some (Leaf l))
      else if decide (tag = [TYPE_BRANCH]) then
        p ← read_int_slice;
        cs ← read_many (decode_node f below) BRANCH_NODES;
        b ← decode_branch_tail f p cs true;
        mret (Some (Branch b))
      else reader_fail Serialization
  end.

Section Formats.
Context `{BigIntBytes}.

(** ** [serialize.rs] *)

Definition native_format : Format := mkFormat MAX_LENGTH_PREFIXED_FIELD
  (fun z => Ok (to_signed_bytes_be z))
  (fun bs => if decide (bs = []) then 0 else from_signed_bytes_be bs).

Definition serialize_tree (r : option node) : result (list byte) := encode_opt native_format r.
Definition deserialize_tree (data : list byte) : result (option node) :=
  fst <$> decode_node native_format (S MAX_DESERIALIZE_DEPTH) data.

(** One node alone: no children, no leaf value. *)
Definition serialize_node_solo (n : node) : result (list byte) :=
  match n with
  | Leaf l => bs ← encode_leaf native_format l []; mret (TYPE_LEAF :: bs)
  | Branch b =>
      tl ← encode_branch_tail native_format b;
      mret (TYPE_BRANCH :: write_int_slice (br_prefix b) ++ tl)
  end.

Definition decode_node_solo : reader node :=
  tag ← read_exact Serialization 1;
  if decide (tag = [TYPE_LEAF]) then l ← decode_leaf native_format; mret (Leaf l)
  else if decide (tag = [TYPE_BRANCH]) then
    p ← read_int_slice;
    b ← decode_branch_tail native_format p (replicate BRANCH_NODES None) false;
    mret (Branch b)
  else reader_fail Serialization.
Definition deserialize_node_solo (data : list byte) : result node := fst <$> decode_node_solo data.

(** ** [go_format.rs] *)

Definition write_bigint (z : Z) : result (list byte) :=
  if z <? 0 then Err Serialization else if z =? 0 then Ok [] else Ok (to_bytes_be z).
Definition read_bigint (bs : list byte) : Z := if decide (bs = []) then 0 else from_bytes_be bs.

Definition go_format : Format := mkFormat (1024 * 1024 * 1024) write_bigint read_bigint.

Definition write_node (n : option node) : result (list byte) := encode_opt go_format n.
Definition read_node (levels : nat) : reader (option node) := decode_node go_format levels.

Definition serialize_go_tree (r : option node) : result (list byte) := write_node r.
Definition deserialize_go_tree (data : list byte) : result (option node) :=
  fst <$> read_node (S MAX_DESERIALIZE_DEPTH) data.

End Formats.

(** ** Round trip of the fields *)

Definition field_fits (f : Format) (bs : list byte) : Prop := Z.of_nat (length bs) <= max_field f.

(** A size that can be written within the bound and read back. *)
Definition size_fits (f : Format) (z : Z) : Prop :=
  exists bs, size_bytes f z = Ok bs /\ field_fits f bs /\ size_value f bs = z.

Definition format_ok (f : Format) : Prop := 0 <= max_field f < 2 ^ 64.

Lemma read_be_app n v rest : 0 <= v < 256 ^ Z.of_nat n ->
  (be_val <$> read_exact Serialization n) (be_bytes n v ++ rest) = Ok (v, rest).
Proof.
  intros Hv. erewrite reader_fmap_Ok by (apply read_exact_app; by rewrite be_bytes_length).
  by rewrite be_val_bytes, Z.mod_small.
Qed.

Lemma read_be_wrap n v rest :
  (be_val <$> read_exact Serialization n) (be_bytes n v ++ rest) = Ok (v mod 256 ^ Z.of_nat n, rest).
Proof.
  erewrite reader_fmap_Ok by (apply read_exact_app; by rewrite be_bytes_length). by rewrite be_val_bytes.
Qed.

Lemma read_i32_app v rest : is_i32 v -> read_i32 (be_bytes 4 v ++ rest) = Ok (v, rest).
Proof.
  intros Hv. unfold read_i32. erewrite reader_fmap_Ok by apply read_be_wrap.
  change (256 ^ Z.of_nat 4) with (2 ^ 32). unfold as_i32. by rewrite as_signed_id.
Qed.

#[export] Instance i32_round_trip : RoundTrip (be_bytes 4) read_i32 is_i32.
Proof. intros v rest. apply read_i32_app. Qed.

Lemma read_i64_app v rest : is_u64 v -> exists w, read_i64 (be_bytes 8 v ++ rest) = Ok (w, rest) /\ as_usize w = v.
Proof.
  intros Hv. unfold read_i64. eexists. split; [eapply reader_fmap_Ok, read_be_app; exact Hv|].
  unfold as_i64, as_signed, as_usize, wrap_u64. unfold is_u64 in Hv. rewrite (Z.mod_small v) by lia.
  destruct (v <? 2 ^ (64 - 1)); [by apply Z.mod_small|].
  replace (v - 2 ^ 64) with (v + (-1) * 2 ^ 64) by lia. rewrite Z.mod_add by lia. by apply Z.mod_small.
Qed.

Lemma length_prefixed_round_trip f : format_ok f -> RoundTrip write_length_prefixed (read_length_prefixed f) (field_fits f).
Proof.
  intros Hf bs rest Hbs. unfold write_length_prefixed, read_length_prefixed. rewrite <- app_assoc.
  unfold field_fits, format_ok in *. erewrite reader_bind_Ok by (apply read_be_app; change (256 ^ Z.of_nat 8) with (2 ^ 64); lia).
  destruct (Z.ltb_spec (max_field f) (Z.of_nat (length bs))); [lia|].
  rewrite Nat2Z.id. by apply read_exact_app.
Qed.

Lemma read_size_app f z bs rest : format_ok f -> field_fits f bs -> size_value f bs = z ->
  read_size f (write_length_prefixed bs ++ rest) = Ok (z, rest).
Proof.
  intros Hf Hbs <-. unfold read_size. eapply reader_fmap_Ok. by apply length_prefixed_round_trip.
Qed.

Lemma int_slice_round_trip : RoundTrip write_int_slice read_int_slice
  (fun p => Z.of_nat (length p) <= MAX_TREE_PREFIX_LEN /\ Forall is_i32 p).
Proof.
  intros p rest [Hlen HF]. unfold write_int_slice, read_int_slice. rewrite <- app_assoc.
  erewrite reader_bind_Ok by (apply read_be_app; unfold MAX_TREE_PREFIX_LEN in Hlen; cbn; lia).
  destruct (Z.ltb_spec MAX_TREE_PREFIX_LEN (Z.of_nat (length p))); [lia|].
  rewrite Nat2Z.id. by apply (read_many_app (be_bytes 4) read_i32 is_i32).
Qed.

(** ** Round trip of nodes *)

Definition leaf_fits (f : Format) (l : LeafNode) : Prop :=
  field_fits f (leaf_key l) /\ field_fits f (leaf_value l) /\ field_fits f (leaf_hash_target l) /\
  field_fits f (leaf_commitment l) /\ size_fits f (leaf_size l).

Definition branch_fits (f : Format) (b : branch) : Prop :=
  length (br_children b) = BRANCH_NODES /\
  (Z.of_nat (length (br_prefix b)) <= MAX_TREE_PREFIX_LEN /\ Forall is_i32 (br_prefix b)) /\
  field_fits f (br_commitment b) /\ size_fits f (br_size b) /\
  is_u64 (br_leaf_count b) /\ 0 <= br_longest_branch b < 2 ^ 31.

Inductive node_fits (f : Format) : node -> Prop :=
| leaf_node_fits l : leaf_fits f l -> node_fits f (Leaf l)
| branch_node_fits b : branch_fits f b ->
    (forall i c, br_children b !! i = Some (Some c) -> node_fits f c) -> node_fits f (Branch b).

(** Within [levels] of the depth cap; even an empty child is read one level down. *)
Inductive depth_fits : nat -> node -> Prop :=
| leaf_depth_fits k l : depth_fits (S k) (Leaf l)
| branch_depth_fits k b :
    (forall i c, br_children b !! i = Some (Some c) -> depth_fits (S k) c) -> depth_fits (S (S k)) (Branch b).

(** What a decoded node forgets: the walker's bookkeeping. *)
Fixpoint reloaded (n : node) : node :=
  match n with
  | Leaf l => Leaf l
  | Branch b =>
      Branch (mkBranch (br_prefix b) (option_map reloaded <$> br_children b) (br_commitment b) (br_size b)
        (br_leaf_count b) (br_longest_branch b) [] true)
  end.

Lemma encode_leaf_round_trip f l value : format_ok f -> leaf_fits f l -> field_fits f value ->
  exists bs, encode_leaf f l value = Ok bs /\
    forall rest, decode_leaf f (bs ++ rest) =
      Ok (mkLeaf (leaf_key l) value (leaf_hash_target l) (leaf_commitment l) (leaf_size l), rest).
Proof.
  intros Hf (Hk & _ & Hh & Hc & (sz & Hsz & Hszf & Hv)) Hval. unfold encode_leaf. rewrite Hsz, bind_Ok.
  eexists. split; [done|]. intros rest. unfold decode_leaf. rewrite <- !app_assoc.
  do 4 (erewrite reader_bind_Ok by (by apply length_prefixed_round_trip)).
  by erewrite reader_bind_Ok by (by apply read_size_app).
Qed.

Lemma encode_tail_round_trip f b p cs loaded : format_ok f -> branch_fits f b ->
  exists bs, encode_branch_tail f b = Ok bs /\
    forall rest, decode_branch_tail f p cs loaded (bs ++ rest) =
      Ok (mkBranch p cs (br_commitment b) (br_size b) (br_leaf_count b) (br_longest_branch b) [] loaded, rest).
Proof.
  intros Hf (_ & _ & Hc & (sz & Hsz & Hszf & Hv) & Hlc & Hlb). unfold encode_branch_tail. rewrite Hsz, bind_Ok.
  eexists. split; [done|]. intros rest. unfold decode_branch_tail. rewrite <- !app_assoc.
  erewrite reader_bind_Ok by (by apply length_prefixed_round_trip).
  erewrite reader_bind_Ok by (by apply read_size_app).
  destruct (read_i64_app (br_leaf_count b) (be_bytes 4 (br_longest_branch b) ++ rest) Hlc) as (w & Hw & Hwv).
  erewrite reader_bind_Ok by exact Hw.
  erewrite reader_bind_Ok by (apply read_i32_app; unfold is_i32; lia).
  rewrite Hwv. unfold as_usize. rewrite (wrap_u64_id (br_longest_branch b)) by (unfold is_u64; lia). done.
Qed.

(** What encoding promises of one node, read back [levels] from the cap. *)
Definition codes (f : Format) (levels : nat) (n : node) : Prop :=
  exists bs, encode_node f n = Ok bs /\
    forall rest, decode_node f levels (bs ++ rest) = Ok (Some (reloaded n), rest).

Lemma read_tag b bs : (read_exact Serialization 1 : reader _) (b :: bs) = Ok ([b], bs).
Proof. done. Qed.

Lemma decode_nil f k rest : decode_node f (S k) (TYPE_NIL :: rest) = Ok (None, rest).
Proof. done. Qed.

Lemma decode_leaf_node f k bs l rest : decode_leaf f bs = Ok (l, rest) ->
  decode_node f (S k) (TYPE_LEAF :: bs) = Ok (Some (Leaf l), rest).
Proof.
  intros Hl. cbn [decode_node]. erewrite reader_bind_Ok by apply read_tag.
  rewrite decide_False, decide_True by done. by erewrite reader_bind_Ok by exact Hl.
Qed.

Lemma decode_branch_node f k bs p r1 cs r2 b rest : read_int_slice bs = Ok (p, r1) ->
  read_many (decode_node f k) BRANCH_NODES r1 = Ok (cs, r2) ->
  decode_branch_tail f p cs true r2 = Ok (b, rest) ->
  decode_node f (S k) (TYPE_BRANCH :: bs) = Ok (Some (Branch b), rest).
Proof.
  intros Hp Hcs Hb. cbn [decode_node]. erewrite reader_bind_Ok by apply read_tag.
  rewrite !decide_False, decide_True by done. erewrite reader_bind_Ok by exact Hp. erewrite reader_bind_Ok by exact Hcs.
  by erewrite reader_bind_Ok by exact Hb.
Qed.

Lemma encode_children_round_trip f k cs :
  (forall i c, cs !! i = Some (Some c) -> codes f (S k) c) ->
  exists bs, encode_children (encode_node f) cs = Ok bs /\
    forall rest, read_many (decode_node f (S k)) (length cs) (bs ++ rest) = Ok (option_map reloaded <$> cs, rest).
Proof.
  induction cs as [|c cs IH]; intros Hcs; [by exists []|].
  destruct IH as (bs & Hbs & Hrd); [intros i; apply (Hcs (S i))|].
  destruct c as [c|].
  - destruct (Hcs 0%nat c eq_refl) as (cb & Hcb & Hcr). exists (cb ++ bs). split.
    + cbn [encode_children]. by rewrite Hcb, bind_Ok, Hbs, bind_Ok.
    + intros rest. rewrite <- app_assoc. cbn [read_many length].
      erewrite reader_bind_Ok by apply Hcr. by erewrite reader_bind_Ok by apply Hrd.
  - exists (TYPE_NIL :: bs). split.
    + cbn [encode_children]. by rewrite Hbs, bind_Ok.
    + intros rest. cbn [read_many length app]. erewrite reader_bind_Ok by apply decode_nil.
      by erewrite reader_bind_Ok by apply Hrd.
Qed.

Lemma node_round_trip f n : format_ok f -> forall levels, node_fits f n -> depth_fits levels n -> codes f levels n.
Proof.
  intros Hf. induction n as [l|b IH] using node_ind; intros levels Hfit Hdep.
  - inversion Hfit as [? Hl|]; inversion Hdep; subst. pose proof Hl as (_ & Hv & _).
    destruct (encode_leaf_round_trip f l (leaf_value l) Hf Hl Hv) as (bs & Hbs & Hrd).
    exists (TYPE_LEAF :: bs). cbn [encode_node]. rewrite Hbs, bind_Ok. split; [done|].
    intros rest. cbn [app reloaded]. erewrite decode_leaf_node by apply Hrd. by destruct l.
  - inversion Hfit as [|? Hb Hcs]; inversion Hdep as [|k ? Hds]; subst.
    destruct (encode_children_round_trip f k (br_children b)) as (cbs & Hcbs & Hcrd).
    { intros i c Hc. apply IH; [by eapply list_elem_of_lookup_2|by eapply Hcs|by eapply Hds]. }
    pose proof Hb as (Hlen & Hp & _). rewrite Hlen in Hcrd.
    destruct (encode_tail_round_trip f b (br_prefix b) (option_map reloaded <$> br_children b) true Hf Hb) as (tl & Htl & Htrd).
    eexists. cbn [encode_node]. rewrite Hcbs, bind_Ok, Htl, bind_Ok. split; [reflexivity|].
    intros rest. cbn [app reloaded]. rewrite <- !app_assoc.
    eapply decode_branch_node; [by apply int_slice_round_trip|apply Hcrd|apply Htrd].
Qed.

Lemma opt_round_trip f r : format_ok f -> (forall n, r = Some n -> node_fits f n /\ depth_fits (S MAX_DESERIALIZE_DEPTH) n) ->
  exists bs, encode_opt f r = Ok bs /\
    decode_node f (S MAX_DESERIALIZE_DEPTH) bs = Ok (reloaded <$> r, []).
Proof.
  intros Hf Hr. destruct r as [n|]; [|by exists [TYPE_NIL]]. destruct (Hr n eq_refl) as [Hfit Hdep].
  destruct (node_round_trip f n Hf _ Hfit Hdep) as (bs & Hbs & Hrd). exists bs. split; [done|].
  specialize (Hrd []). by rewrite app_nil_r in Hrd.
Qed.

(** ** Well-formed trees fit the depth cap *)

Lemma wf_depth K n : forall p L, wf_node K p n ->
  (forall k, K k -> (length (path k) <= L)%nat) -> (length p <= L)%nat ->
  depth_fits (S (L - length p) + 1) n.
Proof.
  induction n as [l|b IH] using node_ind; intros p L Hwf HL Hp; [rewrite Nat.add_comm; constructor|].
  rewrite Nat.add_comm. cbn [Nat.add]. constructor. intros i c Hc.
  inversion Hwf as [|? ? Hlen HF Htwo Hch]; subst. specialize (Hch i c Hc).
  destruct (wf_nonempty K _ _ Hch) as [l Hl]. destruct (wf_leaves K _ _ _ Hch Hl) as [HKl Hpl%prefix_length].
  specialize (HL _ HKl) as HLl. set (q := p ++ br_prefix b ++ [Z.of_nat i]) in *.
  assert (length p < length q)%nat as Hlt by (unfold q; rewrite !length_app; cbn; lia).
  assert (exists e, S (L - length p) = (S (L - length q) + 1 + e)%nat) as [e ->]
    by (exists (length q - length p - 1)%nat; lia).
  assert (forall m e c, depth_fits m c -> depth_fits (m + e) c) as Hmono.
  { clear. intros m e c Hm. induction Hm as [k l|k b Hc IH]; cbn [Nat.add]; constructor. exact IH. }
  apply Hmono, IH; [by eapply list_elem_of_lookup_2|done|done|lia].
Qed.

Lemma depth_fits_mono m e c : depth_fits m c -> depth_fits (m + e) c.
Proof. induction 1 as [k l|k b Hc IH]; cbn [Nat.add]; constructor. exact IH. Qed.

(** Keys of up to 64 bytes (86 nibbles) stay within the depth cap of 128. *)
Lemma wf_tree_depth K t n : wf_tree K t -> (forall k, K k -> (length k <= 64)%nat) -> root t = Some n ->
  depth_fits (S MAX_DESERIALIZE_DEPTH) n.
Proof.
  intros Hwf HK Hr. unfold wf_tree in Hwf. rewrite Hr in Hwf.
  replace (S MAX_DESERIALIZE_DEPTH) with (S (86 - length (@nil Z)) + 1 + 41)%nat by (unfold MAX_DESERIALIZE_DEPTH; cbn; lia).
  apply depth_fits_mono, (wf_depth K); [done| |cbn; lia]. intros k Hk. rewrite full_path_length.
  specialize (HK k Hk). apply (Nat.Div0.div_le_mono _ 517). lia.
Qed.

(** ** Reloading keeps shape, leaves and commitment *)

Lemma reloaded_equiv n : reloaded n ≡ n.
Proof.
  induction n as [l|b IH] using node_ind; [constructor|]. cbn [reloaded].
  constructor; cbn [br_prefix br_children]; [done|by rewrite length_fmap| |].
  - intros i. unfold slot. rewrite list_lookup_fmap. destruct (br_children b !! i) as [[c|]|]; cbn; [|done..].
    by split; intros _; eexists.
  - intros i c1 c2 H1%slot_Some H2%slot_Some. rewrite list_lookup_fmap, H2 in H1. injection H1 as <-.
    apply IH. by eapply list_elem_of_lookup_2.
Qed.

Section Sizes.
Context `{BigIntBytes} `{!BigIntLaws}.

Lemma native_format_ok : format_ok native_format.
Proof. unfold format_ok. cbn. unfold MAX_LENGTH_PREFIXED_FIELD. lia. Qed.

Lemma go_format_ok : format_ok go_format.
Proof. unfold format_ok. cbn. lia. Qed.

Lemma native_size_fits z : Z.of_nat (length (to_signed_bytes_be z)) <= MAX_LENGTH_PREFIXED_FIELD ->
  size_fits native_format z.
Proof.
  intros Hz. exists (to_signed_bytes_be z). split_and!; [done|done|]. cbn.
  rewrite decide_False by apply signed_bytes_nonempty. apply signed_bytes_inv.
Qed.

Lemma go_size_fits z : 0 <= z -> Z.of_nat (length (to_bytes_be z)) <= 1024 * 1024 * 1024 -> size_fits go_format z.
Proof.
  intros Hz Hlen. unfold size_fits. cbn. unfold write_bigint, read_bigint. destruct (Z.ltb_spec z 0); [lia|].
  destruct (Z.eqb_spec z 0) as [->|Hne].
  - exists []. split_and!; [done|unfold field_fits; cbn; lia|done].
  - exists (to_bytes_be z). split_and!; [done|done|]. rewrite decide_False by (apply bytes_nonempty; lia).
    apply bytes_inv. lia.
Qed.

End Sizes.

(** ** Decoding untrusted bytes *)

(** Every tree a decoder returns is bounded: within the depth cap, 64 slots per
    branch, prefixes of at most 256 elements. *)
Inductive node_bounded : node -> Prop :=
| leaf_bounded l : node_bounded (Leaf l)
| branch_bounded b :
    length (br_children b) = BRANCH_NODES -> Z.of_nat (length (br_prefix b)) <= MAX_TREE_PREFIX_LEN ->
    is_u64 (br_leaf_count b) -> is_u64 (br_longest_branch b) ->
    (forall i c, br_children b !! i = Some (Some c) -> node_bounded c) -> node_bounded (Branch b).

Lemma read_int_slice_bound r p r' : read_int_slice r = Ok (p, r') -> Z.of_nat (length p) <= MAX_TREE_PREFIX_LEN.
Proof.
  intros (len & r1 & Hlen & Hp)%reader_bind_inv. destruct (Z.ltb_spec MAX_TREE_PREFIX_LEN len); [done|].
  apply read_many_inv in Hp as [-> _]. unfold MAX_TREE_PREFIX_LEN in *. lia.
Qed.

Lemma decode_tail_inv f p cs loaded r b r' : decode_branch_tail f p cs loaded r = Ok (b, r') ->
  br_prefix b = p /\ br_children b = cs /\ is_u64 (br_leaf_count b) /\ is_u64 (br_longest_branch b).
Proof.
  intros (c & ? & _ & (sz & ? & _ & (lc & ? & _ & (lb & ? & _ & [= <- <-])%reader_bind_inv)%reader_bind_inv)
    %reader_bind_inv)%reader_bind_inv.
  cbn. split_and!; try done; apply wrap_u64_range.
Qed.

Lemma decode_bounded f levels : forall data n rest, decode_node f levels data = Ok (Some n, rest) ->
  depth_fits levels n /\ node_bounded n.
Proof.
  induction levels as [|k IH]; intros data n rest; cbn [decode_node]; [done|].
  intros (tag & r & _ & Hn)%reader_bind_inv. destruct (decide _); [done|]. destruct (decide _).
  { apply reader_bind_inv in Hn as (l & r1 & _ & [= <- <-]). split; constructor. }
  destruct (decide _); [|done].
  apply reader_bind_inv in Hn as (p & r1 & Hp & (cs & r2 & Hcs & (b & r3 & Hb & [= <- <-])%reader_bind_inv)%reader_bind_inv).
  apply read_int_slice_bound in Hp. apply decode_tail_inv in Hb as (Hbp & Hbc & Hlc & Hlb).
  apply read_many_inv in Hcs as [Hlen Hcs]. destruct k as [|k]; [|split].
  - exfalso. destruct cs as [|c cs]; [done|]. destruct (Hcs 0%nat c eq_refl) as (? & ? & ?). done.
  - constructor. intros i c Hc. rewrite Hbc in Hc. apply Hcs in Hc as (r1' & r2' & Hc). by eapply IH.
  - constructor; rewrite ?Hbp, ?Hbc; try done. intros i c Hc. apply Hcs in Hc as (r1' & r2' & Hc). by eapply IH.
Qed.

(** No input makes a decoder panic. *)
Lemma read_length_prefixed_safe f : reader_safe (read_length_prefixed f).
Proof. unfold read_length_prefixed, read_u64. auto with readers. Qed.
#[export] Hint Resolve read_length_prefixed_safe : readers.

Lemma read_numbers_safe : reader_safe read_u32 /\ reader_safe read_i32 /\ reader_safe read_u64 /\ reader_safe read_i64.
Proof. unfold read_i32, read_i64, read_u32, read_u64. split_and!; auto with readers. Qed.

Lemma decode_leaf_safe f : reader_safe (decode_leaf f).
Proof. unfold decode_leaf, read_size. auto 10 with readers. Qed.

Lemma read_int_slice_safe : reader_safe read_int_slice.
Proof. unfold read_int_slice. pose proof read_numbers_safe as (? & ? & _). auto with readers. Qed.

Lemma decode_tail_safe f p cs loaded : reader_safe (decode_branch_tail f p cs loaded).
Proof.
  unfold decode_branch_tail, read_size. pose proof read_numbers_safe as (_ & ? & _ & ?). auto 10 with readers.
Qed.
#[export] Hint Resolve decode_leaf_safe read_int_slice_safe decode_tail_safe : readers.

Lemma decode_node_safe f levels : reader_safe (decode_node f levels).
Proof.
  induction levels as [|k IH]; cbn [decode_node]; [apply safe_fail|].
  apply safe_bind; [apply safe_exact|]. intros tag.
  apply safe_decide; [apply safe_ret|]. apply safe_decide; [auto with readers|].
  apply safe_decide; [|apply safe_fail]. auto 10 with readers.
Qed.

(** ** A concrete [BigInt] encoding *)

(** Two's complement in enough bytes for the sign, and the magnitude. *)
Definition sample_width (z : Z) : nat := Z.to_nat (Z.log2 (Z.abs z) / 8 + 2).
Definition sample_bigint : BigIntBytes := {|
  to_signed_bytes_be z := be_bytes (sample_width z) z;
  from_signed_bytes_be bs := as_signed (8 * Z.of_nat (length bs)) (be_val bs);
  to_bytes_be z := be_bytes (sample_width z) z;
  from_bytes_be bs := be_val bs;
|}.

Lemma sample_width_bound z : 2 * Z.abs z < 256 ^ Z.of_nat (sample_width z).
Proof.
  unfold sample_width. pose proof (Z.log2_nonneg (Z.abs z)) as H0. set (n := Z.log2 (Z.abs z)) in *.
  pose proof (Z.div_mod n 8 ltac:(lia)). pose proof (Z.mod_pos_bound n 8 ltac:(lia)).
  rewrite Z2Nat.id by lia. change 256 with (2 ^ 8). rewrite <- Z.pow_mul_r by lia.
  destruct (decide (z = 0)) as [->|Hz]; [cbn; lia|].
  pose proof (Z.log2_spec (Z.abs z) ltac:(lia)) as [_ Hlt]. fold n in Hlt. rewrite Z.pow_succ_r in Hlt by lia.
  assert (2 ^ (n + 2) <= 2 ^ (8 * (n / 8 + 2))) by (apply Z.pow_le_mono_r; lia).
  rewrite Z.pow_add_r in * by lia. lia.
Qed.

Lemma sample_bigint_laws : @BigIntLaws sample_bigint.
Proof.
  split; cbn.
  - intros z. rewrite be_val_bytes, be_bytes_length. pose proof (sample_width_bound z) as Hb.
    assert (0 < Z.of_nat (sample_width z)) as Hw by (unfold sample_width; pose proof (Z.log2_nonneg (Z.abs z));
      pose proof (Z.div_pos (Z.log2 (Z.abs z)) 8); lia).
    change 256 with (2 ^ 8) in *. rewrite <- Z.pow_mul_r in * by lia. apply as_signed_id; [lia|].
    rewrite <- (Z.succ_pred (8 * Z.of_nat (sample_width z))) in Hb. rewrite Z.pow_succ_r in Hb by lia.
    replace (8 * Z.of_nat (sample_width z) - 1) with (Z.pred (8 * Z.of_nat (sample_width z))) by lia. lia.
  - intros z E. apply (f_equal length) in E. rewrite be_bytes_length in E. unfold sample_width in E.
    pose proof (Z.log2_nonneg (Z.abs z)). pose proof (Z.div_pos (Z.log2 (Z.abs z)) 8). cbn in E. lia.
  - intros z Hz. rewrite be_val_bytes. apply Z.mod_small. pose proof (sample_width_bound z). lia.
  - intros z _ E. apply (f_equal length) in E. rewrite be_bytes_length in E. unfold sample_width in E.
    pose proof (Z.log2_nonneg (Z.abs z)). pose proof (Z.div_pos (Z.log2 (Z.abs z)) 8). cbn in E. lia.
Qed.

(** ** What serialization promises *)

(** The same bounds as a computation. *)
Definition field_fits_b (f : Format) (bs : list byte) : bool := Z.of_nat (length bs) <=? max_field f.
Definition size_fits_b (f : Format) (z : Z) : bool :=
  match size_bytes f z with Ok bs => field_fits_b f bs && (size_value f bs =? z) | _ => false end.
Definition leaf_fits_b (f : Format) (l : LeafNode) : bool :=
  field_fits_b f (leaf_key l) && field_fits_b f (leaf_value l) && field_fits_b f (leaf_hash_target l)
  && field_fits_b f (leaf_commitment l) && size_fits_b f (leaf_size l).
Definition branch_fits_b (f : Format) (b : branch) : bool :=
  (length (br_children b) =? BRANCH_NODES)%nat && (Z.of_nat (length (br_prefix b)) <=? MAX_TREE_PREFIX_LEN)
  && forallb (fun x => (- 2 ^ 31 <=? x) && (x <? 2 ^ 31)) (br_prefix b) && field_fits_b f (br_commitment b)
  && size_fits_b f (br_size b) && (0 <=? br_leaf_count b) && (br_leaf_count b <? 2 ^ 64)
  && (0 <=? br_longest_branch b) && (br_longest_branch b <? 2 ^ 31).
Definition all_children {A} (p : A -> bool) : list (option A) -> bool :=
  fix go cs := match cs with [] => true | Some c :: cs' => p c && go cs' | None :: cs' => go cs' end.
Fixpoint node_fits_b (f : Format) (n : node) : bool :=
  match n with
  | Leaf l => leaf_fits_b f l
  | Branch b => branch_fits_b f b && all_children (node_fits_b f) (br_children b)
  end.
Definition tree_fits_b (f : Format) (t : VectorCommitmentTree) : bool :=
  match root t with None => true | Some n => node_fits_b f n end.

Lemma field_fits_sound f bs : field_fits_b f bs = true -> field_fits f bs.
Proof. unfold field_fits_b, field_fits. lia. Qed.

Lemma size_fits_sound f z : size_fits_b f z = true -> size_fits f z.
Proof.
  unfold size_fits_b, size_fits. destruct (size_bytes f z) as [bs| |]; [|done..].
  intros [Hf Hv]%andb_true_iff. exists bs. split_and!; [done|by apply field_fits_sound|lia].
Qed.

Lemma all_children_spec {A} (p : A -> bool) cs i c : all_children p cs = true -> cs !! i = Some (Some c) -> p c = true.
Proof.
  revert i. induction cs as [|[c'|] cs IH]; intros [|i] H Hi; try done; cbn in H.
  - apply andb_true_iff in H as [H _]. by injection Hi as <-.
  - apply andb_true_iff in H as [_ H]. by eapply IH.
  - by eapply IH.
Qed.

Lemma node_fits_sound f n : node_fits_b f n = true -> node_fits f n.
Proof.
  induction n as [l|b IH] using node_ind; cbn [node_fits_b].
  - unfold leaf_fits_b. rewrite !andb_true_iff. intros [[[[? ?] ?] ?] ?]. constructor.
    split_and!; (by apply field_fits_sound) || by apply size_fits_sound.
  - unfold branch_fits_b. rewrite !andb_true_iff. intros [[[[[[[[[H1 H2] H3] H4] H5] H6] H7] H8] H9] H10].
    constructor.
    + split_and!; [by apply Nat.eqb_eq|lia| |by apply field_fits_sound|by apply size_fits_sound|unfold is_u64; lia..].
      apply Forall_forall. intros x Hx. apply list_elem_of_In in Hx.
      eapply forallb_forall in H3; [|exact Hx]. unfold is_i32. lia.
    + intros i c Hc. apply IH; [by eapply list_elem_of_lookup_2|]. by eapply all_children_spec.
Qed.

Lemma tree_fits_sound f t n : tree_fits_b f t = true -> root t = Some n -> node_fits f n.
Proof. unfold tree_fits_b. intros Hf Hr. rewrite Hr in Hf. by apply node_fits_sound. Qed.

(** The blob format round-trips: a well-formed tree over keys of up to 64
    bytes whose fields are within the 16 MiB bound is written, and reading it
    back gives the same tree (with the lazy walker's bookkeeping reset): the
    depth cap is never hit. *)
Theorem serialize_round_trip `{BigIntBytes} `{!BigIntLaws} (K : key -> Prop) t :
  wf_tree K t -> (forall k, K k -> (length k <= 64)%nat) -> tree_fits_b native_format t = true ->
  exists bs, serialize_tree (root t) = Ok bs /\ deserialize_tree bs = Ok (reloaded <$> root t).
Proof.
  intros Hwf HK Hfit. destruct (opt_round_trip native_format (root t)) as (bs & Hbs & Hrd).
  - apply native_format_ok.
  - intros n Hn. split; [by eapply tree_fits_sound|by eapply wf_tree_depth].
  - exists bs. split; [done|]. unfold deserialize_tree. by rewrite Hrd.
Qed.

Lemma serialize_round_trip_witness :
  let t := @run_ops sample_sha2 sample_ops in
  exists bs, @serialize_tree sample_bigint (root t) = Ok bs /\
    @deserialize_tree sample_bigint bs = Ok (reloaded <$> root t).
Proof.
  intros t. apply (@serialize_round_trip sample_bigint sample_bigint_laws sample_key).
  - apply (@run_ops_rep sample_sha2 sample_key _ sample_ops), sample_ops_ok.
  - unfold sample_key. lia.
  - vm_compute. reflexivity.
Defined.



(** C38. Decoding untrusted bytes is safe in either format: no input panics,
    and a tree that is returned is bounded (nesting within the depth cap, 64
    slots per branch, prefixes of at most 256 elements, counters in range). *)
Theorem decode_untrusted (f : Format) (data : list byte) :
  match decode_node f (S MAX_DESERIALIZE_DEPTH) data with
  | Ok (Some n, _) => depth_fits (S MAX_DESERIALIZE_DEPTH) n /\ node_bounded n
  | Ok (None, _) => True
  | Err _ => True
  | Panic => False
  end.
Proof.
  pose proof (decode_node_safe f (S MAX_DESERIALIZE_DEPTH) data) as Hs.
  destruct (decode_node f (S MAX_DESERIALIZE_DEPTH) data) as [[[n|] rest]| |] eqn:E; try done.
  by eapply decode_bounded.
Qed.
