(* ===== verification/VertexCommit.v ===== *)
(** * Vertex commitments and the per-node format
      ([src/crates/quil-tries/src/vertex_commit.rs], the solo node format of
      [serialize.rs])

    A vertex is stored as the blob of its field tree; its commitment is the
    SHA-256 fold of the root that tree commits to under the SHA-256 prover.
    Reading a blob back forgets nothing that is committed, so the commitment is
    a function of the vertex's fields. *)

From S2P Require Import Prelude Bytes Nibble Trie TrieSpec TrieMap TrieCommit TrieCodec.

Definition VERTEX_LEAF_LEN : nat := 32 + 8.

Section Vertex.
Context `{Sha2} `{BigIntBytes}.

Definition ShaInclusionProver : InclusionProver := {|
  commit_parallel_threshold := 256;
  commit_parallel_budget := 8;
  commit_raw data _ := Ok (Sha256 data);
  prove_multiple_raw _ _ _ _ := Err Internal;
  verify_multiple _ _ _ _ _ _ := false;
|}.

Definition vertex_commitment (threads : Z) (blob : list byte) : result (list byte) :=
  if decide (blob = []) then Ok (replicate 32 x00)
  else
    match deserialize_go_tree blob with
    | Ok (Some r) =>
        Ok (Sha256 (@tree_commit _ ShaInclusionProver threads (mkTree (Some r))).2)
    | Panic => Panic
    | _ => Ok (Sha256 blob)
    end.

Definition vertex_leaf_value (threads : Z) (blob : list byte) : result (list byte) :=
  c ← vertex_commitment threads blob;
  mret (c ++ be_bytes 8 (Z.of_nat (length blob))).

Definition sized_tombstone_leaf_value (threads : Z) (size : Z) : result (list byte) :=
  v ← vertex_leaf_value threads [];
  mret (take 32 v ++ be_bytes 8 size).

Definition split_vertex_leaf (value : list byte) : option (list byte * Z) :=
  if (length value <? 32)%nat then None
  else
    let commitment := take 32 value in
    let size := if (VERTEX_LEAF_LEN <=? length value)%nat then be_val (take 8 (drop 32 value)) else 0 in
    Some (commitment, size).

Lemma split_leaf_app c size : length c = 32%nat -> is_u64 size -> split_vertex_leaf (c ++ be_bytes 8 size) = Some (c, size).
Proof.
  intros Hc Hs. unfold split_vertex_leaf, VERTEX_LEAF_LEN. rewrite length_app, be_bytes_length, Hc.
  destruct (Nat.ltb_spec (32 + 8) 32); [lia|]. destruct (Nat.leb_spec (32 + 8) (32 + 8)); [|lia].
  rewrite take_app_length' by done. rewrite drop_app_length' by done.
  rewrite take_ge by (rewrite be_bytes_length; lia). rewrite be_val_bytes. by rewrite Z.mod_small by exact Hs.
Qed.

Lemma vertex_commitment_length `{!Sha2Laws} threads blob c : vertex_commitment threads blob = Ok c -> length c = 32%nat.
Proof.
  unfold vertex_commitment. destruct (decide (blob = [])); [by intros [= <-]|].
  destruct (deserialize_go_tree blob) as [[r|]| |]; intros [= <-]; apply Sha256_length.
Qed.

Lemma vertex_commitment_total threads blob : exists c, vertex_commitment threads blob = Ok c.
Proof.
  unfold vertex_commitment. destruct (decide (blob = [])); [eauto|].
  pose proof (decode_node_safe go_format (S MAX_DESERIALIZE_DEPTH) blob) as Hs.
  unfold deserialize_go_tree, read_node. destruct (decode_node _ _ blob) as [[[r|] ?]| |]; cbn; eauto. done.
Qed.

End Vertex.

(** ** The per-node (solo) format *)

(** What a solo record keeps: a leaf without its value, a branch without its
    children. *)
Definition solo (n : node) : node :=
  match n with
  | Leaf l => Leaf (mkLeaf (leaf_key l) [] (leaf_hash_target l) (leaf_commitment l) (leaf_size l))
  | Branch b => Branch (mkBranch (br_prefix b) (replicate BRANCH_NODES None) (br_commitment b) (br_size b)
      (br_leaf_count b) (br_longest_branch b) [] false)
  end.

Lemma solo_aux `{BigIntBytes} n : node_fits native_format n ->
  exists bs, serialize_node_solo n = Ok bs /\ deserialize_node_solo bs = Ok (solo n).
Proof.
  intros Hfit. pose proof native_format_ok as Hf. unfold deserialize_node_solo. destruct n as [l|b].
  - inversion Hfit as [? Hl|]; subst.
    destruct (encode_leaf_round_trip native_format l [] Hf Hl) as (bs & Hbs & Hrd); [done|].
    exists (TYPE_LEAF :: bs). cbn [serialize_node_solo]. rewrite Hbs, bind_Ok. split; [done|].
    specialize (Hrd []). rewrite app_nil_r in Hrd. unfold decode_node_solo.
    erewrite reader_bind_Ok by apply read_tag. rewrite decide_True by done.
    by erewrite reader_bind_Ok by exact Hrd.
  - inversion Hfit as [|? Hb _]; subst. pose proof Hb as (_ & Hp & _).
    destruct (encode_tail_round_trip native_format b (br_prefix b) (replicate BRANCH_NODES None) false Hf Hb) as (bs & Hbs & Hrd).
    exists (TYPE_BRANCH :: write_int_slice (br_prefix b) ++ bs). cbn [serialize_node_solo].
    rewrite Hbs, bind_Ok. split; [done|]. specialize (Hrd []). rewrite app_nil_r in Hrd. unfold decode_node_solo.
    erewrite reader_bind_Ok by apply read_tag. rewrite decide_False, decide_True by done.
    erewrite reader_bind_Ok by (by apply int_slice_round_trip). by erewrite reader_bind_Ok by exact Hrd.
Qed.

(** ** A serialized tree's commitment *)

Lemma encode_nonempty f r bs : encode_opt f r = Ok bs -> bs <> [].
Proof.
  destruct r as [[l|b]|]; cbn; [intros (? & _ & [= <-])%bind_inv; done| |by intros [= <-]].
  intros (? & _ & (? & _ & [= <-])%bind_inv)%bind_inv. done.
Qed.

Lemma commit_reloaded `{Sha2} `{InclusionProver} threads n :
  (tree_commit threads (mkTree (Some (reloaded n)))).2 = (tree_commit threads (mkTree (Some n))).2.
Proof. rewrite !tree_commit_root, !tree_commit_serial. apply commit_serial_equiv, reloaded_equiv. Qed.

Lemma vertex_commitment_root `{Sha2} `{BigIntBytes} K threads t bs : wf_tree K t ->
  (forall k, K k -> (length k <= 64)%nat) -> tree_fits_b go_format t = true -> serialize_go_tree (root t) = Ok bs ->
  vertex_commitment threads bs = Ok (Sha256
    match root t with
    | Some n => (@tree_commit _ ShaInclusionProver threads (mkTree (Some n))).2
    | None => bs
    end).
Proof.
  intros Hwf HK Hfit Hs. destruct (opt_round_trip go_format (root t)) as (bs' & Hbs & Hrd).
  { apply go_format_ok. }
  { intros n Hn. split; [by eapply tree_fits_sound|by eapply wf_tree_depth]. }
  unfold serialize_go_tree, write_node in Hs. rewrite Hbs in Hs. injection Hs as ->.
  unfold vertex_commitment. rewrite decide_False by (by eapply encode_nonempty).
  unfold deserialize_go_tree, read_node. rewrite Hrd.
  destruct (root t) as [n|]; [|done]. cbn [fmap result_fmap option_fmap option_map fst]. by rewrite commit_reloaded.
Qed.

(** ** What vertex commitments promise *)


(** The shard-leaf encoding round-trips: splitting a vertex leaf gives
    back the commitment and the blob length, and splitting a sized tombstone
    gives the all-zero commitment and its size. *)
Theorem vertex_leaf_round_trip `{Sha2} `{!Sha2Laws} `{BigIntBytes} threads (blob : list byte) (size : Z) :
  is_u64 (Z.of_nat (length blob)) -> is_u64 size ->
  (exists c v, vertex_commitment threads blob = Ok c /\ vertex_leaf_value threads blob = Ok v /\
     split_vertex_leaf v = Some (c, Z.of_nat (length blob))) /\
  (exists v, sized_tombstone_leaf_value threads size = Ok v /\
     split_vertex_leaf v = Some (replicate 32 x00, size)).
Proof.
  intros Hb Hs. split.
  - destruct (vertex_commitment_total threads blob) as [c Hc]. exists c, (c ++ be_bytes 8 (Z.of_nat (length blob))).
    unfold vertex_leaf_value. rewrite Hc. split_and!; [done|done|].
    apply split_leaf_app; [by eapply vertex_commitment_length|done].
  - eexists. split; [reflexivity|]. by apply split_leaf_app.
Qed.

Lemma vertex_leaf_round_trip_witness :
  (exists c v, @vertex_commitment sample_sha2 sample_bigint 1 [x01; x02] = Ok c /\
     @vertex_leaf_value sample_sha2 sample_bigint 1 [x01; x02] = Ok v /\ split_vertex_leaf v = Some (c, 2)) /\
  (exists v, @sized_tombstone_leaf_value sample_sha2 sample_bigint 1 77 = Ok v /\
     split_vertex_leaf v = Some (replicate 32 x00, 77)).
Proof.
  apply (@vertex_leaf_round_trip sample_sha2 sample_sha2_laws sample_bigint 1 [x01; x02] 77); vm_compute; split; congruence.
Defined.


(** The per-node records of the lazy store round-trip: what is read back is
    the node without its children (or without its leaf value), marked as not
    fully loaded. *)
Theorem solo_round_trip `{BigIntBytes} n : node_fits_b native_format n = true ->
  exists bs, serialize_node_solo n = Ok bs /\ deserialize_node_solo bs = Ok (solo n).
Proof. intros Hn. by apply solo_aux, node_fits_sound. Qed.

Lemma solo_round_trip_witness :
  let n := Branch (mkBranch [3; 63] (replicate 64 None) [x01] (-5) 7 2 [1] true) in
  exists bs, @serialize_node_solo sample_bigint n = Ok bs /\ @deserialize_node_solo sample_bigint bs = Ok (solo n).
Proof. intros n. apply (@solo_round_trip sample_bigint n). vm_compute. reflexivity. Defined.
