(* ===== verification/Allocation.v ===== *)
(** * Prover allocations and their effective status
      ([src/crates/quil-types/src/consensus.rs], [reward_ring.rs])

    An allocation is a record of frame numbers and a status byte; what it means
    at a frame is computed ([effective_status]) from the epoch of the frame.
    The process-wide epoch length is the argument [len]; frame numbers are
    [u64] and additions wrap as in a release build. *)

From stdpp Require Import sorting.
From S2P Require Import Prelude Bytes.

#[local] Open Scope Z_scope.

Inductive ProverStatus :=
| PsUnknown | PsJoining | PsActive | PsPaused | PsLeaving | PsRejected | PsKicked | PsHistoric.

#[export] Instance ProverStatus_eq_dec : EqDecision ProverStatus.
Proof. solve_decision. Defined.

Record ProverAllocationInfo := mkAllocation {
  status : ProverStatus;
  confirmation_filter : list byte;
  rejection_filter : list byte;
  join_frame_number : Z;
  leave_frame_number : Z;
  pause_frame_number : Z;
  resume_frame_number : Z;
  kick_frame_number : Z;
  join_confirm_frame_number : Z;
  join_reject_frame_number : Z;
  leave_confirm_frame_number : Z;
  leave_reject_frame_number : Z;
  last_active_frame_number : Z;
  last_signed_frame_number : Z;
  epoch : Z;
  ring : Z;
  vertex_address : list byte;
}.

Definition ALLOCATION_GRACE_FRAMES : Z := 720.
Definition EPOCH_LENGTH_FRAMES : Z := 720.
Definition TESTNET_EPOCH_LENGTH_FRAMES : Z := 60.

(** The effective epoch length, from the override ([0]: the default). *)
Definition epoch_length_frames (override : Z) : Z := if override =? 0 then EPOCH_LENGTH_FRAMES else override.
(** The override [init_epoch_length_for_network] stores. *)
Definition init_epoch_length_for_network (network : Z) : Z :=
  if network =? 0 then 0 else TESTNET_EPOCH_LENGTH_FRAMES.

Definition epoch_for_frame (len frame_number : Z) : Z := frame_number / len.

(** ** Effective status *)

Inductive EffectiveStatus :=
| EsJoining | EsActive | EsPaused | EsLeaving | EsExpiredJoining | EsExpiredLeaving | EsExpiredEpoch
| EsRejected | EsKicked | EsHistoric | EsUnknown.

#[export] Instance EffectiveStatus_eq_dec : EqDecision EffectiveStatus.
Proof. solve_decision. Defined.

Definition es_is_live (s : EffectiveStatus) : bool :=
  match s with EsJoining | EsActive | EsPaused | EsLeaving => true | _ => false end.
Definition es_is_allocated (s : EffectiveStatus) : bool :=
  match s with EsJoining | EsActive => true | _ => false end.
Definition es_is_expired (s : EffectiveStatus) : bool :=
  match s with EsExpiredJoining | EsExpiredLeaving | EsExpiredEpoch => true | _ => false end.
Definition es_is_terminal (s : EffectiveStatus) : bool :=
  match s with EsRejected | EsKicked | EsExpiredJoining | EsExpiredLeaving => true | _ => false end.

Section Status.
Context (len : Z).

Definition next_epoch (frame : Z) : Z := wrap_u64 (epoch_for_frame len frame + 1).

Definition effective_status (a : ProverAllocationInfo) (current_frame : Z) : EffectiveStatus :=
  let current_epoch := epoch_for_frame len current_frame in
  match status a with
  | PsJoining =>
      if (0 <? join_frame_number a) && (next_epoch (join_frame_number a) <? current_epoch)
      then EsExpiredJoining else EsJoining
  | PsActive =>
      if decide (confirmation_filter a = []) then EsActive
      else if (0 <? join_confirm_frame_number a)
              && (current_epoch <? next_epoch (join_confirm_frame_number a)) then EsJoining
      else if current_epoch <=? epoch a then EsActive else EsExpiredEpoch
  | PsPaused => EsPaused
  | PsLeaving =>
      if 0 <? leave_confirm_frame_number a then
        if current_epoch <? next_epoch (leave_confirm_frame_number a) then EsLeaving else EsExpiredLeaving
      else if (0 <? leave_frame_number a) && (next_epoch (leave_frame_number a) <? current_epoch)
      then EsExpiredLeaving else EsLeaving
  | PsRejected => EsRejected
  | PsKicked => EsKicked
  | PsHistoric => EsHistoric
  | PsUnknown => EsUnknown
  end.

Definition is_live (a : ProverAllocationInfo) (frame : Z) : bool := es_is_live (effective_status a frame).
Definition is_allocated (a : ProverAllocationInfo) (frame : Z) : bool := es_is_allocated (effective_status a frame).

Inductive AllocationPhase :=
| PhJoining | PhActivating | PhActive | PhPaused | PhLeaving | PhDeparting.

Definition phase (a : ProverAllocationInfo) (frame : Z) : option AllocationPhase :=
  match effective_status a frame with
  | EsJoining => Some (if 0 <? join_confirm_frame_number a then PhActivating else PhJoining)
  | EsActive => Some PhActive
  | EsPaused => Some PhPaused
  | EsLeaving => Some (if 0 <? leave_confirm_frame_number a then PhDeparting else PhLeaving)
  | _ => None
  end.

Record PhaseCounts := mkCounts {
  pc_joining : Z; pc_activating : Z; pc_active : Z; pc_paused : Z; pc_leaving : Z; pc_departing : Z;
}.

Definition counts_add (c : PhaseCounts) (p : AllocationPhase) : PhaseCounts :=
  let '(mkCounts j ac a pa l d) := c in
  match p with
  | PhJoining => mkCounts (wrap_u32 (j + 1)) ac a pa l d
  | PhActivating => mkCounts j (wrap_u32 (ac + 1)) a pa l d
  | PhActive => mkCounts j ac (wrap_u32 (a + 1)) pa l d
  | PhPaused => mkCounts j ac a (wrap_u32 (pa + 1)) l d
  | PhLeaving => mkCounts j ac a pa (wrap_u32 (l + 1)) d
  | PhDeparting => mkCounts j ac a pa l (wrap_u32 (d + 1))
  end.

(** A shard's provers as lifecycle planning counts them. *)
Record LifecycleMembers := mkMembers {
  lm_active : list (list byte);
  lm_activating : list (list byte);
  lm_leaving : list (list byte);
}.

Definition members_add (ms : LifecycleMembers) (address : list byte) (a : ProverAllocationInfo) (frame : Z)
    : LifecycleMembers :=
  match effective_status a frame with
  | EsActive => mkMembers (lm_active ms ++ [address]) (lm_activating ms) (lm_leaving ms)
  | EsJoining =>
      if 0 <? join_confirm_frame_number a
      then mkMembers (lm_active ms) (lm_activating ms ++ [address]) (lm_leaving ms) else ms
  | EsLeaving =>
      if leave_confirm_frame_number a =? 0
      then mkMembers (lm_active ms) (lm_activating ms) (lm_leaving ms ++ [address]) else ms
  | _ => ms
  end.

Definition staying (ms : LifecycleMembers) : nat := length (lm_active ms) + length (lm_activating ms).

End Status.

(** ** Committee handoff policy *)

Inductive LegacyHistory := Migrate | Discard.

Record CommitteeHandoffPolicy := mkPolicy {
  activation_frame : Z;
  chain_id : list byte;
  legacy_history : LegacyHistory;
  membership_boundary_frame : Z;
  first_session_boundary_frame : Z;
}.

Definition MAINNET_COMMITTEE_HANDOFF_FRAME : Z := 861840.
Definition MAINNET_MEMBERSHIP_BOUNDARY_FRAME : Z := 862560.
Definition MAINNET_FIRST_SESSION_BOUNDARY_FRAME : Z := 864000.
Definition MAINNET_GLOBAL_COMMITTEE_SUCCESSION_FRAME : Z := 907920.

Definition committee_handoff_active (policy : option CommitteeHandoffPolicy) (frame : Z) : bool :=
  match policy with Some p => activation_frame p <=? frame | None => false end.

Definition handoff_label : list byte := String.list_byte_of_string "quil/app-handoff/chain/v1".
Definition committee_handoff_chain_id (network : Z) : list byte :=
  <[31%nat := byte_of network]> (handoff_label ++ replicate (32 - length handoff_label) x00).

(** [str::parse::<u64>]: an optional plus sign and digits, within [u64]. *)
Definition digit (b : byte) : option Z :=
  let v := byte_val b in if (48 <=? v) && (v <=? 57) then Some (v - 48) else None.
Fixpoint parse_digits (bs : list byte) (acc : Z) : option Z :=
  match bs with
  | [] => Some acc
  | b :: bs' => d ← digit b; let acc' := acc * 10 + d in if acc' <=? u64_max then parse_digits bs' acc' else None
  end.
Definition parse_u64 (s : list byte) : option Z :=
  let ds := match s with x2b :: s' => s' | _ => s end in
  match ds with [] => None | _ => parse_digits ds 0 end.

(** The environment lookup is the argument [env]. *)
Definition committee_handoff_policy_for_network (network : Z) (env : string -> option (list byte))
    : option CommitteeHandoffPolicy :=
  if network =? 0 then
    Some (mkPolicy MAINNET_COMMITTEE_HANDOFF_FRAME (committee_handoff_chain_id network) Discard
      MAINNET_MEMBERSHIP_BOUNDARY_FRAME MAINNET_FIRST_SESSION_BOUNDARY_FRAME)
  else
    activation ← env "QUIL_COMMITTEE_HANDOFF_FRAME"%string ≫= parse_u64;
    let discard := bool_decide (env "QUIL_COMMITTEE_HANDOFF_DISCARD_LEGACY"%string = Some [x31]) in
    let membership := default activation (env "QUIL_COMMITTEE_MEMBERSHIP_BOUNDARY_FRAME"%string ≫= parse_u64) in
    let first_session := default u64_max (env "QUIL_COMMITTEE_FIRST_SESSION_BOUNDARY_FRAME"%string ≫= parse_u64) in
    Some (mkPolicy activation (committee_handoff_chain_id network) (if discard then Discard else Migrate)
      membership first_session).

Definition init_global_committee_succession_for_network (network : Z) : Z :=
  if network =? 0 then MAINNET_GLOBAL_COMMITTEE_SUCCESSION_FRAME else u64_max.
Definition global_committee_epoch (succession_frame frame : Z) : Z :=
  if succession_frame <=? frame then 1 else 0.

(** ** Reward rings *)

Record ProverInfo := mkProver {
  pi_public_key : list byte;
  pi_address : list byte;
  pi_status : ProverStatus;
  pi_kick_frame_number : Z;
  pi_allocations : list ProverAllocationInfo;
  pi_available_storage : Z;
  pi_seniority : Z;
  pi_delegate_address : list byte;
}.

Definition REWARD_RING_GROUP_SIZE : nat := 8.

Definition allocation (p : ProverInfo) (filter : list byte) : option ProverAllocationInfo :=
  List.find (fun a => bool_decide (confirmation_filter a = filter)) (pi_allocations p).

Record RewardRingEstimate := mkEstimate {
  re_ring : Z;
  re_provers_on_ring : nat;
  re_member_count : nat;
  re_source : string;
  re_target_frame : Z;
}.

Definition join_key (filter : list byte) (p : ProverInfo) : Z :=
  match allocation p filter with Some a => join_frame_number a | None => 0 end.

Definition member_leb (filter : list byte) (p q : ProverInfo) : bool :=
  (join_key filter p <? join_key filter q)
  || ((join_key filter p =? join_key filter q) && bytes_leb (pi_address p) (pi_address q)).

(** [order.sort_by(..)] over the indices. *)
Definition index_leb (filter : list byte) (provers : list ProverInfo) (i j : nat) : bool :=
  match provers !! i, provers !! j with
  | Some p, Some q => member_leb filter p q
  | _, _ => true
  end.
Definition reward_member_order (provers : list ProverInfo) (filter : list byte) : list nat :=
  sort_by (index_leb filter provers) (seq 0 (length provers)).

Section Estimate.
Context (len : Z).

Definition has_address (owner : list byte) (p : ProverInfo) : bool := bool_decide (pi_address p = owner).

(** [iter().position(f)] *)
Fixpoint position {A} (f : A -> bool) (l : list A) : option nat :=
  match l with [] => None | x :: l' => if f x then Some 0%nat else S <$> position f l' end.

Definition committed_ring_estimate (all : list ProverInfo) (owner filter : list byte) (frame : Z)
    : option RewardRingEstimate :=
  let live := List.filter (fun p => match allocation p filter with Some a => is_live len a frame | None => false end) all in
  let own := List.find (has_address owner) live ≫= fun p => allocation p filter in
  let group := REWARD_RING_GROUP_SIZE in
  Some match own with
  | Some own =>
      mkEstimate (ring own)
        (length (List.filter (fun p => match allocation p filter with Some a => ring a =? ring own | None => false end) live))
        (length live) "committed_allocation_ring" frame
  | None =>
      mkEstimate (Z.of_nat (length live / group) mod 256) (length live mod group + 1)
        (length live + 1) "new_join_projection" frame
  end.

(** The epoch a joining allocation activates in, as a frame. *)
Definition activation_frame_of (a : ProverAllocationInfo) : Z :=
  saturating_mul_u64
    (if 0 <? join_confirm_frame_number a
     then saturating_add_u64 (epoch_for_frame len (join_confirm_frame_number a)) 1
     else saturating_add_u64 (epoch_for_frame len (join_frame_number a)) 2) len.

Definition new_join_frame (frame : Z) : Z :=
  saturating_mul_u64 (saturating_add_u64 (epoch_for_frame len frame) 2) len.

(** [(source, target_frame, project_joins)], or [None] for [return None]. *)
Definition projection (own_alloc : option ProverAllocationInfo) (in_committee : bool) (frame : Z)
    : option (string * Z * bool) :=
  match own_alloc with
  | Some a =>
      match effective_status len a frame with
      | EsActive | EsLeaving => if in_committee then Some ("current_committee"%string, frame, false) else None
      | EsPaused => Some ("resume_projection"%string, frame, false)
      | EsExpiredEpoch =>
          if in_committee then Some ("legacy_committee_floor"%string, frame, false)
          else Some ("renewal_projection"%string, frame, false)
      | EsJoining =>
          if in_committee then Some ("legacy_committee_floor"%string, frame, false)
          else Some ("join_projection"%string, activation_frame_of a, true)
      | _ => Some ("new_join_projection"%string, new_join_frame frame, true)
      end
  | None => Some ("new_join_projection"%string, new_join_frame frame, true)
  end.

(** The joins projected into the committee, each address once. *)
Definition add_joins (all : list ProverInfo) (filter : list byte) (frame target : Z) (members : list ProverInfo)
    : list ProverInfo :=
  foldl (fun ms p =>
    match allocation p filter with
    | Some a =>
        if bool_decide (effective_status len a frame = EsJoining) && (activation_frame_of a <=? target)
           && negb (existsb (has_address (pi_address p)) ms)
        then ms ++ [p] else ms
    | None => ms
    end) members all.

Definition departed_by (filter : list byte) (target : Z) (p : ProverInfo) : bool :=
  match allocation p filter with
  | Some a => (0 <? leave_confirm_frame_number a)
              && bool_decide (effective_status len a target = EsExpiredLeaving)
  | None => false
  end.

Definition estimate_reward_ring (policy : option CommitteeHandoffPolicy) (committee all : list ProverInfo)
    (owner filter : list byte) (frame : Z) : option RewardRingEstimate :=
  if committee_handoff_active policy frame then committed_ring_estimate all owner filter frame
  else
    let committee := List.filter (fun p => match allocation p filter with Some _ => true | None => false end) committee in
    let own := List.find (has_address owner) all in
    let own_alloc := own ≫= fun p => allocation p filter in
    let in_committee := existsb (has_address owner) committee in
    '(source, target, project) ← projection own_alloc in_committee frame;
    let members := List.filter (fun p => negb project || negb (departed_by filter target p)) committee in
    let members := if (project : bool) then add_joins all filter frame target members else members in
    let reinsert :=
      match own_alloc with
      | Some a => match effective_status len a frame with EsPaused | EsExpiredEpoch => negb in_committee | _ => false end
      | None => false
      end in
    members ← (if reinsert then p ← own; Some (members ++ [p]) else Some members);
    let order := reward_member_order members filter in
    let rank := default (length members)
      (position (fun i => match members !! i with Some p => has_address owner p | None => false end) order) in
    let total := (length members + (if rank =? length members then 1 else 0))%nat in
    let group := REWARD_RING_GROUP_SIZE in
    Some (mkEstimate (Z.of_nat (rank / group) mod 256) (Nat.min (total - rank / group * group) group)
      total source target).

End Estimate.

(** ** Epoch arithmetic *)

Section Timeline.
Context (len : Z) (Hlen : 2 <= len).

Lemma next_epoch_id f : is_u64 f -> next_epoch len f = f / len + 1.
Proof.
  intros Hf. unfold next_epoch, epoch_for_frame. apply wrap_u64_id. unfold is_u64 in *.
  pose proof (Z.div_pos f len ltac:(lia) ltac:(lia)).
  assert (f / len <= f / 2) by (apply Z.div_le_compat_l; lia).
  assert (f / 2 < 2 ^ 63) by (apply Z.div_lt_upper_bound; lia). lia.
Qed.

Lemma epoch_lt f e : f / len < e <-> f < e * len.
Proof.
  split; intros H.
  - pose proof (Z.mul_succ_div_gt f len ltac:(lia)). nia.
  - apply Z.div_lt_upper_bound; lia.
Qed.

Lemma epoch_mono f f' : f <= f' -> f / len <= f' / len.
Proof. intros H. apply Z.div_le_mono; lia. Qed.

(** A frame range of one epoch is [[e * len, (e + 1) * len)]. *)
Lemma epoch_start f : f / len * len <= f < (f / len + 1) * len.
Proof. pose proof (Z.div_mod f len ltac:(lia)). pose proof (Z.mod_pos_bound f len ltac:(lia)). lia. Qed.

(** The frame numbers of an allocation are [u64]. *)
Definition frames_u64 (a : ProverAllocationInfo) : Prop :=
  is_u64 (join_frame_number a) /\ is_u64 (join_confirm_frame_number a) /\
  is_u64 (leave_frame_number a) /\ is_u64 (leave_confirm_frame_number a).

Lemma terminal_aux a f f' : frames_u64 a -> f <= f' -> es_is_terminal (effective_status len a f) = true ->
  effective_status len a f' = effective_status len a f.
Proof.
  intros (Hj & Hjc & Hl & Hlc) Hff. pose proof (epoch_mono f f' Hff) as Hmono.
  unfold effective_status, epoch_for_frame. rewrite !next_epoch_id by done.
  destruct (status a); try done.
  - destruct (Z.ltb_spec 0 (join_frame_number a)); cbn; [|done].
    destruct (Z.ltb_spec (join_frame_number a / len + 1) (f / len)); [|done]. intros _.
    destruct (Z.ltb_spec (join_frame_number a / len + 1) (f' / len)); [done|lia].
  - destruct (decide (confirmation_filter a = [])); [done|].
    destruct (_ && _); [done|]. by destruct (_ <=? _).
  - destruct (0 <? leave_confirm_frame_number a).
    + destruct (Z.ltb_spec (f / len) (leave_confirm_frame_number a / len + 1)); [done|]. intros _.
      destruct (Z.ltb_spec (f' / len) (leave_confirm_frame_number a / len + 1)); [lia|done].
    + destruct (0 <? leave_frame_number a); cbn; [|done].
      destruct (Z.ltb_spec (leave_frame_number a / len + 1) (f / len)); [|done]. intros _.
      destruct (Z.ltb_spec (leave_frame_number a / len + 1) (f' / len)); [done|lia].
Qed.

(** An undecided join is open to the end of the epoch after it was proposed. *)
Lemma join_open a f : frames_u64 a -> status a = PsJoining -> 0 < join_frame_number a -> 0 <= f ->
  effective_status len a f =
    if f <? (join_frame_number a / len + 2) * len then EsJoining else EsExpiredJoining.
Proof.
  intros (Hj & _) Hs H0 Hf. unfold effective_status, epoch_for_frame. rewrite Hs, next_epoch_id by done.
  destruct (Z.ltb_spec 0 (join_frame_number a)); [|lia]. cbn [andb].
  pose proof (epoch_lt f (join_frame_number a / len + 2)) as E.
  destruct (Z.ltb_spec (join_frame_number a / len + 1) (f / len)), (Z.ltb_spec f ((join_frame_number a / len + 2) * len)); lia || done.
Qed.

Lemma join_window j : len + 1 <= (j / len + 2) * len - j <= 2 * len.
Proof. pose proof (epoch_start j). nia. Qed.

(** A confirmed join: joining to the next boundary, then active to the end of
    the last epoch it registered for, then expired. *)
Lemma confirmed_join a f : frames_u64 a -> status a = PsActive -> confirmation_filter a <> [] ->
  0 < join_confirm_frame_number a ->
  effective_status len a f =
    if f <? (join_confirm_frame_number a / len + 1) * len then EsJoining
    else if f <? (epoch a + 1) * len then EsActive else EsExpiredEpoch.
Proof.
  intros (_ & Hjc & _) Hs Hfil H0. unfold effective_status, epoch_for_frame.
  rewrite Hs, decide_False, next_epoch_id by done. destruct (Z.ltb_spec 0 (join_confirm_frame_number a)); [|lia].
  cbn [andb]. pose proof (epoch_lt f (join_confirm_frame_number a / len + 1)). pose proof (epoch_lt f (epoch a + 1)).
  destruct (Z.ltb_spec (f / len) (join_confirm_frame_number a / len + 1)),
    (Z.ltb_spec f ((join_confirm_frame_number a / len + 1) * len)); try lia; [done|].
  destruct (Z.leb_spec (f / len) (epoch a)), (Z.ltb_spec f ((epoch a + 1) * len)); lia || done.
Qed.

(** What the materializer maintains: a raw [Joining] byte is unconfirmed, and
    confirmations are not in the future. *)
Definition confirmed_in_past (a : ProverAllocationInfo) (frame : Z) : Prop :=
  0 <= join_confirm_frame_number a <= frame /\ (status a = PsJoining -> join_confirm_frame_number a = 0).

Lemma boundary_aux ms addr a f : frames_u64 a -> is_u64 f -> confirmed_in_past a f ->
  f / len + 1 <= epoch a ->
  staying (members_add len ms addr a f) =
  (staying ms + (if decide (effective_status len a ((f / len + 1) * len) = EsActive) then 1 else 0))%nat.
Proof.
  intros Hfr Hf [Hjc Hbyte] Hep. pose proof Hfr as (Hj & Hjcu & Hl & Hlc).
  unfold staying, members_add, effective_status, epoch_for_frame. rewrite !next_epoch_id by done.
  rewrite Z.div_mul by lia. pose proof (epoch_mono (join_confirm_frame_number a) f ltac:(lia)) as Hm.
  destruct (status a) eqn:Hs; try done; try (rewrite decide_False by done; lia).
  - rewrite (Hbyte eq_refl). destruct (_ && _), (_ && _); rewrite ?decide_False by done; cbn; lia.
  - destruct (decide (confirmation_filter a = [])).
    { rewrite decide_True by done. cbn. rewrite length_app. cbn. lia. }
    destruct (Z.ltb_spec 0 (join_confirm_frame_number a)); cbn [andb].
    + destruct (Z.ltb_spec (f / len + 1) (join_confirm_frame_number a / len + 1)); [lia|].
      destruct (Z.leb_spec (f / len + 1) (epoch a)); [|lia]. rewrite decide_True by done.
      destruct (Z.ltb_spec (f / len) (join_confirm_frame_number a / len + 1)); cbn.
      * rewrite length_app. cbn. lia.
      * destruct (Z.leb_spec (f / len) (epoch a)); [|lia]. cbn. rewrite length_app. cbn. lia.
    + destruct (Z.leb_spec (f / len + 1) (epoch a)); [|lia]. rewrite decide_True by done.
      destruct (Z.leb_spec (f / len) (epoch a)); [|lia]. cbn. rewrite length_app. cbn. lia.
  - rewrite decide_False by (repeat destruct (_ <? _); done).
    repeat destruct (_ <? _); cbn; try lia; destruct (leave_confirm_frame_number a =? 0); cbn; lia.
Qed.

(** One shard's members, counted one after the other. *)
Definition count_members (f : Z) (ps : list (list byte * ProverAllocationInfo)) : LifecycleMembers :=
  foldl (fun ms pa => members_add len ms pa.1 pa.2 f) (mkMembers [] [] []) ps.

Lemma count_members_from f ps ms : is_u64 f ->
  Forall (fun pa => frames_u64 pa.2 /\ confirmed_in_past pa.2 f /\ f / len + 1 <= epoch pa.2) ps ->
  staying (foldl (fun ms pa => members_add len ms pa.1 pa.2 f) ms ps) =
  (staying ms + length (filter (fun pa => effective_status len pa.2 ((f / len + 1) * len) = EsActive) ps))%nat.
Proof.
  intros Hf HF. revert ms. induction HF as [|[addr a] ps (H1 & H2 & H3) _ IH]; intros ms; cbn [foldl].
  { cbn. lia. }
  rewrite IH, boundary_aux by done. rewrite filter_cons. cbn [fst snd] in *.
  destruct (decide _); cbn [length]; lia.
Qed.

End Timeline.

(** ** The order and the bounds of reward rings *)

Lemma index_leb_total filter ps i j : index_leb filter ps i j = false -> index_leb filter ps j i = true.
Proof.
  unfold index_leb. destruct (ps !! i) as [p|], (ps !! j) as [q|]; try done. unfold member_leb.
  destruct (Z.ltb_spec (join_key filter p) (join_key filter q)); [done|].
  destruct (Z.eqb_spec (join_key filter p) (join_key filter q)) as [E|E]; cbn.
  - intros H1%bytes_leb_total. rewrite <- E, Z.eqb_refl, Z.ltb_irrefl. done.
  - intros _. destruct (Z.ltb_spec (join_key filter q) (join_key filter p)); [done|lia].
Qed.

Lemma position_lt {A} (f : A -> bool) l i : position f l = Some i -> (i < length l)%nat.
Proof.
  revert i. induction l as [|x l IH]; intros i; cbn; [done|]. destruct (f x); [intros [= <-]; lia|].
  destruct (position f l) as [j|]; [|done]. intros [= <-]. specialize (IH j eq_refl). lia.
Qed.

Lemma order_length ps filter : length (reward_member_order ps filter) = length ps.
Proof. unfold reward_member_order. rewrite (Permutation_length (sort_by_perm _ _)). apply length_seq. Qed.

(** A rank within [total] members, as ring and ring population. *)
Lemma ring_bounds (rank total : nat) : (rank < total)%nat ->
  let on_ring := Nat.min (total - rank / 8 * 8) 8 in
  (1 <= on_ring <= 8)%nat /\ (rank / 8 * 8 + on_ring <= total)%nat /\ (rank < rank / 8 * 8 + on_ring)%nat.
Proof.
  intros Hr. pose proof (Nat.div_mod_eq rank 8). pose proof (Nat.mod_upper_bound rank 8 ltac:(lia)). lia.
Qed.


Lemma estimate_bounds len policy committee all owner filter frame e :
  committee_handoff_active policy frame = false ->
  estimate_reward_ring len policy committee all owner filter frame = Some e ->
  (1 <= re_provers_on_ring e <= 8)%nat /\
  ((re_member_count e <= 2048)%nat -> (Z.to_nat (re_ring e) * 8 + re_provers_on_ring e <= re_member_count e)%nat).
Proof.
  intros Hp. unfold estimate_reward_ring. rewrite Hp.
  destruct (projection _ _ _ _) as [[[source target] project]|]; [|done]. cbn [mbind option_bind].
  match goal with |- mbind _ ?o = _ -> _ => destruct o as [members|]; [|done] end. cbn [mbind option_bind].
  set (order := reward_member_order members filter). set (rank := default _ _). intros He%(inj Some). subst e.
  cbn [re_provers_on_ring re_member_count re_ring]. unfold REWARD_RING_GROUP_SIZE.
  assert (rank <= length members)%nat as Hrank.
  { unfold rank. destruct (position _ order) as [i|] eqn:E; cbn; unfold id; [|lia].
    apply position_lt in E. unfold order in E. rewrite order_length in E. lia. }
  set (total := (length members + _)%nat).
  assert (rank < total)%nat as Hlt by (unfold total; destruct (Nat.eqb_spec rank (length members)); lia).
  pose proof (ring_bounds rank total Hlt) as (Hb & Hle & _). split; [done|]. intros Hmax.
  assert (rank / 8 < 256)%nat by (apply Nat.Div0.div_lt_upper_bound; lia).
  rewrite Z.mod_small by lia. rewrite Nat2Z.id. done.
Qed.

(** ** What allocations promise *)

(** A data-shard allocation for the examples: status, join, confirm, epoch. *)
Definition sample_allocation (s : ProverStatus) (join confirm ep : Z) : ProverAllocationInfo :=
  mkAllocation s [x01] [] join 0 0 0 0 confirm 0 0 0 0 0 ep 0 [].

Lemma sample_frames_u64 s join confirm ep : is_u64 join -> is_u64 confirm -> frames_u64 (sample_allocation s join confirm ep).
Proof. intros Hj Hc. unfold frames_u64. cbn. unfold is_u64 in *. lia. Qed.





(** Lifecycle planning predicts the next committee: among provers that have
    registered for the next epoch, the number counted as staying (active or
    activating) at a frame is the number that is effectively active at the next
    epoch boundary. *)
Theorem staying_is_next_committee (len f : Z) (ps : list (list byte * ProverAllocationInfo)) :
  2 <= len -> is_u64 f ->
  Forall (fun pa => frames_u64 pa.2 /\ confirmed_in_past pa.2 f /\ f / len + 1 <= epoch pa.2) ps ->
  staying (count_members len f ps) =
  length (filter (fun pa => effective_status len pa.2 ((f / len + 1) * len) = EsActive) ps).
Proof. intros Hlen Hf HF. unfold count_members. by rewrite count_members_from. Qed.

Lemma staying_is_next_committee_witness :
  staying (count_members 720 1600 [([x0a], sample_allocation PsActive 1 800 3); ([x0b], sample_allocation PsJoining 1500 0 3);
    ([x0c], sample_allocation PsActive 720 1500 3)]) = 2%nat.
Proof.
  rewrite (staying_is_next_committee 720 1600); [reflexivity|lia|unfold is_u64; lia|].
  repeat constructor; cbn; try lia; try done.
Defined.

(** Reward rings: members are ranked by join frame, then address, each
    exactly once, and (before committee sessions are active) an estimated ring
    holds between one and eight provers and lies within the member count. *)
Theorem reward_ring_estimate (len : Z) policy committee all owner filter frame :
  committee_handoff_active policy frame = false ->
  (forall members, Permutation (reward_member_order members filter) (seq 0 (length members)) /\
     sortedb (index_leb filter members) (reward_member_order members filter) = true) /\
  forall e, estimate_reward_ring len policy committee all owner filter frame = Some e ->
    (1 <= re_provers_on_ring e <= 8)%nat /\
    ((re_member_count e <= 2048)%nat -> (Z.to_nat (re_ring e) * 8 + re_provers_on_ring e <= re_member_count e)%nat).
Proof.
  intros Hp. split; [|intros e; by apply estimate_bounds]. intros members. split.
  - apply sort_by_perm.
  - apply sort_by_sorted, index_leb_total.
Qed.

Definition sample_prover_info (addr : byte) (join : Z) : ProverInfo :=
  mkProver [] [addr] PsActive 0 [sample_allocation PsActive join 800 9] 0 0 [].

Lemma reward_ring_estimate_witness :
  let ps := sample_prover_info x05 30 :: ((fun b => sample_prover_info b 20) <$> [x01; x02; x03; x04; x06; x07; x08; x09]) in
  option_map (fun e => (re_ring e, re_provers_on_ring e, re_member_count e))
    (estimate_reward_ring 720 None ps ps [x05] [x01] 1600) = Some (1, 1%nat, 9%nat) /\
  sortedb (index_leb [x01] ps) (reward_member_order ps [x01]) = true.
Proof.
  intros ps. split; [vm_compute; reflexivity|].
  apply (reward_ring_estimate 720 None ps ps [x05] [x01] 1600). reflexivity.
Defined.
