(* ===== verification/Pricing.v ===== *)
(** * Fee and reward arithmetic ([src/crates/quil-execution/src/pricing.rs],
      [quil-engine/src/rewards.rs])

    Prices are exact integers ([BigInt] is [Z]); inputs are [u64].  Integer
    roots come from [num-integer] and are the class [Roots]: the largest integer
    whose power does not exceed the argument. *)

From S2P Require Import Prelude Bytes.

Class Roots := {
  nth_root : Z -> Z -> Z;
  isqrt : Z -> Z;
}.

(** Documented behaviour: truncated principal roots of non-negative numbers. *)
Class RootLaws `{Roots} : Prop := {
  nth_root_spec : forall x n, 0 <= x -> 1 <= n ->
    0 <= nth_root x n /\ nth_root x n ^ n <= x < (nth_root x n + 1) ^ n;
  isqrt_spec : forall x, 0 <= x -> 0 <= isqrt x /\ isqrt x * isqrt x <= x < (isqrt x + 1) * (isqrt x + 1);
}.

Definition POMW_SCALE_BITS : Z := 53.
Definition POMW_NUMERATOR : Z := 1125899906842624.
Definition QUIL_TOKEN_UNITS : Z := 8000000000.
Definition MAINNET_NETWORK : Z := 0.
Definition NON_MAINNET_UNITS_PER_BYTE : Z := 1.

Definition network_selector (identifier : list byte) : option Z :=
  if decide (identifier = []) then None
  else
    let prefix := take (length identifier - 1) identifier in
    if (length identifier =? 32)%nat && forallb (fun b => byte_val b =? 0) prefix
    then byte_val <$> last identifier else None.

(** [while difflog >= 10_000]: at most five rounds on a [u64]; [fuel] is 8. *)
Fixpoint generation_loop (fuel : nat) (difflog generation : Z) : Z :=
  match fuel with
  | O => generation
  | S f => if 10000 <=? difflog then generation_loop f (difflog / 10000) (generation + 1) else generation
  end.
Definition generation_of (difficulty : Z) : Z := generation_loop 8 difficulty 0.

Section Pricing.
Context `{Roots}.

Definition pomw_basis (difficulty world_state_bytes units : Z) : Z :=
  if world_state_bytes =? 0 then 0
  else
    let generation := generation_of difficulty in
    if generation =? 0 then POMW_NUMERATOR / world_state_bytes * units
    else
      let exp_denom := wrap_u32 (Z.shiftl 1 generation) in
      let pre_scale_bits := wrap_u32 (exp_denom * POMW_SCALE_BITS) in
      let scaled := Z.shiftl POMW_NUMERATOR pre_scale_bits / world_state_bytes in
      Z.shiftr (nth_root scaled exp_denom * units) POMW_SCALE_BITS.

Definition allocation_ring_reward (basis state_size world_bytes ring data_shards : Z) : Z :=
  if (basis <=? 0) || (state_size <=? 0) || (world_bytes <=? 0) || (data_shards =? 0) then 0
  else
    let divisor := Z.shiftl 1 (Z.min ring 62 + 1) in
    let sqrt := isqrt (Z.shiftl data_shards (2 * POMW_SCALE_BITS)) in
    Z.shiftl (state_size * basis) POMW_SCALE_BITS / (world_bytes * divisor * sqrt).

Definition allocation_prover_reward (basis state_size world_bytes ring data_shards : Z) : Z :=
  allocation_ring_reward basis state_size world_bytes ring data_shards / 8.

Definition get_baseline_fee (difficulty world_state_bytes total_added units : Z) : Z :=
  let current := pomw_basis difficulty world_state_bytes units in
  let affected := pomw_basis difficulty (wrap_u64 (world_state_bytes + total_added)) units in
  let delta := current - affected in
  if world_state_bytes =? 0 then total_added
  else
    let lhs := delta * delta / world_state_bytes in
    if total_added <=? lhs then lhs else total_added.

Definition fee_multiplier_for_cost (network difficulty world_state_bytes cost vote : Z) : result Z :=
  if cost =? 0 then Ok 0
  else if (cost <? 0) || (u64_max <? cost) then Err InvalidArgument
  else
    _ ← ok_or (checked_add_u64 world_state_bytes cost) InvalidArgument;
    if negb (network =? MAINNET_NETWORK) then Ok (NON_MAINNET_UNITS_PER_BYTE * vote)
    else
      let baseline := get_baseline_fee difficulty world_state_bytes cost QUIL_TOKEN_UNITS in
      let per_unit := (baseline + cost - 1) / cost in
      Ok (per_unit * vote).

Definition fee_budget_for_payload_limit (network difficulty world_state_bytes payload_limit vote : Z) : result Z :=
  if payload_limit =? 0 then Ok 0
  else
    _ ← ok_or (checked_add_u64 world_state_bytes payload_limit) InvalidArgument;
    if negb (network =? MAINNET_NETWORK) then Ok (payload_limit * NON_MAINNET_UNITS_PER_BYTE * vote)
    else
      let baseline := get_baseline_fee difficulty world_state_bytes payload_limit QUIL_TOKEN_UNITS in
      Ok ((baseline + (payload_limit - 1)) * vote).

(** [ProverAllocation], and issuance: per prover, the sum over its shards. *)
Record ProverAllocation := mkPA { pa_ring : Z; pa_shards : Z; pa_state_size : Z }.

Definition calculate (difficulty world_state_bytes units : Z) (provers : list (list ProverAllocation)) : list Z :=
  let basis := pomw_basis difficulty world_state_bytes units in
  if world_state_bytes =? 0 then (fun _ => 0) <$> provers
  else
    (fun allocs =>
       foldl (fun total a =>
         total + allocation_ring_reward basis (pa_state_size a) world_state_bytes (pa_ring a) (pa_shards a)) 0 allocs)
    <$> provers.

(** ** The generation count *)

Lemma generation_loop_bound fuel d g : 0 <= g -> 0 <= d < 10000 ^ (5 - g) -> (5 - g < Z.of_nat fuel) -> g <= 4 ->
  0 <= generation_loop fuel d g <= 4.
Proof.
  revert d g. induction fuel as [|f IH]; intros d g Hg Hd Hf H4; [lia|]. cbn [generation_loop].
  destruct (Z.leb_spec 10000 d) as [Hge|Hlt]; [|lia].
  assert (g <= 3) as H3.
  { destruct (decide (g = 4)) as [->|]; [|lia]. change (10000 ^ (5 - 4)) with 10000 in Hd. lia. }
  replace (5 - g) with (Z.succ (5 - (g + 1))) in Hd by lia. rewrite Z.pow_succ_r in Hd by lia.
  apply IH; [lia| |lia|lia]. split; [apply Z.div_pos; lia|apply Z.div_lt_upper_bound; lia].
Qed.

Lemma generation_range d : is_u64 d -> 0 <= generation_of d <= 4.
Proof. intros Hd. apply generation_loop_bound; [lia| |cbn; lia|lia]. unfold is_u64 in Hd. cbn. lia. Qed.

(** The fuel is enough: the loop ends because its condition fails. *)
Lemma generation_fuel fuel d : is_u64 d -> (8 <= fuel)%nat -> generation_loop fuel d 0 = generation_of d.
Proof.
  intros Hd Hf. unfold generation_of.
  assert (forall k fuel d g, 0 <= d < 10000 ^ Z.of_nat k -> (k <= fuel)%nat ->
    generation_loop (S fuel) d g = generation_loop fuel d g) as Hstep.
  { clear. intros k. induction k as [|k IH]; intros fuel d g Hd Hf.
    - assert (d = 0) as -> by (cbn in Hd; lia). by destruct fuel.
    - destruct fuel as [|fuel]; [lia|]. cbn [generation_loop]. destruct (Z.leb_spec 10000 d); [|done].
      apply IH; [|lia]. rewrite Nat2Z.inj_succ, Z.pow_succ_r in Hd by lia.
      split; [apply Z.div_pos; lia|apply Z.div_lt_upper_bound; lia]. }
  induction fuel as [|f IH]; [lia|]. destruct (decide (S f = 8)%nat) as [->|]; [done|].
  rewrite (Hstep 5%nat) by (unfold is_u64 in Hd; cbn; lia). apply IH. lia.
Qed.

(** ** Monotonicity *)

Context `{!RootLaws}.

Lemma nth_root_mono x y n : 0 <= x <= y -> 1 <= n -> nth_root x n <= nth_root y n.
Proof.
  intros Hxy Hn. destruct (nth_root_spec x n ltac:(lia) Hn) as (Hx0 & Hx1 & _).
  destruct (nth_root_spec y n ltac:(lia) Hn) as (Hy0 & _ & Hy2).
  apply Z.nlt_ge. intros Hlt. assert ((nth_root y n + 1) ^ n <= nth_root x n ^ n) by (apply Z.pow_le_mono_l; lia). lia.
Qed.

Lemma div_antitone a b c : 0 <= a -> 0 < b <= c -> a / c <= a / b.
Proof. intros Ha Hb. by apply Z.div_le_compat_l. Qed.

Lemma exp_denom_pos d : is_u64 d -> 1 <= wrap_u32 (Z.shiftl 1 (generation_of d)).
Proof.
  intros Hd. pose proof (generation_range d Hd) as Hg. rewrite Z.shiftl_1_l. unfold wrap_u32.
  pose proof (Z.pow_le_mono_r 2 (generation_of d) 4 ltac:(lia) ltac:(lia)).
  pose proof (Z.pow_pos_nonneg 2 (generation_of d) ltac:(lia) ltac:(lia)).
  change (2 ^ 4) with 16 in *. rewrite Z.mod_small by lia. lia.
Qed.

Lemma pomw_basis_nonneg d w u : is_u64 d -> 0 <= w -> 0 <= u -> 0 <= pomw_basis d w u.
Proof.
  intros Hd Hw Hu. unfold pomw_basis. destruct (Z.eqb_spec w 0); [lia|].
  destruct (Z.eqb_spec (generation_of d) 0).
  - apply Z.mul_nonneg_nonneg; [apply Z.div_pos; unfold POMW_NUMERATOR; lia|lia].
  - apply Z.shiftr_nonneg, Z.mul_nonneg_nonneg; [|lia].
    apply nth_root_spec; [|by apply exp_denom_pos]. apply Z.div_pos; [|lia].
    apply Z.shiftl_nonneg. unfold POMW_NUMERATOR. lia.
Qed.

(** The basis never grows with the world state. *)
Lemma pomw_basis_antitone d w w' u : is_u64 d -> 0 < w <= w' -> 0 <= u -> pomw_basis d w' u <= pomw_basis d w u.
Proof.
  intros Hd Hw Hu. unfold pomw_basis. destruct (Z.eqb_spec w 0), (Z.eqb_spec w' 0); try lia.
  destruct (Z.eqb_spec (generation_of d) 0).
  - apply Z.mul_le_mono_nonneg_r; [lia|]. apply div_antitone; unfold POMW_NUMERATOR; lia.
  - rewrite !Z.shiftr_div_pow2 by (unfold POMW_SCALE_BITS; lia). apply Z.div_le_mono; [unfold POMW_SCALE_BITS; lia|].
    apply Z.mul_le_mono_nonneg_r; [lia|]. assert (0 <= Z.shiftl POMW_NUMERATOR (wrap_u32 (wrap_u32 (Z.shiftl 1 (generation_of d)) * POMW_SCALE_BITS)))
      by (apply Z.shiftl_nonneg; unfold POMW_NUMERATOR; lia).
    apply nth_root_mono; [|by apply exp_denom_pos]. split; [apply Z.div_pos; lia|by apply div_antitone].
Qed.

Definition in_range (w added : Z) : Prop := 0 <= w /\ 0 <= added /\ w + added <= u64_max.

Lemma wrap_add w a : in_range w a -> wrap_u64 (w + a) = w + a.
Proof. intros (? & ? & ?). apply wrap_u64_id. unfold is_u64, u64_max in *. lia. Qed.

(** The baseline fee grows with the bytes added, and is at least one unit a byte. *)
Lemma baseline_ge d w a u : a <= get_baseline_fee d w a u.
Proof. unfold get_baseline_fee. destruct (w =? 0); [lia|]. destruct (Z.leb_spec a ((pomw_basis d w u - pomw_basis d (wrap_u64 (w + a)) u) * (pomw_basis d w u - pomw_basis d (wrap_u64 (w + a)) u) / w)); lia. Qed.

Lemma baseline_mono d w a b u : is_u64 d -> 0 <= u -> a <= b -> in_range w a -> in_range w b ->
  get_baseline_fee d w a u <= get_baseline_fee d w b u.
Proof.
  intros Hd Hu Hab Ha Hb. unfold get_baseline_fee. rewrite !wrap_add by done.
  destruct Ha as (Hw & Ha & _). destruct Hb as (_ & Hb & _).
  destruct (Z.eqb_spec w 0); [lia|].
  assert (0 <= pomw_basis d w u - pomw_basis d (w + a) u <= pomw_basis d w u - pomw_basis d (w + b) u) as Hd'.
  { pose proof (pomw_basis_antitone d w (w + a) u Hd ltac:(lia) Hu).
    pose proof (pomw_basis_antitone d (w + a) (w + b) u Hd ltac:(lia) Hu). lia. }
  set (da := pomw_basis d w u - pomw_basis d (w + a) u) in *. set (db := pomw_basis d w u - pomw_basis d (w + b) u) in *.
  assert (da * da / w <= db * db / w) by (apply Z.div_le_mono; [lia|nia]).
  destruct (Z.leb_spec a (da * da / w)), (Z.leb_spec b (db * db / w)); lia.
Qed.

Lemma ceil_bounds b c : 0 < c -> b <= (b + c - 1) / c * c <= b + c - 1.
Proof.
  intros Hc. pose proof (Z.mul_div_le (b + c - 1) c Hc). pose proof (Z.mul_succ_div_gt (b + c - 1) c Hc). lia.
Qed.

(** One ring further out halves the reward exactly. *)
Lemma shiftl_succ_1 r : 0 <= r -> Z.shiftl 1 (r + 1 + 1) = Z.shiftl 1 (r + 1) * 2.
Proof. intros Hr. rewrite !Z.shiftl_1_l, (Z.pow_add_r 2 (r + 1) 1) by lia. done. Qed.

End Pricing.

(** ** Concrete roots *)

(** The root, one bit at a time from bit [b - 1] down. *)
Fixpoint root_bits (b : nat) (x n r : Z) : Z :=
  match b with
  | O => r
  | S b' =>
      let r' := r + 2 ^ Z.of_nat b' in
      root_bits b' x n (if r' ^ n <=? x then r' else r)
  end.
Definition sample_roots : Roots := {|
  nth_root x n := root_bits (S (Z.to_nat (Z.log2 x))) x n 0;
  isqrt := Z.sqrt;
|}.

Lemma root_bits_spec b x n r : 1 <= n -> 0 <= r -> r ^ n <= x < (r + 2 ^ Z.of_nat b) ^ n ->
  0 <= root_bits b x n r /\ root_bits b x n r ^ n <= x < (root_bits b x n r + 1) ^ n.
Proof.
  intros Hn. revert r. induction b as [|b IH]; intros r Hr Hx; cbn [root_bits]; [done|].
  assert (2 ^ Z.of_nat (S b) = 2 ^ Z.of_nat b + 2 ^ Z.of_nat b) as E
    by (rewrite Nat2Z.inj_succ, Z.pow_succ_r by lia; lia).
  rewrite E in Hx. destruct (Z.leb_spec ((r + 2 ^ Z.of_nat b) ^ n) x); apply IH; try lia.
  split; [done|]. rewrite <- Z.add_assoc. lia.
Qed.

Lemma sample_roots_laws : @RootLaws sample_roots.
Proof.
  split; cbn [nth_root isqrt sample_roots].
  - intros x n Hx Hn. apply root_bits_spec; [done|lia|]. split; [rewrite Z.pow_0_l by lia; lia|].
    pose proof (Z.log2_nonneg x). rewrite Nat2Z.inj_succ, Z2Nat.id by done.
    assert (x < 2 ^ Z.succ (Z.log2 x)) as Hlt.
    { destruct (decide (x = 0)) as [->|]; [cbn; lia|]. apply Z.log2_spec. lia. }
    rewrite Z.add_0_l. eapply Z.lt_le_trans; [exact Hlt|].
    rewrite <- (Z.pow_1_r (2 ^ Z.succ (Z.log2 x))) at 1. apply Z.pow_le_mono_r; [|lia].
    apply Z.pow_pos_nonneg; lia.
  - intros x Hx. split; [apply Z.sqrt_nonneg|]. pose proof (Z.sqrt_spec x Hx). unfold Z.succ in *. done.
Qed.

(** ** What prices promise *)



Lemma isqrt_pos `{Roots} `{!RootLaws} x : 1 <= x -> 1 <= isqrt x.
Proof. intros Hx. destruct (isqrt_spec x ltac:(lia)) as (? & _ & ?). nia. Qed.

(** Each reward ring earns exactly half (rounded down) of the ring before
    it, up to the clamp at ring 62, and rings beyond it earn what ring 62 does. *)
Theorem ring_reward_halves `{Roots} `{!RootLaws} basis state_size world ring data_shards :
  0 <= ring -> is_u64 data_shards ->
  allocation_ring_reward basis state_size world (ring + 1) data_shards =
  if ring <? 62 then allocation_ring_reward basis state_size world ring data_shards / 2
  else allocation_ring_reward basis state_size world ring data_shards.
Proof.
  intros Hr Hd. unfold allocation_ring_reward.
  destruct (Z.leb_spec basis 0), (Z.leb_spec state_size 0), (Z.leb_spec world 0), (Z.eqb_spec data_shards 0);
    cbn [orb]; try (by destruct (ring <? 62)).
  destruct (Z.ltb_spec ring 62) as [Hlt|Hge]; [|by rewrite !Z.min_r by lia].
  rewrite !Z.min_l by lia. rewrite shiftl_succ_1 by lia.
  assert (1 <= isqrt (Z.shiftl data_shards (2 * POMW_SCALE_BITS))) as Hs.
  { apply isqrt_pos. unfold is_u64, POMW_SCALE_BITS in *. rewrite Z.shiftl_mul_pow2 by lia. lia. }
  assert (0 < Z.shiftl 1 (ring + 1)) as Hp
    by (rewrite Z.shiftl_1_l; apply Z.pow_pos_nonneg; lia).
  rewrite Z.div_div by nia. f_equal. lia.
Qed.

Lemma ring_reward_halves_witness :
  @allocation_ring_reward sample_roots 8000 4096 1000000 (1 + 1) 9 =
  @allocation_ring_reward sample_roots 8000 4096 1000000 1 9 / 2.
Proof. apply (@ring_reward_halves sample_roots sample_roots_laws 8000 4096 1000000 1 9); unfold is_u64; lia. Defined.
