(* ===== verification/FeeManager.v ===== *)
(** * The dynamic fee manager ([src/crates/quil-engine/src/fees.rs])

    The manager is a map from filters to sliding windows of votes, as the
    [HashMap] behind its lock is; each operation is a state transformer, the
    write lock making it atomic.  [Instant]s are integers (nanoseconds);
    [now] is an argument of the operations that read the clock, and
    [instant_min] is the earliest instant the platform represents.  Sums and
    products are [u64]/[i64] and wrap. *)

From stdpp Require Import sorting.
From S2P Require Import Prelude Bytes.
#[local] Open Scope Z_scope.

Definition MAX_WINDOW_SIZE : nat := 360.
Definition DEFAULT_FEE_MULTIPLIER : Z := 100.

Record FeeVote := mkVote { frame_number : Z; fee_multiplier_vote : Z }.

Record FilterFeeData := mkFilterFeeData {
  votes : list FeeVote;
  sum_votes : Z;
  last_updated : Z;
}.
Definition FilterFeeData_new (now : Z) : FilterFeeData := mkFilterFeeData [] 0 now.

Record FeeManager := mkFeeManager {
  filter_data : gmap (list byte) FilterFeeData;
  window_size : nat;
}.

Definition FeeManager_new (window : nat) : FeeManager := mkFeeManager ∅ (window `min` MAX_WINDOW_SIZE).

(** The tail of [add_frame_fee_vote]: push, then drop the oldest above the cap. *)
Definition push_vote (w : nat) (data : FilterFeeData) (v : FeeVote) (now : Z) : FilterFeeData :=
  let pushed := votes data ++ [v] in
  let sum := wrap_u64 (sum_votes data + fee_multiplier_vote v) in
  if (w <? length pushed)%nat then
    match pushed with
    | old :: rest => mkFilterFeeData rest (wrap_u64 (sum - fee_multiplier_vote old)) now
    | [] => mkFilterFeeData pushed sum now
    end
  else mkFilterFeeData pushed sum now.

Definition add_frame_fee_vote (m : FeeManager) (filter : list byte) (frame vote now : Z) :
    FeeManager * result unit :=
  let data := default (FilterFeeData_new now) (filter_data m !! filter) in
  let stale := match last (votes data) with Some l => frame <=? frame_number l | None => false end in
  if stale then (mkFeeManager (<[filter := data]> (filter_data m)) (window_size m), Err InvalidArgument)
  else
    (mkFeeManager (<[filter := push_vote (window_size m) data (mkVote frame vote) now]> (filter_data m))
       (window_size m), Ok ()).

Definition get_next_fee_multiplier (m : FeeManager) (filter : list byte) : result Z :=
  match filter_data m !! filter with
  | Some data =>
      if decide (votes data = []) then Ok DEFAULT_FEE_MULTIPLIER
      else Ok (sum_votes data / Z.of_nat (length (votes data)))
  | None => Ok DEFAULT_FEE_MULTIPLIER
  end.

Definition get_vote_history (m : FeeManager) (filter : list byte) : result (list Z) :=
  Ok (match filter_data m !! filter with Some d => fee_multiplier_vote <$> votes d | None => [] end).

Definition get_average_window_size (m : FeeManager) (filter : list byte) : result nat :=
  Ok (match filter_data m !! filter with Some d => length (votes d) | None => O end).

Definition instant_checked_sub (instant_min now d : Z) : option Z :=
  if instant_min <=? now - d then Some (now - d) else None.

Definition prune_old_data (instant_min : Z) (m : FeeManager) (max_age now : Z) : FeeManager * result unit :=
  match instant_checked_sub instant_min now (max_age * 1000000) with
  | None => (m, Ok ())
  | Some cutoff =>
      (mkFeeManager (base.filter (fun '(_, data) => cutoff <= last_updated data) (filter_data m)) (window_size m), Ok ())
  end.

(** [iter().position(p).unwrap_or(len)]. *)
Fixpoint position_or_len (p : FeeVote -> bool) (l : list FeeVote) : nat :=
  match l with
  | [] => O
  | v :: l' => if p v then O else S (position_or_len p l')
  end.

Definition rewind_to_frame (m : FeeManager) (filter : list byte) (frame : Z) : FeeManager * result nat :=
  match filter_data m !! filter with
  | None => (m, Ok O)
  | Some data =>
      if decide (votes data = []) then (m, Ok O)
      else
        let keep_index := position_or_len (fun v => frame <? frame_number v) (votes data) in
        let removed_count := (length (votes data) - keep_index)%nat in
        if (removed_count =? 0)%nat then (m, Ok O)
        else
          let sum := foldl (fun s v => wrap_u64 (s - fee_multiplier_vote v)) (sum_votes data)
                       (drop keep_index (votes data)) in
          (mkFeeManager
             (<[filter := mkFilterFeeData (take keep_index (votes data)) sum (last_updated data)]> (filter_data m))
             (window_size m), Ok removed_count)
  end.

Definition TARGET_FRAME_TIME_MS : Z := 10000.
Definition MAX_ADJUSTMENT_PERCENT : Z := 10.

Definition adjust_fee_for_traffic (base_fee current_ms previous_ms : Z) (reward_greedy : bool) : Z :=
  if negb reward_greedy then base_fee
  else if base_fee =? 0 then 1
  else
    let time_diff := as_i64 (current_ms - previous_ms) in
    if time_diff <? TARGET_FRAME_TIME_MS then
      let percent := Z.quot (as_i64 (as_i64 (TARGET_FRAME_TIME_MS - time_diff) * 100)) TARGET_FRAME_TIME_MS in
      let percent := if MAX_ADJUSTMENT_PERCENT <? percent then MAX_ADJUSTMENT_PERCENT else percent in
      let adjustment := wrap_u64 (base_fee * wrap_u64 percent) / 100 in
      Z.max (saturating_sub_u64 base_fee adjustment) 1
    else if TARGET_FRAME_TIME_MS <? time_diff then
      let percent := Z.quot (as_i64 (as_i64 (time_diff - TARGET_FRAME_TIME_MS) * 100)) TARGET_FRAME_TIME_MS in
      let percent := if MAX_ADJUSTMENT_PERCENT <? percent then MAX_ADJUSTMENT_PERCENT else percent in
      let adjustment := wrap_u64 (base_fee * wrap_u64 percent) / 100 in
      saturating_add_u64 base_fee adjustment
    else base_fee.

Definition compute_fee_multiplier_vote (m : FeeManager) (filter : list byte) (current_ms previous_ms : Z)
    (reward_greedy : bool) : Z :=
  let base := match get_next_fee_multiplier m filter with Ok b => b | _ => DEFAULT_FEE_MULTIPLIER end in
  adjust_fee_for_traffic base current_ms previous_ms reward_greedy.

(** ** The manager as a transition system *)

(** One locked operation; reads do not change the state. *)
Inductive step : FeeManager -> FeeManager -> Prop :=
  | step_add m filter frame vote now m' r :
      is_u64 frame -> is_u64 vote -> add_frame_fee_vote m filter frame vote now = (m', r) -> step m m'
  | step_rewind m filter frame m' r : rewind_to_frame m filter frame = (m', r) -> step m m'
  | step_prune instant_min m max_age now m' r : prune_old_data instant_min m max_age now = (m', r) -> step m m'.

Inductive reachable (window : nat) : FeeManager -> Prop :=
  | reach_new : reachable window (FeeManager_new window)
  | reach_step m m' : reachable window m -> step m m' -> reachable window m'.

Definition vote_sum (l : list FeeVote) : Z := foldr (fun v s => fee_multiplier_vote v + s) 0 l.
Definition newer (a b : FeeVote) : Prop := frame_number a < frame_number b.

(** Windows are short, in strict frame order, and the running sum is the sum
    of the retained votes modulo [2^64]. *)
Record wf_window (w : nat) (d : FilterFeeData) : Prop := {
  wfw_length : (length (votes d) <= w)%nat;
  wfw_order : StronglySorted newer (votes d);
  wfw_votes : Forall (fun v => is_u64 (fee_multiplier_vote v)) (votes d);
  wfw_sum : sum_votes d = wrap_u64 (vote_sum (votes d));
}.
Definition wf_manager (m : FeeManager) : Prop := map_Forall (fun _ d => wf_window (window_size m) d) (filter_data m).

(** ** Arithmetic of the running sum *)

Lemma wrap_u64_add_l a b : wrap_u64 (wrap_u64 a + b) = wrap_u64 (a + b).
Proof. unfold wrap_u64. apply Zplus_mod_idemp_l. Qed.
Lemma wrap_u64_sub_l a b : wrap_u64 (wrap_u64 a - b) = wrap_u64 (a - b).
Proof. unfold wrap_u64. apply Zminus_mod_idemp_l. Qed.

Lemma vote_sum_app l k : vote_sum (l ++ k) = vote_sum l + vote_sum k.
Proof. unfold vote_sum. induction l as [|v l IH]; [done|]. rewrite <- app_comm_cons, !foldr_cons. lia. Qed.

(** Subtracting the removed votes one by one leaves the sum of the kept ones. *)
Lemma unwind_sum l k :
  foldl (fun s v => wrap_u64 (s - fee_multiplier_vote v)) (wrap_u64 (vote_sum (l ++ k))) k = wrap_u64 (vote_sum l).
Proof.
  revert l. induction k as [|v k IH]; intros l; cbn [foldl]; [by rewrite app_nil_r|].
  rewrite wrap_u64_sub_l. rewrite <- (IH l), !vote_sum_app.
  replace (vote_sum (v :: k)) with (fee_multiplier_vote v + vote_sum k) by done.
  do 2 f_equal. lia.
Qed.

(** ** Order of the window *)

Lemma sorted_snoc l v : StronglySorted newer l -> (forall u, last l = Some u -> newer u v) ->
  StronglySorted newer (l ++ [v]).
Proof.
  intros Hs Hl. apply StronglySorted_app_2; [|done|repeat constructor]. intros x y Hx ->%list_elem_of_singleton.
  destruct (last l) as [u|] eqn:E; [|by apply last_None in E as ->; apply elem_of_nil in Hx].
  pose proof (Hl u eq_refl) as Hu. apply last_Some in E as [l' ->].
  apply elem_of_app in Hx as [Hx| ->%list_elem_of_singleton]; [|done].
  assert (newer x u) by (eapply StronglySorted_app_1_elem_of; [exact Hs|done|set_solver]).
  unfold newer in *. lia.
Qed.

Lemma sorted_prefix k l : StronglySorted newer l -> StronglySorted newer (take k l).
Proof. intros H. rewrite <- (take_drop k l) in H. by eapply StronglySorted_app_1_l. Qed.

(** The first vote past [frame] splits a window into the votes up to [frame]
    and the votes after it. *)
Lemma position_splits frame l : StronglySorted newer l ->
  let k := position_or_len (fun v => frame <? frame_number v) l in
  take k l = base.filter (fun v => frame_number v <= frame) l /\
  drop k l = base.filter (fun v => frame < frame_number v) l.
Proof.
  cbn zeta. induction 1 as [|v l Hs IH Hv]; [done|]. cbn [position_or_len].
  rewrite !filter_cons. destruct (Z.ltb_spec frame (frame_number v)).
  - rewrite decide_False, decide_True by lia. cbn [take drop]. unfold newer in Hv. split; symmetry.
    + apply filter_none. eapply Forall_impl; [exact Hv|]. cbn. lia.
    + f_equal. apply filter_all. eapply Forall_impl; [exact Hv|]. cbn. lia.
  - rewrite decide_True, decide_False by lia. destruct IH as [IH1 IH2]. cbn [take drop]. by rewrite IH1, IH2.
Qed.

(** ** The invariant *)

Lemma push_vote_wf w d v now : wf_window w d -> is_u64 (fee_multiplier_vote v) ->
  (forall u, last (votes d) = Some u -> newer u v) -> wf_window w (push_vote w d v now).
Proof.
  intros [Hlen Hord Hv Hsum] Hu Hnew. unfold push_vote.
  assert (StronglySorted newer (votes d ++ [v])) as Hs by by apply sorted_snoc.
  assert (Forall (fun v => is_u64 (fee_multiplier_vote v)) (votes d ++ [v])) as Hall
    by (apply Forall_app; split; [done|by apply Forall_singleton]).
  assert (wrap_u64 (sum_votes d + fee_multiplier_vote v) = wrap_u64 (vote_sum (votes d ++ [v]))) as E.
  { rewrite Hsum, wrap_u64_add_l, vote_sum_app. cbn. f_equal. lia. }
  assert (length (votes d ++ [v]) <= S w)%nat as Hl by (rewrite length_app; cbn; lia).
  destruct (Nat.ltb_spec w (length (votes d ++ [v]))); [|by constructor].
  destruct (votes d ++ [v]) as [|old rest] eqn:Ep; [constructor; cbn in *; first [done|lia]|].
  apply Forall_cons in Hall as [_ Hall]. apply StronglySorted_inv in Hs as [Hs _].
  constructor; cbn in *; [lia|done|done|]. rewrite E, wrap_u64_sub_l. f_equal. lia.
Qed.

Lemma empty_window_wf w now : wf_window w (FilterFeeData_new now).
Proof. constructor; cbn; [lia|constructor|constructor|done]. Qed.

Lemma window_of_wf m f now : wf_manager m -> wf_window (window_size m) (default (FilterFeeData_new now) (filter_data m !! f)).
Proof. intros H. destruct (filter_data m !! f) eqn:E; [by eapply H|apply empty_window_wf]. Qed.

Lemma add_wf m f frame vote now : wf_manager m -> is_u64 vote -> wf_manager (add_frame_fee_vote m f frame vote now).1.
Proof.
  intros Hm Hv. pose proof (window_of_wf m f now Hm) as Hd. unfold add_frame_fee_vote.
  set (d := default _ _) in *. destruct (last (votes d)) as [l|] eqn:E; cbn.
  - destruct (Z.leb_spec frame (frame_number l)); apply map_Forall_insert_2; try done. cbn.
    apply push_vote_wf; [done..|]. intros u Hu. unfold newer. cbn. assert (l = u) as <- by congruence. done.
  - apply map_Forall_insert_2; [|done]. apply push_vote_wf; [done..|]. intros u Hu. congruence.
Qed.

Lemma rewind_window_wf w d frame : wf_window w d ->
  let k := position_or_len (fun v => frame <? frame_number v) (votes d) in
  wf_window w (mkFilterFeeData (take k (votes d))
    (foldl (fun s v => wrap_u64 (s - fee_multiplier_vote v)) (sum_votes d) (drop k (votes d))) (last_updated d)).
Proof.
  intros [Hlen Hord Hv Hsum] k. constructor; cbn.
  - rewrite length_take. lia.
  - by apply sorted_prefix.
  - by apply Forall_take.
  - rewrite Hsum, <- (take_drop k (votes d)) at 1. apply unwind_sum.
Qed.

Lemma step_wf m m' : wf_manager m -> step m m' -> wf_manager m' /\ window_size m' = window_size m.
Proof.
  intros Hm Hs. destruct Hs as [m f frame vote now m' r _ Hv E|m f frame m' r E|im m age now m' r E].
  - split; [replace m' with (add_frame_fee_vote m f frame vote now).1 by (by rewrite E); by apply add_wf|].
    unfold add_frame_fee_vote in E. cbv zeta in E. repeat case_match; by injection E as <- <-.
  - unfold rewind_to_frame in E. destruct (filter_data m !! f) as [d|] eqn:Ed; [|by simplify_eq].
    case_decide; [by simplify_eq|]. case_match; [by simplify_eq|]. injection E as <- <-. split; [|done].
    apply map_Forall_insert_2; [|done]. apply rewind_window_wf. by eapply Hm.
  - unfold prune_old_data in E. destruct (instant_checked_sub _ _ _); simplify_eq; [|done]. split; [|done].
    intros f d Hd. apply map_lookup_filter_Some in Hd as [Hd _]. by eapply Hm.
Qed.

Lemma reachable_wf w m : reachable w m -> wf_manager m /\ window_size m = (w `min` MAX_WINDOW_SIZE)%nat.
Proof.
  induction 1 as [|m m' _ [IH1 IH2] Hs]; [split; [apply map_Forall_empty|done]|].
  destruct (step_wf m m' IH1 Hs). split; [done|congruence].
Qed.

(** ** What the manager promises *)

Definition zsum (l : list Z) : Z := foldr Z.add 0 l.
Definition window_of (m : FeeManager) (f : list byte) : list FeeVote :=
  match filter_data m !! f with Some d => votes d | None => [] end.

Lemma history_window m f : get_vote_history m f = Ok (fee_multiplier_vote <$> window_of m f).
Proof. unfold get_vote_history, window_of. by destruct (filter_data m !! f). Qed.
Lemma vote_sum_zsum l : vote_sum l = zsum (fee_multiplier_vote <$> l).
Proof. unfold vote_sum, zsum. induction l as [|v l IH]; [done|]. rewrite fmap_cons, !foldr_cons. lia. Qed.
Lemma zsum_bounds lo hi l : Forall (fun x => lo <= x <= hi) l ->
  lo * Z.of_nat (length l) <= zsum l <= hi * Z.of_nat (length l).
Proof.
  unfold zsum. induction 1 as [|x l Hx _ IH]; [cbn; lia|]. rewrite foldr_cons, length_cons, Nat2Z.inj_succ. lia.
Qed.

Lemma next_multiplier_mean w m f h : reachable w m -> get_vote_history m f = Ok h -> h <> [] -> zsum h < 2 ^ 64 ->
  get_next_fee_multiplier m f = Ok (zsum h / Z.of_nat (length h)).
Proof.
  intros [Hm _]%reachable_wf Hh Hne Hsum. unfold get_vote_history, get_next_fee_multiplier in *.
  destruct (filter_data m !! f) as [d|] eqn:E; injection Hh as <-; [|done]. destruct (Hm f d E) as [_ _ Hv Hs].
  case_decide as Hd; [by rewrite Hd in Hne|]. rewrite Hs, vote_sum_zsum, length_fmap, wrap_u64_id; [done|].
  split; [|done]. pose proof (zsum_bounds 0 u64_max (fee_multiplier_vote <$> votes d)) as Hb. cbn in Hb.
  apply Hb, Forall_fmap. eapply Forall_impl; [exact Hv|]. unfold is_u64, u64_max. cbn. lia.
Qed.


(** Votes of one filter, added one after the other. *)
Definition add_all (m : FeeManager) (f : list byte) (now : Z) (vs : list FeeVote) : FeeManager :=
  foldl (fun m v => (add_frame_fee_vote m f (frame_number v) (fee_multiplier_vote v) now).1) m vs.


(** ** The sliding window *)

Definition last_votes (w : nat) (l : list FeeVote) : list FeeVote := drop (length l - w) l.

Lemma last_last_votes w l v : last (last_votes w l) = Some v -> last l = Some v.
Proof.
  unfold last_votes. intros H. rewrite <- (take_drop (length l - w) l), last_app, H. done.
Qed.

Lemma push_last_votes w d v now l : votes d = last_votes w l ->
  votes (push_vote w d v now) = last_votes w (l ++ [v]).
Proof.
  intros E. unfold push_vote. rewrite E. unfold last_votes.
  assert (length (drop (length l - w) l) = length l `min` w)%nat as El by (rewrite length_drop; lia).
  cbv zeta. rewrite !length_app, El. cbn [length].
  destruct (Nat.ltb_spec w (length l `min` w + 1)) as [Hlt|Hge].
  - replace (length l + 1 - w)%nat with ((length l - w) + 1)%nat by lia.
    rewrite <- drop_drop, (drop_app_le l) by lia.
    destruct (drop (length l - w) l ++ [v]) as [|old rest] eqn:Ep; [by destruct (drop _ l)|done].
  - cbn. replace (length l + 1 - w)%nat with 0%nat by lia. by replace (length l - w)%nat with 0%nat by lia.
Qed.

Lemma add_newer m f v now : (forall u, last (window_of m f) = Some u -> newer u v) ->
  add_frame_fee_vote m f (frame_number v) (fee_multiplier_vote v) now =
  (mkFeeManager (<[f := push_vote (window_size m) (default (FilterFeeData_new now) (filter_data m !! f)) v now]> (filter_data m))
     (window_size m), Ok ()).
Proof.
  intros Hn. unfold add_frame_fee_vote, window_of in *.
  destruct v as [fr vo]. destruct (filter_data m !! f) as [d|]; cbn [from_option id]; [|done].
  destruct (last (votes d)) as [u|]; [|done]. specialize (Hn u eq_refl). unfold newer in Hn. cbn in Hn |- *.
  by destruct (Z.leb_spec fr (frame_number u)); [lia|].
Qed.

Lemma window_default m f now : votes (default (FilterFeeData_new now) (filter_data m !! f)) = window_of m f.
Proof. unfold window_of. by destruct (filter_data m !! f). Qed.

Lemma add_all_window m f now vs l :
  window_of m f = last_votes (window_size m) l -> StronglySorted newer (l ++ vs) ->
  window_of (add_all m f now vs) f = last_votes (window_size m) (l ++ vs).
Proof.
  revert m l. induction vs as [|v vs IH]; intros m l Hw Hs; cbn [add_all foldl]; [by rewrite app_nil_r|].
  rewrite add_newer; cbn [fst].
  - rewrite cons_middle, app_assoc in *. apply (IH (mkFeeManager _ (window_size m)) (l ++ [v])); [|done].
    unfold window_of at 1. cbn. rewrite lookup_insert_eq. apply push_last_votes. by rewrite window_default.
  - intros u Hu. rewrite Hw in Hu. apply last_last_votes, last_Some in Hu as [l' ->].
    eapply StronglySorted_app_1_elem_of; [exact Hs| |]; set_solver.
Qed.

(** Votes arriving in strictly increasing frame order leave exactly the most
    recent [min(window, 360)] of them in the window of a fresh manager, in
    order, whatever was evicted on the way. *)
Theorem sliding_window_keeps_last w f now vs : StronglySorted newer vs ->
  get_vote_history (add_all (FeeManager_new w) f now vs) f =
  Ok (fee_multiplier_vote <$> last_votes (w `min` MAX_WINDOW_SIZE) vs).
Proof.
  intros Hs. rewrite history_window. do 2 f_equal.
  by apply (add_all_window (FeeManager_new w) f now vs []).
Qed.

Lemma sliding_window_keeps_last_witness :
  get_vote_history (add_all (FeeManager_new 2) [x01] 5 [mkVote 1 300; mkVote 4 120; mkVote 9 90]) [x01] =
  Ok [120; 90].
Proof.
  apply (sliding_window_keeps_last 2 [x01] 5 [mkVote 1 300; mkVote 4 120; mkVote 9 90]).
  repeat constructor; unfold newer; cbn; lia.
Defined.

Lemma rewind_window m f frame : StronglySorted newer (window_of m f) ->
  exists m', rewind_to_frame m f frame =
    (m', Ok (length (base.filter (fun v => frame < frame_number v) (window_of m f)))) /\
    window_of m' f = base.filter (fun v => frame_number v <= frame) (window_of m f) /\
    (forall g, g <> f -> window_of m' g = window_of m g).
Proof.
  intros Hs. unfold rewind_to_frame. destruct (position_splits frame _ Hs) as [Ht Hd]. rewrite <- Ht, <- Hd.
  unfold window_of in *. destruct (filter_data m !! f) as [d|] eqn:E; [|exists m; rewrite E; by split_and!].
  case_decide as Hv; [rewrite Hv; exists m; rewrite E, Hv; by split_and!|].
  set (k := position_or_len _ _). rewrite length_drop. case_match eqn:Hk.
  - apply Nat.eqb_eq in Hk. exists m. rewrite Hk, E. split_and!; [done| |done].
    by rewrite take_ge by lia.
  - eexists. split; [reflexivity|]. cbn. rewrite lookup_insert_eq. split; [done|].
    intros g Hg. by rewrite lookup_insert_ne.
Qed.

(** Rewinding a filter in any reachable state removes exactly the votes for
    frames after [frame], reports how many, leaves the other filters alone, and
    makes the manager accept a vote for any frame after [frame] again. *)
Theorem rewind_removes_later w m f frame : reachable w m ->
  exists m', rewind_to_frame m f frame =
    (m', Ok (length (base.filter (fun v => frame < frame_number v) (window_of m f)))) /\
    window_of m' f = base.filter (fun v => frame_number v <= frame) (window_of m f) /\
    (forall g, g <> f -> window_of m' g = window_of m g) /\
    (forall v now, frame < frame_number v ->
       (add_frame_fee_vote m' f (frame_number v) (fee_multiplier_vote v) now).2 = Ok ()).
Proof.
  intros [Hm _]%reachable_wf. destruct (rewind_window m f frame) as (m' & E & Ef & Eg).
  { unfold window_of. destruct (filter_data m !! f) as [d|] eqn:Ed; [by eapply Hm|constructor]. }
  exists m'. split_and!; [done..|]. intros v now Hv. rewrite add_newer; [done|]. intros u Hu.
  rewrite Ef in Hu. apply last_Some_elem_of, list_elem_of_filter in Hu as [Hle _]. unfold newer. lia.
Qed.

Lemma rewind_removes_later_witness : exists m',
  rewind_to_frame (add_all (FeeManager_new 5) [] 0 [mkVote 7 100]) [] 6 = (m', Ok 1%nat) /\ window_of m' [] = [] /\
  (forall g, g <> [] -> window_of m' g = window_of (add_all (FeeManager_new 5) [] 0 [mkVote 7 100]) g) /\
  (forall v now, 6 < frame_number v ->
     (add_frame_fee_vote m' [] (frame_number v) (fee_multiplier_vote v) now).2 = Ok ()).
Proof.
  apply (rewind_removes_later 5 (add_all (FeeManager_new 5) [] 0 [mkVote 7 100]) [] 6).
  unfold add_all. cbn [foldl frame_number fee_multiplier_vote].
  eapply reach_step; [apply reach_new|eapply step_add; [| |apply surjective_pairing]; unfold is_u64; lia].
Defined.

(** ** Traffic adjustment *)

Lemma percent_range x : 0 < x < 2 ^ 55 ->
  0 <= Z.quot (as_i64 (x * 100)) TARGET_FRAME_TIME_MS.
Proof.
  intros Hx. rewrite as_i64_id by (unfold is_i64; lia). apply Z.quot_pos; unfold TARGET_FRAME_TIME_MS; lia.
Qed.

Lemma adjustment_range base p : is_u64 base -> base * 10 < 2 ^ 64 -> 0 <= p ->
  let p' := if MAX_ADJUSTMENT_PERCENT <? p then MAX_ADJUSTMENT_PERCENT else p in
  0 <= wrap_u64 (base * wrap_u64 p') / 100 <= base / 10.
Proof.
  intros Hb H10 Hp p'. assert (0 <= p' <= 10) as Hp'.
  { unfold p', MAX_ADJUSTMENT_PERCENT. destruct (Z.ltb_spec 10 p); lia. }
  unfold is_u64 in *. rewrite (wrap_u64_id p') by (unfold is_u64; lia).
  rewrite wrap_u64_id by (unfold is_u64; nia).
  split; [apply Z.div_pos; nia|]. apply Z.div_le_lower_bound; [lia|].
  pose proof (Z.div_mod (base * p') 100 ltac:(lia)). pose proof (Z.mod_pos_bound (base * p') 100 ltac:(lia)). nia.
Qed.

(** For clocks in range and fees below [2^64 / 10], the reward-greedy
    adjustment moves the fee by at most a tenth, down only when the frame came
    faster than the ten-second target and up only when it came slower, leaves
    it alone on target, and never returns zero. *)
Theorem adjustment_bounded base current previous :
  is_u64 base -> base * 10 < 2 ^ 64 -> 1 <= base -> 0 <= current < 2 ^ 54 -> 0 <= previous < 2 ^ 54 ->
  let fee := adjust_fee_for_traffic base current previous true in
  1 <= fee /\ base - base / 10 <= fee <= base + base / 10 /\
  (current - previous < TARGET_FRAME_TIME_MS -> fee <= base) /\
  (TARGET_FRAME_TIME_MS < current - previous -> base <= fee) /\
  (current - previous = TARGET_FRAME_TIME_MS -> fee = base).
Proof.
  intros Hb H10 H1 Hc Hp. unfold adjust_fee_for_traffic. cbn [negb].
  destruct (Z.eqb_spec base 0); [lia|]. rewrite (as_i64_id (current - previous)) by (unfold is_i64; lia).
  cbv zeta. set (t := current - previous) in *.
  pose proof (Z.div_pos base 10 ltac:(lia) ltac:(lia)).
  pose proof (Z.div_le_upper_bound base 10 base ltac:(lia) ltac:(lia)).
  destruct (Z.ltb_spec t TARGET_FRAME_TIME_MS), (Z.ltb_spec TARGET_FRAME_TIME_MS t); try lia.
  - unfold TARGET_FRAME_TIME_MS in *. rewrite (as_i64_id (10000 - t)) by (unfold is_i64; lia).
    pose proof (adjustment_range base _ Hb H10 (percent_range (10000 - t) ltac:(lia))) as Ha.
    unfold saturating_sub_u64. cbv zeta in Ha. unfold TARGET_FRAME_TIME_MS in Ha. lia.
  - unfold TARGET_FRAME_TIME_MS in *. rewrite (as_i64_id (t - 10000)) by (unfold is_i64; lia).
    pose proof (adjustment_range base _ Hb H10 (percent_range (t - 10000) ltac:(lia))) as Ha.
    unfold saturating_add_u64, u64_max. cbv zeta in Ha. unfold TARGET_FRAME_TIME_MS in Ha.
    unfold is_u64 in Hb. lia.
Qed.

Lemma adjustment_bounded_witness :
  let fee := adjust_fee_for_traffic 1000 15000 10000 true in
  1 <= fee /\ 1000 - 1000 / 10 <= fee <= 1000 + 1000 / 10 /\
  (15000 - 10000 < TARGET_FRAME_TIME_MS -> fee <= 1000) /\
  (TARGET_FRAME_TIME_MS < 15000 - 10000 -> 1000 <= fee) /\
  (15000 - 10000 = TARGET_FRAME_TIME_MS -> fee = 1000).
Proof. apply (adjustment_bounded 1000 15000 10000); unfold is_u64; lia. Defined.
