(* ===== verification/Bitmask.v ===== *)
(** * Signer bitmasks ([src/crates/quil-consensus/src/bitmask.rs])

    Bit [i] of a mask is bit [i mod 8], least significant first, of byte
    [i / 8].  A mask stands for a set of committee indices; the operations are
    shown to be the set operations. *)

From stdpp Require Import sorting.
From S2P Require Import Prelude Bytes.
#[local] Open Scope Z_scope.

Definition bits8 : list nat := seq 0 8.

Definition count_ones (b : byte) : Z :=
  foldr Z.add 0 ((fun k => Z.b2z (Z.testbit (byte_val b) (Z.of_nat k))) <$> bits8).

(** [iter().map(count_ones).sum()] in [u32], which wraps. *)
Definition count_bits (bitmask : list byte) : Z :=
  foldl (fun s b => wrap_u32 (s + count_ones b)) 0 bitmask.

(** [*a.get(i).unwrap_or(&0)]. *)
Definition byte_at (a : list byte) (i : nat) : Z := match a !! i with Some b => byte_val b | None => 0 end.

Definition has_overlapping_bits (a b : list byte) : bool :=
  existsb (fun i => negb (Z.land (byte_at a i) (byte_at b i) =? 0)) (seq 0 (length a `max` length b)).

Definition bit_is_set (bitmask : list byte) (index : nat) : bool :=
  let byte_idx := (index / 8)%nat in
  let bit_idx := (index mod 8)%nat in
  match bitmask !! byte_idx with
  | Some b => Z.land (Z.shiftr (byte_val b) (Z.of_nat bit_idx)) 1 =? 1
  | None => false
  end.

Definition set_bit (bitmask : list byte) (index : nat) : list byte :=
  let byte_idx := (index / 8)%nat in
  let bit_idx := (index mod 8)%nat in
  let bitmask := if (length bitmask <=? byte_idx)%nat then resize (byte_idx + 1) x00 bitmask else bitmask in
  alter (fun b => byte_of (Z.lor (byte_val b) (Z.shiftl 1 (Z.of_nat bit_idx)))) byte_idx bitmask.

Definition intersect (a b : list byte) : list byte :=
  (fun i => byte_of (Z.land (byte_at a i) (byte_at b i))) <$> seq 0 (length a `min` length b).

Definition union (a b : list byte) : list byte :=
  (fun i => byte_of (Z.lor (byte_at a i) (byte_at b i))) <$> seq 0 (length a `max` length b).

(** The [flat_map] over [enumerate]; [start] is the index of the first byte. *)
Fixpoint set_bit_indices_from (start : nat) (bitmask : list byte) : list nat :=
  match bitmask with
  | [] => []
  | b :: rest =>
      ((fun k => start * 8 + k)%nat <$>
         base.filter (fun k => Z.land (byte_val b) (Z.shiftl 1 (Z.of_nat k)) <> 0) bits8)
      ++ set_bit_indices_from (S start) rest
  end.
Definition set_bit_indices (bitmask : list byte) : list nat := set_bit_indices_from 0 bitmask.

(** ** Bits of bytes *)

Lemma land_shiftr_bit z k : (Z.land (Z.shiftr z k) 1 =? 1) = Z.testbit z k.
Proof.
  change 1 with (Z.ones 1) at 1. rewrite Z.land_ones by lia. change (2 ^ 1) with 2.
  rewrite <- Z.bit0_mod, Z.shiftr_spec by lia. rewrite Z.add_0_l. by destruct (Z.testbit z k).
Qed.

Lemma land_bit_zero z k : 0 <= k -> (Z.land z (Z.shiftl 1 k) =? 0) = negb (Z.testbit z k).
Proof.
  intros Hk. destruct (Z.eqb_spec (Z.land z (Z.shiftl 1 k)) 0) as [E|E].
  - assert (Z.testbit (Z.land z (Z.shiftl 1 k)) k = false) as Ht by (by rewrite E, Z.bits_0).
    rewrite Z.land_spec, Z.shiftl_spec, Z.sub_diag in Ht by done. by destruct (Z.testbit z k).
  - destruct (Z.testbit z k) eqn:Ez; [done|]. destruct E. apply Z.bits_inj'. intros n Hn.
    rewrite Z.land_spec, Z.shiftl_1_l, Z.pow2_bits_eqb, Z.bits_0 by done.
    destruct (Z.eqb_spec k n) as [<-|]; [by rewrite Ez|by rewrite andb_false_r].
Qed.

Lemma byte_of_bit z k : 0 <= k < 8 -> Z.testbit (byte_val (byte_of z)) k = Z.testbit z k.
Proof. intros Hk. rewrite byte_val_of. change 256 with (2 ^ 8). apply Z.mod_pow2_bits_low. lia. Qed.

Lemma byte_high_bit b k : 8 <= k -> Z.testbit (byte_val b) k = false.
Proof.
  intros Hk. pose proof (byte_val_range b). rewrite <- (Z.mod_small (byte_val b) (2 ^ 8)) by (cbn; lia).
  apply Z.mod_pow2_bits_high. lia.
Qed.

(** Every mask operation reads a mask through this characteristic function. *)
Lemma bit_is_set_at m i :
  bit_is_set m i = Z.testbit (byte_at m (i / 8)) (Z.of_nat (i mod 8)).
Proof.
  unfold bit_is_set, byte_at. destruct (m !! (i / 8)%nat); [apply land_shiftr_bit|by rewrite Z.bits_0].
Qed.

Lemma byte_at_beyond m i : (length m <= i)%nat -> byte_at m i = 0.
Proof. intros Hi. unfold byte_at. by rewrite lookup_ge_None_2. Qed.

Lemma byte_at_high m i k : 8 <= k -> Z.testbit (byte_at m i) k = false.
Proof. intros Hk. unfold byte_at. destruct (m !! i); [by apply byte_high_bit|apply Z.bits_0]. Qed.

(** A mask tabulated byte by byte from [f]. *)
Lemma byte_at_tabulate (f : nat -> byte) n i :
  byte_at (f <$> seq 0 n) i = if (i <? n)%nat then byte_val (f i) else 0.
Proof.
  unfold byte_at. rewrite list_lookup_fmap. destruct (Nat.ltb_spec i n).
  - by rewrite lookup_seq_lt.
  - by rewrite lookup_seq_ge.
Qed.

Lemma mod8 i : 0 <= Z.of_nat (i mod 8) < 8.
Proof. pose proof (Nat.mod_upper_bound i 8). lia. Qed.

Lemma union_bit a b i : bit_is_set (union a b) i = bit_is_set a i || bit_is_set b i.
Proof.
  rewrite !bit_is_set_at. unfold union. rewrite byte_at_tabulate. destruct (Nat.ltb_spec (i / 8) (length a `max` length b)).
  - rewrite byte_of_bit by apply mod8. apply Z.lor_spec.
  - by rewrite !byte_at_beyond, !Z.bits_0 by lia.
Qed.

Lemma intersect_bit a b i : bit_is_set (intersect a b) i = bit_is_set a i && bit_is_set b i.
Proof.
  rewrite !bit_is_set_at. unfold intersect. rewrite byte_at_tabulate. destruct (Nat.ltb_spec (i / 8) (length a `min` length b)).
  - rewrite byte_of_bit by apply mod8. apply Z.land_spec.
  - destruct (decide (length a <= i / 8)%nat); [by rewrite (byte_at_beyond a), !Z.bits_0 by lia|].
    by rewrite (byte_at_beyond b), !Z.bits_0, andb_false_r by lia.
Qed.

Lemma byte_at_resize m n i : (length m <= n)%nat -> byte_at (resize n x00 m) i = byte_at m i.
Proof.
  intros Hn. unfold byte_at. destruct (decide (i < length m)%nat) as [Hi|Hi].
  - by rewrite lookup_resize by lia.
  - rewrite (lookup_ge_None_2 m) by lia. destruct (decide (i < n)%nat).
    + by rewrite lookup_resize_new by lia.
    + by rewrite lookup_resize_old by lia.
Qed.

Lemma set_bit_bit m j i : bit_is_set (set_bit m j) i = (i =? j)%nat || bit_is_set m i.
Proof.
  rewrite !bit_is_set_at. unfold set_bit. cbv zeta.
  set (m' := if (length m <=? j / 8)%nat then _ else _).
  assert (forall k, byte_at m' k = byte_at m k) as Hm.
  { intros k. unfold m'. destruct (Nat.leb_spec (length m) (j / 8)); [|done]. apply byte_at_resize. lia. }
  assert (is_Some (m' !! (j / 8)%nat)) as [b Hb].
  { apply lookup_lt_is_Some. unfold m'. destruct (Nat.leb_spec (length m) (j / 8)); [rewrite length_resize|]; lia. }
  rewrite <- Hm. unfold byte_at. destruct (decide (j / 8 = i / 8)%nat) as [E|E].
  - rewrite <- E, list_lookup_alter_eq, Hb. cbn [fmap option_fmap option_map]. rewrite byte_of_bit by apply mod8.
    rewrite Z.lor_spec, Z.shiftl_1_l, Z.pow2_bits_eqb, orb_comm by lia. f_equal.
    pose proof (Nat.div_mod_eq i 8). pose proof (Nat.div_mod_eq j 8).
    destruct (Z.eqb_spec (Z.of_nat (j mod 8)) (Z.of_nat (i mod 8))), (Nat.eqb_spec i j); subst; try done; lia.
  - rewrite list_lookup_alter_ne by done. destruct (Nat.eqb_spec i j); [by subst|done].
Qed.

(** Masks are sets of signers: the union and the intersection have exactly
    the bits of either and of both masks, and setting a bit adds that index and
    no other, whatever the lengths of the masks. *)
Theorem bitmask_set_algebra a b i j :
  bit_is_set (union a b) i = bit_is_set a i || bit_is_set b i /\
  bit_is_set (intersect a b) i = bit_is_set a i && bit_is_set b i /\
  bit_is_set (set_bit a j) i = (i =? j)%nat || bit_is_set a i.
Proof. split_and!; [apply union_bit|apply intersect_bit|apply set_bit_bit]. Qed.

(** The equivocation check is exact: it reports an overlap if and only if some
    committee index is set in both masks. *)
Theorem overlap_is_common_signer a b :
  has_overlapping_bits a b = true <-> exists i, bit_is_set a i = true /\ bit_is_set b i = true.
Proof.
  unfold has_overlapping_bits. rewrite existsb_exists. split.
  - intros (x & _ & Hx). apply negb_true_iff, Z.eqb_neq in Hx.
    assert (0 <= Z.land (byte_at a x) (byte_at b x)) as Hnn.
    { apply Z.land_nonneg. left. unfold byte_at. destruct (a !! x) as [y|]; [|done]. pose proof (byte_val_range y). lia. }
    set (k := Z.log2 (Z.land (byte_at a x) (byte_at b x))).
    assert (Z.testbit (Z.land (byte_at a x) (byte_at b x)) k = true) as Hk by (apply Z.bit_log2; lia).
    rewrite Z.land_spec in Hk. apply andb_true_iff in Hk as [Ha Hb].
    assert (0 <= k) as Hk0 by apply Z.log2_nonneg.
    assert (k < 8) as Hk8. { apply Z.nle_gt. intros H. by rewrite byte_at_high in Ha. }
    exists (x * 8 + Z.to_nat k)%nat. rewrite !bit_is_set_at.
    replace ((x * 8 + Z.to_nat k) / 8)%nat with x by (apply (Nat.div_unique _ _ _ (Z.to_nat k)); lia).
    replace ((x * 8 + Z.to_nat k) mod 8)%nat with (Z.to_nat k) by (apply (Nat.mod_unique _ _ x); lia).
    by rewrite Z2Nat.id.
  - intros (i & Ha & Hb). rewrite bit_is_set_at in Ha, Hb. exists (i / 8)%nat. split.
    + apply in_seq. split; [lia|]. apply Nat.nle_gt. intros H.
      rewrite byte_at_beyond, Z.bits_0 in Ha by lia. done.
    + apply negb_true_iff, Z.eqb_neq. intros E.
      assert (Z.testbit (Z.land (byte_at a (i / 8)) (byte_at b (i / 8))) (Z.of_nat (i mod 8)) = true) as H
        by (by rewrite Z.land_spec, Ha, Hb). by rewrite E, Z.bits_0 in H.
Qed.

(** ** Enumeration *)

Lemma byte_filter_elem b k :
  k ∈ base.filter (fun k => Z.land (byte_val b) (Z.shiftl 1 (Z.of_nat k)) <> 0) bits8 <->
  (k < 8)%nat /\ Z.testbit (byte_val b) (Z.of_nat k) = true.
Proof.
  rewrite list_elem_of_filter. unfold bits8. rewrite elem_of_seq, <- Z.eqb_neq, land_bit_zero, negb_false_iff by lia.
  naive_solver lia.
Qed.

Lemma indices_elem start m i :
  i ∈ set_bit_indices_from start m <-> (start * 8 <= i)%nat /\ bit_is_set m (i - start * 8) = true.
Proof.
  revert start. induction m as [|b m IH]; intros start; cbn [set_bit_indices_from].
  - rewrite elem_of_nil, bit_is_set_at, byte_at_beyond, Z.bits_0 by (cbn; lia). naive_solver.
  - rewrite elem_of_app, IH, list_elem_of_fmap, !bit_is_set_at. setoid_rewrite byte_filter_elem. split.
    + intros [(k & -> & Hk & Hb)|[Hi Hb]].
      * split; [lia|]. replace (start * 8 + k - start * 8)%nat with k by lia. by rewrite Nat.div_small, Nat.mod_small.
      * split; [lia|]. replace (i - start * 8)%nat with (i - S start * 8 + 1 * 8)%nat by lia.
        by rewrite Nat.div_add, Nat.Div0.mod_add, Nat.add_1_r by lia.
    + intros [Hi Hb]. destruct (decide (i - start * 8 < 8)%nat) as [Hlt|Hge].
      * left. exists (i - start * 8)%nat. rewrite Nat.div_small, Nat.mod_small in Hb by done. split_and!; [lia|done..].
      * right. split; [lia|]. replace (i - start * 8)%nat with (i - S start * 8 + 1 * 8)%nat in Hb by lia.
        by rewrite Nat.div_add, Nat.Div0.mod_add, Nat.add_1_r in Hb by lia.
Qed.

Lemma count_ones_filter b :
  count_ones b = Z.of_nat (length (base.filter (fun k => Z.land (byte_val b) (Z.shiftl 1 (Z.of_nat k)) <> 0) bits8)).
Proof. destruct b; vm_compute; reflexivity. Qed.

Lemma count_ones_range b : 0 <= count_ones b <= 8.
Proof. destruct b; vm_compute; split; discriminate. Qed.

Lemma count_bits_sum m acc : 0 <= acc -> acc + 8 * Z.of_nat (length m) < 2 ^ 32 ->
  forall start, foldl (fun s b => wrap_u32 (s + count_ones b)) acc m = acc + Z.of_nat (length (set_bit_indices_from start m)).
Proof.
  revert acc. induction m as [|b m IH]; intros acc Ha Hm start; cbn [foldl set_bit_indices_from length] in *; [lia|].
  pose proof (count_ones_range b). replace (wrap_u32 (acc + count_ones b)) with (acc + count_ones b)
    by (symmetry; apply Z.mod_small; lia).
  rewrite (IH (acc + count_ones b) ltac:(lia) ltac:(lia) (S start)), length_app, length_fmap, count_ones_filter. lia.
Qed.

Lemma seq_filter_sorted (P : nat -> Prop) `{!forall x, Decision (P x)} n k (f : nat -> nat) :
  (forall x y, (x < y)%nat -> (f x < f y)%nat) -> StronglySorted lt (f <$> base.filter P (seq n k)).
Proof.
  intros Hf. revert n. induction k as [|k IH]; intros n; [constructor|]. cbn [seq]. rewrite filter_cons.
  case_decide; [|done]. rewrite fmap_cons. constructor; [done|]. apply Forall_fmap, Forall_forall.
  intros x [_ Hx%elem_of_seq]%list_elem_of_filter. cbn. apply Hf. lia.
Qed.

Lemma indices_sorted start m : StronglySorted lt (set_bit_indices_from start m).
Proof.
  revert start. induction m as [|b m IH]; intros start; cbn [set_bit_indices_from]; [constructor|].
  apply StronglySorted_app_2; [|apply seq_filter_sorted; lia|done].
  intros x y (k & -> & Hk%byte_filter_elem)%list_elem_of_fmap [Hy _]%indices_elem. lia.
Qed.

(** Enumerating a mask lists exactly its set bits, each once and in
    increasing order, and the population count is their number while the mask
    is shorter than 2^29 bytes (where the [u32] sum could wrap). *)
Theorem set_bit_indices_exact m : 8 * Z.of_nat (length m) < 2 ^ 32 ->
  (forall i, i ∈ set_bit_indices m <-> bit_is_set m i = true) /\
  StronglySorted lt (set_bit_indices m) /\
  count_bits m = Z.of_nat (length (set_bit_indices m)).
Proof.
  intros Hm. split_and!.
  - intros i. unfold set_bit_indices. rewrite indices_elem. replace (i - 0 * 8)%nat with i by lia. naive_solver lia.
  - apply indices_sorted.
  - by apply (count_bits_sum m 0).
Qed.

Lemma set_bit_indices_exact_witness :
  (forall i, i ∈ set_bit_indices [x05; x80] <-> bit_is_set [x05; x80] i = true) /\
  StronglySorted lt (set_bit_indices [x05; x80]) /\ count_bits [x05; x80] = Z.of_nat (length [0; 2; 15]).
Proof. apply (set_bit_indices_exact [x05; x80]). cbn. lia. Defined.
