(* ===== verification/ForkChoice.v ===== *)
(** * Fork choice ([src/crates/quil-engine/src/fork_choice.rs])

    Scores are exact integers; [BigInt] division truncates towards zero and
    panics on a zero divisor. *)

From S2P Require Import Prelude Bytes.

Definition SCALE : Z := u64_max.

Record Frame := mkFrame {
  distance : Z;
  seniority : Z;
  prover_address : list byte;
}.
Record Branch := mkBranch { frames : list Frame }.

Record Params := mkParams {
  r_max : Z;
  wr_numer : Z;
  wp_numer : Z;
  w_denom : Z;
  al_numer : Z;
  al_denom : Z;
  blend_window : nat;
  beta_numer : Z;
  beta_denom : Z;
  epsilon : Z;
}.
Definition default_params : Params := mkParams u64_max 7 3 10 9 10 5 1 10 0.

Definition big_div (a b : Z) : result Z := if b =? 0 then Panic else Ok (Z.quot a b).

Definition clamp (x lo hi : Z) : Z := if x <? lo then lo else if hi <? x then hi else x.

Definition rho_scaled (rank r_max : Z) : result Z :=
  let tmp := (r_max - rank) * SCALE in
  result ← big_div tmp r_max;
  if result <? 0 then Ok 0
  else if SCALE <? result then Ok SCALE
  else Ok result.

(** One turn of the loop over [br.frames]. *)
Definition raw_step (cfg : Params) (raw : Z) (frame : Frame) : result Z :=
  rho ← rho_scaled (distance frame) (r_max cfg);
  let pi := clamp (seniority frame) 0 SCALE in
  frame_score ← big_div (wr_numer cfg * rho + wp_numer cfg * pi) (w_denom cfg);
  decayed ← big_div (raw * al_numer cfg) (al_denom cfg);
  Ok (decayed + frame_score).

Fixpoint raw_score (cfg : Params) (raw : Z) (fs : list Frame) : result Z :=
  match fs with
  | [] => Ok raw
  | f :: fs' => raw' ← raw_step cfg raw f; raw_score cfg raw' fs'
  end.

(** The [HashSet] of active provers. *)
Definition active_provers (fs : list Frame) : gset (list byte) :=
  list_to_set (prover_address <$> base.filter (fun f => 0 < seniority f) fs).

Definition branch_score (br : Branch) (cfg : Params) : result Z :=
  if decide (frames br = []) then Ok 0
  else
    raw ← raw_score cfg 0 (frames br);
    let m := (blend_window cfg `min` length (frames br))%nat in
    if (m =? 0)%nat then Ok 0
    else
      let start := (length (frames br) - m)%nat in
      let unique := Z.of_nat (size (active_provers (drop start (frames br)))) in
      blend_scaled ← big_div (unique * SCALE) (Z.of_nat m);
      beta ← big_div (beta_numer cfg * blend_scaled) (beta_denom cfg);
      let div_bonus := SCALE + beta in
      big_div (raw * div_bonus) SCALE.

(** The loop of [fork_choice], from branch [i]. *)
Fixpoint choose (cfg : Params) (brs : list Branch) (i best_idx : nat) (best_score : Z) : result nat :=
  match brs with
  | [] => Ok best_idx
  | br :: brs' =>
      score ← branch_score br cfg;
      if best_score + epsilon cfg <? score then choose cfg brs' (S i) i score
      else choose cfg brs' (S i) best_idx best_score
  end.

Definition fork_choice (branches : list Branch) (cfg : Params) (prev_choice : nat) : result nat :=
  best_score ← match branches !! prev_choice with
               | Some br => branch_score br cfg
               | None => Ok 0
               end;
  choose cfg branches 0 prev_choice best_score.

(** Parameters that cannot panic, weights that average, and a decay below one. *)
Record wf_params (cfg : Params) : Prop := {
  wfp_rmax : 0 < r_max cfg;
  wfp_wr : 0 <= wr_numer cfg;
  wfp_wp : 0 <= wp_numer cfg;
  wfp_w : wr_numer cfg + wp_numer cfg <= w_denom cfg;
  wfp_wd : 0 < w_denom cfg;
  wfp_al : 0 <= al_numer cfg < al_denom cfg;
  wfp_beta : 0 <= beta_numer cfg;
  wfp_betad : 0 < beta_denom cfg;
  wfp_eps : 0 <= epsilon cfg;
}.

Lemma default_params_wf : wf_params default_params.
Proof. constructor; cbn; unfold u64_max; lia. Qed.

(** ** Scores *)

Lemma big_div_ok a b : 0 < b -> big_div a b = Ok (Z.quot a b).
Proof. intros Hb. unfold big_div. by destruct (Z.eqb_spec b 0); [lia|]. Qed.
Lemma quot_nonneg_div a b : 0 <= a -> 0 < b -> Z.quot a b = a / b.
Proof. intros. by apply Z.quot_div_nonneg. Qed.

Lemma rho_ok rank r : 0 < r -> exists rho, rho_scaled rank r = Ok rho /\ 0 <= rho <= SCALE.
Proof.
  intros Hr. unfold rho_scaled. rewrite big_div_ok, bind_Ok by done.
  destruct (Z.ltb_spec ((r - rank) * SCALE ÷ r) 0); [eexists; split; [done|unfold SCALE, u64_max; lia]|].
  destruct (Z.ltb_spec SCALE ((r - rank) * SCALE ÷ r)); eexists; (split; [done|]); unfold SCALE, u64_max in *; lia.
Qed.

Lemma clamp_range x : 0 <= clamp x 0 SCALE <= SCALE.
Proof. unfold clamp, SCALE, u64_max. destruct (Z.ltb_spec x 0), (Z.ltb_spec (2 ^ 64 - 1) x); lia. Qed.

(** A score bounded by the fixed point of the decay stays bounded. *)
Lemma raw_step_ok cfg raw f : wf_params cfg ->
  0 <= raw -> raw * (al_denom cfg - al_numer cfg) <= SCALE * al_denom cfg ->
  exists raw', raw_step cfg raw f = Ok raw' /\
    0 <= raw' /\ raw' * (al_denom cfg - al_numer cfg) <= SCALE * al_denom cfg.
Proof.
  intros [Hr Hwr Hwp Hw Hwd Hal _ _ _] H0 Hb. unfold raw_step.
  destruct (rho_ok (distance f) (r_max cfg) Hr) as (rho & -> & Hrho). rewrite bind_Ok.
  pose proof (clamp_range (seniority f)) as Hpi. set (pi := clamp _ _ _) in *.
  rewrite !big_div_ok, !bind_Ok by lia. eexists. split; [done|].
  rewrite !quot_nonneg_div by nia.
  set (fs := (wr_numer cfg * rho + wp_numer cfg * pi) / w_denom cfg).
  assert (0 <= fs <= SCALE) as Hfs.
  { split; [apply Z.div_pos; nia|]. apply Z.div_le_upper_bound; [lia|].
    assert (wr_numer cfg * rho + wp_numer cfg * pi <= (wr_numer cfg + wp_numer cfg) * SCALE) by nia. nia. }
  set (d := raw * al_numer cfg / al_denom cfg).
  assert (0 <= d) by (apply Z.div_pos; nia).
  assert (al_denom cfg * d <= raw * al_numer cfg) by (apply Z.mul_div_le; lia).
  split; [lia|]. destruct Hal as [Ha0 Ha1]. set (n := al_numer cfg) in *. set (q := al_denom cfg) in *.
  assert (q * (d * (q - n)) <= q * (SCALE * n)) by nia.
  assert (d * (q - n) <= SCALE * n) by nia. nia.
Qed.

Lemma raw_score_ok cfg fs raw : wf_params cfg ->
  0 <= raw -> raw * (al_denom cfg - al_numer cfg) <= SCALE * al_denom cfg ->
  exists raw', raw_score cfg raw fs = Ok raw' /\
    0 <= raw' /\ raw' * (al_denom cfg - al_numer cfg) <= SCALE * al_denom cfg.
Proof.
  intros Hc. revert raw. induction fs as [|f fs IH]; intros raw H0 Hb; cbn [raw_score]; [by exists raw|].
  destruct (raw_step_ok cfg raw f Hc H0 Hb) as (raw' & -> & H0' & Hb'). rewrite bind_Ok. by apply IH.
Qed.

Lemma unique_le fs : Z.of_nat (size (active_provers fs)) <= Z.of_nat (length fs).
Proof.
  apply Nat2Z.inj_le. unfold active_provers. set (l := prover_address <$> _).
  trans (length l); [|unfold l; rewrite length_fmap; apply length_filter].
  unfold size, set_size. cbn. apply submseteq_length, NoDup_submseteq; [apply NoDup_elements|]. set_solver.
Qed.

(** A wider bound: the bonus adds at most [beta] of the raw score. *)
Lemma branch_score_ok br cfg : wf_params cfg ->
  exists score, branch_score br cfg = Ok score /\ 0 <= score /\
    score * (al_denom cfg - al_numer cfg) * beta_denom cfg <=
    SCALE * al_denom cfg * (beta_denom cfg + beta_numer cfg).
Proof.
  intros Hc. unfold branch_score. assert (0 < SCALE) as HS by (unfold SCALE, u64_max; lia).
  assert (0 <= SCALE * al_denom cfg * (beta_denom cfg + beta_numer cfg)) as Hz.
  { destruct Hc. apply Z.mul_nonneg_nonneg; [apply Z.mul_nonneg_nonneg|]; lia. }
  case_decide as Hne; [eexists; split; [done|]; lia|].
  destruct (raw_score_ok cfg (frames br) 0 Hc ltac:(lia)) as (raw & -> & H0 & Hb); [destruct Hc; nia|].
  rewrite bind_Ok. set (m := (_ `min` _)%nat). destruct (Nat.eqb_spec m 0); [eexists; split; [done|]; lia|].
  set (u := Z.of_nat (size _)).
  assert (0 <= u <= Z.of_nat m) as Hu.
  { split; [unfold u; lia|]. etrans; [apply unique_le|]. rewrite length_drop. lia. }
  rewrite big_div_ok, bind_Ok, quot_nonneg_div by lia.
  assert (0 <= u * SCALE / Z.of_nat m <= SCALE) as Hbl.
  { split; [apply Z.div_pos; lia|]. apply Z.div_le_upper_bound; [lia|]. nia. }
  set (bl := u * SCALE / Z.of_nat m) in *. destruct Hc as [_ _ _ _ _ Hal Hbn Hbd _].
  rewrite big_div_ok, bind_Ok, quot_nonneg_div, big_div_ok by nia.
  set (be := beta_numer cfg * bl / beta_denom cfg).
  assert (0 <= be) by (apply Z.div_pos; nia).
  assert (beta_denom cfg * be <= beta_numer cfg * bl) by (apply Z.mul_div_le; lia).
  rewrite quot_nonneg_div by nia. eexists. split; [done|]. split; [apply Z.div_pos; nia|].
  set (s := raw * (SCALE + be) / SCALE).
  assert (SCALE * s <= raw * (SCALE + be)) by (apply Z.mul_div_le; lia).
  assert (beta_denom cfg * be <= beta_numer cfg * SCALE) by nia.
  assert (SCALE * (s * beta_denom cfg) <= SCALE * (raw * (beta_denom cfg + beta_numer cfg))) by nia.
  assert (s * beta_denom cfg <= raw * (beta_denom cfg + beta_numer cfg)) by nia.
  set (g := al_denom cfg - al_numer cfg) in *.
  trans (raw * (beta_denom cfg + beta_numer cfg) * g); [nia|].
  trans (raw * g * (beta_denom cfg + beta_numer cfg)); [lia|]. apply Z.mul_le_mono_nonneg_r; lia.
Qed.

(** ** The choice *)

Definition score_of (cfg : Params) (br : Branch) : Z :=
  match branch_score br cfg with Ok s => s | _ => 0 end.

Lemma score_of_ok cfg br : wf_params cfg -> branch_score br cfg = Ok (score_of cfg br).
Proof. intros Hc. unfold score_of. by destruct (branch_score_ok br cfg Hc) as (s & -> & _). Qed.

Lemma choose_spec cfg brs i best score : wf_params cfg ->
  exists r s, choose cfg brs i best score = Ok r /\ score <= s /\
    ((r = best /\ s = score) \/
     (score + epsilon cfg < s /\ exists k br, r = (i + k)%nat /\ brs !! k = Some br /\ score_of cfg br = s)) /\
    (forall br, br ∈ brs -> score_of cfg br <= s + epsilon cfg).
Proof.
  intros Hc. pose proof (wfp_eps _ Hc) as He.
  revert i best score. induction brs as [|br brs IH]; intros i best score; cbn [choose].
  { exists best, score. split_and!; [done|lia|by left|]. intros br Hbr. by apply elem_of_nil in Hbr. }
  rewrite (score_of_ok cfg br Hc), bind_Ok. destruct (Z.ltb_spec (score + epsilon cfg) (score_of cfg br)) as [Hlt|Hge].
  - destruct (IH (S i) i (score_of cfg br)) as (r & s & -> & Hs & Hr & Hall). exists r, s. split_and!; [done|lia| |].
    + right. split; [lia|]. destruct Hr as [[-> ->]|(_ & k & b & -> & Hk & Hb)].
      * exists 0%nat, br. split_and!; [lia|done..].
      * exists (S k), b. split_and!; [lia|done..].
    + intros b [-> |Hb]%elem_of_cons; [lia|by apply Hall].
  - destruct (IH (S i) best score) as (r & s & -> & Hs & Hr & Hall). exists r, s. split_and!; [done|lia| |].
    + destruct Hr as [?|(? & k & b & -> & ? & ?)]; [by left|right]. split; [done|].
      exists (S k), b. split_and!; [lia|done..].
    + intros b [-> |Hb]%elem_of_cons; [lia|by apply Hall].
Qed.

(** C28. Fork choice with hysteresis: starting from a previous choice among the
    branches, the algorithm returns a branch whose score no other branch exceeds
    by more than the tie margin, and it leaves the previous choice only for a
    branch that beats it by strictly more than the margin. *)
Theorem fork_choice_hysteresis branches cfg prev incumbent :
  wf_params cfg -> branches !! prev = Some incumbent ->
  exists r chosen, fork_choice branches cfg prev = Ok r /\ branches !! r = Some chosen /\
    (forall br, br ∈ branches -> score_of cfg br <= score_of cfg chosen + epsilon cfg) /\
    (r <> prev -> score_of cfg incumbent + epsilon cfg < score_of cfg chosen).
Proof.
  intros Hc Hp. unfold fork_choice. rewrite Hp, (score_of_ok cfg incumbent Hc), bind_Ok.
  destruct (choose_spec cfg branches 0 prev (score_of cfg incumbent) Hc) as (r & s & -> & _ & Hr & Hall).
  destruct Hr as [[-> ->]|(Hlt & k & br & -> & Hk & <-)].
  - exists prev, incumbent. by split_and!.
  - exists k, br. by split_and!.
Qed.

Definition sample_branches : list Branch :=
  [mkBranch [mkFrame 1000 5 [x01]]; mkBranch [mkFrame 10 5000 [x01]; mkFrame 7 90000 [x02]]].

Lemma fork_choice_hysteresis_witness :
  exists r chosen, fork_choice sample_branches default_params 0 = Ok r /\ sample_branches !! r = Some chosen /\
    (forall br, br ∈ sample_branches ->
       score_of default_params br <= score_of default_params chosen + epsilon default_params) /\
    (r <> 0%nat -> score_of default_params (mkBranch [mkFrame 1000 5 [x01]]) + epsilon default_params
                 < score_of default_params chosen).
Proof.
  apply (fork_choice_hysteresis sample_branches default_params 0); [apply default_params_wf|reflexivity].
Defined.

(** Under the default parameters every branch, however long, has a defined
    score between 0 and eleven times the scale: the decay and the blend bonus
    cannot accumulate without bound. *)
Theorem branch_score_bounded br :
  exists s, branch_score br default_params = Ok s /\ 0 <= s <= 11 * SCALE.
Proof.
  destruct (branch_score_ok br default_params default_params_wf) as (s & Hs & H0 & Hb).
  exists s. cbn in Hb. split; [done|lia].
Qed.

(** When the previous choice is out of range and no branch scores above the
    margin, the index returned is the out-of-range one: no branch is selected. *)
Theorem stale_choice_returned branches cfg prev :
  wf_params cfg -> (length branches <= prev)%nat -> Forall (fun br => score_of cfg br <= epsilon cfg) branches ->
  fork_choice branches cfg prev = Ok prev.
Proof.
  intros Hc Hp Hall. unfold fork_choice. rewrite lookup_ge_None_2, bind_Ok by done.
  destruct (choose_spec cfg branches 0 prev 0 Hc) as (r & s & -> & _ & Hr & _).
  destruct Hr as [[-> _]|(Hlt & k & br & -> & Hk & <-)]; [done|].
  pose proof (proj1 (Forall_lookup _ _) Hall k br Hk). cbn in *. lia.
Qed.

Lemma stale_choice_returned_witness :
  fork_choice [mkBranch []; mkBranch [mkFrame u64_max 0 [x01]]] default_params 7 = Ok 7%nat.
Proof.
  apply (stale_choice_returned _ default_params 7); [apply default_params_wf|cbn; lia|].
  repeat constructor; vm_compute; discriminate.
Defined.
