(* ===== verification/ChainChecker.v ===== *)
(** * Ancestry of a proposal ([src/crates/quil-engine/src/frame_chain_checker.rs])

    The checker walks parent selectors backwards through the clock store.  The
    store is a record of its two lookups; the Poseidon identity of an output is
    a function argument of the section, so every theorem holds for any hash.
    The loop counts the frame number down, so the walk recurses on it. *)

From S2P Require Import Prelude Bytes.

Record GlobalFrameHeader := mkHeader {
  h_frame_number : nat;
  h_parent_selector : list byte;
  h_output : list byte;
}.
Record GlobalFrame := mkGlobalFrame { gf_header : option GlobalFrameHeader }.
Record GlobalProposal := mkProposal { gp_state : option GlobalFrame }.

Record ClockStore := mkStore {
  get_global_clock_frame : nat -> result GlobalFrame;
  get_global_clock_frame_candidate : nat -> list byte -> result GlobalFrame;
}.

Section ChainChecker.
Context (hash_bytes_to_32 : list byte -> option (list byte)).
Context (store : ClockStore) (finalized_state : option (nat * list byte)).

Definition global_frame_identity (frame : GlobalFrame) : list byte :=
  match gf_header frame with
  | Some h => default [] (hash_bytes_to_32 (h_output h))
  | None => []
  end.

Definition finalized_matches (frame_number : nat) (parent_selector : list byte) : bool :=
  match finalized_state with
  | Some (fin, id) => bool_decide (frame_number = fin) && bool_decide (id = parent_selector)
  | None => false
  end.

(** Steps 2 and 3 of the loop body: [inl] returns, [inr] continues with a new
    selector. *)
Definition visit_candidate (n : nat) (parent_selector : list byte) : bool + list byte :=
  match get_global_clock_frame_candidate store n parent_selector with
  | Ok candidate =>
      match gf_header candidate with
      | None => inl false
      | Some h => if (h_frame_number h =? n)%nat then inr (h_parent_selector h) else inl false
      end
  | Err NotFound => inl (finalized_matches n parent_selector)
  | _ => inl false
  end.

(** The loop body at the decremented frame number. *)
Definition visit (n : nat) (parent_selector : list byte) : bool + list byte :=
  match get_global_clock_frame store n with
  | Ok sealed =>
      if decide (global_frame_identity sealed = parent_selector) then inl true
      else visit_candidate n parent_selector
  | Err NotFound => visit_candidate n parent_selector
  | _ => inl false
  end.

(** The [while] loop entered with [frame_number]. *)
Fixpoint walk (frame_number : nat) (parent_selector : list byte) : bool :=
  match frame_number with
  | O => false
  | S n =>
      if decide (parent_selector = []) then false
      else match visit n parent_selector with
           | inl verdict => verdict
           | inr next => walk n next
           end
  end.

Definition can_process_sequential_chain_proposal (proposal : GlobalProposal) : bool :=
  match gp_state proposal with
  | None => false
  | Some state =>
      match gf_header state with
      | None => false
      | Some h =>
          if decide (h_parent_selector h = []) then false
          else if (h_frame_number h =? 0)%nat then false
          else walk (h_frame_number h) (h_parent_selector h)
      end
  end.

(** ** Ancestry, declaratively *)

(** [links n sel]: the frame at height [n] selected by [sel] connects, through
    stored candidates, to a sealed or finalized frame. *)
Inductive links : nat -> list byte -> Prop :=
  | links_sealed n sel f :
      get_global_clock_frame store n = Ok f -> global_frame_identity f = sel -> links n sel
  | links_candidate n sel f h :
      get_global_clock_frame_candidate store (S n) sel = Ok f -> gf_header f = Some h ->
      h_frame_number h = S n -> h_parent_selector h <> [] -> links n (h_parent_selector h) -> links (S n) sel
  | links_finalized n sel :
      get_global_clock_frame_candidate store n sel = Err NotFound -> finalized_state = Some (n, sel) -> links n sel.

(** Lookups that answer: a frame, or that there is none. *)
Definition answers {A} (r : result A) : Prop := r = Err NotFound \/ exists a, r = Ok a.
Definition readable : Prop :=
  forall n sel, answers (get_global_clock_frame store n) /\ answers (get_global_clock_frame_candidate store n sel).

Lemma finalized_matches_spec n sel : finalized_matches n sel = true <-> finalized_state = Some (n, sel).
Proof.
  unfold finalized_matches. destruct finalized_state as [[k id]|]; [|done].
  rewrite andb_true_iff, !bool_decide_eq_true. naive_solver.
Qed.

(** A verdict or a continuation, read off the store. *)
Lemma visit_true n sel : visit n sel = inl true -> links n sel.
Proof.
  unfold visit, visit_candidate. intros H. repeat case_match; simplify_eq; try (by eapply links_sealed);
    by apply links_finalized, finalized_matches_spec.
Qed.

Lemma visit_next n sel p : visit n sel = inr p -> exists f h,
  get_global_clock_frame_candidate store n sel = Ok f /\ gf_header f = Some h /\ h_frame_number h = n /\ h_parent_selector h = p.
Proof.
  unfold visit, visit_candidate. intros H. repeat case_match; simplify_eq;
    match goal with E : (_ =? _)%nat = true |- _ => apply Nat.eqb_eq in E end; by eauto 10.
Qed.

Lemma walk_sound n sel : walk (S n) sel = true -> links n sel.
Proof.
  revert sel. induction n as [|n IH]; intros sel; cbn [walk]; case_decide; try done;
    destruct (visit _ sel) as [v|p] eqn:Ev; try done; try (intros ->; by apply visit_true).
  intros Hw. destruct (visit_next _ _ _ Ev) as (f & h & Hf & Hh & Hn & <-).
  eapply links_candidate; try done; [|by apply IH]. intros E. cbn [walk] in Hw. by rewrite E, decide_True in Hw.
Qed.

Lemma visit_sealed_first n sel : readable ->
  visit n sel = inl true \/ visit n sel = visit_candidate n sel.
Proof.
  intros Hr. unfold visit. destruct (Hr n sel) as [[-> |[f ->]] _]; [by right|]. case_decide; [by left|by right].
Qed.

Lemma walk_complete n sel : readable -> sel <> [] -> links n sel -> walk (S n) sel = true.
Proof.
  intros Hr Hne Hl. revert Hne. induction Hl as [n sel f Hf Hi|n sel f h Hc Hh Hn Hp _ IH|n sel Hc Hfin]; intros Hne;
    cbn [walk]; rewrite decide_False by done.
  - unfold visit. by rewrite Hf, decide_True.
  - destruct (visit_sealed_first (S n) sel Hr) as [-> | ->]; [done|]. unfold visit_candidate.
    rewrite Hc, Hh, Hn, Nat.eqb_refl. by apply IH.
  - destruct (visit_sealed_first n sel Hr) as [-> | ->]; [done|]. unfold visit_candidate. rewrite Hc.
    by apply finalized_matches_spec.
Qed.

End ChainChecker.


(** ** A finalized frame behind a candidate *)

Definition sample_hash (b : list byte) : option (list byte) := Some b.
(** Frame 4 (selector [04]) is still stored as a candidate; its parent is gone. *)
Definition sample_store : ClockStore := mkStore
  (fun _ => Err NotFound)
  (fun n sel => if decide (n = 4%nat /\ sel = [x04]) then Ok (mkGlobalFrame (Some (mkHeader 4 [x03] [x04])))
                else Err NotFound).
Definition sample_header : GlobalFrameHeader := mkHeader 5 [x04] [x05].

Lemma sample_store_readable : readable sample_store.
Proof. intros n sel. cbn. split; [by left|]. case_decide; [right; by eexists|by left]. Qed.


(** A proposal built directly on the finalized frame is refused when that frame
    is also stored as a candidate whose own parent is not stored: candidates are
    consulted before the finalized state. *)
Lemma candidate_hides_finalized :
  finalized_matches (Some (4%nat, [x04])) 4 (h_parent_selector sample_header) = true /\
  can_process_sequential_chain_proposal sample_hash sample_store (Some (4%nat, [x04]))
    (mkProposal (Some (mkGlobalFrame (Some sample_header)))) = false.
Proof. split; vm_compute; reflexivity. Qed.
