(* ===== verification/Difficulty.v ===== *)
(** * Difficulty adjustment ([src/crates/quil-engine/src/difficulty.rs])

    The ASERT rule in [i64]/[u64] fixed-point arithmetic (radix [2^16]), with
    every wrap of the source written out. *)

From S2P Require Import Prelude Bytes.

Definition IDEAL_FRAME_TIME : Z := 10000.
Definition HALF_LIFE : Z := 7200000.
Definition MIN_DIFFICULTY : Z := 50000.
Definition BOOTSTRAP_DIFFICULTY : Z := 50000.
Definition RADIX : Z := Z.shiftl 1 16.

Record AsertDifficultyAdjuster := mkAdjuster {
  anchor_frame_number : Z;
  anchor_parent_time : Z;
  anchor_difficulty : Z;
}.

(** The exponent in units of [2^-16]. *)
Definition exponent_of (a : AsertDifficultyAdjuster) (current_frame_number current_time : Z) : Z :=
  let frame_number_delta := as_i64 (as_i64 current_frame_number - as_i64 (anchor_frame_number a)) in
  let time_delta := as_i64 (current_time - anchor_parent_time a) in
  let ideal_x_delta := as_i64 (IDEAL_FRAME_TIME * as_i64 (frame_number_delta + 1)) in
  let inner := as_i64 (time_delta - ideal_x_delta) in
  let numerator := as_i64 (- as_i64 (inner * RADIX)) in
  Z.quot numerator HALF_LIFE.

(** The cubic approximation of [2^(frac / 65536)], in units of [2^-16]. *)
Definition factor_of (frac : Z) : Z :=
  let poly := wrap_u64 (195766423245049 * frac + 971821376 * frac * frac
                        + 5127 * frac * frac * frac + Z.shiftl 1 47) in
  65536 + Z.shiftr poly 48.

(** The shift, the final division and the floor, on an already scaled value. *)
Definition apply_shift (anchor scaled shifts : Z) : Z :=
  let finish scaled :=
    let scaled := Z.shiftr scaled 16 in
    if scaled <? MIN_DIFFICULTY then MIN_DIFFICULTY else scaled in
  if shifts <? 0 then
    let k := wrap_u32 (as_i64 (- shifts)) in
    finish (if 64 <=? k then 0 else Z.shiftr scaled k)
  else if (48 <? shifts) && (0 <? anchor) then u64_max
  else
    let k := wrap_u32 shifts in
    if 64 <=? k then u64_max else finish (wrap_u64 (Z.shiftl scaled k)).

Definition get_next_difficulty (a : AsertDifficultyAdjuster) (current_frame_number current_time : Z) : Z :=
  if anchor_difficulty a =? 0 then BOOTSTRAP_DIFFICULTY
  else
    let exponent := exponent_of a current_frame_number current_time in
    let shifts := Z.shiftr exponent 16 in
    let frac := Z.land exponent 65535 in
    let scaled := wrap_u64 (anchor_difficulty a * factor_of frac) in
    apply_shift (anchor_difficulty a) scaled shifts.

(** ** The polynomial *)

(** The polynomial stays below [2^64] on every 16-bit fraction, so the sum never
    wraps, and the factor runs from 1 to 2. *)
Definition poly_of (frac : Z) : Z :=
  195766423245049 * frac + 971821376 * frac * frac + 5127 * frac * frac * frac + Z.shiftl 1 47.

Lemma poly_mono f g : 0 <= f <= g -> poly_of f <= poly_of g.
Proof.
  intros Hfg. unfold poly_of.
  assert (f * f <= g * g) by nia. assert (f * f * f <= g * g * g) by nia. lia.
Qed.

Lemma poly_u64 f : 0 <= f <= 65535 -> is_u64 (poly_of f).
Proof.
  intros Hf. pose proof (poly_mono 0 f ltac:(lia)) as H0. pose proof (poly_mono f 65535 ltac:(lia)) as H1.
  unfold is_u64. change (poly_of 0) with 140737488355328 in H0.
  change (poly_of 65535) with (ltac:(let v := eval vm_compute in (poly_of 65535) in exact v)) in H1. lia.
Qed.

Lemma factor_poly f : 0 <= f <= 65535 -> factor_of f = 65536 + Z.shiftr (poly_of f) 48.
Proof. intros Hf. unfold factor_of. fold (poly_of f). by rewrite wrap_u64_id by by apply poly_u64. Qed.

Lemma shiftr_mono x y n : 0 <= n -> x <= y -> Z.shiftr x n <= Z.shiftr y n.
Proof. intros Hn Hxy. rewrite !Z.shiftr_div_pow2 by done. apply Z.div_le_mono; lia. Qed.

Lemma factor_mono f g : 0 <= f <= g -> g <= 65535 -> factor_of f <= factor_of g.
Proof.
  intros Hfg Hg. rewrite !factor_poly by lia. pose proof (shiftr_mono _ _ 48 ltac:(lia) (poly_mono f g Hfg)). lia.
Qed.

Lemma factor_range f : 0 <= f <= 65535 -> 65536 <= factor_of f <= 131072.
Proof.
  intros Hf. pose proof (factor_mono 0 f ltac:(lia) ltac:(lia)). pose proof (factor_mono f 65535 ltac:(lia) ltac:(lia)).
  change (factor_of 0) with 65536 in *.
  assert (factor_of 65535 <= 131072) by (vm_compute; discriminate). lia.
Qed.

(** ** The shift *)

Definition floored (z : Z) : Z := if z <? MIN_DIFFICULTY then MIN_DIFFICULTY else z.
Lemma floored_mono x y : x <= y -> floored x <= floored y.
Proof. intros H. unfold floored. destruct (Z.ltb_spec x MIN_DIFFICULTY), (Z.ltb_spec y MIN_DIFFICULTY); lia. Qed.

(** Without a carry out of [u64] the shift is one shift of the exact value. *)
Lemma apply_shift_exact anchor scaled s : 0 <= scaled < 2 ^ 49 -> - 2 ^ 31 <= s <= 15 ->
  apply_shift anchor scaled s = floored (Z.shiftr scaled (16 - s)).
Proof.
  intros Hsc Hs. unfold apply_shift, floored. destruct (Z.ltb_spec s 0).
  - rewrite as_i64_id by (unfold is_i64; lia). unfold wrap_u32. rewrite Z.mod_small by lia.
    destruct (Z.leb_spec 64 (- s)).
    + assert (Z.shiftr scaled (16 - s) = 0) as ->; [|done].
      rewrite Z.shiftr_div_pow2 by lia. apply Z.div_small. split; [lia|].
      etrans; [apply Hsc|]. apply Z.pow_lt_mono_r; lia.
    + rewrite Z.shiftr_shiftr by lia. by replace (- s + 16) with (16 - s) by lia.
  - destruct (Z.ltb_spec 48 s); [lia|]. cbn [andb]. unfold wrap_u32. rewrite Z.mod_small by lia.
    destruct (Z.leb_spec 64 s); [lia|].
    assert (is_u64 (Z.shiftl scaled s)) as Hu.
    { unfold is_u64. rewrite Z.shiftl_mul_pow2 by lia.
      pose proof (Z.pow_le_mono_r 2 s 15 ltac:(lia) ltac:(lia)). pose proof (Z.pow_pos_nonneg 2 s ltac:(lia) ltac:(lia)).
      change (2 ^ 64) with (2 ^ 49 * 2 ^ 15). nia. }
    rewrite wrap_u64_id by done. by rewrite Z.shiftr_shiftl_r by lia.
Qed.

Lemma shiftr_le_self x k : 0 <= x -> 0 <= k -> Z.shiftr x k <= x.
Proof.
  intros Hx Hk. rewrite Z.shiftr_div_pow2 by done. pose proof (Z.pow_pos_nonneg 2 k ltac:(lia) Hk).
  apply Z.div_le_upper_bound; nia.
Qed.

Lemma shiftr_anti x m n : 0 <= x -> m <= n -> Z.shiftr x n <= Z.shiftr x m.
Proof.
  intros Hx Hmn. replace n with (m + (n - m)) by lia. rewrite <- Z.shiftr_shiftr by lia.
  apply shiftr_le_self; [|lia]. by apply Z.shiftr_nonneg.
Qed.

(** The exact difficulty for an exponent, before the floor. *)
Definition exact (anchor e : Z) : Z :=
  Z.shiftr (anchor * factor_of (Z.land e 65535)) (16 - Z.shiftr e 16).

Lemma frac_range e : 0 <= Z.land e 65535 <= 65535 /\ e = Z.shiftr e 16 * 65536 + Z.land e 65535.
Proof.
  assert (Z.land e 65535 = e mod 2 ^ 16) as -> by (apply (Z.land_ones e 16); lia).
  rewrite Z.shiftr_div_pow2 by lia.
  pose proof (Z.mod_pos_bound e (2 ^ 16) ltac:(lia)). pose proof (Z.div_mod e (2 ^ 16) ltac:(lia)).
  change (2 ^ 16) with 65536 in *. lia.
Qed.

Lemma exact_mono anchor e e' : 0 <= anchor -> e <= e' -> e' < 16 * 65536 -> exact anchor e <= exact anchor e'.
Proof.
  intros Ha He Hmax. unfold exact.
  destruct (frac_range e) as [Hf E], (frac_range e') as [Hf' E'].
  set (s := Z.shiftr e 16) in *. set (s' := Z.shiftr e' 16) in *.
  pose proof (factor_range _ Hf) as Hr. pose proof (factor_range _ Hf') as Hr'.
  destruct (decide (s = s')) as [<-|Hne].
  - apply shiftr_mono; [lia|]. pose proof (factor_mono (Z.land e 65535) (Z.land e' 65535) ltac:(lia) ltac:(lia)). nia.
  - trans (Z.shiftr (Z.shiftl (anchor * factor_of (Z.land e' 65535)) 1) (16 - s)).
    + apply shiftr_mono; [lia|]. rewrite Z.shiftl_mul_pow2 by lia. nia.
    + rewrite Z.shiftr_shiftl_r by lia. apply shiftr_anti; [nia|lia].
Qed.

(** ** The exponent *)

(** Frame numbers and clocks for which no intermediate value wraps: [2^32]
    frames and [2^45] milliseconds are beyond a thousand years. *)
Definition in_range (a : AsertDifficultyAdjuster) (frame time : Z) : Prop :=
  0 <= anchor_frame_number a < 2 ^ 32 /\ 0 <= anchor_parent_time a < 2 ^ 45 /\
  0 <= anchor_difficulty a < 2 ^ 32 /\ 0 <= frame < 2 ^ 32 /\ 0 <= time < 2 ^ 45.

(** How far, in milliseconds, the chain is ahead of its schedule. *)
Definition lead (a : AsertDifficultyAdjuster) (frame time : Z) : Z :=
  IDEAL_FRAME_TIME * (frame - anchor_frame_number a + 1) - (time - anchor_parent_time a).

Lemma exponent_exact a frame time : in_range a frame time ->
  exponent_of a frame time = Z.quot (lead a frame time * 65536) HALF_LIFE.
Proof.
  intros (H1 & H2 & _ & H3 & H4). unfold exponent_of, lead, IDEAL_FRAME_TIME. change RADIX with 65536.
  rewrite (as_i64_id frame), (as_i64_id (anchor_frame_number a)) by (unfold is_i64; lia).
  rewrite (as_i64_id (frame - _)), (as_i64_id (time - _)) by (unfold is_i64; lia).
  rewrite (as_i64_id (_ + 1)) by (unfold is_i64; lia). rewrite (as_i64_id (10000 * _)) by (unfold is_i64; lia).
  rewrite (as_i64_id (_ - 10000 * _)) by (unfold is_i64; lia). rewrite (as_i64_id (_ * 65536)) by (unfold is_i64; lia).
  rewrite as_i64_id by (unfold is_i64; lia). f_equal. lia.
Qed.

Lemma lead_bound a frame time : in_range a frame time -> - 2 ^ 47 < lead a frame time < 2 ^ 47.
Proof. intros (H1 & H2 & _ & H3 & H4). unfold lead, IDEAL_FRAME_TIME. lia. Qed.

Lemma difficulty_exact a frame time : in_range a frame time -> lead a frame time < 16 * HALF_LIFE ->
  anchor_difficulty a <> 0 ->
  get_next_difficulty a frame time = floored (exact (anchor_difficulty a) (Z.quot (lead a frame time * 65536) HALF_LIFE)) /\
  Z.quot (lead a frame time * 65536) HALF_LIFE < 16 * 65536.
Proof.
  intros Hr Hl Hz. pose proof (lead_bound a frame time Hr) as Hb. destruct Hr as (H1 & H2 & H0 & H3 & H4).
  unfold get_next_difficulty. destruct (Z.eqb_spec (anchor_difficulty a) 0); [done|].
  rewrite exponent_exact by (by unfold in_range). set (e := Z.quot _ _).
  assert (- 2 ^ 46 < e < 16 * 65536) as He.
  { unfold e, HALF_LIFE in *. split.
    - apply Z.lt_le_trans with (Z.quot (- 2 ^ 63) 7200000); [vm_compute; reflexivity|]. apply Z.quot_le_mono; lia.
    - apply Z.le_lt_trans with (Z.quot (16 * 7200000 * 65536 - 1) 7200000); [apply Z.quot_le_mono; lia|].
      vm_compute. reflexivity. }
  split; [|lia]. destruct (frac_range e) as [Hf E]. pose proof (factor_range _ Hf) as Hfac.
  rewrite wrap_u64_id by (unfold is_u64; nia). apply apply_shift_exact; [nia|]. lia.
Qed.

(** ** What the adjuster promises *)

(** While the chain is less than sixteen half-lives ahead of schedule, the
    difficulty for a frame never rises as time passes: proposing later cannot
    make the proof harder, down to the floor. *)
Theorem difficulty_antitone_in_time a frame time later :
  in_range a frame time -> in_range a frame later -> time <= later -> lead a frame time < 16 * HALF_LIFE ->
  MIN_DIFFICULTY <= get_next_difficulty a frame later <= get_next_difficulty a frame time.
Proof.
  intros Hr Hr' Hle Hl. destruct (decide (anchor_difficulty a = 0)) as [E|Hz].
  { unfold get_next_difficulty. rewrite E. done. }
  assert (lead a frame later <= lead a frame time) as Hll by (unfold lead; lia).
  destruct (difficulty_exact a frame time Hr Hl Hz) as [-> Hmax].
  destruct (difficulty_exact a frame later Hr' ltac:(lia) Hz) as [-> _]. split.
  - unfold floored. destruct (Z.ltb_spec (exact (anchor_difficulty a) (lead a frame later * 65536 ÷ HALF_LIFE)) MIN_DIFFICULTY); lia.
  - apply floored_mono, exact_mono; [|apply Z.quot_le_mono; unfold HALF_LIFE; lia|done].
    destruct Hr as (_ & _ & H0 & _). lia.
Qed.

Definition sample_adjuster : AsertDifficultyAdjuster := mkAdjuster 1000 1700000000000 160000.

Lemma difficulty_antitone_in_time_witness :
  MIN_DIFFICULTY <= get_next_difficulty sample_adjuster 1010 1700000120000
                 <= get_next_difficulty sample_adjuster 1010 1700000090000.
Proof.
  apply (difficulty_antitone_in_time sample_adjuster 1010 1700000090000 1700000120000);
    unfold in_range, lead, IDEAL_FRAME_TIME, HALF_LIFE; cbn; lia.
Defined.

(** Exactly on schedule the difficulty is the anchor's, floored. *)
Lemma on_schedule_keeps_anchor a frame time :
  in_range a frame time -> anchor_difficulty a <> 0 -> lead a frame time = 0 ->
  get_next_difficulty a frame time = floored (anchor_difficulty a).
Proof.
  intros Hr Hz Hl. destruct (difficulty_exact a frame time Hr) as [-> _]; [by rewrite Hl|done|].
  rewrite Hl. unfold exact. change (0 * 65536 ÷ HALF_LIFE) with 0. change (factor_of (Z.land 0 65535)) with (2 ^ 16).
  rewrite <- Z.shiftl_mul_pow2, Z.shiftr_shiftl_r by lia. done.
Qed.

(** Thirty-two half-lives ahead, the left shift drops the high bits of an
    anchor of [2^16] and the difficulty falls to the floor, far below what it
    is at fifteen half-lives. *)
Lemma difficulty_overflow_drops :
  get_next_difficulty (mkAdjuster 0 0 65536) 23039 0 = MIN_DIFFICULTY /\
  get_next_difficulty (mkAdjuster 0 0 65536) 10799 0 = 65536 * 2 ^ 15.
Proof. split; vm_compute; reflexivity. Qed.
