(* ===== verification/Cursor.v ===== *)
(** * Canonical bytes ([src/crates/quil-execution/src/canonical_cursor.rs])

    The put/read primitives every canonical encoding is written with.  A buffer
    with a cursor is the list of bytes after the cursor; a length read from the
    wire is at most [2^32 - 1], so [cursor + len] cannot overflow a [usize].
    Capacity hints of [Vec::with_capacity] do not change a result.

    [Codec] is the interface the encodings of the other files are proved
    against: reading back what was written, and reading nothing but what would
    have been written. *)

From S2P Require Import Prelude Bytes.

(** ** Writers and readers *)

Definition put_u32 (v : Z) : list byte := be_bytes 4 v.
Definition put_u64 (v : Z) : list byte := be_bytes 8 v.
Definition put_lp (data : list byte) : list byte := put_u32 (Z.of_nat (length data)) ++ data.
Definition write_array (items : list (list byte)) : list byte :=
  put_u32 (Z.of_nat (length items)) ++ concat (put_lp <$> items).
(** A two's-complement [i64] has the bytes of its residue. *)
Definition put_i64 (v : Z) : list byte := be_bytes 8 v.

Definition read_u32 : reader Z := be_val <$> read_exact InvalidArgument 4.
Definition read_u64 : reader Z := be_val <$> read_exact InvalidArgument 8.
Definition read_bytes (len : nat) : reader (list byte) := read_exact InvalidArgument len.
Definition read_lp : reader (list byte) := len ← read_u32; read_bytes (Z.to_nat len).
Definition read_array : reader (list (list byte)) := n ← read_u32; read_many read_lp (Z.to_nat n).
Definition read_i64 : reader Z := (fun bs => as_i64 (be_val bs)) <$> read_exact InvalidArgument 8.
(** [expect_tp(read_u32(..)?, expected, ..)?]. *)
Definition expect_tp (expected : Z) : reader unit :=
  actual ← read_u32; reader_guard (actual =? expected) InvalidArgument.

(** A length prefix checked against a bound before the bytes are read, as the
    message decoders do inline. *)
Definition read_lp_max (max : Z) : reader (list byte) :=
  len ← read_u32; _ ← reader_guard (negb (max <? len)) InvalidArgument; read_bytes (Z.to_nat len).

(** A length prefix accepted by a test. *)
Definition read_lp_if (test : Z -> bool) : reader (list byte) :=
  len ← read_u32; _ ← reader_guard (test len) InvalidArgument; read_bytes (Z.to_nat len).

(** A counted loop over a decoder; [max_count] bounds the count. *)
Definition put_list {A} (enc : A -> list byte) (l : list A) : list byte :=
  put_u32 (Z.of_nat (length l)) ++ concat (enc <$> l).
Definition read_list {A} (rd : reader A) : reader (list A) := n ← read_u32; read_many rd (Z.to_nat n).
Definition read_list_max {A} (max_count : Z) (rd : reader A) : reader (list A) :=
  n ← read_u32; _ ← reader_guard (negb (max_count <? n)) InvalidArgument; read_many rd (Z.to_nat n).

(** [X::from_canonical_bytes(data)]: bytes after the value are ignored. *)
Definition decode_all {A} (rd : reader A) (data : list byte) : result A := fst <$> rd data.
(** A value nested as a slice: the slice is decoded on its own. *)
Definition decode_slice {A} (rd : reader A) (slice : list byte) : reader A := fun r =>
  match decode_all rd slice with Ok a => Ok (a, r) | Err e => Err e | Panic => Panic end.


(** A nested message: its bytes with a length prefix, bounded by [max]. *)
Definition put_nested {A} (enc : A -> list byte) (a : A) : list byte := put_lp (enc a).
Definition read_nested {A} (max : Z) (rd : reader A) : reader A := b ← read_lp_max max; decode_slice rd b.

(** An optional nested message: length zero is [None]. *)
Definition put_opt {A} (enc : A -> list byte) (o : option A) : list byte :=
  match o with Some a => put_lp (enc a) | None => put_u32 0 end.
Definition read_opt {A} (max : Z) (rd : reader A) : reader (option A) :=
  len ← read_u32;
  _ ← reader_guard (negb (max <? len)) InvalidArgument;
  if len =? 0 then mret None
  else b ← read_bytes (Z.to_nat len); Some <$> decode_slice rd b.

(** ** The interface of an encoding *)

Class Codec {A : Type} (enc : A -> list byte) (dec : reader A) (ok : A -> Prop) : Prop := {
  codec_round :: RoundTrip enc dec ok;
  codec_exact : forall r a r', dec r = Ok (a, r') -> r = enc a ++ r' /\ ok a;
}.

Definition fits {A} (l : list A) : Prop := Z.of_nat (length l) < 2 ^ 32.
Definition at_most {A} (max : Z) (l : list A) : Prop := Z.of_nat (length l) <= max.

Lemma rt_bind {A B} (enc : A -> list byte) dec ok `{!RoundTrip enc dec ok} (f : A -> reader B) a rest :
  ok a -> (dec ≫= f) (enc a ++ rest) = f a rest.
Proof. intros Ha. eapply reader_bind_Ok. by apply round_trip. Qed.

Lemma guard_bind {B} c e (f : unit -> reader B) r : c = true -> (reader_guard c e ≫= f) r = f () r.
Proof. by intros ->. Qed.

Lemma guard_inv c e r u r' : reader_guard c e r = Ok (u, r') -> c = true /\ r = r'.
Proof. destruct c; [by intros [= _ <-]|done]. Qed.

Lemma read_exact_inv e n r bs r' : read_exact e n r = Ok (bs, r') -> r = bs ++ r' /\ length bs = n.
Proof.
  unfold read_exact. destruct (Nat.leb_spec n (length r)); [|done]. intros [= <- <-].
  rewrite take_drop. split; [done|]. rewrite length_take. lia.
Qed.

Lemma fmap_inv {A B} (f : A -> B) (m : reader A) r b r' :
  (f <$> m) r = Ok (b, r') -> exists a, m r = Ok (a, r') /\ b = f a.
Proof. unfold fmap, reader_fmap. destruct (m r) as [[a r1]| |]; [|done|done]. intros [= <- <-]. eauto. Qed.

(** ** Instances *)

(** Fixed-width big-endian unsigned integers. *)
Lemma be_codec n : Codec (be_bytes n) (be_val <$> read_exact InvalidArgument n) (fun z => 0 <= z < 256 ^ Z.of_nat n).
Proof.
  split.
  - intros z rest Hz. erewrite reader_fmap_Ok; [|apply read_exact_app; by rewrite be_bytes_length].
    by rewrite be_val_bytes, Z.mod_small.
  - intros r z r' (bs & [-> <-]%read_exact_inv & ->)%fmap_inv. split; [by rewrite be_bytes_val|apply be_val_range].
Qed.

#[export] Instance u32_codec : Codec put_u32 read_u32 is_u32.
Proof. apply (be_codec 4). Qed.
#[export] Instance u64_codec : Codec put_u64 read_u64 is_u64.
Proof. apply (be_codec 8). Qed.

#[export] Instance i64_round : RoundTrip put_i64 read_i64 is_i64.
Proof.
  intros z rest Hz. unfold read_i64, put_i64.
  erewrite reader_fmap_Ok; [|apply read_exact_app; by rewrite be_bytes_length].
  rewrite be_val_bytes. change (256 ^ Z.of_nat 8) with (2 ^ 64).
  assert (as_i64 (z mod 2 ^ 64) = z) as ->; [|done]. apply (as_signed_id 64); [lia|exact Hz].
Qed.

Lemma len_u32 {A} (l : list A) : fits l -> is_u32 (Z.of_nat (length l)).
Proof. unfold fits, is_u32. lia. Qed.

#[export] Instance lp_codec : Codec put_lp read_lp fits.
Proof.
  split.
  - intros bs rest Hbs. unfold put_lp, read_lp. rewrite <- app_assoc, (rt_bind put_u32 _ is_u32) by by apply len_u32.
    apply read_exact_app. lia.
  - intros r bs r' (n & r1 & [-> Hn]%codec_exact & [-> Hl]%read_exact_inv)%reader_bind_inv. unfold put_lp, fits.
    unfold is_u32 in Hn. replace (Z.of_nat (length bs)) with n by lia. rewrite <- app_assoc. split; [done|lia].
Qed.

#[export] Instance lp_max_codec max : Codec put_lp (read_lp_max max) (fun bs => fits bs /\ at_most max bs).
Proof.
  split.
  - intros bs rest [Hf Hm]. unfold put_lp, read_lp_max. rewrite <- app_assoc, (rt_bind put_u32 _ is_u32) by by apply len_u32.
    rewrite guard_bind; [apply read_exact_app; lia|]. unfold at_most in Hm. apply negb_true_iff, Z.ltb_ge. done.
  - intros r bs r' (n & r1 & [-> Hn]%codec_exact & (u & r2 & [Hg <-]%guard_inv & [-> Hl]%read_exact_inv)%reader_bind_inv)%reader_bind_inv.
    unfold put_lp, fits, at_most. unfold is_u32 in Hn. replace (Z.of_nat (length bs)) with n by lia. rewrite <- app_assoc.
    apply negb_true_iff, Z.ltb_ge in Hg. split; [done|lia].
Qed.

#[export] Instance lp_if_codec test : Codec put_lp (read_lp_if test) (fun bs => fits bs /\ test (Z.of_nat (length bs)) = true).
Proof.
  split.
  - intros bs rest [Hf Hm]. unfold put_lp, read_lp_if. rewrite <- app_assoc, (rt_bind put_u32 _ is_u32) by by apply len_u32.
    rewrite guard_bind by done. apply read_exact_app. lia.
  - intros r bs r' (n & r1 & [-> Hn]%codec_exact & (u & r2 & [Hg <-]%guard_inv & [-> Hl]%read_exact_inv)%reader_bind_inv)%reader_bind_inv.
    unfold put_lp, fits. unfold is_u32 in Hn. replace (Z.of_nat (length bs)) with n by lia. rewrite <- app_assoc.
    split_and!; [done|lia|done].
Qed.

Lemma lp_max_bind {B} max (f : list byte -> reader B) bs rest : fits bs -> at_most max bs ->
  (read_lp_max max ≫= f) (put_lp bs ++ rest) = f bs rest.
Proof. intros Hf Hm. by apply (rt_bind put_lp _ (fun bs => fits bs /\ at_most max bs)). Qed.

Lemma lp_max_inv max r bs r' : read_lp_max max r = Ok (bs, r') -> r = put_lp bs ++ r' /\ fits bs /\ at_most max bs.
Proof. apply (codec_exact (Codec := lp_max_codec max)). Qed.

(** Counted sequences of encoded values. *)
Lemma many_exact {A} (enc : A -> list byte) dec ok `{!Codec enc dec ok} n r l r' :
  read_many dec n r = Ok (l, r') -> r = concat (enc <$> l) ++ r' /\ Forall ok l /\ length l = n.
Proof.
  revert r l r'. induction n as [|n IH]; intros r l r'; cbn [read_many].
  - intros [= <- <-]. done.
  - intros (a & r1 & [-> Ha]%codec_exact & (l' & r2 & (-> & Hl & Hn)%IH & [= <- <-])%reader_bind_inv)%reader_bind_inv.
    rewrite fmap_cons. cbn. rewrite <- app_assoc. split_and!; [done|by constructor|lia].
Qed.

#[export] Instance list_max_round {A} max (enc : A -> list byte) dec ok `{!RoundTrip enc dec ok} :
  RoundTrip (put_list enc) (read_list_max max dec) (fun l => fits l /\ at_most max l /\ Forall ok l).
Proof.
  intros l rest (Hf & Hm & Hl). unfold put_list, read_list_max.
  rewrite <- app_assoc, (rt_bind put_u32 _ is_u32) by by apply len_u32.
  rewrite guard_bind by (unfold at_most in Hm; apply negb_true_iff, Z.ltb_ge; done).
  rewrite Nat2Z.id. by eapply read_many_app.
Qed.

#[export] Instance list_codec {A} (enc : A -> list byte) dec ok `{!Codec enc dec ok} :
  Codec (put_list enc) (read_list dec) (fun l => fits l /\ Forall ok l).
Proof.
  split.
  - intros l rest [Hf Hl]. unfold put_list, read_list.
    rewrite <- app_assoc, (rt_bind put_u32 _ is_u32) by by apply len_u32.
    rewrite Nat2Z.id. by eapply read_many_app; [apply codec_round|].
  - intros r l r' (n & r1 & [-> Hn]%codec_exact & (-> & Hl & Hlen)%(many_exact enc _ ok))%reader_bind_inv.
    unfold put_list, fits. unfold is_u32 in Hn. replace (Z.of_nat (length l)) with n by lia.
    rewrite <- app_assoc. split_and!; [done|lia|done].
Qed.

#[export] Instance array_codec : Codec write_array read_array (fun l => fits l /\ Forall fits l).
Proof. apply (list_codec put_lp read_lp fits). Qed.

Lemma expect_bind {B} tp (f : unit -> reader B) rest : is_u32 tp -> (expect_tp tp ≫= f) (put_u32 tp ++ rest) = f () rest.
Proof.
  intros Htp. eapply reader_bind_Ok. unfold expect_tp. rewrite (rt_bind put_u32 _ is_u32) by done.
  by rewrite Z.eqb_refl.
Qed.

Lemma expect_inv tp r u r' : expect_tp tp r = Ok (u, r') -> r = put_u32 tp ++ r'.
Proof.
  intros (a & r1 & [-> _]%codec_exact & [Hg <-]%guard_inv)%reader_bind_inv. apply Z.eqb_eq in Hg. by subst.
Qed.

(** A round trip gives the decoder of a whole buffer. *)
Lemma decode_all_ok {A} (enc : A -> list byte) dec ok `{!RoundTrip enc dec ok} a rest :
  ok a -> decode_all dec (enc a ++ rest) = Ok a.
Proof. intros Ha. unfold decode_all. by rewrite (round_trip a rest Ha). Qed.
Lemma decode_all_exact {A} (enc : A -> list byte) dec ok `{!Codec enc dec ok} data a :
  decode_all dec data = Ok a -> ok a /\ exists rest, data = enc a ++ rest.
Proof.
  unfold decode_all. destruct (dec data) as [[a' r']| |] eqn:E; [|done|done]. intros [= ->].
  apply codec_exact in E as [-> Ha]. eauto.
Qed.
Lemma decode_slice_bind {A B} (enc : A -> list byte) dec ok `{!RoundTrip enc dec ok} (f : A -> reader B) a r :
  ok a -> (decode_slice dec (enc a) ≫= f) r = f a r.
Proof.
  intros Ha. eapply reader_bind_Ok. unfold decode_slice. rewrite <- (app_nil_r (enc a)).
  by rewrite (decode_all_ok enc dec ok).
Qed.

Definition nested_ok {A} (enc : A -> list byte) (max : Z) (ok : A -> Prop) (a : A) : Prop :=
  ok a /\ fits (enc a) /\ at_most max (enc a).

#[export] Instance nested_round {A} max (enc : A -> list byte) dec ok `{!RoundTrip enc dec ok} :
  RoundTrip (put_nested enc) (read_nested max dec) (nested_ok enc max ok).
Proof.
  intros a rest (Ha & Hf & Hm). unfold put_nested, read_nested.
  rewrite (rt_bind put_lp _ (fun bs => fits bs /\ at_most max bs)) by done.
  unfold decode_slice. rewrite <- (app_nil_r (enc a)). by rewrite (decode_all_ok enc dec ok).
Qed.

Definition opt_ok {A} (enc : A -> list byte) (max : Z) (ok : A -> Prop) (o : option A) : Prop :=
  match o with Some a => nested_ok enc max ok a /\ enc a <> [] | None => 0 <= max end.

#[export] Instance opt_round {A} max (enc : A -> list byte) dec ok `{!RoundTrip enc dec ok} :
  RoundTrip (put_opt enc) (read_opt max dec) (opt_ok enc max ok).
Proof.
  intros [a|] rest; cbn [opt_ok put_opt].
  - intros ((Ha & Hf & Hm) & Hne). unfold put_lp, read_opt.
    rewrite <- app_assoc, (rt_bind put_u32 _ is_u32) by by apply len_u32.
    rewrite guard_bind by (unfold at_most in Hm; apply negb_true_iff, Z.ltb_ge; done).
    destruct (Z.eqb_spec (Z.of_nat (length (enc a))) 0); [destruct (enc a); [done|cbn in *; lia]|].
    rewrite Nat2Z.id. erewrite reader_bind_Ok by (by apply read_exact_app).
    apply reader_fmap_Ok. unfold decode_slice. rewrite <- (app_nil_r (enc a)). by rewrite (decode_all_ok enc dec ok).
  - intros Hm. unfold read_opt. rewrite (rt_bind put_u32 _ is_u32) by (unfold is_u32; lia).
    by rewrite guard_bind by (apply negb_true_iff, Z.ltb_ge; lia).
Qed.

#[export] Instance list_round {A} (enc : A -> list byte) dec ok `{!RoundTrip enc dec ok} :
  RoundTrip (put_list enc) (read_list dec) (fun l => fits l /\ Forall ok l).
Proof.
  intros l rest [Hf Hl]. unfold put_list, read_list.
  rewrite <- app_assoc, (rt_bind put_u32 _ is_u32) by by apply len_u32.
  rewrite Nat2Z.id. by eapply read_many_app.
Qed.

(** A message whose decoder of a whole buffer inverts its encoder, accepts
    nothing else, and ignores what follows. *)
Definition canonical_encoding {A} (enc : A -> list byte) (dec : list byte -> result A) (ok : A -> Prop) : Prop :=
  (forall a rest, ok a -> dec (enc a ++ rest) = Ok a) /\
  (forall data a, dec data = Ok a -> ok a /\ exists rest, data = enc a ++ rest).

Lemma codec_canonical {A} (enc : A -> list byte) dec ok `{!Codec enc dec ok} :
  canonical_encoding enc (decode_all dec) ok.
Proof.
  split; [intros a rest; by apply decode_all_ok; apply codec_round|intros data a; by apply decode_all_exact].
Qed.

(** ** Automation *)

#[global] Arguments put_u32 : simpl never.
#[global] Arguments put_u64 : simpl never.
#[global] Arguments put_i64 : simpl never.
#[global] Arguments put_lp : simpl never.
#[global] Arguments put_list {_} : simpl never.
#[global] Arguments write_array : simpl never.

(** Side conditions of the primitives: sizes and widths. *)
Ltac wire_ok :=
  unfold fits, at_most, is_u32, is_u64 in *; cbn [length] in *;
  first [done | lia | split_and!; first [done | lia]].

(** One step of a round-trip proof: run the next reader on what was written. *)
Ltac wire_step :=
  first
    [ rewrite <- app_assoc
    | rewrite expect_bind by wire_ok
    | rewrite guard_bind by (first [done | reflexivity | apply negb_true_iff, Z.ltb_ge; wire_ok])
    | rewrite (rt_bind put_u32 read_u32 is_u32) by wire_ok
    | rewrite (rt_bind put_u64 read_u64 is_u64) by wire_ok
    | rewrite (rt_bind put_lp read_lp fits) by wire_ok
    | rewrite lp_max_bind by wire_ok
    | rewrite (rt_bind write_array read_array (fun l => fits l /\ Forall fits l)) by wire_ok
    | rewrite (rt_bind (put_list put_u64) (read_list read_u64) (fun l => fits l /\ Forall is_u64 l)) by wire_ok ].
Ltac wire_round := repeat wire_step; try done.

(** Inverting a decoder: every read becomes an equation on the input. *)
Ltac wire_inv :=
  repeat match goal with
  | H : (_ ≫= _) _ = Ok _ |- _ => apply reader_bind_inv in H as (? & ? & ? & H)
  | H : expect_tp _ _ = Ok _ |- _ => apply expect_inv in H as ->
  | H : reader_guard _ _ _ = Ok _ |- _ => apply guard_inv in H as [? <-]
  | H : read_u32 _ = Ok _ |- _ => apply codec_exact in H as [-> ?]
  | H : read_u64 _ = Ok _ |- _ => apply codec_exact in H as [-> ?]
  | H : read_lp _ = Ok _ |- _ => apply codec_exact in H as [-> ?]
  | H : read_lp_max _ _ = Ok _ |- _ => apply lp_max_inv in H as [-> [? ?]]
  | H : read_array _ = Ok _ |- _ => apply codec_exact in H as [-> [? ?]]
  | H : read_list _ _ = Ok _ |- _ => apply codec_exact in H as [-> [? ?]]
  | H : mret _ _ = Ok _ |- _ => injection H as <- <-
  end.
