(* ===== verification/ConsensusWire.v ===== *)
(** * Consensus and proof messages ([src/crates/quil-execution/src/global_intrinsic/
      consensus_types.rs], [proof_types.rs])

    Flat records of integers and length-prefixed byte strings.  Nothing in an
    encoder fails (its [Result] is always [Ok]), so it is a function to bytes.
    Every message is a [Codec]: its encoding is injective and unambiguous. *)

From S2P Require Import Prelude Bytes Cursor.

Definition array_ok (l : list (list byte)) : Prop := fits l /\ Forall fits l.
Definition u64s_ok (l : list Z) : Prop := fits l /\ Forall is_u64 l.

(** Both halves of the codec of a record: run the readers on what was written,
    and invert them. *)
Ltac message_codec enc dec ok :=
  split;
  [ intros m rest; unfold ok, enc, dec; destruct m; cbn; intros Hm; destruct_and?; wire_round
  | intros r m r'; unfold ok, enc, dec; intros Hm; wire_inv; cbn; rewrite <- !app_assoc; by split_and! ].

(** ** AltShardUpdate *)

Definition TYPE_ALT_SHARD_UPDATE : Z := 0x0319.

Record AltShardUpdate := mkAltShardUpdate {
  asu_public_key : list byte;
  asu_frame_number : Z;
  asu_vertex_adds_root : list byte;
  asu_vertex_removes_root : list byte;
  asu_hyperedge_adds_root : list byte;
  asu_hyperedge_removes_root : list byte;
  asu_signature : list byte;
}.

Definition AltShardUpdate_to_canonical_bytes (m : AltShardUpdate) : list byte :=
  put_u32 TYPE_ALT_SHARD_UPDATE
  ++ put_lp (asu_public_key m)
  ++ put_u64 (asu_frame_number m)
  ++ put_lp (asu_vertex_adds_root m)
  ++ put_lp (asu_vertex_removes_root m)
  ++ put_lp (asu_hyperedge_adds_root m)
  ++ put_lp (asu_hyperedge_removes_root m)
  ++ put_lp (asu_signature m).

Definition AltShardUpdate_read : reader AltShardUpdate :=
  _ ← expect_tp TYPE_ALT_SHARD_UPDATE;
  public_key ← read_lp;
  frame_number ← read_u64;
  vertex_adds_root ← read_lp;
  vertex_removes_root ← read_lp;
  hyperedge_adds_root ← read_lp;
  hyperedge_removes_root ← read_lp;
  signature ← read_lp;
  mret (mkAltShardUpdate public_key frame_number vertex_adds_root vertex_removes_root hyperedge_adds_root
    hyperedge_removes_root signature).
Definition AltShardUpdate_from_canonical_bytes : list byte -> result AltShardUpdate := decode_all AltShardUpdate_read.

Definition AltShardUpdate_ok (m : AltShardUpdate) : Prop :=
  fits (asu_public_key m) /\ is_u64 (asu_frame_number m) /\ fits (asu_vertex_adds_root m) /\ fits
    (asu_vertex_removes_root m) /\ fits (asu_hyperedge_adds_root m) /\ fits (asu_hyperedge_removes_root m) /\
    fits (asu_signature m).

#[export] Instance AltShardUpdate_codec : Codec AltShardUpdate_to_canonical_bytes AltShardUpdate_read AltShardUpdate_ok.
Proof. message_codec AltShardUpdate_to_canonical_bytes AltShardUpdate_read AltShardUpdate_ok. Qed.

(** ** GlobalProposal *)

Definition TYPE_GLOBAL_PROPOSAL : Z := 0x0317.

Record GlobalProposal := mkGlobalProposal {
  gp_state : list byte;
  gp_parent_quorum_certificate : list byte;
  gp_prior_rank_timeout_certificate : list byte;
  gp_vote : list byte;
}.

Definition GlobalProposal_to_canonical_bytes (m : GlobalProposal) : list byte :=
  put_u32 TYPE_GLOBAL_PROPOSAL
  ++ put_lp (gp_state m)
  ++ put_lp (gp_parent_quorum_certificate m)
  ++ put_lp (gp_prior_rank_timeout_certificate m)
  ++ put_lp (gp_vote m).

Definition GlobalProposal_read : reader GlobalProposal :=
  _ ← expect_tp TYPE_GLOBAL_PROPOSAL;
  state ← read_lp;
  parent_quorum_certificate ← read_lp;
  prior_rank_timeout_certificate ← read_lp;
  vote ← read_lp;
  mret (mkGlobalProposal state parent_quorum_certificate prior_rank_timeout_certificate vote).
Definition GlobalProposal_from_canonical_bytes : list byte -> result GlobalProposal := decode_all GlobalProposal_read.

Definition GlobalProposal_ok (m : GlobalProposal) : Prop :=
  fits (gp_state m) /\ fits (gp_parent_quorum_certificate m) /\ fits (gp_prior_rank_timeout_certificate m) /\
    fits (gp_vote m).

#[export] Instance GlobalProposal_codec : Codec GlobalProposal_to_canonical_bytes GlobalProposal_read GlobalProposal_ok.
Proof. message_codec GlobalProposal_to_canonical_bytes GlobalProposal_read GlobalProposal_ok. Qed.

(** ** AppShardProposal *)

Definition TYPE_APP_SHARD_PROPOSAL : Z := 0x0318.

Record AppShardProposal := mkAppShardProposal {
  ap_state : list byte;
  ap_parent_quorum_certificate : list byte;
  ap_prior_rank_timeout_certificate : list byte;
  ap_vote : list byte;
}.

Definition AppShardProposal_to_canonical_bytes (m : AppShardProposal) : list byte :=
  put_u32 TYPE_APP_SHARD_PROPOSAL
  ++ put_lp (ap_state m)
  ++ put_lp (ap_parent_quorum_certificate m)
  ++ put_lp (ap_prior_rank_timeout_certificate m)
  ++ put_lp (ap_vote m).

Definition AppShardProposal_read : reader AppShardProposal :=
  _ ← expect_tp TYPE_APP_SHARD_PROPOSAL;
  state ← read_lp;
  parent_quorum_certificate ← read_lp;
  prior_rank_timeout_certificate ← read_lp;
  vote ← read_lp;
  mret (mkAppShardProposal state parent_quorum_certificate prior_rank_timeout_certificate vote).
Definition AppShardProposal_from_canonical_bytes : list byte -> result AppShardProposal := decode_all AppShardProposal_read.

Definition AppShardProposal_ok (m : AppShardProposal) : Prop :=
  fits (ap_state m) /\ fits (ap_parent_quorum_certificate m) /\ fits (ap_prior_rank_timeout_certificate m) /\
    fits (ap_vote m).

#[export] Instance AppShardProposal_codec : Codec AppShardProposal_to_canonical_bytes AppShardProposal_read AppShardProposal_ok.
Proof. message_codec AppShardProposal_to_canonical_bytes AppShardProposal_read AppShardProposal_ok. Qed.

(** ** QuorumCertificate *)

Definition TYPE_QUORUM_CERTIFICATE : Z := 0x030d.

Record QuorumCertificate := mkQuorumCertificate {
  qc_filter : list byte;
  qc_rank : Z;
  qc_frame_number : Z;
  qc_selector : list byte;
  qc_timestamp : Z;
  qc_aggregate_signature : list byte;
}.

Definition QuorumCertificate_to_canonical_bytes (m : QuorumCertificate) : list byte :=
  put_u32 TYPE_QUORUM_CERTIFICATE
  ++ put_lp (qc_filter m)
  ++ put_u64 (qc_rank m)
  ++ put_u64 (qc_frame_number m)
  ++ put_lp (qc_selector m)
  ++ put_u64 (qc_timestamp m)
  ++ put_lp (qc_aggregate_signature m).

Definition QuorumCertificate_read : reader QuorumCertificate :=
  _ ← expect_tp TYPE_QUORUM_CERTIFICATE;
  filter ← read_lp;
  rank ← read_u64;
  frame_number ← read_u64;
  selector ← read_lp;
  timestamp ← read_u64;
  aggregate_signature ← read_lp;
  mret (mkQuorumCertificate filter rank frame_number selector timestamp aggregate_signature).
Definition QuorumCertificate_from_canonical_bytes : list byte -> result QuorumCertificate := decode_all QuorumCertificate_read.

Definition QuorumCertificate_ok (m : QuorumCertificate) : Prop :=
  fits (qc_filter m) /\ is_u64 (qc_rank m) /\ is_u64 (qc_frame_number m) /\ fits (qc_selector m) /\ is_u64
    (qc_timestamp m) /\ fits (qc_aggregate_signature m).

#[export] Instance QuorumCertificate_codec : Codec QuorumCertificate_to_canonical_bytes QuorumCertificate_read QuorumCertificate_ok.
Proof. message_codec QuorumCertificate_to_canonical_bytes QuorumCertificate_read QuorumCertificate_ok. Qed.

(** ** TimeoutState *)

Definition TYPE_TIMEOUT_STATE : Z := 0x031c.

Record TimeoutState := mkTimeoutState {
  ts_latest_quorum_certificate : list byte;
  ts_prior_rank_timeout_certificate : list byte;
  ts_vote : list byte;
  ts_timeout_tick : Z;
  ts_timestamp : Z;
}.

Definition TimeoutState_to_canonical_bytes (m : TimeoutState) : list byte :=
  put_u32 TYPE_TIMEOUT_STATE
  ++ put_lp (ts_latest_quorum_certificate m)
  ++ put_lp (ts_prior_rank_timeout_certificate m)
  ++ put_lp (ts_vote m)
  ++ put_u64 (ts_timeout_tick m)
  ++ put_u64 (ts_timestamp m).

Definition TimeoutState_read : reader TimeoutState :=
  _ ← expect_tp TYPE_TIMEOUT_STATE;
  latest_quorum_certificate ← read_lp;
  prior_rank_timeout_certificate ← read_lp;
  vote ← read_lp;
  timeout_tick ← read_u64;
  timestamp ← read_u64;
  mret (mkTimeoutState latest_quorum_certificate prior_rank_timeout_certificate vote timeout_tick timestamp).
Definition TimeoutState_from_canonical_bytes : list byte -> result TimeoutState := decode_all TimeoutState_read.

Definition TimeoutState_ok (m : TimeoutState) : Prop :=
  fits (ts_latest_quorum_certificate m) /\ fits (ts_prior_rank_timeout_certificate m) /\ fits (ts_vote m) /\
    is_u64 (ts_timeout_tick m) /\ is_u64 (ts_timestamp m).

#[export] Instance TimeoutState_codec : Codec TimeoutState_to_canonical_bytes TimeoutState_read TimeoutState_ok.
Proof. message_codec TimeoutState_to_canonical_bytes TimeoutState_read TimeoutState_ok. Qed.

(** ** TimeoutCertificate *)

Definition TYPE_TIMEOUT_CERTIFICATE : Z := 0x031d.

Record TimeoutCertificate := mkTimeoutCertificate {
  tc_filter : list byte;
  tc_rank : Z;
  tc_latest_ranks : list Z;
  tc_latest_quorum_certificate : list byte;
  tc_timestamp : Z;
  tc_aggregate_signature : list byte;
}.

Definition TimeoutCertificate_to_canonical_bytes (m : TimeoutCertificate) : list byte :=
  put_u32 TYPE_TIMEOUT_CERTIFICATE
  ++ put_lp (tc_filter m)
  ++ put_u64 (tc_rank m)
  ++ put_list put_u64 (tc_latest_ranks m)
  ++ put_lp (tc_latest_quorum_certificate m)
  ++ put_u64 (tc_timestamp m)
  ++ put_lp (tc_aggregate_signature m).

Definition TimeoutCertificate_read : reader TimeoutCertificate :=
  _ ← expect_tp TYPE_TIMEOUT_CERTIFICATE;
  filter ← read_lp;
  rank ← read_u64;
  latest_ranks ← read_list read_u64;
  latest_quorum_certificate ← read_lp;
  timestamp ← read_u64;
  aggregate_signature ← read_lp;
  mret (mkTimeoutCertificate filter rank latest_ranks latest_quorum_certificate timestamp aggregate_signature).
Definition TimeoutCertificate_from_canonical_bytes : list byte -> result TimeoutCertificate := decode_all TimeoutCertificate_read.

Definition TimeoutCertificate_ok (m : TimeoutCertificate) : Prop :=
  fits (tc_filter m) /\ is_u64 (tc_rank m) /\ u64s_ok (tc_latest_ranks m) /\ fits (tc_latest_quorum_certificate
    m) /\ is_u64 (tc_timestamp m) /\ fits (tc_aggregate_signature m).

#[export] Instance TimeoutCertificate_codec : Codec TimeoutCertificate_to_canonical_bytes TimeoutCertificate_read TimeoutCertificate_ok.
Proof. message_codec TimeoutCertificate_to_canonical_bytes TimeoutCertificate_read TimeoutCertificate_ok. Qed.

(** ** Multiproof *)

Definition TYPE_MULTIPROOF : Z := 0x0313.

Record Multiproof := mkMultiproof {
  mp_multicommitment : list byte;
  mp_proof : list byte;
}.

Definition Multiproof_to_canonical_bytes (m : Multiproof) : list byte :=
  put_u32 TYPE_MULTIPROOF
  ++ put_lp (mp_multicommitment m)
  ++ put_lp (mp_proof m).

Definition Multiproof_read : reader Multiproof :=
  _ ← expect_tp TYPE_MULTIPROOF;
  multicommitment ← read_lp;
  proof ← read_lp;
  mret (mkMultiproof multicommitment proof).
Definition Multiproof_from_canonical_bytes : list byte -> result Multiproof := decode_all Multiproof_read.

Definition Multiproof_ok (m : Multiproof) : Prop :=
  fits (mp_multicommitment m) /\ fits (mp_proof m).

#[export] Instance Multiproof_codec : Codec Multiproof_to_canonical_bytes Multiproof_read Multiproof_ok.
Proof. message_codec Multiproof_to_canonical_bytes Multiproof_read Multiproof_ok. Qed.

(** ** Path *)

Definition TYPE_PATH : Z := 0x0314.

Record Path := mkPath {
  pa_indices : list Z;
}.

Definition Path_to_canonical_bytes (m : Path) : list byte :=
  put_u32 TYPE_PATH
  ++ put_list put_u64 (pa_indices m).

Definition Path_read : reader Path :=
  _ ← expect_tp TYPE_PATH;
  indices ← read_list read_u64;
  mret (mkPath indices).
Definition Path_from_canonical_bytes : list byte -> result Path := decode_all Path_read.

Definition Path_ok (m : Path) : Prop :=
  u64s_ok (pa_indices m).

#[export] Instance Path_codec : Codec Path_to_canonical_bytes Path_read Path_ok.
Proof. message_codec Path_to_canonical_bytes Path_read Path_ok. Qed.

(** ** TraversalSubProof *)

Definition TYPE_TRAVERSAL_SUB_PROOF : Z := 0x0315.

Record TraversalSubProof := mkTraversalSubProof {
  sp_commits : list (list byte);
  sp_ys : list (list byte);
  sp_paths : list (list byte);
}.

Definition TraversalSubProof_to_canonical_bytes (m : TraversalSubProof) : list byte :=
  put_u32 TYPE_TRAVERSAL_SUB_PROOF
  ++ write_array (sp_commits m)
  ++ write_array (sp_ys m)
  ++ write_array (sp_paths m).

Definition TraversalSubProof_read : reader TraversalSubProof :=
  _ ← expect_tp TYPE_TRAVERSAL_SUB_PROOF;
  commits ← read_array;
  ys ← read_array;
  paths ← read_array;
  mret (mkTraversalSubProof commits ys paths).
Definition TraversalSubProof_from_canonical_bytes : list byte -> result TraversalSubProof := decode_all TraversalSubProof_read.

Definition TraversalSubProof_ok (m : TraversalSubProof) : Prop :=
  array_ok (sp_commits m) /\ array_ok (sp_ys m) /\ array_ok (sp_paths m).

#[export] Instance TraversalSubProof_codec : Codec TraversalSubProof_to_canonical_bytes TraversalSubProof_read TraversalSubProof_ok.
Proof. message_codec TraversalSubProof_to_canonical_bytes TraversalSubProof_read TraversalSubProof_ok. Qed.

(** ** TraversalProof *)

Definition TYPE_TRAVERSAL_PROOF : Z := 0x0316.

Record TraversalProof := mkTraversalProof {
  tp_multiproof : list byte;
  tp_sub_proofs : list (list byte);
}.

Definition TraversalProof_to_canonical_bytes (m : TraversalProof) : list byte :=
  put_u32 TYPE_TRAVERSAL_PROOF
  ++ put_lp (tp_multiproof m)
  ++ write_array (tp_sub_proofs m).

Definition TraversalProof_read : reader TraversalProof :=
  _ ← expect_tp TYPE_TRAVERSAL_PROOF;
  multiproof ← read_lp;
  sub_proofs ← read_array;
  mret (mkTraversalProof multiproof sub_proofs).
Definition TraversalProof_from_canonical_bytes : list byte -> result TraversalProof := decode_all TraversalProof_read.

Definition TraversalProof_ok (m : TraversalProof) : Prop :=
  fits (tp_multiproof m) /\ array_ok (tp_sub_proofs m).

#[export] Instance TraversalProof_codec : Codec TraversalProof_to_canonical_bytes TraversalProof_read TraversalProof_ok.
Proof. message_codec TraversalProof_to_canonical_bytes TraversalProof_read TraversalProof_ok. Qed.

