(* ===== verification/ProverOps.v ===== *)
(** * Prover operations on the wire ([src/crates/quil-execution/src/global_intrinsic/
      addressed_signature.rs], [sig_with_pop.rs], [seniority_merge.rs],
      [prover_filter_ops.rs], [prover_ops.rs], [prover_join.rs],
      [leaf_root_registration.rs], [prover_release.rs])

    The canonical bytes of the operations a prover signs and submits.  As in the
    source, encoders never fail; decoders bound every count and length before
    they read.  Nested signatures and merge targets are slices decoded on their
    own, so bytes after them inside the slice are ignored. *)

From S2P Require Import Prelude Bytes Cursor.

(** ** AddressedSignature *)

Definition TYPE_BLS48581_ADDRESSED_SIGNATURE : Z := 0x011b.
Definition MAX_ADDRESSED_SIG_LEN : Z := 4 + 4 + (666 + 516) + 4 + 32.
Definition SIG_LEN_SINGLE : Z := 666.
Definition SIG_LEN_AGGREGATE_1 : Z := 666 + 516.
Definition ADDRESS_LEN : Z := 32.

Record AddressedSignature := mkAddressedSignature {
  as_signature : list byte;
  as_address : list byte;
}.

Definition AddressedSignature_to_canonical_bytes (s : AddressedSignature) : list byte :=
  put_u32 TYPE_BLS48581_ADDRESSED_SIGNATURE ++ put_lp (as_signature s) ++ put_lp (as_address s).

Definition sig_len_ok (len : Z) : bool := (len =? SIG_LEN_SINGLE) || (len =? SIG_LEN_AGGREGATE_1).

Definition AddressedSignature_read : reader AddressedSignature :=
  _ ← expect_tp TYPE_BLS48581_ADDRESSED_SIGNATURE;
  signature ← read_lp_if sig_len_ok;
  address ← read_lp_if (fun len => len =? ADDRESS_LEN);
  mret (mkAddressedSignature signature address).
Definition AddressedSignature_from_canonical_bytes : list byte -> result AddressedSignature :=
  decode_all AddressedSignature_read.

Definition AddressedSignature_ok (s : AddressedSignature) : Prop :=
  sig_len_ok (Z.of_nat (length (as_signature s))) = true /\ length (as_address s) = 32%nat.

(** [read_optional_addressed_sig] of the filter operations and
    [read_opt_addr_sig] of the others are the same reader. *)
Definition read_opt_addr_sig : reader (option AddressedSignature) :=
  read_opt MAX_ADDRESSED_SIG_LEN AddressedSignature_read.
Definition write_opt_addr_sig (sig : option AddressedSignature) : list byte :=
  put_opt AddressedSignature_to_canonical_bytes sig.

(** ** SignatureWithPop *)

Definition TYPE_BLS48581_SIG_WITH_POP : Z := 0x011a.
Definition SIG_LEN : Z := 666.
Definition WRAPPED_PUBKEY_LEN : Z := 901.

Record SignatureWithPop := mkSignatureWithPop {
  sp_signature : list byte;
  sp_public_key : option (list byte);
  sp_pop_signature : list byte;
}.

Definition SignatureWithPop_to_canonical_bytes (s : SignatureWithPop) : list byte :=
  put_u32 TYPE_BLS48581_SIG_WITH_POP
  ++ put_lp (sp_signature s)
  ++ match sp_public_key s with
     | Some pk => put_lp (put_u32 0x0117 ++ pk)
     | None => put_u32 0
     end
  ++ put_lp (sp_pop_signature s).

(** The key's own four-byte type prefix is stripped, not checked. *)
Definition read_wrapped_pubkey : reader (option (list byte)) :=
  pk_len ← read_u32;
  if 0 <? pk_len then
    _ ← reader_guard (pk_len =? WRAPPED_PUBKEY_LEN) InvalidArgument;
    pk_bytes ← read_bytes (Z.to_nat pk_len);
    _ ← reader_guard (4 <=? Z.of_nat (length pk_bytes)) InvalidArgument;
    mret (Some (drop 4 pk_bytes))
  else mret None.

Definition SignatureWithPop_read : reader SignatureWithPop :=
  _ ← expect_tp TYPE_BLS48581_SIG_WITH_POP;
  signature ← read_lp_if (fun len => len =? SIG_LEN);
  public_key ← read_wrapped_pubkey;
  pop_signature ← read_lp_if (fun len => len =? SIG_LEN);
  mret (mkSignatureWithPop signature public_key pop_signature).
Definition SignatureWithPop_from_canonical_bytes : list byte -> result SignatureWithPop :=
  decode_all SignatureWithPop_read.

Definition SignatureWithPop_ok (s : SignatureWithPop) : Prop :=
  length (sp_signature s) = 666%nat /\ length (sp_pop_signature s) = 666%nat /\
  match sp_public_key s with Some pk => length pk = 897%nat | None => True end.

(** ** SeniorityMerge *)

Definition TYPE_SENIORITY_MERGE : Z := 0x0310.
Definition MAX_SENIORITY_SIG_LEN : Z := 114.
Definition MAX_SENIORITY_KEY_LEN : Z := 585.

Record SeniorityMerge := mkSeniorityMerge {
  sm_signature : list byte;
  sm_key_type : Z;
  sm_prover_public_key : list byte;
}.

Definition SeniorityMerge_to_canonical_bytes (m : SeniorityMerge) : list byte :=
  put_u32 TYPE_SENIORITY_MERGE ++ put_lp (sm_signature m) ++ put_u32 (sm_key_type m) ++ put_lp (sm_prover_public_key m).

Definition SeniorityMerge_read : reader SeniorityMerge :=
  _ ← expect_tp TYPE_SENIORITY_MERGE;
  signature ← read_lp_max MAX_SENIORITY_SIG_LEN;
  key_type ← read_u32;
  prover_public_key ← read_lp_max MAX_SENIORITY_KEY_LEN;
  mret (mkSeniorityMerge signature key_type prover_public_key).
Definition SeniorityMerge_from_canonical_bytes : list byte -> result SeniorityMerge := decode_all SeniorityMerge_read.

Definition SeniorityMerge_ok (m : SeniorityMerge) : Prop :=
  at_most MAX_SENIORITY_SIG_LEN (sm_signature m) /\ is_u32 (sm_key_type m) /\
  at_most MAX_SENIORITY_KEY_LEN (sm_prover_public_key m).

(** ** Filter operations *)

Definition TYPE_PROVER_LEAVE : Z := 0x0302.
Definition TYPE_PROVER_PAUSE : Z := 0x0303.
Definition TYPE_PROVER_RESUME : Z := 0x0304.
Definition MAX_PROVER_FILTERS_COUNT : Z := 100.
Definition MAX_PROVER_FILTER_LEN : Z := 64.

Definition write_filters (filters : list (list byte)) : list byte := put_list put_lp filters.
Definition read_filters : reader (list (list byte)) :=
  read_list_max MAX_PROVER_FILTERS_COUNT (read_lp_max MAX_PROVER_FILTER_LEN).

Record ProverLeave := mkProverLeave {
  pl_filters : list (list byte);
  pl_frame_number : Z;
  pl_sig : option AddressedSignature;
}.
Definition ProverLeave_to_canonical_bytes (m : ProverLeave) : list byte :=
  put_u32 TYPE_PROVER_LEAVE ++ write_filters (pl_filters m) ++ put_u64 (pl_frame_number m) ++ write_opt_addr_sig (pl_sig m).
Definition ProverLeave_read : reader ProverLeave :=
  _ ← expect_tp TYPE_PROVER_LEAVE;
  filters ← read_filters;
  frame_number ← read_u64;
  sig ← read_opt_addr_sig;
  mret (mkProverLeave filters frame_number sig).
Definition ProverLeave_from_canonical_bytes : list byte -> result ProverLeave := decode_all ProverLeave_read.

(** [ProverPause] and [ProverResume] differ in their type prefix only. *)
Record ProverFilterOp := mkProverFilterOp {
  pf_filter : list byte;
  pf_frame_number : Z;
  pf_sig : option AddressedSignature;
}.
Definition filter_op_bytes (tp : Z) (m : ProverFilterOp) : list byte :=
  put_u32 tp ++ put_lp (pf_filter m) ++ put_u64 (pf_frame_number m) ++ write_opt_addr_sig (pf_sig m).
Definition filter_op_read (tp : Z) : reader ProverFilterOp :=
  _ ← expect_tp tp;
  filter ← read_lp_max MAX_PROVER_FILTER_LEN;
  frame_number ← read_u64;
  sig ← read_opt_addr_sig;
  mret (mkProverFilterOp filter frame_number sig).
Definition ProverPause_to_canonical_bytes : ProverFilterOp -> list byte := filter_op_bytes TYPE_PROVER_PAUSE.
Definition ProverPause_from_canonical_bytes : list byte -> result ProverFilterOp := decode_all (filter_op_read TYPE_PROVER_PAUSE).
Definition ProverResume_to_canonical_bytes : ProverFilterOp -> list byte := filter_op_bytes TYPE_PROVER_RESUME.
Definition ProverResume_from_canonical_bytes : list byte -> result ProverFilterOp := decode_all (filter_op_read TYPE_PROVER_RESUME).

(** ** Leaf roots *)

Definition TYPE_LEAF_ROOT_REGISTRATION : Z := 0x0320.
Definition MAX_SHARD_FILTER_LEN : Z := 64.
Definition MAX_PREFIX_LEN : Z := 256.
Definition MAX_LEAF_ROOT_LEN : Z := 128.
Definition MAX_SIG_LEN : Z := 2249.

Record LeafRootRegistration := mkLeafRootRegistration {
  lr_shard_filter : list byte;
  lr_prefix : list Z;
  lr_epoch : Z;
  lr_leaf_root : list byte;
  lr_num_blocks : Z;
  lr_frame_number : Z;
  lr_sig : option SignatureWithPop;
}.

Definition LeafRootRegistration_to_canonical_bytes (m : LeafRootRegistration) : list byte :=
  put_u32 TYPE_LEAF_ROOT_REGISTRATION
  ++ put_lp (lr_shard_filter m)
  ++ put_list put_u32 (lr_prefix m)
  ++ put_u64 (lr_epoch m)
  ++ put_lp (lr_leaf_root m)
  ++ put_u64 (lr_num_blocks m)
  ++ put_u64 (lr_frame_number m)
  ++ put_opt SignatureWithPop_to_canonical_bytes (lr_sig m).

Definition LeafRootRegistration_read : reader LeafRootRegistration :=
  _ ← expect_tp TYPE_LEAF_ROOT_REGISTRATION;
  shard_filter ← read_lp_max MAX_SHARD_FILTER_LEN;
  prefix ← read_list_max MAX_PREFIX_LEN read_u32;
  epoch ← read_u64;
  leaf_root ← read_lp_max MAX_LEAF_ROOT_LEN;
  num_blocks ← read_u64;
  frame_number ← read_u64;
  sig ← read_opt MAX_SIG_LEN SignatureWithPop_read;
  mret (mkLeafRootRegistration shard_filter prefix epoch leaf_root num_blocks frame_number sig).
Definition LeafRootRegistration_from_canonical_bytes : list byte -> result LeafRootRegistration :=
  decode_all LeafRootRegistration_read.

Definition leaf_id_bytes (shard_filter : list byte) (prefix : list Z) : list byte :=
  shard_filter ++ [xff] ++ concat (be_bytes 4 <$> prefix).

Record LeafRootEntry := mkLeafRootEntry {
  le_prefix : list Z;
  le_leaf_root : list byte;
  le_num_blocks : Z;
}.
Record ConfirmLeafRoots := mkConfirmLeafRoots {
  cl_filter : list byte;
  cl_entries : list LeafRootEntry;
}.

Definition entry_bytes (e : LeafRootEntry) : list byte :=
  put_list put_u32 (le_prefix e) ++ put_lp (le_leaf_root e) ++ put_u64 (le_num_blocks e).
Definition group_bytes (g : ConfirmLeafRoots) : list byte :=
  put_lp (cl_filter g) ++ put_list entry_bytes (cl_entries g).
Definition append_confirm_leaf_roots (groups : list ConfirmLeafRoots) : list byte :=
  if decide (groups = []) then [] else put_list group_bytes groups.

Definition entry_read : reader LeafRootEntry :=
  prefix ← read_list_max MAX_PREFIX_LEN read_u32;
  leaf_root ← read_lp_max MAX_LEAF_ROOT_LEN;
  num_blocks ← read_u64;
  mret (mkLeafRootEntry prefix leaf_root num_blocks).
Definition group_read : reader ConfirmLeafRoots :=
  filter ← read_lp_max MAX_SHARD_FILTER_LEN;
  entries ← read_list_max MAX_PREFIX_LEN entry_read;
  mret (mkConfirmLeafRoots filter entries).
Definition read_confirm_leaf_roots : reader (list ConfirmLeafRoots) := fun r =>
  if decide (r = []) then Ok ([], r) else read_list_max MAX_PREFIX_LEN group_read r.

(** ** Release *)

Record Release := mkRelease {
  rel_version : byte * byte * byte;
  rel_patch : byte;
  rel_subpatch : Z;
}.
Definition RELEASE_ENCODED_LEN : nat := 6.
Definition Release_to_bytes (r : Release) : list byte :=
  let '(a, b, c) := rel_version r in [a; b; c; rel_patch r] ++ be_bytes 2 (rel_subpatch r).
Definition Release_from_bytes (bs : list byte) : option Release :=
  match bs with
  | [a; b; c; patch; s0; s1] => Some (mkRelease (a, b, c) patch (be_val [s0; s1]))
  | _ => None
  end.

(** ** ProverConfirm *)

Definition TYPE_PROVER_CONFIRM : Z := 0x0305.

Record ProverConfirm := mkProverConfirm {
  pc_filter : list byte;
  pc_frame_number : Z;
  pc_sig : option AddressedSignature;
  pc_filters : list (list byte);
  pc_leaf_roots : list ConfirmLeafRoots;
  pc_release : option Release;
}.

(** The deprecated filter: [reserved] four times. *)
Definition reserved : list byte :=
  concat (replicate 4 [x72; x65; x73; x65; x72; x76; x65; x64]).

Definition ProverConfirm_to_canonical_bytes (m : ProverConfirm) : list byte :=
  put_u32 TYPE_PROVER_CONFIRM
  ++ put_u32 32 ++ reserved
  ++ put_u64 (pc_frame_number m)
  ++ write_opt_addr_sig (pc_sig m)
  ++ write_filters (pc_filters m)
  ++ append_confirm_leaf_roots (pc_leaf_roots m)
  ++ match pc_release m with
     | Some release => (if decide (pc_leaf_roots m = []) then put_u32 0 else []) ++ Release_to_bytes release
     | None => []
     end.

(** The tail after the leaf roots, read only from the release frame on. *)
Definition tail_release (confirm_release_frame frame_number : Z) (tail : list byte) : option Release :=
  if confirm_release_frame <=? frame_number then
    if (length tail <? RELEASE_ENCODED_LEN)%nat then None else Release_from_bytes (take RELEASE_ENCODED_LEN tail)
  else None.

Definition peek_release (confirm_release_frame frame_number : Z) : reader (option Release) := fun tail =>
  Ok (tail_release confirm_release_frame frame_number tail, tail).

Definition ProverConfirm_read (confirm_release_frame : Z) : reader ProverConfirm :=
  _ ← expect_tp TYPE_PROVER_CONFIRM;
  filter ← read_lp_max 64;
  frame_number ← read_u64;
  sig ← read_opt_addr_sig;
  filters ← read_filters;
  leaf_roots ← read_confirm_leaf_roots;
  release ← peek_release confirm_release_frame frame_number;
  mret (mkProverConfirm filter frame_number sig filters leaf_roots release).
Definition ProverConfirm_from_canonical_bytes (confirm_release_frame : Z) : list byte -> result ProverConfirm :=
  decode_all (ProverConfirm_read confirm_release_frame).

(** ** The other operations *)

Definition TYPE_PROVER_REJECT : Z := 0x0306.
Record ProverReject := mkProverReject {
  pr_filter : list byte;
  pr_frame_number : Z;
  pr_sig : option AddressedSignature;
  pr_filters : list (list byte);
}.
Definition ProverReject_to_canonical_bytes (m : ProverReject) : list byte :=
  put_u32 TYPE_PROVER_REJECT ++ put_u32 32 ++ reserved ++ put_u64 (pr_frame_number m)
  ++ write_opt_addr_sig (pr_sig m) ++ write_filters (pr_filters m).
Definition ProverReject_read : reader ProverReject :=
  _ ← expect_tp TYPE_PROVER_REJECT;
  filter ← read_lp_max 64;
  frame_number ← read_u64;
  sig ← read_opt_addr_sig;
  filters ← read_filters;
  mret (mkProverReject filter frame_number sig filters).
Definition ProverReject_from_canonical_bytes : list byte -> result ProverReject := decode_all ProverReject_read.

Definition TYPE_PROVER_KICK : Z := 0x0307.
Record ProverKick := mkProverKick {
  pk_frame_number : Z;
  pk_kicked_prover_public_key : list byte;
  pk_conflicting_frame_1 : list byte;
  pk_conflicting_frame_2 : list byte;
  pk_commitment : list byte;
  pk_proof : list byte;
  pk_traversal_proof : list byte;
}.
Definition ProverKick_to_canonical_bytes (m : ProverKick) : list byte :=
  put_u32 TYPE_PROVER_KICK ++ put_u64 (pk_frame_number m) ++ put_lp (pk_kicked_prover_public_key m)
  ++ put_lp (pk_conflicting_frame_1 m) ++ put_lp (pk_conflicting_frame_2 m)
  ++ put_lp (pk_commitment m) ++ put_lp (pk_proof m) ++ put_lp (pk_traversal_proof m).
Definition ProverKick_read : reader ProverKick :=
  _ ← expect_tp TYPE_PROVER_KICK;
  frame_number ← read_u64;
  kicked ← read_lp_max 897;
  cf1 ← read_lp_max 34825;
  cf2 ← read_lp_max 34825;
  commitment ← read_lp_max 74;
  proof ← read_lp_max 160;
  traversal_proof ← read_lp_max 4000;
  mret (mkProverKick frame_number kicked cf1 cf2 commitment proof traversal_proof).
Definition ProverKick_from_canonical_bytes : list byte -> result ProverKick := decode_all ProverKick_read.

Definition TYPE_PROVER_UPDATE : Z := 0x0308.
Record ProverUpdate := mkProverUpdate {
  pu_delegate_address : list byte;
  pu_sig : option AddressedSignature;
}.
Definition ProverUpdate_to_canonical_bytes (m : ProverUpdate) : list byte :=
  put_u32 TYPE_PROVER_UPDATE ++ put_lp (pu_delegate_address m) ++ write_opt_addr_sig (pu_sig m).
Definition ProverUpdate_read : reader ProverUpdate :=
  _ ← expect_tp TYPE_PROVER_UPDATE;
  delegate_address ← read_lp_max 32;
  sig ← read_opt_addr_sig;
  mret (mkProverUpdate delegate_address sig).
Definition ProverUpdate_from_canonical_bytes : list byte -> result ProverUpdate := decode_all ProverUpdate_read.

Definition TYPE_PROVER_SENIORITY_MERGE : Z := 0x031a.
Record ProverSeniorityMerge := mkProverSeniorityMerge {
  ps_frame_number : Z;
  ps_sig : option AddressedSignature;
  ps_merge_targets : list SeniorityMerge;
}.
Definition ProverSeniorityMerge_to_canonical_bytes (m : ProverSeniorityMerge) : list byte :=
  put_u32 TYPE_PROVER_SENIORITY_MERGE ++ put_u64 (ps_frame_number m) ++ write_opt_addr_sig (ps_sig m)
  ++ put_list (put_nested SeniorityMerge_to_canonical_bytes) (ps_merge_targets m).
Definition ProverSeniorityMerge_read : reader ProverSeniorityMerge :=
  _ ← expect_tp TYPE_PROVER_SENIORITY_MERGE;
  frame_number ← read_u64;
  sig ← read_opt_addr_sig;
  merge_targets ← read_list_max 100 (read_nested 1000 SeniorityMerge_read);
  mret (mkProverSeniorityMerge frame_number sig merge_targets).
Definition ProverSeniorityMerge_from_canonical_bytes : list byte -> result ProverSeniorityMerge :=
  decode_all ProverSeniorityMerge_read.

Definition TYPE_SHARD_SPLIT : Z := 0x031e.
Record ShardSplit := mkShardSplit {
  ss_shard_address : list byte;
  ss_proposed_shards : list (list byte);
  ss_frame_number : Z;
  ss_sig : option AddressedSignature;
}.
Definition ShardSplit_to_canonical_bytes (m : ShardSplit) : list byte :=
  put_u32 TYPE_SHARD_SPLIT ++ put_lp (ss_shard_address m) ++ put_list put_lp (ss_proposed_shards m)
  ++ put_u64 (ss_frame_number m) ++ write_opt_addr_sig (ss_sig m).
Definition ShardSplit_read : reader ShardSplit :=
  _ ← expect_tp TYPE_SHARD_SPLIT;
  shard_address ← read_lp_max 64;
  proposed_shards ← read_list_max 8 (read_lp_max 66);
  frame_number ← read_u64;
  sig ← read_opt_addr_sig;
  mret (mkShardSplit shard_address proposed_shards frame_number sig).
Definition ShardSplit_from_canonical_bytes : list byte -> result ShardSplit := decode_all ShardSplit_read.

Definition TYPE_SHARD_MERGE : Z := 0x031f.
Record ShardMerge := mkShardMerge {
  sg_shard_addresses : list (list byte);
  sg_parent_address : list byte;
  sg_frame_number : Z;
  sg_sig : option AddressedSignature;
}.
Definition ShardMerge_to_canonical_bytes (m : ShardMerge) : list byte :=
  put_u32 TYPE_SHARD_MERGE ++ put_list put_lp (sg_shard_addresses m) ++ put_lp (sg_parent_address m)
  ++ put_u64 (sg_frame_number m) ++ write_opt_addr_sig (sg_sig m).
Definition ShardMerge_read : reader ShardMerge :=
  _ ← expect_tp TYPE_SHARD_MERGE;
  shard_addresses ← read_list_max 8 (read_lp_max 64);
  parent_address ← read_lp_max 64;
  frame_number ← read_u64;
  sig ← read_opt_addr_sig;
  mret (mkShardMerge shard_addresses parent_address frame_number sig).
Definition ShardMerge_from_canonical_bytes : list byte -> result ShardMerge := decode_all ShardMerge_read.

(** ** ProverJoin *)

Definition TYPE_PROVER_JOIN : Z := 0x0301.
Definition MAX_FILTERS : Z := 100.
Definition MAX_FILTER_LEN : Z := 64.
Definition MAX_DELEGATE_ADDR_LEN : Z := 32.
Definition MAX_MERGE_TARGET_LEN : Z := 675.
Definition MAX_PROOF_LEN : Z := 51600.

Record ProverJoin := mkProverJoin {
  pj_filters : list (list byte);
  pj_frame_number : Z;
  pj_sig : option SignatureWithPop;
  pj_delegate_address : list byte;
  pj_merge_targets : list SeniorityMerge;
  pj_proof : list byte;
}.
Definition ProverJoin_to_canonical_bytes (m : ProverJoin) : list byte :=
  put_u32 TYPE_PROVER_JOIN
  ++ put_list put_lp (pj_filters m)
  ++ put_u64 (pj_frame_number m)
  ++ put_opt SignatureWithPop_to_canonical_bytes (pj_sig m)
  ++ put_lp (pj_delegate_address m)
  ++ put_list (put_nested SeniorityMerge_to_canonical_bytes) (pj_merge_targets m)
  ++ put_lp (pj_proof m).
Definition ProverJoin_read : reader ProverJoin :=
  _ ← expect_tp TYPE_PROVER_JOIN;
  filters ← read_list_max MAX_FILTERS (read_lp_max MAX_FILTER_LEN);
  frame_number ← read_u64;
  sig ← read_opt MAX_SIG_LEN SignatureWithPop_read;
  delegate_address ← read_lp_max MAX_DELEGATE_ADDR_LEN;
  merge_targets ← read_list (read_nested MAX_MERGE_TARGET_LEN SeniorityMerge_read);
  proof ← read_lp_max MAX_PROOF_LEN;
  mret (mkProverJoin filters frame_number sig delegate_address merge_targets proof).
Definition ProverJoin_from_canonical_bytes : list byte -> result ProverJoin := decode_all ProverJoin_read.

(** ** Well-formed operations *)

(** The bounds the decoders enforce. *)
Definition filters_ok (count len : Z) (l : list (list byte)) : Prop :=
  at_most count l /\ Forall (at_most len) l.
Definition addr_sig_ok (o : option AddressedSignature) : Prop :=
  match o with Some s => AddressedSignature_ok s | None => True end.
Definition pop_sig_ok (o : option SignatureWithPop) : Prop :=
  match o with Some s => SignatureWithPop_ok s | None => True end.
Definition target_ok (max : Z) (m : SeniorityMerge) : Prop :=
  SeniorityMerge_ok m /\ at_most max (SeniorityMerge_to_canonical_bytes m).

Definition ProverLeave_ok (m : ProverLeave) : Prop :=
  filters_ok 100 64 (pl_filters m) /\ is_u64 (pl_frame_number m) /\ addr_sig_ok (pl_sig m).
Definition ProverFilterOp_ok (m : ProverFilterOp) : Prop :=
  at_most 64 (pf_filter m) /\ is_u64 (pf_frame_number m) /\ addr_sig_ok (pf_sig m).
Definition ProverReject_ok (m : ProverReject) : Prop :=
  pr_filter m = reserved /\ is_u64 (pr_frame_number m) /\ addr_sig_ok (pr_sig m) /\ filters_ok 100 64 (pr_filters m).
Definition ProverKick_ok (m : ProverKick) : Prop :=
  is_u64 (pk_frame_number m) /\ at_most 897 (pk_kicked_prover_public_key m) /\
  at_most 34825 (pk_conflicting_frame_1 m) /\ at_most 34825 (pk_conflicting_frame_2 m) /\
  at_most 74 (pk_commitment m) /\ at_most 160 (pk_proof m) /\ at_most 4000 (pk_traversal_proof m).
Definition ProverUpdate_ok (m : ProverUpdate) : Prop := at_most 32 (pu_delegate_address m) /\ addr_sig_ok (pu_sig m).
Definition ProverSeniorityMerge_ok (m : ProverSeniorityMerge) : Prop :=
  is_u64 (ps_frame_number m) /\ addr_sig_ok (ps_sig m) /\
  at_most 100 (ps_merge_targets m) /\ Forall (target_ok 1000) (ps_merge_targets m).
Definition ShardSplit_ok (m : ShardSplit) : Prop :=
  at_most 64 (ss_shard_address m) /\ filters_ok 8 66 (ss_proposed_shards m) /\
  is_u64 (ss_frame_number m) /\ addr_sig_ok (ss_sig m).
Definition ShardMerge_ok (m : ShardMerge) : Prop :=
  filters_ok 8 64 (sg_shard_addresses m) /\ at_most 64 (sg_parent_address m) /\
  is_u64 (sg_frame_number m) /\ addr_sig_ok (sg_sig m).
Definition ProverJoin_ok (m : ProverJoin) : Prop :=
  filters_ok 100 64 (pj_filters m) /\ is_u64 (pj_frame_number m) /\ pop_sig_ok (pj_sig m) /\
  at_most 32 (pj_delegate_address m) /\ fits (pj_merge_targets m) /\
  Forall (target_ok MAX_MERGE_TARGET_LEN) (pj_merge_targets m) /\ at_most 51600 (pj_proof m).
Definition LeafRootRegistration_ok (m : LeafRootRegistration) : Prop :=
  at_most 64 (lr_shard_filter m) /\ at_most 256 (lr_prefix m) /\ Forall is_u32 (lr_prefix m) /\
  is_u64 (lr_epoch m) /\ at_most 128 (lr_leaf_root m) /\ is_u64 (lr_num_blocks m) /\
  is_u64 (lr_frame_number m) /\ pop_sig_ok (lr_sig m).

(** ** Round trips *)

Lemma rt_weaken {A} (enc : A -> list byte) dec (ok ok' : A -> Prop) :
  RoundTrip enc dec ok -> (forall a, ok' a -> ok a) -> RoundTrip enc dec ok'.
Proof. intros H Hok a rest Ha. apply H. by apply Hok. Qed.

Lemma put_u32_length v : length (put_u32 v) = 4%nat.
Proof. apply be_bytes_length. Qed.
Lemma put_u64_length v : length (put_u64 v) = 8%nat.
Proof. apply be_bytes_length. Qed.
Lemma put_lp_length b : length (put_lp b) = (4 + length b)%nat.
Proof. unfold put_lp. by rewrite length_app, put_u32_length. Qed.

Ltac wire_length :=
  repeat first [rewrite length_app | rewrite put_lp_length | rewrite put_u32_length | rewrite put_u64_length]; cbn [length].

#[export] Instance AddressedSignature_round :
  RoundTrip AddressedSignature_to_canonical_bytes AddressedSignature_read AddressedSignature_ok.
Proof.
  intros [sig addr] rest [Hs Ha]. unfold AddressedSignature_to_canonical_bytes, AddressedSignature_read. cbn in *.
  assert (Z.of_nat (length sig) < 2 ^ 32) as Hf.
  { unfold sig_len_ok, SIG_LEN_SINGLE, SIG_LEN_AGGREGATE_1 in Hs. apply orb_true_iff in Hs as [Hs|Hs]; apply Z.eqb_eq in Hs; lia. }
  rewrite <- !app_assoc, expect_bind by wire_ok.
  rewrite (rt_bind put_lp _ (fun bs => fits bs /\ sig_len_ok (Z.of_nat (length bs)) = true)) by done.
  rewrite (rt_bind put_lp _ (fun bs => fits bs /\ (Z.of_nat (length bs) =? ADDRESS_LEN) = true)) by (unfold fits; rewrite Ha; done).
  done.
Qed.

#[export] Instance write_opt_addr_sig_round : RoundTrip write_opt_addr_sig read_opt_addr_sig addr_sig_ok.
Proof.
  eapply rt_weaken; [apply opt_round, AddressedSignature_round|]. intros [s|] Hs; cbn; [|done].
  destruct Hs as [Hs Ha]. assert (length (as_signature s) <= 1182)%nat as Hl.
  { unfold sig_len_ok, SIG_LEN_SINGLE, SIG_LEN_AGGREGATE_1 in Hs. apply orb_true_iff in Hs as [Hs|Hs]; apply Z.eqb_eq in Hs; lia. }
  assert (length (AddressedSignature_to_canonical_bytes s) = 44 + length (as_signature s))%nat as El.
  { unfold AddressedSignature_to_canonical_bytes. wire_length. lia. }
  unfold nested_ok, fits, at_most, MAX_ADDRESSED_SIG_LEN. rewrite El. split_and!; [done|lia|lia|].
  intros E. by rewrite E in El.
Qed.

#[export] Instance SignatureWithPop_round :
  RoundTrip SignatureWithPop_to_canonical_bytes SignatureWithPop_read SignatureWithPop_ok.
Proof.
  intros [sig pk pop] rest (Hs & Hp & Hk). unfold SignatureWithPop_to_canonical_bytes, SignatureWithPop_read. cbn in *.
  set (lens := fun bs : list byte => fits bs /\ (Z.of_nat (length bs) =? SIG_LEN) = true).
  rewrite <- !app_assoc, expect_bind by wire_ok.
  rewrite (rt_bind put_lp _ lens) by (unfold lens, fits; rewrite Hs; done).
  assert (forall r, read_wrapped_pubkey (match pk with Some pk => put_lp (put_u32 0x0117 ++ pk) | None => put_u32 0 end ++ r) = Ok (pk, r)) as Hpk.
  { intros r. unfold read_wrapped_pubkey. destruct pk as [pk|].
    - unfold put_lp. rewrite length_app, put_u32_length, Hk, <- app_assoc, (rt_bind put_u32 _ is_u32) by done.
      change (0 <? Z.of_nat (4 + 897)) with true. cbv iota. rewrite guard_bind by done.
      erewrite reader_bind_Ok by (apply read_exact_app; rewrite length_app, put_u32_length; lia).
      rewrite guard_bind by (rewrite length_app, put_u32_length, Hk; done).
      rewrite drop_app_length' by (by rewrite put_u32_length). done.
    - by rewrite (rt_bind put_u32 _ is_u32) by done. }
  erewrite reader_bind_Ok by apply Hpk.
  rewrite (rt_bind put_lp _ lens) by (unfold lens, fits; rewrite Hp; done). done.
Qed.

#[export] Instance put_opt_pop_round :
  RoundTrip (put_opt SignatureWithPop_to_canonical_bytes) (read_opt MAX_SIG_LEN SignatureWithPop_read) pop_sig_ok.
Proof.
  eapply rt_weaken; [apply opt_round, SignatureWithPop_round|]. intros [[sig pk pop]|] Hs; cbn; [|done].
  pose proof Hs as (Hs1 & Hp & Hk). cbn in *.
  assert (length (SignatureWithPop_to_canonical_bytes (mkSignatureWithPop sig pk pop)) = match pk with Some _ => 2249 | None => 1348 end)%nat as El.
  { unfold SignatureWithPop_to_canonical_bytes. cbn. destruct pk; wire_length; lia. }
  unfold nested_ok, fits, at_most, MAX_SIG_LEN. rewrite El. split_and!; [done|destruct pk; cbn; lia|destruct pk; cbn; lia|].
  intros E. rewrite E in El. by destruct pk.
Qed.

#[export] Instance SeniorityMerge_codec : Codec SeniorityMerge_to_canonical_bytes SeniorityMerge_read SeniorityMerge_ok.
Proof.
  split.
  - intros m rest. unfold SeniorityMerge_ok, SeniorityMerge_to_canonical_bytes, SeniorityMerge_read.
    unfold MAX_SENIORITY_SIG_LEN, MAX_SENIORITY_KEY_LEN. destruct m; cbn; intros Hm; destruct_and?; wire_round.
  - intros r m r'. unfold SeniorityMerge_ok, SeniorityMerge_to_canonical_bytes, SeniorityMerge_read.
    intros Hm. wire_inv. cbn. rewrite <- !app_assoc. by split_and!.
Qed.

Lemma filters_bind {B} c l (f : list (list byte) -> reader B) fs rest : c < 2 ^ 32 -> l < 2 ^ 32 -> filters_ok c l fs ->
  (read_list_max c (read_lp_max l) ≫= f) (put_list put_lp fs ++ rest) = f fs rest.
Proof.
  intros Hc Hl [Hn Hf]. eapply (rt_bind (put_list put_lp) _ (fun fs => fits fs /\ at_most c fs /\ Forall (fun bs => fits bs /\ at_most l bs) fs)).
  unfold fits, at_most in *. split_and!; [lia|done|]. eapply Forall_impl; [exact Hf|]. cbn. lia.
Qed.

Lemma nibbles_bind {B} c (f : list Z -> reader B) p rest : c < 2 ^ 32 -> at_most c p -> Forall is_u32 p ->
  (read_list_max c read_u32 ≫= f) (put_list put_u32 p ++ rest) = f p rest.
Proof.
  intros Hc Hn Hp. eapply (rt_bind (put_list put_u32) _ (fun l => fits l /\ at_most c l /\ Forall is_u32 l)).
  unfold fits, at_most in *. split_and!; [lia|done..].
Qed.

Lemma targets_ok max l : max < 2 ^ 32 -> Forall (target_ok max) l ->
  Forall (nested_ok SeniorityMerge_to_canonical_bytes max SeniorityMerge_ok) l.
Proof.
  intros Hm Hl. eapply Forall_impl; [exact Hl|]. intros m [Hok Ha]. unfold nested_ok, fits, at_most in *.
  split_and!; [done|lia|done].
Qed.

(** One step of an operation's round trip, on top of [wire_step]. *)
Ltac op_step :=
  first
    [ rewrite filters_bind by first [done | vm_compute; reflexivity]
    | rewrite nibbles_bind by first [done | vm_compute; reflexivity]
    | rewrite (rt_bind write_opt_addr_sig read_opt_addr_sig addr_sig_ok) by done
    | rewrite (rt_bind (put_opt SignatureWithPop_to_canonical_bytes) (read_opt MAX_SIG_LEN SignatureWithPop_read) pop_sig_ok) by done
    | wire_step ].
Ltac op_round := destruct_and?; repeat op_step; try done.

Lemma ProverLeave_round : RoundTrip ProverLeave_to_canonical_bytes ProverLeave_read ProverLeave_ok.
Proof.
  intros [] rest. unfold ProverLeave_ok, ProverLeave_to_canonical_bytes, ProverLeave_read, write_filters, read_filters.
  cbn. intros Hm. op_round.
Qed.

Lemma filter_op_round tp : is_u32 tp -> RoundTrip (filter_op_bytes tp) (filter_op_read tp) ProverFilterOp_ok.
Proof.
  intros Htp [] rest. unfold ProverFilterOp_ok, filter_op_bytes, filter_op_read, MAX_PROVER_FILTER_LEN.
  cbn. intros Hm. op_round.
Qed.

Lemma reserved_bind {B} (f : list byte -> reader B) rest :
  (read_lp_max 64 ≫= f) (put_u32 32 ++ reserved ++ rest) = f reserved rest.
Proof.
  replace (put_u32 32 ++ reserved ++ rest) with (put_lp reserved ++ rest) by (unfold put_lp; by rewrite <- app_assoc).
  by apply lp_max_bind.
Qed.

Lemma ProverReject_round : RoundTrip ProverReject_to_canonical_bytes ProverReject_read ProverReject_ok.
Proof.
  intros [] rest. unfold ProverReject_ok, ProverReject_to_canonical_bytes, ProverReject_read, write_filters, read_filters.
  cbn -[reserved]. intros (-> & Hm). rewrite <- !app_assoc, expect_bind, reserved_bind by wire_ok. op_round.
Qed.

Lemma ProverKick_round : RoundTrip ProverKick_to_canonical_bytes ProverKick_read ProverKick_ok.
Proof.
  intros [] rest. unfold ProverKick_ok, ProverKick_to_canonical_bytes, ProverKick_read. cbn. intros Hm. op_round.
Qed.

Lemma ProverUpdate_round : RoundTrip ProverUpdate_to_canonical_bytes ProverUpdate_read ProverUpdate_ok.
Proof.
  intros [] rest. unfold ProverUpdate_ok, ProverUpdate_to_canonical_bytes, ProverUpdate_read. cbn. intros Hm. op_round.
Qed.

Lemma ShardSplit_round : RoundTrip ShardSplit_to_canonical_bytes ShardSplit_read ShardSplit_ok.
Proof.
  intros [] rest. unfold ShardSplit_ok, ShardSplit_to_canonical_bytes, ShardSplit_read. cbn. intros Hm. op_round.
Qed.

Lemma ShardMerge_round : RoundTrip ShardMerge_to_canonical_bytes ShardMerge_read ShardMerge_ok.
Proof.
  intros [] rest. unfold ShardMerge_ok, ShardMerge_to_canonical_bytes, ShardMerge_read. cbn. intros Hm. op_round.
Qed.

Lemma targets_max_bind {B} (f : list SeniorityMerge -> reader B) l rest : at_most 100 l -> Forall (target_ok 1000) l ->
  (read_list_max 100 (read_nested 1000 SeniorityMerge_read) ≫= f)
    (put_list (put_nested SeniorityMerge_to_canonical_bytes) l ++ rest) = f l rest.
Proof.
  intros Hn Hl. apply (rt_bind (put_list (put_nested SeniorityMerge_to_canonical_bytes)) _
    (fun l => fits l /\ at_most 100 l /\ Forall (nested_ok SeniorityMerge_to_canonical_bytes 1000 SeniorityMerge_ok) l)).
  unfold fits, at_most in *. split_and!; [lia|done|by apply targets_ok].
Qed.

Lemma targets_bind {B} (f : list SeniorityMerge -> reader B) l rest : fits l -> Forall (target_ok MAX_MERGE_TARGET_LEN) l ->
  (read_list (read_nested MAX_MERGE_TARGET_LEN SeniorityMerge_read) ≫= f)
    (put_list (put_nested SeniorityMerge_to_canonical_bytes) l ++ rest) = f l rest.
Proof.
  intros Hn Hl. apply (rt_bind (put_list (put_nested SeniorityMerge_to_canonical_bytes)) _
    (fun l => fits l /\ Forall (nested_ok SeniorityMerge_to_canonical_bytes MAX_MERGE_TARGET_LEN SeniorityMerge_ok) l)).
  split; [done|by apply targets_ok].
Qed.

Lemma ProverSeniorityMerge_round :
  RoundTrip ProverSeniorityMerge_to_canonical_bytes ProverSeniorityMerge_read ProverSeniorityMerge_ok.
Proof.
  intros [] rest. unfold ProverSeniorityMerge_ok, ProverSeniorityMerge_to_canonical_bytes, ProverSeniorityMerge_read.
  cbn. intros Hm. op_round. by rewrite targets_max_bind.
Qed.

Lemma ProverJoin_round : RoundTrip ProverJoin_to_canonical_bytes ProverJoin_read ProverJoin_ok.
Proof.
  intros [] rest. unfold ProverJoin_ok, ProverJoin_to_canonical_bytes, ProverJoin_read.
  unfold MAX_FILTERS, MAX_FILTER_LEN, MAX_DELEGATE_ADDR_LEN, MAX_PROOF_LEN.
  cbn. intros Hm. op_round. rewrite targets_bind by done. op_round.
Qed.

Lemma LeafRootRegistration_round :
  RoundTrip LeafRootRegistration_to_canonical_bytes LeafRootRegistration_read LeafRootRegistration_ok.
Proof.
  intros [] rest. unfold LeafRootRegistration_ok, LeafRootRegistration_to_canonical_bytes, LeafRootRegistration_read.
  unfold MAX_SHARD_FILTER_LEN, MAX_PREFIX_LEN, MAX_LEAF_ROOT_LEN. cbn. intros Hm. op_round.
Qed.

(** ** Confirms: leaf roots and release *)

Definition entry_ok (e : LeafRootEntry) : Prop :=
  at_most 256 (le_prefix e) /\ Forall is_u32 (le_prefix e) /\ at_most 128 (le_leaf_root e) /\ is_u64 (le_num_blocks e).
Definition group_ok (g : ConfirmLeafRoots) : Prop :=
  at_most 64 (cl_filter g) /\ at_most 256 (cl_entries g) /\ Forall entry_ok (cl_entries g).
Definition groups_ok (l : list ConfirmLeafRoots) : Prop := at_most 256 l /\ Forall group_ok l.
Definition release_ok (o : option Release) : Prop :=
  match o with Some r => 0 <= rel_subpatch r < 2 ^ 16 | None => True end.
Definition ProverConfirm_ok (m : ProverConfirm) : Prop :=
  is_u64 (pc_frame_number m) /\ addr_sig_ok (pc_sig m) /\ filters_ok 100 64 (pc_filters m) /\
  groups_ok (pc_leaf_roots m) /\ release_ok (pc_release m).

#[export] Instance entry_round : RoundTrip entry_bytes entry_read entry_ok.
Proof.
  intros [] rest. unfold entry_ok, entry_bytes, entry_read, MAX_PREFIX_LEN, MAX_LEAF_ROOT_LEN. cbn. intros Hm. op_round.
Qed.

Lemma counted_bind {A B} (enc : A -> list byte) dec ok `{!RoundTrip enc dec ok} c (f : list A -> reader B) l rest :
  c < 2 ^ 32 -> at_most c l -> Forall ok l -> (read_list_max c dec ≫= f) (put_list enc l ++ rest) = f l rest.
Proof.
  intros Hc Hn Hl. apply (rt_bind (put_list enc) _ (fun l => fits l /\ at_most c l /\ Forall ok l)).
  unfold fits, at_most in *. split_and!; [lia|done..].
Qed.

#[export] Instance group_round : RoundTrip group_bytes group_read group_ok.
Proof.
  intros [] rest. unfold group_ok, group_bytes, group_read, MAX_SHARD_FILTER_LEN. cbn. intros (Hf & Hn & He).
  rewrite <- app_assoc, lp_max_bind by wire_ok. by rewrite (counted_bind entry_bytes entry_read entry_ok).
Qed.

Lemma put_list_nonempty {A} (enc : A -> list byte) l rest : put_list enc l ++ rest <> [].
Proof.
  intros E. apply (f_equal length) in E. unfold put_list in E. rewrite !length_app, put_u32_length in E. cbn in E. lia.
Qed.

(** The leaf roots are read back from what a confirm writes after its filters:
    nothing, a counted list, or an explicit zero before a release. *)
Lemma read_groups {B} groups release (f : list ConfirmLeafRoots -> reader B) : groups_ok groups ->
  (read_confirm_leaf_roots ≫= f)
    (append_confirm_leaf_roots groups ++
     match release with
     | Some rel => (if decide (groups = []) then put_u32 0 else []) ++ Release_to_bytes rel
     | None => []
     end) = f groups (match release with Some rel => Release_to_bytes rel | None => [] end).
Proof.
  intros [Hn Hg]. unfold append_confirm_leaf_roots. set (tail := match release with Some rel => Release_to_bytes rel | None => [] end).
  assert (forall l, at_most 256 l -> Forall group_ok l ->
    read_list_max MAX_PREFIX_LEN group_read (put_list group_bytes l ++ tail) = Ok (l, tail)) as Hread.
  { intros l Hl Hok. apply (list_max_round MAX_PREFIX_LEN group_bytes group_read group_ok). unfold fits, at_most in *.
    split_and!; [lia|done..]. }
  destruct (decide (groups = [])) as [-> |Hne].
  - destruct release as [rel|]; [|done]. cbn [app]. eapply reader_bind_Ok. unfold read_confirm_leaf_roots.
    change (put_u32 0 ++ Release_to_bytes rel) with (put_list group_bytes [] ++ tail).
    rewrite decide_False by apply put_list_nonempty. by apply Hread.
  - assert (match release with Some rel => [] ++ Release_to_bytes rel | None => [] end = tail) as -> by by destruct release.
    eapply reader_bind_Ok. unfold read_confirm_leaf_roots. rewrite decide_False by apply put_list_nonempty. by apply Hread.
Qed.

Lemma Release_round rel : 0 <= rel_subpatch rel < 2 ^ 16 ->
  length (Release_to_bytes rel) = 6%nat /\ Release_from_bytes (Release_to_bytes rel) = Some rel.
Proof.
  intros Hr. destruct rel as [[[a b] c] p s]. cbn in Hr.
  assert (Release_to_bytes (mkRelease (a, b, c) p s) = [a; b; c; p] ++ be_bytes 2 s) as -> by done.
  split; [by rewrite length_app, be_bytes_length|].
  assert (be_val (be_bytes 2 s) = s) as Hs by (rewrite be_val_bytes; by apply Z.mod_small).
  destruct (be_bytes 2 s) as [|s0 [|s1 [|]]] eqn:E; try (apply (f_equal length) in E; by rewrite be_bytes_length in E).
  cbn [app Release_from_bytes]. by rewrite Hs.
Qed.

(** What a decoder returns for an encoded confirm. *)
Definition confirm_read_back (confirm_release_frame : Z) (m : ProverConfirm) : ProverConfirm :=
  mkProverConfirm reserved (pc_frame_number m) (pc_sig m) (pc_filters m) (pc_leaf_roots m)
    (if confirm_release_frame <=? pc_frame_number m then pc_release m else None).

Lemma confirm_decodes crf m : ProverConfirm_ok m ->
  ProverConfirm_from_canonical_bytes crf (ProverConfirm_to_canonical_bytes m) = Ok (confirm_read_back crf m).
Proof.
  intros (Hf & Hs & Hfs & Hg & Hr). unfold ProverConfirm_from_canonical_bytes, decode_all.
  unfold ProverConfirm_to_canonical_bytes, ProverConfirm_read, write_filters, read_filters.
  rewrite <- ?app_assoc, expect_bind, reserved_bind by wire_ok. op_step. op_step.
  rewrite filters_bind, read_groups by done. unfold confirm_read_back.
  unfold mbind, reader_bind, peek_release, tail_release. cbn. destruct (crf <=? pc_frame_number m); [|done].
  destruct (pc_release m) as [rel|]; [|done]. destruct (Release_round rel Hr) as [Hl E].
  rewrite Hl. cbn [Nat.ltb Nat.leb RELEASE_ENCODED_LEN]. by rewrite take_ge, E by lia.
Qed.

(** ** What the encodings promise *)

Definition round_trips {A} (enc : A -> list byte) (dec : list byte -> result A) (ok : A -> Prop) : Prop :=
  forall a rest, ok a -> dec (enc a ++ rest) = Ok a.

Lemma round_trips_of {A} (enc : A -> list byte) dec ok : RoundTrip enc dec ok -> round_trips enc (decode_all dec) ok.
Proof. intros H a rest. by apply decode_all_ok. Qed.


(** A confirm is read back with its frame, signature, filters and leaf roots;
    its deprecated filter becomes the reserved constant, and its release is read
    from the confirm release frame on and dropped before it, whether or not
    leaf roots precede it. *)
Theorem confirm_round_trip confirm_release_frame m : ProverConfirm_ok m ->
  ProverConfirm_from_canonical_bytes confirm_release_frame (ProverConfirm_to_canonical_bytes m) =
  Ok (confirm_read_back confirm_release_frame m).
Proof. apply confirm_decodes. Qed.

Definition sample_confirm : ProverConfirm :=
  mkProverConfirm [] 77 None [[x01; x02]; []] [] (Some (mkRelease (x02, x01, x00) x13 258)).

Lemma confirm_round_trip_witness :
  ProverConfirm_from_canonical_bytes 50 (ProverConfirm_to_canonical_bytes sample_confirm) =
  Ok (mkProverConfirm reserved 77 None [[x01; x02]; []] [] (Some (mkRelease (x02, x01, x00) x13 258))).
Proof.
  apply (confirm_round_trip 50 sample_confirm).
  unfold ProverConfirm_ok, groups_ok, filters_ok, at_most, is_u64. cbn.
  split_and!; try done; repeat (apply Forall_cons; split); done.
Defined.

(** *** Leaf identifiers *)

(** The last separator byte ends the filter when no prefix byte is [0xFF]. *)
Lemma split_last (x : byte) a b p q : x ∉ p -> x ∉ q -> a ++ x :: p = b ++ x :: q -> a = b /\ p = q.
Proof.
  intros Hp Hq. revert b. induction a as [|c a IH]; intros [|d b]; cbn; intros E.
  - by injection E as ->.
  - injection E as <- ->. destruct Hp. set_solver.
  - injection E as -> <-. destruct Hq. set_solver.
  - injection E as <- E2. destruct (IH _ E2) as [-> ->]. done.
Qed.

Lemma nibble_bytes_no_ff p : Forall (fun z => 0 <= z < 64) p -> xff ∉ concat (be_bytes 4 <$> p).
Proof.
  induction 1 as [|z p Hz _ IH]; cbn [fmap list_fmap concat]; [by apply not_elem_of_nil|].
  rewrite elem_of_app. intros [Hin|Hin]; [|done]. clear IH.
  assert (forallb (fun z => negb (bool_decide (xff ∈ be_bytes 4 (Z.of_nat z)))) (seq 0 64) = true) as Hall by (vm_compute; reflexivity).
  rewrite forallb_forall in Hall. specialize (Hall (Z.to_nat z)). rewrite Z2Nat.id in Hall by lia.
  rewrite bool_decide_true in Hall by done. discriminate Hall. apply in_seq. lia.
Qed.

Lemma nibble_bytes_inj p q : Forall (fun z => 0 <= z < 64) p -> Forall (fun z => 0 <= z < 64) q ->
  concat (be_bytes 4 <$> p) = concat (be_bytes 4 <$> q) -> p = q.
Proof.
  intros Hp. revert q. induction Hp as [|y p Hy _ IH]; intros [|z q] Hq E; cbn [fmap list_fmap concat] in E; try done;
    try (apply (f_equal length) in E; rewrite length_app, be_bytes_length in E; cbn in E; lia).
  apply Forall_cons in Hq as [Hz Hq]. apply app_inj_1 in E as [E1 E2]; [|by rewrite !be_bytes_length].
  f_equal; [|by apply IH]. apply (f_equal be_val) in E1. rewrite !be_val_bytes in E1.
  rewrite !Z.mod_small in E1 by (cbn; lia). done.
Qed.

(** The leaf identifier determines the shard filter and the prefix while every
    prefix element is a nibble (below 64), whatever bytes the filters hold. *)
Theorem leaf_id_injective f g p q :
  Forall (fun z => 0 <= z < 64) p -> Forall (fun z => 0 <= z < 64) q ->
  leaf_id_bytes f p = leaf_id_bytes g q -> f = g /\ p = q.
Proof.
  intros Hp Hq E. apply split_last in E as [-> E]; [|by apply nibble_bytes_no_ff..].
  split; [done|]. by apply nibble_bytes_inj.
Qed.

Lemma leaf_id_injective_witness : [x0a; xff] = [x0a; xff] /\ [1; 63] = [1; 63].
Proof. apply (leaf_id_injective [x0a; xff] [x0a; xff] [1; 63] [1; 63]); [repeat constructor; lia..|reflexivity]. Defined.

(** Decoders accept any [u32] as a prefix element, and then identifiers of
    different shards can coincide. *)
Lemma leaf_id_collision : leaf_id_bytes [x0a] [255] = leaf_id_bytes [x0a; xff; x00; x00; x00] [].
Proof. vm_compute. reflexivity. Qed.
