(* ===== verification/Envelope.v ===== *)
(** * Message envelopes ([src/crates/quil-execution/src/message_envelope.rs])

    Requests and bundles wrap the canonical bytes of one operation each.  A
    request inside a bundle is a slice decoded on its own; an absent request has
    length zero.  The per-operation encoders that turn a protobuf request into
    inner bytes are an argument of the section. *)

From S2P Require Import Prelude Bytes Cursor.

Definition TYPE_MESSAGE_REQUEST : Z := 0x0311.
Definition TYPE_MESSAGE_BUNDLE : Z := 0x0312.

Record CanonicalMessageRequest := mkRequest {
  inner_type_prefix : Z;
  inner_bytes : list byte;
}.

Definition Request_to_canonical_bytes (r : CanonicalMessageRequest) : list byte :=
  put_u32 TYPE_MESSAGE_REQUEST ++ put_u32 (Z.of_nat (length (inner_bytes r))) ++ inner_bytes r.

Definition Request_read : reader CanonicalMessageRequest :=
  _ ← expect_tp TYPE_MESSAGE_REQUEST;
  inner ← read_lp;
  _ ← reader_guard (negb (bool_decide (inner = []))) InvalidArgument;
  _ ← reader_guard (negb (length inner <? 4)%nat) InvalidArgument;
  mret (mkRequest (be_val (take 4 inner)) inner).
Definition Request_from_canonical_bytes : list byte -> result CanonicalMessageRequest := decode_all Request_read.

Definition wrap (inner : list byte) : result CanonicalMessageRequest :=
  if (length inner <? 4)%nat then Err InvalidArgument else Ok (mkRequest (be_val (take 4 inner)) inner).

Record CanonicalMessageBundle := mkBundle {
  requests : list (option CanonicalMessageRequest);
  timestamp : Z;
}.

Definition entry_bytes (r : option CanonicalMessageRequest) : list byte :=
  match r with
  | Some r => let rb := Request_to_canonical_bytes r in put_u32 (Z.of_nat (length rb)) ++ rb
  | None => put_u32 0
  end.
Definition Bundle_to_canonical_bytes (b : CanonicalMessageBundle) : list byte :=
  put_u32 TYPE_MESSAGE_BUNDLE ++ put_u32 (Z.of_nat (length (requests b)))
  ++ concat (entry_bytes <$> requests b) ++ put_i64 (timestamp b).

Definition entry_read : reader (option CanonicalMessageRequest) :=
  req_len ← read_u32;
  if 0 <? req_len then
    req_bytes ← read_bytes (Z.to_nat req_len);
    Some <$> decode_slice Request_read req_bytes
  else mret None.
Definition Bundle_read : reader CanonicalMessageBundle :=
  _ ← expect_tp TYPE_MESSAGE_BUNDLE;
  num_requests ← read_u32;
  requests ← read_many entry_read (Z.to_nat num_requests);
  timestamp ← read_i64;
  mret (mkBundle requests timestamp).
Definition Bundle_from_canonical_bytes : list byte -> result CanonicalMessageBundle := decode_all Bundle_read.

(** ** From protobuf requests *)

Section Proto.
Context {ProtoRequest : Type} (to_inner_bytes : ProtoRequest -> result (list byte)).

Fixpoint wrap_all (reqs : list ProtoRequest) : result (list (option CanonicalMessageRequest)) :=
  match reqs with
  | [] => Ok []
  | req :: rest =>
      inner ← to_inner_bytes req;
      r ← wrap inner;
      rs ← wrap_all rest;
      Ok (Some r :: rs)
  end.
Definition proto_message_bundle_to_canonical_bytes (reqs : list ProtoRequest) (ts : Z) : result (list byte) :=
  rs ← wrap_all reqs; Ok (Bundle_to_canonical_bytes (mkBundle rs ts)).
End Proto.

(** ** Well-formed envelopes *)

(** A request tagged with the first four bytes of its payload. *)
Definition request_ok (r : CanonicalMessageRequest) : Prop :=
  (4 <= length (inner_bytes r))%nat /\ inner_type_prefix r = be_val (take 4 (inner_bytes r)) /\
  Z.of_nat (length (inner_bytes r)) + 8 < 2 ^ 32.
Definition entry_ok (o : option CanonicalMessageRequest) : Prop :=
  match o with Some r => request_ok r | None => True end.
Definition bundle_ok (b : CanonicalMessageBundle) : Prop :=
  fits (requests b) /\ Forall entry_ok (requests b) /\ is_i64 (timestamp b).

#[export] Instance request_round : RoundTrip Request_to_canonical_bytes Request_read request_ok.
Proof.
  intros [tp inner] rest (H4 & Htp & Hl). unfold Request_to_canonical_bytes, Request_read.
  cbn [inner_bytes inner_type_prefix] in *.
  change (put_u32 (Z.of_nat (length inner)) ++ inner) with (put_lp inner).
  rewrite <- app_assoc, expect_bind by wire_ok. rewrite (rt_bind put_lp read_lp fits) by (unfold fits; lia).
  rewrite guard_bind by (destruct inner; [cbn in H4; lia|done]).
  rewrite guard_bind by (apply negb_true_iff, Nat.ltb_ge; done). by rewrite Htp.
Qed.

#[export] Instance entry_round : RoundTrip entry_bytes entry_read entry_ok.
Proof.
  intros [r|] rest Hr; unfold entry_read, entry_bytes; cbv zeta.
  - assert (length (Request_to_canonical_bytes r) = 8 + length (inner_bytes r))%nat as El.
    { unfold Request_to_canonical_bytes. rewrite !length_app. unfold put_u32. rewrite !be_bytes_length. lia. }
    destruct Hr as (H4 & Htp & Hl). rewrite <- app_assoc, (rt_bind put_u32 _ is_u32) by (unfold is_u32; lia).
    destruct (Z.ltb_spec 0 (Z.of_nat (length (Request_to_canonical_bytes r)))); [|lia].
    erewrite reader_bind_Ok by (apply read_exact_app; lia). apply reader_fmap_Ok. unfold decode_slice.
    rewrite <- (app_nil_r (Request_to_canonical_bytes r)). by rewrite (decode_all_ok _ _ request_ok).
  - by rewrite (rt_bind put_u32 _ is_u32) by done.
Qed.

#[export] Instance bundle_round : RoundTrip Bundle_to_canonical_bytes Bundle_read bundle_ok.
Proof.
  intros [rs ts] rest (Hf & Hr & Ht). unfold Bundle_to_canonical_bytes, Bundle_read. cbn in *.
  rewrite <- !app_assoc, expect_bind, (rt_bind put_u32 _ is_u32) by (first [by apply len_u32|done]).
  rewrite Nat2Z.id. erewrite reader_bind_Ok by (by apply (read_many_app entry_bytes entry_read entry_ok)).
  by rewrite (rt_bind put_i64 read_i64 is_i64).
Qed.

(** ** What the envelopes promise *)

(** C39. A bundle of requests, present or absent, is read back exactly from its
    canonical bytes, whatever follows. *)
Theorem bundle_round_trip b rest : bundle_ok b ->
  Bundle_from_canonical_bytes (Bundle_to_canonical_bytes b ++ rest) = Ok b.
Proof. apply decode_all_ok, bundle_round. Qed.

Definition sample_bundle : CanonicalMessageBundle :=
  mkBundle [Some (mkRequest 0x0303 [x00; x00; x03; x03; xaa]); None] (-5).

Lemma bundle_round_trip_witness :
  Bundle_from_canonical_bytes (Bundle_to_canonical_bytes sample_bundle ++ [xff]) = Ok sample_bundle.
Proof.
  apply (bundle_round_trip sample_bundle [xff]). unfold bundle_ok, fits, is_i64. cbn.
  split_and!; try lia. repeat (apply Forall_cons; split); [|done|done].
  unfold entry_ok, request_ok. cbn. split_and!; [lia|done|lia].
Defined.

Lemma wrap_all_ok {P} (enc : P -> result (list byte)) reqs rs : wrap_all enc reqs = Ok rs ->
  Forall2 (fun req r => exists inner, enc req = Ok inner /\ (4 <= length inner)%nat /\
    r = Some (mkRequest (be_val (take 4 inner)) inner)) reqs rs.
Proof.
  revert rs. induction reqs as [|req reqs IH]; intros rs; cbn [wrap_all].
  - intros [= <-]. constructor.
  - intros (inner & Hi & (r & Hr & (rs' & Hrs & [= <-])%bind_inv)%bind_inv)%bind_inv. constructor; [|by apply IH].
    unfold wrap in Hr. destruct (Nat.ltb_spec (length inner) 4); [done|]. injection Hr as <-. eauto.
Qed.

(** The bytes signed for a protobuf bundle decode to exactly its requests in
    order, each carrying the inner bytes its encoder produced and tagged with
    their first four bytes, whatever those encoders are. *)
Theorem proto_bundle_decodes {P} (enc : P -> result (list byte)) reqs ts bytes :
  proto_message_bundle_to_canonical_bytes enc reqs ts = Ok bytes -> is_i64 ts -> fits reqs ->
  (forall req inner, enc req = Ok inner -> Z.of_nat (length inner) + 8 < 2 ^ 32) ->
  exists rs, Bundle_from_canonical_bytes bytes = Ok (mkBundle rs ts) /\
    Forall2 (fun req r => exists inner, enc req = Ok inner /\ r = Some (mkRequest (be_val (take 4 inner)) inner)) reqs rs.
Proof.
  intros (rs & Hw & [= <-])%bind_inv Hts Hf Hsize. apply wrap_all_ok in Hw as Hrs. exists rs. split.
  - rewrite <- (app_nil_r (Bundle_to_canonical_bytes _)). apply decode_all_ok with bundle_ok; [apply bundle_round|].
    split_and!; cbn; [|apply Forall_forall|done].
    + unfold fits in *. by rewrite <- (Forall2_length _ _ _ Hrs).
    + intros r [i Hi]%list_elem_of_lookup. destruct (Forall2_lookup_r _ _ _ _ _ Hrs Hi) as (req & _ & inner & He & H4 & ->).
      cbn. split_and!; [done|done|]. by eapply Hsize.
  - eapply Forall2_impl; [exact Hrs|]. naive_solver.
Qed.

Lemma proto_bundle_decodes_witness : exists rs,
  Bundle_from_canonical_bytes (Bundle_to_canonical_bytes (mkBundle [Some (mkRequest 772 [x00; x00; x03; x04])] 9)) = Ok (mkBundle rs 9) /\
  Forall2 (fun (req : unit) r => exists inner, Ok [x00; x00; x03; x04] = Ok inner /\
    r = Some (mkRequest (be_val (take 4 inner)) inner)) [()] rs.
Proof.
  apply (proto_bundle_decodes (fun _ : unit => Ok [x00; x00; x03; x04]) [()] 9).
  - vm_compute. reflexivity.
  - unfold is_i64. lia.
  - unfold fits. cbn. lia.
  - intros _ inner [= <-]. cbn. lia.
Defined.

(** ** Untrusted bundles *)

Lemma safe_decode_slice {A} (rd : reader A) slice : reader_safe rd -> reader_safe (decode_slice rd slice).
Proof.
  intros Hrd r. unfold decode_slice, decode_all. specialize (Hrd slice). by destruct (rd slice) as [[a r']| |].
Qed.
#[local] Hint Resolve safe_decode_slice : readers.

Lemma request_read_safe : reader_safe Request_read.
Proof. unfold Request_read, expect_tp, read_lp, read_u32, read_bytes. auto 20 with readers. Qed.

Lemma request_read_ok r q r' : Request_read r = Ok (q, r') ->
  (4 <= length (inner_bytes q))%nat /\ inner_type_prefix q = be_val (take 4 (inner_bytes q)).
Proof.
  unfold Request_read. intros H. wire_inv. cbn.
  match goal with E : negb (_ <? 4)%nat = true |- _ => apply negb_true_iff, Nat.ltb_ge in E end. done.
Qed.

(** Decoding arbitrary bytes as a bundle never panics, and every request it
    returns carries at least a type discriminator and is tagged with it. *)
Theorem bundle_decode_untrusted data :
  Bundle_from_canonical_bytes data <> Panic /\
  forall b q, Bundle_from_canonical_bytes data = Ok b -> Some q ∈ requests b ->
    (4 <= length (inner_bytes q))%nat /\ inner_type_prefix q = be_val (take 4 (inner_bytes q)).
Proof.
  unfold Bundle_from_canonical_bytes, decode_all. split.
  - assert (reader_safe Bundle_read) as Hs.
    { pose proof request_read_safe. unfold Bundle_read, entry_read, expect_tp, read_i64, read_u32, read_bytes.
      auto 20 with readers. }
    specialize (Hs data). by destruct (Bundle_read data) as [[b r']| |].
  - intros b q Hb Hq. destruct (Bundle_read data) as [[b' r']| |] eqn:E; [|done|done]. injection Hb as ->.
    unfold Bundle_read in E. wire_inv. apply list_elem_of_lookup in Hq as [i Hi].
    match goal with H : read_many _ _ _ = Ok _ |- _ => apply read_many_inv in H as [_ H]; destruct (H _ _ Hi) as (r1 & r2 & He) end.
    unfold entry_read in He. wire_inv. destruct (0 <? _); wire_inv; [|done].
    apply fmap_inv in He as (q' & Hs & [= <-]). unfold decode_slice, decode_all in Hs.
    destruct (Request_read _) as [[a r3]| |] eqn:Er; [|done|done]. injection Hs as <- _. by eapply request_read_ok.
Qed.
