(* ===== verification/ClientEpoch.v ===== *)
(** * The client's view of the prover lifecycle
      ([src/crates/quil-client/src/commands/node/prover/epoch.rs])

    The command-line client recomputes the effective status of an allocation
    from the frame numbers the node reports, and derives from it the windows and
    the hints it shows.  The definitions mirror that file; the theorems compare
    them with the node's own rule ([Allocation.v]) and with the frames at which
    the shown defaults really take effect.  Frame numbers are [u64] and wrap. *)

From stdpp Require Import strings.
From S2P Require Import Prelude Bytes Allocation.

#[local] Open Scope Z_scope.

Definition DEFAULT_EPOCH_LENGTH_FRAMES : Z := 720.

(** Raw [ProverStatus] discriminants as sent over the RPC. *)
Definition raw_JOINING : Z := 1.
Definition raw_ACTIVE : Z := 2.
Definition raw_PAUSED : Z := 3.
Definition raw_LEAVING : Z := 4.
Definition raw_REJECTED : Z := 5.
Definition raw_KICKED : Z := 6.

Inductive ClientStatus :=
| CsUnknown | CsJoining | CsActive | CsPaused | CsLeaving | CsExpiredJoining | CsExpiredLeaving
| CsExpiredEpoch | CsRejected | CsKicked.
#[export] Instance ClientStatus_eq_dec : EqDecision ClientStatus.
Proof. solve_decision. Defined.

Definition cs_is_live (s : ClientStatus) : bool :=
  match s with CsJoining | CsActive | CsPaused | CsLeaving => true | _ => false end.

Definition epoch_len (epoch_length : Z) : Z :=
  if epoch_length =? 0 then DEFAULT_EPOCH_LENGTH_FRAMES else epoch_length.
Definition client_epoch_for_frame (frame epoch_length : Z) : Z := frame / epoch_len epoch_length.
Definition epoch_start_frame (e epoch_length : Z) : Z := wrap_u64 (e * epoch_len epoch_length).

Record AllocationTiming := mkTiming {
  t_raw_status : Z;
  t_filter : list byte;
  t_join_frame : Z;
  t_join_confirm_frame : Z;
  t_leave_frame : Z;
  t_leave_confirm_frame : Z;
  t_epoch : Z;
}.

Definition next_epoch_boundary (frame epoch_length : Z) : Z :=
  epoch_start_frame (wrap_u64 (client_epoch_for_frame frame epoch_length + 1)) epoch_length.

Definition confirmed_phase (t : AllocationTiming) (eff : ClientStatus) (epoch_length : Z) : option (string * Z) :=
  match eff with
  | CsJoining =>
      if 0 <? t_join_confirm_frame t
      then Some ("activating"%string, next_epoch_boundary (t_join_confirm_frame t) epoch_length) else None
  | CsLeaving =>
      if 0 <? t_leave_confirm_frame t
      then Some ("departing"%string, next_epoch_boundary (t_leave_confirm_frame t) epoch_length) else None
  | _ => None
  end.

Definition compute_effective_status (a : AllocationTiming) (current_frame epoch_length : Z) : ClientStatus :=
  let el := epoch_len epoch_length in
  let current_epoch := current_frame / el in
  if t_raw_status a =? raw_JOINING then
    if (0 <? t_join_frame a) && (wrap_u64 (t_join_frame a / el + 1) <? current_epoch)
    then CsExpiredJoining else CsJoining
  else if t_raw_status a =? raw_ACTIVE then
    if decide (t_filter a = []) then CsActive
    else if (0 <? t_join_confirm_frame a) && (current_epoch <? wrap_u64 (t_join_confirm_frame a / el + 1))
    then CsJoining
    else if current_epoch <=? t_epoch a then CsActive else CsExpiredEpoch
  else if t_raw_status a =? raw_PAUSED then CsPaused
  else if t_raw_status a =? raw_LEAVING then
    if 0 <? t_leave_confirm_frame a then
      if current_epoch <? wrap_u64 (t_leave_confirm_frame a / el + 1) then CsLeaving else CsExpiredLeaving
    else if (0 <? t_leave_frame a) && (wrap_u64 (t_leave_frame a / el + 1) <? current_epoch)
    then CsExpiredLeaving else CsLeaving
  else if t_raw_status a =? raw_REJECTED then CsRejected
  else if t_raw_status a =? raw_KICKED then CsKicked
  else CsUnknown.

(** ** Confirmation windows *)

Record ConfirmWindow := mkWindow {
  confirm_epoch : Z;
  start_frame : Z;
  end_frame : Z;
}.
Inductive WindowState := WPending | WOpen | WMissed.

Definition ConfirmWindow_for_frame (propose_frame epoch_length : Z) : ConfirmWindow :=
  let el := epoch_len epoch_length in
  let ce := wrap_u64 (propose_frame / el + 1) in
  mkWindow ce (wrap_u64 (ce * el)) (wrap_u64 (wrap_u64 (ce + 1) * el)).

Definition window_state (w : ConfirmWindow) (current_frame epoch_length : Z) : WindowState :=
  let ce := current_frame / epoch_len epoch_length in
  if ce <? confirm_epoch w then WPending
  else if ce =? confirm_epoch w then WOpen
  else WMissed.

Definition alloc_confirm_window (a : AllocationTiming) (epoch_length : Z) : option ConfirmWindow :=
  if (t_raw_status a =? raw_JOINING) && (0 <? t_join_frame a)
  then Some (ConfirmWindow_for_frame (t_join_frame a) epoch_length)
  else if (t_raw_status a =? raw_LEAVING) && (0 <? t_leave_frame a)
  then Some (ConfirmWindow_for_frame (t_leave_frame a) epoch_length)
  else None.

(** ** Hints *)

Record ActionHint := mkHint { hint_label : string; at_frame : option Z }.
Definition hint_none : ActionHint := mkHint "" None.
Definition hint_text (l : string) : ActionHint := mkHint l None.
Definition hint_at (l : string) (f : Z) : ActionHint := mkHint l (Some f).

Definition confirm_hints (t : AllocationTiming) (epoch_length current_frame : Z) : ActionHint * ActionHint :=
  match alloc_confirm_window t epoch_length with
  | None => (hint_text "(reject|confirm)", hint_none)
  | Some w =>
      let expire := hint_at "expire" (end_frame w) in
      match window_state w current_frame epoch_length with
      | WOpen => (hint_text "(reject|confirm)", expire)
      | WPending => (hint_at "(reject|confirm)" (start_frame w), expire)
      | WMissed => (hint_none, expire)
      end
  end.

(** The Next Action and the Default Action of an allocation. *)
Definition action_hints (t : AllocationTiming) (eff : ClientStatus) (epoch_length current_frame next_boundary : Z) :
    ActionHint * ActionHint :=
  match eff with
  | CsJoining =>
      if t_raw_status t =? raw_JOINING then confirm_hints t epoch_length current_frame
      else (hint_text "(pause|leave)", hint_at "activate" (next_epoch_boundary (t_join_confirm_frame t) epoch_length))
  | CsLeaving =>
      if t_leave_confirm_frame t =? 0 then confirm_hints t epoch_length current_frame
      else (hint_none, hint_at "depart" (next_epoch_boundary (t_leave_confirm_frame t) epoch_length))
  | CsActive | CsExpiredEpoch =>
      (hint_text "(pause|leave)",
       if decide (t_filter t = []) then hint_none else hint_at "renew" next_boundary)
  | CsPaused => (hint_text "(resume|leave)", hint_none)
  | _ => (hint_none, hint_none)
  end.

(** ** What the node reports *)

(** [alloc.status as u32]. *)
Definition discriminant (s : ProverStatus) : Z :=
  match s with
  | PsUnknown => 0 | PsJoining => 1 | PsActive => 2 | PsPaused => 3
  | PsLeaving => 4 | PsRejected => 5 | PsKicked => 6 | PsHistoric => 7
  end.

(** The RPC's [ShardAllocationInfo] message. *)
Record ShardAllocationInfo := mkReport {
  r_filter : list byte;
  r_status : Z;
  r_join_frame_number : Z;
  r_join_confirm_frame_number : Z;
  r_leave_frame_number : Z;
  r_last_active_frame_number : Z;
  r_epoch : Z;
  r_leave_confirm_frame_number : Z;
}.

Definition report (a : ProverAllocationInfo) : ShardAllocationInfo :=
  mkReport (confirmation_filter a) (discriminant (status a)) (join_frame_number a) (join_confirm_frame_number a)
    (leave_frame_number a) (last_active_frame_number a) (epoch a) (leave_confirm_frame_number a).

(** The allocations [get_node_info] keeps: live ones and the recoverable
    [ExpiredEpoch]. *)
Definition is_reported (override : Z) (a : ProverAllocationInfo) (frame : Z) : bool :=
  let eff := effective_status (epoch_length_frames override) a frame in
  es_is_live eff || bool_decide (eff = EsExpiredEpoch).

Definition reported_allocations (override frame : Z) (allocations : list ProverAllocationInfo) :
    list ShardAllocationInfo :=
  report <$> List.filter (fun a => is_reported override a frame) allocations.

(** The client's [timing] of a reported allocation. *)
Definition timing (r : ShardAllocationInfo) : AllocationTiming :=
  mkTiming (r_status r) (r_filter r) (r_join_frame_number r) (r_join_confirm_frame_number r)
    (r_leave_frame_number r) (r_leave_confirm_frame_number r) (r_epoch r).

(** ** The mirror *)

(** The client's name of a node status; it has none for [Historic]. *)
Definition as_client (s : EffectiveStatus) : ClientStatus :=
  match s with
  | EsJoining => CsJoining | EsActive => CsActive | EsPaused => CsPaused | EsLeaving => CsLeaving
  | EsExpiredJoining => CsExpiredJoining | EsExpiredLeaving => CsExpiredLeaving | EsExpiredEpoch => CsExpiredEpoch
  | EsRejected => CsRejected | EsKicked => CsKicked | EsHistoric => CsUnknown | EsUnknown => CsUnknown
  end.

(** The reported length is already resolved, so the client's own fallback
    leaves it alone. *)
Lemma epoch_len_resolved override : epoch_len (epoch_length_frames override) = epoch_length_frames override.
Proof. unfold epoch_len, epoch_length_frames. by destruct (Z.eqb_spec override 0); [|case_match; [lia|]]. Qed.

Lemma status_mirror override a frame :
  compute_effective_status (timing (report a)) frame (epoch_length_frames override) =
  as_client (effective_status (epoch_length_frames override) a frame).
Proof.
  unfold compute_effective_status. rewrite epoch_len_resolved.
  unfold effective_status, next_epoch, epoch_for_frame.
  destruct a as [[] ? ? ? ? ? ? ? ? ? ? ? ? ? ? ? ?]; cbn -[Z.div Z.ltb Z.leb wrap_u64 epoch_length_frames];
    repeat case_match; done.
Qed.

(** What the client displays is what the node holds: reading the node's
    reply with the epoch length the node reports, the client computes, for
    every reported allocation and in order, the node's own effective status at
    that frame, and each is live or awaiting re-confirmation. *)
Theorem client_shows_node_status override frame allocations :
  ((fun r => compute_effective_status (timing r) frame (epoch_length_frames override))
     <$> reported_allocations override frame allocations) =
  ((fun a => as_client (effective_status (epoch_length_frames override) a frame))
     <$> List.filter (fun a => is_reported override a frame) allocations)
  /\ Forall (fun r => let s := compute_effective_status (timing r) frame (epoch_length_frames override) in
                      cs_is_live s = true \/ s = CsExpiredEpoch)
       (reported_allocations override frame allocations).
Proof.
  unfold reported_allocations. split.
  - rewrite <- list_fmap_compose. apply list_fmap_ext. intros i a _. apply status_mirror.
  - apply Forall_fmap, Forall_forall. intros a Ha. cbn.
    apply list_elem_of_In, filter_In in Ha as [_ Ha]. rewrite status_mirror.
    unfold is_reported in Ha. destruct (effective_status _ a frame); cbn in *; naive_solver.
Qed.

(** The display names of a confirmed join and leave are the node's phases. *)
Lemma confirmed_phase_mirrors_node override a frame :
  let el := epoch_length_frames override in
  fst <$> confirmed_phase (timing (report a)) (compute_effective_status (timing (report a)) frame el) el =
  match phase el a frame with
  | Some PhActivating => Some "activating"%string
  | Some PhDeparting => Some "departing"%string
  | _ => None
  end.
Proof.
  cbv zeta. rewrite status_mirror. unfold phase, confirmed_phase. cbn [timing report t_join_confirm_frame t_leave_confirm_frame r_join_confirm_frame_number r_leave_confirm_frame_number].
  destruct (effective_status _ a frame); cbn [as_client]; repeat case_match; naive_solver.
Qed.

(** ** When the shown defaults take effect *)

(** Frame [f] leaves room for the two boundaries after it. *)
Definition frame_ok (epoch_length f : Z) : Prop := 0 <= f /\ f + 2 * epoch_len epoch_length < 2 ^ 64.

Definition timing_ok (epoch_length : Z) (t : AllocationTiming) : Prop :=
  Forall (frame_ok epoch_length)
    [t_join_frame t; t_join_confirm_frame t; t_leave_frame t; t_leave_confirm_frame t].

Section Thresholds.
Context (el : Z) (Hel : 0 <= el).

Lemma epoch_len_pos : 0 < epoch_len el.
Proof. unfold epoch_len, DEFAULT_EPOCH_LENGTH_FRAMES. case_match; lia. Qed.

Lemma epoch_before g k : g / epoch_len el < k <-> g < k * epoch_len el.
Proof.
  pose proof epoch_len_pos. split; intros H1.
  - pose proof (Z.mul_succ_div_gt g (epoch_len el)). nia.
  - apply Z.div_lt_upper_bound; lia.
Qed.

Lemma wrapped_boundary f : frame_ok el f ->
  wrap_u64 (f / epoch_len el + 1) = f / epoch_len el + 1
  /\ wrap_u64 ((f / epoch_len el + 1) * epoch_len el) = (f / epoch_len el + 1) * epoch_len el
  /\ wrap_u64 (wrap_u64 (f / epoch_len el + 1 + 1) * epoch_len el) = (f / epoch_len el + 2) * epoch_len el.
Proof.
  intros [H0 H1]. pose proof epoch_len_pos as HE.
  pose proof (Z.mul_div_le f (epoch_len el) HE). pose proof (Z.div_pos f (epoch_len el) H0 HE).
  rewrite (wrap_u64_id (f / epoch_len el + 1 + 1)) by (unfold is_u64; nia).
  rewrite !wrap_u64_id by (unfold is_u64; nia). split_and!; nia.
Qed.

Lemma next_boundary_exact f : frame_ok el f ->
  next_epoch_boundary f el = (f / epoch_len el + 1) * epoch_len el.
Proof.
  intros H. destruct (wrapped_boundary f H) as (E1 & E2 & _).
  unfold next_epoch_boundary, epoch_start_frame, client_epoch_for_frame. by rewrite E1.
Qed.

Lemma window_exact f : frame_ok el f ->
  ConfirmWindow_for_frame f el =
  mkWindow (f / epoch_len el + 1) ((f / epoch_len el + 1) * epoch_len el) ((f / epoch_len el + 2) * epoch_len el).
Proof.
  intros H. destruct (wrapped_boundary f H) as (E1 & E2 & E3).
  unfold ConfirmWindow_for_frame. cbv zeta. by rewrite E1, E2, E3.
Qed.

(** A confirmation window is the half-open range of frames it displays, one
    whole epoch starting at the boundary after the proposal: pending before
    its start, open inside, missed from its end. *)
Theorem confirm_window_is_one_epoch f g (Hf : frame_ok el f) :
  let w := ConfirmWindow_for_frame f el in
  start_frame w = next_epoch_boundary f el /\ end_frame w = start_frame w + epoch_len el
  /\ f < start_frame w
  /\ (window_state w g el = WPending <-> g < start_frame w)
  /\ (window_state w g el = WOpen <-> start_frame w <= g < end_frame w)
  /\ (window_state w g el = WMissed <-> end_frame w <= g).
Proof.
  rewrite window_exact, next_boundary_exact by done. cbv zeta.
  unfold window_state. cbn [start_frame end_frame confirm_epoch].
  pose proof (epoch_before g (f / epoch_len el + 1)). pose proof (epoch_before g (f / epoch_len el + 2)).
  pose proof (epoch_before f (f / epoch_len el + 1)).
  set (E := epoch_len el) in *. set (q := f / E) in *. set (r := g / E) in *.
  destruct (Z.ltb_spec r (q + 1)); [|destruct (Z.eqb_spec r (q + 1))];
    split_and!; try split; intros; try done; lia.
Qed.

Lemma client_epoch_mono f g : f <= g -> f / epoch_len el <= g / epoch_len el.
Proof. pose proof epoch_len_pos. intros. apply Z.div_le_mono; lia. Qed.

(** The Default Action is shown at the frame where it happens: left alone,
    an allocation keeps its current status up to the displayed frame and has
    another from that frame on (expiring, departing, activating, or, when it is
    registered for the current epoch only, needing its renewal). *)
Theorem default_action_is_due_when_status_changes t f g label d
    (Ht : timing_ok el t) (Hf : frame_ok el f) (Hg : f <= g)
    (Hlive : cs_is_live (compute_effective_status t f el) = true)
    (Hepoch : compute_effective_status t f el = CsActive -> t_epoch t = f / epoch_len el)
    (Hd : (action_hints t (compute_effective_status t f el) el f (next_epoch_boundary f el)).2 = hint_at label d) :
  compute_effective_status t g el = compute_effective_status t f el <-> g < d.
Proof.
  pose proof (client_epoch_mono f g Hg) as Hmono.
  unfold timing_ok in Ht. rewrite !Forall_cons in Ht. destruct Ht as (H1 & H2 & H3 & H4 & _).
  pose proof (wrapped_boundary _ H1) as (W1 & _ & _). pose proof (wrapped_boundary _ H2) as (W2 & _ & _).
  pose proof (wrapped_boundary _ H3) as (W3 & _ & _). pose proof (wrapped_boundary _ H4) as (W4 & _ & _).
  unfold action_hints, confirm_hints, alloc_confirm_window in Hd.
  rewrite ?window_exact, ?next_boundary_exact in Hd by done.
  unfold compute_effective_status in *. cbv zeta in *. rewrite W1, W2, W3, W4 in *.
  pose proof (epoch_before g) as HB. pose proof (proj1 H4) as Hlc.
  set (E := epoch_len el) in *. set (r := g / E) in *. set (q := f / E) in *.
  destruct t as [raw flt jf jc lf lc ep]; cbn [t_raw_status t_filter t_join_frame t_join_confirm_frame
    t_leave_frame t_leave_confirm_frame t_epoch] in *.
  repeat (case_match; simplify_eq/=; try done).
  all: unfold raw_JOINING, raw_ACTIVE, raw_PAUSED, raw_LEAVING in *; rewrite <- HB; clear HB.
  all: split; intros; try done; try specialize (Hepoch eq_refl); lia.
Qed.
End Thresholds.

Lemma confirm_window_is_one_epoch_witness :
  window_state (ConfirmWindow_for_frame 720 720) 1500 720 = WOpen.
Proof.
  refine (proj2 (proj1 (proj2 (proj2 (proj2 (proj2 (confirm_window_is_one_epoch 720 _ 720 1500 _)))))) _).
  - lia.
  - unfold frame_ok. vm_compute. split; [discriminate | reflexivity].
  - vm_compute. split; [discriminate | reflexivity].
Defined.

(** A join confirmed at frame 2165 activates at frame 2880. *)
Lemma default_action_is_due_when_status_changes_witness :
  let t := mkTiming 2 [Byte.xab] 1500 2165 1500 0 3 in
  compute_effective_status t 2880 720 = compute_effective_status t 2200 720 <-> 2880 < 2880.
Proof.
  apply (default_action_is_due_when_status_changes 720 ltac:(lia) _ 2200 2880 "activate").
  - repeat constructor; vm_compute; discriminate || reflexivity.
  - unfold frame_ok. vm_compute. split; [discriminate | reflexivity].
  - lia.
  - reflexivity.
  - discriminate.
  - reflexivity.
Defined.
