(* ===== verification/QclTypes.v ===== *)
(** * QCL types ([src/crates/quil-compiler/src/types.rs])

    Type information of the circuit language: equality, specialisation,
    instantiation of templates, and the textual form used in serialized
    circuits.  Strings are their UTF-8 bytes; sizes are [i32].  [Display] can
    panic on an array without an element type, so it returns a [result]. *)

From S2P Require Import Prelude Bytes.

(** ** Text *)

(** The bytes of an ASCII string. *)
Definition text (s : string) : list byte := String.list_byte_of_string s.

Definition digit (d : Z) : byte := byte_of (48 + d).
(** The decimal digits of [n], at most [fuel] of them, before [acc]. *)
Fixpoint digits (fuel : nat) (n : Z) (acc : list byte) : list byte :=
  match fuel with
  | O => acc
  | S f => let acc := digit (n mod 10) :: acc in if n <? 10 then acc else digits f (n / 10) acc
  end.
(** [i32::to_string]: at most ten digits. *)
Definition display_i32 (z : Z) : list byte :=
  if z <? 0 then text "-" ++ digits 10 (- z) [] else digits 10 z [].

Definition digit_val (b : byte) : option Z :=
  let v := byte_val b - 48 in if (0 <=? v) && (v <=? 9) then Some v else None.
Fixpoint digits_val (acc : Z) (s : list byte) : option Z :=
  match s with
  | [] => Some acc
  | b :: s => match digit_val b with Some d => digits_val (acc * 10 + d) s | None => None end
  end.
Definition in_i32 (z : Z) : option Z := if (- 2 ^ 31 <=? z) && (z <? 2 ^ 31) then Some z else None.
(** [str::parse::<i32>]. *)
Definition parse_i32 (s : list byte) : option Z :=
  match s with
  | [] => None
  | b :: r =>
      if decide (b = x2d) then match r with [] => None | _ => v ← digits_val 0 r; in_i32 (- v) end
      else if decide (b = x2b) then match r with [] => None | _ => v ← digits_val 0 r; in_i32 v end
      else v ← digits_val 0 s; in_i32 v
  end.

(** [str::strip_prefix]. *)
Fixpoint strip_prefix (p s : list byte) : option (list byte) :=
  match p, s with
  | [], _ => Some s
  | a :: p, b :: s => if Byte.eqb a b then strip_prefix p s else None
  | _, [] => None
  end.
(** The text before and after the first [b] ([str::find]). *)
Fixpoint split_at (b : byte) (s : list byte) : option (list byte * list byte) :=
  match s with
  | [] => None
  | c :: s =>
      if Byte.eqb c b then Some ([], s)
      else match split_at b s with Some (l, r) => Some (c :: l, r) | None => None end
  end.

(** ** Types *)

Inductive QType :=
| TUndefined | TBool | TInt | TUint | TFloat | TString | TStruct | TArray | TSlice | TPtr | TNil.
#[export] Instance QType_eq_dec : EqDecision QType.
Proof. solve_decision. Defined.

Definition is_array (t : QType) : bool := match t with TArray | TSlice => true | _ => false end.

Definition type_name (t : QType) : list byte :=
  text match t with
  | TUndefined => "<Undefined>" | TBool => "bool" | TInt => "int" | TUint => "uint" | TFloat => "float"
  | TString => "string" | TStruct => "struct" | TArray => "array" | TSlice => "slice" | TPtr => "ptr" | TNil => "nil"
  end.
Definition short_string (t : QType) : list byte :=
  text match t with
  | TUndefined => "?" | TBool => "b" | TInt => "i" | TUint => "u" | TFloat => "f" | TString => "str"
  | TStruct => "struct" | TArray => "arr" | TSlice => "slice" | TPtr => "*" | TNil => "nil"
  end.

Inductive Info := mkInfo {
  info_id : Z;
  typ : QType;
  is_concrete : bool;
  bits : Z;
  min_bits : Z;
  fields : list (list byte * Info);
  element_type : option Info;
  array_size : Z;
  offset : Z;
}.

(** A type without fields or elements. *)
Definition scalar (t : QType) (c : bool) (b m : Z) : Info := mkInfo 0 t c b m [] None 0 0.

Definition Info_default : Info := scalar TUndefined true 0 0.
Definition Info_nil : Info := scalar TNil true 0 0.
Definition Info_bool : Info := scalar TBool true 1 1.
Definition Info_byte : Info := scalar TUint true 8 8.
Definition Info_rune : Info := scalar TInt true 32 32.
Definition Info_int32 : Info := scalar TInt true 32 32.
Definition Info_uint32 : Info := scalar TUint true 32 32.
Definition Info_uint64 : Info := scalar TUint true 64 64.

Definition is_undefined (i : Info) : bool := bool_decide (typ i = TUndefined).

Fixpoint concrete (i : Info) : bool :=
  let '(mkInfo _ t c _ _ fs _ _ _) := i in
  if decide (t = TStruct) then forallb (fun f => concrete f.2) fs else c.

Fixpoint info_equal (i o : Info) : bool :=
  let '(mkInfo _ t _ b _ fs el n _) := i in
  if decide (t = typ o) then
    match t with
    | TUndefined | TBool | TInt | TUint | TFloat | TString => b =? bits o
    | TStruct =>
        (length fs =? length (fields o))%nat && (b =? bits o) &&
        (fix go (fs os : list (list byte * Info)) : bool :=
           match fs, os with
           | (_, a) :: fs, (_, b) :: os => info_equal a b && go fs os
           | _, _ => true
           end) fs (fields o)
    | TArray | TSlice =>
        (n =? array_size o) && (b =? bits o) &&
        match el, element_type o with Some a, Some b => info_equal a b | _, _ => false end
    | TPtr => match el, element_type o with Some a, Some b => info_equal a b | _, _ => false end
    | TNil => false
    end
  else false.

Fixpoint specializable (i o : Info) : bool :=
  let '(mkInfo _ t _ b _ fs el n _) := i in
  if decide (t = typ o) then
    match t with
    | TUndefined | TBool | TInt | TUint | TFloat | TString => negb (concrete i) || (b =? bits o)
    | TStruct =>
        (length fs =? length (fields o))%nat && negb (concrete i && negb (b =? bits o)) &&
        (fix go (fs os : list (list byte * Info)) : bool :=
           match fs, os with
           | (_, a) :: fs, (_, b) :: os => specializable a b && go fs os
           | _, _ => true
           end) fs (fields o)
    | TArray =>
        negb (concrete i && (negb (n =? array_size o) || negb (b =? bits o))) &&
        match el, element_type o with Some a, Some b => specializable a b | _, _ => false end
    | TSlice | TPtr => match el, element_type o with Some a, Some b => specializable a b | _, _ => false end
    | TNil => false
    end
  else false.

Definition same_element (i o : Info) : bool :=
  match element_type i, element_type o with Some a, Some b => info_equal a b | _, _ => false end.

Definition can_assign_const (i o : Info) : bool :=
  match typ i with
  | TInt | TUint => match typ o with TInt | TUint => true | _ => false end && (min_bits o <=? bits i)
  | TSlice => is_array (typ o) && same_element i o
  | TArray =>
      if decide (typ o = TNil) then true
      else is_array (typ o) && same_element i o && (min_bits o <=? bits i)
  | t => bool_decide (t = typ o) && (min_bits o <=? bits i)
  end.

(** ** Instantiation *)

Definition set_sized (i : Info) (c : bool) (b m n : Z) : Info :=
  mkInfo (info_id i) (typ i) c b m (fields i) (element_type i) n (offset i).
Definition set_bits (i : Info) (b : Z) : Info := set_sized i true b (min_bits i) (array_size i).

(** What [instantiate] does when the types differ: stop with a verdict, or go
    on with the (possibly retyped) template. *)
Definition unify_types (i o : Info) : bool * Info + Info :=
  let pointer :=
    if match element_type o with Some e => is_array (typ e) | None => false end
    then inr (mkInfo (info_id i) TPtr (is_concrete i) (bits i) (min_bits i) (fields i) (element_type o)
                (array_size i) (offset i))
    else inl (false, i) in
  match typ i, typ o with
  | TArray, TNil =>
      if match element_type i with Some e => concrete e | None => false end
      then inl (true, set_sized i true 0 0 0) else inl (false, i)
  | TArray, TPtr => pointer
  | TSlice, TNil => inl (true, set_sized i true 0 0 0)
  | TSlice, TArray => inr i
  | TSlice, TPtr => pointer
  | TInt, TUint =>
      if min_bits o <? bits o then inl (true, set_sized i true (bits o) (bits o) (array_size i))
      else inl (false, i)
  | _, _ => inl (false, i)
  end.

Fixpoint instantiate (i o : Info) : bool * Info :=
  match (if decide (typ i = typ o) then inr i else unify_types i o) with
  | inl verdict => verdict
  | inr s =>
      if concrete s then (false, s)
      else
        match typ s with
        | TStruct => (false, s)
        | TArray | TSlice =>
            match element_type i, element_type o with
            | Some el, Some oel =>
                let '(ok, el') := if concrete el then (true, el) else instantiate el oel in
                let s' := mkInfo (info_id s) (typ s) (is_concrete s) (bits s) (min_bits s) (fields s) (Some el')
                            (array_size s) (offset s) in
                if negb ok then (false, s')
                else if decide (typ el' = typ oel)
                then (true, set_sized s' true (bits o) (min_bits s') (array_size o))
                else (false, s')
            | _, _ => (false, s)
            end
        | TPtr =>
            match element_type s, element_type o with
            | Some el, Some oel => if decide (typ el = typ oel) then (true, set_bits s (bits o)) else (false, s)
            | _, _ => (false, s)
            end
        | _ => (true, set_bits s (bits o))
        end
  end.

(** [sizes[0] / el_bits], rounded up, in [i32]; a zero divisor and the one
    overflowing quotient panic. *)
Definition array_len (size el_bits : Z) : result Z :=
  if (el_bits =? 0) || ((size =? - 2 ^ 31) && (el_bits =? -1)) then Panic
  else let q := Z.quot size el_bits in
       Ok (if Z.rem size el_bits =? 0 then q else as_i32 (q + 1)).

Definition sized_array (i : Info) (size : Z) : result Info :=
  match element_type i with
  | Some e =>
      n ← array_len size (bits e);
      Ok (set_sized i (is_concrete i) (as_i32 (n * bits e)) (min_bits i) n)
  | None => Err InvalidArgument
  end.

(** [instantiate_with_sizes]; the caller drops the type on an error. *)
Fixpoint instantiate_with_sizes (i : Info) (sizes : list Z) : result Info :=
  let '(mkInfo id t c b m fs el n off) := i in
  match sizes with
  | [] => Err InvalidArgument
  | size :: _ =>
      let done (i : Info) : result Info := Ok (set_sized i true (bits i) (min_bits i) (array_size i)) in
      match t with
      | TBool => done i
      | TInt | TUint | TFloat => done (if concrete i then i else set_sized i c size m n)
      | TStruct =>
          '(fs', total) ←
            (fix go (fs : list (list byte * Info)) (sizes : list Z) (total : Z) : result (list (list byte * Info) * Z) :=
               match fs with
               | [] => Ok ([], total)
               | (name, f) :: fs =>
                   match sizes with
                   | [] => Err InvalidArgument
                   | _ :: sizes' =>
                       f' ← instantiate_with_sizes f sizes;
                       let f'' := mkInfo (info_id f') (typ f') (is_concrete f') (bits f') (min_bits f') (fields f')
                                    (element_type f') (array_size f') total in
                       '(fs', t') ← go fs sizes' (as_i32 (total + bits f'));
                       Ok ((name, f'') :: fs', t')
                   end
               end) fs sizes 0;
          done (mkInfo id t c total m fs' el n off)
      | TArray =>
          if match el with Some e => concrete e | None => false end
          then (if concrete i then done i else i' ← sized_array i size; done i')
          else Err InvalidArgument
      | TSlice =>
          if match el with Some e => concrete e | None => false end
          then (i' ← sized_array i size; done i') else Err InvalidArgument
      | _ => Err InvalidArgument
      end
  end.

(** ** Display and parsing *)

Fixpoint display (i : Info) : result (list byte) :=
  let '(mkInfo _ t _ b _ _ el n _) := i in
  let elem := match el with Some e => display e | None => Panic end in
  match t with
  | TArray => s ← elem; Ok (text "[" ++ display_i32 n ++ text "]" ++ s)
  | TSlice => s ← elem; Ok (text "[]" ++ s)
  | TPtr => s ← elem; Ok (text "*" ++ s)
  | _ => Ok (if concrete i then type_name t ++ display_i32 b else type_name t)
  end.

Definition sized_types : list (list byte * QType) :=
  [(text "int", TInt); (text "uint", TUint); (text "string", TString); (text "struct", TStruct); (text "float", TFloat)].

(** The loop over the sized prefixes: the first whose remainder is empty or a
    number. *)
Fixpoint parse_sized (ps : list (list byte * QType)) (s : list byte) : option Info :=
  match ps with
  | [] => None
  | (p, t) :: ps =>
      match strip_prefix p s with
      | Some [] => Some (scalar t false 0 0)
      | Some rest =>
          match parse_i32 rest with Some b => Some (scalar t true b b) | None => parse_sized ps s end
      | None => parse_sized ps s
      end
  end.

Definition array_of (size : Z) (e : Info) : Info :=
  mkInfo 0 TArray true (as_i32 (size * bits e)) 0 [] (Some e) size 0.
Definition slice_of (e : Info) : Info := mkInfo 0 TSlice false 0 0 [] (Some e) 0 0.
Definition ptr_to (e : Info) : Info := mkInfo 0 TPtr true (bits e) 0 [] (Some e) 0 0.

(** [parse_type]; every recursive call is on a shorter text, so a fuel above the
    length is enough. *)
Fixpoint parse_type_fuel (fuel : nat) (s : list byte) : result Info :=
  match fuel with
  | O => Err InvalidArgument
  | S fuel =>
      match strip_prefix (text "bool") s with
      | Some rest =>
          Ok match rest with
             | [] => Info_bool
             | _ => match parse_i32 rest with Some b => scalar TBool true b b | None => Info_bool end
             end
      | None =>
          if decide (s = text "byte") then Ok Info_byte
          else if decide (s = text "rune") then Ok Info_rune
          else
            match parse_sized sized_types s with
            | Some i => Ok i
            | None =>
                let pointer :=
                  match strip_prefix (text "*") s with
                  | Some rest => e ← parse_type_fuel fuel rest; Ok (ptr_to e)
                  | None => Err InvalidArgument
                  end in
                match strip_prefix (text "[") s with
                | Some rest =>
                    match split_at x5d rest with
                    | Some ([], elem) => e ← parse_type_fuel fuel elem; Ok (slice_of e)
                    | Some (size_str, elem) =>
                        match parse_i32 size_str with
                        | Some size => e ← parse_type_fuel fuel elem; Ok (array_of size e)
                        | None => Err InvalidArgument
                        end
                    | None => pointer
                    end
                | None => pointer
                end
            end
      end
  end.
Definition parse_type (s : list byte) : result Info := parse_type_fuel (S (length s)) s.

(** ** Reading back what is displayed *)

Lemma digit_val_digit d : 0 <= d <= 9 -> digit_val (digit d) = Some d.
Proof.
  intros Hd. unfold digit_val, digit. rewrite byte_val_of, Z.mod_small by lia.
  replace (48 + d - 48) with d by lia.
  destruct (Z.leb_spec 0 d), (Z.leb_spec d 9); try lia; done.
Qed.

Lemma digits_val_app s a r : digits_val a (s ++ r) = (v ← digits_val a s; digits_val v r).
Proof. revert a. induction s as [|b s IH]; intros a; [done|]. cbn. by destruct (digit_val b). Qed.

(** Each digit is printed before the ones already there. *)
Lemma digits_spec fuel n acc : (0 < fuel)%nat -> 0 <= n < 10 ^ Z.of_nat fuel ->
  exists ds, digits fuel n acc = ds ++ acc /\ ds <> [] /\ Forall (fun b => is_Some (digit_val b)) ds
             /\ digits_val 0 ds = Some n.
Proof.
  revert n acc. induction fuel as [|fuel IH]; intros n acc Hf Hn; [lia|]. cbn [digits].
  pose proof (Z.mod_pos_bound n 10 ltac:(lia)) as Hm.
  assert (digit_val (digit (n mod 10)) = Some (n mod 10)) as Hd by (apply digit_val_digit; lia).
  rewrite Nat2Z.inj_succ, Z.pow_succ_r in Hn by lia.
  destruct (Z.ltb_spec n 10).
  - exists [digit (n mod 10)]. cbn. rewrite Hd. split_and!; [done|done|by repeat constructor; eauto|].
    by rewrite Z.mod_small by lia.
  - destruct (decide (fuel = O)) as [->|]; [cbn in Hn; lia|].
    destruct (IH (n / 10) (digit (n mod 10) :: acc)) as (ds & -> & Hne & Hall & Hv); [lia| |].
    { split; [apply Z.div_pos; lia|]. apply Z.div_lt_upper_bound; lia. }
    exists (ds ++ [digit (n mod 10)]). rewrite <- app_assoc. split_and!; [done|by destruct ds| |].
    + apply Forall_app; split; [done|]. by repeat constructor; eauto.
    + rewrite digits_val_app, Hv. cbn. rewrite Hd. f_equal. rewrite (Z.div_mod n 10) at 3; lia.
Qed.

Lemma parse_display_i32 z : is_i32 z -> parse_i32 (display_i32 z) = Some z.
Proof.
  intros Hz. unfold display_i32, is_i32 in *.
  assert (forall v, - 2 ^ 31 <= v < 2 ^ 31 -> in_i32 v = Some v) as Hin.
  { intros v Hv. unfold in_i32. destruct (Z.leb_spec (- 2 ^ 31) v), (Z.ltb_spec v (2 ^ 31)); try lia; done. }
  destruct (Z.ltb_spec z 0).
  - destruct (digits_spec 10 (- z) []) as (ds & -> & Hne & _ & Hv); [lia|cbn; lia|].
    rewrite app_nil_r. cbn. destruct ds as [|d ds]; [done|]. rewrite Hv. cbn. rewrite Z.opp_involutive. by apply Hin.
  - destruct (digits_spec 10 z []) as (ds & -> & Hne & Hall & Hv); [lia|cbn; lia|].
    rewrite app_nil_r. destruct ds as [|d ds]; [done|]. cbn [parse_i32].
    apply Forall_cons_1 in Hall as [[v Hd] _].
    rewrite !decide_False by (intros ->; vm_compute in Hd; done).
    rewrite Hv. cbn. by apply Hin.
Qed.

Lemma display_i32_digits z : is_i32 z ->
  display_i32 z <> [] /\ Forall (fun b => b = x2d \/ is_Some (digit_val b)) (display_i32 z).
Proof.
  intros Hz. unfold display_i32, is_i32 in *. destruct (Z.ltb_spec z 0).
  - destruct (digits_spec 10 (- z) []) as (ds & -> & Hne & Hall & _); [lia|cbn; lia|].
    rewrite app_nil_r. split; [done|]. constructor; [by left|]. eapply Forall_impl; [done|]. by right.
  - destruct (digits_spec 10 z []) as (ds & -> & Hne & Hall & _); [lia|cbn; lia|].
    rewrite app_nil_r. split; [done|]. eapply Forall_impl; [done|]. by right.
Qed.

Lemma split_at_app b s r : Forall (fun c => c <> b) s -> split_at b (s ++ b :: r) = Some (s, r).
Proof.
  induction 1 as [|c s Hc _ IH]; cbn.
  - by rewrite Byte.byte_dec_lb.
  - by destruct (Byte.eqb c b) eqn:E; [apply Byte.byte_dec_bl in E|rewrite IH].
Qed.

(** A type whose text determines it: sized scalars, structures without listed
    fields, and arrays, slices and pointers of such with the sizes the parser
    recomputes. *)
Fixpoint readable (i : Info) : Prop :=
  let '(mkInfo _ t c b m fs el n _) := i in
  is_i32 b /\
  match t with
  | TBool | TInt | TUint | TFloat | TString => c = true
  | TStruct => fs = []
  | TArray => match el with Some e => readable e /\ is_i32 n /\ b = as_i32 (n * bits e) | None => False end
  | TSlice => match el with Some e => readable e /\ n = 0 /\ b = 0 | None => False end
  | TPtr => match el with Some e => readable e /\ b = bits e | None => False end
  | _ => False
  end.

Lemma parse_sized_display t b : is_i32 b -> t ∈ [TInt; TUint; TFloat; TString; TStruct] ->
  parse_sized sized_types (type_name t ++ display_i32 b) = Some (scalar t true b b).
Proof.
  intros Hb Ht. pose proof (display_i32_digits b Hb) as [Hne _]. pose proof (parse_display_i32 b Hb) as Hp.
  destruct (display_i32 b) as [|d ds]; [done|].
  repeat (apply elem_of_cons in Ht as [->|Ht]; [cbn -[parse_i32]; by rewrite Hp|]). by apply elem_of_nil in Ht.
Qed.

Lemma parse_type_bool fuel b : is_i32 b ->
  parse_type_fuel (S fuel) (type_name TBool ++ display_i32 b) = Ok (scalar TBool true b b).
Proof.
  intros Hb. pose proof (display_i32_digits b Hb) as [Hne _]. pose proof (parse_display_i32 b Hb) as Hp.
  destruct (display_i32 b) as [|d ds]; [done|]. cbn -[parse_i32]. by rewrite Hp.
Qed.

Lemma parse_type_sized fuel t b : is_i32 b -> t ∈ [TInt; TUint; TFloat; TString; TStruct] ->
  parse_type_fuel (S fuel) (type_name t ++ display_i32 b) = Ok (scalar t true b b).
Proof.
  intros Hb Ht. pose proof (parse_sized_display t b Hb Ht) as Hs. cbn [parse_type_fuel].
  assert (strip_prefix (text "bool") (type_name t ++ display_i32 b) = None
          /\ type_name t ++ display_i32 b <> text "byte" /\ type_name t ++ display_i32 b <> text "rune") as (-> & H1 & H2).
  { repeat (apply elem_of_cons in Ht as [->|Ht]; [done|]). by apply elem_of_nil in Ht. }
  by rewrite !decide_False, Hs by done.
Qed.

(** Induction on the element type. *)
Lemma info_elem_ind (P : Info -> Prop) :
  (forall i, (forall e, element_type i = Some e -> P e) -> P i) -> forall i, P i.
Proof.
  intros H. fix IH 1. intros i. apply H. intros e. destruct i as [id t c b m fs [el|] n off]; cbn.
  - intros [= <-]. apply IH.
  - discriminate.
Qed.

Lemma parse_bracket fuel size e s : parse_type_fuel fuel s = Ok e ->
  is_i32 size -> parse_type_fuel (S fuel) (text "[" ++ display_i32 size ++ text "]" ++ s) = Ok (array_of size e).
Proof.
  intros Hs Hn. pose proof (display_i32_digits size Hn) as [Hne Hd].
  assert (split_at x5d (display_i32 size ++ text "]" ++ s) = Some (display_i32 size, s)) as Hsplit.
  { apply split_at_app. eapply Forall_impl; [done|]. intros b [->|[v Hv]] E; [done|subst b; vm_compute in Hv; done]. }
  revert Hsplit. generalize (display_i32 size ++ text "]" ++ s) as rest. intros rest Hsplit.
  destruct (display_i32 size) as [|d ds] eqn:E; [done|].
  cbn -[split_at parse_i32 parse_type_fuel]. cbn [parse_type_fuel]. cbn -[split_at parse_i32 parse_type_fuel].
  by rewrite Hsplit, <- E, parse_display_i32, Hs.
Qed.

Lemma parse_slice fuel e s : parse_type_fuel fuel s = Ok e ->
  parse_type_fuel (S fuel) (text "[]" ++ s) = Ok (slice_of e).
Proof. intros Hs. cbn -[parse_type_fuel]. cbn [parse_type_fuel]. cbn -[parse_type_fuel]. by rewrite Hs. Qed.

Lemma parse_pointer fuel e s : parse_type_fuel fuel s = Ok e ->
  parse_type_fuel (S fuel) (text "*" ++ s) = Ok (ptr_to e).
Proof. intros Hs. cbn -[parse_type_fuel]. cbn [parse_type_fuel]. cbn -[parse_type_fuel]. by rewrite Hs. Qed.

Lemma display_parses i : readable i -> exists s j, display i = Ok s
  /\ (forall fuel, (length s < fuel)%nat -> parse_type_fuel fuel s = Ok j)
  /\ info_equal i j = true /\ bits j = bits i.
Proof.
  induction i as [[id t c b m fs el n off] IH] using info_elem_ind. intros [Hb Hr].
  assert (forall t, t ∈ [TInt; TUint; TFloat; TString; TStruct] -> forall fuel,
    (length (type_name t ++ display_i32 b) < fuel)%nat ->
    parse_type_fuel fuel (type_name t ++ display_i32 b) = Ok (scalar t true b b)) as Hsized.
  { intros t' Ht [|fuel] Hl; [lia|]. by apply parse_type_sized. }
  pose proof (Z.eqb_refl b) as Hbb.
  destruct t; try done.
  1-6: match goal with |- context [mkInfo _ ?t _ _ _ _ _ _ _] => exists (type_name t ++ display_i32 b), (scalar t true b b) end;
    subst; split_and!; [reflexivity| |cbn; by rewrite ?Hbb|reflexivity].
  { intros [|fuel] Hl; [lia|]. by apply parse_type_bool. }
  1-5: apply Hsized; set_solver.
  all: destruct el as [e|]; [|done]; destruct Hr as (He & Hr);
    destruct (IH e eq_refl He) as (s & j & Hs & Hp & Heq & Hbits).
  - destruct Hr as [Hn ->]. exists (text "[" ++ display_i32 n ++ text "]" ++ s), (array_of n j).
    split_and!; [cbn [display]; by rewrite Hs| | |cbn; by rewrite Hbits].
    + intros [|fuel] Hl; [lia|]. apply parse_bracket; [|done]. apply Hp. rewrite !length_app in Hl. cbn in Hl. lia.
    + cbn. by rewrite Hbits, !Z.eqb_refl, Heq.
  - destruct Hr as [-> ->]. exists (text "[]" ++ s), (slice_of j).
    split_and!; [cbn [display]; by rewrite Hs| |cbn; by rewrite Heq|done].
    intros [|fuel] Hl; [lia|]. apply parse_slice, Hp. rewrite length_app in Hl. cbn in Hl. lia.
  - subst b. exists (text "*" ++ s), (ptr_to j).
    split_and!; [cbn [display]; by rewrite Hs| |cbn; by rewrite Heq|done].
    intros [|fuel] Hl; [lia|]. apply parse_pointer, Hp. rewrite length_app in Hl. cbn in Hl. lia.
Qed.

(** The text of a type reads back as that type: sized scalars, arrays, slices
    and pointers of such types, to any depth. *)
Theorem type_text_round_trip i : readable i -> exists s j, display i = Ok s /\ parse_type s = Ok j
  /\ info_equal i j = true /\ bits j = bits i.
Proof. intros (s & j & Hs & Hp & He)%display_parses. exists s, j. split; [done|]. split; [apply Hp; lia|done]. Qed.

(** [[5][]*uint32] *)
Lemma type_text_round_trip_witness : let i := array_of 5 (slice_of (ptr_to (scalar TUint true 32 32))) in
  display i = Ok (text "[5][]*uint32") /\ exists s j, display i = Ok s /\ parse_type s = Ok j /\ info_equal i j = true.
Proof.
  intros i. split; [by vm_compute|]. destruct (type_text_round_trip i) as (s & j & H1 & H2 & H3 & _).
  - unfold i. cbn. split_and!; try done; unfold is_i32; lia.
  - by exists s, j.
Defined.
