(* ===== verification/Circuit.v ===== *)
(** * Boolean circuits ([src/crates/quil-compiler/src/circuit.rs])

    Gates over numbered wires, their evaluation, and gate levels.  A wire of the
    evaluator is a [u8] that only ever holds 0 or 1 and is a [bool] here; wire
    numbers are [Z]; an index past the wire array is a [Panic].  Error texts are
    not modelled: every error of the file is [InvalidArgument]. *)

From S2P Require Import Prelude Bytes QclTypes.

(** ** Data *)

Inductive Operation := OXor | OXnor | OAnd | OOr | OInv.
#[export] Instance Operation_eq_dec : EqDecision Operation.
Proof. solve_decision. Defined.

(** The discriminants ([op as u8], [op as usize]). *)
Definition op_index (o : Operation) : nat :=
  match o with OXor => 0 | OXnor => 1 | OAnd => 2 | OOr => 3 | OInv => 4 end.
Definition from_byte (b : byte) : option Operation :=
  match byte_val b with
  | 0 => Some OXor | 1 => Some OXnor | 2 => Some OAnd | 3 => Some OOr | 4 => Some OInv | _ => None
  end.
Definition is_binary (o : Operation) : bool := match o with OInv => false | _ => true end.

Definition COUNT_IDX : nat := 5.
Definition NUM_LEVELS_IDX : nat := 6.
Definition MAX_WIDTH_IDX : nat := 7.
Definition STATS_LEN : nat := 8.

(** [Stats], the array of its counters. *)
Abbreviation Stats := (list Z) (only parsing).
Definition Stats_default : Stats := replicate STATS_LEN 0.
Definition stat (s : Stats) (i : nat) : Z := default 0 (s !! i).
Definition stats_bump (s : Stats) (o : Operation) : Stats :=
  alter (fun v => wrap_u64 (v + 1)) (op_index o) s.

Definition Stats_add (s o : Stats) : Stats :=
  imap (fun i v =>
    if (i <? COUNT_IDX)%nat then wrap_u64 (v + stat o i)
    else if (i =? COUNT_IDX)%nat then wrap_u64 (v + 1)
    else if v <? stat o i then stat o i else v) s.
Definition Stats_count (s : Stats) : Z := foldl (fun acc v => wrap_u64 (acc + v)) 0 (take COUNT_IDX s).
Definition Stats_cost (s : Stats) : Z :=
  wrap_u64 (wrap_u64 (wrap_u64 (stat s (op_index OAnd) + stat s (op_index OInv)) * 2)
            + wrap_u64 (stat s (op_index OOr) * 3)).

Record Gate := mkGate {
  input0 : Z;
  input1 : Z;
  output : Z;
  op : Operation;
  level : Z;
}.
Definition gate_inputs (g : Gate) : list Z :=
  if decide (op g = OInv) then [input0 g] else [input0 g; input1 g].

(** An input or output of a circuit; compound arguments nest. *)
Inductive IOArg := mkIOArg (name : list byte) (type_info : Info) (compound : list IOArg).
Definition io_name (a : IOArg) : list byte := let '(mkIOArg n _ _) := a in n.
Definition io_type (a : IOArg) : Info := let '(mkIOArg _ t _) := a in t.
Definition io_compound (a : IOArg) : list IOArg := let '(mkIOArg _ _ c) := a in c.
Definition io_bits (a : IOArg) : Z := bits (io_type a).

Definition IOArg_new (name : list byte) (t : QType) (b : Z) : IOArg :=
  mkIOArg name (scalar t true b 0) [].

(** [IOExt::size], an [i32] sum. *)
Definition io_size (io : list IOArg) : Z := foldl (fun acc a => as_i32 (acc + io_bits a)) 0 io.

(** The bits of [input] from [bit] on, as a number of width [n]; the position is a [u32]. *)
Fixpoint gather (get : Z -> bool) (bit : Z) (n : nat) (i : Z) (r : Z) : Z :=
  match n with
  | O => r
  | S m => gather get (wrap_u32 (bit + 1)) m (i + 1) (if get bit then Z.lor r (Z.shiftl 1 i) else r)
  end.

(** [IOExt::split]. *)
Fixpoint io_split_from (io : list IOArg) (input bit : Z) : list Z :=
  match io with
  | [] => []
  | a :: rest =>
      let n := Z.to_nat (wrap_u32 (io_bits a)) in
      gather (Z.testbit input) bit n 0 0 :: io_split_from rest input (wrap_u32 (bit + Z.of_nat n))
  end.
Definition io_split (io : list IOArg) (input : Z) : list Z := io_split_from io input 0.

Record Circuit := mkCircuit {
  num_gates : Z;
  num_wires : Z;
  inputs : list IOArg;
  outputs : list IOArg;
  gates : list Gate;
  stats : Stats;
}.

Definition num_parties (c : Circuit) : Z := Z.of_nat (length (inputs c)).
Definition circuit_cost (c : Circuit) : Z := Stats_cost (stats c).

(** ** Indexed arrays *)

(** [v[i]] and [v[i] = x] of Rust. *)
Definition index {A} (v : list A) (i : Z) : result A :=
  if (0 <=? i) && (i <? Z.of_nat (length v))
  then match v !! Z.to_nat i with Some x => Ok x | None => Panic end else Panic.
Definition index_set {A} (v : list A) (i : Z) (x : A) : result (list A) :=
  if (0 <=? i) && (i <? Z.of_nat (length v)) then Ok (<[Z.to_nat i := x]> v) else Panic.

(** ** Evaluation *)

Definition flatten_args (io : list IOArg) : list IOArg :=
  mjoin ((fun a => match io_compound a with [] => [a] | c => c end) <$> io).

(** The bits of one input: wire [w] onwards. *)
Fixpoint load_bits (ws : list bool) (w : Z) (v : Z) (bit : Z) (n : nat) : result (list bool) :=
  match n with
  | O => Ok ws
  | S m =>
      ws ← (if Z.testbit v bit then index_set ws w true else Ok ws);
      load_bits ws (w + 1) v (bit + 1) m
  end.

Fixpoint load_inputs (ws : list bool) (w : Z) (args : list IOArg) (ins : list Z) : result (list bool) :=
  match args, ins with
  | a :: args, v :: ins =>
      let n := Z.to_nat (io_bits a) in
      ws ← load_bits ws w v 0 n;
      load_inputs ws (w + Z.of_nat n) args ins
  | _, _ => Ok ws
  end.

Definition apply_op (o : Operation) (a b : bool) : bool :=
  match o with
  | OXor => xorb a b
  | OXnor => negb (xorb a b)
  | OAnd => a && b
  | OOr => a || b
  | OInv => negb a
  end.

Definition eval_gate (ws : list bool) (g : Gate) : result (list bool) :=
  a ← index ws (input0 g);
  b ← (if is_binary (op g) then index ws (input1 g) else Ok false);
  index_set ws (output g) (apply_op (op g) a b).

Fixpoint eval_gates (ws : list bool) (gs : list Gate) : result (list bool) :=
  match gs with
  | [] => Ok ws
  | g :: gs => ws ← eval_gate ws g; eval_gates ws gs
  end.

(** The bits of one output, from wire [w] on. *)
Fixpoint read_bits (ws : list bool) (w : Z) (bit : Z) (n : nat) (r : Z) : result Z :=
  match n with
  | O => Ok r
  | S m =>
      b ← index ws w;
      read_bits ws (wrap_u64 (w + 1)) (bit + 1) m (if (b : bool) then Z.lor r (Z.shiftl 1 bit) else r)
  end.

Fixpoint read_outputs (ws : list bool) (w : Z) (io : list IOArg) : result (list Z) :=
  match io with
  | [] => Ok []
  | a :: io =>
      let n := Z.to_nat (io_bits a) in
      r ← read_bits ws w 0 n 0;
      rs ← read_outputs ws (wrap_u64 (w + Z.of_nat n)) io;
      Ok (r :: rs)
  end.

Definition compute (c : Circuit) (ins : list Z) : result (list Z) :=
  let args := flatten_args (inputs c) in
  if decide (length ins = length args) then
    ws ← load_inputs (replicate (Z.to_nat (num_wires c)) false) 0 args ins;
    ws ← eval_gates ws (gates c);
    read_outputs ws (wrap_u64 (num_wires c - as_usize (io_size (outputs c)))) (outputs c)
  else Err InvalidArgument.

(** ** Levels *)

(** The loop of [assign_levels] over gates: levels by wire, gate counts by level
    and the highest level so far. *)
Fixpoint level_gates (levels counts : list Z) (max_level : Z) (gs : list Gate) :
    result (list Gate * list Z * Z) :=
  match gs with
  | [] => Ok ([], counts, max_level)
  | g :: gs =>
      l0 ← index levels (input0 g);
      l1 ← (if decide (op g = OInv) then Ok l0 else index levels (input1 g));
      let lv := if l0 <? l1 then l1 else l0 in
      let counts := alter (fun c => wrap_u32 (c + 1)) (Z.to_nat lv) counts in
      let up := wrap_u32 (lv + 1) in
      levels ← index_set levels (output g) up;
      '(gs, counts, m) ← level_gates levels counts (if max_level <? up then up else max_level) gs;
      Ok (mkGate (input0 g) (input1 g) (output g) (op g) lv :: gs, counts, m)
  end.

Definition assign_levels (c : Circuit) : result Circuit :=
  let zeros := replicate (Z.to_nat (num_wires c)) 0 in
  '(gs, counts, m) ← level_gates zeros zeros 0 (gates c);
  let st := <[NUM_LEVELS_IDX := m]> (stats c) in
  let st := <[MAX_WIDTH_IDX := foldr Z.max 0 counts]> st in
  Ok (mkCircuit (num_gates c) (num_wires c) (inputs c) (outputs c) gs st).
