(* ===== verification/CircuitBuild.v ===== *)
(** * Building circuits ([src/crates/quil-compiler/src/circuits/])

    The wire allocator, the gate list under construction with its constant
    wires, the arithmetic circuits, and the passes that turn the list into a
    [Circuit].  An operation on [&mut Compiler] is a [build]: a function from a
    compiler state to a result and the new state.  Wire indices are [usize]
    ([Z] here); [usize::MAX] in a result slice asks for a fresh wire. *)

From S2P Require Import Prelude Bytes QclTypes Circuit.

(** ** Wires ([wire.rs]) *)

Definition UNASSIGNED_ID : Z := u32_max.
Definition OUTPUT_MASK : Z := 0x80000000.
Definition VALUE_MASK : Z := 0x60000000.
Definition NUM_MASK : Z := 0x1fffffff.
Definition VALUE_SHIFT : Z := 29.

Inductive WireValue := WUnknown | WZero | WOne.
#[export] Instance WireValue_eq_dec : EqDecision WireValue.
Proof. solve_decision. Defined.
Definition wire_value_code (v : WireValue) : Z := match v with WUnknown => 0 | WZero => 1 | WOne => 2 end.

Record Wire := mkWire {
  ovnum : Z;
  wire_id : Z;
  wire_gates : list Z;
}.
Definition Wire_new : Wire := mkWire 0 UNASSIGNED_ID [].

(** [!mask] on [u32]. *)
Definition not_u32 (m : Z) : Z := Z.lxor m u32_max.

Definition set_id (w : Wire) (id : Z) : Wire := mkWire (ovnum w) id (wire_gates w).
Definition assigned (w : Wire) : bool := negb (wire_id w =? UNASSIGNED_ID).
Definition is_output (w : Wire) : bool := negb (Z.land (ovnum w) OUTPUT_MASK =? 0).
Definition set_output (w : Wire) (o : bool) : Wire :=
  mkWire (if o then Z.lor (ovnum w) OUTPUT_MASK else Z.land (ovnum w) (not_u32 OUTPUT_MASK)) (wire_id w) (wire_gates w).
Definition value (w : Wire) : WireValue :=
  match Z.shiftr (Z.land (ovnum w) VALUE_MASK) VALUE_SHIFT with 1 => WZero | 2 => WOne | _ => WUnknown end.
Definition set_value (w : Wire) (v : WireValue) : Wire :=
  let n := Z.land (ovnum w) (not_u32 VALUE_MASK) in
  mkWire (Z.lor n (Z.land (Z.shiftl (wire_value_code v) VALUE_SHIFT) VALUE_MASK)) (wire_id w) (wire_gates w).
Definition num_outputs (w : Wire) : Z := Z.land (ovnum w) NUM_MASK.
(** Panics when the counter would leave its 29 bits. *)
Definition set_num_outputs (w : Wire) (num : Z) : result Wire :=
  if num <=? NUM_MASK
  then Ok (mkWire (Z.lor (Z.land (ovnum w) (not_u32 NUM_MASK)) num) (wire_id w) (wire_gates w)) else Panic.
Definition wire_reset (w : Wire) (id : Z) : Wire :=
  mkWire (ovnum (set_value (set_output w false) WUnknown)) id [].
Definition disconnect_outputs (w : Wire) : result Wire :=
  w ← set_num_outputs w 0; Ok (mkWire (ovnum w) (wire_id w) (take 1 (wire_gates w))).
Definition input_gate (w : Wire) : option Z := head (wire_gates w).
Definition set_input_gate (w : Wire) (g : option Z) : Wire :=
  mkWire (ovnum w) (wire_id w)
    match g, wire_gates w with
    | None, _ :: rest => usize_max :: rest
    | None, [] => []
    | Some g, _ :: rest => g :: rest
    | Some g, [] => [g]
    end.
Definition is_input (w : Wire) : bool :=
  match wire_gates w with [] => true | g :: _ => g =? usize_max end.
Definition output_gates (w : Wire) : list Z := tail (wire_gates w).
Definition add_output (w : Wire) (g : Z) : result Wire :=
  let gs := match wire_gates w with [] => [usize_max] | gs => gs end ++ [g] in
  set_num_outputs (mkWire (ovnum w) (wire_id w) gs) (num_outputs w + 1).
Definition remove_output (w : Wire) (g : Z) : result Wire :=
  set_num_outputs w (Z.max 0 (num_outputs w - 1)).

(** ** Gates and the compiler state ([gates.rs], [allocator.rs], [compiler.rs]) *)

Record BGate := mkBGate {
  g_op : Operation;
  visited : bool;
  compiled : bool;
  dead : bool;
  g_a : Z;
  g_b : Z;
  g_o : Z;
}.
Definition Gate_new (o : Operation) (a b out : Z) : BGate := mkBGate o false false false a b out.

Record Compiler := mkCompiler {
  wires : list Wire;
  outputs_assigned : bool;
  cc_inputs : list IOArg;
  cc_outputs : list IOArg;
  input_wires : list Z;
  output_wires : list Z;
  cc_gates : list BGate;
  next_wire : Z;
  inv_i0 : option Z;
  zero : option Z;
  one : option Z;
}.

Definition Compiler_new (ws : list Wire) (ins outs : list IOArg) (iw ow : list Z) : result Compiler :=
  match iw with
  | [] => Err InvalidArgument
  | _ => Ok (mkCompiler ws false ins outs iw ow [] 0 None None None)
  end.

Definition with_wires (c : Compiler) (ws : list Wire) : Compiler :=
  mkCompiler ws (outputs_assigned c) (cc_inputs c) (cc_outputs c) (input_wires c) (output_wires c) (cc_gates c)
    (next_wire c) (inv_i0 c) (zero c) (one c).
Definition with_gates (c : Compiler) (gs : list BGate) : Compiler :=
  mkCompiler (wires c) (outputs_assigned c) (cc_inputs c) (cc_outputs c) (input_wires c) (output_wires c) gs
    (next_wire c) (inv_i0 c) (zero c) (one c).
Definition with_next (c : Compiler) (n : Z) : Compiler :=
  mkCompiler (wires c) (outputs_assigned c) (cc_inputs c) (cc_outputs c) (input_wires c) (output_wires c) (cc_gates c)
    n (inv_i0 c) (zero c) (one c).
Definition with_consts (c : Compiler) (i z o : option Z) : Compiler :=
  mkCompiler (wires c) (outputs_assigned c) (cc_inputs c) (cc_outputs c) (input_wires c) (output_wires c) (cc_gates c)
    (next_wire c) i z o.

(** ** The state monad of [&mut Compiler] *)

Definition build (A : Type) : Type := Compiler -> result (A * Compiler).
#[export] Instance build_ret : MRet build := fun _ a c => Ok (a, c).
#[export] Instance build_bind : MBind build := fun _ _ f m c =>
  match m c with Ok (a, c') => f a c' | Err e => Err e | Panic => Panic end.
Definition lift {A} (r : result A) : build A := fun c =>
  match r with Ok a => Ok (a, c) | Err e => Err e | Panic => Panic end.
Definition get : build Compiler := fun c => Ok (c, c).

(** [allocator.wire()]. *)
Definition wire : build Z := fun c =>
  Ok (Z.of_nat (length (wires c)), with_wires c (wires c ++ [Wire_new])).
(** [n] calls of [allocator.wire()]; [allocator.wires(n)] gives the same. *)
Fixpoint fresh (n : nat) : build (list Z) :=
  match n with O => mret [] | S n => w ← wire; ws ← fresh n; mret (w :: ws) end.
Definition alloc_wires (n : Z) : build (list Z) := fresh (Z.to_nat n).
Definition alter_wire (i : Z) (f : Wire -> Wire) : build unit := fun c =>
  match index (wires c) i with
  | Ok w => Ok ((), with_wires c (<[Z.to_nat i := f w]> (wires c)))
  | Err e => Err e
  | Panic => Panic
  end.
(** [gates.push(..)], also [add_gate]. *)
Definition push (g : BGate) : build unit := fun c => Ok ((), with_gates c (cc_gates c ++ [g])).
Definition gate (o : Operation) (a b out : Z) : build unit := push (Gate_new o a b out).

(** Update the state and return [w]. *)
Definition keep (w : Z) (f : Compiler -> Compiler) : build Z := fun c => Ok (w, f c).

Definition inv_i0_wire : build Z :=
  c ← get;
  match inv_i0 c with
  | Some w => mret w
  | None =>
      w ← wire;
      i0 ← lift (index (input_wires c) 0);
      _ ← gate OInv i0 0 w;
      keep w (fun c => with_consts c (Some w) (zero c) (one c))
  end.
Definition zero_wire : build Z :=
  c ← get;
  match zero c with
  | Some w => mret w
  | None =>
      w ← wire;
      i0 ← lift (index (input_wires c) 0);
      inv ← inv_i0_wire;
      _ ← gate OAnd i0 inv w;
      _ ← alter_wire w (fun x => set_value x WZero);
      keep w (fun c => with_consts c (inv_i0 c) (Some w) (one c))
  end.
Definition one_wire : build Z :=
  c ← get;
  match one c with
  | Some w => mret w
  | None =>
      w ← wire;
      i0 ← lift (index (input_wires c) 0);
      inv ← inv_i0_wire;
      _ ← gate OOr i0 inv w;
      _ ← alter_wire w (fun x => set_value x WOne);
      keep w (fun c => with_consts c (inv_i0 c) (zero c) (Some w))
  end.

(** [x] filled up with [z] to length [n]. *)
Definition pad (z : Z) (n : nat) (x : list Z) : list Z := x ++ replicate (n - length x) z.
Definition zero_pad (x y : list Z) : build (list Z * list Z) :=
  if decide (length x = length y) then mret (x, y)
  else
    let n := Nat.max (length x) (length y) in
    zw ← zero_wire;
    mret (pad zw n x, pad zw n y).

Definition shift_left (w : list Z) (size count : nat) : build (list Z) :=
  zw ← zero_wire;
  mret (if (count <? size)%nat
        then replicate count zw ++ pad zw (size - count) (take (size - count) w)
        else replicate size zw).

Definition inv (i o : Z) : build unit := one ← one_wire; gate OXor i one o.
Definition id_gate (i o : Z) : build unit := zero ← zero_wire; gate OXor i zero o.

(** [if r == usize::MAX { r = allocator.wire() }]. *)
Definition slot_wire (r : Z) : build Z := if r =? usize_max then wire else mret r.

(** ** Arithmetic circuits ([compiler.rs], [multiplier.rs], [divider.rs]) *)

Definition new_half_adder (a b sum carry : Z) : build unit :=
  _ ← gate OXor a b sum;
  gate OAnd a b carry.

Definition new_full_adder (a b cin sum carry : Z) : build unit :=
  w1 ← wire;
  w2 ← wire;
  w3 ← wire;
  _ ← gate OXor a b w1;
  _ ← gate OXor w1 cin sum;
  _ ← gate OAnd a b w2;
  _ ← gate OAnd w1 cin w3;
  gate OXor w2 w3 carry.

(** The loop over bit positions: the results so far and the last carry. *)
Fixpoint adder_loop (xy : list (Z * Z)) (res : list Z) (carry : Z) : build (list Z * Z) :=
  match xy, res with
  | (x, y) :: xy, r :: res =>
      new_carry ← wire;
      r ← slot_wire r;
      _ ← new_full_adder x y carry r new_carry;
      '(res, c) ← adder_loop xy res new_carry;
      mret (r :: res, c)
  | _, _ => mret (res, carry)
  end.

(** Past the sum: the carry (or borrow) in the next position, zeros beyond. *)
Definition finish_result (put : Z -> build unit) (n : nat) (res : list Z) : build (list Z) :=
  match drop n res with
  | [] => _ ← zero_wire; mret res
  | r :: rest =>
      r ← slot_wire r;
      _ ← put r;
      zw ← zero_wire;
      mret (take n res ++ r :: replicate (length rest) zw)
  end.

Definition fail {A} : build A := fun _ => Err InvalidArgument.

Definition new_adder (x y res : list Z) : build (list Z) :=
  '(x, y) ← zero_pad x y;
  let n := length x in
  if (length res <? n)%nat then fail
  else
    carry ← zero_wire;
    '(res, carry) ← adder_loop (zip x y) res carry;
    finish_result (id_gate carry) n res.

Fixpoint invert_all (ys : list Z) : build (list Z) :=
  match ys with
  | [] => mret []
  | y :: ys => w ← wire; _ ← inv y w; ws ← invert_all ys; mret (w :: ws)
  end.

(** As [adder_loop]; positions past the result go to a wire of their own. *)
Fixpoint subtractor_loop (xy : list (Z * Z)) (res : list Z) (carry : Z) : build (list Z * Z) :=
  match xy with
  | [] => mret (res, carry)
  | (x, y) :: xy =>
      new_carry ← wire;
      match res with
      | r :: res =>
          r ← slot_wire r;
          _ ← new_full_adder x y carry r new_carry;
          '(res, c) ← subtractor_loop xy res new_carry;
          mret (r :: res, c)
      | [] =>
          tmp ← wire;
          _ ← new_full_adder x y carry tmp new_carry;
          subtractor_loop xy [] new_carry
      end
  end.

Definition new_subtractor (x y res : list Z) : build (list Z) :=
  '(x, y) ← zero_pad x y;
  let n := length x in
  not_y ← invert_all y;
  carry ← one_wire;
  '(res, carry) ← subtractor_loop (zip x not_y) res carry;
  finish_result (inv carry) n res.

(** [if i < v.len() { v[i] } else { cc.zero_wire() }]. *)
Definition wire_or_zero (v : list Z) : build (Z * list Z) :=
  match v with a :: v => mret (a, v) | [] => z ← zero_wire; mret (z, []) end.

Fixpoint mux_loop (s : Z) (a b res : list Z) : build (list Z) :=
  match res with
  | [] => mret []
  | r :: res =>
      '(ai, a) ← wire_or_zero a;
      '(bi, b) ← wire_or_zero b;
      t1 ← wire;
      _ ← gate OXor ai bi t1;
      t2 ← wire;
      _ ← gate OAnd t1 s t2;
      r ← slot_wire r;
      _ ← gate OXor ai t2 r;
      res ← mux_loop s a b res;
      mret (r :: res)
  end.
Definition new_mux (sel a b res : list Z) : build (list Z) :=
  match sel with [] => fail | s :: _ => mux_loop s a b res end.

(** *** Division *)

(** [r <<= 1; r[0] = bit]; the remainder has as many wires as the dividend, so
    it is not empty inside the loop. *)
Definition shift_in (bit : Z) (r : list Z) : list Z :=
  match r with [] => [] | _ => bit :: removelast r end.

(** The last wire of a slice, as a one-element slice. *)
Definition last_slice (v : list Z) : list Z := drop (length v - 1) v.

(** The wires of the next remainder: the caller's in the last step. *)
Fixpoint remainder_wires (last_step : bool) (n : nat) (rret : list Z) : build (list Z) :=
  match n with
  | O => mret []
  | S n =>
      w ← match rret with r :: _ => if last_step then mret r else wire | [] => wire end;
      ws ← remainder_wires last_step n (tail rret);
      mret (w :: ws)
  end.

(** The loop [for i in (0..n).rev()] on the reversed bits of [a]. *)
Fixpoint divider_loop (bits : list Z) (b q rret r : list Z) : build (list Z) :=
  match bits with
  | [] => mret q
  | bit :: bits =>
      let i := length bits in
      let r := shift_in bit r in
      diff ← fresh (length r + 1);
      diff ← new_subtractor r b diff;
      q ← (match q !! i with
           | Some qi =>
               z ← zero_wire;
               o ← one_wire;
               bit ← new_mux (last_slice diff) [z] [o] [qi];
               mret (match bit with w :: _ => <[i := w]> q | [] => q end)
           | None => mret q
           end);
      nr ← remainder_wires (i =? 0)%nat (length r) rret;
      r ← new_mux (last_slice diff) r (removelast diff) nr;
      divider_loop bits b q rret r
  end.

Definition new_udivider_long (a b q rret : list Z) : build (list Z) :=
  '(a, b) ← zero_pad a b;
  zw ← zero_wire;
  divider_loop (reverse a) b q rret (replicate (length a) zw).
Definition new_udivider := new_udivider_long.

Definition new_idivider (a b q r : list Z) : build (list Z) :=
  '(a, b) ← zero_pad a b;
  let n := length a in
  zero ← zero_wire;
  neg0 ← zero_wire;
  neg1 ← wire;
  _ ← inv neg0 neg1;
  a1 ← fresh n;
  a1 ← new_subtractor [zero] a a1;
  neg2 ← wire;
  match n with
  | O => lift Panic
  | _ =>
      neg2s ← new_mux (last_slice a) [neg1] [neg0] [neg2];
      a2 ← fresh n;
      a2 ← new_mux (last_slice a) a1 a a2;
      neg3 ← wire;
      _ ← inv (hd 0 neg2s) neg3;
      b1 ← fresh n;
      b1 ← new_subtractor [zero] b b1;
      neg4 ← wire;
      neg4s ← new_mux (last_slice b) [neg3] (take 1 neg2s) [neg4];
      b2 ← fresh n;
      b2 ← new_mux (last_slice b) b1 b b2;
      match q with
      | [] => new_udivider a2 b2 q r
      | _ =>
          q0 ← fresh (length q);
          q0 ← new_udivider a2 b2 q0 r;
          q1 ← fresh (length q);
          q1 ← new_subtractor [zero] q0 q1;
          new_mux neg4s q1 q0 q
      end
  end.

(** *** Multiplication *)

Definition DEFAULT_ARRAY_THRESHOLD : nat := 21.

(** The partial products of the first row: its lowest bit is [z[0]]. *)
Fixpoint and_row (xs : list Z) (y : Z) : build (list Z) :=
  match xs with [] => mret [] | x :: xs => w ← wire; _ ← gate OAnd x y w; ws ← and_row xs y; mret (w :: ws) end.

(** One cell of a row: add the partial product [p] to the sum from above and the
    carry from the right; the first cell has no carry, cells past the sums no sum. *)
Definition mul_cell (first : bool) (p : Z) (sum : option Z) (carry s cout : Z) : build unit :=
  match first, sum with
  | true, Some above => new_half_adder p above s cout
  | true, None => lift Panic
  | false, None => new_half_adder p carry s cout
  | false, Some above => new_full_adder p above carry s cout
  end.

(** The cells of an intermediate row: the new sums, its lowest bit going to [zj]. *)
Fixpoint mul_row (first : bool) (zj : Z) (ands sums : list Z) (carry : Z) : build (list Z * Z) :=
  match ands with
  | [] => mret ([], carry)
  | p :: ands =>
      cout ← wire;
      s ← (if first then mret zj else wire);
      _ ← mul_cell first p (head sums) carry s cout;
      '(nsums, c) ← mul_row false zj ands (tail sums) cout;
      mret (if first then nsums else s :: nsums, c)
  end.

(** The intermediate rows, from [j] on; the last multiplier bit is left. *)
Fixpoint mul_rows (xs ys : list Z) (z : list Z) (j : nat) (sums : list Z) : build (nat * list Z) :=
  match ys with
  | y :: ((_ :: _) as ys) =>
      ands ← and_row xs y;
      zj ← lift (index z (Z.of_nat j));
      '(nsums, carry) ← mul_row true zj ands sums 0;
      mul_rows xs ys z (S j) (nsums ++ [carry])
  | _ => mret (j, sums)
  end.

(** The last row: bit [j + i] of the result from cell [i], and the final carry
    above it. *)
Fixpoint mul_last (first : bool) (xs : list Z) (y : Z) (z : list Z) (k : nat) (sums : list Z) (carry : Z) : build unit :=
  match xs with
  | [] => mret ()
  | x :: xs =>
      p ← wire;
      _ ← gate OAnd x y p;
      cout ← match xs, z !! S k with [], Some w => mret w | _, _ => wire end;
      _ ← match z !! k with
          | Some s => mul_cell first p (head sums) carry s cout
          | None => mret ()
          end;
      mul_last false xs y z (S k) (tail sums) cout
  end.

(** What the array multiplier leaves in the result slice [z] of the caller. *)
Definition new_array_multiplier (x y z : list Z) : build (list Z) :=
  '(x, y) ← zero_pad x y;
  let x := take (length z) x in
  let y := take (length z) y in
  match x, y with
  | [x0], y0 :: _ =>
      z0 ← lift (index z 0);
      _ ← gate OAnd x0 y0 z0;
      match z with
      | a :: _ :: rest => zw ← zero_wire; mret (a :: zw :: rest)
      | _ => mret z
      end
  | x0 :: xs, y0 :: ys =>
      z0 ← lift (index z 0);
      _ ← gate OAnd x0 y0 z0;
      sums ← and_row xs y0;
      '(j, sums) ← mul_rows x ys z 1 sums;
      yj ← lift (index y (Z.of_nat j));
      _ ← mul_last true x yj z j sums 0;
      zw ← zero_wire;
      mret (take (j + length x + 1) z ++ replicate (length z - (j + length x + 1)) zw)
  | _, _ => zw ← zero_wire; mret (take 2 z ++ replicate (length z - 2) zw)
  end.

(** The recursion halves its operands; a fuel above their length is enough. *)
Fixpoint karatsuba (fuel limit : nat) (a b r : list Z) : build (list Z) :=
  match fuel with
  | O => fail
  | S fuel =>
      '(a, b) ← zero_pad a b;
      let a := take (length r) a in
      let b := take (length r) b in
      if (length a <=? limit)%nat then new_array_multiplier a b r
      else
        let rlen := length r in
        let mid := (length a / 2)%nat in
        let a_low := take mid a in
        let a_high := drop mid a in
        let b_low := take mid b in
        let b_high := drop mid b in
        z0 ← fresh (Nat.min (Nat.max (length a_low) (length b_low) * 2) rlen);
        z0 ← karatsuba fuel limit a_low b_low z0;
        let a_sum_len := (Nat.max (length a_low) (length a_high) + 1)%nat in
        a_sum ← fresh a_sum_len;
        a_sum ← new_adder a_low a_high a_sum;
        let b_sum_len := (Nat.max (length b_low) (length b_high) + 1)%nat in
        b_sum ← fresh b_sum_len;
        b_sum ← new_adder b_low b_high b_sum;
        z1 ← fresh (Nat.min (Nat.max a_sum_len b_sum_len * 2) rlen);
        z1 ← karatsuba fuel limit a_sum b_sum z1;
        z2 ← fresh (Nat.min (Nat.max (length a_high) (length b_high) * 2) rlen);
        z2 ← karatsuba fuel limit a_high b_high z2;
        sub1 ← fresh rlen;
        sub1 ← new_subtractor z1 z2 sub1;
        sub2 ← fresh rlen;
        sub2 ← new_subtractor sub1 z0 sub2;
        shift1 ← shift_left z2 rlen (mid * 2);
        shift2 ← shift_left sub2 rlen mid;
        add1 ← fresh rlen;
        add1 ← new_adder shift1 shift2 add1;
        new_adder add1 z0 r
  end.
Definition new_karatsuba_multiplier (limit : nat) (a b r : list Z) : build (list Z) :=
  karatsuba (S (Nat.max (length a) (length b))) limit a b r.
Definition new_multiplier (array_threshold : nat) (x y z : list Z) : build (list Z) :=
  new_karatsuba_multiplier (if (array_threshold <? 8)%nat then DEFAULT_ARRAY_THRESHOLD else array_threshold) x y z.

(** ** Passes over the gate list *)

(** What the values of its inputs say of a gate's output. *)
Definition const_value (o : Operation) (av bv : WireValue) : option WireValue :=
  match o with
  | OXor =>
      match av, bv with
      | WZero, WZero | WOne, WOne => Some WZero
      | WZero, WOne | WOne, WZero => Some WOne
      | _, _ => None
      end
  | OXnor =>
      match av, bv with
      | WZero, WZero | WOne, WOne => Some WOne
      | WZero, WOne | WOne, WZero => Some WZero
      | _, _ => None
      end
  | OAnd =>
      match av, bv with
      | WZero, _ | _, WZero => Some WZero
      | WOne, WOne => Some WOne
      | _, _ => None
      end
  | OOr =>
      match av, bv with
      | WOne, _ | _, WOne => Some WOne
      | WZero, WZero => Some WZero
      | _, _ => None
      end
  | OInv => match av with WOne => Some WZero | WZero => Some WOne | WUnknown => None end
  end.

Fixpoint const_propagate_gates (ws : list Wire) (gs : list BGate) : result (list Wire) :=
  match gs with
  | [] => Ok ws
  | g :: gs =>
      a ← index ws (g_a g);
      b ← index ws (g_b g);
      ws ← match const_value (g_op g) (value a) (value b) with
           | Some v => o ← index ws (g_o g); index_set ws (g_o g) (set_value o v)
           | None => Ok ws
           end;
      const_propagate_gates ws gs
  end.
Definition const_propagate : build unit := fun c =>
  ws ← const_propagate_gates (wires c) (cc_gates c); Ok ((), with_wires c ws).

(** [prune] keeps a gate marked dead, or whose output wire is a circuit output or
    has registered readers. *)
Fixpoint prune_gates (ws : list Wire) (gs : list BGate) : result (list BGate * Z) :=
  match gs with
  | [] => Ok ([], 0)
  | g :: gs =>
      w ← index ws (g_o g);
      '(live, pruned) ← prune_gates ws gs;
      Ok (if dead g || is_output w || (0 <? num_outputs w) then (g :: live, pruned) else (live, pruned + 1))
  end.
Definition prune : build Z := fun c =>
  '(gs, pruned) ← prune_gates (wires c) (cc_gates c); Ok (pruned, with_gates c gs).

(** ** Compilation *)

Definition next_wire_id : build Z := fun c => Ok (next_wire c, with_next c (wrap_u32 (next_wire c + 1))).
Definition set_wire_id (w : Z) : build unit :=
  id ← next_wire_id; alter_wire w (fun x => set_id x id).

(** Number a wire that has no number yet. *)
Definition assign_wire (w : Z) : build unit :=
  c ← get;
  x ← lift (index (wires c) w);
  if assigned x then mret () else set_wire_id w.

Fixpoint each {A} (f : A -> build unit) (l : list A) : build unit :=
  match l with [] => mret () | a :: l => _ ← f a; each f l end.

(** The wires a gate mentions, except the outputs of the circuit, which are
    numbered last. *)
Definition assign_gate (outs : list Z) (g : BGate) : build unit :=
  let inner w := if decide (w ∈ outs) then mret () else assign_wire w in
  if dead g then mret ()
  else
    _ ← inner (g_a g);
    _ ← (if decide (g_op g = OInv) then mret () else inner (g_b g));
    inner (g_o g).

Definition compile_gate (ws : list Wire) (g : BGate) : result Gate :=
  a ← index ws (g_a g);
  b ← index ws (g_b g);
  o ← index ws (g_o g);
  Ok (mkGate (wire_id a) (if decide (g_op g = OInv) then 0 else wire_id b) (wire_id o) (g_op g) 0).

Fixpoint compile_gates (ws : list Wire) (gs : list BGate) : result (list Gate) :=
  match gs with
  | [] => Ok []
  | g :: gs =>
      if dead g then compile_gates ws gs
      else g' ← compile_gate ws g; gs' ← compile_gates ws gs; Ok (g' :: gs')
  end.

(** One pass of the topological sort: gates whose inputs are produced, in order,
    and the gates that wait. *)
Fixpoint topo_pass (produced : list bool) (gs : list Gate) : result (list Gate * list Gate * list bool) :=
  match gs with
  | [] => Ok ([], [], produced)
  | g :: gs =>
      a ← index produced (input0 g);
      b ← (if decide (op g = OInv) then Ok true else index produced (input1 g));
      if (a : bool) && b then
        produced ← index_set produced (output g) true;
        '(ready, wait, p) ← topo_pass produced gs;
        Ok (g :: ready, wait, p)
      else
        '(ready, wait, p) ← topo_pass produced gs;
        Ok (ready, g :: wait, p)
  end.

(** The passes, while gates remain and the last pass made progress; each such
    pass removes a gate, so as many passes as gates are enough.  Gates that
    never become ready go last. *)
Fixpoint topo_sort (fuel : nat) (produced : list bool) (gs : list Gate) : result (list Gate) :=
  match fuel, gs with
  | S fuel, _ :: _ =>
      '(ready, wait, p) ← topo_pass produced gs;
      match ready with
      | [] => Ok wait
      | _ => rest ← topo_sort fuel p wait; Ok (ready ++ rest)
      end
  | _, _ => Ok gs
  end.

Definition gate_stats (gs : list BGate) : list Z :=
  foldl (fun st g => if dead g then st else stats_bump st (g_op g)) Stats_default gs.

(** [inputs.iter().map(|a| a.bits as usize).sum()]. *)
Definition input_wire_count (io : list IOArg) : Z :=
  foldl (fun acc a => wrap_u64 (acc + as_usize (io_bits a))) 0 io.

(** [produced[i] = true] for [i < n]. *)
Definition mark_inputs (produced : list bool) (n : Z) : result (list bool) :=
  if n <=? Z.of_nat (length produced)
  then Ok (replicate (Z.to_nat n) true ++ drop (Z.to_nat n) produced) else Panic.

Definition compile_circuit : build Circuit :=
  c ← get;
  _ ← each assign_wire (input_wires c);
  _ ← each (assign_gate (output_wires c)) (cc_gates c);
  _ ← each set_wire_id (output_wires c);
  c ← get;
  gs ← lift (compile_gates (wires c) (cc_gates c));
  let n := next_wire c in
  produced ← lift (mark_inputs (replicate (Z.to_nat n) false) (input_wire_count (cc_inputs c)));
  gs ← lift (topo_sort (length gs) produced gs);
  mret (mkCircuit (Z.of_nat (length gs)) n (cc_inputs c) (cc_outputs c) gs (gate_stats (cc_gates c))).
