(* ===== verification/CircuitLogic.v ===== *)
(** * Reasoning about circuit construction

    An assignment of booleans to wires [sat]isfies a gate list when every gate's
    output is its operation on its inputs.  [cc_ok] is the invariant of a
    compiler state: gates come after the gates they read, no wire is driven
    twice, and the constant wires hold their constants in every satisfying
    assignment.  [builds] is the total-correctness triple of a construction
    step: it succeeds, keeps the invariant, drives only wires it may, and leaves
    a state with the postcondition. *)

From S2P Require Import Prelude Bytes QclTypes Circuit CircuitBuild.

(** ** Assignments *)

Definition gate_holds (env : Z -> bool) (g : BGate) : Prop :=
  env (g_o g) = apply_op (g_op g) (env (g_a g)) (env (g_b g)).
Definition sat (env : Z -> bool) (c : Compiler) : Prop := Forall (gate_holds env) (cc_gates c).

(** The number on a list of wires, least significant first. *)
Definition bits_val (env : Z -> bool) (ws : list Z) : Z :=
  foldr (fun w acc => Z.b2z (env w) + 2 * acc) 0 ws.

Lemma bits_val_cons env w ws : bits_val env (w :: ws) = Z.b2z (env w) + 2 * bits_val env ws.
Proof. done. Qed.

Lemma wires_val_range env ws : 0 <= bits_val env ws < 2 ^ Z.of_nat (length ws).
Proof.
  induction ws as [|w ws IH]; [cbn; lia|]. rewrite bits_val_cons. cbn [length].
  rewrite Nat2Z.inj_succ, Z.pow_succ_r by lia. destruct (env w); cbn [Z.b2z]; lia.
Qed.

Lemma wires_val_app env xs ys :
  bits_val env (xs ++ ys) = bits_val env xs + 2 ^ Z.of_nat (length xs) * bits_val env ys.
Proof.
  induction xs as [|x xs IH]; [cbn [app length]; change (bits_val env []) with 0; lia|].
  cbn [app length]. rewrite !bits_val_cons, IH, Nat2Z.inj_succ, Z.pow_succ_r by lia. lia.
Qed.

Lemma bits_val_zeros env z n : env z = false -> bits_val env (replicate n z) = 0.
Proof. intros Hz. induction n as [|n IH]; [done|]. cbn [replicate]. by rewrite bits_val_cons, IH, Hz. Qed.

(** ** The invariant *)

Definition known (c : Compiler) : list Z := input_wires c ++ (g_o <$> cc_gates c).
Definition in_range (c : Compiler) (w : Z) : Prop := 0 <= w < Z.of_nat (length (wires c)).
Definition is_fresh (c : Compiler) (w : Z) : Prop := Z.of_nat (length (wires c)) <= w.
Definition undriven (c : Compiler) (w : Z) : Prop := in_range c w /\ w ∉ known c.

(** Every gate reads wires known before it and drives a new one. *)
Fixpoint ordered (seen : list Z) (gs : list BGate) : Prop :=
  match gs with
  | [] => True
  | g :: gs =>
      g_a g ∈ seen /\ (g_op g = OInv \/ g_b g ∈ seen) /\ (g_o g ∉ seen) /\ ordered (seen ++ [g_o g]) gs
  end.

(** A constant wire: driven, and holding [f i0] in every satisfying assignment. *)
Definition const_ok (c : Compiler) (w : option Z) (f : bool -> bool) : Prop :=
  forall w', w = Some w' -> w' ∈ known c /\
    (forall env i0, head (input_wires c) = Some i0 -> sat env c -> env w' = f (env i0)).

Record cc_ok (c : Compiler) : Prop := {
  ok_inputs : input_wires c <> [];
  ok_range : Forall (in_range c) (known c);
  ok_gate_b : Forall (fun g => in_range c (g_b g) /\ dead g = false) (cc_gates c);
  ok_ordered : ordered (input_wires c) (cc_gates c);
  ok_fresh_ids : Forall (fun w => wire_id w = UNASSIGNED_ID) (wires c) /\ next_wire c = 0;
  ok_inv : const_ok c (inv_i0 c) negb;
  ok_zero : const_ok c (zero c) (fun _ => false);
  ok_one : const_ok c (one c) (fun _ => true);
}.

(** [c'] is [c] after driving some wires of [P]. *)
Record extends (P : Z -> Prop) (c c' : Compiler) : Prop := {
  ext_gates : exists new, cc_gates c' = cc_gates c ++ new /\ Forall (fun g => P (g_o g)) new;
  ext_wires : (length (wires c) <= length (wires c'))%nat;
  ext_io : input_wires c' = input_wires c /\ output_wires c' = output_wires c
           /\ cc_inputs c' = cc_inputs c /\ cc_outputs c' = cc_outputs c;
}.

Lemma extends_refl P c : extends P c c.
Proof. split; [exists []; by rewrite app_nil_r|done|done]. Qed.
Lemma extends_trans P c1 c2 c3 : extends P c1 c2 -> extends P c2 c3 -> extends P c1 c3.
Proof.
  intros [(n1 & E1 & F1) W1 (I1 & O1 & CI1 & CO1)] [(n2 & E2 & F2) W2 (I2 & O2 & CI2 & CO2)].
  split; [|lia|split_and!; congruence]. exists (n1 ++ n2). rewrite E2, E1, app_assoc.
  split; [done|]. by apply Forall_app.
Qed.
Lemma extends_weaken (P Q : Z -> Prop) c c' : extends P c c' -> (forall o, P o -> Q o) -> extends Q c c'.
Proof.
  intros [(n & E & F) W I] H. split; [|done|done]. exists n. split; [done|]. eapply Forall_impl; [done|]. auto.
Qed.

Lemma known_mono P c c' w : extends P c c' -> w ∈ known c -> w ∈ known c'.
Proof.
  intros [(n & E & _) _ (I & _)]. unfold known. rewrite E, I, fmap_app, !elem_of_app. tauto.
Qed.
Lemma known_mono_all P c c' ws : extends P c c' -> Forall (fun w => w ∈ known c) ws -> Forall (fun w => w ∈ known c') ws.
Proof. intros H HF. eapply Forall_impl; [done|]. intros w. by apply known_mono with P. Qed.
Lemma sat_mono P c c' env : extends P c c' -> sat env c' -> sat env c.
Proof. intros [(n & E & _) _ _]. unfold sat. rewrite E. intros [H _]%Forall_app. done. Qed.
Lemma in_range_mono P c c' w : extends P c c' -> in_range c w -> in_range c' w.
Proof. intros [_ W _]. unfold in_range. lia. Qed.
Lemma undriven_mono P c c' w : extends P c c' -> undriven c w -> ~ P w -> undriven c' w.
Proof.
  intros H [Hr Hk] HP. split; [by eapply in_range_mono|]. destruct H as [(n & E & F) _ (I & _)].
  unfold known in *. rewrite E, I, fmap_app, !elem_of_app. intros [Hw|[Hw|Hw]]; [set_solver..|].
  apply list_elem_of_fmap in Hw as (g & -> & Hg). rewrite Forall_forall in F. eauto.
Qed.
Lemma known_in_range c w : cc_ok c -> w ∈ known c -> in_range c w.
Proof. intros [_ H _ _ _ _ _ _]. rewrite Forall_forall in H. apply H. Qed.
Lemma fresh_not_in_range c w : is_fresh c w -> in_range c w -> False.
Proof. unfold is_fresh, in_range. lia. Qed.
Lemma fresh_mono P c c' w : extends P c c' -> is_fresh c' w -> is_fresh c w.
Proof. intros [_ W _]. unfold is_fresh. lia. Qed.

(** ** Triples *)

Definition builds {A} (P : Z -> Prop) (c : Compiler) (m : build A) (Q : A -> Compiler -> Prop) : Prop :=
  exists a c', m c = Ok (a, c') /\ cc_ok c' /\ extends P c c' /\ Q a c'.

Lemma builds_ret {A} P c (a : A) (Q : A -> Compiler -> Prop) : cc_ok c -> Q a c -> builds P c (mret a) Q.
Proof. intros Hc HQ. exists a, c. split_and!; [done|done|apply extends_refl|done]. Qed.

Lemma builds_bind {A B} P c (m : build A) (f : A -> build B) Q R :
  builds P c m Q ->
  (forall a c', cc_ok c' -> extends P c c' -> Q a c' -> builds P c' (f a) R) ->
  builds P c (m ≫= f) R.
Proof.
  intros (a & c1 & E1 & H1 & X1 & Q1) Hf. destruct (Hf a c1 H1 X1 Q1) as (b & c2 & E2 & H2 & X2 & Q2).
  exists b, c2. split_and!; [|done|by eapply extends_trans|done].
  unfold mbind, build_bind. by rewrite E1.
Qed.

Lemma builds_weaken {A} (P P' : Z -> Prop) c (m : build A) (Q Q' : A -> Compiler -> Prop) :
  builds P c m Q -> (forall o, P o -> P' o) -> (forall a c', cc_ok c' -> extends P c c' -> Q a c' -> Q' a c') ->
  builds P' c m Q'.
Proof.
  intros (a & c1 & E1 & H1 & X1 & Q1) HP HQ. exists a, c1. split_and!; eauto using extends_weaken.
Qed.

Lemma builds_post {A} P c (m : build A) (Q Q' : A -> Compiler -> Prop) :
  builds P c m Q -> (forall a c', cc_ok c' -> extends P c c' -> Q a c' -> Q' a c') -> builds P c m Q'.
Proof. intros H HQ. by eapply builds_weaken. Qed.

(** A step that only needs the wires it allocates. *)
Lemma builds_local {A} P c (m : build A) Q : (forall o, is_fresh c o -> P o) ->
  builds (is_fresh c) c m Q -> builds P c m (fun a c' => extends (is_fresh c) c c' /\ Q a c').
Proof. intros HP H. eapply builds_weaken; [exact H|done|done]. Qed.

(** ** Primitive steps *)

(** A step may drive any wire it allocates. *)
Definition covers (P : Z -> Prop) (c : Compiler) : Prop := forall o, is_fresh c o -> P o.
Lemma covers_mono P Q c c' : extends Q c c' -> covers P c -> covers P c'.
Proof. intros X H o Ho. apply H. by eapply fresh_mono. Qed.

Lemma const_ok_ext P c c' w f : extends P c c' -> const_ok c w f -> const_ok c' w f.
Proof.
  intros X H w' Hw. destruct (H w' Hw) as [Hk Hv]. split; [by eapply known_mono|].
  intros env i0 Hi Hs. apply Hv; [|by eapply sat_mono]. destruct X as [_ _ (E & _)]. by rewrite <- E.
Qed.

Lemma ordered_snoc seen gs g : ordered seen (gs ++ [g]) <->
  ordered seen gs /\ g_a g ∈ seen ++ (g_o <$> gs) /\ (g_op g = OInv \/ g_b g ∈ seen ++ (g_o <$> gs))
  /\ (g_o g ∉ seen ++ (g_o <$> gs)).
Proof.
  revert seen. induction gs as [|h gs IH]; intros seen; cbn [ordered app fmap list_fmap].
  - rewrite app_nil_r. tauto.
  - rewrite IH. rewrite <- !app_assoc. cbn. tauto.
Qed.

Lemma builds_wire P c : cc_ok c -> builds P c wire (fun w c' => undriven c' w /\ is_fresh c w /\ cc_gates c' = cc_gates c).
Proof.
  intros Hc. set (c' := with_wires c (wires c ++ [Wire_new])).
  assert (extends P c c') as X.
  { split; [exists []; by rewrite app_nil_r|cbn; rewrite length_app; lia|done]. }
  exists (Z.of_nat (length (wires c))), c'. split_and!; [done| |done| | |done].
  - destruct Hc as [H1 H2 H3 H4 [H5 H5'] H6 H7 H8].
    split; [done| | |done| |by eapply const_ok_ext..].
    + eapply Forall_impl; [exact H2|]. intros w. by eapply in_range_mono.
    + eapply Forall_impl; [exact H3|]. intros g [? ?]. split; [by eapply in_range_mono|done].
    + split; [|done]. cbn. apply Forall_app. split; [done|]. by repeat constructor.
  - split; [unfold in_range; cbn; rewrite length_app; cbn; lia|].
    intros Hk. apply (known_in_range c) in Hk; [|done]. unfold in_range in Hk. lia.
  - unfold is_fresh. lia.
Qed.

Lemma builds_gate P c o a b out : cc_ok c -> a ∈ known c -> (o = OInv /\ in_range c b) \/ b ∈ known c ->
  undriven c out -> P out ->
  builds P c (gate o a b out) (fun _ c' => out ∈ known c' /\
    forall env, sat env c' -> env out = apply_op o (env a) (env b)).
Proof.
  intros Hc Ha Hb [Ho Hk] HP. set (g := Gate_new o a b out). set (c' := with_gates c (cc_gates c ++ [g])).
  assert (extends P c c') as X.
  { split; [exists [g]; split; [done|by repeat constructor]|done|done]. }
  assert (known c' = known c ++ [out]) as Kn by (unfold known; cbn; by rewrite fmap_app, app_assoc).
  exists (), c'. split_and!; [done| |done| |].
  - destruct Hc as [H1 H2 H3 H4 H5 H6 H7 H8]. split; [done| | | |done|by eapply const_ok_ext..].
    + rewrite Kn. apply Forall_app. split; [done|]. constructor; [done|constructor].
    + cbn. apply Forall_app. split; [done|]. constructor; [|constructor]. split; [|done].
      destruct Hb as [[_ Hb]|Hb]; [done|]. rewrite Forall_forall in H2. by apply H2.
    + cbn. apply ordered_snoc. split_and!; [done|done| |done]. destruct Hb as [[-> _]|Hb]; [by left|by right].
  - rewrite Kn. set_solver.
  - intros env Hs. unfold sat in Hs. cbn in Hs. apply Forall_app in Hs as [_ Hs]. by apply Forall_inv in Hs.
Qed.

(** Recording facts that do not touch gates or wires. *)
Lemma builds_keep P c w f (Q : Z -> Compiler -> Prop) : cc_ok (f c) -> extends P c (f c) -> Q w (f c) ->
  builds P c (keep w f) Q.
Proof. intros. exists w, (f c). done. Qed.

Lemma builds_get P c : cc_ok c -> builds P c get (fun a c' => a = c /\ c' = c).
Proof. intros. exists c, c. split_and!; [done..|apply extends_refl|done|done]. Qed.

Lemma builds_first_input P c c0 : cc_ok c -> input_wires c0 = input_wires c ->
  builds P c (lift (index (input_wires c0) 0)) (fun i c' => c' = c /\ head (input_wires c) = Some i).
Proof.
  intros Hc E. rewrite E. destruct (input_wires c) as [|i l] eqn:Hi; [by destruct (ok_inputs c Hc)|].
  exists i, c. split_and!; [|done|apply extends_refl|done|done]. unfold lift, index. cbn [length lookup].
  by destruct (Z.ltb_spec 0 (Z.of_nat (S (length l)))); [|lia].
Qed.

Lemma first_input_known c i : head (input_wires c) = Some i -> i ∈ known c.
Proof. unfold known. destruct (input_wires c); [done|]. intros [= ->]. set_solver. Qed.

(** ** Constant wires *)

(** The facts about a constant wire in the state that records it. *)
Definition holds_const (f : bool -> bool) (w : Z) (c : Compiler) : Prop :=
  w ∈ known c /\ forall env i0, head (input_wires c) = Some i0 -> sat env c -> env w = f (env i0).

Lemma with_consts_ok c i z o : cc_ok c -> const_ok c i negb -> const_ok c z (fun _ => false) ->
  const_ok c o (fun _ => true) -> cc_ok (with_consts c i z o).
Proof. intros [H1 H2 H3 H4 H5 H6 H7 H8] Hi Hz Ho. by split. Qed.
Lemma with_consts_ext P c i z o : extends P c (with_consts c i z o).
Proof. split; [exists []; by rewrite app_nil_r|done|done]. Qed.
Lemma const_some c w f : holds_const f w c -> const_ok c (Some w) f.
Proof. intros H w' [= <-]. exact H. Qed.

Lemma builds_inv_i0 P c : cc_ok c -> covers P c -> builds P c inv_i0_wire (holds_const negb).
Proof.
  intros Hc HP. unfold inv_i0_wire. eapply builds_bind; [by apply builds_get|].
  intros ? ? _ _ [-> ->]. destruct (inv_i0 c) as [w|] eqn:E.
  { apply builds_ret; [done|]. apply (ok_inv c Hc w E). }
  eapply builds_bind; [by apply builds_wire|]. intros w c1 Hc1 X1 (Hu & Hf & _).
  eapply builds_bind; [apply builds_first_input; [done|]; symmetry; apply X1|]. intros i0 c2 _ _ [-> Hi].
  assert (in_range c1 0) as H0 by (destruct Hu as [Hr _]; unfold in_range in *; lia).
  eapply builds_bind.
  { apply builds_gate; [done|by apply first_input_known|by left|done|by apply HP]. }
  intros _ c2 Hc2 X2 [Hk Hv].
  assert (holds_const negb w c2) as Hw.
  { split; [done|]. intros env j Hj Hs. rewrite (Hv env Hs).
    destruct X2 as [_ _ (Ei & _)]. rewrite Ei, Hi in Hj. by injection Hj as <-. }
  apply builds_keep; [|apply with_consts_ext|done].
  by apply with_consts_ok; [done|apply const_some|apply Hc2|apply Hc2].
Qed.

Lemma alter_value_ok P c w v : cc_ok c -> in_range c w ->
  builds P c (alter_wire w (fun x => set_value x v)) (fun _ c' => cc_gates c' = cc_gates c /\ input_wires c' = input_wires c).
Proof.
  intros Hc [Hw1 Hw2]. unfold alter_wire. unfold builds, index.
  destruct (Z.leb_spec 0 w), (Z.ltb_spec w (Z.of_nat (length (wires c)))); try lia. cbn [andb].
  destruct (lookup_lt_is_Some_2 (wires c) (Z.to_nat w) ltac:(lia)) as [x Hx]. rewrite Hx.
  set (ws := <[Z.to_nat w := set_value x v]> (wires c)).
  assert (length ws = length (wires c)) as Hl by apply length_insert.
  assert (extends P c (with_wires c ws)) as X.
  { split; [exists []; by rewrite app_nil_r|cbn; by rewrite Hl|done]. }
  exists (), (with_wires c ws). split_and!; [done| |done|done|done].
  destruct Hc as [H1 H2 H3 H4 [H5 H5'] H6 H7 H8]. split; [done| | |done| |by eapply const_ok_ext..].
  - eapply Forall_impl; [exact H2|]. intros y. by eapply in_range_mono.
  - eapply Forall_impl; [exact H3|]. intros g [? ?]. split; [by eapply in_range_mono|done].
  - split; [|done]. apply Forall_insert; [done|]. cbn. rewrite Forall_lookup in H5. by apply (H5 (Z.to_nat w)).
Qed.

(** Both constants are one gate on [i0] and its inverse, then recorded. *)
Lemma builds_const_gate P c o v f w i0 (k : build Z) Q : cc_ok c -> covers P c -> undriven c w -> P w ->
  (forall x, apply_op o x (negb x) = f) -> head (input_wires c) = Some i0 ->
  (forall c', cc_ok c' -> extends P c c' -> holds_const (fun _ => f) w c' -> builds P c' k Q) ->
  builds P c (inv ← inv_i0_wire; _ ← gate o i0 inv w; _ ← alter_wire w (fun x => set_value x v); k) Q.
Proof.
  intros Hc HP Hu HPw Hf Hi Hk. eapply builds_bind.
  { apply builds_local, builds_inv_i0; [done|done|by intros ?]. }
  intros iw c1 Hc1 X1 [X1' [Hk1 Hv1]].
  assert (input_wires c1 = input_wires c) as Ei by apply X1.
  assert (undriven c1 w) as Hu1.
  { eapply undriven_mono; [exact X1'|done|]. intros Hw. eapply fresh_not_in_range; [done|]. apply Hu. }
  eapply builds_bind.
  { apply builds_gate; [done| |by right|done|done]. apply first_input_known. by rewrite Ei. }
  intros _ c2 Hc2 X2 [Hk2 Hv2].
  eapply builds_bind; [apply alter_value_ok; [done|by apply known_in_range]|].
  intros _ c3 Hc3 X3 _. apply Hk; [done|by do 2 (eapply extends_trans; [done|])|].
  split; [by eapply known_mono|]. intros env j Hj Hs.
  assert (sat env c2) as Hs2 by by eapply sat_mono.
  rewrite (Hv2 env Hs2), (Hv1 env i0); [apply Hf|by rewrite Ei|by eapply sat_mono].
Qed.

(** A constant wire does not depend on the input it is made from. *)
Definition is_const (b : bool) (w : Z) (c : Compiler) : Prop :=
  w ∈ known c /\ forall env, sat env c -> env w = b.

Lemma holds_is_const b w c : cc_ok c -> holds_const (fun _ => b) w c -> is_const b w c.
Proof.
  intros Hc [Hk Hv]. split; [done|]. intros env Hs.
  destruct (input_wires c) as [|i l] eqn:E; [by destruct (ok_inputs c Hc)|]. by apply (Hv env i).
Qed.

Lemma builds_zero P c : cc_ok c -> covers P c -> builds P c zero_wire (is_const false).
Proof.
  intros Hc HP. unfold zero_wire. eapply builds_bind; [by apply builds_get|]. intros ? ? _ _ [-> ->].
  destruct (zero c) as [w|] eqn:E.
  { apply builds_ret; [done|]. apply holds_is_const; [done|]. apply (ok_zero c Hc w E). }
  eapply builds_bind; [by apply builds_wire|]. intros w c1 Hc1 X1 (Hu & Hf & _).
  eapply builds_bind; [apply builds_first_input; [done|]; symmetry; apply X1|]. intros i0 c2 _ _ [-> Hi].
  apply builds_const_gate with (f := false); [done|by eapply covers_mono|done|by apply HP|by intros []|done|].
  intros c2 Hc2 X2 Hw. apply builds_keep; [|apply with_consts_ext|exact (holds_is_const _ _ _ Hc2 Hw)].
  by apply with_consts_ok; [done|apply Hc2|apply const_some|apply Hc2].
Qed.

Lemma builds_one P c : cc_ok c -> covers P c -> builds P c one_wire (is_const true).
Proof.
  intros Hc HP. unfold one_wire. eapply builds_bind; [by apply builds_get|]. intros ? ? _ _ [-> ->].
  destruct (one c) as [w|] eqn:E.
  { apply builds_ret; [done|]. apply holds_is_const; [done|]. apply (ok_one c Hc w E). }
  eapply builds_bind; [by apply builds_wire|]. intros w c1 Hc1 X1 (Hu & Hf & _).
  eapply builds_bind; [apply builds_first_input; [done|]; symmetry; apply X1|]. intros i0 c2 _ _ [-> Hi].
  apply builds_const_gate with (f := true); [done|by eapply covers_mono|done|by apply HP|by intros []|done|].
  intros c2 Hc2 X2 Hw. apply builds_keep; [|apply with_consts_ext|exact (holds_is_const _ _ _ Hc2 Hw)].
  by apply with_consts_ok; [done|apply Hc2|apply Hc2|apply const_some].
Qed.

(** ** Calls and result slots *)

Create HintDb circ.
#[export] Hint Resolve known_mono known_mono_all sat_mono in_range_mono covers_mono known_in_range : circ.

(** The wires an operation with results [res] may drive. *)
Definition drives (res : list Z) (c : Compiler) (o : Z) : Prop := o ∈ res \/ is_fresh c o.

(** What stays undriven over a call. *)
Definition spares (res : list Z) (c c' : Compiler) : Prop :=
  forall x, undriven c x -> x ∉ res -> undriven c' x.

Lemma builds_call {A} P c res (m : build A) Q : (forall o, o ∈ res -> P o) -> covers P c ->
  builds (drives res c) c m Q -> builds P c m (fun a c' => spares res c c' /\ Q a c').
Proof.
  intros HP HC H. eapply builds_weaken; [exact H|by intros o [?|?]; auto|]. intros a c' _ X HQ. split; [|done].
  intros x Hx Hn. eapply undriven_mono; [exact X|done|]. intros [?|Hf]; [done|].
  by eapply fresh_not_in_range; [exact Hf|apply Hx].
Qed.

Lemma covers_drives res c : covers (drives res c) c.
Proof. intros o Ho. by right. Qed.
#[export] Hint Resolve covers_drives : circ.

(** A slice of result wires: distinct, undriven, or asking for a fresh wire. *)
Fixpoint slots (c : Compiler) (res : list Z) : Prop :=
  match res with
  | [] => True
  | r :: res => (r = usize_max \/ (undriven c r /\ r ∉ res)) /\ slots c res
  end.

Lemma slots_elem c res x : slots c res -> x ∈ res -> x <> usize_max -> undriven c x.
Proof.
  induction res as [|r res IH]; [by intros _ ?%elem_of_nil|]. intros [Hr Hs] [->|Hx]%elem_of_cons Hm; [|auto].
  by destruct Hr as [?|[? _]].
Qed.

Lemma slots_spared c c' res (D : Z -> Prop) : slots c res -> (forall x, undriven c x -> ~ D x -> undriven c' x) ->
  (forall x, x ∈ res -> x <> usize_max -> undriven c x -> ~ D x) -> slots c' res.
Proof.
  intros Hres Hs. induction res as [|r res IH]; [done|]. destruct Hres as [Hr Hres]. intros HD. split.
  - destruct (decide (r = usize_max)); [by left|]. destruct Hr as [->|[Hu Hn]]; [done|right]. split; [|done].
    apply Hs; [done|]. apply HD; [apply list_elem_of_here|done|done].
  - apply IH; [done|]. intros x Hx. apply HD. by apply list_elem_of_further.
Qed.

Lemma builds_slot P c r res : cc_ok c -> slots c (r :: res) ->
  builds P c (slot_wire r) (fun r' c' => undriven c' r' /\ (r = usize_max \/ r' = r) /\ ((r' = r /\ r <> usize_max) \/ is_fresh c r')
    /\ (forall x, undriven c x -> undriven c' x)
    /\ (forall x, x ∈ res -> x <> usize_max -> x <> r') /\ slots c' res).
Proof.
  intros Hc [Hr Hres]. unfold slot_wire. destruct (Z.eqb_spec r usize_max) as [E|E].
  - eapply builds_post; [by apply builds_wire|]. intros w c' Hc' X (Hu & Hf & Hg).
    assert (forall x, undriven c x -> undriven c' x) as Hall.
    { intros x [Hx Hk]. split; [eauto with circ|]. unfold known in *. rewrite Hg. destruct X as [_ _ (-> & _)]. done. }
    split_and!; [done|by left|by right|done| |].
    + intros x Hx Hm ->. eapply fresh_not_in_range; [done|]. by apply (slots_elem c res).
    + apply (slots_spared c c' res (fun _ => False)); [done| |by intros ? _ _ _ []]. intros x Hx _. by apply Hall.
  - destruct Hr as [?|[Hu Hn]]; [done|]. apply builds_ret; [done|].
    split_and!; [done|by right|by left|done| |done]. by intros x Hx _ ->.
Qed.

(** ** Step lemmas and their automation *)

Lemma step_wire {B} P c (f : Z -> build B) R : cc_ok c -> covers P c ->
  (forall w c', cc_ok c' -> extends P c c' -> covers P c' -> P w -> undriven c' w ->
     (forall x, undriven c x -> undriven c' x /\ x <> w) -> builds P c' (f w) R) ->
  builds P c (wire ≫= f) R.
Proof.
  intros Hc HP Hf. eapply builds_bind; [by apply builds_wire|]. intros w c' Hc' X (Hu & Hw & Hg).
  apply Hf; [done|done|by eapply covers_mono|by apply HP|done|]. intros x [Hx Hk]. split.
  - split; [eauto with circ|]. unfold known in *. rewrite Hg. destruct X as [_ _ (-> & _)]. done.
  - intros ->. by eapply fresh_not_in_range.
Qed.

Lemma step_gate {B} P c o a b out (f : unit -> build B) R : cc_ok c -> covers P c ->
  a ∈ known c -> b ∈ known c -> undriven c out -> P out ->
  (forall c', cc_ok c' -> extends P c c' -> covers P c' -> out ∈ known c' ->
     (forall env, sat env c' -> env out = apply_op o (env a) (env b)) ->
     (forall x, undriven c x -> x <> out -> undriven c' x) -> builds P c' (f ()) R) ->
  builds P c (gate o a b out ≫= f) R.
Proof.
  intros Hc HP Ha Hb Ho HPo Hf. eapply builds_bind.
  { apply (builds_call P c [out]), builds_gate; [set_solver|done|done|done|by right|done|left; set_solver]. }
  intros [] c' Hc' X (Hs & Hk & Hv). apply Hf; [done|done|by eapply covers_mono|done|done|].
  intros x Hx Hne. apply Hs; [done|set_solver].
Qed.

(** A call of an operation with results [res]. *)
Lemma step_call {A B} P c res (m : build A) (f : A -> build B) Q R : cc_ok c -> covers P c ->
  (forall o, o ∈ res -> P o) -> builds (drives res c) c m Q ->
  (forall a c', cc_ok c' -> extends P c c' -> covers P c' -> Q a c' -> spares res c c' -> builds P c' (f a) R) ->
  builds P c (m ≫= f) R.
Proof.
  intros Hc HP Hr Hm Hf. eapply builds_bind; [by apply builds_call|]. intros a c' Hc' X [Hs HQ].
  apply Hf; [done|done|by eapply covers_mono|done|done].
Qed.

(** A gate on a wire of its own. *)
Lemma step_new_gate {B} P c o a b (k : Z -> build B) R : cc_ok c -> covers P c -> a ∈ known c -> b ∈ known c ->
  (forall w c', cc_ok c' -> extends P c c' -> covers P c' -> w ∈ known c' ->
     (forall env, sat env c' -> env w = apply_op o (env a) (env b)) -> spares [] c c' -> builds P c' (k w) R) ->
  builds P c (w ← wire; _ ← gate o a b w; k w) R.
Proof.
  intros Hc HP Ha Hb Hk. apply step_wire; [done|done|]. intros w c1 Hc1 X1 HP1 Pw Uw H1.
  apply step_gate; [done|done|by eapply known_mono|by eapply known_mono|done|done|].
  intros c2 Hc2 X2 HP2 K2 V2 H2. apply Hk; [done|by eapply extends_trans|done|done|done|].
  intros x Hx _. destruct (H1 x Hx) as [Hx1 Hne]. by apply H2.
Qed.

(** Slots stay slots over steps that drive only wires of their own. *)
Lemma slots_spares c c' res : spares [] c c' -> slots c res -> slots c' res.
Proof.
  intros S Hs. apply (slots_spared c c' res (fun _ => False)); [done| |by intros ? _ _ _ []].
  intros z Hz _. apply S; [done|apply not_elem_of_nil].
Qed.

(** A gate on a result slot. *)
Lemma step_slot_gate {B} P c o a b r res (k : Z -> build B) R : cc_ok c -> covers P c -> a ∈ known c -> b ∈ known c ->
  slots c (r :: res) -> (r <> usize_max -> P r) ->
  (forall r' c', cc_ok c' -> extends P c c' -> covers P c' -> r' ∈ known c' -> (r = usize_max \/ r' = r) ->
     (forall env, sat env c' -> env r' = apply_op o (env a) (env b)) -> slots c' res -> builds P c' (k r') R) ->
  builds P c (r' ← slot_wire r; _ ← gate o a b r'; k r') R.
Proof.
  intros Hc HP Ha Hb Hs HPr Hk. eapply builds_bind; [by apply builds_slot|].
  intros r' c1 Hc1 X1 (Hu & Hsame & Hr' & Hall & Hne & Hs1).
  apply step_gate; [done|by eapply covers_mono|by eapply known_mono|by eapply known_mono|done| |].
  { destruct Hr' as [[-> Hm]|Hf]; auto. }
  intros c2 Hc2 X2 HP2 K2 V2 H2. apply Hk; [done|by eapply extends_trans|done|done|done|done|].
  apply (slots_spared c1 c2 res (fun x => x = r')); [done|done|]. intros x Hx Hm _. by apply Hne.
Qed.

Lemma builds_unret {A} P c (m : build A) Q : builds P c (m ≫= mret) Q -> builds P c m Q.
Proof.
  intros (a & c' & E & H). exists a, c'. split; [|done]. revert E. unfold mbind, build_bind.
  destruct (m c) as [[b c1]| |]; [|done|done]. by intros [= <- <-].
Qed.

Ltac in_list := solve [repeat first [apply list_elem_of_here | apply list_elem_of_further]].

(** Facts of an earlier state hold in a later one; a later assignment satisfies
    the earlier gates. *)
Ltac up :=
  first
    [ assumption
    | match goal with
      | X : extends ?P ?c ?c' |- _ ∈ known ?c' => refine (known_mono P c c' _ X _); solve [up]
      | X : extends ?P ?c ?c' |- Forall (fun w => w ∈ known ?c') _ => refine (known_mono_all P c c' _ X _); solve [up]
      | X : extends ?P ?c ?c' |- in_range ?c' _ => refine (in_range_mono P c c' _ X _); solve [up]
      | X : extends ?P ?c ?c' |- sat _ ?c => refine (sat_mono P c c' _ X _); solve [up]
      | |- covers (drives _ ?c) ?c => apply covers_drives
      | X : extends ?P ?c ?c' |- covers _ ?c' => refine (covers_mono _ P c c' X _); solve [up]
      | |- drives _ _ _ => first [left; in_list | right; assumption]
      end ].

(** Carry the facts about undriven wires over a step: [carry_wire] over an
    allocation, [carry_gate] over a gate (the wire it drives is dropped). *)
Ltac carry_wire H :=
  repeat match goal with
  | U : undriven _ ?x |- _ =>
      let U' := fresh "Und" in let N := fresh "Neq" in destruct (H x U) as [U' N]; clear U
  end; clear H.
Ltac diseq := first [assumption | apply not_eq_sym; assumption].
Ltac carry_gate H :=
  repeat match goal with
  | U : undriven _ ?x |- _ =>
      let U' := fresh "Und" in pose proof (H x U ltac:(diseq)) as U'; clear U
  end; clear H.
