(* ===== verification/CircuitArith.v ===== *)
(** * The arithmetic circuits compute

    For every satisfying assignment of the gates built, the result wires of an
    adder, subtractor, multiplexer or multiplier hold the sum, difference,
    choice or product of the operand wires, for every width and for every way
    the operands, results and other gates are laid out. *)

From S2P Require Import Prelude Bytes QclTypes Circuit CircuitBuild CircuitLogic.

(** ** Full adders *)

Lemma builds_full_adder c a b cin sum carry : cc_ok c -> a ∈ known c -> b ∈ known c -> cin ∈ known c ->
  undriven c sum -> undriven c carry -> sum <> carry ->
  builds (drives [sum; carry] c) c (new_full_adder a b cin sum carry) (fun _ c' =>
    sum ∈ known c' /\ carry ∈ known c' /\
    forall env, sat env c' ->
      Z.b2z (env sum) + 2 * Z.b2z (env carry) = Z.b2z (env a) + Z.b2z (env b) + Z.b2z (env cin)).
Proof.
  intros Hc Ha Hb Hcin Hs Hca Hne. unfold new_full_adder. pose proof (covers_drives [sum; carry] c) as HP.
  apply step_wire; [done|done|]. intros w1 c1 Hc1 X1 HP1 P1 U1 H1. carry_wire H1.
  apply step_wire; [done|done|]. intros w2 c2 Hc2 X2 HP2 P2 U2 H2. carry_wire H2.
  apply step_wire; [done|done|]. intros w3 c3 Hc3 X3 HP3 P3 U3 H3. carry_wire H3.
  apply step_gate; [done|done|up|up|done|done|]. intros c4 Hc4 X4 HP4 K4 V4 H4. carry_gate H4.
  apply step_gate; [done|done|up|up|done|up|]. intros c5 Hc5 X5 HP5 K5 V5 H5. carry_gate H5.
  apply step_gate; [done|done|up|up|done|done|]. intros c6 Hc6 X6 HP6 K6 V6 H6. carry_gate H6.
  apply step_gate; [done|done|up|up|done|done|]. intros c7 Hc7 X7 HP7 K7 V7 H7. carry_gate H7.
  eapply builds_post; [apply builds_gate; [done|up|right; up|done|up]|].
  intros _ c8 Hc8 X8 [K8 V8]. split_and!; [up|done|]. intros env Hs.
  rewrite (V8 env), (V7 env), (V6 env), (V5 env), (V4 env) by up. cbn [apply_op].
  by destruct (env a), (env b), (env cin).
Qed.

Lemma builds_half_adder c a b sum carry : cc_ok c -> a ∈ known c -> b ∈ known c ->
  undriven c sum -> undriven c carry -> sum <> carry ->
  builds (drives [sum; carry] c) c (new_half_adder a b sum carry) (fun _ c' =>
    sum ∈ known c' /\ carry ∈ known c' /\
    forall env, sat env c' -> Z.b2z (env sum) + 2 * Z.b2z (env carry) = Z.b2z (env a) + Z.b2z (env b)).
Proof.
  intros Hc Ha Hb Hs Hca Hne. unfold new_half_adder. pose proof (covers_drives [sum; carry] c) as HP.
  apply step_gate; [done|done|up|up|done|up|]. intros c1 Hc1 X1 HP1 K1 V1 H1. carry_gate H1.
  eapply builds_post; [apply builds_gate; [done|up|right; up|done|up]|].
  intros _ c2 Hc2 X2 [K2 V2]. split_and!; [up|done|]. intros env Hsat.
  rewrite (V2 env), (V1 env) by up. cbn [apply_op]. by destruct (env a), (env b).
Qed.

(** ** Copies and inversions *)

Lemma builds_id c i o : cc_ok c -> i ∈ known c -> undriven c o ->
  builds (drives [o] c) c (id_gate i o) (fun _ c' => o ∈ known c' /\ forall env, sat env c' -> env o = env i).
Proof.
  intros Hc Hi Ho. unfold id_gate.
  apply (step_call _ c []) with (Q := is_const false); [done|up|set_solver|by apply builds_zero; [|up]|].
  intros z c1 Hc1 X1 HP1 [Kz Vz] S1.
  eapply builds_post; [apply builds_gate; [done|up|right; up|apply S1; [done|set_solver]|up]|].
  intros _ c2 Hc2 X2 [K2 V2]. split; [done|]. intros env Hs. rewrite (V2 env), (Vz env) by up.
  apply xorb_false_r.
Qed.

Lemma builds_inv c i o : cc_ok c -> i ∈ known c -> undriven c o ->
  builds (drives [o] c) c (inv i o) (fun _ c' => o ∈ known c' /\ forall env, sat env c' -> env o = negb (env i)).
Proof.
  intros Hc Hi Ho. unfold inv.
  apply (step_call _ c []) with (Q := is_const true); [done|up|set_solver|by apply builds_one; [|up]|].
  intros z c1 Hc1 X1 HP1 [Kz Vz] S1.
  eapply builds_post; [apply builds_gate; [done|up|right; up|apply S1; [done|set_solver]|up]|].
  intros _ c2 Hc2 X2 [K2 V2]. split; [done|]. intros env Hs. rewrite (V2 env), (Vz env) by up.
  apply xorb_true_r.
Qed.

(** ** Padding *)

Lemma pad_length z n x : (length x <= n)%nat -> length (pad z n x) = n.
Proof. intros. unfold pad. rewrite length_app, length_replicate. lia. Qed.
Lemma pad_val env z n x : env z = false -> bits_val env (pad z n x) = bits_val env x.
Proof. intros Hz. unfold pad. rewrite wires_val_app, (bits_val_zeros _ _ _ Hz). lia. Qed.
Lemma pad_known c z n x : z ∈ known c -> Forall (fun w => w ∈ known c) x -> Forall (fun w => w ∈ known c) (pad z n x).
Proof. intros. apply Forall_app. split; [done|]. by apply Forall_replicate. Qed.

Lemma builds_zero_pad c x y : cc_ok c -> Forall (fun w => w ∈ known c) x -> Forall (fun w => w ∈ known c) y ->
  builds (drives [] c) c (zero_pad x y) (fun xy c' =>
    length xy.1 = Nat.max (length x) (length y) /\ length xy.2 = Nat.max (length x) (length y)
    /\ Forall (fun w => w ∈ known c') xy.1 /\ Forall (fun w => w ∈ known c') xy.2
    /\ forall env, sat env c' -> bits_val env xy.1 = bits_val env x /\ bits_val env xy.2 = bits_val env y).
Proof.
  intros Hc Hx Hy. unfold zero_pad. case_decide as E.
  { apply builds_ret; [done|]. cbn. split_and!; [lia|lia|done|done|done]. }
  apply (step_call _ c []) with (Q := is_const false); [done|up|set_solver|by apply builds_zero; [|up]|].
  intros z c1 Hc1 X1 HP1 [Kz Vz] S1. apply builds_ret; [done|]. cbn [fst snd].
  rewrite !pad_length by lia. split_and!; [done|done|by apply pad_known; [|up]..|].
  intros env Hs. rewrite !pad_val by auto. done.
Qed.

(** ** Ripple-carry addition *)

(** A result wire is the one given, unless a fresh one was asked for. *)
Definition same_slot (r r' : Z) : Prop := r = usize_max \/ r' = r.

(** One position of a ripple adder: a carry wire, a result wire, a full adder. *)
Lemma step_position {B} c x y r res carry (k : Z -> Z -> build B) P R :
  cc_ok c -> covers P c -> x ∈ known c -> y ∈ known c -> carry ∈ known c -> slots c (r :: res) ->
  (forall o, o ∈ r :: res -> o <> usize_max -> P o) ->
  (forall co r' c', cc_ok c' -> extends P c c' -> covers P c' -> co ∈ known c' -> r' ∈ known c' -> same_slot r r' ->
     slots c' res ->
     (forall env, sat env c' -> Z.b2z (env r') + 2 * Z.b2z (env co) = Z.b2z (env x) + Z.b2z (env y) + Z.b2z (env carry)) ->
     builds P c' (k co r') R) ->
  builds P c (new_carry ← wire; r' ← slot_wire r; _ ← new_full_adder x y carry r' new_carry; k new_carry r') R.
Proof.
  intros Hc HP Hx Hy Hca Hsl HPr Hk. apply step_wire; [done|done|]. intros co c1 Hc1 X1 HP1 Pco Uco H1.
  assert (slots c1 (r :: res)) as Hsl1.
  { eapply (slots_spared c c1 _ (fun _ => False)); [done| |by intros ? _ _ _ []]. intros z Hz _. by apply H1. }
  eapply builds_bind; [by apply builds_slot|]. intros r' c2 Hc2 X2 (Hu & Hsame & Hr' & Hall & Hne & Hsl2).
  assert (r' <> co) as Hrc.
  { destruct Hr' as [[-> Hm]|Hf]; [|intros ->; eapply fresh_not_in_range; [done|apply Uco]].
    apply H1. apply (slots_elem c (r :: res)); [done|apply list_elem_of_here|done]. }
  assert (P r') as HPr'.
  { destruct Hr' as [[-> Hm]|Hf]; [apply HPr; [apply list_elem_of_here|done]|by apply HP1]. }
  eapply (step_call P c2 [r'; co]); [done|up| |apply builds_full_adder; [done|up|up|up|done|by apply Hall|done]|].
  { intros o Ho. rewrite !elem_of_cons, elem_of_nil in Ho. by destruct Ho as [->|[->|[]]]. }
  intros [] c3 Hc3 X3 HP3 (K1 & K2 & V) S3. apply Hk; [done| |done|done|done|done| |].
  - by do 2 (eapply extends_trans; [done|]).
  - apply (slots_spared c2 c3 res (fun x => x = r' \/ x = co)); [done| |].
    + intros z Hz Hn. apply S3; [done|]. rewrite !elem_of_cons, elem_of_nil. tauto.
    + intros z Hz Hm _ [-> | ->]; [by apply (Hne r')|]. destruct (H1 co) as [_ Hcc]; [|done].
      apply (slots_elem c (r :: res)); [done|by apply list_elem_of_further|done].
  - intros env Hs. by apply V.
Qed.

Lemma builds_adder_loop xs ys c res carry : cc_ok c -> Forall (fun w => w ∈ known c) xs ->
  Forall (fun w => w ∈ known c) ys -> length xs = length ys -> (length xs <= length res)%nat ->
  carry ∈ known c -> slots c res ->
  builds (drives res c) c (adder_loop (zip xs ys) res carry) (fun rc c' =>
    exists sum, rc.1 = sum ++ drop (length xs) res /\ Forall2 same_slot (take (length xs) res) sum
      /\ Forall (fun w => w ∈ known c') sum /\ rc.2 ∈ known c' /\ slots c' (drop (length xs) res)
      /\ forall env, sat env c' ->
           bits_val env sum + 2 ^ Z.of_nat (length xs) * Z.b2z (env rc.2)
           = bits_val env xs + bits_val env ys + Z.b2z (env carry)).
Proof.
  revert ys c res carry. induction xs as [|x xs IH]; intros [|y ys] c [|r res] carry Hc Hx Hy Hl Hr Hca Hs; try done.
  1-2: apply builds_ret; [done|]; exists []; split_and!; [done|done|done|done|done|];
    intros env _; change (bits_val env []) with 0; cbn [length fst snd]; lia.
  { cbn in Hr. lia. }
  apply Forall_cons in Hx as [Hx Hxs]. apply Forall_cons in Hy as [Hy Hys].
  cbn [zip zip_with adder_loop]. apply step_position with (res := res); [done|up|done|done|done|done|by left|].
  intros co r' c1 Hc1 X1 HP1 Kco Kr Hsame Hs1 V1.
  eapply (step_call _ c1 res); [done|done|by left; right| |].
  { apply (IH ys); [done|up|up|by injection Hl|cbn in Hr; lia|done|done]. }
  intros [res' c2'] c2 Hc2 X2 HP2 (sum & E & Hsm & Ks & Kc & Hs2 & V2) _. apply builds_ret; [done|].
  cbn [fst snd] in *. exists (r' :: sum). cbn [length drop take]. rewrite E. split_and!; [done|by constructor|..].
  - constructor; [up|done].
  - done.
  - done.
  - intros env Hsat. rewrite !bits_val_cons, Nat2Z.inj_succ, Z.pow_succ_r by lia.
    pose proof (V1 env ltac:(up)). pose proof (V2 env Hsat). lia.
Qed.

(** The wires past the sum: the carry position holds [v], the rest are zero.  The
    positions up to the carry keep their wires. *)
Lemma builds_finish c put n sum tl (v : (Z -> bool) -> bool) : cc_ok c -> n = length sum -> slots c tl ->
  Forall (fun w => w ∈ known c) sum ->
  (forall c' r P, cc_ok c' -> extends P c c' -> undriven c' r ->
     builds (drives [r] c') c' (put r) (fun _ c'' => r ∈ known c'' /\ forall env, sat env c'' -> env r = v env)) ->
  builds (drives tl c) c (finish_result put n (sum ++ tl)) (fun res c' =>
    length res = length (sum ++ tl) /\ Forall (fun w => w ∈ known c') res
    /\ take n res = sum /\ Forall2 same_slot (take 1 tl) (take 1 (drop n res))
    /\ forall env, sat env c' ->
         bits_val env res = bits_val env sum + 2 ^ Z.of_nat n * (if decide (tl = []) then 0 else Z.b2z (v env))).
Proof.
  intros Hc -> Hs Hk Hput. unfold finish_result. rewrite drop_app_length. destruct tl as [|r tl].
  - apply (step_call _ c []) with (Q := is_const false); [done|up|set_solver|by apply builds_zero; [|up]|].
    intros z c1 Hc1 X1 _ _ _. apply builds_ret; [done|]. rewrite app_nil_r, drop_all, take_ge by done.
    split_and!; [done|up|done|done|]. intros env _. rewrite decide_True by done. lia.
  - eapply builds_bind; [by apply builds_slot|]. intros r' c1 Hc1 X1 (Hu & Hsame & Hr' & Hall & Hne & Hs1).
    eapply (step_call _ c1 [r']); [done|up| |by eapply Hput|].
    { intros o ->%list_elem_of_singleton. destruct Hr' as [[-> _]|Hf]; [left; apply list_elem_of_here|by right]. }
    intros [] c2 Hc2 X2 HP2 [Kr Vr] _.
    apply (step_call _ c2 []) with (Q := is_const false); [done|up|set_solver|by apply builds_zero; [|up]|].
    intros z c3 Hc3 X3 _ [Kz Vz] _. apply builds_ret; [done|]. rewrite take_app_length, drop_app_length.
    split_and!.
    + rewrite !length_app. cbn. by rewrite length_replicate.
    + apply Forall_app; split; [up|]. constructor; [up|]. by apply Forall_replicate.
    + by rewrite take_app_length.
    + constructor; [exact Hsame|done].
    + intros env Hsat. rewrite wires_val_app, bits_val_cons, bits_val_zeros, (Vr env) by (auto; up).
      rewrite decide_False by done. lia.
Qed.

(** A number split into its low bits and a carry, reduced to the result width. *)
Lemma low_and_carry s co t (n L : nat) (tl : list Z) : length tl = (L - n)%nat -> (n <= L)%nat ->
  0 <= s < 2 ^ Z.of_nat n -> s + 2 ^ Z.of_nat n * Z.b2z co = t ->
  s + 2 ^ Z.of_nat n * (if decide (tl = []) then 0 else Z.b2z co) = t mod 2 ^ Z.of_nat L.
Proof.
  intros Hl HL Hs <-. case_decide as E.
  - subst tl. cbn in Hl. replace L with n by lia. rewrite (Z.mul_comm _ (Z.b2z co)), Z.mod_add, Z.mod_small by lia. lia.
  - assert (2 ^ Z.of_nat (S n) <= 2 ^ Z.of_nat L) as Hp.
    { apply Z.pow_le_mono_r; [lia|]. destruct tl; [done|]. cbn in Hl. lia. }
    rewrite Nat2Z.inj_succ, Z.pow_succ_r in Hp by lia.
    rewrite Z.mod_small; [done|]. destruct co; cbn [Z.b2z]; lia.
Qed.

(** The slots of the result, position by position, up to and including [n]. *)
Lemma slots_kept n (res res' sum : list Z) : Forall2 same_slot (take n res) sum -> take n res' = sum ->
  Forall2 same_slot (take 1 (drop n res)) (take 1 (drop n res')) ->
  Forall2 same_slot (take (S n) res) (take (S n) res').
Proof.
  intros H1 <- H2. rewrite <- (Nat.add_1_r n), <- !take_take_drop. by apply Forall2_app.
Qed.

(** The sum on [n] result wires. *)
Definition adds (x y res : list Z) (c : Compiler) : Prop :=
  forall env, sat env c -> bits_val env res = (bits_val env x + bits_val env y) mod 2 ^ Z.of_nat (length res).

Lemma builds_adder c x y res : cc_ok c -> Forall (fun w => w ∈ known c) x -> Forall (fun w => w ∈ known c) y ->
  (Nat.max (length x) (length y) <= length res)%nat -> slots c res ->
  builds (drives res c) c (new_adder x y res) (fun res' c' =>
    length res' = length res /\ Forall (fun w => w ∈ known c') res' /\ adds x y res' c'
    /\ let n := S (Nat.max (length x) (length y)) in Forall2 same_slot (take n res) (take n res')).
Proof.
  intros Hc Hx Hy Hl Hs. unfold new_adder.
  eapply (step_call _ c []); [done|up|set_solver|by apply builds_zero_pad|].
  intros [x1 y1] c1 Hc1 X1 HP1 (L1 & L2 & Kx & Ky & V1) S1. cbn [fst snd] in *.
  destruct (Nat.ltb_spec (length res) (length x1)); [lia|].
  apply (step_call _ c1 []) with (Q := is_const false); [done|up|set_solver|by apply builds_zero; [|up]|].
  intros z c2 Hc2 X2 HP2 [Kz Vz] S2.
  eapply (step_call _ c2 res); [done|up|by left|apply builds_adder_loop; [done|up|up|lia|lia|done|by eauto using slots_spares]|].
  intros [res2 co] c3 Hc3 X3 HP3 (sum & E & Hsm & Ks & Kc & Hs3 & V3) S3. cbn [fst snd] in *. subst res2.
  set (n := length x1) in *. assert (length sum = n) as Ls.
  { apply Forall2_length in Hsm. rewrite length_take in Hsm. lia. }
  eapply builds_weaken.
  { apply (builds_finish c3 (id_gate co) n sum (drop n res) (fun env => env co)); [done|done|done|done|].
    intros c' r P Hc' X Hu. by apply builds_id; [|up|]. }
  { intros o [Ho|Ho]; [left|by right; repeat (eapply fresh_mono; [done|])].
    apply list_elem_of_lookup in Ho as [i Hi]. rewrite lookup_drop in Hi. by eapply list_elem_of_lookup_2. }
  intros res' c4 Hc4 X4 (L4 & K4 & T4 & Sm4 & V4).
  assert (length (sum ++ drop n res) = length res) as Lr by (rewrite length_app, length_drop; lia).
  split_and!; [lia|done| |].
  - intros env Hsat. rewrite (V4 env Hsat).
    pose proof (V3 env ltac:(up)) as E3. destruct (V1 env ltac:(up)) as [Ex Ey]. rewrite (Vz env) in E3 by up.
    rewrite Ex, Ey, Z.add_0_r in E3. pose proof (wires_val_range env sum) as R. rewrite Ls in R.
    rewrite L4, Lr.
    apply low_and_carry; [rewrite length_drop; lia|lia|done|done].
  - rewrite <- L1. by eapply slots_kept.
Qed.

(** ** Subtraction *)

(** The value of inverted wires is the complement. *)
Lemma builds_invert_all ys c : cc_ok c -> Forall (fun w => w ∈ known c) ys ->
  builds (drives [] c) c (invert_all ys) (fun ws c' =>
    length ws = length ys /\ Forall (fun w => w ∈ known c') ws /\
    forall env, sat env c' -> bits_val env ws = 2 ^ Z.of_nat (length ys) - 1 - bits_val env ys).
Proof.
  revert c. induction ys as [|y ys IH]; intros c Hc Hy; [by apply builds_ret|].
  apply Forall_cons in Hy as [Hy Hys]. cbn [invert_all]. pose proof (covers_drives [] c) as HP.
  apply step_wire; [done|done|]. intros w c1 Hc1 X1 HP1 Pw Uw _.
  eapply (step_call _ c1 [w]); [done|up|by intros o ->%list_elem_of_singleton|apply builds_inv; [done|up|done]|].
  intros [] c2 Hc2 X2 HP2 [Kw Vw] _.
  eapply (step_call _ c2 []); [done|up|set_solver|apply IH; [done|up]|].
  intros ws c3 Hc3 X3 HP3 (L & K & V) _. apply builds_ret; [done|].
  split_and!; [cbn; lia|constructor; [up|done]|]. intros env Hs.
  cbn [length]. rewrite !bits_val_cons, (V env Hs), (Vw env), Nat2Z.inj_succ, Z.pow_succ_r by (lia || up).
  destruct (env y); cbn [negb Z.b2z]; lia.
Qed.

Lemma builds_subtractor_loop xs ys c res carry : cc_ok c -> Forall (fun w => w ∈ known c) xs ->
  Forall (fun w => w ∈ known c) ys -> length xs = length ys -> carry ∈ known c -> slots c res ->
  builds (drives res c) c (subtractor_loop (zip xs ys) res carry) (fun rc c' =>
    exists sum, rc.1 = sum ++ drop (length xs) res /\ Forall2 same_slot (take (length xs) res) sum
      /\ Forall (fun w => w ∈ known c') sum /\ rc.2 ∈ known c' /\ slots c' (drop (length xs) res)
      /\ forall env, sat env c' -> exists hi, 0 <= hi /\
           bits_val env sum + 2 ^ Z.of_nat (length sum) * hi
           = bits_val env xs + bits_val env ys + Z.b2z (env carry)
           /\ ((length xs <= length res)%nat -> hi = Z.b2z (env rc.2))).
Proof.
  revert ys c res carry. induction xs as [|x xs IH]; intros [|y ys] c res carry Hc Hx Hy Hl Hca Hs; try done.
  { apply builds_ret; [done|]. exists []. split_and!; [done|done|done|done|done|].
    intros env _. exists (Z.b2z (env carry)). change (bits_val env []) with 0. cbn [length fst snd].
    destruct (env carry); cbn [Z.b2z]; lia. }
  apply Forall_cons in Hx as [Hx Hxs]. apply Forall_cons in Hy as [Hy Hys]. injection Hl as Hl.
  cbn [zip zip_with subtractor_loop]. destruct res as [|r res].
  - apply (step_position c x y usize_max [] carry (fun co _ => subtractor_loop (zip xs ys) [] co));
      [done|up|done|done|done|by split; [left|]|by intros o ->%list_elem_of_singleton|].
    intros co r' c1 Hc1 X1 HP1 Kco Kr _ _ V1.
    eapply builds_weaken; [apply (IH ys c1 []); [done|up|up|done|done|done]| |].
    { intros o [[]%elem_of_nil|Ho]. right. by eapply fresh_mono. }
    intros [res' co'] c2 Hc2 X2 (sum & E & Hsm & Ks & Kc & _ & V2). cbn [fst snd] in *.
    rewrite drop_nil, app_nil_r, take_nil in *. apply Forall2_nil_inv_l in Hsm as ->.
    exists []. split_and!; [done|done|done|done|done|]. intros env Hsat. cbn [length] in *.
    change (bits_val env []) with 0. rewrite !bits_val_cons.
    exists (Z.b2z (env x) + 2 * bits_val env xs + (Z.b2z (env y) + 2 * bits_val env ys) + Z.b2z (env carry)).
    pose proof (wires_val_range env xs). pose proof (wires_val_range env ys).
    destruct (env x), (env y), (env carry); cbn [Z.b2z]; lia.
  - apply step_position with (res := res); [done|up|done|done|done|done|by left|].
    intros co r' c1 Hc1 X1 HP1 Kco Kr Hsame Hs1 V1.
    eapply (step_call _ c1 res); [done|done|by left; right|apply (IH ys); [done|up|up|done|done|done]|].
    intros [res' c2'] c2 Hc2 X2 HP2 (sum & E & Hsm & Ks & Kc & Hs2 & V2) _. apply builds_ret; [done|].
    cbn [fst snd] in *. exists (r' :: sum). cbn [length drop take]. rewrite E.
    split_and!; [done|by constructor|constructor; [up|done]|done|done|].
    intros env Hsat. destruct (V2 env Hsat) as (hi & Hhi & E2 & Hco). exists hi.
    rewrite !bits_val_cons, Nat2Z.inj_succ, Z.pow_succ_r by lia.
    pose proof (V1 env ltac:(up)). split_and!; [done|lia|intros; apply Hco; lia].
Qed.

(** The difference: on as many bits as the operands it wraps; one further bit is
    the borrow, and bits beyond are zero. *)
Definition subtracts (x y res : list Z) (c : Compiler) : Prop :=
  forall env, sat env c -> bits_val env res =
    (bits_val env x - bits_val env y) mod 2 ^ Z.of_nat (Nat.min (length res) (S (Nat.max (length x) (length y)))).

Lemma difference_value s hi co (n L l : nat) (tl : list Z) x y :
  l = Nat.min n L -> length tl = (L - n)%nat -> 0 <= s < 2 ^ Z.of_nat l -> 0 <= x < 2 ^ Z.of_nat n ->
  0 <= y < 2 ^ Z.of_nat n -> 0 <= hi ->
  s + 2 ^ Z.of_nat l * hi = x + (2 ^ Z.of_nat n - 1 - y) + 1 -> ((n <= L)%nat -> hi = Z.b2z co) ->
  s + 2 ^ Z.of_nat l * (if decide (tl = []) then 0 else Z.b2z (negb co))
  = (x - y) mod 2 ^ Z.of_nat (Nat.min L (S n)).
Proof.
  intros -> Hl Hs Hx Hy Hhi E Hco. case_decide as Et.
  - subst tl. cbn in Hl. replace (Nat.min n L) with L in * by lia. replace (Nat.min L (S n)) with L by lia.
    assert (2 ^ Z.of_nat n = 2 ^ (Z.of_nat (n - L)) * 2 ^ Z.of_nat L) as Ep.
    { rewrite <- Z.pow_add_r by lia. f_equal. lia. }
    replace (x - y) with (s + (hi - 2 ^ Z.of_nat (n - L)) * 2 ^ Z.of_nat L) by lia.
    rewrite Z.mod_add, Z.mod_small by lia. lia.
  - assert (n < L)%nat as Hn by (destruct tl; [done|cbn in Hl; lia]).
    replace (Nat.min n L) with n in * by lia. replace (Nat.min L (S n)) with (S n) by lia.
    rewrite Hco in E by lia. rewrite Nat2Z.inj_succ, Z.pow_succ_r by lia.
    destruct co; cbn [Z.b2z negb] in *.
    + rewrite Z.mod_small; lia.
    + rewrite <- (Z.mod_add _ 1), Z.mod_small; lia.
Qed.

Lemma finish_short put n res : (length res <= n)%nat -> finish_result put n res = finish_result put (length res) res.
Proof. intros H. unfold finish_result. by rewrite (drop_ge res n), drop_all by done. Qed.

Lemma builds_subtractor c x y res : cc_ok c -> Forall (fun w => w ∈ known c) x -> Forall (fun w => w ∈ known c) y ->
  slots c res ->
  builds (drives res c) c (new_subtractor x y res) (fun res' c' =>
    length res' = length res /\ Forall (fun w => w ∈ known c') res' /\ subtracts x y res' c'
    /\ let n := S (Nat.max (length x) (length y)) in Forall2 same_slot (take n res) (take n res')).
Proof.
  intros Hc Hx Hy Hs. unfold new_subtractor.
  eapply (step_call _ c []); [done|up|set_solver|by apply builds_zero_pad|].
  intros [x1 y1] c1 Hc1 X1 HP1 (L1 & L2 & Kx & Ky & V1) S1. cbn [fst snd] in *.
  eapply (step_call _ c1 []); [done|up|set_solver|by apply builds_invert_all|].
  intros ny c2 Hc2 X2 HP2 (L3 & Kn & V2) S2.
  apply (step_call _ c2 []) with (Q := is_const true); [done|up|set_solver|by apply builds_one; [|up]|].
  intros z c3 Hc3 X3 HP3 [Kz Vz] S3.
  eapply (step_call _ c3 res); [done|up|by left|apply builds_subtractor_loop; [done|up|up|lia|done|by eauto using slots_spares]|].
  intros [res2 co] c4 Hc4 X4 HP4 (sum & E & Hsm & Ks & Kc & Hs4 & V4) S4. cbn [fst snd] in *. subst res2.
  set (n := length x1) in *. assert (length sum = Nat.min n (length res)) as Ls.
  { apply Forall2_length in Hsm. rewrite length_take in Hsm. lia. }
  assert (length (sum ++ drop n res) = length res) as Lr by (rewrite length_app, length_drop; lia).
  replace (finish_result (inv co) n (sum ++ drop n res)) with (finish_result (inv co) (length sum) (sum ++ drop n res)).
  2: { destruct (decide (n <= length res)%nat); [f_equal; lia|].
       rewrite (finish_short _ n), Lr, (drop_ge res) by lia. f_equal. lia. }
  eapply builds_weaken.
  { apply (builds_finish c4 (inv co) _ sum (drop n res) (fun env => negb (env co))); [done|done|done|done|].
    intros c' r P Hc' X Hu. by apply builds_inv; [|up|]. }
  { intros o [Ho|Ho]; [left|by right; repeat (eapply fresh_mono; [done|])].
    apply list_elem_of_lookup in Ho as [i Hi]. rewrite lookup_drop in Hi. by eapply list_elem_of_lookup_2. }
  intros res' c5 Hc5 X5 (L5 & K5 & T5 & Sm5 & V5). split_and!; [lia|done| |].
  - intros env Hsat. rewrite (V5 env Hsat), L5, Lr, <- L1.
    destruct (V4 env ltac:(up)) as (hi & Hhi & E4 & Hco). destruct (V1 env ltac:(up)) as [Ex Ey].
    rewrite (V2 env), (Vz env), Ex, Ey, L2, <- L1 in E4 by up.
    eapply difference_value; [exact Ls|apply length_drop|apply wires_val_range| | |exact Hhi|exact E4|exact Hco].
    + rewrite <- Ex. apply wires_val_range.
    + rewrite <- Ey. pose proof (wires_val_range env y1) as R. rewrite L2, <- L1 in R. exact R.
  - rewrite <- L1. fold n. destruct (decide (n <= length res)%nat).
    + replace (length sum) with n in * by lia. by eapply slots_kept.
    + rewrite (take_ge res), (take_ge res') by lia. rewrite (take_ge res) in Hsm by lia.
      rewrite <- T5, take_ge in Hsm by lia. done.
Qed.

(** ** Multiplexers *)

Lemma builds_wire_or_zero c v : cc_ok c -> Forall (fun w => w ∈ known c) v ->
  builds (drives [] c) c (wire_or_zero v) (fun av c' =>
    av.1 ∈ known c' /\ Forall (fun w => w ∈ known c') av.2 /\
    (forall env, sat env c' -> bits_val env v = Z.b2z (env av.1) + 2 * bits_val env av.2)).
Proof.
  intros Hc Hv. destruct v as [|a v]; cbn [wire_or_zero].
  - apply (step_call _ c []) with (Q := is_const false); [done|up|set_solver|by apply builds_zero; [|up]|].
    intros z c1 Hc1 X1 _ [Kz Vz] _. apply builds_ret; [done|]. split_and!; [done|done|].
    intros env Hs. cbn [fst snd]. rewrite (Vz env Hs). done.
  - apply Forall_cons in Hv as [Ha Hv]. by apply builds_ret.
Qed.

(** The choice between [a] and [b] on the width of the result. *)
Definition chooses (s : Z) (a b res : list Z) (c : Compiler) : Prop :=
  forall env, sat env c -> bits_val env res =
    (if env s then bits_val env b else bits_val env a) mod 2 ^ Z.of_nat (length res).

Lemma mod_cons (b : bool) v (n : nat) :
  (Z.b2z b + 2 * v) mod 2 ^ Z.of_nat (S n) = Z.b2z b + 2 * (v mod 2 ^ Z.of_nat n).
Proof.
  rewrite Nat2Z.inj_succ, Z.pow_succ_r by lia. rewrite (Z.rem_mul_r _ 2) by lia.
  replace (Z.b2z b + 2 * v) with (Z.b2z b + v * 2) by lia.
  rewrite Z.mod_add, Z.div_add, Z.mod_small, (Z.div_small (Z.b2z b)) by (destruct b; cbn; lia). f_equal.
Qed.

Lemma builds_mux_loop s a b c res : cc_ok c -> s ∈ known c -> Forall (fun w => w ∈ known c) a ->
  Forall (fun w => w ∈ known c) b -> slots c res ->
  builds (drives res c) c (mux_loop s a b res) (fun res' c' =>
    Forall2 same_slot res res' /\ Forall (fun w => w ∈ known c') res' /\ chooses s a b res' c').
Proof.
  revert a b c. induction res as [|r res IH]; intros a b c Hc Hsk Ha Hb Hs.
  { apply builds_ret; [done|]. split_and!; [done|done|]. intros env _. cbn. by rewrite Z.mod_1_r. }
  cbn [mux_loop].
  eapply (step_call _ c []); [done|up|set_solver|by apply builds_wire_or_zero|].
  intros [ai a1] c1 Hc1 X1 HP1 (Kai & Ka & Va) S1.
  eapply (step_call _ c1 []); [done|up|set_solver|apply builds_wire_or_zero; [done|up]|].
  intros [bi b1] c2 Hc2 X2 HP2 (Kbi & Kb & Vb) S2. cbn [fst snd] in *.
  apply step_new_gate; [done|done|up|up|]. intros t1 c3 Hc3 X3 HP3 K3 V3 S3.
  apply step_new_gate; [done|done|up|up|]. intros t2 c4 Hc4 X4 HP4 K4 V4 S4.
  apply (step_slot_gate _ _ _ _ _ r res); [done|done|up|up|by eauto using slots_spares|by left; left|].
  intros r' c5 Hc5 X5 HP5 K5 Hsame V5 Hs5.
  eapply (step_call _ c5 res); [done|done|by left; right|apply IH; [done|up|up|up|done]|].
  intros res' c6 Hc6 X6 HP6 (Hsm & K6 & V6) _. apply builds_ret; [done|].
  split_and!; [by constructor|constructor; [up|done]|]. intros env Hsat.
  cbn [length]. rewrite bits_val_cons, (V6 env Hsat), (V5 env), (V4 env), (V3 env) by up.
  rewrite (Va env), (Vb env) by up. cbn [apply_op].
  destruct (env s); rewrite mod_cons; f_equal; by destruct (env ai), (env bi).
Qed.

Lemma builds_mux c s sel a b res : cc_ok c -> s ∈ known c -> Forall (fun w => w ∈ known c) a ->
  Forall (fun w => w ∈ known c) b -> slots c res ->
  builds (drives res c) c (new_mux (s :: sel) a b res) (fun res' c' =>
    Forall2 same_slot res res' /\ Forall (fun w => w ∈ known c') res' /\ chooses s a b res' c').
Proof. intros. by apply builds_mux_loop. Qed.
