(* ===== verification/CircuitMul.v ===== *)
(** * The multiplier circuits compute products

    The array multiplier, and Karatsuba's recursion on top of it, for operands
    and results of every width: the result wires hold the product modulo two to
    the width of the result. *)

From S2P Require Import Prelude Bytes QclTypes Circuit CircuitBuild CircuitLogic CircuitArith.

(** ** Result wires *)

(** Wires to be driven: distinct and undriven. *)
Definition outs (c : Compiler) (z : list Z) : Prop := NoDup z /\ Forall (undriven c) z.

Lemma outs_slots c z : outs c z -> slots c z.
Proof.
  intros [Hn Hu]. induction Hn as [|r z Hr Hn IH]; [done|]. apply Forall_cons in Hu as [Hu Hz].
  split; [by right|by apply IH].
Qed.

Lemma outs_spares c c' ws z : spares ws c c' -> (forall x, x ∈ z -> x ∉ ws) -> outs c z -> outs c' z.
Proof.
  intros S Hd [Hn Hu]. split; [done|]. apply Forall_forall. intros x Hx. apply S; [|by apply Hd].
  rewrite Forall_forall in Hu. by apply Hu.
Qed.

Lemma outs_cons c w z : outs c (w :: z) <-> undriven c w /\ (w ∉ z) /\ outs c z.
Proof. unfold outs. rewrite NoDup_cons, Forall_cons. tauto. Qed.

Lemma outs_drop c k z : outs c z -> outs c (drop k z).
Proof.
  intros [Hn Hu]. split; [by eapply sublist_NoDup, sublist_drop|by apply Forall_drop].
Qed.

(** ** Rows of partial products *)

Lemma builds_and_row c xs y : cc_ok c -> Forall (fun w => w ∈ known c) xs -> y ∈ known c ->
  builds (drives [] c) c (and_row xs y) (fun ws c' => length ws = length xs /\ Forall (fun w => w ∈ known c') ws /\
    forall env, sat env c' -> bits_val env ws = bits_val env xs * Z.b2z (env y)).
Proof.
  revert c. induction xs as [|x xs IH]; intros c Hc Hx Hy; [by apply builds_ret|].
  apply Forall_cons in Hx as [Hx Hxs]. cbn [and_row].
  apply step_new_gate; [done|up|done|done|]. intros w c1 Hc1 X1 HP1 Kw Vw _.
  eapply (step_call _ c1 []); [done|up|set_solver|apply IH; [done|up|up]|].
  intros ws c2 Hc2 X2 HP2 (L & K & V) _. apply builds_ret; [done|].
  split_and!; [cbn; lia|constructor; [up|done]|]. intros env Hs.
  rewrite !bits_val_cons, (V env Hs), (Vw env) by up. cbn [apply_op].
  destruct (env x), (env y); cbn [andb Z.b2z]; lia.
Qed.

(** The wire from above and the carry from the right, where they exist. *)
Definition head_val (env : Z -> bool) (sums : list Z) : Z :=
  match sums with w :: _ => Z.b2z (env w) | [] => 0 end.
Definition carry_in (env : Z -> bool) (first : bool) (carry : Z) : Z := if first then 0 else Z.b2z (env carry).

Lemma head_tail_val env sums : bits_val env sums = head_val env sums + 2 * bits_val env (tail sums).
Proof. by destruct sums. Qed.

Lemma builds_cell c first p sums carry s cout : cc_ok c -> p ∈ known c -> Forall (fun w => w ∈ known c) sums ->
  (first = true -> sums <> []) -> (first = false -> carry ∈ known c) -> undriven c s -> undriven c cout -> s <> cout ->
  builds (drives [s; cout] c) c (mul_cell first p (head sums) carry s cout) (fun _ c' =>
    s ∈ known c' /\ cout ∈ known c' /\ forall env, sat env c' ->
      Z.b2z (env s) + 2 * Z.b2z (env cout) = Z.b2z (env p) + head_val env sums + carry_in env first carry).
Proof.
  intros Hc Hp Hs Hne Hca Us Uc Hsc. unfold mul_cell, carry_in.
  destruct first, sums as [|w sums]; cbn [head]; try apply Forall_cons in Hs as [Hw _].
  - by destruct Hne.
  - eapply builds_post; [by apply builds_half_adder|]. intros [] c' _ _ (K1 & K2 & V).
    split_and!; [done|done|]. intros env Hsat. rewrite (V env Hsat). cbn [head_val]. lia.
  - eapply builds_post; [by apply builds_half_adder; auto|]. intros [] c' _ _ (K1 & K2 & V).
    split_and!; [done|done|]. intros env Hsat. rewrite (V env Hsat). cbn [head_val]. lia.
  - eapply builds_post; [by apply builds_full_adder; auto|]. intros [] c' _ _ (K1 & K2 & V).
    split_and!; [done|done|]. intros env Hsat. rewrite (V env Hsat). cbn [head_val]. lia.
Qed.

(** The cells of a row after the first add their partial products, the sums from
    above and the carry. *)
Lemma builds_row_rest c zj ands sums carry : cc_ok c -> Forall (fun w => w ∈ known c) ands ->
  Forall (fun w => w ∈ known c) sums -> (length sums <= length ands)%nat -> carry ∈ known c ->
  builds (drives [] c) c (mul_row false zj ands sums carry) (fun nc c' =>
    length nc.1 = length ands /\ Forall (fun w => w ∈ known c') nc.1 /\ nc.2 ∈ known c'
    /\ forall env, sat env c' -> bits_val env nc.1 + 2 ^ Z.of_nat (length ands) * Z.b2z (env nc.2)
         = bits_val env ands + bits_val env sums + Z.b2z (env carry)).
Proof.
  revert c sums carry. induction ands as [|p ands IH]; intros c sums carry Hc Ha Hs Hl Hca.
  { destruct sums; [|cbn in Hl; lia]. apply builds_ret; [done|]. split_and!; [done|done|done|].
    intros env _. cbn [fst snd length]. change (bits_val env []) with 0. lia. }
  apply Forall_cons in Ha as [Hp Ha]. cbn [mul_row]. pose proof (covers_drives [] c) as HP.
  apply step_wire; [done|done|]. intros cout c1 Hc1 X1 HP1 P1 U1 H1.
  apply step_wire; [done|done|]. intros w c2 Hc2 X2 HP2 P2 U2 H2. carry_wire H2.
  eapply (step_call _ c2 [w; cout]); [done|up| |apply builds_cell; [done|up|up|done|intros _; up|done|done|by apply not_eq_sym]|].
  { intros o Ho. rewrite !elem_of_cons, elem_of_nil in Ho. by destruct Ho as [->|[->|[]]]. }
  intros [] c3 Hc3 X3 HP3 (K1 & K2 & V1) _.
  eapply (step_call _ c3 []); [done|up|set_solver|apply (IH c3 (tail sums)); [done|up| | |done]|].
  { destruct sums; [done|]. apply Forall_cons in Hs as [_ Hs]. cbn [tail]. up. }
  { destruct sums; cbn in *; lia. }
  intros [ns co] c4 Hc4 X4 HP4 (L & K & Kc & V2) _. apply builds_ret; [done|]. cbn [fst snd] in *.
  split_and!; [cbn; lia|constructor; [up|done]|done|]. intros env Hsat. cbn [length].
  rewrite !bits_val_cons, (head_tail_val env sums), Nat2Z.inj_succ, Z.pow_succ_r by lia.
  pose proof (V1 env ltac:(up)) as E1. pose proof (V2 env Hsat). cbn [carry_in] in E1. lia.
Qed.

(** A whole row: its lowest bit is the result bit [zj]. *)
Lemma builds_row c zj ands sums : cc_ok c -> Forall (fun w => w ∈ known c) ands -> Forall (fun w => w ∈ known c) sums ->
  (0 < length sums <= length ands)%nat -> undriven c zj ->
  builds (drives [zj] c) c (mul_row true zj ands sums 0) (fun nc c' =>
    length ands = S (length nc.1) /\ Forall (fun w => w ∈ known c') nc.1 /\ nc.2 ∈ known c' /\ zj ∈ known c'
    /\ forall env, sat env c' ->
         Z.b2z (env zj) + 2 * bits_val env (nc.1 ++ [nc.2]) = bits_val env ands + bits_val env sums).
Proof.
  intros Hc Ha Hs Hl Hz. destruct ands as [|p ands]; [cbn in Hl; lia|].
  apply Forall_cons in Ha as [Hp Ha]. cbn [mul_row]. pose proof (covers_drives [zj] c) as HP.
  apply step_wire; [done|done|]. intros cout c1 Hc1 X1 HP1 P1 U1 H1. carry_wire H1.
  eapply builds_bind; [by apply (builds_ret _ _ _ (fun a c' => a = zj /\ c' = c1))|]. intros ? ? _ _ [-> ->].
  eapply (step_call _ c1 [zj; cout]); [done|up| |apply builds_cell; [done|up|up| |done|done|done|done]|].
  { intros o Ho. rewrite !elem_of_cons, elem_of_nil in Ho. destruct Ho as [->|[->|[]]]; [up|done]. }
  { intros _ ->. cbn in Hl. lia. }
  intros [] c3 Hc3 X3 HP3 (K1 & K2 & V1) _.
  eapply (step_call _ c3 []); [done|up|set_solver|apply (builds_row_rest c3 zj ands (tail sums)); [done|up| | |done]|].
  { destruct sums; [done|]. apply Forall_cons in Hs as [_ Hs]. cbn [tail]. up. }
  { destruct sums; cbn in *; lia. }
  intros [ns co] c4 Hc4 X4 HP4 (L & K & Kc & V2) _. apply builds_ret; [done|]. cbn [fst snd] in *.
  split_and!; [cbn; lia|done|done|up|]. intros env Hsat.
  rewrite wires_val_app, !bits_val_cons, (head_tail_val env sums), L. change (bits_val env []) with 0.
  pose proof (V1 env ltac:(up)) as E1. pose proof (V2 env Hsat). cbn [carry_in] in E1. lia.
Qed.

(** ** The array *)

Lemma drop_cons {A} (z : list A) j : (j < length z)%nat -> exists w, z !! j = Some w /\ drop j z = w :: drop (S j) z.
Proof.
  intros H. destruct (lookup_lt_is_Some_2 z j H) as [w Hw]. exists w. split; [done|]. by apply drop_S.
Qed.

Lemma index_ok {A} (z : list A) j w : z !! j = Some w -> index z (Z.of_nat j) = Ok w.
Proof.
  intros H. pose proof (lookup_lt_Some _ _ _ H). unfold index. rewrite Nat2Z.id, H.
  by destruct (Z.leb_spec 0 (Z.of_nat j)), (Z.ltb_spec (Z.of_nat j) (Z.of_nat (length z))); try lia.
Qed.

Lemma builds_index {A} P c (z : list A) j w : cc_ok c -> z !! j = Some w ->
  builds P c (lift (index z (Z.of_nat j))) (fun a c' => a = w /\ c' = c).
Proof.
  intros Hc H. exists w, c. split_and!; [|done|apply extends_refl|done|done]. unfold lift. by rewrite (index_ok _ _ _ H).
Qed.

(** The rows before the last: [m] result bits and the sums above them hold the
    sums so far plus the product with the low [m] bits of the multiplier. *)
Lemma builds_rows ys c xs z j sums : cc_ok c -> Forall (fun w => w ∈ known c) xs -> Forall (fun w => w ∈ known c) ys ->
  Forall (fun w => w ∈ known c) sums -> (0 < length sums <= length xs)%nat -> ys <> [] ->
  (j + length ys <= S (length z))%nat -> outs c (drop j z) ->
  let m := (length ys - 1)%nat in
  builds (drives (drop j z) c) c (mul_rows xs ys z j sums) (fun js c' =>
    js.1 = (j + m)%nat /\ Forall (fun w => w ∈ known c') js.2 /\ (0 < length js.2 <= length xs)%nat
    /\ Forall (fun w => w ∈ known c') (take m (drop j z)) /\ outs c' (drop (j + m) z)
    /\ forall env, sat env c' ->
         bits_val env (take m (drop j z)) + 2 ^ Z.of_nat m * bits_val env js.2
         = bits_val env sums + bits_val env xs * bits_val env (take m ys)).
Proof.
  revert c j sums. induction ys as [|y ys IH]; intros c j sums Hc Hx Hy Hs Hl Hne Hz Ho; [done|].
  destruct ys as [|y' ys].
  { apply builds_ret; [done|]. cbn [length Nat.sub fst snd]. rewrite Nat.add_0_r. split_and!; try done; try lia.
    intros env _. rewrite !take_0. change (bits_val env []) with 0. lia. }
  cbn [length Nat.sub] in *. apply Forall_cons in Hy as [Hy Hys].
  destruct (drop_cons z j ltac:(lia)) as (w & Hw & Ed). rewrite Ed in Ho |- *.
  apply outs_cons in Ho as (Uw & Hnw & Ho).
  change (mul_rows xs (y :: y' :: ys) z j sums) with
    (ands ← and_row xs y; zj ← lift (index z (Z.of_nat j));
     '(nsums, carry) ← mul_row true zj ands sums 0; mul_rows xs (y' :: ys) z (S j) (nsums ++ [carry])).
  eapply (step_call _ c []); [done|up|set_solver|by apply builds_and_row|].
  intros ands c1 Hc1 X1 HP1 (La & Ka & Va) S1.
  eapply builds_bind; [by apply builds_index|]. intros ? ? _ _ [-> ->].
  eapply (step_call _ c1 [w]); [done|up| |apply builds_row; [done|up|up|lia|apply S1; [done|apply not_elem_of_nil]]|].
  { intros o ->%list_elem_of_singleton. left. apply list_elem_of_here. }
  intros [ns co] c2 Hc2 X2 HP2 (L2 & K2 & Kco & Kw & V2) S2. cbn [fst snd] in *.
  assert (outs c2 (drop (S j) z)) as Ho2.
  { apply (outs_spares c1 c2 [w]); [done|by intros x Hx2 ->%list_elem_of_singleton|].
    apply (outs_spares c c1 []); [done|by intros ? _ ?%elem_of_nil|done]. }
  eapply builds_weaken; [apply (IH c2 (S j)); [done|up|up| | |done|cbn; lia|done]| |].
  { apply Forall_app. by split; [|repeat constructor]. }
  { rewrite length_app. cbn. lia. }
  { intros o [Ho3|Ho3]; [left; by right|right; by repeat (eapply fresh_mono; [done|])]. }
  intros [j' s'] c3 Hc3 X3 (Ej & Ks & Ls & Kz & Ho3 & V3). cbn [fst snd length Nat.sub] in *.
  rewrite Nat.sub_0_r in *. split_and!; [lia|done|lia|lia| | |].
  - cbn [take]. constructor; [up|done].
  - by replace (j + S (length ys))%nat with (S j + length ys)%nat by lia.
  - intros env Hsat. cbn [take]. rewrite !bits_val_cons, Nat2Z.inj_succ, Z.pow_succ_r by lia.
    pose proof (V2 env ltac:(up)) as E2. rewrite (Va env) in E2 by up. pose proof (V3 env Hsat) as E3. lia.
Qed.

Lemma mod_cons_z (b : bool) v L t : 0 <= L -> Z.b2z b + 2 * v = t -> Z.b2z b + 2 * (v mod 2 ^ L) = t mod 2 ^ Z.succ L.
Proof.
  intros HL <-. pose proof (mod_cons b v (Z.to_nat L)) as H.
  rewrite Nat2Z.inj_succ, Z2Nat.id in H by lia. by rewrite H.
Qed.

(** A cell followed by what reads it. *)
Lemma step_cell {B} P c first p sums carry s cout (f : unit -> build B) R : cc_ok c -> covers P c -> P s -> P cout ->
  p ∈ known c -> Forall (fun w => w ∈ known c) sums -> (first = true -> sums <> []) -> (first = false -> carry ∈ known c) ->
  undriven c s -> undriven c cout -> s <> cout ->
  (forall c', cc_ok c' -> extends P c c' -> covers P c' -> spares [s; cout] c c' -> s ∈ known c' -> cout ∈ known c' ->
     (forall env, sat env c' ->
        Z.b2z (env s) + 2 * Z.b2z (env cout) = Z.b2z (env p) + head_val env sums + carry_in env first carry) ->
     builds P c' (f ()) R) ->
  builds P c (mul_cell first p (head sums) carry s cout ≫= f) R.
Proof.
  intros Hc HP Ps Pc Hp Hs Hf Hca Us Uc Hsc Hk.
  eapply (step_call _ c [s; cout]); [done|done| |by apply builds_cell|].
  - intros o Ho. rewrite !elem_of_cons, elem_of_nil in Ho. by destruct Ho as [->|[->|[]]].
  - intros [] c3 Hc3 X3 HP3 (K1 & K2 & V) S3. by apply Hk.
Qed.

(** Past the last result wire the row drives nothing of the result. *)
Lemma builds_last_none xs c P first y z k sums carry : cc_ok c -> covers P c -> Forall (fun w => w ∈ known c) xs ->
  y ∈ known c -> (length z <= k)%nat ->
  builds P c (mul_last first xs y z k sums carry) (fun _ _ => True).
Proof.
  revert c first k sums carry. induction xs as [|x xs IH]; intros c first k sums carry Hc HP Hx Hy Hk; [by apply builds_ret|].
  apply Forall_cons in Hx as [Hx Hxs]. cbn [mul_last].
  apply step_new_gate; [done|done|done|done|]. intros p c1 Hc1 X1 HP1 _ _ _.
  rewrite (lookup_ge_None_2 z k), (lookup_ge_None_2 z (S k)) by lia.
  assert (builds P c1 (cout ← wire; _ ← mret (); mul_last false xs y z (S k) (tail sums) cout) (fun _ _ => True)) as H.
  { apply step_wire; [done|done|]. intros cout c2 Hc2 X2 HP2 _ _ _.
    eapply builds_bind; [by apply (builds_ret _ _ _ (fun _ c' => c' = c2))|]. intros _ ? _ _ ->.
    apply IH; [done|done|up|up|lia]. }
  by destruct xs.
Qed.

(** What the low bit and the rest of a row add up to. *)
Lemma row_value (x y : bool) p w cout xs sums ci r L : p = x && y -> 0 <= L ->
  Z.b2z w + 2 * cout = Z.b2z p + (sums - 2 * r) + ci ->
  Z.b2z w + 2 * ((xs * Z.b2z y + r + cout) mod 2 ^ L)
  = ((Z.b2z x + 2 * xs) * Z.b2z y + sums + ci) mod 2 ^ Z.succ L.
Proof. intros -> HL E. apply mod_cons_z; [done|]. destruct x, y; cbn [andb Z.b2z] in *; lia. Qed.

Lemma outs_after_wire c c' w z : outs c z -> (forall x, undriven c x -> undriven c' x /\ x <> w) ->
  outs c' z /\ (w ∉ z).
Proof.
  intros [Hn Hu] H. rewrite Forall_forall in Hu. split; [|intros Hw; by destruct (H w (Hu w Hw))].
  split; [done|]. apply Forall_forall. intros x Hx. by apply H, Hu.
Qed.

(** The last cell of the row, with the wire of its carry. *)
Lemma builds_last_cell c first x y z k w sums carry : cc_ok c -> x ∈ known c -> y ∈ known c ->
  Forall (fun w => w ∈ known c) sums -> (length sums <= 1)%nat -> (first = true -> sums <> []) ->
  (first = false -> carry ∈ known c) -> outs c (w :: drop (S k) z) -> z !! k = Some w ->
  let zs := w :: take 1 (drop (S k) z) in
  builds (drives (w :: drop (S k) z) c) c (mul_last first [x] y z k sums carry) (fun _ c' =>
    Forall (fun w => w ∈ known c') zs /\ forall env, sat env c' ->
      bits_val env zs = (bits_val env [x] * Z.b2z (env y) + bits_val env sums + carry_in env first carry)
                        mod 2 ^ Z.of_nat (length zs)).
Proof.
  intros Hc Hx Hy Hs Hl Hf Hca Ho Hw zs. cbn [mul_last].
  apply step_new_gate; [done|up|done|done|]. intros p c1 Hc1 X1 HP1 Kp Vp S1. rewrite Hw.
  assert (outs c1 (w :: drop (S k) z)) as Ho1 by (eapply outs_spares; [done|by intros ? _ ?%elem_of_nil|done]).
  apply outs_cons in Ho1 as (Uw & Hnw & Ho1).
  assert (forall env, bits_val env sums = head_val env sums) as Hsum.
  { intros env. destruct sums as [|s1 [|s2 sums]]; [done| |cbn in Hl; lia]. rewrite bits_val_cons. cbn. lia. }
  destruct (z !! S k) as [w2|] eqn:Hw2.
  - eapply builds_bind; [by apply (builds_ret _ _ _ (fun a c' => a = w2 /\ c' = c1))|]. intros ? ? _ _ [-> ->].
    unfold zs. rewrite (drop_S z w2) in * by done. apply outs_cons in Ho1 as (Uw2 & _). rewrite not_elem_of_cons in Hnw.
    apply step_cell; [done|done|up|up|done|up|done|intros Hff; specialize (Hca Hff); up|done|done|apply Hnw|].
    intros c3 Hc3 X3 HP3 S3 K1 K2 V. apply builds_ret; [done|]. cbn [length take]. rewrite take_0.
    split; [by repeat constructor|]. intros env Hsat. rewrite Hsum, !bits_val_cons. change (bits_val env []) with 0.
    pose proof (V env Hsat) as E. rewrite (Vp env) in E by up. cbn [apply_op] in E.
    rewrite Z.mod_small; [destruct (env x), (env y); cbn [Z.b2z andb] in *; lia|].
    destruct (env x), (env y), (env w), (env w2); cbn [Z.b2z andb] in *; cbn; lia.
  - apply step_wire; [done|up|]. intros cout c2 Hc2 X2 HP2 Pc Uc H2. carry_wire H2.
    apply step_cell; [done|done|up|done|up|up|done|intros Hff; specialize (Hca Hff); up|done|done|done|].
    intros c3 Hc3 X3 HP3 S3 K1 K2 V. apply builds_ret; [done|].
    unfold zs. rewrite (drop_ge z (S k)), take_nil by by apply lookup_ge_None.
    split; [by repeat constructor|]. intros env Hsat. rewrite Hsum, !bits_val_cons. change (bits_val env []) with 0.
    pose proof (V env Hsat) as E. rewrite (Vp env) in E by up. cbn [apply_op length] in *.
    replace ((Z.b2z (env x) + 2 * 0) * Z.b2z (env y) + head_val env sums + carry_in env first carry)
      with (Z.b2z (env w) + Z.b2z (env cout) * 2) by (destruct (env x), (env y); cbn [Z.b2z andb] in *; lia).
    change (2 ^ Z.of_nat 1) with 2. rewrite Z.mod_add, Z.mod_small by (destruct (env w); cbn; lia). lia.
Qed.

Lemma known_tail c sums : Forall (fun w => w ∈ known c) sums -> Forall (fun w => w ∈ known c) (tail sums).
Proof. destruct sums; [done|]. by intros [_ ?]%Forall_cons. Qed.

(** The last row fills the remaining result wires with its sum, reduced to the
    wires there are. *)
Lemma builds_last xs c first y z k sums carry : cc_ok c -> xs <> [] -> Forall (fun w => w ∈ known c) xs -> y ∈ known c ->
  Forall (fun w => w ∈ known c) sums -> (length sums <= length xs)%nat -> (first = true -> sums <> []) ->
  (first = false -> (k < length z)%nat -> carry ∈ known c) -> outs c (drop k z) ->
  let zs := take (S (length xs)) (drop k z) in
  builds (drives (drop k z) c) c (mul_last first xs y z k sums carry) (fun _ c' =>
    Forall (fun w => w ∈ known c') zs /\ forall env, sat env c' ->
      bits_val env zs = (bits_val env xs * Z.b2z (env y) + bits_val env sums + carry_in env first carry)
                        mod 2 ^ Z.of_nat (length zs)).
Proof.
  revert c first k sums carry. induction xs as [|x xs IH]; intros c first k sums carry Hc Hne Hx Hy Hs Hl Hf Hca Ho zs;
    [done|]. destruct (decide (k < length z)%nat) as [Hk|Hk].
  2: { unfold zs. rewrite (drop_ge z k), take_nil by lia.
    eapply builds_weaken; [apply (builds_last_none (x :: xs) c (drives [] c)); [done|up|done|done|lia]|done|].
    intros [] c' _ _ _. split; [done|]. intros. cbn. by rewrite Z.mod_1_r. }
  destruct (drop_cons z k Hk) as (w & Hw & Ed). specialize (fun H => Hca H Hk).
  assert (zs = w :: take (S (length xs)) (drop (S k) z)) as -> by (unfold zs; by rewrite Ed). rewrite Ed in Ho |- *.
  pose proof (Forall_inv Hx) as Hx0. pose proof (Forall_inv_tail Hx) as Hxs.
  destruct xs as [|x' xs]; [by apply builds_last_cell|]. cbn [mul_last].
  apply step_new_gate; [done|up|done|done|]. intros p c1 Hc1 X1 HP1 Kp Vp S1.
  assert (outs c1 (w :: drop (S k) z)) as Ho1 by (eapply outs_spares; [done|by intros ? _ ?%elem_of_nil|done]).
  apply step_wire; [done|up|]. intros cout c2 Hc2 X2 HP2 Pc Uc H2.
  destruct (outs_after_wire _ _ _ _ Ho1 H2) as [(Uw & Hnw & Ho2)%outs_cons [Hwc Hcz]%not_elem_of_cons]. rewrite Hw.
  apply step_cell; [done|done|up|done|up|up|done|intros Hff; specialize (Hca Hff); up|done|done|by apply not_eq_sym|].
  intros c3 Hc3 X3 HP3 S3 K1 K2 V.
  assert (outs c3 (drop (S k) z)) as Ho3.
  { apply (outs_spares c2 c3 [w; cout]); [done| |done]. intros o Hoz. rewrite !not_elem_of_cons.
    split_and!; [by intros ->|by intros ->|apply not_elem_of_nil]. }
  eapply builds_weaken; [apply (IH c3 false (S k) (tail sums) cout); [done|done|up|up|apply known_tail; up| |done|done|done]| |].
  { destruct sums; cbn in *; lia. }
  { intros o [Hd|Hd]; [left; by right|right; by repeat (eapply fresh_mono; [done|])]. }
  intros [] c4 Hc4 X4 [K V4]. split; [constructor; [up|done]|]. intros env Hsat.
  rewrite bits_val_cons, (V4 env Hsat), (bits_val_cons env x). cbn [length carry_in]. rewrite Nat2Z.inj_succ.
  apply (row_value _ _ (env p)); [apply (Vp env); up|lia|]. pose proof (V env ltac:(up)) as E.
  rewrite (head_tail_val env sums). lia.
Qed.

Definition multiplies (x y res : list Z) (c : Compiler) : Prop :=
  forall env, sat env c -> bits_val env res = (bits_val env x * bits_val env y) mod 2 ^ Z.of_nat (length res).

Lemma bits_val_take env L x : bits_val env (take L x) = bits_val env x mod 2 ^ Z.of_nat L.
Proof.
  revert x. induction L as [|L IH]; intros x; [cbn; by rewrite Z.mod_1_r|].
  destruct x as [|w x]; [cbn; by rewrite Z.mod_0_l by lia|].
  cbn [take]. by rewrite !bits_val_cons, IH, mod_cons.
Qed.

(** The products of the truncated operands agree modulo the result width. *)
Lemma truncated_product env L x y :
  (bits_val env (take L x) * bits_val env (take L y)) mod 2 ^ Z.of_nat L
  = (bits_val env x * bits_val env y) mod 2 ^ Z.of_nat L.
Proof. rewrite !bits_val_take. by rewrite <- Z.mul_mod by lia. Qed.

Lemma outs_lookup c z i w : outs c z -> z !! i = Some w -> undriven c w.
Proof. intros [_ H] Hi. rewrite Forall_lookup in H. by eapply H. Qed.

(** One-bit operands: an AND, and a zero above it.  Wires past the second are not
    driven, so the result is the product when there are at most two. *)
Lemma builds_one_bit c x0 y0 z : cc_ok c -> x0 ∈ known c -> y0 ∈ known c -> outs c z ->
  (0 < length z <= 2)%nat ->
  builds (drives z c) c
    (z0 ← lift (index z 0); _ ← gate OAnd x0 y0 z0;
     match z with a :: _ :: rest => zw ← zero_wire; mret (a :: zw :: rest) | _ => mret z end)
    (fun z' c' => length z' = length z /\ Forall (fun w => w ∈ known c') z' /\ multiplies [x0] [y0] z' c').
Proof.
  intros Hc Hx Hy Ho Hl. destruct z as [|a z]; [cbn in Hl; lia|].
  eapply builds_bind; [by apply (builds_index _ _ _ 0)|]. intros ? ? _ _ [-> ->].
  apply outs_cons in Ho as (Ua & Hna & Ho).
  apply step_gate; [done|up|done|done|done|up|]. intros c1 Hc1 X1 HP1 K1 V1 H1.
  destruct z as [|b [|b' z]]; [| |cbn in Hl; lia].
  - apply builds_ret; [done|]. split_and!; [done|by repeat constructor|]. intros env Hs.
    rewrite !bits_val_cons, (V1 env Hs). cbn [bits_val foldr length apply_op].
    by destruct (env x0), (env y0).
  - apply (step_call _ c1 []) with (Q := is_const false); [done|up|set_solver|by apply builds_zero; [|up]|].
    intros zw c2 Hc2 X2 _ [Kz Vz] _. apply builds_ret; [done|].
    split_and!; [done|constructor; [up|by repeat constructor]|]. intros env Hs.
    rewrite !bits_val_cons, (V1 env), (Vz env) by up. cbn [bits_val foldr length apply_op].
    by destruct (env x0), (env y0).
Qed.

(** Low bits [a] and the reduced high part of a product. *)
Lemma product_value a t X Y (n k l L : nat) : 0 <= a < 2 ^ Z.of_nat k -> X * Y = a + 2 ^ Z.of_nat k * t ->
  0 <= X < 2 ^ Z.of_nat n -> 0 <= Y < 2 ^ Z.of_nat n -> (k + l = L \/ (2 * n <= k + l /\ 2 * n <= L))%nat ->
  a + 2 ^ Z.of_nat k * (t mod 2 ^ Z.of_nat l) = (X * Y) mod 2 ^ Z.of_nat L.
Proof.
  intros Ha E HX HY Hl.
  assert (a + 2 ^ Z.of_nat k * (t mod 2 ^ Z.of_nat l) = (X * Y) mod 2 ^ Z.of_nat (k + l)) as E2.
  { rewrite E, Nat2Z.inj_add, Z.pow_add_r, Z.rem_mul_r by lia.
    rewrite (Z.mul_comm (2 ^ Z.of_nat k) t), Z.mod_add, Z.div_add, (Z.mod_small a), (Z.div_small a), Z.add_0_l by lia. lia. }
  rewrite E2. destruct Hl as [<-|[H1 H2]]; [done|].
  assert (0 <= X * Y < 2 ^ Z.of_nat (2 * n)) as HXY.
  { replace (Z.of_nat (2 * n)) with (Z.of_nat n + Z.of_nat n) by lia. rewrite Z.pow_add_r by lia. nia. }
  pose proof (Z.pow_le_mono_r 2 (Z.of_nat (2 * n)) (Z.of_nat (k + l))).
  pose proof (Z.pow_le_mono_r 2 (Z.of_nat (2 * n)) (Z.of_nat L)).
  rewrite !Z.mod_small by lia. done.
Qed.

(** A number of [m + 2] bits from its lowest bit, the middle and the top. *)
Lemma top_bit_val env y0 ys m yj : length ys = S m -> ys !! m = Some yj ->
  bits_val env (y0 :: ys) = Z.b2z (env y0) + 2 * bits_val env (take m ys) + 2 ^ Z.of_nat (S m) * Z.b2z (env yj).
Proof.
  intros Hl Hm. assert (ys = take m ys ++ [yj]) as Ey.
  { rewrite <- take_S_r by done. rewrite take_ge; [done|lia]. }
  rewrite bits_val_cons, Ey at 1. rewrite wires_val_app, bits_val_cons, length_take.
  change (bits_val env []) with 0. replace (Nat.min m (length ys)) with m by lia.
  rewrite Nat2Z.inj_succ, Z.pow_succ_r by lia. lia.
Qed.

(** The value of the array, from the values of its first row, of the rows before
    the last and of the last row. *)
Lemma array_value env x0 xs y0 ys z0 zm zs s3 m yj L : length xs = S m -> length ys = S m -> ys !! m = Some yj ->
  length zm = m -> env z0 = env x0 && env y0 ->
  bits_val env zm + 2 ^ Z.of_nat m * s3
    = bits_val env xs * Z.b2z (env y0) + bits_val env (x0 :: xs) * bits_val env (take m ys) ->
  bits_val env zs = (bits_val env (x0 :: xs) * Z.b2z (env yj) + s3 + 0) mod 2 ^ Z.of_nat (length zs) ->
  (S m + length zs = L \/ 2 * (S (S m)) <= S m + length zs /\ 2 * (S (S m)) <= L)%nat ->
  bits_val env (z0 :: zm ++ zs) = (bits_val env (x0 :: xs) * bits_val env (y0 :: ys)) mod 2 ^ Z.of_nat L.
Proof.
  intros Lx Ly Hj Lm E0 E3 E4 HL.
  pose proof (product_value (Z.b2z (env x0 && env y0) + 2 * bits_val env zm)
    (bits_val env (x0 :: xs) * Z.b2z (env yj) + s3 + 0) (bits_val env (x0 :: xs)) (bits_val env (y0 :: ys))
    (S (S m)) (S m) (length zs) L) as Hp.
  rewrite <- Hp; [| | |rewrite <- Lx; apply (wires_val_range env (x0 :: xs))|rewrite <- Ly; apply (wires_val_range env (y0 :: ys))|done].
  - rewrite bits_val_cons, wires_val_app, E4, E0, Lm, Nat2Z.inj_succ, Z.pow_succ_r by lia. lia.
  - pose proof (wires_val_range env zm) as R. rewrite Lm in R. rewrite Nat2Z.inj_succ, Z.pow_succ_r by lia.
    destruct (env x0), (env y0); cbn [andb Z.b2z]; lia.
  - rewrite (top_bit_val env y0 ys m yj) by done. rewrite Nat2Z.inj_succ, Z.pow_succ_r by lia.
    rewrite (bits_val_cons env x0) in *. destruct (env x0), (env y0), (env yj); cbn [andb Z.b2z] in *; lia.
Qed.

(** Two or more bits: the rows, the last row, and zeros above the full product. *)
Lemma builds_array_rows c x0 xs y0 ys z : cc_ok c -> Forall (fun w => w ∈ known c) (x0 :: xs) ->
  Forall (fun w => w ∈ known c) (y0 :: ys) -> length xs = length ys -> xs <> [] ->
  (S (length xs) <= length z)%nat -> outs c z ->
  builds (drives z c) c
    (z0 ← lift (index z 0); _ ← gate OAnd x0 y0 z0; sums ← and_row xs y0;
     '(j, sums) ← mul_rows (x0 :: xs) ys z 1 sums;
     yj ← lift (index (y0 :: ys) (Z.of_nat j));
     _ ← mul_last true (x0 :: xs) yj z j sums 0;
     zw ← zero_wire;
     mret (take (j + length (x0 :: xs) + 1) z ++ replicate (length z - (j + length (x0 :: xs) + 1)) zw))
    (fun z' c' => length z' = length z /\ Forall (fun w => w ∈ known c') z' /\ multiplies (x0 :: xs) (y0 :: ys) z' c').
Proof.
  intros Hc Hx Hy Hl Hne Hz Ho. destruct (drop_cons z 0 ltac:(lia)) as (z0 & Hz0 & Ez). rewrite drop_0 in Ez.
  assert (undriven c z0) as Uz by by eapply outs_lookup.
  eapply builds_bind; [by apply (builds_index _ _ _ 0)|]. intros ? ? _ _ [-> ->].
  pose proof Hx as [Hx0 Hxs]%Forall_cons. pose proof Hy as [Hy0 Hys]%Forall_cons.
  apply step_gate; [done|up|done|done|done|left; by eapply list_elem_of_lookup_2|].
  intros c1 Hc1 X1 HP1 K1 V1 H1.
  assert (outs c1 (drop 1 z)) as Ho1.
  { rewrite Ez in Ho. apply outs_cons in Ho as (_ & Hn & Hnd & Hu). split; [done|]. apply Forall_forall.
    intros w Hw. rewrite Forall_forall in Hu. apply H1; [by apply Hu|]. by intros ->. }
  eapply (step_call _ c1 []); [done|up|set_solver|apply builds_and_row; [done|up|up]|].
  intros sums c2 Hc2 X2 HP2 (L2 & K2 & V2) S2.
  assert (outs c2 (drop 1 z)) as Ho2 by (eapply outs_spares; [done|by intros ? _ ?%elem_of_nil|done]).
  destruct ys as [|y1 ys]; [by destruct xs|]. destruct xs as [|x1 xs]; [done|].
  assert (forall k o, o ∈ drop k z -> o ∈ z) as Hin.
  { intros k o Hin. apply list_elem_of_lookup in Hin as [i Hi]. rewrite lookup_drop in Hi. by eapply list_elem_of_lookup_2. }
  eapply (step_call _ c2 (drop 1 z)); [done|up|left; by eapply Hin|apply builds_rows; [done|up|up|done| |done| |done]|].
  { cbn in *. lia. } { cbn in *. lia. }
  intros [j s3] c3 Hc3 X3 HP3 (Ej & K3 & L3 & Kz3 & Ho3 & V3) S3. cbn [fst snd] in *.
  set (m := (length (y1 :: ys) - 1)%nat) in *.
  destruct (lookup_lt_is_Some_2 (y0 :: y1 :: ys) j ltac:(cbn in *; lia)) as [yj Hyj].
  eapply builds_bind; [by apply builds_index|]. intros ? ? _ _ [-> ->].
  assert (yj ∈ known c) as Kyj by (rewrite Forall_lookup in Hy; by eapply Hy).
  rewrite Ej in *. eapply (step_call _ c3 (drop (1 + m) z)); [done|up|left; by eapply Hin| |].
  { apply builds_last; [done|done|up|up|done|lia| |done|done]. intros _ ->. cbn in L3. lia. }
  intros [] c4 Hc4 X4 HP4 [K4 V4] _.
  apply (step_call _ c4 []) with (Q := is_const false); [done|up|set_solver|by apply builds_zero; [|up]|].
  intros zw c5 Hc5 X5 _ [Kz Vz] _. apply builds_ret; [done|].
  assert (length (x1 :: xs) = S m /\ length (y1 :: ys) = S m) as [LX LY] by (unfold m; cbn in *; lia).
  assert (take (1 + m + length (x0 :: x1 :: xs) + 1) z
    = z0 :: take m (drop 1 z) ++ take (S (length (x0 :: x1 :: xs))) (drop (1 + m) z)) as Et.
  { rewrite Ez at 1. replace (1 + m + length (x0 :: x1 :: xs) + 1)%nat with (S (m + S (length (x0 :: x1 :: xs)))) by lia.
    cbn [take]. f_equal. by rewrite <- take_take_drop, drop_drop. }
  assert (length (take (1 + m + length (x0 :: x1 :: xs) + 1) z ++ replicate (length z - (1 + m + length (x0 :: x1 :: xs) + 1)) zw)
    = length z) as El by (rewrite length_app, length_take, length_replicate; lia).
  split_and!; [done|rewrite Et; apply Forall_app; split; [constructor; [up|apply Forall_app; split; up]|by apply Forall_replicate]|].
  intros env Hs. rewrite El, wires_val_app, bits_val_zeros by auto. rewrite Et, Z.mul_0_r, Z.add_0_r.
  pose proof (V3 env ltac:(up)) as E3. rewrite (V2 env) in E3 by up.
  apply (array_value env x0 (x1 :: xs) y0 (y1 :: ys) _ _ _ (bits_val env s3) m yj);
    [done|done|done|rewrite length_take, length_drop; lia|apply (V1 env); up|done|apply (V4 env); up|].
  rewrite length_take, length_drop. cbn [length] in *. lia.
Qed.

(** The width the multiplier works on. *)
Definition mul_width (x y z : list Z) : nat := Nat.min (Nat.max (length x) (length y)) (length z).

(** The array multiplier is correct on every width but one-bit operands with a
    result of more than two bits. *)
Lemma builds_array c x y z : cc_ok c -> Forall (fun w => w ∈ known c) x -> Forall (fun w => w ∈ known c) y -> outs c z ->
  (0 < mul_width x y z)%nat -> (mul_width x y z = 1 -> length z <= 2)%nat ->
  builds (drives z c) c (new_array_multiplier x y z) (fun z' c' =>
    length z' = length z /\ Forall (fun w => w ∈ known c') z' /\ multiplies x y z' c').
Proof.
  intros Hc Hx Hy Ho Hw Hw1. unfold mul_width in *. unfold new_array_multiplier.
  eapply (step_call _ c []); [done|up|set_solver|by apply builds_zero_pad|].
  intros [x1 y1] c1 Hc1 X1 HP1 (L1 & L2 & Kx & Ky & V1) S1. cbn [fst snd] in *.
  assert (outs c1 z) as Ho1 by (eapply outs_spares; [done|by intros ? _ ?%elem_of_nil|done]).
  assert (length (take (length z) x1) = length (take (length z) y1)) as Hl by (rewrite !length_take; lia).
  apply (Forall_take _ (length z)) in Kx. apply (Forall_take _ (length z)) in Ky.
  eapply (builds_weaken (drives z c1) _ _ _ (fun z' c' => length z' = length z /\ Forall (fun w => w ∈ known c') z'
    /\ multiplies (take (length z) x1) (take (length z) y1) z' c')).
  - assert (length (take (length z) x1) = Nat.min (Nat.max (length x) (length y)) (length z)) as Lt
      by (rewrite length_take; lia).
    destruct (take (length z) x1) as [|x0 xs]; [cbn in Lt; lia|].
    destruct (take (length z) y1) as [|y0 ys]; [done|].
    destruct xs as [|xa xs].
    + destruct ys; [|done]. apply Forall_inv in Kx. apply Forall_inv in Ky.
      apply builds_one_bit; [done|done|done|done|]. cbn in Lt. lia.
    + apply (builds_array_rows c1 x0 (xa :: xs) y0 ys); [done|done|done|by injection Hl|done| |done]. cbn in *. lia.
  - intros o [?|?]; [by left|right; by eapply fresh_mono].
  - intros z' c2 Hc2 X2 (L & K & V). split_and!; [done|done|]. intros env Hs. rewrite (V env Hs), L, truncated_product.
    destruct (V1 env ltac:(up)) as [-> ->]. done.
Qed.

(** ** Karatsuba's recursion *)

Lemma builds_shift c w size count : cc_ok c -> Forall (fun w => w ∈ known c) w ->
  builds (drives [] c) c (shift_left w size count) (fun r c' =>
    length r = size /\ Forall (fun w => w ∈ known c') r /\ forall env, sat env c' ->
      bits_val env r = (bits_val env w * 2 ^ Z.of_nat count) mod 2 ^ Z.of_nat size).
Proof.
  intros Hc Hw. unfold shift_left.
  apply (step_call _ c []) with (Q := is_const false); [done|up|set_solver|by apply builds_zero; [|up]|].
  intros z c1 Hc1 X1 _ [Kz Vz] _. apply builds_ret; [done|]. destruct (Nat.ltb_spec count size) as [H|H].
  - split_and!.
    + rewrite length_app, length_replicate, pad_length; [lia|]. rewrite length_take. lia.
    + apply Forall_app; split; [by apply Forall_replicate|]. apply pad_known; [done|]. apply Forall_take. up.
    + intros env Hs. rewrite wires_val_app, bits_val_zeros, pad_val, bits_val_take, length_replicate by auto.
      rewrite (Z.mul_comm (bits_val env w)), Z.add_0_l.
      replace (Z.of_nat size) with (Z.of_nat count + Z.of_nat (size - count)) by lia.
      rewrite Z.pow_add_r, Z.mul_mod_distr_l by lia. done.
  - split_and!; [apply length_replicate|by apply Forall_replicate|]. intros env Hs. rewrite bits_val_zeros by auto.
    replace (Z.of_nat count) with (Z.of_nat (count - size) + Z.of_nat size) by lia.
    rewrite Z.pow_add_r, Z.mul_assoc, Z.mod_mul by lia. done.
Qed.

Lemma outs_perm c z z' : Permutation z z' -> outs c z -> outs c z'.
Proof. intros Hp [Hn Hu]. split; by rewrite <- Hp. Qed.

(** A fresh wire per result bit, distinct from the wires still to be driven. *)
Lemma step_fresh {B} P n (f : list Z -> build B) c R : cc_ok c -> covers P c ->
  (forall ws c', cc_ok c' -> extends P c c' -> covers P c' -> length ws = n -> (forall w, w ∈ ws -> P w) ->
     (forall z, outs c z -> outs c' (ws ++ z)) -> builds P c' (f ws) R) ->
  builds P c (fresh n ≫= f) R.
Proof.
  revert c f. induction n as [|n IH]; intros c f Hc HP Hf.
  - eapply builds_bind; [by apply (builds_ret _ _ _ (fun a c' => a = [] /\ c' = c))|]. intros ? ? _ _ [-> ->].
    apply Hf; [done|apply extends_refl|done|done|by intros ? ?%elem_of_nil|done].
  - cbn [fresh].
    assert (builds P c (w ← wire; ws ← fresh n; f (w :: ws)) R) as H.
    { apply step_wire; [done|done|]. intros w c1 Hc1 X1 HP1 Pw Uw H1. apply IH; [done|done|].
      intros ws c2 Hc2 X2 HP2 L Hall Hpres.
      apply Hf; [done|by eapply extends_trans|done|cbn; lia| |].
      - intros x [->|Hx]%elem_of_cons; auto.
      - intros z [Hn Hu]. rewrite Forall_forall in Hu. apply (outs_perm c2 (ws ++ w :: z)); [by rewrite <- Permutation_middle|].
        apply Hpres, outs_cons. split_and!; [done|intros Hw; by destruct (H1 w (Hu w Hw))|]. split; [done|].
        apply Forall_forall. intros x Hx. by apply H1, Hu. }
    revert H. unfold builds, mbind, build_bind, mret, build_ret.
    by destruct (wire c) as [[w c1]| |]; [destruct (fresh n c1) as [[ws c2]| |]|..].
Qed.

(** An operation on fresh result wires leaves the wires still to be driven alone. *)
Lemma step_fresh_op {A B} P n (m : list Z -> build A) (k : A -> build B) c Q R : cc_ok c -> covers P c ->
  (forall ws c', cc_ok c' -> extends P c c' -> length ws = n -> outs c' ws -> builds (drives ws c') c' (m ws) (Q ws)) ->
  (forall ws a c', cc_ok c' -> extends P c c' -> covers P c' -> length ws = n -> Q ws a c' -> (forall z, outs c z -> outs c' z) ->
     builds P c' (k a) R) ->
  builds P c (ws ← fresh n; a ← m ws; k a) R.
Proof.
  intros Hc HP Hm Hk. apply step_fresh; [done|done|]. intros ws c1 Hc1 X1 HP1 L HPw Hpres.
  assert (outs c1 ws) as Hws.
  { rewrite <- (app_nil_r ws). apply Hpres. split; constructor. }
  eapply (step_call _ c1 ws); [done|done|done|by apply Hm|]. intros a c2 Hc2 X2 HP2 HQ S2.
  apply (Hk ws); [done|by eapply extends_trans|done|done|done|]. intros z Hz.
  destruct (Hpres z Hz) as [(_ & Hd & Hn)%NoDup_app [_ Hu]%Forall_app].
  apply (outs_spares c1 c2 ws); [done| |by split]. intros x Hx Hxw. by apply (Hd x).
Qed.

(** Reduction modulo the result width, as an explicit multiple. *)
Lemma mod_multiple v M : M <> 0 -> exists q, v mod M = v + q * M.
Proof. intros H. exists (- (v / M)). rewrite Z.mod_eq by done. lia. Qed.

(** The recombination of the three products. *)
Definition recombine (z0 z1 z2 : Z) (mid d L : nat) : Z :=
  let M := 2 ^ Z.of_nat L in
  let s1 := (z1 - z2) mod 2 ^ Z.of_nat d in
  let s2 := (s1 - z0) mod M in
  let h1 := (z2 * 2 ^ Z.of_nat (mid * 2)) mod M in
  let h2 := (s2 * 2 ^ Z.of_nat mid) mod M in
  ((h1 + h2) mod M + z0) mod M.

Lemma recombine_value al ah bl bh (mid d L : nat) z0 z1 z2 : let M := 2 ^ Z.of_nat L in
  z0 = (al * bl) mod M -> z1 = ((al + ah) * (bl + bh)) mod M -> z2 = (ah * bh) mod M ->
  (z1 - z2) mod 2 ^ Z.of_nat d = (z1 - z2) mod M ->
  recombine z0 z1 z2 mid d L = ((al + 2 ^ Z.of_nat mid * ah) * (bl + 2 ^ Z.of_nat mid * bh)) mod M.
Proof.
  intros M E0 E1 E2 E3. unfold recombine. cbv zeta. rewrite E3. fold M. assert (M <> 0) as HM by lia.
  replace (2 ^ Z.of_nat (mid * 2)) with (2 ^ Z.of_nat mid * 2 ^ Z.of_nat mid)
    by (rewrite <- Z.pow_add_r by lia; f_equal; lia).
  set (p := 2 ^ Z.of_nat mid). clearbody M p. clear E3.
  destruct (mod_multiple (al * bl) M HM) as [q0 F0]. destruct (mod_multiple ((al + ah) * (bl + bh)) M HM) as [q1 F1].
  destruct (mod_multiple (ah * bh) M HM) as [q2 F2]. rewrite F0 in E0. rewrite F1 in E1. rewrite F2 in E2.
  destruct (mod_multiple (z1 - z2) M HM) as [q3 ->]. set (s1 := z1 - z2 + q3 * M).
  destruct (mod_multiple (s1 - z0) M HM) as [q4 ->]. set (s2 := s1 - z0 + q4 * M).
  destruct (mod_multiple (z2 * (p * p)) M HM) as [q5 ->]. destruct (mod_multiple (s2 * p) M HM) as [q6 ->].
  match goal with |- (?x mod M + z0) mod M = _ => destruct (mod_multiple x M HM) as [q7 ->] end.
  rewrite <- (Z.mod_add ((al + p * ah) * (bl + p * bh)) (q0 * (1 - p) + q2 * (p * p) + q5 + (q1 - q2 + q3 + q4) * p + q6 + q7)) by lia.
  f_equal. unfold s2, s1. rewrite E0, E1, E2. ring.
Qed.

(** A product of [n]-bit numbers needs no more than twice their width. *)
Lemma product_bound x y (n : nat) : 0 <= x < 2 ^ Z.of_nat n -> 0 <= y < 2 ^ Z.of_nat n -> 0 <= x * y < 2 ^ Z.of_nat (2 * n).
Proof.
  intros Hx Hy. replace (Z.of_nat (2 * n)) with (Z.of_nat n + Z.of_nat n) by lia. rewrite Z.pow_add_r by lia. nia.
Qed.

Lemma mod_of_narrow v (n L : nat) : 0 <= v < 2 ^ Z.of_nat n -> v mod 2 ^ Z.of_nat (Nat.min n L) = v mod 2 ^ Z.of_nat L.
Proof.
  intros Hv. destruct (Nat.min_dec n L) as [E|E]; rewrite E; [|done].
  pose proof (Z.pow_le_mono_r 2 (Z.of_nat n) (Z.of_nat L)) as Hp.
  pose proof (Nat.le_min_r n L) as Hn. rewrite E in Hn. rewrite !Z.mod_small by lia. done.
Qed.

Lemma sum_bound x y (m n : nat) : 0 <= x < 2 ^ Z.of_nat m -> 0 <= y < 2 ^ Z.of_nat n -> (m <= n)%nat ->
  0 <= x + y < 2 ^ Z.of_nat (S n).
Proof.
  intros Hx Hy Hm. pose proof (Z.pow_le_mono_r 2 (Z.of_nat m) (Z.of_nat n)).
  rewrite Nat2Z.inj_succ, Z.pow_succ_r by lia. lia.
Qed.

(** The middle difference never borrows below the result width. *)
Lemma middle_difference u v (k k' L : nat) : 0 <= v <= u -> u < 2 ^ Z.of_nat k -> (k' <= k)%nat ->
  let M := 2 ^ Z.of_nat L in
  (u mod M - v mod M) mod 2 ^ Z.of_nat (Nat.min L (S (Nat.max (Nat.min k L) (Nat.min k' L)))) = (u mod M - v mod M) mod M.
Proof.
  intros Hv Hu Hk M. assert (k < L \/ L <= k)%nat as [H|H] by lia.
  - replace (Nat.min L _) with (S k) by lia. unfold M. clear M.
    pose proof (Z.pow_le_mono_r 2 (Z.of_nat (S k)) (Z.of_nat L)). rewrite Nat2Z.inj_succ, Z.pow_succ_r in * by lia.
    rewrite (Z.mod_small u), (Z.mod_small v), !Z.mod_small by lia. done.
  - by replace (Nat.min L _) with L by lia.
Qed.

Lemma width_of_difference (L k : nat) : Nat.min L (S (Nat.max L k)) = L.
Proof. lia. Qed.

Lemma bits_val_split env mid a : bits_val env a = bits_val env (take mid a) + 2 ^ Z.of_nat (Nat.min mid (length a)) * bits_val env (drop mid a).
Proof. rewrite <- (take_drop mid a) at 1. by rewrite wires_val_app, length_take. Qed.

(** The value of the recursion, from the values of its parts at their widths. *)
Lemma karatsuba_total al ah bl bh (mid h L : nat) z0 sa sb z1 z2 : (mid <= h)%nat ->
  0 <= al < 2 ^ Z.of_nat mid -> 0 <= bl < 2 ^ Z.of_nat mid -> 0 <= ah < 2 ^ Z.of_nat h -> 0 <= bh < 2 ^ Z.of_nat h ->
  let l1 := Nat.min (2 * S h) L in
  let l2 := Nat.min (2 * h) L in
  z0 = (al * bl) mod 2 ^ Z.of_nat (Nat.min (2 * mid) L) ->
  sa = (al + ah) mod 2 ^ Z.of_nat (S h) -> sb = (bl + bh) mod 2 ^ Z.of_nat (S h) ->
  z1 = (sa * sb) mod 2 ^ Z.of_nat l1 -> z2 = (ah * bh) mod 2 ^ Z.of_nat l2 ->
  recombine z0 z1 z2 mid (Nat.min L (S (Nat.max l1 l2))) L
  = ((al + 2 ^ Z.of_nat mid * ah) * (bl + 2 ^ Z.of_nat mid * bh)) mod 2 ^ Z.of_nat L.
Proof.
  intros Hh Hal Hbl Hah Hbh l1 l2 -> -> -> -> ->. unfold l1, l2. clear l1 l2.
  pose proof (sum_bound _ _ _ _ Hal Hah Hh) as Ha. pose proof (sum_bound _ _ _ _ Hbl Hbh Hh) as Hb.
  pose proof (product_bound _ _ _ Ha Hb) as B1. pose proof (product_bound _ _ _ Hah Hbh) as B2.
  rewrite (Z.mod_small (al + ah)), (Z.mod_small (bl + bh)) by done.
  rewrite !mod_of_narrow by (try done; by apply product_bound).
  apply recombine_value; [done|done|done|]. apply middle_difference; [nia|lia|lia].
Qed.

Definition mul_spec (a b r : list Z) (c : Compiler) (m : build (list Z)) : Prop :=
  builds (drives r c) c m (fun r' c' =>
    length r' = length r /\ Forall (fun w => w ∈ known c') r' /\ multiplies a b r' c').

(** The recombination, as gates. *)
Lemma builds_recombine z0 z1 z2 mid r c : cc_ok c -> Forall (fun w => w ∈ known c) z0 -> Forall (fun w => w ∈ known c) z1 ->
  Forall (fun w => w ∈ known c) z2 -> (length z0 <= length r)%nat -> outs c r ->
  builds (drives r c) c
    (let rlen := length r in
     sub1 ← fresh rlen;
     sub1 ← new_subtractor z1 z2 sub1;
     sub2 ← fresh rlen;
     sub2 ← new_subtractor sub1 z0 sub2;
     shift1 ← shift_left z2 rlen (mid * 2);
     shift2 ← shift_left sub2 rlen mid;
     add1 ← fresh rlen;
     add1 ← new_adder shift1 shift2 add1;
     new_adder add1 z0 r)
    (fun r' c' => length r' = length r /\ Forall (fun w => w ∈ known c') r' /\ forall env, sat env c' ->
       bits_val env r' = recombine (bits_val env z0) (bits_val env z1) (bits_val env z2) mid
         (Nat.min (length r) (S (Nat.max (length z1) (length z2)))) (length r)).
Proof.
  intros Hc K0 K1 K2 Hl Ho. cbv zeta. set (L := length r) in *.
  eapply step_fresh_op; [done|up|intros ws c' Hc' X Lw Hws; apply builds_subtractor; [done|up|up|by apply outs_slots]|].
  intros w3 s1 c6 Hc6 X6 HP6 W6 (L6 & K6 & V6 & _) O6.
  eapply step_fresh_op; [done|done|intros ws c' Hc' X Lw Hws; apply builds_subtractor; [done|up|up|by apply outs_slots]|].
  intros w4 s2 c7 Hc7 X7 HP7 W7 (L7 & K7 & V7 & _) O7.
  eapply (step_call _ c7 []); [done|up|set_solver|apply builds_shift; [done|up]|].
  intros h1 c8 Hc8 X8 HP8 (L8 & K8 & V8) S8.
  eapply (step_call _ c8 []); [done|up|set_solver|apply builds_shift; [done|up]|].
  intros h2 c9 Hc9 X9 HP9 (L9 & K9 & V9) S9.
  eapply step_fresh_op; [done|done|intros ws c' Hc' X Lw Hws; apply builds_adder; [done|up|up|lia|by apply outs_slots]|].
  intros w5 a1 c10 Hc10 X10 HP10 W10 (L10 & K10 & V10 & _) O10.
  assert (outs c10 r) as Hor.
  { apply O10. apply (outs_spares c8 c9 []); [done|by intros ? _ ?%elem_of_nil|].
    apply (outs_spares c7 c8 []); [done|by intros ? _ ?%elem_of_nil|]. by apply O7, O6. }
  eapply builds_weaken; [apply builds_adder; [done|up|up|lia|by apply outs_slots]| |].
  { intros o [?|?]; [by left|right; by repeat (eapply fresh_mono; [done|])]. }
  intros r' c11 Hc11 X11 (L11 & K11 & V11 & _). split_and!; [done|done|]. intros env Hs.
  rewrite (V11 env Hs), (V10 env), (V9 env), (V8 env), (V7 env), (V6 env) by up.
  rewrite L11, L10, W10, L7, W7, L6, W6. unfold recombine. by rewrite width_of_difference.
Qed.

(** One level of the recursion, for any multiplier [rec] of narrower operands. *)
Lemma builds_karatsuba_step (rec : list Z -> list Z -> list Z -> build (list Z)) n mid a b r c :
  (forall a b r c, (Nat.max (length a) (length b) < n)%nat -> (2 <= mul_width a b r)%nat -> cc_ok c ->
     Forall (fun w => w ∈ known c) a -> Forall (fun w => w ∈ known c) b -> outs c r -> mul_spec a b r c (rec a b r)) ->
  length a = n -> length b = n -> (2 * mid <= n <= 2 * mid + 1)%nat -> (4 <= mid)%nat -> (n <= length r)%nat ->
  cc_ok c -> Forall (fun w => w ∈ known c) a -> Forall (fun w => w ∈ known c) b -> outs c r ->
  mul_spec a b r c
    (let rlen := length r in
     let a_low := take mid a in
     let a_high := drop mid a in
     let b_low := take mid b in
     let b_high := drop mid b in
     z0 ← fresh (Nat.min (Nat.max (length a_low) (length b_low) * 2) rlen);
     z0 ← rec a_low b_low z0;
     let a_sum_len := (Nat.max (length a_low) (length a_high) + 1)%nat in
     a_sum ← fresh a_sum_len;
     a_sum ← new_adder a_low a_high a_sum;
     let b_sum_len := (Nat.max (length b_low) (length b_high) + 1)%nat in
     b_sum ← fresh b_sum_len;
     b_sum ← new_adder b_low b_high b_sum;
     z1 ← fresh (Nat.min (Nat.max a_sum_len b_sum_len * 2) rlen);
     z1 ← rec a_sum b_sum z1;
     z2 ← fresh (Nat.min (Nat.max (length a_high) (length b_high) * 2) rlen);
     z2 ← rec a_high b_high z2;
     sub1 ← fresh rlen;
     sub1 ← new_subtractor z1 z2 sub1;
     sub2 ← fresh rlen;
     sub2 ← new_subtractor sub1 z0 sub2;
     shift1 ← shift_left z2 rlen (mid * 2);
     shift2 ← shift_left sub2 rlen mid;
     add1 ← fresh rlen;
     add1 ← new_adder shift1 shift2 add1;
     new_adder add1 z0 r).
Proof.
  intros Hrec La Lb Hn Hmid Hr Hc Ha Hb Ho. unfold mul_spec. cbv zeta. set (L := length r) in *.
  pose proof (Forall_take _ mid a Ha) as Hal. pose proof (Forall_drop _ mid a Ha) as Hah.
  pose proof (Forall_take _ mid b Hb) as Hbl. pose proof (Forall_drop _ mid b Hb) as Hbh.
  assert (length (take mid a) = mid /\ length (take mid b) = mid /\ length (drop mid a) = (n - mid)%nat
          /\ length (drop mid b) = (n - mid)%nat) as (Lal & Lbl & Lah & Lbh)
    by (rewrite !length_take, !length_drop; lia).
  assert (forall env, bits_val env a = bits_val env (take mid a) + 2 ^ Z.of_nat mid * bits_val env (drop mid a)
    /\ bits_val env b = bits_val env (take mid b) + 2 ^ Z.of_nat mid * bits_val env (drop mid b)) as Hsplit.
  { intros env. rewrite (bits_val_split env mid a), (bits_val_split env mid b), La, Lb.
    replace (Nat.min mid n) with mid by lia. done. }
  set (al := take mid a) in *. set (ah := drop mid a) in *. set (bl := take mid b) in *. set (bh := drop mid b) in *.
  rewrite Lal, Lbl, Lah, Lbh.
  replace (Nat.max mid mid * 2)%nat with (2 * mid)%nat by lia. replace (Nat.max mid (n - mid) + 1)%nat with (S (n - mid)) by lia.
  replace (Nat.max (S (n - mid)) (S (n - mid)) * 2)%nat with (2 * S (n - mid))%nat by lia.
  replace (Nat.max (n - mid) (n - mid) * 2)%nat with (2 * (n - mid))%nat by lia.
  eapply step_fresh_op; [done|up|intros ws c' Hc' X Lw Hws; apply Hrec; [lia|unfold mul_width; lia|done|up|up|done]|].
  intros w0 z0 c1 Hc1 X1 HP1 W1 (L1 & K1 & V1) O1.
  eapply step_fresh_op; [done|done|intros ws c' Hc' X Lw Hws; apply builds_adder; [done|up|up|lia|by apply outs_slots]|].
  intros wa sa c2 Hc2 X2 HP2 W2 (L2 & K2 & V2 & _) O2.
  eapply step_fresh_op; [done|done|intros ws c' Hc' X Lw Hws; apply builds_adder; [done|up|up|lia|by apply outs_slots]|].
  intros wb sb c3 Hc3 X3 HP3 W3 (L3 & K3 & V3 & _) O3.
  eapply step_fresh_op; [done|done|intros ws c' Hc' X Lw Hws; apply Hrec; [lia|unfold mul_width; lia|done|up|up|done]|].
  intros w1 z1 c4 Hc4 X4 HP4 W4 (L4 & K4 & V4) O4.
  eapply step_fresh_op; [done|done|intros ws c' Hc' X Lw Hws; apply Hrec; [lia|unfold mul_width; lia|done|up|up|done]|].
  intros w2 z2 c5 Hc5 X5 HP5 W5 (L5 & K5 & V5) O5.
  eapply builds_weaken; [apply (builds_recombine z0 z1 z2 mid r c5); [done|up|up|up|lia|by apply O5, O4, O3, O2, O1]| |].
  { intros o [?|?]; [by left|right; by repeat (eapply fresh_mono; [done|])]. }
  intros r' c6 Hc6 X6 (L6 & K6 & V6). split_and!; [done|done|]. intros env Hs.
  rewrite (V6 env Hs), L6. destruct (Hsplit env) as [-> ->].
  pose proof (V1 env ltac:(up)) as E1. pose proof (V2 env ltac:(up)) as E2. pose proof (V3 env ltac:(up)) as E3.
  pose proof (V4 env ltac:(up)) as E4. pose proof (V5 env ltac:(up)) as E5.
  rewrite L1, W1 in E1. rewrite L2, W2 in E2. rewrite L3, W3 in E3. rewrite L4, W4 in E4. rewrite L5, W5 in E5.
  rewrite L4, W4, L5, W5.
  eapply karatsuba_total; [lia|rewrite <- Lal|rewrite <- Lbl|rewrite <- Lah|rewrite <- Lbh|exact E1|exact E2|exact E3|exact E4|exact E5];
    apply wires_val_range.
Qed.

Lemma builds_karatsuba fuel limit a b r c : (8 <= limit)%nat -> (Nat.max (length a) (length b) < fuel)%nat ->
  cc_ok c -> Forall (fun w => w ∈ known c) a -> Forall (fun w => w ∈ known c) b -> outs c r ->
  (0 < mul_width a b r)%nat -> (mul_width a b r = 1 -> length r <= 2)%nat ->
  mul_spec a b r c (karatsuba fuel limit a b r).
Proof.
  intros Hlim. revert a b r c. induction fuel as [|fuel IH]; intros a b r c Hf Hc Ha Hb Ho Hw Hw1; [lia|].
  unfold mul_spec. cbn [karatsuba].
  eapply (step_call _ c []); [done|up|set_solver|by apply builds_zero_pad|].
  intros [a1 b1] c1 Hc1 X1 HP1 (L1 & L2 & Ka & Kb & V1) S1. cbn [fst snd] in *.
  assert (outs c1 r) as Ho1 by (eapply outs_spares; [done|by intros ? _ ?%elem_of_nil|done]).
  apply (Forall_take _ (length r)) in Ka. apply (Forall_take _ (length r)) in Kb.
  assert (length (take (length r) a1) = mul_width a b r /\ length (take (length r) b1) = mul_width a b r) as [La Lb]
    by (rewrite !length_take; unfold mul_width; lia).
  assert (forall env, sat env c1 -> (bits_val env a * bits_val env b) mod 2 ^ Z.of_nat (length r)
    = (bits_val env (take (length r) a1) * bits_val env (take (length r) b1)) mod 2 ^ Z.of_nat (length r)) as Hprod.
  { intros env Hs. rewrite truncated_product. by destruct (V1 env Hs) as [-> ->]. }
  assert (mul_width a b r <= length r /\ mul_width a b r <= Nat.max (length a) (length b))%nat as [Hnr Hnm] by (unfold mul_width; lia).
  set (n := mul_width a b r) in *. clearbody n.
  generalize dependent (take (length r) a1). generalize dependent (take (length r) b1). clear V1 L1 L2.
  intros b' Kb Lb a' Ka La Hprod. rewrite La. destruct (Nat.leb_spec n limit) as [Hle|Hgt].
  { eapply builds_weaken; [apply builds_array; [done|done|done|done|unfold mul_width; lia|unfold mul_width; lia]| |].
    - intros o [?|?]; [by left|right; by eapply fresh_mono].
    - intros r' c2 Hc2 X2 (L & K & V). split_and!; [done|done|]. intros env Hs. rewrite (V env Hs), L.
      symmetry. apply Hprod. up. }
  eapply builds_weaken; [apply (builds_karatsuba_step (karatsuba fuel limit) n (n / 2) a' b' r c1)| |].
  - intros a2 b2 r2 c2 Hl2 Hw2 Hc2 Ha2 Hb2 Ho2. apply IH; [lia|done|done|done|done|lia|lia].
  - done.
  - done.
  - pose proof (Nat.div_mod n 2). pose proof (Nat.mod_upper_bound n 2). lia.
  - apply Nat.div_le_lower_bound; lia.
  - done.
  - done.
  - done.
  - done.
  - done.
  - intros o [?|?]; [by left|right; by eapply fresh_mono].
  - intros r' c2 Hc2 X2 (L & K & V). split_and!; [done|done|]. intros env Hs. rewrite (V env Hs), L.
    symmetry. apply Hprod. up.
Qed.

(** The multiplier of the language, at the default threshold. *)
Lemma builds_multiplier c threshold x y z : cc_ok c -> Forall (fun w => w ∈ known c) x -> Forall (fun w => w ∈ known c) y ->
  outs c z -> (0 < mul_width x y z)%nat -> (mul_width x y z = 1 -> length z <= 2)%nat ->
  mul_spec x y z c (new_multiplier threshold x y z).
Proof.
  intros. unfold new_multiplier, new_karatsuba_multiplier. apply builds_karatsuba; try done; [|lia].
  destruct (Nat.ltb_spec threshold 8); [unfold DEFAULT_ARRAY_THRESHOLD|]; lia.
Qed.
