(* ===== verification/CircuitCompile.v ===== *)
(** * Compiling a gate list ([compile_circuit] of circuits/compiler.rs)

    The wires of a gate list are numbered (inputs first, outputs last), its gates
    rewritten to the numbers and sorted.  The compiled circuit computes what the
    gate list says: [compute] on the input numbers returns the numbers that every
    satisfying assignment puts on the output wires. *)

From S2P Require Import Prelude Bytes QclTypes Circuit CircuitBuild CircuitLogic CircuitArith CircuitMul.

(** ** Arrays *)

Lemma index_Some {A} (v : list A) i x : 0 <= i -> v !! Z.to_nat i = Some x -> index v i = Ok x.
Proof.
  intros Hi Hx. unfold index. pose proof (lookup_lt_Some _ _ _ Hx).
  destruct (Z.leb_spec 0 i), (Z.ltb_spec i (Z.of_nat (length v))); try lia. cbn [andb]. by rewrite Hx.
Qed.
Lemma index_nat {A} (v : list A) i x : v !! i = Some x -> index v (Z.of_nat i) = Ok x.
Proof. intros Hx. apply index_Some; [lia|by rewrite Nat2Z.id]. Qed.
Lemma index_set_ok {A} (v : list A) i x : 0 <= i < Z.of_nat (length v) ->
  index_set v i x = Ok (<[Z.to_nat i := x]> v).
Proof.
  intros Hi. unfold index_set. by rewrite (proj2 (Z.leb_le _ _)), (proj2 (Z.ltb_lt _ _)) by lia.
Qed.

(** ** Numbering the wires *)

(** [c] is [c0] with the wires of [S] numbered in order. *)
Record numbering (c0 : Compiler) (S : list Z) (c : Compiler) : Prop := {
  num_same : c = with_next (with_wires c0 (wires c)) (next_wire c);
  num_length : length (wires c) = length (wires c0);
  num_nodup : NoDup S;
  num_range : Forall (in_range c0) S;
  num_next : next_wire c = Z.of_nat (length S);
  num_ids : forall i w, S !! i = Some w ->
    exists x, wires c !! Z.to_nat w = Some x /\ wire_id x = Z.of_nat i;
  num_rest : forall w, in_range c0 w -> w ∉ S ->
    exists x, wires c !! Z.to_nat w = Some x /\ wire_id x = UNASSIGNED_ID;
}.

(** The wire count fits the [u32] numbers. *)
Definition fits (c : Compiler) : Prop := Z.of_nat (length (wires c)) < UNASSIGNED_ID.

Lemma NoDup_range_length (S : list Z) n : NoDup S -> Forall (fun w => 0 <= w < Z.of_nat n) S -> (length S <= n)%nat.
Proof.
  intros Hn Hr. assert (NoDup (Z.to_nat <$> S)) as Hn'.
  { apply NoDup_fmap_2_strong; [|done]. intros x y Hx Hy. rewrite Forall_forall in Hr.
    pose proof (Hr x Hx). pose proof (Hr y Hy). lia. }
  assert (Z.to_nat <$> S ⊆ seq 0 n) as Hsub.
  { intros k (w & -> & Hw)%list_elem_of_fmap. rewrite Forall_forall in Hr. pose proof (Hr w Hw).
    apply elem_of_seq. lia. }
  pose proof (NoDup_submseteq _ _ Hn' (fun x Hx => Hsub x Hx)) as Hlen. apply submseteq_length in Hlen.
  by rewrite length_fmap, length_seq in Hlen.
Qed.

Lemma numbering_start c : cc_ok c -> numbering c [] c.
Proof.
  intros Hc. destruct (ok_fresh_ids c Hc) as [Hi Hn]. split; [by destruct c|done|constructor|done|done|done|].
  intros w [Hw1 Hw2] _. destruct (lookup_lt_is_Some_2 (wires c) (Z.to_nat w)) as [x Hx]; [lia|].
  exists x. split; [done|]. rewrite Forall_lookup in Hi. by eapply Hi.
Qed.

Lemma numbering_set c0 S c w : fits c0 -> numbering c0 S c -> in_range c0 w -> w ∉ S ->
  exists c', set_wire_id w c = Ok ((), c') /\ numbering c0 (S ++ [w]) c'.
Proof.
  intros Hf [H1 H2 H3 H4 H5 H6 H7] Hw HS. destruct (H7 w Hw HS) as (x & Hx & _).
  pose proof (NoDup_range_length S (length (wires c0)) H3 H4) as HL. unfold fits, UNASSIGNED_ID, u32_max in Hf.
  set (ws := <[Z.to_nat w := set_id x (next_wire c)]> (wires c)).
  exists (with_next (with_wires c ws) (wrap_u32 (next_wire c + 1))). split.
  { unfold set_wire_id, next_wire_id, alter_wire, mbind, build_bind. cbn [wires with_next].
    rewrite (index_Some _ w x); [done|apply Hw|done]. }
  assert (wrap_u32 (next_wire c + 1) = Z.of_nat (length (S ++ [w]))) as Hnext.
  { rewrite length_app, H5. cbn [length]. unfold wrap_u32. rewrite Z.mod_small by lia. lia. }
  split; cbn [wires with_next with_wires next_wire].
  - rewrite H1. done.
  - unfold ws. by rewrite length_insert.
  - apply NoDup_app. split_and!; [done|set_solver|apply NoDup_singleton].
  - apply Forall_app. by split; [|constructor].
  - done.
  - intros i v Hi. apply lookup_app_Some in Hi as [Hi|[Hi Hv]].
    + destruct (H6 i v Hi) as (y & Hy & Hid). exists y. split; [|done]. unfold ws. rewrite list_lookup_insert_ne; [done|].
      apply list_elem_of_lookup_2 in Hi. rewrite Forall_forall in H4. pose proof (H4 v Hi) as [? ?]. destruct Hw.
      intros ?. assert (v = w) by lia. by subst.
    + apply list_lookup_singleton_Some in Hv as [Hv <-]. exists (set_id x (next_wire c)).
      split; [|cbn; lia]. unfold ws. rewrite list_lookup_insert_eq; [done|]. by eapply lookup_lt_Some.
  - intros v Hv Hn. apply not_elem_of_app in Hn as [Hn Hne]. destruct (H7 v Hv Hn) as (y & Hy & Hid).
    exists y. split; [|done]. unfold ws. rewrite list_lookup_insert_ne; [done|]. destruct Hv, Hw.
    intros ?. apply Hne. assert (v = w) by lia. subst. apply list_elem_of_here.
Qed.

Lemma numbering_assign c0 S c w : fits c0 -> numbering c0 S c -> in_range c0 w ->
  exists S' c', assign_wire w c = Ok ((), c') /\ numbering c0 S' c' /\ w ∈ S'
    /\ (S' = S \/ S' = S ++ [w]).
Proof.
  intros Hf HS Hw. unfold assign_wire, get, lift, mbind, build_bind.
  destruct (decide (w ∈ S)) as [Hin|Hnot].
  - destruct (list_elem_of_lookup_1 _ _ Hin) as [i Hi]. destruct (num_ids _ _ _ HS i w Hi) as (x & Hx & Hid).
    rewrite (index_Some _ w x); [|apply Hw|done].
    assert (assigned x = true) as ->.
    { unfold assigned. apply negb_true_iff, Z.eqb_neq. pose proof (lookup_lt_Some _ _ _ Hi).
      pose proof (NoDup_range_length _ _ (num_nodup _ _ _ HS) (num_range _ _ _ HS)). unfold fits in Hf. lia. }
    exists S, c. split_and!; [done|done|done|by left].
  - destruct (num_rest _ _ _ HS w Hw Hnot) as (x & Hx & Hid). rewrite (index_Some _ w x); [|apply Hw|done].
    assert (assigned x = false) as -> by (unfold assigned; by rewrite Hid, Z.eqb_refl).
    destruct (numbering_set c0 S c w) as (c' & Hc' & HS'); [done..|].
    exists (S ++ [w]), c'. split_and!; [done|done|set_solver|by right].
Qed.

(** The wires [new] appended by a phase: no output among them, every wire of
    [need] numbered afterwards. *)
Definition numbers (c0 : Compiler) (need : list Z) (m : build unit) : Prop :=
  forall S c, numbering c0 S c -> exists new c', m c = Ok ((), c') /\ numbering c0 (S ++ new) c'
    /\ Forall (fun w => w ∈ need) new /\ Forall (fun w => w ∈ S ++ new) need.

Lemma numbers_ret c0 : numbers c0 [] (mret ()).
Proof. intros S c HS. exists [], c. rewrite app_nil_r. by split_and!. Qed.

Lemma numbers_bind c0 n1 n2 m1 m2 : numbers c0 n1 m1 -> numbers c0 n2 m2 -> numbers c0 (n1 ++ n2) (_ ← m1; m2).
Proof.
  intros H1 H2 S c HS. destruct (H1 S c HS) as (w1 & c1 & E1 & S1 & F1 & G1).
  destruct (H2 _ c1 S1) as (w2 & c2 & E2 & S2 & F2 & G2). exists (w1 ++ w2), c2. rewrite app_assoc.
  split_and!; [unfold mbind, build_bind; by rewrite E1|done| |]; apply Forall_app; rewrite ?Forall_forall in *; set_solver.
Qed.

Lemma numbers_assign c0 w : fits c0 -> in_range c0 w -> numbers c0 [w] (assign_wire w).
Proof.
  intros Hf Hw S c HS. destruct (numbering_assign c0 S c w Hf HS Hw) as (S' & c' & E & HS' & Hin & [-> | ->]).
  - exists [], c'. rewrite app_nil_r. split_and!; [done|done|constructor|by constructor].
  - exists [w], c'. split_and!; [done|done|by repeat constructor|by constructor].
Qed.

Lemma numbers_each {A} c0 (need : A -> list Z) (f : A -> build unit) l :
  Forall (fun a => numbers c0 (need a) (f a)) l -> numbers c0 (l ≫= need) (each f l).
Proof. induction 1; [apply numbers_ret|]. by apply numbers_bind. Qed.

(** The wires a gate mentions, without the outputs of the circuit. *)
Definition gate_wires (outs : list Z) (g : BGate) : list Z :=
  filter (fun w => w ∉ outs) (g_a g :: (if decide (g_op g = OInv) then [] else [g_b g]) ++ [g_o g]).

Lemma numbers_inner c0 (outs : list Z) (w : Z) : fits c0 -> in_range c0 w ->
  numbers c0 (filter (fun w => w ∉ outs) [w]) (if decide (w ∈ outs) then mret () else assign_wire w).
Proof.
  intros Hf Hw. rewrite filter_cons, filter_nil. destruct (decide (w ∈ outs)); destruct (decide (w ∉ outs)); try done.
  - apply numbers_ret.
  - by apply numbers_assign.
Qed.

Lemma numbers_gate c0 outs g : fits c0 -> in_range c0 (g_a g) -> in_range c0 (g_b g) -> in_range c0 (g_o g) ->
  dead g = false -> numbers c0 (gate_wires outs g) (assign_gate outs g).
Proof.
  intros Hf Ha Hb Ho Hd. unfold assign_gate, gate_wires. rewrite Hd.
  change (g_a g :: ?l) with ([g_a g] ++ l). rewrite !filter_app.
  apply numbers_bind; [by apply numbers_inner|]. apply numbers_bind; [|by apply numbers_inner].
  destruct (decide (g_op g = OInv)); [apply numbers_ret|by apply numbers_inner].
Qed.

(** Distinct wires without a number, numbered in order. *)
Lemma numbers_exactly c0 (f : Z -> build unit) ws S c :
  (forall S c w, numbering c0 S c -> in_range c0 w -> w ∉ S -> exists c', f w c = Ok ((), c') /\ numbering c0 (S ++ [w]) c') ->
  numbering c0 S c -> Forall (in_range c0) ws -> NoDup (S ++ ws) ->
  exists c', each f ws c = Ok ((), c') /\ numbering c0 (S ++ ws) c'.
Proof.
  intros Hf. revert S c. induction ws as [|w ws IH]; intros S c HS Hr Hn; [exists c; by rewrite app_nil_r|].
  apply Forall_cons in Hr as [Hw Hr]. destruct (Hf S c w) as (c1 & E1 & HS1); [done..| |].
  { apply NoDup_app in Hn as (_ & Hn & _). intros Hin. apply (Hn w Hin), list_elem_of_here. }
  destruct (IH (S ++ [w]) c1 HS1 Hr) as (c2 & E2 & HS2); [by rewrite <- app_assoc|].
  exists c2. split; [|by rewrite <- app_assoc in HS2]. cbn [each]. unfold mbind, build_bind. by rewrite E1.
Qed.

Lemma numbering_assign_new c0 S c w : fits c0 -> numbering c0 S c -> in_range c0 w -> w ∉ S ->
  exists c', assign_wire w c = Ok ((), c') /\ numbering c0 (S ++ [w]) c'.
Proof.
  intros Hf HS Hw Hn. destruct (numbering_assign c0 S c w Hf HS Hw) as (S' & c' & E & HS' & Hin & [-> | ->]); eauto. done.
Qed.

(** ** The topological sort *)

Definition produced_at (p : list bool) (i : Z) : Prop := 0 <= i /\ p !! Z.to_nat i = Some true.
Definition ready (p : list bool) (g : Gate) : Prop :=
  produced_at p (input0 g) /\ (op g = OInv \/ produced_at p (input1 g)).
Definition mark (p : list bool) (g : Gate) : list bool := <[Z.to_nat (output g) := true]> p.
Definition in_bounds (n : nat) (g : Gate) : Prop :=
  0 <= input0 g < Z.of_nat n /\ 0 <= output g < Z.of_nat n /\ (op g = OInv \/ 0 <= input1 g < Z.of_nat n).

(** Every gate comes after the gates that produce its inputs. *)
Fixpoint in_order (p : list bool) (gs : list Gate) : Prop :=
  match gs with
  | [] => True
  | g :: gs => ready p g /\ in_bounds (length p) g /\ in_order (mark p g) gs
  end.

(** The gates can be put in such an order. *)
Definition orderable (p : list bool) (gs : list Gate) : Prop := exists gs', Permutation gs gs' /\ in_order p gs'.

(** More wires produced. *)
Definition grows (p q : list bool) : Prop := length p = length q /\ forall i, produced_at p i -> produced_at q i.

Lemma length_mark p g : length (mark p g) = length p.
Proof. apply length_insert. Qed.

Lemma produced_mark p g i : 0 <= output g -> produced_at (mark p g) i <->
  produced_at p i \/ (i = output g /\ output g < Z.of_nat (length p)).
Proof.
  intros Hg. unfold produced_at, mark. rewrite list_lookup_insert_Some. split.
  - intros [Hi [(E & _ & Hl)|[_ H]]]; [right; lia|by left].
  - intros [[Hi H]|[-> Hl]]; [|split; [done|left; split_and!; [done|done|lia]]]. split; [done|].
    destruct (decide (Z.to_nat (output g) = Z.to_nat i)) as [E|E]; [left|by right].
    split_and!; [done|done|]. by eapply lookup_lt_Some.
Qed.

Lemma grows_mark p g : 0 <= output g -> grows p (mark p g).
Proof. intros Hg. split; [symmetry; apply length_mark|]. intros i Hi. apply produced_mark; auto. Qed.
Lemma mark_grows p q g : 0 <= output g -> grows p q -> grows (mark p g) (mark q g).
Proof.
  intros Hg [Hl H]. split; [by rewrite !length_mark|]. intros i. rewrite !produced_mark, Hl by done.
  intros [?|?]; auto.
Qed.
Lemma grows_trans p q r : grows p q -> grows q r -> grows p r.
Proof. intros [L1 H1] [L2 H2]. split; [congruence|auto]. Qed.
Lemma ready_grows p q g : grows p q -> ready p g -> ready q g.
Proof. intros [_ H] [H0 H1]. split; [auto|]. destruct H1; auto. Qed.

Lemma in_order_grows p q gs : grows p q -> in_order p gs -> in_order q gs.
Proof.
  revert p q. induction gs as [|g gs IH]; [done|]. intros p q H (Hr & Hb & Ho).
  split_and!; [by eapply ready_grows|by rewrite <- (proj1 H)|]. eapply IH; [|done]. apply mark_grows; [apply Hb|done].
Qed.

Lemma in_order_bounds p gs : in_order p gs -> Forall (in_bounds (length p)) gs.
Proof.
  revert p. induction gs as [|g gs IH]; [done|]. intros p (Hr & Hb & Ho). constructor; [done|].
  apply IH in Ho. by rewrite length_mark in Ho.
Qed.

(** A gate that is ready can go first. *)
Lemma in_order_remove p l1 g l2 : in_order p (l1 ++ g :: l2) -> in_order (mark p g) (l1 ++ l2).
Proof.
  revert p. induction l1 as [|h l1 IH]; intros p; cbn [app in_order]; [tauto|]. intros (Hr & Hb & Ho).
  assert (0 <= output g) as Hg.
  { apply in_order_bounds in Ho. rewrite Forall_app, Forall_cons in Ho. apply Ho. }
  split_and!; [eapply ready_grows; [by apply grows_mark|done]|by rewrite length_mark|].
  eapply in_order_grows; [|by apply IH]. destruct Hb as (_ & [Hh _] & _). split; [by rewrite !length_mark|].
  intros i. rewrite !produced_mark, !length_mark by done. tauto.
Qed.

Lemma orderable_ready p g gs : orderable p (g :: gs) -> orderable (mark p g) gs.
Proof.
  intros (gs' & Hp & Ho). destruct (list_elem_of_split gs' g) as (l1 & l2 & ->).
  { rewrite <- Hp. apply list_elem_of_here. }
  exists (l1 ++ l2). split; [|by apply in_order_remove]. apply (Permutation_cons_inv (a := g)).
  by rewrite Hp, Permutation_middle.
Qed.

Lemma orderable_bounds p gs : orderable p gs -> Forall (in_bounds (length p)) gs.
Proof. intros (gs' & Hp & Ho). rewrite Hp. by apply in_order_bounds. Qed.

Lemma orderable_first p gs : orderable p gs -> gs = [] \/ Exists (ready p) gs.
Proof.
  intros ([|g gs'] & Hp & Ho); [left; by apply Permutation_nil_r|right].
  apply Exists_exists. exists g. split; [rewrite Hp; apply list_elem_of_here|apply Ho].
Qed.

#[export] Instance orderable_proper p : Proper (Permutation ==> iff) (orderable p).
Proof.
  intros gs gs' Hp. split; intros (l & Hl & Ho); exists l; (split; [|done]); [by rewrite <- Hp|by rewrite Hp].
Qed.

(** The order a list of gates leaves the produced wires in. *)
Definition marks (p : list bool) (gs : list Gate) : list bool := foldl mark p gs.

Lemma length_marks p gs : length (marks p gs) = length p.
Proof. revert p. induction gs as [|g gs IH]; intros p; [done|]. cbn. by rewrite IH, length_mark. Qed.

Lemma in_order_app p l1 l2 : in_order p (l1 ++ l2) <-> in_order p l1 /\ in_order (marks p l1) l2.
Proof. revert p. induction l1 as [|g l1 IH]; intros p; cbn; [tauto|]. rewrite IH. tauto. Qed.

Lemma ready_decides p g : in_bounds (length p) g -> exists a b,
  index p (input0 g) = Ok a /\ (if decide (op g = OInv) then Ok true else index p (input1 g)) = Ok b /\
  (a && b = true <-> ready p g).
Proof.
  intros (H0 & _ & H1). unfold ready, produced_at.
  destruct (lookup_lt_is_Some_2 p (Z.to_nat (input0 g))) as [a Ha]; [lia|].
  exists a. rewrite Ha, (index_Some p _ a) by (done || lia). destruct (decide (op g = OInv)) as [E|E].
  - exists true. split_and!; [done|done|]. rewrite andb_true_r. split; [intros ->; split; [by split; [lia|]|by left]|].
    intros [[_ [= ->]] _]. done.
  - destruct H1 as [?|H1]; [done|]. destruct (lookup_lt_is_Some_2 p (Z.to_nat (input1 g))) as [b Hb]; [lia|].
    exists b. rewrite Hb, (index_Some p _ b) by (done || lia). split_and!; [done|done|]. rewrite andb_true_iff. split.
    + intros [-> ->]. split; [by split; [lia|]|right; by split; [lia|]].
    + intros [[_ [= ->]] [?|[_ [= ->]]]]; done.
Qed.

(** One pass, over gates that can be ordered together with the [acc] that wait. *)
Lemma topo_pass_spec gs acc p : orderable p (acc ++ gs) -> exists rd wait,
  topo_pass p gs = Ok (rd, wait, marks p rd) /\ Permutation gs (rd ++ wait) /\ in_order p rd
  /\ orderable (marks p rd) (acc ++ wait) /\ (Exists (ready p) gs -> rd <> []).
Proof.
  revert acc p. induction gs as [|g gs IH]; intros acc p Ho.
  { exists [], []. split_and!; [done|done|done|done|by intros ?%Exists_nil]. }
  pose proof (orderable_bounds _ _ Ho) as Hb. rewrite Forall_app, Forall_cons in Hb. destruct Hb as (_ & Hb & _).
  destruct (ready_decides p g Hb) as (a & b & Ea & Eb & Hr). cbn [topo_pass]. rewrite Ea. cbn. rewrite Eb. cbn.
  destruct (a && b).
  - assert (ready p g) as Hg by by apply Hr. rewrite index_set_ok by apply Hb. cbn.
    destruct (IH acc (mark p g)) as (rd & wait & E & Hp & Hio & Hw & _).
    { apply orderable_ready. by rewrite Permutation_middle. }
    unfold mark in E. rewrite E. exists (g :: rd), wait. split_and!; [done|by rewrite Hp| |done|done].
    split_and!; [done|done|done].
  - destruct (IH (acc ++ [g]) p) as (rd & wait & E & Hp & Hio & Hw & Hex); [by rewrite <- app_assoc|].
    rewrite E. exists rd, (g :: wait). split_and!; [done| |done|by rewrite <- app_assoc in Hw|].
    + by rewrite Hp, Permutation_middle.
    + intros [Hg|Hg]%Exists_cons; [|by apply Hex]. by apply Hr in Hg.
Qed.

(** With as many passes as gates the sort finds an order whenever there is one. *)
Lemma topo_sort_spec fuel gs p : (length gs <= fuel)%nat -> orderable p gs -> exists gs',
  topo_sort fuel p gs = Ok gs' /\ Permutation gs gs' /\ in_order p gs'.
Proof.
  revert gs p. induction fuel as [|fuel IH]; intros gs p Hl Ho.
  { destruct gs; [by exists []|cbn in Hl; lia]. }
  destruct gs as [|g gs]; [by exists []|]. destruct (topo_pass_spec (g :: gs) [] p Ho) as (rd & wait & E & Hp & Hio & Hw & Hex).
  assert (rd <> []) as Hne by (apply Hex; by destruct (orderable_first _ _ Ho)).
  destruct (IH wait (marks p rd)) as (rest & Er & Hpr & Hir).
  { apply Permutation_length in Hp. rewrite length_app in Hp. destruct rd; [done|]. cbn in *. lia. }
  { done. }
  exists (rd ++ rest). cbn [topo_sort]. rewrite E. cbn. rewrite Er. destruct rd; [done|].
  split_and!; [done|by rewrite Hp, Hpr|by apply in_order_app].
Qed.

Lemma topo_pass_length gs : forall p rd wait p', topo_pass p gs = Ok (rd, wait, p') -> (length rd + length wait = length gs)%nat.
Proof.
  induction gs as [|g gs IH]; intros p rd wait p' E; [by injection E as <- <- <-|]. cbn [topo_pass] in E.
  unfold mbind, result_bind in E. destruct (index p (input0 g)) as [a| |]; [|discriminate E..].
  destruct (if decide (op g = OInv) then _ else _) as [b| |]; [|discriminate E..]. destruct (a && b).
  - destruct (index_set _ _ _) as [q| |]; [|discriminate E..]. destruct (topo_pass q gs) as [[[r w] q']| |] eqn:Er; [|discriminate E..].
    injection E as <- <- <-. cbn. by rewrite (IH _ _ _ _ Er).
  - destruct (topo_pass p gs) as [[[r w] q']| |] eqn:Er; [|discriminate E..].
    injection E as <- <- <-. cbn. rewrite <- (IH _ _ _ _ Er). lia.
Qed.

Lemma topo_sort_fuel n : forall m p gs, (length gs <= n)%nat -> (length gs <= m)%nat -> topo_sort n p gs = topo_sort m p gs.
Proof.
  induction n as [|n IH]; intros m p gs Hn Hm; [destruct gs; [by destruct m|cbn in Hn; lia]|].
  destruct gs as [|g gs]; [by destruct m|]. destruct m as [|m]; [cbn in Hm; lia|]. cbn [topo_sort].
  destruct (topo_pass p (g :: gs)) as [[[rd wait] q]| |] eqn:E; [|done..]. cbn [mbind result_bind].
  apply topo_pass_length in E. destruct rd as [|r rd]; [done|]. cbn in E, Hn, Hm. by rewrite (IH m) by lia.
Qed.

(** C34. The sorting loop ends: with as many rounds as gates it has stopped, whatever
    the gates, so more rounds change nothing; and when the gates can be put in an
    order that only reads produced wires, it returns all of them in such an order. *)
Theorem topo_sort_terminates p gs : (forall fuel, (length gs <= fuel)%nat -> topo_sort fuel p gs = topo_sort (length gs) p gs) /\
  (orderable p gs -> exists gs', topo_sort (length gs) p gs = Ok gs' /\ Permutation gs gs' /\ in_order p gs').
Proof. split; [intros fuel Hf; by apply topo_sort_fuel|by apply topo_sort_spec]. Qed.

(** Two gates in the wrong order. *)
Lemma topo_sort_terminates_witness : let g1 := mkGate 2 1 3 OAnd 0 in let g2 := mkGate 0 1 2 OXor 0 in
  topo_sort 2 [true; true; false; false] [g1; g2] = Ok [g2; g1] /\
  exists gs', topo_sort 2 [true; true; false; false] [g1; g2] = Ok gs' /\ in_order [true; true; false; false] gs'.
Proof.
  intros g1 g2. split; [reflexivity|]. destruct (topo_sort_terminates [true; true; false; false] [g1; g2]) as [_ H].
  destruct H as (gs' & E & _ & Ho); [|by exists gs'].
  exists [g2; g1]. split; [apply Permutation_swap|]. unfold in_order, ready, in_bounds, produced_at. cbn.
  split_and!; try done; right; done.
Defined.

(** ** Evaluation of gates in order *)

(** A gate under an assignment [v] of wire numbers. *)
Definition gate_true (v : Z -> bool) (g : Gate) : Prop :=
  v (output g) = apply_op (op g) (v (input0 g)) (v (input1 g)).

(** The array [ws] holds [v] on the produced wires. *)
Definition agrees (v : Z -> bool) (p ws : list bool) : Prop :=
  length ws = length p /\ forall i, produced_at p i -> ws !! Z.to_nat i = Some (v i).

Lemma eval_gate_spec v p ws g : agrees v p ws -> ready p g -> in_bounds (length p) g -> gate_true v g ->
  exists ws', eval_gate ws g = Ok ws' /\ agrees v (mark p g) ws'.
Proof.
  intros [Hl Ha] [H0 H1] (B0 & B1 & _) Hg. unfold eval_gate.
  rewrite (index_Some ws (input0 g) (v (input0 g))) by (apply B0 || by apply Ha). cbn.
  assert (exists b, (if is_binary (op g) then index ws (input1 g) else Ok false) = Ok b
    /\ apply_op (op g) (v (input0 g)) b = v (output g)) as (b & -> & Hb).
  { destruct H1 as [E|H1]; [rewrite Hg, E; cbn; eauto|]. destruct (is_binary (op g)) eqn:E.
    - exists (v (input1 g)). split; [|done]. apply index_Some; [apply H1|by apply Ha].
    - rewrite Hg. destruct (op g); try done. cbn. eauto. }
  cbn. rewrite Hb, index_set_ok by lia.
  eexists. split; [done|]. split; [by rewrite length_insert, length_mark|]. intros i Hi.
  apply list_lookup_insert_Some. apply produced_mark in Hi as [Hi|[-> Hi]]; [|left; split_and!; [done|done|lia]|lia].
  pose proof (Ha i Hi) as Hw. destruct (decide (i = output g)) as [-> | Hne]; [left; split_and!; [done|done|lia]|right].
  split; [|done]. destruct Hi. lia.
Qed.

Lemma eval_gates_spec v gs p ws : agrees v p ws -> in_order p gs -> Forall (gate_true v) gs ->
  exists ws', eval_gates ws gs = Ok ws' /\ agrees v (marks p gs) ws'.
Proof.
  revert p ws. induction gs as [|g gs IH]; intros p ws Ha Ho Hg; [by exists ws|].
  destruct Ho as (Hr & Hb & Ho). apply Forall_cons in Hg as [Hg Hgs].
  destruct (eval_gate_spec v p ws g) as (ws1 & E1 & A1); [done..|].
  destruct (IH _ ws1 A1 Ho Hgs) as (ws2 & E2 & A2). exists ws2. split; [|done]. cbn. by rewrite E1.
Qed.

Lemma marks_spec gs p i : Forall (in_bounds (length p)) gs -> produced_at (marks p gs) i <->
  produced_at p i \/ i ∈ (output <$> gs).
Proof.
  revert p. induction gs as [|g gs IH]; intros p Hb; [cbn; rewrite elem_of_nil; tauto|].
  apply Forall_cons in Hb as [(_ & Hg & _) Hb]. cbn [marks foldl fmap list_fmap]. change (foldl mark ?p ?l) with (marks p l).
  rewrite IH by (by rewrite length_mark). rewrite produced_mark, elem_of_cons by lia. intuition lia.
Qed.

(** ** Inputs and outputs *)

Definition to_bits (v : Z) (n : nat) : list bool := (fun i => Z.testbit v (Z.of_nat i)) <$> seq 0 n.
Definition bools_val (bs : list bool) : Z := foldr (fun b acc => Z.b2z b + 2 * acc) 0 bs.
Definition arg_width (a : IOArg) : nat := Z.to_nat (io_bits a).
Definition io_width (io : list IOArg) : nat := sum_list (arg_width <$> io).

Lemma io_width_cons a io : io_width (a :: io) = (arg_width a + io_width io)%nat.
Proof. done. Qed.

(** The bits of the input numbers, in wire order. *)
Definition input_bits (args : list IOArg) (ins : list Z) : list bool :=
  mjoin (zip_with (fun a v => to_bits v (arg_width a)) args ins).
(** The output numbers, from the bits in wire order. *)
Fixpoint output_vals (io : list IOArg) (bs : list bool) : list Z :=
  match io with
  | [] => []
  | a :: io => bools_val (take (arg_width a) bs) :: output_vals io (drop (arg_width a) bs)
  end.

Lemma bools_val_cons b bs : bools_val (b :: bs) = Z.b2z b + 2 * bools_val bs.
Proof. done. Qed.

Lemma bits_val_bools env ws : bits_val env ws = bools_val (env <$> ws).
Proof. induction ws as [|w ws IH]; [done|]. cbn. unfold bits_val in IH. by rewrite IH. Qed.

Lemma to_bits_S v n : to_bits v (S n) = Z.testbit v 0 :: to_bits (Z.shiftr v 1) n.
Proof.
  unfold to_bits. cbn [seq fmap list_fmap]. f_equal. rewrite <- fmap_S_seq, <- list_fmap_compose.
  apply list_fmap_ext. intros i j _. cbn. rewrite Z.shiftr_spec by lia. f_equal. lia.
Qed.

Lemma bools_to_bits v n : bools_val (to_bits v n) = v mod 2 ^ Z.of_nat n.
Proof.
  revert v. induction n as [|n IH]; intros v; [cbn; by rewrite Z.mod_1_r|]. rewrite to_bits_S. cbn [bools_val foldr].
  change (foldr _ 0 ?l) with (bools_val l). rewrite IH, <- mod_cons. f_equal.
  rewrite Z.bit0_odd, Z.shiftr_div_pow2 by lia. change (2 ^ 1) with 2. rewrite (Z.div_mod v 2) at 3 by lia.
  rewrite Zmod_odd. destruct (Z.odd v); cbn; lia.
Qed.

Lemma load_bits_spec n pre suf v bit w : w = Z.of_nat (length pre) -> 0 <= bit ->
  load_bits (pre ++ replicate n false ++ suf) w v bit n = Ok (pre ++ to_bits (Z.shiftr v bit) n ++ suf).
Proof.
  revert pre v bit w. induction n as [|n IH]; intros pre v bit w -> Hbit; [done|]. rewrite to_bits_S.
  rewrite Z.shiftr_shiftr, Z.shiftr_spec by lia. cbn [load_bits replicate app]. rewrite Z.add_0_l.
  specialize (IH (pre ++ [Z.testbit v bit]) v (bit + 1)). rewrite length_app in IH. cbn [length] in IH.
  rewrite <- !app_assoc in IH. cbn [app] in IH. destruct (Z.testbit v bit); cbn; [|apply IH; lia].
  rewrite index_set_ok, Nat2Z.id by (rewrite length_app; cbn; lia). rewrite insert_app_r_alt, Nat.sub_diag by lia.
  cbn. apply IH; lia.
Qed.

Lemma length_to_bits v n : length (to_bits v n) = n.
Proof. unfold to_bits. by rewrite length_fmap, length_seq. Qed.

Lemma length_input_bits args ins : length ins = length args -> length (input_bits args ins) = io_width args.
Proof.
  revert ins. induction args as [|a args IH]; intros [|v ins] Hl; try done. injection Hl as Hl.
  unfold input_bits in *. rewrite io_width_cons. cbn [zip_with mjoin list_join].
  by rewrite length_app, length_to_bits, IH.
Qed.

Lemma load_inputs_spec args ins pre suf w : w = Z.of_nat (length pre) -> length ins = length args ->
  load_inputs (pre ++ replicate (io_width args) false ++ suf) w args ins = Ok (pre ++ input_bits args ins ++ suf).
Proof.
  revert ins pre w. induction args as [|a args IH]; intros [|v ins] pre w -> Hl; try done. injection Hl as Hl.
  rewrite io_width_cons. cbn [load_inputs]. rewrite replicate_add, <- app_assoc.
  change (Z.to_nat (io_bits a)) with (arg_width a). rewrite load_bits_spec by done. cbn [mbind].
  rewrite (app_assoc pre). unfold mbind, result_bind.
  rewrite (IH ins (pre ++ to_bits (Z.shiftr v 0) (arg_width a))); [|rewrite length_app, length_to_bits; lia|done].
  rewrite Z.shiftr_0_r. unfold input_bits. cbn. by rewrite <- !app_assoc.
Qed.

Lemma read_bits_spec bs pre suf w bit r : w = Z.of_nat (length pre) -> 0 <= bit -> 0 <= r < 2 ^ bit ->
  Z.of_nat (length (pre ++ bs ++ suf)) < 2 ^ 64 ->
  read_bits (pre ++ bs ++ suf) w bit (length bs) r = Ok (r + 2 ^ bit * bools_val bs).
Proof.
  revert pre w bit r. induction bs as [|b bs IH]; intros pre w bit r -> Hbit Hr Hl; [cbn; f_equal; lia|].
  cbn [length read_bits]. rewrite (index_nat _ _ b) by (rewrite lookup_app_r, Nat.sub_diag by lia; done).
  unfold mbind, result_bind. specialize (IH (pre ++ [b])). rewrite !length_app in *. cbn [length] in *. rewrite <- !app_assoc in IH. cbn [app] in IH.
  unfold wrap_u64. rewrite Z.mod_small by lia.
  assert (Z.lor r (Z.shiftl 1 bit) = r + 2 ^ bit) as Hor by (rewrite Z.lor_comm, lor_shiftl_add by lia; lia).
  rewrite IH; [|lia|lia| |lia].
  - f_equal. rewrite Z.pow_add_r, bools_val_cons by lia. destruct b; rewrite ?Hor; cbn [Z.b2z]; ring.
  - rewrite Z.pow_add_r by lia. destruct b; rewrite ?Hor; lia.
Qed.

Lemma read_outputs_spec io bs pre w : w = Z.of_nat (length pre) -> length bs = io_width io ->
  Z.of_nat (length (pre ++ bs)) < 2 ^ 64 -> read_outputs (pre ++ bs) w io = Ok (output_vals io bs).
Proof.
  revert bs pre w. induction io as [|a io IH]; intros bs pre w -> Hb Hl; [done|].
  rewrite io_width_cons in Hb. cbn [read_outputs output_vals]. change (Z.to_nat (io_bits a)) with (arg_width a).
  assert (length (take (arg_width a) bs) = arg_width a) as Ht by (rewrite length_take; lia).
  assert (read_bits (pre ++ bs) (Z.of_nat (length pre)) 0 (arg_width a) 0 = Ok (bools_val (take (arg_width a) bs))) as ->.
  { rewrite <- Ht at 1. rewrite <- (take_drop (arg_width a) bs) at 1.
    rewrite read_bits_spec; [f_equal; lia|done|lia|lia|by rewrite take_drop]. }
  cbn. rewrite length_app in Hl. unfold wrap_u64. rewrite Z.mod_small by lia.
  rewrite <- (take_drop (arg_width a) bs) at 1. rewrite app_assoc.
  rewrite IH; [done|rewrite length_app; lia|rewrite length_drop; lia|].
  rewrite <- app_assoc, take_drop, length_app. lia.
Qed.

Lemma io_size_width io : Forall (fun a => 0 <= io_bits a) io -> Z.of_nat (io_width io) < 2 ^ 31 ->
  io_size io = Z.of_nat (io_width io).
Proof.
  intros Hb Hl. unfold io_size. enough (forall acc, 0 <= acc -> acc + Z.of_nat (io_width io) < 2 ^ 31 ->
    foldl (fun acc a => as_i32 (acc + io_bits a)) acc io = acc + Z.of_nat (io_width io)) as H by (apply H; lia).
  clear Hl. induction Hb as [|a io Ha Hb IH]; intros acc H0 Hacc; [cbn; lia|].
  rewrite io_width_cons in *. cbn [foldl]. unfold arg_width in Hacc. replace (as_i32 (acc + io_bits a)) with (acc + io_bits a).
  - rewrite IH by lia. unfold arg_width. lia.
  - symmetry. apply as_i32_id. unfold is_i32. lia.
Qed.

Lemma input_count_width io : Forall (fun a => 0 <= io_bits a) io -> Z.of_nat (io_width io) < 2 ^ 64 ->
  input_wire_count io = Z.of_nat (io_width io).
Proof.
  intros Hb Hl. unfold input_wire_count. enough (forall acc, 0 <= acc -> acc + Z.of_nat (io_width io) < 2 ^ 64 ->
    foldl (fun acc a => wrap_u64 (acc + as_usize (io_bits a))) acc io = acc + Z.of_nat (io_width io)) as H by (apply H; lia).
  clear Hl. induction Hb as [|a io Ha Hb IH]; intros acc H0 Hacc; [cbn; lia|].
  rewrite io_width_cons in *. cbn [foldl]. unfold arg_width in Hacc. unfold as_usize, wrap_u64 in *. rewrite (Z.mod_small (io_bits a)) by lia.
  rewrite (Z.mod_small (acc + io_bits a)) by lia. rewrite IH by lia. unfold arg_width. lia.
Qed.

(** ** Satisfying assignments *)

(** Gates in order can be satisfied from any values of the wires they start from. *)
Lemma ordered_sat gs seen env0 : ordered seen gs ->
  exists env, Forall (gate_holds env) gs /\ forall w, w ∈ seen -> env w = env0 w.
Proof.
  revert seen env0. induction gs as [|g gs IH]; intros seen env0 Ho; [by exists env0|].
  destruct Ho as (Ha & Hb & Hn & Ho).
  set (env1 := fun w => if decide (w = g_o g) then apply_op (g_op g) (env0 (g_a g)) (env0 (g_b g)) else env0 w).
  destruct (IH _ env1 Ho) as (env & Hg & He).
  assert (forall w, w ∈ seen -> env w = env0 w) as Hs.
  { intros w Hw. rewrite He by set_solver. unfold env1. by destruct (decide (w = g_o g)) as [-> |]. }
  exists env. split; [constructor; [|done]|done]. unfold gate_holds. rewrite He by set_solver. unfold env1.
  rewrite decide_True by done. rewrite (Hs (g_a g)) by done. destruct Hb as [-> | Hb]; [done|]. by rewrite Hs.
Qed.

Lemma NoDup_assign (ws : list Z) (bs : list bool) : NoDup ws -> length ws = length bs ->
  exists env, env <$> ws = bs.
Proof.
  intros Hn. revert bs. induction Hn as [|w ws Hw Hn IH]; intros [|b bs] Hl; try done; [by exists (fun _ => false)|].
  injection Hl as Hl. destruct (IH bs Hl) as [env He]. exists (fun x => if decide (x = w) then b else env x). cbn.
  rewrite decide_True by done. f_equal. rewrite <- He. apply list_fmap_ext. intros i x Hx.
  rewrite decide_False; [done|]. intros ->. apply Hw. by eapply list_elem_of_lookup_2.
Qed.

Lemma sat_exists c bs : cc_ok c -> NoDup (input_wires c) -> length (input_wires c) = length bs ->
  exists env, sat env c /\ env <$> input_wires c = bs.
Proof.
  intros Hc Hn Hl. destruct (NoDup_assign _ _ Hn Hl) as [env0 H0].
  destruct (ordered_sat _ _ env0 (ok_ordered c Hc)) as (env & Hs & He). exists env. split; [done|].
  rewrite <- H0. apply list_fmap_ext. intros i w Hw. apply He. by eapply list_elem_of_lookup_2.
Qed.

(** ** Renumbered gates *)

Definition pos (S : list Z) (w : Z) : nat := match list_find (eq w) S with Some (i, _) => i | None => 0 end.

Lemma pos_lookup S w : w ∈ S -> S !! pos S w = Some w.
Proof.
  intros Hw. unfold pos. destruct (list_find_elem_of (eq w) S w Hw eq_refl) as [[i x] E]. rewrite E.
  apply list_find_Some in E as (Hx & <- & _). done.
Qed.
Lemma pos_of S i w : NoDup S -> S !! i = Some w -> pos S w = i.
Proof.
  intros Hn Hi. eapply NoDup_lookup; [done| |done]. apply pos_lookup. by eapply list_elem_of_lookup_2.
Qed.
Lemma pos_lt S w : w ∈ S -> (pos S w < length S)%nat.
Proof. intros Hw. by eapply lookup_lt_Some, pos_lookup. Qed.

Definition renumber (S : list Z) (g : BGate) : Gate :=
  mkGate (Z.of_nat (pos S (g_a g))) (if decide (g_op g = OInv) then 0 else Z.of_nat (pos S (g_b g)))
    (Z.of_nat (pos S (g_o g))) (g_op g) 0.

(** The wires of a gate are numbered by [S]. *)
Definition covered (S : list Z) (g : BGate) : Prop :=
  g_a g ∈ S /\ (g_op g = OInv \/ g_b g ∈ S) /\ g_o g ∈ S.

Lemma numbering_index c0 S c w : numbering c0 S c -> w ∈ S ->
  exists x, index (wires c) w = Ok x /\ wire_id x = Z.of_nat (pos S w).
Proof.
  intros HS Hw. destruct (num_ids _ _ _ HS _ _ (pos_lookup S w Hw)) as (x & Hx & Hid). exists x. split; [|done].
  apply index_Some; [|done]. pose proof (num_range _ _ _ HS) as Hr. rewrite Forall_forall in Hr. apply (Hr w Hw).
Qed.

Lemma compile_gates_spec c0 S c gs : numbering c0 S c -> Forall (fun g => in_range c0 (g_b g) /\ dead g = false) gs ->
  Forall (covered S) gs -> compile_gates (wires c) gs = Ok (renumber S <$> gs).
Proof.
  intros HS. induction gs as [|g gs IH]; [done|]. rewrite !Forall_cons. intros [[Hb Hd] Hbs] [(Ka & Kb & Ko) Hc].
  cbn [compile_gates]. rewrite Hd. unfold compile_gate, renumber at 1.
  destruct (numbering_index _ _ _ _ HS Ka) as (x & -> & Hx). destruct (numbering_index _ _ _ _ HS Ko) as (z & Ez & Hz).
  assert (exists y, index (wires c) (g_b g) = Ok y /\ (g_op g = OInv \/ wire_id y = Z.of_nat (pos S (g_b g)))) as (y & -> & Hy).
  { destruct Kb as [Ki|Kb]; [|destruct (numbering_index _ _ _ _ HS Kb) as (y & ? & ?); eauto].
    destruct Hb as [Hb1 Hb2]. rewrite <- (num_length _ _ _ HS) in Hb2.
    destruct (lookup_lt_is_Some_2 (wires c) (Z.to_nat (g_b g))) as [y Hy]; [lia|].
    exists y. split; [by apply index_Some|by left]. }
  cbn. rewrite Ez, IH by done. cbn. rewrite Hx, Hz. do 2 f_equal. unfold renumber. f_equal.
  destruct (decide (g_op g = OInv)); [done|]. by destruct Hy as [?| ->].
Qed.

Lemma ordered_in_order S seen gs p : ordered seen gs -> Forall (covered S) gs -> length p = length S ->
  (forall w, w ∈ seen -> produced_at p (Z.of_nat (pos S w))) -> in_order p (renumber S <$> gs).
Proof.
  revert seen p. induction gs as [|g gs IH]; intros seen p Ho Hc Hl Hs; [done|].
  destruct Ho as (Ha & Hb & _ & Ho). apply Forall_cons in Hc as [(Ka & Kb & Ko) Hc].
  pose proof (pos_lt _ _ Ka). pose proof (pos_lt _ _ Ko).
  cbn [fmap list_fmap in_order]. split_and!.
  - split; [by apply Hs|]. cbn. destruct (decide (g_op g = OInv)); [by left|right]. destruct Hb; [done|by apply Hs].
  - split_and!; cbn; try lia. destruct (decide (g_op g = OInv)); [by left|right]. destruct Kb as [?|Kb]; [done|].
    pose proof (pos_lt _ _ Kb). lia.
  - eapply IH; [done|done|by rewrite length_mark|]. intros w Hw. apply produced_mark; [cbn; lia|]. cbn.
    apply elem_of_app in Hw as [Hw|Hw]; [left; by apply Hs|right].
    apply list_elem_of_singleton in Hw as ->. lia.
Qed.

(** An assignment of the wires, by number. *)
Definition by_number (env : Z -> bool) (S : list Z) (i : Z) : bool :=
  match S !! Z.to_nat i with Some w => env w | None => false end.

Lemma by_number_pos env S w : w ∈ S -> by_number env S (Z.of_nat (pos S w)) = env w.
Proof. intros Hw. unfold by_number. by rewrite Nat2Z.id, pos_lookup. Qed.

Lemma renumber_true env S g : covered S g -> gate_holds env g -> gate_true (by_number env S) (renumber S g).
Proof.
  intros (Ka & Kb & Ko) Hg. unfold gate_true. cbn. rewrite !by_number_pos, Hg by done.
  destruct (decide (g_op g = OInv)) as [-> |]; [done|]. destruct Kb; [done|]. by rewrite by_number_pos.
Qed.

(** ** The compiled circuit *)

(** A finished gate list: every output wire driven, the declared inputs and
    outputs as wide as their wires. *)
Record compilable (c : Compiler) : Prop := {
  comp_ok : cc_ok c;
  comp_fits : fits c;
  comp_inputs : NoDup (input_wires c);
  comp_outputs : NoDup (output_wires c);
  comp_driven : Forall (fun w => w ∈ g_o <$> cc_gates c) (output_wires c);
  comp_in_bits : Forall (fun a => 0 <= io_bits a) (cc_inputs c) /\ io_width (cc_inputs c) = length (input_wires c)
                 /\ io_width (flatten_args (cc_inputs c)) = length (input_wires c);
  comp_out_bits : Forall (fun a => 0 <= io_bits a) (cc_outputs c) /\ io_width (cc_outputs c) = length (output_wires c)
                  /\ Z.of_nat (length (output_wires c)) < 2 ^ 31;
}.

Lemma ordered_fresh seen gs w : ordered seen gs -> w ∈ g_o <$> gs -> w ∉ seen.
Proof.
  revert seen. induction gs as [|g gs IH]; intros seen Ho; [by intros ?%elem_of_nil|].
  destruct Ho as (_ & _ & Hn & Ho). cbn. intros [->|Hw]%elem_of_cons; [done|]. pose proof (IH _ Ho Hw). set_solver.
Qed.

Lemma ordered_reads seen gs g : ordered seen gs -> g ∈ gs ->
  g_a g ∈ seen ++ (g_o <$> gs) /\ (g_op g = OInv \/ g_b g ∈ seen ++ (g_o <$> gs)).
Proof.
  revert seen. induction gs as [|h gs IH]; intros seen Ho; [by intros ?%elem_of_nil|].
  destruct Ho as (Ha & Hb & _ & Ho). intros [->|Hg]%elem_of_cons; cbn.
  - rewrite !elem_of_app. tauto.
  - specialize (IH _ Ho Hg). rewrite <- app_assoc in IH. exact IH.
Qed.

(** The three numbering phases of [compile_circuit]. *)
Lemma compile_numbers c : compilable c -> exists mid c1,
  (_ ← each assign_wire (input_wires c); _ ← each (assign_gate (output_wires c)) (cc_gates c);
   each set_wire_id (output_wires c)) c = Ok ((), c1)
  /\ numbering c (input_wires c ++ mid ++ output_wires c) c1
  /\ Forall (fun w => w ∈ known c) mid
  /\ Forall (covered (input_wires c ++ mid ++ output_wires c)) (cc_gates c).
Proof.
  intros [Hc Hf Hni Hno Hd _ _]. pose proof (ok_range c Hc) as Hr.
  assert (Forall (in_range c) (input_wires c) /\ Forall (in_range c) (output_wires c)) as [Hri Hro].
  { apply Forall_app in Hr as [Hi Ho]. split; [done|]. rewrite Forall_forall in *. auto. }
  destruct (numbers_exactly c assign_wire (input_wires c) [] c) as (c1 & E1 & S1);
    [intros; by apply numbering_assign_new|by apply numbering_start|done|done|]. cbn [app] in S1.
  destruct (numbers_each c (gate_wires (output_wires c)) (assign_gate (output_wires c)) (cc_gates c)) with (S := input_wires c) (c := c1)
    as (mid & c2 & E2 & S2 & Fm & Gm); [|done|].
  { apply Forall_forall. intros g Hg. pose proof (ok_gate_b c Hc) as Hb. rewrite Forall_forall in Hr. rewrite Forall_forall in Hb.
    destruct (Hb g Hg). destruct (ordered_reads _ _ g (ok_ordered c Hc) Hg) as [Ha _].
    apply numbers_gate; [done|by apply Hr|done| |done]. apply Hr, elem_of_app. right. by apply list_elem_of_fmap_2. }
  destruct (numbers_exactly c set_wire_id (output_wires c) (input_wires c ++ mid) c2) as (c3 & E3 & S3);
    [intros; by apply numbering_set|done|done| |].
  { apply NoDup_app. split_and!; [apply S2| |done]. intros w [Hw|Hw]%elem_of_app Ho.
    - rewrite Forall_forall in Hd. by apply (ordered_fresh _ _ w (ok_ordered c Hc)) in Hw; [|apply Hd].
    - rewrite Forall_forall in Fm. apply Fm, list_elem_of_bind in Hw as (g & Hw & _).
      unfold gate_wires in Hw. apply list_elem_of_filter in Hw as [Hw _]. done. }
  rewrite <- app_assoc in S3. exists mid, c3. split_and!; [|done| |].
  { unfold mbind, build_bind. by rewrite E1, E2. }
  { apply Forall_forall. intros w Hw. rewrite Forall_forall in Fm. apply Fm, list_elem_of_bind in Hw as (g & Hw & Hg).
    unfold gate_wires in Hw. apply list_elem_of_filter in Hw as [_ Hw]. unfold known.
    destruct (ordered_reads _ _ g (ok_ordered c Hc) Hg) as [Ha Hb]. apply elem_of_cons in Hw as [-> |Hw]; [done|].
    apply elem_of_app in Hw as [Hw| ->%list_elem_of_singleton].
    - destruct (decide (g_op g = OInv)); [by apply elem_of_nil in Hw|]. apply list_elem_of_singleton in Hw as ->. by destruct Hb.
    - apply elem_of_app. right. by apply list_elem_of_fmap_2. }
  apply Forall_forall. intros g Hg. rewrite Forall_forall in Gm.
  assert (forall w, w ∈ g_a g :: (if decide (g_op g = OInv) then [] else [g_b g]) ++ [g_o g] ->
    w ∈ input_wires c ++ mid ++ output_wires c) as Hall.
  { intros w Hw. rewrite app_assoc, elem_of_app. destruct (decide (w ∈ output_wires c)); [by right|left]. apply Gm.
    apply list_elem_of_bind. exists g. split; [|done]. by apply list_elem_of_filter. }
  split_and!; [apply Hall; set_solver| |apply Hall; set_solver]. destruct (decide (g_op g = OInv)); [by left|right].
  apply Hall. set_solver.
Qed.

(** The wires produced before any gate. *)
Definition start_marks (n k : nat) : list bool := replicate k true ++ replicate (n - k) false.

Lemma start_marks_spec n k i : produced_at (start_marks n k) i <-> 0 <= i < Z.of_nat k.
Proof.
  unfold produced_at, start_marks. rewrite lookup_app_Some. rewrite !lookup_replicate, length_replicate. intuition (done || lia).
Qed.

Lemma mark_inputs_spec n k : (k <= n)%nat -> mark_inputs (replicate n false) (Z.of_nat k) = Ok (start_marks n k).
Proof.
  intros Hk. unfold mark_inputs. rewrite length_replicate, (proj2 (Z.leb_le _ _)), Nat2Z.id by lia.
  by rewrite drop_replicate.
Qed.

(** A numbering of the wires with a sorted list of the renumbered gates. *)
Record compiled_as (c : Compiler) (S : list Z) (gs : list Gate) : Prop := {
  ca_wires : exists mid, S = input_wires c ++ mid ++ output_wires c;
  ca_known : Forall (fun w => w ∈ known c) S;
  ca_nodup : NoDup S;
  ca_small : Z.of_nat (length S) < 2 ^ 32;
  ca_covered : Forall (covered S) (cc_gates c);
  ca_gates : Permutation (renumber S <$> cc_gates c) gs;
  ca_order : in_order (start_marks (length S) (length (input_wires c))) gs;
}.

Lemma compile_spec c : compilable c -> exists S gs c',
  compile_circuit c = Ok (mkCircuit (Z.of_nat (length gs)) (Z.of_nat (length S)) (cc_inputs c) (cc_outputs c) gs
                            (gate_stats (cc_gates c)), c')
  /\ compiled_as c S gs.
Proof.
  intros Hc. destruct (compile_numbers c Hc) as (mid & c1 & E & HS & Hmid & Hcov). destruct Hc as [Hc Hf Hni Hno Hd (Hib & Hiw & _) Hob].
  set (S := input_wires c ++ mid ++ output_wires c) in *.
  pose proof (NoDup_range_length _ _ (num_nodup _ _ _ HS) (num_range _ _ _ HS)) as HL.
  assert (Z.of_nat (length S) < 2 ^ 32) as Hsm by (unfold fits, UNASSIGNED_ID, u32_max in Hf; lia).
  assert (length (input_wires c) <= length S)%nat as Hi by (unfold S; rewrite length_app; lia).
  set (p := start_marks (length S) (length (input_wires c))).
  assert (length p = length S) as Hp by (unfold p, start_marks; rewrite length_app, !length_replicate; lia).
  destruct (topo_sort_spec (length (renumber S <$> cc_gates c)) (renumber S <$> cc_gates c) p) as (gs & Eg & Pg & Og); [done| |].
  { exists (renumber S <$> cc_gates c). split; [done|].
    eapply ordered_in_order; [apply ok_ordered, Hc|done|done|]. intros w Hw. apply start_marks_spec.
    apply list_elem_of_lookup_1 in Hw as [i Hw]. pose proof (lookup_lt_Some _ _ _ Hw).
    rewrite (pos_of S i w); [lia|apply HS|]. by apply lookup_app_l_Some. }
  exists S, gs, c1. split; [|split; [by exists mid| |apply HS|done|done|done|done]].
  2: { unfold S. rewrite !Forall_app, !Forall_forall. split_and!; [|by apply Forall_forall|]; intros w Hw; apply elem_of_app; [by left|right].
    rewrite Forall_forall in Hd. by apply Hd. }
  assert (cc_gates c1 = cc_gates c /\ cc_inputs c1 = cc_inputs c /\ cc_outputs c1 = cc_outputs c) as (G1 & I1 & O1)
    by (rewrite (num_same _ _ _ HS); done).
  revert E. unfold compile_circuit, get, lift, mbind, build_bind.
  destruct (each assign_wire _ c) as [[[] ca]| |]; [|done|done].
  destruct (each (assign_gate _) _ ca) as [[[] cb]| |]; [|done|done]. intros ->.
  rewrite G1, I1, O1, (compile_gates_spec c S c1) by (done || apply Hc).
  rewrite (num_next _ _ _ HS), Nat2Z.id, input_count_width, Hiw, mark_inputs_spec by (done || lia). fold p.
  by rewrite Eg.
Qed.

(** The input array agrees with an assignment that puts [bs] on the input wires. *)
Lemma start_agrees env (iw rest : list Z) bs : env <$> iw = bs -> NoDup (iw ++ rest) ->
  agrees (by_number env (iw ++ rest)) (start_marks (length (iw ++ rest)) (length iw))
    (bs ++ replicate (length rest) false).
Proof.
  intros <- Hn. unfold start_marks, agrees. rewrite !length_app, !length_replicate, length_fmap. split; [lia|].
  rewrite <- length_app. fold (start_marks (length (iw ++ rest)) (length iw)).
  intros i Hi%start_marks_spec. unfold by_number. rewrite !lookup_app_l by (rewrite ?length_fmap; lia).
  rewrite list_lookup_fmap. by destruct (lookup_lt_is_Some_2 iw (Z.to_nat i) ltac:(lia)) as [w ->].
Qed.

(** The final array holds the assignment on the output wires, its last entries. *)
Lemma end_reads (env : Z -> bool) (S pre ow : list Z) (ws : list bool) : NoDup S -> S = pre ++ ow -> length ws = length S ->
  (forall w, w ∈ ow -> ws !! pos S w = Some (env w)) -> drop (length pre) ws = env <$> ow.
Proof.
  intros Hn -> Hl H. rewrite length_app in Hl. apply list_eq_same_length with (n := length ow);
    [by rewrite length_fmap|rewrite length_drop; lia|].
  intros i x y Hi Hx Hy. rewrite lookup_drop in Hx. rewrite list_lookup_fmap in Hy.
  destruct (ow !! i) as [w|] eqn:Ew; [|done]. injection Hy as <-.
  rewrite <- (pos_of (pre ++ ow) (length pre + i) w) in Hx; [|done|by rewrite lookup_app_r, Nat.add_comm, Nat.add_sub by lia].
  rewrite H in Hx by by eapply list_elem_of_lookup_2. by injection Hx.
Qed.

(** Evaluating the compiled gates from the input bits leaves the assignment's
    output bits in the last wires. *)
Lemma final_wires c S gs env bs n : compilable c -> compiled_as c S gs -> sat env c ->
  env <$> input_wires c = bs -> n = (length S - length bs)%nat -> exists ws, eval_gates (bs ++ replicate n false) gs = Ok ws
  /\ length ws = length S /\ drop (length S - length (output_wires c)) ws = env <$> output_wires c.
Proof.
  intros Hc [(mid & HS) _ Hn Hsm Hcov Hp Ho] Hsat Henv ->. set (p := start_marks (length S) (length (input_wires c))) in *.
  assert (length bs = length (input_wires c)) as Hb by (by rewrite <- Henv, length_fmap).
  destruct (eval_gates_spec (by_number env S) gs p (bs ++ replicate (length S - length bs) false)) as (ws & E & Hl & Ha);
    [|done| |].
  { replace (length S - length bs)%nat with (length (mid ++ output_wires c)) by (rewrite HS, !length_app; lia).
    unfold p. rewrite HS in *. by apply start_agrees. }
  { rewrite <- Hp. apply Forall_fmap, Forall_forall. intros g Hg. unfold sat in Hsat. rewrite Forall_forall in Hcov.
    rewrite Forall_forall in Hsat. apply renumber_true; auto. }
  rewrite length_marks in Hl. unfold p, start_marks in Hl. rewrite length_app, !length_replicate in Hl.
  assert (length ws = length S) as Hlw by (rewrite HS, !length_app in *; lia). exists ws. split_and!; [done|done|].
  rewrite app_assoc in HS.
  replace (length S - length (output_wires c))%nat with (length (input_wires c ++ mid)) by (rewrite HS, !length_app; lia).
  apply (end_reads env S); [done|done|done|]. intros w Hw. pose proof (comp_driven c Hc) as Hd.
  rewrite Forall_forall in Hd. apply Hd, list_elem_of_fmap in Hw as (g & -> & Hg).
  rewrite Forall_forall in Hcov. destruct (Hcov g Hg) as (_ & _ & Ko).
  rewrite <- (by_number_pos env S (g_o g)) by done. rewrite <- (Nat2Z.id (pos S (g_o g))) at 1. apply Ha.
  apply marks_spec; [by apply in_order_bounds|right]. rewrite <- Hp, <- list_fmap_compose.
  by apply (list_elem_of_fmap_2 (output ∘ renumber S)).
Qed.

Lemma compute_spec c S gs st env ins : compilable c -> compiled_as c S gs -> sat env c ->
  length ins = length (flatten_args (cc_inputs c)) ->
  env <$> input_wires c = input_bits (flatten_args (cc_inputs c)) ins ->
  compute (mkCircuit (Z.of_nat (length gs)) (Z.of_nat (length S)) (cc_inputs c) (cc_outputs c) gs st) ins
  = Ok (output_vals (cc_outputs c) (env <$> output_wires c)).
Proof.
  intros Hc HC Hsat Hins Henv. pose proof (final_wires c S gs env _ _ Hc HC Hsat Henv eq_refl) as (ws & Ew & Hl & Hdrop).
  destruct Hc as [_ _ _ _ _ (_ & _ & Hiw) (Hob & How & Hol)]. destruct HC as [(mid & HS) _ _ Hsm _ _ _].
  pose proof (length_input_bits _ _ Hins) as Hbits.
  assert (length S = (io_width (flatten_args (cc_inputs c)) + (length S - length (input_bits (flatten_args (cc_inputs c)) ins)))%nat
    /\ (length (output_wires c) <= length S)%nat) as [HL HO] by (rewrite HS, !length_app; lia).
  unfold compute. cbn [inputs outputs gates num_wires]. rewrite decide_True by done.
  rewrite Nat2Z.id, io_size_width, How by (done || lia). rewrite HL at 1. rewrite replicate_add.
  pose proof (fun suf => load_inputs_spec _ _ [] suf 0 eq_refl Hins) as Eload. cbn [app] in Eload. rewrite Eload.
  unfold mbind, result_bind. rewrite Ew.
  rewrite <- (take_drop (length S - length (output_wires c)) ws), Hdrop. unfold as_usize, wrap_u64.
  rewrite (Z.mod_small (Z.of_nat (length (output_wires c)))), (Z.mod_small (_ - _)) by lia.
  apply read_outputs_spec; [rewrite length_take; lia|by rewrite length_fmap|].
  rewrite <- Hdrop, take_drop. lia.
Qed.

(** Compilation is total on finished gate lists, and the circuit computes the
    values of the assignment the inputs determine. *)
Lemma compile_computes c : compilable c -> exists circ c', compile_circuit c = Ok (circ, c') /\
  forall ins, length ins = length (flatten_args (cc_inputs c)) -> exists env, sat env c
    /\ env <$> input_wires c = input_bits (flatten_args (cc_inputs c)) ins
    /\ compute circ ins = Ok (output_vals (cc_outputs c) (env <$> output_wires c)).
Proof.
  intros Hc. destruct (compile_spec c Hc) as (S & gs & c' & E & HC). eexists _, c'. split; [exact E|]. intros ins Hins.
  destruct (sat_exists c (input_bits (flatten_args (cc_inputs c)) ins)) as (env & Hs & He); [apply Hc|apply Hc| |].
  { rewrite length_input_bits by done. symmetry. apply Hc. }
  exists env. split_and!; [done|done|]. by apply compute_spec.
Qed.
