(* ===== verification/CircuitCodec.v ===== *)
(** * The circuit file format ([src/crates/quil-compiler/src/circuit.rs])

    [Circuit::marshal] and [Circuit::parse_qclc].  A writer is the bytes it writes;
    a reader consumes a prefix of the bytes left.  Recursion on nested arguments and
    the loop over gates consume bytes, so a fuel above the number of bytes is
    enough ([parse_qclc_safe] shows it never runs out: out of fuel is a [Panic]).
    Allocation by announced counts ([with_capacity]) is not modelled. *)

From S2P Require Import Prelude Bytes QclTypes Circuit CircuitBuild CircuitLogic CircuitArith CircuitMul CircuitCompile.

(** ** UTF-8 ([String::from_utf8]) *)

Definition between (lo hi : Z) (b : byte) : bool := (lo <=? byte_val b) && (byte_val b <=? hi).
Definition continuation : byte -> bool := between 0x80 0xbf.

(** The well-formed sequences of the Unicode standard: no overlong forms, no
    surrogates, nothing above U+10FFFF. *)
Fixpoint utf8 (s : list byte) : bool :=
  match s with
  | [] => true
  | b :: s =>
      if between 0 0x7f b then utf8 s
      else
        match s with
        | b1 :: s =>
            if between 0xc2 0xdf b then continuation b1 && utf8 s
            else
              match s with
              | b2 :: s =>
                  let second :=
                    if byte_val b =? 0xe0 then between 0xa0 0xbf
                    else if byte_val b =? 0xed then between 0x80 0x9f else continuation in
                  if between 0xe0 0xef b then second b1 && continuation b2 && utf8 s
                  else
                    match s with
                    | b3 :: s =>
                        let second :=
                          if byte_val b =? 0xf0 then between 0x90 0xbf
                          else if byte_val b =? 0xf4 then between 0x80 0x8f else continuation in
                        between 0xf0 0xf4 b && second b1 && continuation b2 && continuation b3 && utf8 s
                    | [] => false
                    end
              | [] => false
              end
        | [] => false
        end
  end.

(** ** Writing *)

Definition MAGIC : Z := 0x63726300.

Definition marshal_string (s : list byte) : list byte := be_bytes 4 (Z.of_nat (length s)) ++ s.

(** The text of the type may not exist ([Display] unwraps the element type). *)
Fixpoint marshal_io_arg (a : IOArg) : result (list byte) :=
  let '(mkIOArg name t c) := a in
  let marshal_all := fix go (l : list IOArg) : result (list byte) :=
    match l with
    | [] => Ok []
    | a :: l => x ← marshal_io_arg a; y ← go l; Ok (x ++ y)
    end in
  ts ← display t;
  cs ← marshal_all c;
  Ok (marshal_string name ++ marshal_string ts ++ be_bytes 4 (bits t) ++ be_bytes 4 (Z.of_nat (length c)) ++ cs).
Fixpoint marshal_io_args (l : list IOArg) : result (list byte) :=
  match l with
  | [] => Ok []
  | a :: l => x ← marshal_io_arg a; y ← marshal_io_args l; Ok (x ++ y)
  end.

Definition marshal_gate (g : Gate) : list byte :=
  byte_of (Z.of_nat (op_index (op g))) ::
  match op g with
  | OInv => be_bytes 4 (input0 g) ++ be_bytes 4 (output g)
  | _ => be_bytes 4 (input0 g) ++ be_bytes 4 (input1 g) ++ be_bytes 4 (output g)
  end.

Definition marshal (c : Circuit) : result (list byte) :=
  ins ← marshal_io_args (inputs c);
  outs ← marshal_io_args (outputs c);
  Ok (be_bytes 4 MAGIC ++ be_bytes 4 (num_gates c) ++ be_bytes 4 (num_wires c) ++
      be_bytes 4 (Z.of_nat (length (inputs c))) ++ be_bytes 4 (Z.of_nat (length (outputs c))) ++
      ins ++ outs ++ mjoin (marshal_gate <$> gates c)).

(** ** Reading *)

Definition read_u32 : reader Z := be_val <$> read_exact InvalidArgument 4.

Definition parse_string : reader (list byte) :=
  len ← read_u32;
  if len =? 0 then mret []
  else buf ← read_exact InvalidArgument (Z.to_nat len); _ ← reader_guard (utf8 buf) InvalidArgument; mret buf.

Definition lift_reader {A} (m : result A) : reader A := fun r => a ← m; Ok (a, r).

Definition put_bits (i : Info) (b : Z) : Info :=
  let '(mkInfo id t c _ m fs el n off) := i in mkInfo id t c b m fs el n off.

(** [read_u32(r)? as Size] is a cast from [u32] to [i32]. *)
Fixpoint parse_io_arg (fuel : nat) : reader IOArg :=
  match fuel with
  | O => fun _ => Panic
  | S fuel =>
      name ← parse_string;
      type_str ← parse_string;
      b ← read_u32;
      num_compound ← read_u32;
      t ← lift_reader (parse_type type_str);
      compound ← read_many (parse_io_arg fuel) (Z.to_nat num_compound);
      mret (mkIOArg name (put_bits t (as_i32 b)) compound)
  end.

Definition check_wire_seen (seen : list bool) (wire : Z) : result unit :=
  match seen !! Z.to_nat wire with Some true => Ok () | _ => Err InvalidArgument end.
Definition set_wire_seen (seen : list bool) (wire : Z) : result (list bool) :=
  if Z.of_nat (length seen) <=? wire then Err InvalidArgument else Ok (<[Z.to_nat wire := true]> seen).

(** One gate after its operation byte. *)
Definition parse_gate (o : Operation) (seen : list bool) : reader (Gate * list bool) :=
  if is_binary o then
    i0 ← read_u32;
    i1 ← read_u32;
    out ← read_u32;
    _ ← lift_reader (check_wire_seen seen i0);
    _ ← lift_reader (check_wire_seen seen i1);
    seen ← lift_reader (set_wire_seen seen out);
    mret (mkGate i0 i1 out o 0, seen)
  else
    i0 ← read_u32;
    out ← read_u32;
    _ ← lift_reader (check_wire_seen seen i0);
    seen ← lift_reader (set_wire_seen seen out);
    mret (mkGate i0 0 out o 0, seen).

(** The loop over gates, to the end of the input. *)
Fixpoint parse_gates (fuel : nat) (seen : list bool) (r : list byte) : result (list Gate * list bool) :=
  match fuel, r with
  | _, [] => Ok ([], seen)
  | O, _ => Panic
  | S fuel, b :: r =>
      match from_byte b with
      | None => Err InvalidArgument
      | Some o =>
          '((g, seen), r) ← parse_gate o seen r;
          '(gs, seen) ← parse_gates fuel seen r;
          Ok (g :: gs, seen)
      end
  end.

(** [input_wires += bits as usize] over the inputs. *)
Definition count_input_wires (io : list IOArg) : Z := foldl (fun acc a => wrap_u64 (acc + as_usize (io_bits a))) 0 io.
(** [for i in 0..n { if i < seen.len() { seen[i] = true } }] *)
Definition mark_seen (seen : list bool) (n : Z) : list bool :=
  imap (fun i b => if Z.of_nat i <? n then true else b) seen.

Definition parse_qclc (r : list byte) : result Circuit :=
  let fuel := S (length r) in
  '((ng, nw, ins, outs), r) ← (
    magic ← read_u32;
    _ ← reader_guard (magic =? MAGIC) InvalidArgument;
    ng ← read_u32;
    nw ← read_u32;
    ni ← read_u32;
    no ← read_u32;
    ins ← read_many (parse_io_arg fuel) (Z.to_nat ni);
    outs ← read_many (parse_io_arg fuel) (Z.to_nat no);
    mret (ng, nw, ins, outs)) r;
  '(gs, seen) ← parse_gates (length r) (mark_seen (replicate (Z.to_nat nw) false) (count_input_wires ins)) r;
  if negb (Z.of_nat (length gs) =? ng) then Err InvalidArgument
  else if negb (forallb id seen) then Err InvalidArgument
  else Ok (mkCircuit ng nw ins outs gs (foldl (fun st g => stats_bump st (op g)) Stats_default gs)).

(** ** Reading never panics *)

(** On inputs shorter than [n] the reader does not panic and does not add bytes. *)
Definition safe_below {A} (n : nat) (rd : reader A) : Prop := forall r, (length r < n)%nat ->
  rd r <> Panic /\ forall a r', rd r = Ok (a, r') -> (length r' <= length r)%nat.
(** It also consumes. *)
Definition consumes {A} (rd : reader A) : Prop := forall r a r', rd r = Ok (a, r') -> (length r' < length r)%nat.

Lemma below_ret {A} n (a : A) : safe_below n (mret a).
Proof. intros r _. split; [done|]. by intros ? ? [= <- <-]. Qed.
Lemma below_exact n e k : safe_below n (read_exact e k).
Proof.
  intros r _. split; [apply safe_exact|]. intros a r'. unfold read_exact. destruct (_ <=? _)%nat; [|done]. intros [= <- <-].
  rewrite length_drop. lia.
Qed.
Lemma below_guard n c e : safe_below n (reader_guard c e).
Proof. intros r _. destruct c; split; try done. by intros ? ? [= <- <-]. Qed.
Lemma below_lift {A} n (m : result A) : m <> Panic -> safe_below n (lift_reader m).
Proof. intros Hm r _. unfold lift_reader. destruct m; split; try done. by intros ? ? [= <- <-]. Qed.
Lemma below_bind {A B} n (m : reader A) (f : A -> reader B) :
  safe_below n m -> (forall a, safe_below n (f a)) -> safe_below n (m ≫= f).
Proof.
  intros Hm Hf r Hr. unfold mbind, reader_bind. destruct (Hm r Hr) as [H1 H2].
  destruct (m r) as [[a r1]| |]; [|done..]. specialize (H2 _ _ eq_refl). destruct (Hf a r1) as [H3 H4]; [lia|].
  split; [done|]. intros b r' E. apply H4 in E. lia.
Qed.
Lemma below_consume {A B} n (m : reader A) (f : A -> reader B) :
  safe_below (S n) m -> consumes m -> (forall a, safe_below n (f a)) -> safe_below (S n) (m ≫= f).
Proof.
  intros Hm Hc Hf r Hr. unfold mbind, reader_bind. destruct (Hm r Hr) as [H1 H2].
  destruct (m r) as [[a r1]| |] eqn:E1; [|done..]. apply Hc in E1. destruct (Hf a r1) as [H3 H4]; [lia|].
  split; [done|]. intros b r' E. apply H4 in E. lia.
Qed.
Lemma below_fmap {A B} n (f : A -> B) (m : reader A) : safe_below n m -> safe_below n (f <$> m).
Proof.
  intros Hm r Hr. unfold fmap, reader_fmap. destruct (Hm r Hr) as [H1 H2]. destruct (m r) as [[a r1]| |]; [|done..].
  split; [done|]. intros b r' [= <- <-]. by apply (H2 a).
Qed.
Lemma below_many {A} n (rd : reader A) k : safe_below n rd -> safe_below n (read_many rd k).
Proof.
  intros Hr. induction k as [|k IH]; [apply below_ret|]. cbn [read_many].
  apply below_bind; [done|]. intros a. apply below_bind; [done|]. intros l. apply below_ret.
Qed.
Lemma below_if {A} n (c : bool) (m1 m2 : reader A) : safe_below n m1 -> safe_below n m2 -> safe_below n (if c then m1 else m2).
Proof. by destruct c. Qed.

Create HintDb codec.
#[export] Hint Resolve below_ret below_exact below_guard below_lift below_bind below_fmap below_many below_if : codec.

Lemma parse_type_safe s : parse_type s <> Panic.
Proof.
  unfold parse_type. generalize (S (length s)). intros fuel. revert s.
  induction fuel as [|fuel IH]; intros s; [done|]. cbn [parse_type_fuel].
  repeat case_match; try done; match goal with |- context [parse_type_fuel fuel ?x] => specialize (IH x) end;
    by destruct (parse_type_fuel fuel _).
Qed.
#[export] Hint Resolve parse_type_safe : codec.

Lemma below_u32 n : safe_below n read_u32.
Proof. unfold read_u32. auto with codec. Qed.
#[export] Hint Resolve below_u32 : codec.
Lemma u32_consumes : consumes read_u32.
Proof.
  intros r a r'. unfold read_u32, fmap, reader_fmap, read_exact. destruct (Nat.leb_spec 4 (length r)); [|done].
  intros [= <- <-]. rewrite length_drop. lia.
Qed.

Lemma below_string n : safe_below n parse_string.
Proof. unfold parse_string. auto 10 with codec. Qed.
#[export] Hint Resolve below_string : codec.
Lemma string_consumes : consumes parse_string.
Proof.
  intros r a r' (len & r1 & H1%u32_consumes & H2)%reader_bind_inv. destruct (len =? 0); [injection H2 as <- <-; done|].
  revert H2. intros H2. destruct (below_bind (S (length r1)) (read_exact InvalidArgument (Z.to_nat len))
    (fun buf => _ ← reader_guard (utf8 buf) InvalidArgument; mret buf)) with (r := r1) as [_ H]; auto with codec.
  apply H in H2. lia.
Qed.

Lemma below_io_arg fuel : safe_below fuel (parse_io_arg fuel).
Proof.
  induction fuel as [|fuel IH]; [intros r Hr; lia|]. cbn [parse_io_arg].
  apply below_consume; [auto with codec|apply string_consumes|]. intros name. repeat (auto with codec; apply below_bind; [auto with codec|intros ?]).
  auto with codec.
Qed.

(** ** Parsed gates only use wires that exist *)

Definition wires_exist (n : nat) (g : Gate) : Prop :=
  0 <= input0 g < Z.of_nat n /\ (is_binary (op g) = true -> 0 <= input1 g < Z.of_nat n) /\ 0 <= output g < Z.of_nat n.

Lemma read_u32_inv r x r' : read_u32 r = Ok (x, r') -> is_u32 x /\ (length r' < length r)%nat.
Proof.
  intros E. split; [|by eapply u32_consumes]. unfold read_u32, fmap, reader_fmap, read_exact in E.
  destruct (Nat.leb_spec 4 (length r)); [|done]. injection E as <- <-. pose proof (be_val_range (take 4 r)) as H1.
  rewrite length_take_le in H1 by done. unfold is_u32. lia.
Qed.
Lemma lift_inv {A} (m : result A) r a r' : lift_reader m r = Ok (a, r') -> m = Ok a /\ r' = r.
Proof. unfold lift_reader. destruct m; [|done..]. by intros [= <- <-]. Qed.
Lemma check_wire_seen_inv seen w : is_u32 w -> check_wire_seen seen w = Ok () -> 0 <= w < Z.of_nat (length seen).
Proof.
  unfold check_wire_seen, is_u32. intros Hw. destruct (seen !! Z.to_nat w) as [[]|] eqn:E; try done. intros _.
  apply lookup_lt_Some in E. lia.
Qed.
Lemma set_wire_seen_inv seen w seen' : is_u32 w -> set_wire_seen seen w = Ok seen' ->
  0 <= w < Z.of_nat (length seen) /\ seen' = <[Z.to_nat w := true]> seen.
Proof. unfold set_wire_seen, is_u32. intros Hw. destruct (Z.leb_spec (Z.of_nat (length seen)) w); [done|]. intros [= <-]. split; [lia|done]. Qed.

Lemma check_wire_seen_safe seen w : check_wire_seen seen w <> Panic.
Proof. unfold check_wire_seen. by destruct (seen !! _) as [[]|]. Qed.
Lemma set_wire_seen_safe seen w : set_wire_seen seen w <> Panic.
Proof. unfold set_wire_seen. by destruct (_ <=? _). Qed.
#[export] Hint Resolve check_wire_seen_safe set_wire_seen_safe : codec.

Lemma below_gate n o seen : safe_below n (parse_gate o seen).
Proof.
  unfold parse_gate. apply below_if; repeat (apply below_bind; [auto with codec|intros ?]); auto with codec.
Qed.

Ltac invert_reads H :=
  repeat match type of H with
  | (read_u32 ≫= _) _ = Ok _ => let Hx := fresh "Hx" in apply reader_bind_inv in H as (? & ? & [Hx _]%read_u32_inv & H)
  | (lift_reader _ ≫= _) _ = Ok _ => let Hl := fresh "Hl" in apply reader_bind_inv in H as (? & ? & [Hl ->]%lift_inv & H)
  end.

Lemma parse_gate_inv o seen r g seen' r' : parse_gate o seen r = Ok ((g, seen'), r') ->
  op g = o /\ wires_exist (length seen) g /\ length seen' = length seen.
Proof.
  unfold parse_gate, wires_exist. destruct (is_binary o) eqn:Eo; intros H; invert_reads H; injection H as <- <- <-; cbn;
    repeat match goal with
    | u : unit |- _ => destruct u
    | H : check_wire_seen _ _ = Ok _ |- _ => apply check_wire_seen_inv in H; [|done]
    | H : set_wire_seen _ _ = Ok _ |- _ => apply set_wire_seen_inv in H as [? ->]; [|done]
    end; rewrite length_insert; split_and!; try done; try lia; by rewrite Eo.
Qed.

Lemma parse_gates_spec fuel : forall seen r, (length r <= fuel)%nat -> parse_gates fuel seen r <> Panic /\
  forall gs seen', parse_gates fuel seen r = Ok (gs, seen') -> Forall (wires_exist (length seen)) gs /\ length seen' = length seen.
Proof.
  induction fuel as [|fuel IH]; intros seen [|b r] Hr; try (cbn in Hr; lia); try (split; [done|]; by intros ? ? [= <- <-]).
  cbn [parse_gates]. destruct (from_byte b) as [o|]; [|done]. destruct (below_gate (S (length r)) o seen r) as [H1 H2]; [lia|].
  unfold mbind, result_bind. destruct (parse_gate o seen r) as [[[g s1] r1]| |] eqn:E; [|done..]. specialize (H2 _ _ eq_refl).
  apply parse_gate_inv in E as (_ & Hg & Hl). cbn in Hr. destruct (IH s1 r1) as [H3 H4]; [lia|].
  destruct (parse_gates fuel s1 r1) as [[gs s2]| |]; [|done..]. split; [done|]. intros gs' seen' [= <- <-].
  destruct (H4 _ _ eq_refl) as [H5 H6]. rewrite Hl in *. by split; [constructor|].
Qed.

(** What a successful parse has read. *)
Lemma parse_qclc_spec r : parse_qclc r <> Panic /\ forall c, parse_qclc r = Ok c ->
  is_u32 (num_wires c) /\ num_gates c = Z.of_nat (length (gates c)) /\ Forall (wires_exist (Z.to_nat (num_wires c))) (gates c).
Proof.
  unfold parse_qclc. match goal with |- context [(read_u32 ≫= ?f) r] => set (hd := read_u32 ≫= f) end.
  assert (safe_below (S (length r)) hd) as Hs.
  { unfold hd. repeat (apply below_bind; [auto using below_io_arg with codec|intros ?]). auto with codec. }
  destruct (Hs r) as [H1 _]; [lia|]. destruct (hd r) as [[[[[ng nw] ins] outs] r1]| |] eqn:E; [|done..].
  assert (is_u32 nw) as Hnw.
  { unfold hd in E. apply reader_bind_inv in E as (? & ? & _ & E). apply reader_bind_inv in E as (? & ? & _ & E).
    apply reader_bind_inv in E as (? & ? & _ & E). apply reader_bind_inv in E as (nw' & ? & [Hw _]%read_u32_inv & E).
    do 4 apply reader_bind_inv in E as (? & ? & _ & E). by injection E as _ <- _ _ _. }
  cbn [mbind result_bind]. destruct (parse_gates_spec (length r1) (mark_seen (replicate (Z.to_nat nw) false) (count_input_wires ins)) r1)
    as [H2 H3]; [done|].
  destruct (parse_gates _ _ r1) as [[gs seen]| |]; [|done..]. cbn [mbind result_bind].
  destruct (Z.eqb_spec (Z.of_nat (length gs)) ng) as [Hng|]; [|done]. cbn [negb]. destruct (forallb id seen); [|done]. cbn [negb].
  split; [done|]. intros c [= <-]. cbn. destruct (H3 _ _ eq_refl) as [H4 _]. split_and!; [done|done|].
  unfold mark_seen in H4. rewrite length_imap, length_replicate in H4. done.
Qed.

(** The wires cover the inputs and the outputs. *)
Definition io_fits (c : Circuit) : Prop :=
  Z.of_nat (io_width (flatten_args (inputs c))) <= num_wires c /\
  Forall (fun a => 0 <= io_bits a) (outputs c) /\ Z.of_nat (io_width (outputs c)) <= num_wires c /\
  Z.of_nat (io_width (outputs c)) < 2 ^ 31.

Lemma index_exists {A} (v : list A) i : 0 <= i < Z.of_nat (length v) -> exists x, index v i = Ok x.
Proof.
  intros Hi. destruct (lookup_lt_is_Some_2 v (Z.to_nat i)) as [x Hx]; [lia|]. exists x. apply index_Some; [lia|done].
Qed.

Lemma eval_gates_runs gs : forall ws, Forall (wires_exist (length ws)) gs -> exists ws', eval_gates ws gs = Ok ws' /\ length ws' = length ws.
Proof.
  induction gs as [|g gs IH]; intros ws Hg; [by exists ws|]. apply Forall_cons in Hg as [(H0 & H1 & H2) Hg].
  cbn [eval_gates]. unfold eval_gate. destruct (index_exists ws (input0 g) H0) as [a ->]. cbn [mbind result_bind].
  assert (exists b, (if is_binary (op g) then index ws (input1 g) else Ok false) = Ok b) as [b ->].
  { destruct (is_binary (op g)) eqn:Eb; [by apply index_exists, H1|by eexists]. }
  cbn [mbind result_bind]. rewrite index_set_ok by done. cbn [mbind result_bind].
  destruct (IH (<[Z.to_nat (output g) := apply_op (op g) a b]> ws)) as (ws' & E & Hl); [by rewrite length_insert|].
  exists ws'. by rewrite length_insert in Hl.
Qed.

Lemma length_output_vals io bs : length (output_vals io bs) = length io.
Proof. revert bs. induction io as [|a io IH]; intros bs; [done|]. cbn. by rewrite IH. Qed.

Lemma compute_runs c ins : is_u32 (num_wires c) -> Forall (wires_exist (Z.to_nat (num_wires c))) (gates c) -> io_fits c ->
  length ins = length (flatten_args (inputs c)) -> exists outs, compute c ins = Ok outs /\ length outs = length (outputs c).
Proof.
  intros [Hw0 Hw] Hg (Hi & Hb & Ho & Hsm) Hl. unfold compute. rewrite decide_True by done. unfold is_u32 in *.
  set (n := Z.to_nat (num_wires c)) in *. set (k := io_width (flatten_args (inputs c))) in *.
  assert (replicate n false = replicate k false ++ replicate (n - k) false) as -> by (rewrite <- replicate_add; f_equal; lia).
  pose proof (load_inputs_spec (flatten_args (inputs c)) ins [] (replicate (n - k) false) 0 eq_refl Hl) as E.
  cbn [app] in E. fold k in E. rewrite E. cbn [mbind result_bind].
  destruct (eval_gates_runs (gates c) (input_bits (flatten_args (inputs c)) ins ++ replicate (n - k) false)) as (ws & -> & Hws).
  { rewrite length_app, length_input_bits, length_replicate by done. by replace (_ + _)%nat with n by lia. }
  cbn [mbind result_bind]. rewrite io_size_width by done. rewrite length_app, length_input_bits, length_replicate in Hws by done.
  assert (length ws = n) as Hn by lia. set (m := io_width (outputs c)) in *.
  rewrite <- (take_drop (n - m) ws). rewrite read_outputs_spec.
  - eexists. split; [done|]. apply length_output_vals.
  - unfold as_usize, wrap_u64. rewrite length_take. rewrite (Z.mod_small (Z.of_nat m)), Z.mod_small by lia. lia.
  - rewrite length_drop. lia.
  - rewrite take_drop. lia.
Qed.

(** Circuit files from outside: on any bytes the reader returns a circuit or an
    error, never panics, and a circuit it returns whose inputs and outputs fit its
    wires runs on every list of arguments of the right length. *)
Theorem parse_qclc_untrusted r : parse_qclc r <> Panic /\ forall c ins, parse_qclc r = Ok c -> io_fits c ->
  length ins = length (flatten_args (inputs c)) -> exists outs, compute c ins = Ok outs /\ length outs = length (outputs c).
Proof.
  destruct (parse_qclc_spec r) as [H1 H2]. split; [done|]. intros c ins Hc Hf Hl. destruct (H2 c Hc) as (Hw & _ & Hg).
  by apply compute_runs.
Qed.

(** One input bit, no wires: accepted, and evaluation indexes past the wires. *)
Definition no_wires_file : list byte :=
  be_bytes 4 MAGIC ++ be_bytes 4 0 ++ be_bytes 4 0 ++ be_bytes 4 1 ++ be_bytes 4 0 ++
  be_bytes 4 1 ++ text "a" ++ be_bytes 4 5 ++ text "uint1" ++ be_bytes 4 1 ++ be_bytes 4 0.

Lemma short_wires_accepted : (c ← parse_qclc no_wires_file; compute c [1]) = Panic.
Proof. by vm_compute. Qed.

(** ** Round trip *)

Lemma io_nested_ind (P : IOArg -> Prop) : (forall name t c, Forall P c -> P (mkIOArg name t c)) -> forall a, P a.
Proof.
  intros H. fix IH 1. intros [name t c]. apply H. induction c as [|a c IHc]; constructor; [apply IH|exact IHc].
Qed.

Lemma marshal_io_arg_eq name t c : marshal_io_arg (mkIOArg name t c) =
  (ts ← display t; cs ← marshal_io_args c;
   Ok (marshal_string name ++ marshal_string ts ++ be_bytes 4 (bits t) ++ be_bytes 4 (Z.of_nat (length c)) ++ cs)).
Proof.
  cbn [marshal_io_arg]. match goal with |- context [?f c ≫= _] => assert (forall l, f l = marshal_io_args l) as E end.
  { induction l as [|a l IH]; [done|]. cbn [marshal_io_args]. by rewrite <- IH. }
  by rewrite E.
Qed.

(** The argument read back: the same name, widths and structure, equal types. *)
Inductive io_same : IOArg -> IOArg -> Prop :=
| io_same_intro name t t' c c' : info_equal t t' = true -> bits t' = bits t -> Forall2 io_same c c' ->
    io_same (mkIOArg name t c) (mkIOArg name t' c').

(** What the format can carry: UTF-8 names, types that read back, 32-bit lengths. *)
Inductive io_ok : IOArg -> Prop :=
| io_ok_intro name t c s : utf8 name = true -> Z.of_nat (length name) < 2 ^ 32 -> readable t -> display t = Ok s ->
    Z.of_nat (length s) < 2 ^ 32 -> Z.of_nat (length c) < 2 ^ 32 -> Forall io_ok c -> io_ok (mkIOArg name t c).

Lemma read_u32_app z rest : read_u32 (be_bytes 4 z ++ rest) = Ok (z mod 2 ^ 32, rest).
Proof.
  unfold read_u32. erewrite reader_fmap_Ok by (apply read_exact_app; by rewrite be_bytes_length). by rewrite be_val_bytes.
Qed.
Lemma read_u32_small z rest : is_u32 z -> read_u32 (be_bytes 4 z ++ rest) = Ok (z, rest).
Proof. intros Hz. by rewrite read_u32_app, Z.mod_small. Qed.

Lemma parse_string_app s rest : utf8 s = true -> Z.of_nat (length s) < 2 ^ 32 ->
  parse_string (marshal_string s ++ rest) = Ok (s, rest).
Proof.
  intros Hu Hl. unfold parse_string, marshal_string. rewrite <- app_assoc.
  erewrite reader_bind_Ok by (apply read_u32_small; unfold is_u32; lia).
  destruct (Z.eqb_spec (Z.of_nat (length s)) 0) as [E|_]; [by destruct s|].
  erewrite reader_bind_Ok by (apply read_exact_app; lia). by rewrite Hu.
Qed.

Definition ascii (s : list byte) : bool := forallb (between 0 0x7f) s.
Lemma ascii_utf8 s : ascii s = true -> utf8 s = true.
Proof. unfold ascii. induction s as [|b s IH]; [done|]. cbn [forallb utf8]. intros [-> Hs]%andb_prop. auto. Qed.
Lemma ascii_app s t : ascii s = true -> ascii t = true -> ascii (s ++ t) = true.
Proof. unfold ascii. intros Hs Ht. by rewrite forallb_app, Hs, Ht. Qed.
Lemma ascii_i32 z : is_i32 z -> ascii (display_i32 z) = true.
Proof.
  intros Hz. destruct (display_i32_digits z Hz) as [_ Hd]. unfold ascii. apply forallb_forall. intros b Hb.
  rewrite Forall_forall in Hd. destruct (Hd b) as [-> |[v Hv]]; [by apply list_elem_of_In|done|].
  unfold digit_val in Hv. unfold between. destruct ((0 <=? byte_val b - 48) && (byte_val b - 48 <=? 9)) eqn:E; [|done]. lia.
Qed.
Lemma display_ascii i s : readable i -> display i = Ok s -> ascii s = true.
Proof.
  revert s. induction i as [[id t c b m fs el n off] IH] using info_elem_ind. intros s [Hb Hr] Hs. cbn [display] in Hs.
  assert (forall c : bool, ascii (if c then type_name t ++ display_i32 b else type_name t) = true) as Hc.
  { intros []; [apply ascii_app; [by destruct t|by apply ascii_i32]|by destruct t]. }
  assert (forall e, el = Some e -> readable e -> forall s, display e = Ok s -> ascii s = true) as He.
  { intros e -> He u. by apply IH. }
  destruct t; try done; try (injection Hs as <-; apply Hc).
  all: destruct el as [e|]; [|done]; destruct (display e) as [u| |] eqn:Eu; [|done..]; injection Hs as <-;
    pose proof (He e eq_refl (proj1 Hr) _ Eu) as Hu.
  - destruct Hr as (_ & Hn & _). unfold text. cbn [app]. change (ascii (display_i32 n ++ x5d :: u) = true).
    apply ascii_app; [by apply ascii_i32|done].
  - done.
  - done.
Qed.

(** [a] written and read back. *)
Definition arg_round (a : IOArg) : Prop := exists bs a', marshal_io_arg a = Ok bs /\ io_same a a' /\ (1 <= length bs)%nat /\
  forall fuel rest, (length bs <= fuel)%nat -> parse_io_arg fuel (bs ++ rest) = Ok (a', rest).

Lemma args_round l : Forall arg_round l -> exists bs l', marshal_io_args l = Ok bs /\ Forall2 io_same l l' /\
  forall fuel rest, (length bs <= fuel)%nat -> read_many (parse_io_arg fuel) (length l) (bs ++ rest) = Ok (l', rest).
Proof.
  induction 1 as [|a l (bs & a' & Ea & Hs & _ & Hp) _ (bl & l' & El & Hl & Hpl)]; [by exists [], []|].
  exists (bs ++ bl), (a' :: l'). cbn [marshal_io_args]. rewrite Ea. cbn [mbind result_bind]. rewrite El.
  split_and!; [done|by constructor|]. intros fuel rest Hf. rewrite length_app in Hf. cbn [length read_many]. rewrite <- app_assoc.
  erewrite reader_bind_Ok by (apply Hp; lia). by erewrite reader_bind_Ok by (apply Hpl; lia).
Qed.

Lemma put_bits_id i : put_bits i (bits i) = i.
Proof. by destruct i. Qed.

Lemma io_arg_round a : io_ok a -> arg_round a.
Proof.
  induction a as [name t c IH] using io_nested_ind. intros Hok. inversion Hok as [n0 t0 c0 s Hu Hn Ht Hd Hs Hc Hall]; subst.
  destruct (display_parses t Ht) as (s' & j & Hd' & Hp & He & Hb). rewrite Hd in Hd'. injection Hd' as <-.
  destruct (args_round c) as (bs & c' & Em & Hsame & Hread).
  { apply Forall_forall. intros a Ha. rewrite Forall_forall in IH, Hall. auto. }
  assert (is_i32 (bits t)) as Hb32 by (destruct t; apply Ht).
  eexists _, (mkIOArg name j c'). rewrite marshal_io_arg_eq, Hd. cbn [mbind result_bind]. rewrite Em. split_and!; [done| | |].
  - by constructor.
  - unfold marshal_string. rewrite !length_app, be_bytes_length. lia.
  - intros [|fuel] rest Hf; [unfold marshal_string in Hf; rewrite !length_app, be_bytes_length in Hf; lia|]. cbn [parse_io_arg].
    rewrite <- !app_assoc. erewrite reader_bind_Ok by by apply parse_string_app.
    erewrite reader_bind_Ok by (apply parse_string_app; [eapply ascii_utf8, display_ascii|]; done).
    erewrite reader_bind_Ok by apply read_u32_app. erewrite reader_bind_Ok by (apply read_u32_small; unfold is_u32; lia).
    erewrite reader_bind_Ok by (unfold lift_reader, parse_type; rewrite Hp by lia; done).
    rewrite Nat2Z.id. erewrite reader_bind_Ok.
    2: { apply Hread. unfold marshal_string in Hf. rewrite !length_app, !be_bytes_length in Hf. lia. }
    unfold mret, reader_ret. do 3 f_equal. rewrite <- (put_bits_id j) at 2. f_equal. rewrite Hb.
    unfold as_i32, as_signed. rewrite Zmod_mod. by apply as_i32_id.
Qed.

(** ** Gates *)

(** The wires seen after the gates, if each reads seen wires. *)
Fixpoint scan (seen : list bool) (gs : list Gate) : option (list bool) :=
  match gs with
  | [] => Some seen
  | g :: gs =>
      if forallb (fun w => bool_decide (seen !! Z.to_nat w = Some true)) (gate_inputs g) && (output g <? Z.of_nat (length seen))
      then scan (<[Z.to_nat (output g) := true]> seen) gs else None
  end.

(** Gates are written without levels; an inverter without second input. *)
Definition stored_gate (g : Gate) : Gate := mkGate (input0 g) (if is_binary (op g) then input1 g else 0) (output g) (op g) 0.
Definition gate_u32 (g : Gate) : Prop := is_u32 (input0 g) /\ is_u32 (input1 g) /\ is_u32 (output g).

Lemma from_byte_op o : from_byte (byte_of (Z.of_nat (op_index o))) = Some o.
Proof. by destruct o. Qed.

Lemma check_seen_ok seen w : bool_decide (seen !! Z.to_nat w = Some true) = true -> check_wire_seen seen w = Ok ().
Proof. intros H%bool_decide_eq_true_1. unfold check_wire_seen. by rewrite H. Qed.
Lemma set_seen_ok seen w : w < Z.of_nat (length seen) -> set_wire_seen seen w = Ok (<[Z.to_nat w := true]> seen).
Proof. intros H. unfold set_wire_seen. by rewrite (proj2 (Z.leb_gt _ _)). Qed.

Lemma lift_Ok {A} (m : result A) a r : m = Ok a -> lift_reader m r = Ok (a, r).
Proof. intros ->. done. Qed.

Lemma parse_gate_app g seen rest : gate_u32 g ->
  forallb (fun w => bool_decide (seen !! Z.to_nat w = Some true)) (gate_inputs g) = true -> output g < Z.of_nat (length seen) ->
  parse_gate (op g) seen (tail (marshal_gate g) ++ rest) = Ok ((stored_gate g, <[Z.to_nat (output g) := true]> seen), rest).
Proof.
  intros (H0 & H1 & H2) Hin Ho. unfold parse_gate, marshal_gate, stored_gate, gate_inputs in *. cbn [tail].
  destruct (op g) eqn:Eo; cbn [is_binary] in *; rewrite ?decide_True, ?decide_False in Hin by done; cbn [forallb] in Hin;
    rewrite ?andb_true_r in Hin; try apply andb_prop in Hin as [Ha Hb]; rewrite <- !app_assoc;
    repeat (erewrite reader_bind_Ok by (by apply read_u32_small));
    repeat (erewrite reader_bind_Ok by (apply lift_Ok, check_seen_ok; done));
    by erewrite reader_bind_Ok by (by apply lift_Ok, set_seen_ok).
Qed.

Lemma parse_gates_app gs : forall fuel seen seen', Forall gate_u32 gs -> scan seen gs = Some seen' ->
  (length (mjoin (marshal_gate <$> gs)) <= fuel)%nat ->
  parse_gates fuel seen (mjoin (marshal_gate <$> gs)) = Ok (stored_gate <$> gs, seen').
Proof.
  induction gs as [|g gs IH]; intros fuel seen seen' Hg Hs Hf; [injection Hs as <-; by destruct fuel|].
  apply Forall_cons in Hg as [Hg Hgs]. cbn [scan] in Hs. destruct (forallb _ _ && _) eqn:E; [|done].
  apply andb_prop in E as [E1 E2%Z.ltb_lt]. cbn [fmap list_fmap mjoin list_join] in *.
  change (marshal_gate g) with (byte_of (Z.of_nat (op_index (op g))) :: tail (marshal_gate g)) in *. cbn [app] in *.
  destruct fuel as [|fuel]; [cbn in Hf; lia|]. cbn [parse_gates]. rewrite from_byte_op, (parse_gate_app g) by done.
  cbn [mbind result_bind]. fold (marshal_gate <$> gs) in *. erewrite IH; [done|done|done|].
  cbn [length] in Hf. apply le_S_n in Hf. rewrite length_app in Hf. eapply Nat.le_trans; [apply Nat.le_add_l|exact Hf].
Qed.

(** ** Circuits *)

Record storable (c : Circuit) : Prop := {
  st_counts : num_gates c = Z.of_nat (length (gates c)) /\ is_u32 (num_gates c) /\ is_u32 (num_wires c) /\
    is_u32 (Z.of_nat (length (inputs c))) /\ is_u32 (Z.of_nat (length (outputs c)));
  st_inputs : Forall io_ok (inputs c);
  st_outputs : Forall io_ok (outputs c);
  st_gates : Forall gate_u32 (gates c);
  st_seen : exists seen, scan (mark_seen (replicate (Z.to_nat (num_wires c)) false) (count_input_wires (inputs c))) (gates c)
    = Some seen /\ forallb id seen = true;
}.

Lemma io_same_bits a b : io_same a b -> io_bits b = io_bits a.
Proof. by intros [name t t' c c' _ Hb _]. Qed.

Lemma same_flatten l l' : Forall2 io_same l l' -> Forall2 (fun a b => io_bits b = io_bits a) (flatten_args l) (flatten_args l').
Proof.
  unfold flatten_args. induction 1 as [|a b l l' Hab _ IH]; [done|]. cbn [fmap list_fmap mjoin list_join].
  apply Forall2_app; [|exact IH]. pose proof (io_same_bits _ _ Hab) as Hb. destruct Hab as [name t t' c c' _ _ Hc]. cbn [io_compound].
  destruct Hc as [|x y c c' Hxy Hc]; [by constructor|].
  constructor; [by apply io_same_bits|]. eapply Forall2_impl; [exact Hc|]. apply io_same_bits.
Qed.

Lemma load_inputs_same l l' : Forall2 (fun a b => io_bits b = io_bits a) l l' -> forall ws w ins,
  load_inputs ws w l' ins = load_inputs ws w l ins.
Proof.
  induction 1 as [|a b l l' Hab _ IH]; intros ws w [|v ins]; try done. cbn [load_inputs]. rewrite Hab.
  destruct (load_bits _ _ _ _ _) as [ws'| |]; [|done..]. cbn [mbind result_bind]. apply IH.
Qed.

Lemma read_outputs_same l l' : Forall2 io_same l l' -> forall ws w, read_outputs ws w l' = read_outputs ws w l.
Proof.
  induction 1 as [|a b l l' Hab _ IH]; intros ws w; [done|]. cbn [read_outputs]. rewrite (io_same_bits _ _ Hab).
  destruct (read_bits _ _ _ _ _) as [r| |]; [|done..]. cbn [mbind result_bind]. by rewrite IH.
Qed.

Lemma io_size_same l l' : Forall2 io_same l l' -> io_size l' = io_size l.
Proof.
  unfold io_size. generalize 0. intros z H. revert z. induction H as [|a b l l' Hab _ IH]; intros z; [done|].
  cbn. by rewrite (io_same_bits _ _ Hab).
Qed.
Lemma count_input_same l l' : Forall2 io_same l l' -> count_input_wires l' = count_input_wires l.
Proof.
  unfold count_input_wires. generalize 0. intros z H. revert z. induction H as [|a b l l' Hab _ IH]; intros z; [done|].
  cbn. by rewrite (io_same_bits _ _ Hab).
Qed.

Lemma eval_gates_stored gs : forall ws, eval_gates ws (stored_gate <$> gs) = eval_gates ws gs.
Proof.
  induction gs as [|g gs IH]; intros ws; [done|]. cbn [fmap list_fmap eval_gates].
  assert (eval_gate ws (stored_gate g) = eval_gate ws g) as ->.
  { unfold eval_gate, stored_gate. cbn. by destruct (is_binary (op g)). }
  destruct (eval_gate ws g) as [ws'| |]; [|done..]. cbn [mbind result_bind]. apply IH.
Qed.

Lemma storable_round_trip c : storable c -> exists bs c', marshal c = Ok bs /\ parse_qclc bs = Ok c' /\
  gates c' = stored_gate <$> gates c /\ num_wires c' = num_wires c /\
  Forall2 io_same (inputs c) (inputs c') /\ Forall2 io_same (outputs c) (outputs c') /\
  forall ins, compute c' ins = compute c ins.
Proof.
  intros [(Hng & Hg32 & Hw32 & Hi32 & Ho32) Hin Hout Hgs (seen & Hscan & Hseen)].
  destruct (args_round (inputs c)) as (bi & ins' & Ei & Hi & Hri); [by eapply Forall_impl; [done|apply io_arg_round]|].
  destruct (args_round (outputs c)) as (bo & outs' & Eo & Ho & Hro); [by eapply Forall_impl; [done|apply io_arg_round]|].
  unfold marshal. rewrite Ei. cbn [mbind result_bind]. rewrite Eo. cbn [mbind result_bind].
  eexists _, (mkCircuit (num_gates c) (num_wires c) ins' outs' (stored_gate <$> gates c)
    (foldl (fun st g => stats_bump st (op g)) Stats_default (stored_gate <$> gates c))).
  split; [done|]. split_and!; [|done|done|done|done|].
  - unfold parse_qclc. match goal with |- context [parse_io_arg ?f] => set (fuel := f) end.
    assert (length bi <= fuel /\ length bo <= fuel)%nat as [Hfi Hfo] by (unfold fuel; rewrite !length_app; lia).
    clearbody fuel. erewrite reader_bind_Ok by (by apply read_u32_small).
    cbn [Z.eqb MAGIC Pos.eqb reader_guard]. erewrite reader_bind_Ok by done.
    do 4 (erewrite reader_bind_Ok by (by apply read_u32_small)). rewrite !Nat2Z.id.
    erewrite reader_bind_Ok by by apply Hri. erewrite reader_bind_Ok by by apply Hro.
    cbn [mret reader_ret mbind result_bind]. rewrite (count_input_same _ _ Hi).
    erewrite parse_gates_app by done. cbn [mbind result_bind]. rewrite length_fmap, Hng, Z.eqb_refl, Hseen. done.
  - intros ins. unfold compute. cbn [inputs outputs gates num_wires]. pose proof (same_flatten _ _ Hi) as Hf.
    rewrite <- (Forall2_length _ _ _ Hf), (io_size_same _ _ Ho). destruct (decide _); [|done].
    rewrite (load_inputs_same _ _ Hf). destruct (load_inputs _ _ _ _) as [ws| |]; [|done..]. cbn [mbind result_bind].
    rewrite eval_gates_stored. destruct (eval_gates _ _) as [ws'| |]; [|done..]. cbn [mbind result_bind]. by apply read_outputs_same.
Qed.


(** ** Files of compiled circuits *)

Lemma scan_in_order p gs : in_order p gs -> scan p gs = Some (marks p gs).
Proof.
  revert p. induction gs as [|g gs IH]; intros p; [done|]. intros ([[_ H0] H1] & (_ & B1 & _) & Ho).
  cbn [scan]. rewrite (proj2 (Z.ltb_lt _ _)), andb_true_r by lia.
  assert (forallb (fun w => bool_decide (p !! Z.to_nat w = Some true)) (gate_inputs g) = true) as ->.
  { unfold gate_inputs. destruct (decide (op g = OInv)) as [|Hne]; cbn [forallb].
    - by rewrite bool_decide_true.
    - destruct H1 as [?|[_ H1]]; [done|]. by rewrite !bool_decide_true. }
  by apply IH.
Qed.

Lemma mark_seen_start n k : (k <= n)%nat -> mark_seen (replicate n false) (Z.of_nat k) = start_marks n k.
Proof.
  intros Hk. apply list_eq. intros i. unfold mark_seen, start_marks. rewrite list_lookup_imap.
  destruct (decide (i < n)%nat) as [Hi|Hi].
  - rewrite lookup_replicate_2 by done. cbn. destruct (Z.ltb_spec (Z.of_nat i) (Z.of_nat k)).
    + by rewrite lookup_app_l, lookup_replicate_2 by (rewrite ?length_replicate; lia).
    + by rewrite lookup_app_r, lookup_replicate_2 by (rewrite ?length_replicate; lia).
  - rewrite !lookup_ge_None_2; [done|rewrite length_app, !length_replicate; lia|rewrite length_replicate; lia].
Qed.

Lemma ordered_NoDup gs : forall seen, ordered seen gs -> NoDup (g_o <$> gs).
Proof.
  induction gs as [|g gs IH]; intros seen Ho; [constructor|]. destruct Ho as (_ & _ & _ & Ho). cbn. constructor; [|by eapply IH].
  intros Hin. apply (ordered_fresh _ _ _ Ho Hin). apply elem_of_app. right. apply list_elem_of_here.
Qed.

Lemma compiled_gate_count c : cc_ok c -> (length (cc_gates c) <= length (wires c))%nat.
Proof.
  intros Hc. rewrite <- (length_fmap g_o (cc_gates c)). apply NoDup_range_length; [eapply ordered_NoDup, Hc|].
  pose proof (ok_range c Hc) as Hr. apply Forall_app in Hr as [_ Hr]. exact Hr.
Qed.

Lemma length_start_marks n k : (k <= n)%nat -> length (start_marks n k) = n.
Proof. intros Hk. unfold start_marks. rewrite length_app, !length_replicate. lia. Qed.

(** Every numbered wire is an input or driven by a gate. *)
Lemma compiled_seen c S gs : compiled_as c S gs -> forallb id (marks (start_marks (length S) (length (input_wires c))) gs) = true.
Proof.
  intros [(mid & HS) Hkn Hn _ _ Hp Hord]. pose proof (in_order_bounds _ _ Hord) as Hb.
  assert (length (input_wires c) <= length S)%nat as HL by (rewrite HS, length_app; lia).
  pose proof (length_start_marks _ _ HL) as HLs. set (p := start_marks _ _) in *.
  apply forallb_forall. intros b Hin%list_elem_of_In%list_elem_of_lookup_1. destruct Hin as [i Hi].
  enough (produced_at (marks p gs) (Z.of_nat i)) as [_ H] by (rewrite Nat2Z.id in H; unfold id; congruence).
  apply marks_spec; [done|]. apply lookup_lt_Some in Hi. rewrite length_marks, HLs in Hi.
  destruct (lookup_lt_is_Some_2 S i Hi) as [w Hw]. rewrite Forall_forall in Hkn.
  pose proof (Hkn w (list_elem_of_lookup_2 _ _ _ Hw)) as Hk. apply elem_of_app in Hk as [Hk|Hk].
  - left. apply start_marks_spec. apply list_elem_of_lookup_1 in Hk as [j Hj]. pose proof (lookup_lt_Some _ _ _ Hj).
    assert (S !! j = Some w) as Hj' by (rewrite HS; by apply lookup_app_l_Some).
    rewrite (NoDup_lookup S i j w Hn Hw Hj'). lia.
  - right. apply list_elem_of_fmap in Hk as (g & -> & Hg). rewrite <- Hp, <- list_fmap_compose.
    replace (Z.of_nat i) with ((output ∘ renumber S) g); [by apply list_elem_of_fmap_2|]. cbn. by rewrite (pos_of S i (g_o g)).
Qed.

Lemma renumber_u32 S g : Z.of_nat (length S) < 2 ^ 32 -> covered S g -> gate_u32 (renumber S g).
Proof.
  intros Hs (Ka & Kb & Ko). pose proof (pos_lt _ _ Ka). pose proof (pos_lt _ _ Ko). unfold gate_u32, is_u32, renumber. cbn.
  destruct (decide (g_op g = OInv)); [lia|]. destruct Kb as [?|Kb]; [done|]. pose proof (pos_lt _ _ Kb). lia.
Qed.

(** Circuits the compiler builds can be stored. *)
Lemma compiled_storable c circ c' : compilable c -> Forall io_ok (cc_inputs c) -> Forall io_ok (cc_outputs c) ->
  Z.of_nat (length (cc_inputs c)) < 2 ^ 32 -> Z.of_nat (length (cc_outputs c)) < 2 ^ 32 ->
  compile_circuit c = Ok (circ, c') -> storable circ.
Proof.
  intros Hc Hi Ho Li Lo E'. destruct (compile_spec c Hc) as (S & gs & c1 & E & HC). rewrite E in E'. injection E' as <- <-.
  pose proof (compiled_seen c S gs HC) as Hseen. destruct HC as [(mid & HS) _ _ Hsm Hcov Hp Hord].
  pose proof (comp_fits c Hc) as Hf. unfold fits, UNASSIGNED_ID, u32_max in Hf. destruct (comp_in_bits c Hc) as (Hib & Hiw & _).
  assert (length (input_wires c) <= length S)%nat as HL by (rewrite HS, length_app; lia).
  split; cbn [num_gates num_wires inputs outputs gates]; [|done|done| |].
  - unfold is_u32. pose proof (compiled_gate_count c (comp_ok c Hc)). apply Permutation_length in Hp. rewrite length_fmap in Hp. lia.
  - rewrite <- Hp. apply Forall_fmap. eapply Forall_impl; [done|]. intros g Hg. by apply renumber_u32.
  - eexists. split; [|exact Hseen]. rewrite Nat2Z.id.
    change (count_input_wires (cc_inputs c)) with (input_wire_count (cc_inputs c)).
    rewrite input_count_width, Hiw, mark_seen_start by (done || lia). by apply scan_in_order.
Qed.

(** [func main(a uint1, b uint1) (uint1, uint1) { return a ^ b, !b }] *)
Definition sample_circuit : Circuit :=
  mkCircuit 2 4 [IOArg_new (text "a") TUint 1; IOArg_new (text "b") TUint 1] [IOArg_new [] TUint 1; IOArg_new [] TUint 1]
    [mkGate 0 1 2 OXor 0; mkGate 1 0 3 OInv 0] (replicate 8 0).

