(* ===== verification/QclMpa.v ===== *)
(** * Compile-time integers of the circuit language
    ([src/crates/quil-compiler/src/mpa.rs])

    An [Int] is a width and a big integer masked to that width.  The big-integer
    type of the [num-bigint] crate is [Z]; its text parser is a parameter.
    Shifts are those of a release build: a shift count is taken modulo 64. *)

From S2P Require Import Prelude Bytes QclTypes.

Module Mpa.

Record Int := mkInt { int_bits : Z; int_value : Z }.

(** [BigInt::to_i64] and [BigInt::bits] (the length of the magnitude). *)
Definition to_i64 (z : Z) : option Z := if (- 2 ^ 63 <=? z) && (z <? 2 ^ 63) then Some z else None.
Definition bit_length (z : Z) : Z := if z =? 0 then 0 else Z.log2 (Z.abs z) + 1.

(** [x << n] on 64-bit integers, before the result is reduced. *)
Definition shl64 (x n : Z) : Z := Z.shiftl x (n mod 64).

Definition mask (i : Int) : Int :=
  if (0 <? int_bits i) && (int_bits i <=? 64) then
    let m := if 64 <=? int_bits i then u64_max else wrap_u64 (shl64 1 (int_bits i)) - 1 in
    let v := wrap_u64 (default 0 (to_i64 (int_value i))) in
    mkInt (int_bits i) (as_i64 (Z.land v m))
  else i.

(** [Int::new]; a width of zero or less panics. *)
Definition Int_new (b : Z) : result Int := if 0 <? b then Ok (mkInt b 0) else Panic.

(** The loop of [from_i64] that looks for the width of [ux], from [b] up to 64. *)
Fixpoint width_loop (n : nat) (ux b : Z) : Z :=
  match n with
  | O => b
  | S n =>
      if b <? 64
      then if Z.land (wrap_u64 (shl64 u64_max b)) ux =? 0 then b else width_loop n ux (b + 1)
      else b
  end.
Definition from_i64 (x b : Z) : Int :=
  let b := if b =? 0 then if 32 <? width_loop 64 (wrap_u64 x) 1 then 64 else 32 else b in
  mask (mkInt b x).
Definition from_bigint (x b : Z) : Int :=
  let b := if b =? 0
           then let bl := as_i32 (bit_length x) in if 32 <? bl then Z.max 64 bl else Z.max 32 bl
           else b in
  mask (mkInt b x).

Definition is_small (i : Int) : bool := int_bits i <=? 64.
Definition type_size (i : Int) : Z := int_bits i.
Definition set_type_size (i : Int) (size : Z) : Int := mkInt size (int_value i).
Definition bit (i : Int) (n : Z) : bool := Z.testbit (int_value i) n.
Definition bit_len (i : Int) : Z := bit_length (int_value i).

(** The value as an [i64], sign-extended from the width. *)
Definition int64 (i : Int) : Z :=
  let v := default 0 (to_i64 (int_value i)) in
  if is_small i then
    if int_bits i <? 64 then
      let sign_bit := as_i64 (shl64 1 (int_bits i - 1)) in
      if Z.land v sign_bit =? 0 then v
      else
        let m := as_i64 (as_i64 (shl64 1 (int_bits i)) - 1) in
        Z.lor v (Z.lnot m)
    else v
  else v.

Definition sign (i : Int) : Z :=
  if is_small i then Z.sgn (int64 i) else Z.sgn (int_value i).
Definition int_cmp (i x : Int) : comparison := int64 i ?= int64 x.
(** [PartialEq] compares the values only. *)
Definition int_eq (i x : Int) : bool := int_value i =? int_value x.

Definition max_bits (x y : Int) : Z := Z.max (int_bits x) (int_bits y).
Definition add (x y : Int) : Int := from_bigint (int_value x + int_value y) (max_bits x y).
Definition sub (x y : Int) : Int := from_bigint (int_value x - int_value y) (max_bits x y).
Definition mul (x y : Int) : Int := from_bigint (int_value x * int_value y) (max_bits x y).
Definition div (x y : Int) : Int :=
  if int_value y =? 0 then from_i64 (-1) (int_bits x)
  else from_bigint (Z.quot (int_value x) (int_value y)) (max_bits x y).
Definition modulo (x y : Int) : Int :=
  if int_value y =? 0 then x else from_bigint (Z.rem (int_value x) (int_value y)) (max_bits x y).
Definition int_and (x y : Int) : Int := from_bigint (Z.land (int_value x) (int_value y)) (int_bits x).
Definition int_or (x y : Int) : Int := from_bigint (Z.lor (int_value x) (int_value y)) (int_bits x).
Definition int_xor (x y : Int) : Int := from_bigint (Z.lxor (int_value x) (int_value y)) (int_bits x).
Definition int_and_not (x y : Int) : Int := from_bigint (Z.land (int_value x) (Z.lnot (int_value y))) (int_bits x).

(** Clear bits [i], [i + 1], ... of [v]; the bounds of the loop are fixed before it. *)
Fixpoint clear_bits (n : nat) (i v : Z) : Z :=
  match n with O => v | S n => clear_bits n (i + 1) (Z.land v (Z.lnot (Z.shiftl 1 i))) end.
Definition lsh (x : Int) (n : Z) : Int :=
  let r := from_bigint (Z.shiftl (int_value x) n) (int_bits x) in
  if 0 <? int_bits x
  then mkInt (int_bits r)
         (clear_bits (Z.to_nat (bit_length (int_value r) - int_bits x)) (int_bits x) (int_value r))
  else r.
Definition rsh (x : Int) (n : Z) : Int := from_bigint (Z.shiftr (int_value x) n) (int_bits x).

(** [Int::parse]; [parse_bytes] is the text parser of the big-integer crate. *)
Section parse.
Context (parse_bytes : list byte -> Z -> option Z).

Definition strip_either (a b : string) (s : list byte) : option (list byte) :=
  match strip_prefix (text a) s with Some r => Some r | None => strip_prefix (text b) s end.

Definition parse (s : list byte) (base : Z) : option Int :=
  v ← (if base =? 0 then
         match strip_either "0x" "0X" s with
         | Some hex => parse_bytes hex 16
         | None =>
             match strip_either "0b" "0B" s with
             | Some bin => parse_bytes bin 2
             | None =>
                 match strip_either "0o" "0O" s with
                 | Some oct => parse_bytes oct 8
                 | None =>
                     if (1 <? length s)%nat && match s with x30 :: _ => true | _ => false end
                     then parse_bytes s 8 else parse_bytes s 10
                 end
             end
         end
       else parse_bytes s base);
  Some (from_bigint v 0).
End parse.

(** ** Two's complement *)

(** A masked integer of 1 to 64 bits: unsigned below 64 bits, signed at 64. *)
Definition int_ok (i : Int) : Prop :=
  1 <= int_bits i <= 64 /\
  (if decide (int_bits i = 64) then is_i64 (int_value i) else 0 <= int_value i < 2 ^ int_bits i).

Lemma to_i64_id z : is_i64 z -> to_i64 z = Some z.
Proof.
  unfold is_i64, to_i64. intros H. by rewrite (proj2 (Z.leb_le _ _)), (proj2 (Z.ltb_lt _ _)) by lia.
Qed.
Lemma to_i64_big z : ~ is_i64 z -> to_i64 z = None.
Proof. unfold is_i64, to_i64. intros H. destruct (Z.leb_spec (- 2 ^ 63) z), (Z.ltb_spec z (2 ^ 63)); try done. lia. Qed.

Lemma land_low z b : 0 <= b <= 64 -> Z.land (wrap_u64 z) (2 ^ b - 1) = z mod 2 ^ b.
Proof.
  intros Hb. replace (2 ^ b - 1) with (Z.ones b) by (rewrite Z.ones_equiv; lia). unfold wrap_u64. rewrite Z.land_ones by lia.
  apply Z.mod_mod_divide. exists (2 ^ (64 - b)). rewrite <- Z.pow_add_r by lia. f_equal. lia.
Qed.

Lemma mask_value b z : 1 <= b <= 64 -> is_i64 z ->
  mask (mkInt b z) = mkInt b (if decide (b = 64) then z else z mod 2 ^ b).
Proof.
  intros Hb Hz. unfold mask. cbn [int_bits int_value]. rewrite to_i64_id by done. cbn [default].
  rewrite (proj2 (Z.ltb_lt 0 b)), (proj2 (Z.leb_le b 64)) by lia. cbn [andb]. f_equal.
  destruct (decide (b = 64)) as [->|Hne].
  - change (64 <=? 64) with true. cbv iota. unfold u64_max. rewrite land_low by lia.
    unfold as_i64. apply as_signed_id; [lia|exact Hz].
  - rewrite (proj2 (Z.leb_gt 64 b)) by lia. unfold shl64. rewrite Z.mod_small, Z.shiftl_1_l by lia.
    assert (2 ^ b < 2 ^ 64) by (apply Z.pow_lt_mono_r; lia). unfold wrap_u64 at 2. rewrite Z.mod_small by lia.
    rewrite land_low by lia. apply as_i64_id. unfold is_i64.
    pose proof (Z.mod_pos_bound z (2 ^ b)). assert (2 ^ b <= 2 ^ 63) by (apply Z.pow_le_mono_r; lia). lia.
Qed.

(** An integer that does not fit an [i64] is masked to zero. *)
Lemma mask_overflow b z : 1 <= b <= 64 -> ~ is_i64 z -> mask (mkInt b z) = mkInt b 0.
Proof.
  intros Hb Hz. transitivity (mask (mkInt b 0)).
  { unfold mask. cbn [int_bits int_value]. rewrite to_i64_big, (to_i64_id 0) by (done || (unfold is_i64; lia)).
    by rewrite (proj2 (Z.ltb_lt 0 b)), (proj2 (Z.leb_le b 64)) by lia. }
  rewrite mask_value by (done || (unfold is_i64; lia)). f_equal. by destruct (decide (b = 64)); [|rewrite Zmod_0_l].
Qed.

Lemma from_bigint_mask z b : 1 <= b -> from_bigint z b = mask (mkInt b z).
Proof. intros Hb. unfold from_bigint. by rewrite (proj2 (Z.eqb_neq b 0)) by lia. Qed.

Lemma from_bigint_ok z b : 1 <= b <= 64 -> int_ok (from_bigint z b).
Proof.
  intros Hb. rewrite from_bigint_mask by lia. assert (is_i64 z \/ ~ is_i64 z) as [Hz|Hz] by (unfold is_i64; lia).
  - rewrite mask_value by done. split; [done|]. cbn. destruct (decide (b = 64)); [done|]. apply Z.mod_pos_bound. lia.
  - rewrite mask_overflow by done. split; [done|]. cbn. destruct (decide (b = 64)); [unfold is_i64; lia|lia].
Qed.

Lemma land_pow2 v k : 0 <= k -> Z.land v (2 ^ k) = if Z.testbit v k then 2 ^ k else 0.
Proof.
  intros Hk. apply Z.bits_inj'. intros n Hn. rewrite Z.land_spec, Z.pow2_bits_eqb by lia.
  destruct (Z.eqb_spec k n) as [->|Hne]; [rewrite andb_true_r|rewrite andb_false_r]; destruct (Z.testbit v _) eqn:E.
  - by rewrite Z.pow2_bits_true.
  - by rewrite Z.bits_0.
  - by rewrite Z.pow2_bits_false by lia.
  - by rewrite Z.bits_0.
Qed.

Lemma top_bit v b : 1 <= b -> 0 <= v < 2 ^ b -> Z.testbit v (b - 1) = (2 ^ (b - 1) <=? v).
Proof.
  intros Hb Hv. assert (2 ^ b = 2 * 2 ^ (b - 1)) as E by (rewrite <- Z.pow_succ_r by lia; f_equal; lia).
  rewrite Z.testbit_eqb by lia. destruct (Z.leb_spec (2 ^ (b - 1)) v).
  - by rewrite <- (Z.div_unique v (2 ^ (b - 1)) 1 (v - 2 ^ (b - 1))) by lia.
  - by rewrite Z.div_small by lia.
Qed.

(** The sign extension reads the masked value in two's complement. *)
Lemma int64_signed i : int_ok i -> int64 i = as_signed (int_bits i) (int_value i).
Proof.
  destruct i as [b v]. intros [Hb Hv]. cbn [int_bits int_value] in *. unfold int64, is_small. cbn [int_bits int_value].
  rewrite (proj2 (Z.leb_le b 64)) by lia. destruct (decide (b = 64)) as [->|Hne].
  { rewrite to_i64_id by done. cbn [default]. symmetry. by apply as_i64_id. }
  assert (2 ^ b <= 2 ^ 63) by (apply Z.pow_le_mono_r; lia). rewrite to_i64_id by (unfold is_i64; lia).
  change (default 0 (Some v)) with v.
  rewrite (proj2 (Z.ltb_lt b 64)) by lia. unfold shl64. rewrite !Z.mod_small, !Z.shiftl_1_l by lia.
  assert (2 ^ b = 2 * 2 ^ (b - 1)) as E by (rewrite <- Z.pow_succ_r by lia; f_equal; lia).
  rewrite (as_i64_id (2 ^ (b - 1))) by (unfold is_i64; lia). unfold as_signed. rewrite (Z.mod_small v) by lia.
  assert (as_i64 (as_i64 (2 ^ b) - 1) = Z.ones b) as ->.
  { rewrite Z.ones_equiv. destruct (decide (b = 63)) as [->|]; [done|].
    assert (2 ^ b <= 2 ^ 62) by (apply Z.pow_le_mono_r; lia).
    rewrite (as_i64_id (2 ^ b)), as_i64_id by (unfold is_i64; lia). lia. }
  rewrite land_pow2, top_bit by lia. destruct (Z.leb_spec (2 ^ (b - 1)) v), (Z.ltb_spec v (2 ^ (b - 1))); try lia.
  - rewrite (proj2 (Z.eqb_neq _ _)) by lia. replace (Z.lnot (Z.ones b)) with (Z.shiftl (-1) b).
    + rewrite Z.lor_comm, lor_shiftl_add by lia. lia.
    + rewrite Z.shiftl_mul_pow2, Z.ones_equiv by lia. unfold Z.lnot. lia.
  - done.
Qed.

Lemma int64_from_bigint z b : 1 <= b <= 64 -> is_i64 z -> int64 (from_bigint z b) = as_signed b z.
Proof.
  intros Hb Hz. rewrite int64_signed by by apply from_bigint_ok. rewrite from_bigint_mask, mask_value by (done || lia).
  cbn [int_bits int_value]. destruct (decide (b = 64)); [done|]. unfold as_signed. by rewrite Z.mod_mod by lia.
Qed.

Lemma as_signed_mod b x y : 1 <= b -> x mod 2 ^ b = y mod 2 ^ b -> as_signed b x = as_signed b y.
Proof. intros Hb E. unfold as_signed. by rewrite E. Qed.

Lemma as_signed_cong b x : 1 <= b -> as_signed b x mod 2 ^ b = x mod 2 ^ b.
Proof.
  intros Hb. unfold as_signed. destruct (Z.ltb_spec (x mod 2 ^ b) (2 ^ (b - 1))); [by rewrite Z.mod_mod by lia|].
  rewrite <- (Z.mod_add _ 1) by lia. replace (x mod 2 ^ b - 2 ^ b + 1 * 2 ^ b) with (x mod 2 ^ b) by lia.
  by rewrite Z.mod_mod by lia.
Qed.

Lemma int64_cong i : int_ok i -> int64 i mod 2 ^ int_bits i = int_value i mod 2 ^ int_bits i.
Proof. intros Hi. rewrite int64_signed by done. apply as_signed_cong. destruct Hi. lia. Qed.

(** Arithmetic on two integers of width [b] is that of [b]-bit two's complement,
    when the exact result on the stored values fits an [i64]. *)
Lemma ring_op (f : Z -> Z -> Z) x y b : int_ok x -> int_ok y -> int_bits x = b -> int_bits y = b ->
  (forall p q r s m, 0 < m -> p mod m = q mod m -> r mod m = s mod m -> f p r mod m = f q s mod m) ->
  is_i64 (f (int_value x) (int_value y)) ->
  int64 (from_bigint (f (int_value x) (int_value y)) b) = as_signed b (f (int64 x) (int64 y)).
Proof.
  intros Hx Hy Ex Ey Hf Hz. assert (1 <= b <= 64) as Hb by (rewrite <- Ex; apply Hx).
  rewrite int64_from_bigint by done. apply as_signed_mod; [lia|]. symmetry.
  apply Hf; [lia|rewrite <- Ex|rewrite <- Ey]; by apply int64_cong.
Qed.

Lemma add_cong p q r s m : 0 < m -> p mod m = q mod m -> r mod m = s mod m -> (p + r) mod m = (q + s) mod m.
Proof. intros Hm E1 E2. by rewrite Z.add_mod, E1, E2, <- Z.add_mod by lia. Qed.
Lemma sub_cong p q r s m : 0 < m -> p mod m = q mod m -> r mod m = s mod m -> (p - r) mod m = (q - s) mod m.
Proof. intros Hm E1 E2. by rewrite Zminus_mod, E1, E2, <- Zminus_mod. Qed.
Lemma mul_cong p q r s m : 0 < m -> p mod m = q mod m -> r mod m = s mod m -> (p * r) mod m = (q * s) mod m.
Proof. intros Hm E1 E2. by rewrite Z.mul_mod, E1, E2, <- Z.mul_mod by lia. Qed.

(** Widths at which no sum, difference or product leaves the [i64] range. *)
Lemma small_values x b : int_ok x -> int_bits x = b -> b <= 62 -> 0 <= int_value x < 2 ^ b /\ 2 ^ b <= 2 ^ 62.
Proof.
  intros [_ Hx] Eb Hb. rewrite decide_False in Hx by lia. rewrite Eb in Hx. split; [done|]. apply Z.pow_le_mono_r; lia.
Qed.

(** The multi-precision integers are two's complement where they fit: at a common
    width of up to 62 bits sums and differences, and of up to 31 bits products,
    read back as the exact result reduced to the width. *)
Theorem mpa_two_complement x y b : int_ok x -> int_ok y -> int_bits x = b -> int_bits y = b ->
  (b <= 62 -> int64 (add x y) = as_signed b (int64 x + int64 y) /\ int64 (sub x y) = as_signed b (int64 x - int64 y)) /\
  (b <= 31 -> int64 (mul x y) = as_signed b (int64 x * int64 y)).
Proof.
  intros Hx Hy Ex Ey. unfold add, sub, mul, max_bits. rewrite Ex, Ey, Z.max_id. split; intros Hb.
  - destruct (small_values x b), (small_values y b); try done.
    split; apply ring_op; try done; [apply add_cong|unfold is_i64; lia|apply sub_cong|unfold is_i64; lia].
  - destruct (small_values x b), (small_values y b); try done; [lia..|].
    assert (2 ^ b <= 2 ^ 31) by (apply Z.pow_le_mono_r; lia).
    apply ring_op; try done; [apply mul_cong|unfold is_i64; nia].
Qed.

Lemma mpa_two_complement_witness : int64 (add (mkInt 8 127) (mkInt 8 3)) = -126 /\ int64 (mul (mkInt 8 251) (mkInt 8 7)) = -35.
Proof.
  destruct (mpa_two_complement (mkInt 8 127) (mkInt 8 3) 8) as [H1 _]; [split; [cbn; lia|by vm_compute]..|done|done|].
  destruct (mpa_two_complement (mkInt 8 251) (mkInt 8 7) 8) as [_ H2]; [split; [cbn; lia|by vm_compute]..|done|done|].
  split; [rewrite (proj1 (H1 ltac:(lia))); reflexivity|rewrite (H2 ltac:(lia)); reflexivity].
Defined.

Lemma bit_length_64 v : 2 ^ 63 <= v < 2 ^ 64 -> bit_length v = 64.
Proof.
  intros Hv. unfold bit_length. rewrite (proj2 (Z.eqb_neq v 0)), Z.abs_eq by lia.
  rewrite (Z.log2_unique v 63) by lia. done.
Qed.

(** A literal whose value needs the 64th bit becomes zero. *)
Lemma wide_literal_is_zero parse_bytes s base v : base <> 0 -> parse_bytes s base = Some v -> 2 ^ 63 <= v < 2 ^ 64 ->
  parse parse_bytes s base = Some (mkInt 64 0).
Proof.
  intros Hb Hp Hv. unfold parse. rewrite (proj2 (Z.eqb_neq base 0)), Hp by done. cbn.
  unfold from_bigint. rewrite bit_length_64 by done. f_equal. apply mask_overflow; [lia|unfold is_i64; lia].
Qed.
End Mpa.
