(* ===== verification/QclSsa.v ===== *)
(** * The SSA form of the circuit compiler
    ([src/crates/quil-compiler/src/ssa/]: instructions, values, blocks, bindings,
    generator, peephole, program)

    A [Generator] collects values and instructions block by block; operations on
    [&mut Generator] are functions to the new generator.  Value ids are [u32] and
    block ids [usize], both [Z]; a map of variable names is a [gmap]. *)

From S2P Require Import Prelude Bytes QclTypes Circuit QclMpa.

(** ** Instructions ([instructions.rs]) *)

Inductive Opcode :=
| Iadd | Isub | Imul | Idiv | Imod
| Ilt | Ile | Igt | Ige | Ieq | Ineq
| And | Or | Not
| Band | Bor | Bxor | Bclear | Bts | Btc
| Lshift | Rshift
| Mov | Phi | Slice | Index
| Jump | If | Ret | Call | Builtin
| Cast | Make
| Nop | GC
| Circ | Amov | Smov.
#[export] Instance Opcode_eq_dec : EqDecision Opcode.
Proof. solve_decision. Defined.

Inductive Operand :=
| OpValue (id : Z)
| OpImm (n : Z)
| OpLabel (block : Z)
| OpType (t : Info)
| OpFunc (name : list byte).

Record Instr := mkInstr {
  i_op : Opcode;
  i_out : option Z;
  operands : list Operand;
  i_type : Info;
}.
Definition Instr_new (o : Opcode) : Instr := mkInstr o None [] Info_default.
Definition with_out (i : Instr) (out : Z) : Instr := mkInstr (i_op i) (Some out) (operands i) (i_type i).
Definition with_operand (i : Instr) (o : Operand) : Instr := mkInstr (i_op i) (i_out i) (operands i ++ [o]) (i_type i).
Definition with_type (i : Instr) (t : Info) : Instr := mkInstr (i_op i) (i_out i) (operands i) t.

(** ** Values and blocks ([value.rs], [block.rs]) *)

Record Value := mkValue {
  v_id : Z;
  v_name : list byte;
  v_type : Info;
  const_val : option Mpa.Int;
  bit_offset : Z;
  param : bool;
}.
Definition Value_new (id : Z) (name : list byte) (t : Info) : Value := mkValue id name t None 0 false.
Definition is_const_value (v : Value) : bool := match const_val v with Some _ => true | None => false end.
Definition value_bits (v : Value) : Z := bits (v_type v).
Definition set_const (v : Value) (c : Mpa.Int) : Value :=
  mkValue (v_id v) (v_name v) (v_type v) (Some c) (bit_offset v) (param v).
Definition set_param (v : Value) : Value :=
  mkValue (v_id v) (v_name v) (v_type v) (const_val v) (bit_offset v) true.
Definition type_compatible (v o : Value) : bool :=
  bool_decide (typ (v_type v) = typ (v_type o)) ||
  match typ (v_type v), typ (v_type o) with TInt, TUint | TUint, TInt => true | _, _ => false end.
Definition resolve_size (v o : Value) : Z := Z.max (value_bits v) (value_bits o).

Record Block := mkBlock {
  b_id : Z;
  b_name : list byte;
  instructions : list Instr;
  succs : list Z;
  preds : list Z;
  sealed : bool;
  b_dead : bool;
}.
Definition Block_new (id : Z) (name : list byte) : Block := mkBlock id name [] [] [] false false.
Definition add_instr (b : Block) (i : Instr) : Block :=
  mkBlock (b_id b) (b_name b) (instructions b ++ [i]) (succs b) (preds b) (sealed b) (b_dead b).
Definition push_new (x : Z) (l : list Z) : list Z := if decide (x ∈ l) then l else l ++ [x].
Definition add_succ (b : Block) (id : Z) : Block :=
  mkBlock (b_id b) (b_name b) (instructions b) (push_new id (succs b)) (preds b) (sealed b) (b_dead b).
Definition add_pred (b : Block) (id : Z) : Block :=
  mkBlock (b_id b) (b_name b) (instructions b) (succs b) (push_new id (preds b)) (sealed b) (b_dead b).

(** ** Bindings ([bindings.rs]) *)

(** The scopes, innermost last. *)
Abbreviation Scope := (gmap (list byte) Z) (only parsing).
Abbreviation Bindings := (list Scope) (only parsing).
Definition Bindings_new : Bindings := [∅].
Definition push_scope (b : Bindings) : Bindings := b ++ [default ∅ (last b)].
Definition pop_scope (b : Bindings) : Bindings := if (1 <? length b)%nat then removelast b else b.
(** [define], also [set]. *)
Definition bind_define (b : Bindings) (name : list byte) (id : Z) : Bindings :=
  match last b with Some scope => removelast b ++ [<[name := id]> scope] | None => b end.
(** [find_map] over the scopes from the last. *)
Fixpoint lookup_scopes (scopes : list Scope) (name : list byte) : option Z :=
  match scopes with
  | [] => None
  | s :: rest => match s !! name with Some id => Some id | None => lookup_scopes rest name end
  end.
Definition bind_lookup (b : Bindings) (name : list byte) : option Z := lookup_scopes (reverse b) name.

(** ** The generator ([generator.rs]) *)

Record Generator := mkGenerator {
  values : list Value;
  blocks : list Block;
  current_block : Z;
  bindings : Bindings;
  next_value_id : Z;
}.
Definition Generator_new : Generator := mkGenerator [] [Block_new 0 (text "entry")] 0 Bindings_new 0.

Definition with_values (g : Generator) (vs : list Value) : Generator :=
  mkGenerator vs (blocks g) (current_block g) (bindings g) (next_value_id g).
Definition with_blocks (g : Generator) (bs : list Block) : Generator :=
  mkGenerator (values g) bs (current_block g) (bindings g) (next_value_id g).
Definition with_bindings (g : Generator) (b : Bindings) : Generator :=
  mkGenerator (values g) (blocks g) (current_block g) b (next_value_id g).
Definition set_current_block (g : Generator) (b : Z) : Generator :=
  mkGenerator (values g) (blocks g) b (bindings g) (next_value_id g).

Definition new_value (g : Generator) (name : list byte) (t : Info) : Z * Generator :=
  let id := next_value_id g in
  (id, mkGenerator (values g ++ [Value_new id name t]) (blocks g) (current_block g) (bindings g) (wrap_u32 (id + 1))).

(** Update of an array element; a [Panic] past the end. *)
Definition alter_at {A} (v : list A) (i : Z) (f : A -> A) : result (list A) :=
  x ← index v i; Ok (<[Z.to_nat i := f x]> v).

(** [BigInt::to_string]. *)
Definition display_int (z : Z) : list byte :=
  let ds n := digits (S (Z.to_nat (Z.log2 n))) n [] in
  if z <? 0 then text "-" ++ ds (- z) else ds z.

Definition new_const (g : Generator) (val : Mpa.Int) (t : Info) : result (Z * Generator) :=
  let '(id, g) := new_value g (display_int (Mpa.int_value val)) t in
  vs ← alter_at (values g) id (fun v => set_const v val);
  Ok (id, with_values g vs).

Definition new_block (g : Generator) (name : list byte) : Z * Generator :=
  let id := Z.of_nat (length (blocks g)) in (id, with_blocks g (blocks g ++ [Block_new id name])).

Definition emit (g : Generator) (i : Instr) : result Generator :=
  bs ← alter_at (blocks g) (current_block g) (fun b => add_instr b i); Ok (with_blocks g bs).

(** A new value defined by an instruction of the current block. *)
Definition emit_out (g : Generator) (t : Info) (mk : Z -> Instr) : result (Z * Generator) :=
  let '(out, g) := new_value g [] t in
  g ← emit g (mk out); Ok (out, g).
Definition emit_binary (g : Generator) (o : Opcode) (left right : Z) (t : Info) : result (Z * Generator) :=
  emit_out g t (fun out =>
    with_type (with_operand (with_operand (with_out (Instr_new o) out) (OpValue left)) (OpValue right)) t).
Definition emit_unary (g : Generator) (o : Opcode) (operand : Z) (t : Info) : result (Z * Generator) :=
  emit_out g t (fun out => with_type (with_operand (with_out (Instr_new o) out) (OpValue operand)) t).
Definition emit_mov (g : Generator) (src : Z) (t : Info) : result (Z * Generator) :=
  emit_out g t (fun out => with_type (with_operand (with_out (Instr_new Mov) out) (OpValue src)) t).

Definition alter_block (g : Generator) (b : Z) (f : Block -> Block) : result Generator :=
  bs ← alter_at (blocks g) b f; Ok (with_blocks g bs).
Definition emit_if (g : Generator) (cond tb fb : Z) : result Generator :=
  g ← emit g (with_operand (with_operand (with_operand (Instr_new If) (OpValue cond)) (OpLabel tb)) (OpLabel fb));
  g ← alter_block g (current_block g) (fun b => add_succ b tb);
  g ← alter_block g (current_block g) (fun b => add_succ b fb);
  g ← alter_block g tb (fun b => add_pred b (current_block g));
  alter_block g fb (fun b => add_pred b (current_block g)).
Definition emit_jump (g : Generator) (target : Z) : result Generator :=
  g ← emit g (with_operand (Instr_new Jump) (OpLabel target));
  g ← alter_block g (current_block g) (fun b => add_succ b target);
  alter_block g target (fun b => add_pred b (current_block g)).
Definition emit_ret (g : Generator) (vs : list Z) : result Generator :=
  emit g (foldl (fun i v => with_operand i (OpValue v)) (Instr_new Ret) vs).
Definition emit_phi (g : Generator) (ops : list (Z * Z)) (t : Info) : result (Z * Generator) :=
  emit_out g t (fun out =>
    foldl (fun i bv => with_operand (with_operand i (OpLabel bv.1)) (OpValue bv.2))
      (with_type (with_out (Instr_new Phi) out) t) ops).
Definition get_value (g : Generator) (id : Z) : result Value := index (values g) id.

(** ** Programs ([program.rs]) *)

Record Program := mkProgram {
  p_inputs : list IOArg;
  p_outputs : list IOArg;
  p_blocks : list Block;
  p_values : list Value;
  input_values : list Z;
  return_values : list Z;
}.
Definition Program_new : Program := mkProgram [] [] [] [] [] [].

(** ** Peephole rewriting ([peephole.rs]) *)

(** The constant of an operand that is a value; an unknown id panics. *)
Definition operand_const (vs : list Value) (o : option Operand) : result (option Z) :=
  match o with
  | Some (OpValue id) => v ← index vs id; Ok (Mpa.int64 <$> const_val v)
  | _ => Ok None
  end.

(** [mov a] in place of an instruction whose first operand is the value [a]. *)
Definition to_mov (i : Instr) : option Instr :=
  match operands i !! 0%nat with
  | Some (OpValue a) => Some (mkInstr Mov (i_out i) [OpValue a] Info_default)
  | _ => None
  end.

(** Whether an operand is the constant zero; without an output value the loop
    goes on past it. *)
Fixpoint has_zero (out : option Z) (vs : list Value) (ops : list Operand) : result bool :=
  match ops with
  | [] => Ok false
  | o :: ops =>
      c ← operand_const vs (Some o);
      match out with
      | Some _ => if decide (c = Some 0) then Ok true else has_zero out vs ops
      | None => has_zero out vs ops
      end
  end.

(** [try_optimize]: the rewritten instruction and values, or [None] when nothing
    applies. *)
Definition try_optimize (i : Instr) (vs : list Value) : result (option (Instr * list Value)) :=
  match i_op i with
  | Iadd =>
      c ← operand_const vs (operands i !! 1%nat);
      Ok (if decide (c = Some 0) then (fun j => (j, vs)) <$> to_mov i else None)
  | Imul =>
      c ← operand_const vs (operands i !! 1%nat);
      match (if decide (c = Some 1) then to_mov i else None) with
      | Some j => Ok (Some (j, vs))
      | None =>
          z ← has_zero (i_out i) vs (operands i);
          match i_out i with
          | Some out =>
              if (z : bool) then
                vs ← alter_at vs out (fun v => set_const v (Mpa.from_i64 0 32));
                Ok (Some (mkInstr Nop (Some out) [] Info_default, vs))
              else Ok None
          | None => Ok None
          end
      end
  | _ => Ok None
  end.

(** The loop at one position: a rewritten instruction is tried again.  A rewrite
    leaves a [Mov] or a [Nop], to which nothing applies, so two tries are enough. *)
Fixpoint optimize_at (fuel : nat) (i : Instr) (vs : list Value) : result (Instr * list Value) :=
  match fuel with
  | O => Ok (i, vs)
  | S fuel =>
      r ← try_optimize i vs;
      match r with Some (i, vs) => optimize_at fuel i vs | None => Ok (i, vs) end
  end.

Fixpoint optimize_instrs (instrs : list Instr) (vs : list Value) : result (list Instr * list Value) :=
  match instrs with
  | [] => Ok ([], vs)
  | i :: instrs =>
      '(i, vs) ← optimize_at 2 i vs;
      '(instrs, vs) ← optimize_instrs instrs vs;
      Ok (i :: instrs, vs)
  end.
Definition optimize_block (b : Block) (vs : list Value) : result (Block * list Value) :=
  '(instrs, vs) ← optimize_instrs (instructions b) vs;
  Ok (mkBlock (b_id b) (b_name b) instrs (succs b) (preds b) (sealed b) (b_dead b), vs).
Fixpoint optimize (bs : list Block) (vs : list Value) : result (list Block * list Value) :=
  match bs with
  | [] => Ok ([], vs)
  | b :: bs =>
      '(b, vs) ← optimize_block b vs;
      '(bs, vs) ← optimize bs vs;
      Ok (b :: bs, vs)
  end.

(** A rewritten instruction is a [Mov] or a [Nop], so a second round ends the loop. *)
Lemma try_optimize_result i vs j vs' : try_optimize i vs = Ok (Some (j, vs')) -> i_op j = Mov \/ i_op j = Nop.
Proof.
  assert (forall k, to_mov i = Some k -> i_op k = Mov) as Hmov.
  { intros k. unfold to_mov. destruct (operands i !! 0%nat) as [[]|]; try done. by intros [= <-]. }
  unfold try_optimize. destruct (i_op i); try done.
  - destruct (operand_const _ _) as [c| |]; try done. cbn. destruct (decide _); [|done].
    destruct (to_mov i) as [k|] eqn:E; [|done]. intros [= <- <-]. auto.
  - destruct (operand_const _ _) as [c| |]; try done. cbn [mbind result_bind].
    destruct (if decide _ then _ else _) as [k|] eqn:E.
    { intros [= <- <-]. destruct (decide _); [auto|done]. }
    destruct (has_zero _ _ _) as [z| |]; try done. cbn [mbind result_bind]. destruct (i_out i) as [out|]; [|done].
    destruct z; [|done]. destruct (alter_at _ _ _) as [ws| |]; try done. intros [= <- <-]. auto.
Qed.

Lemma optimize_at_fuel n i vs : optimize_at (2 + n) i vs = optimize_at 2 i vs.
Proof.
  cbn [Nat.add optimize_at]. destruct (try_optimize i vs) as [[[j ws]|]| |] eqn:E; try done. cbn [mbind result_bind].
  assert (try_optimize j ws = Ok None) as -> by (apply try_optimize_result in E; unfold try_optimize; by destruct E as [-> | ->]).
  done.
Qed.
