(* ===== verification/QclCircuitGen.v ===== *)
(** * Circuits from SSA programs
    ([src/crates/quil-compiler/src/ssa/circuitgen.rs], [wire_allocator.rs])

    [generate] gives every value of a program wires, adds the gates of each
    instruction, connects the returned values to the output wires, and runs the
    passes of the circuit compiler.  The generator's wire map is passed through
    the construction explicitly. *)

From S2P Require Import Prelude Bytes QclTypes Circuit CircuitBuild QclMpa QclSsa.

(** ** The wire map ([wire_allocator.rs]) *)

Abbreviation WireMap := (gmap Z (list Z)) (only parsing).
Definition wa_set (m : WireMap) (id : Z) (ws : list Z) : WireMap := <[id := ws]> m.
Definition wa_alloc (m : WireMap) (id b : Z) : build (list Z * WireMap) :=
  ws ← alloc_wires b; mret (ws, wa_set m id ws).

(** ** Instructions *)

Definition required {A} (o : option A) : build A := match o with Some a => mret a | None => fail end.

Definition get_two_value_operands (i : Instr) : build (Z * Z) :=
  match operands i !! 0%nat, operands i !! 1%nat with
  | Some (OpValue a), Some (OpValue b) => mret (a, b)
  | _, _ => fail
  end.
Definition get_one_value_operand (i : Instr) : build Z :=
  match operands i !! 0%nat with Some (OpValue a) => mret a | _ => fail end.

Definition gen_binary (op : list Z -> list Z -> list Z -> build (list Z)) (i : Instr) (m : WireMap) : build WireMap :=
  out_id ← required (i_out i);
  '(a_id, b_id) ← get_two_value_operands i;
  a_wires ← required (m !! a_id);
  b_wires ← required (m !! b_id);
  '(out_wires, m) ← wa_alloc m out_id (bits (i_type i));
  out_wires ← op a_wires b_wires out_wires;
  mret (wa_set m out_id out_wires).

Definition gen_divmod (is_div : bool) (i : Instr) (m : WireMap) : build WireMap :=
  out_id ← required (i_out i);
  '(a_id, b_id) ← get_two_value_operands i;
  a_wires ← required (m !! a_id);
  b_wires ← required (m !! b_id);
  '(q_wires, m) ← wa_alloc m out_id (bits (i_type i));
  r_wires ← fresh (Z.to_nat (as_usize (bits (i_type i))));
  q_wires ← new_idivider a_wires b_wires q_wires r_wires;
  mret (wa_set m out_id (if is_div then q_wires else r_wires)).

(** The comparison passed by the caller is not used. *)
Definition gen_compare (i : Instr) (m : WireMap) : build WireMap :=
  out_id ← required (i_out i);
  '(a_id, b_id) ← get_two_value_operands i;
  a_wires ← required (m !! a_id);
  b_wires ← required (m !! b_id);
  let n := Nat.max (length a_wires) (length b_wires) in
  diff ← fresh (n + 1);
  diff ← new_subtractor a_wires b_wires diff;
  out_wire ← wire;
  d ← lift (index diff (Z.of_nat n));
  _ ← id_gate d out_wire;
  mret (wa_set m out_id [out_wire]).

(** [if i < v.len() { v[i] } else { zw }], from the front of [v]. *)
Definition head_or (zw : Z) (v : list Z) : Z := match v with a :: _ => a | [] => zw end.

Fixpoint xor_loop (n : nat) (zw : Z) (a b : list Z) (acc : Z) : build Z :=
  match n with
  | O => mret acc
  | S n =>
      x ← wire;
      _ ← gate OXor (head_or zw a) (head_or zw b) x;
      or_out ← wire;
      _ ← gate OOr acc x or_out;
      xor_loop n zw (tail a) (tail b) or_out
  end.

Definition gen_equality (negate : bool) (i : Instr) (m : WireMap) : build WireMap :=
  out_id ← required (i_out i);
  '(a_id, b_id) ← get_two_value_operands i;
  a_wires ← required (m !! a_id);
  b_wires ← required (m !! b_id);
  zw ← zero_wire;
  x ← xor_loop (Nat.max (length a_wires) (length b_wires)) zw a_wires b_wires zw;
  out_wire ← wire;
  _ ← (if negate then id_gate x out_wire else inv x out_wire);
  mret (wa_set m out_id [out_wire]).

Fixpoint bitwise_loop (o : Operation) (n : nat) (zw : Z) (a b : list Z) : build (list Z) :=
  match n with
  | O => mret []
  | S n =>
      w ← wire;
      _ ← gate o (head_or zw a) (head_or zw b) w;
      ws ← bitwise_loop o n zw (tail a) (tail b);
      mret (w :: ws)
  end.

Definition gen_bitwise (o : Operation) (i : Instr) (m : WireMap) : build WireMap :=
  out_id ← required (i_out i);
  '(a_id, b_id) ← get_two_value_operands i;
  a_wires ← required (m !! a_id);
  b_wires ← required (m !! b_id);
  zw ← zero_wire;
  ws ← bitwise_loop o (Nat.max (length a_wires) (length b_wires)) zw a_wires b_wires;
  mret (wa_set m out_id ws).

Definition gen_not (i : Instr) (m : WireMap) : build WireMap :=
  out_id ← required (i_out i);
  a_id ← get_one_value_operand i;
  a_wires ← required (m !! a_id);
  ws ← invert_all a_wires;
  mret (wa_set m out_id ws).

Definition shifted (left : bool) (shift : Z) (zw : Z) (a : list Z) : list Z :=
  let n := Z.of_nat (length a) in
  (fun i =>
     let j := Z.of_nat i in
     if left then if shift <=? j then default zw (a !! Z.to_nat (j - shift)) else zw
     else if wrap_u64 (j + shift) <? n then default zw (a !! Z.to_nat (wrap_u64 (j + shift))) else zw)
  <$> seq 0 (length a).

Definition gen_shift (left : bool) (i : Instr) (m : WireMap) : build WireMap :=
  out_id ← required (i_out i);
  '(a_id, _) ← get_two_value_operands i;
  a_wires ← required (m !! a_id);
  let shift := match operands i !! 1%nat with Some (OpImm n) => as_usize n | _ => 0 end in
  zw ← zero_wire;
  mret (wa_set m out_id (shifted left shift zw a_wires)).

Definition gen_mov (i : Instr) (m : WireMap) : build WireMap :=
  out_id ← required (i_out i);
  src ← get_one_value_operand i;
  mret (match m !! src with Some ws => wa_set m out_id ws | None => m end).

Definition process_instr (i : Instr) (m : WireMap) : build WireMap :=
  match i_op i with
  | Iadd => gen_binary new_adder i m
  | Isub => gen_binary new_subtractor i m
  | Imul => gen_binary (new_multiplier 0) i m
  | Idiv => gen_divmod true i m
  | Imod => gen_divmod false i m
  | Ilt | Ile | Igt | Ige => gen_compare i m
  | Ieq => gen_equality false i m
  | Ineq => gen_equality true i m
  | Band => gen_bitwise OAnd i m
  | Bor => gen_bitwise OOr i m
  | Bxor => gen_bitwise OXor i m
  | Not => gen_not i m
  | Lshift => gen_shift true i m
  | Rshift => gen_shift false i m
  | Mov | Phi => gen_mov i m
  | _ => mret m
  end.

Fixpoint process_instrs (instrs : list Instr) (m : WireMap) : build WireMap :=
  match instrs with [] => mret m | i :: instrs => m ← process_instr i m; process_instrs instrs m end.

(** ** The whole program *)

(** Wires for the arguments, in order ([calloc.wires] per argument). *)
Fixpoint arg_wires (start : Z) (io : list IOArg) : list Z :=
  match io with
  | [] => []
  | a :: io =>
      let n := Z.to_nat (io_bits a) in
      (Z.of_nat <$> seq (Z.to_nat start) n) ++ arg_wires (start + Z.of_nat n) io
  end.

(** The allocator with its input wires, then output wires marked as outputs. *)
Definition io_allocator (ins outs : list Z) : list Wire :=
  replicate (length ins) Wire_new ++ replicate (length outs) (set_output Wire_new true).

(** Input values get the input wires, by position. *)
Fixpoint assign_inputs (wire_offset : Z) (io : list IOArg) (ids : list Z) (m : WireMap) : WireMap :=
  match io with
  | [] => m
  | a :: io =>
      let wire_end := wrap_u64 (wire_offset + as_usize (io_bits a)) in
      let ws := Z.of_nat <$> seq (Z.to_nat wire_offset) (Z.to_nat (wire_end - wire_offset)) in
      match ids with
      | id :: ids => assign_inputs wire_end io ids (wa_set m id ws)
      | [] => m
      end
  end.

(** [id] gates from the wires of a returned value to the remaining outputs. *)
Fixpoint connect (ws outs : list Z) : build (list Z) :=
  match ws, outs with
  | w :: ws, o :: outs => _ ← id_gate w o; connect ws outs
  | _, _ => mret outs
  end.
Fixpoint connect_returns (m : WireMap) (rets outs : list Z) : build unit :=
  match rets with
  | [] => mret ()
  | r :: rets =>
      outs ← (match m !! r with Some ws => connect ws outs | None => mret outs end);
      connect_returns m rets outs
  end.

Definition program_instrs (p : Program) : list Instr := p_blocks p ≫= instructions.

(** The compiler state [generate] starts from. *)
Definition start_compiler (p : Program) : result Compiler :=
  let ins := arg_wires 0 (p_inputs p) in
  let outs := arg_wires (Z.of_nat (length ins)) (p_outputs p) in
  Compiler_new (io_allocator ins outs) (p_inputs p) (p_outputs p) ins outs.

(** The gates of the program, up to the output connections. *)
Definition generate_gates (p : Program) : build unit :=
  m ← process_instrs (program_instrs p) (assign_inputs 0 (p_inputs p) (input_values p) ∅);
  c ← get;
  connect_returns m (return_values p) (output_wires c).

Definition generate (p : Program) : result Circuit :=
  c ← start_compiler p;
  '(circ, _) ← (_ ← generate_gates p; _ ← const_propagate; _ ← prune; compile_circuit) c;
  Ok circ.
