(* ===== verification/QclGenCorrect.v ===== *)
(** * Correctness of circuit generation

    A value-level semantics of SSA instructions, and the proof that the gates
    [process_instr] adds compute it: for every assignment that satisfies the gates
    the wires of a value carry the number the semantics gives.  The semantics is
    the meaning of the language's operators; instructions whose generation does not
    implement that meaning have none: division, the orderings other than [<],
    shifts, the logical connectives, jumps.  The passes after generation are
    examined at the end: compiled as they are, the gates compute the program;
    after [prune] they do not. *)

From S2P Require Import Prelude.
From S2P Require Import Bytes.
From S2P Require Import QclTypes.
From S2P Require Import Circuit.
From S2P Require Import CircuitBuild.
From S2P Require Import CircuitLogic.
From S2P Require Import CircuitArith.
From S2P Require Import CircuitMul.
From S2P Require Import CircuitCompile.
From S2P Require Import QclMpa.
From S2P Require Import QclSsa.
From S2P Require Import QclCircuitGen.

(** ** Semantics *)

(** A value: its width and its number. *)
Abbreviation Word := (nat * Z)%type (only parsing).
Abbreviation Words := (gmap Z (nat * Z)) (only parsing).

(** Two-operand instructions on operands of widths [wa] and [wb], for a declared
    result width [w]; [None] where generation is not defined or not correct. *)
Definition word_value (o : Opcode) (w : nat) (a b : Word) : option Word :=
  let '(wa, x) := a in
  let '(wb, y) := b in
  let n := Nat.max wa wb in
  let mw := Nat.min n w in
  match o with
  | Iadd => if (n <=? w)%nat then Some (w, (x + y) mod 2 ^ Z.of_nat w) else None
  | Isub => if (w <=? S n)%nat then Some (w, (x - y) mod 2 ^ Z.of_nat w) else None
  | Imul => if (0 <? mw)%nat && ((1 <? mw)%nat || (w <=? 2)%nat) then Some (w, (x * y) mod 2 ^ Z.of_nat w) else None
  | Ilt => Some (1%nat, Z.b2z (x <? y))
  | Ieq => Some (1%nat, Z.b2z (x =? y))
  | Ineq => Some (1%nat, Z.b2z (negb (x =? y)))
  | Band => Some (n, Z.land x y)
  | Bor => Some (n, Z.lor x y)
  | Bxor => Some (n, Z.lxor x y)
  | _ => None
  end.

Definition exec_binary (i : Instr) (s : Words) : option Words :=
  out ← i_out i;
  match operands i with
  | OpValue a :: OpValue b :: _ =>
      va ← s !! a;
      vb ← s !! b;
      r ← word_value (i_op i) (Z.to_nat (bits (i_type i))) va vb;
      Some (<[out := r]> s)
  | _ => None
  end.

(** The same for one operand. *)
Definition exec_unary (i : Instr) (s : Words) (f : Word -> Word) : option Words :=
  out ← i_out i;
  match operands i with OpValue a :: _ => v ← s !! a; Some (<[out := f v]> s) | _ => None end.

Definition exec_instr (i : Instr) (s : Words) : option Words :=
  match i_op i with
  | Not => exec_unary i s (fun v => (v.1, 2 ^ Z.of_nat v.1 - 1 - v.2))
  | Mov => exec_unary i s (fun v => v)
  | Ret | Nop => Some s
  | _ => exec_binary i s
  end.

Fixpoint exec_instrs (instrs : list Instr) (s : Words) : option Words :=
  match instrs with [] => Some s | i :: instrs => s ← exec_instr i s; exec_instrs instrs s end.

(** ** Operations on words *)

(** [ws] are [n] driven wires that carry [f env] in every satisfying assignment. *)
Definition carries (c : Compiler) (ws : list Z) (n : nat) (f : (Z -> bool) -> Z) : Prop :=
  length ws = n /\ Forall (fun w => w ∈ known c) ws /\ forall env, sat env c -> bits_val env ws = f env.

(** What a word operation promises its caller: on operands of suitable widths it
    drives the result wires to its value. *)
Class WordOp (op : list Z -> list Z -> list Z -> build (list Z)) (o : Opcode) := word_op c x y z w r :
  cc_ok c -> Forall (fun w => w ∈ known c) x -> Forall (fun w => w ∈ known c) y -> outs c z ->
  word_value o (length z) (length x, 0) (length y, 0) = Some (w, r) ->
  builds (drives z c) c (op x y z) (fun z' c' => carries c' z' (length z) (fun env =>
    default 0 (snd <$> word_value o (length z) (length x, bits_val env x) (length y, bits_val env y)))).

#[export] Instance adder_word : WordOp new_adder Iadd.
Proof.
  intros c x y z w r Hc Hx Hy Ho. cbn [word_value]. destruct (Nat.leb_spec (Nat.max (length x) (length y)) (length z)); [|done].
  intros _. eapply builds_post; [apply builds_adder; [done..|by apply outs_slots]|].
  intros z' c' Hc' X (L & K & V & _). split_and!; [done|done|]. intros env Hs. cbn. rewrite (V env Hs). by rewrite L.
Qed.

#[export] Instance subtractor_word : WordOp new_subtractor Isub.
Proof.
  intros c x y z w r Hc Hx Hy Ho. cbn [word_value]. destruct (Nat.leb_spec (length z) (S (Nat.max (length x) (length y)))); [|done].
  intros _. eapply builds_post; [apply builds_subtractor; [done..|by apply outs_slots]|].
  intros z' c' Hc' X (L & K & V & _). split_and!; [done|done|]. intros env Hs. cbn. rewrite (V env Hs), L. by rewrite Nat.min_l by lia.
Qed.

#[export] Instance multiplier_word threshold : WordOp (new_multiplier threshold) Imul.
Proof.
  intros c x y z w r Hc Hx Hy Ho. cbn [word_value]. fold (mul_width x y z).
  destruct ((0 <? mul_width x y z)%nat && ((1 <? mul_width x y z)%nat || (length z <=? 2)%nat)) eqn:E; [|done]. intros _.
  apply andb_prop in E as [E1 E2]. apply Nat.ltb_lt in E1. apply orb_prop in E2.
  eapply builds_post; [apply builds_multiplier; [done..|]|].
  { intros Hw. destruct E2 as [E2|E2]; [apply Nat.ltb_lt in E2; lia|by apply Nat.leb_le in E2]. }
  intros z' c' Hc' X (L & K & V). split_and!; [done|done|]. intros env Hs. cbn. by rewrite (V env Hs), L.
Qed.

(** ** Instructions with a result of their own *)

(** The operand wires of a two-operand instruction. *)
Definition two_operands (i : Instr) (m : WireMap) (out : Z) (aw bw : list Z) : Prop :=
  i_out i = Some out /\ exists a b rest, operands i = OpValue a :: OpValue b :: rest /\ m !! a = Some aw /\ m !! b = Some bw.

(** The postcondition of a generator: one more value, whose wires carry [f]. *)
Definition adds_value (m : WireMap) (out : Z) (n : nat) (f : (Z -> bool) -> Z) (m' : WireMap) (c : Compiler) : Prop :=
  exists ws, m' = <[out := ws]> m /\ carries c ws n f.

Lemma builds_eq {A} P c (m1 m2 : build A) Q : m1 c = m2 c -> builds P c m2 Q -> builds P c m1 Q.
Proof. intros E (a & c' & H). exists a, c'. by rewrite E. Qed.

Lemma builds_gen_binary op o `{!WordOp op o} i m c out aw bw w r : cc_ok c -> two_operands i m out aw bw ->
  Forall (fun w => w ∈ known c) aw -> Forall (fun w => w ∈ known c) bw ->
  word_value o (Z.to_nat (bits (i_type i))) (length aw, 0) (length bw, 0) = Some (w, r) ->
  builds (drives [] c) c (gen_binary op i m) (adds_value m out (Z.to_nat (bits (i_type i))) (fun env =>
    default 0 (snd <$> word_value o (Z.to_nat (bits (i_type i))) (length aw, bits_val env aw) (length bw, bits_val env bw)))).
Proof.
  intros Hc (Eo & a & b & rest & Ei & Ea & Eb) Ha Hb Hv. set (n := Z.to_nat (bits (i_type i))) in *.
  eapply (builds_eq _ _ _ (ws ← fresh n; ws' ← op aw bw ws; mret (wa_set (wa_set m out ws) out ws'))).
  { unfold gen_binary, get_two_value_operands, wa_alloc, alloc_wires. rewrite Eo, Ei. cbn [lookup list_lookup].
    unfold required at 1, mbind, build_bind, mret, build_ret. rewrite Ea, Eb. cbn. fold n.
    by destruct (fresh n c) as [[ws c1]| |]. }
  apply step_fresh; [done|up|]. intros ws c1 Hc1 X1 HP1 Lw HPw Hpres.
  assert (outs c1 ws) as Hws.
  { rewrite <- (app_nil_r ws). apply Hpres. split; constructor. }
  eapply (step_call _ c1 ws); [done|done|done|eapply (word_op c1 aw bw ws); [done|up|up|done|by rewrite Lw]|].
  intros ws' c2 Hc2 X2 _ HC _. apply builds_ret; [done|]. exists ws'. rewrite <- Lw. split; [|done].
  unfold wa_set. by rewrite insert_insert_eq.
Qed.

(** The top bit of an [n + 1]-bit difference of [n]-bit numbers is the borrow. *)
Lemma borrow_bit (n : nat) lo (t : bool) x y : 0 <= x < 2 ^ Z.of_nat n -> 0 <= y < 2 ^ Z.of_nat n -> 0 <= lo < 2 ^ Z.of_nat n ->
  lo + 2 ^ Z.of_nat n * Z.b2z t = (x - y) mod 2 ^ Z.of_nat (S n) -> t = (x <? y).
Proof.
  intros Hx Hy Hl. rewrite Nat2Z.inj_succ, Z.pow_succ_r by lia. set (p := 2 ^ Z.of_nat n) in *. intros E.
  destruct (Z.ltb_spec x y).
  - rewrite <- (Z.mod_add _ 1), Z.mod_small in E by lia. destruct t; [done|]. cbn in E. lia.
  - rewrite Z.mod_small in E by lia. destruct t; [|done]. cbn in E. lia.
Qed.

Lemma widen env ws n : (length ws <= n)%nat -> 0 <= bits_val env ws < 2 ^ Z.of_nat n.
Proof.
  intros Hl. pose proof (wires_val_range env ws). pose proof (Z.pow_le_mono_r 2 (Z.of_nat (length ws)) (Z.of_nat n)). lia.
Qed.

Lemma last_wire (ws : list Z) n : length ws = S n -> exists lo d, ws = lo ++ [d] /\ length lo = n.
Proof.
  intros Hl. destruct (exists_last (l := ws)) as (lo & d & ->); [by intros ->|]. exists lo, d. split; [done|].
  rewrite length_app in Hl. cbn in Hl. lia.
Qed.

(** The instruction's operands, looked up. *)
Ltac operands_of H := destruct H as (Eo & a & b & rest & Ei & Ea & Eb).
Ltac generator_prefix Eo Ei Ea Eb :=
  unfold get_two_value_operands; rewrite Eo, Ei; cbn [lookup list_lookup];
  unfold required at 1, mbind, build_bind, mret, build_ret; rewrite Ea, ?Eb; cbn.

Lemma builds_gen_compare i m c out aw bw : cc_ok c -> two_operands i m out aw bw ->
  Forall (fun w => w ∈ known c) aw -> Forall (fun w => w ∈ known c) bw ->
  builds (drives [] c) c (gen_compare i m) (adds_value m out 1 (fun env => Z.b2z (bits_val env aw <? bits_val env bw))).
Proof.
  intros Hc Hi Ha Hb. operands_of Hi. set (n := Nat.max (length aw) (length bw)).
  eapply (builds_eq _ _ _ (diff ← fresh (n + 1); diff ← new_subtractor aw bw diff; o ← wire;
    d ← lift (index diff (Z.of_nat n)); _ ← id_gate d o; mret (wa_set m out [o]))).
  { unfold gen_compare. generator_prefix Eo Ei Ea Eb. done. }
  eapply step_fresh_op; [done|up|intros ws c' Hc' X Lw Hws; apply builds_subtractor; [done|up|up|by apply outs_slots]|].
  intros ws diff c1 Hc1 X1 HP1 Lw (L1 & K1 & V1 & _) _. rewrite Lw, Nat.add_1_r in L1. cbv beta.
  destruct (last_wire diff n L1) as (lo & d & -> & Llo). apply Forall_app in K1 as [_ Kd%Forall_inv].
  apply step_wire; [done|done|]. intros o c2 Hc2 X2 HP2 Po Uo _.
  eapply (builds_eq _ _ _ (_ ← id_gate d o; mret (wa_set m out [o]))).
  { unfold mbind at 1, build_bind, lift. rewrite (index_nat _ n d); [done|].
    by rewrite lookup_app_r, Llo, Nat.sub_diag by lia. }
  eapply (step_call _ c2 [o]); [done|done|by intros x ->%list_elem_of_singleton|apply builds_id; [done|up|done]|].
  intros [] c3 Hc3 X3 _ [K3 V3] _. apply builds_ret; [done|]. exists [o]. split; [done|].
  split_and!; [done|by constructor|].
  intros env Hs. rewrite bits_val_cons, (V3 env Hs). change (bits_val env []) with 0.
  pose proof (V1 env ltac:(up)) as E. rewrite wires_val_app, length_app, Llo, bits_val_cons in E.
  change (bits_val env []) with 0 in E. cbn [length] in E.
  rewrite Nat.min_l in E by (fold n; lia). replace (n + 1)%nat with (S n) in E by lia.
  rewrite <- (borrow_bit n (bits_val env lo) (env d) (bits_val env aw) (bits_val env bw));
    [lia|apply widen; lia|apply widen; lia|apply widen; lia|lia].
Qed.

(** ** Bit-by-bit instructions *)

Lemma head_tail env zw v : env zw = false -> bits_val env v = Z.b2z (env (head_or zw v)) + 2 * bits_val env (tail v).
Proof. intros Hz. destruct v as [|w v]; [cbn; by rewrite Hz|done]. Qed.
Lemma head_known c zw v : zw ∈ known c -> Forall (fun w => w ∈ known c) v ->
  head_or zw v ∈ known c /\ Forall (fun w => w ∈ known c) (tail v).
Proof. intros Hz Hv. destruct Hv; by split. Qed.
Lemma length_tail {A} (v : list A) n : (length v <= S n)%nat -> (length (tail v) <= n)%nat.
Proof. destruct v; cbn; lia. Qed.

Lemma no_bits env (v : list Z) : (length v <= 0)%nat -> bits_val env v = 0.
Proof. destruct v; [done|cbn; lia]. Qed.

Lemma eqb_cons (p q : bool) u v : (Z.b2z p + 2 * u =? Z.b2z q + 2 * v) = Bool.eqb p q && (u =? v).
Proof.
  apply eq_true_iff_eq. rewrite andb_true_iff, !Z.eqb_eq, Bool.eqb_true_iff.
  destruct p, q; cbn [Z.b2z]; intuition (congruence || lia).
Qed.

Lemma builds_xor_loop n zw a b acc c : cc_ok c -> is_const false zw c -> acc ∈ known c ->
  Forall (fun w => w ∈ known c) a -> Forall (fun w => w ∈ known c) b -> (length a <= n)%nat -> (length b <= n)%nat ->
  builds (drives [] c) c (xor_loop n zw a b acc) (fun w c' => w ∈ known c' /\
    forall env, sat env c' -> env w = env acc || negb (bits_val env a =? bits_val env b)).
Proof.
  revert a b acc c. induction n as [|n IH]; intros a b acc c Hc Hz Hacc Ha Hb La Lb.
  { apply builds_ret; [done|]. split; [done|]. intros env Hs. rewrite !no_bits by lia. cbn. by rewrite orb_false_r. }
  destruct (head_known c zw a (proj1 Hz) Ha) as [Ka Kta]. destruct (head_known c zw b (proj1 Hz) Hb) as [Kb Ktb].
  cbn [xor_loop]. apply step_new_gate; [done|up|done|done|]. intros x c1 Hc1 X1 HP1 K1 V1 _.
  apply step_new_gate; [done|up|up|up|]. intros w c2 Hc2 X2 HP2 K2 V2 _.
  assert (is_const false zw c2) as Hz2.
  { destruct Hz as [Kz Vz]. split; [up|]. intros env Hs. apply Vz. up. }
  eapply builds_weaken; [apply (IH (tail a) (tail b) w c2); [done|done|done|up|up|by apply length_tail|by apply length_tail]| |].
  { intros o [Ho|Ho]; [by left|right]. by do 2 (eapply fresh_mono; [done|]). }
  intros r c3 Hc3 X3 [K3 V3]. split; [done|]. intros env Hs.
  assert (env zw = false) as Ez by (apply Hz; up).
  rewrite (V3 env Hs), (V2 env), (V1 env) by up. rewrite (head_tail env zw a), (head_tail env zw b), eqb_cons by done.
  cbn [apply_op]. by destruct (env acc), (env (head_or zw a)), (env (head_or zw b)), (bits_val env (tail a) =? _).
Qed.

(** A bitwise function on numbers and its gate. *)
Definition bitwise_fun (o : Operation) (f : Z -> Z -> Z) : Prop :=
  forall x y n, 0 <= n -> Z.testbit (f x y) n = apply_op o (Z.testbit x n) (Z.testbit y n).

Lemma land_fun : bitwise_fun OAnd Z.land.
Proof. intros x y n _. apply Z.land_spec. Qed.
Lemma lor_fun : bitwise_fun OOr Z.lor.
Proof. intros x y n _. apply Z.lor_spec. Qed.
Lemma lxor_fun : bitwise_fun OXor Z.lxor.
Proof. intros x y n _. apply Z.lxor_spec. Qed.

Lemma bitwise_cons o f p q u v : bitwise_fun o f ->
  f (Z.b2z p + 2 * u) (Z.b2z q + 2 * v) = Z.b2z (apply_op o p q) + 2 * f u v.
Proof.
  intros Hf. apply Z.bits_inj'. intros n Hn. rewrite Hf by done. rewrite !(Z.add_comm (Z.b2z _)).
  destruct (decide (n = 0)) as [->|]; [by rewrite !Z.testbit_0_r|].
  replace n with (Z.succ (Z.pred n)) by lia. rewrite !Z.testbit_succ_r by lia. symmetry. apply Hf. lia.
Qed.

Lemma builds_bitwise_loop o f n zw a b c : bitwise_fun o f -> f 0 0 = 0 -> cc_ok c -> is_const false zw c ->
  Forall (fun w => w ∈ known c) a -> Forall (fun w => w ∈ known c) b -> (length a <= n)%nat -> (length b <= n)%nat ->
  builds (drives [] c) c (bitwise_loop o n zw a b) (fun ws c' => carries c' ws n (fun env => f (bits_val env a) (bits_val env b))).
Proof.
  intros Hf H0. revert a b c. induction n as [|n IH]; intros a b c Hc Hz Ha Hb La Lb.
  { apply builds_ret; [done|]. split_and!; [done|done|]. intros env Hs. by rewrite (no_bits env a), (no_bits env b), H0 by lia. }
  destruct (head_known c zw a (proj1 Hz) Ha) as [Ka Kta]. destruct (head_known c zw b (proj1 Hz) Hb) as [Kb Ktb].
  cbn [bitwise_loop]. apply step_new_gate; [done|up|done|done|]. intros w c1 Hc1 X1 HP1 K1 V1 _.
  assert (is_const false zw c1) as Hz1.
  { destruct Hz as [Kz Vz]. split; [up|]. intros env Hs. apply Vz. up. }
  eapply (step_call _ c1 []); [done|done|by intros ? ?%elem_of_nil|
    apply (IH (tail a) (tail b) c1); [done|done|up|up|by apply length_tail|by apply length_tail]|].
  intros ws c2 Hc2 X2 _ (L & K & V) _. apply builds_ret; [done|]. split_and!; [cbn; lia|constructor; [up|done]|].
  intros env Hs. assert (env zw = false) as Ez by (apply Hz; up).
  rewrite bits_val_cons, (V env Hs), (V1 env), (head_tail env zw a), (head_tail env zw b), (bitwise_cons o f) by (done || up).
  done.
Qed.

(** Instructions that start with the zero wire. *)
Lemma step_zero {B} c (k : Z -> build B) R : cc_ok c ->
  (forall zw c', cc_ok c' -> extends (drives [] c) c c' -> is_const false zw c' -> builds (drives [] c) c' (k zw) R) ->
  builds (drives [] c) c (zero_wire ≫= k) R.
Proof.
  intros Hc Hk. apply (step_call _ c []) with (Q := is_const false); [done|up|by intros ? ?%elem_of_nil|by apply builds_zero; [|up]|].
  intros zw c1 Hc1 X1 _ Hz _. by apply Hk.
Qed.

Lemma builds_gen_equality negate i m c out aw bw : cc_ok c -> two_operands i m out aw bw ->
  Forall (fun w => w ∈ known c) aw -> Forall (fun w => w ∈ known c) bw ->
  builds (drives [] c) c (gen_equality negate i m) (adds_value m out 1 (fun env =>
    Z.b2z (xorb negate (bits_val env aw =? bits_val env bw)))).
Proof.
  intros Hc Hi Ha Hb. operands_of Hi.
  eapply (builds_eq _ _ _ (zw ← zero_wire; x ← xor_loop (Nat.max (length aw) (length bw)) zw aw bw zw; o ← wire;
    _ ← (if negate then id_gate x o else inv x o); mret (wa_set m out [o]))).
  { unfold gen_equality. by generator_prefix Eo Ei Ea Eb. }
  apply step_zero; [done|]. intros zw c1 Hc1 X1 Hz.
  eapply (step_call _ c1 []); [done|up|by intros ? ?%elem_of_nil|apply builds_xor_loop; [done|done|apply Hz|up|up|lia|lia]|].
  intros x c2 Hc2 X2 HP2 [K2 V2] _. apply step_wire; [done|up|]. intros o c3 Hc3 X3 HP3 Po Uo _.
  eapply (step_call _ c3 [o]) with (Q := fun _ c' => o ∈ known c' /\ forall env, sat env c' -> env o = xorb (negb negate) (env x));
    [done|done|by intros y ->%list_elem_of_singleton| |].
  { destruct negate; (eapply builds_post; [apply builds_id || apply builds_inv; [done|up|done]|]);
      intros [] c4 Hc4 X4 [K4 V4]; (split; [done|]); intros env Hs; rewrite (V4 env Hs); by destruct (env x). }
  intros [] c4 Hc4 X4 _ [K4 V4] _. apply builds_ret; [done|]. exists [o]. split; [done|]. split_and!; [done|by constructor|].
  intros env Hs. rewrite bits_val_cons, (V4 env Hs), (V2 env), (proj2 Hz env) by up.
  change (bits_val env []) with 0. by destruct negate, (bits_val env aw =? bits_val env bw).
Qed.

Lemma builds_gen_bitwise o f i m c out aw bw : bitwise_fun o f -> f 0 0 = 0 -> cc_ok c -> two_operands i m out aw bw ->
  Forall (fun w => w ∈ known c) aw -> Forall (fun w => w ∈ known c) bw ->
  builds (drives [] c) c (gen_bitwise o i m) (adds_value m out (Nat.max (length aw) (length bw)) (fun env =>
    f (bits_val env aw) (bits_val env bw))).
Proof.
  intros Hf H0 Hc Hi Ha Hb. operands_of Hi.
  eapply (builds_eq _ _ _ (zw ← zero_wire; ws ← bitwise_loop o (Nat.max (length aw) (length bw)) zw aw bw;
    mret (wa_set m out ws))).
  { unfold gen_bitwise. by generator_prefix Eo Ei Ea Eb. }
  apply step_zero; [done|]. intros zw c1 Hc1 X1 Hz.
  eapply (step_call _ c1 []); [done|up|by intros ? ?%elem_of_nil|apply (builds_bitwise_loop o f); [done|done|done|done|up|up|lia|lia]|].
  intros ws c2 Hc2 X2 _ HC _. apply builds_ret; [done|]. by exists ws.
Qed.

Lemma builds_gen_not i m c out a rest aw : cc_ok c -> i_out i = Some out -> operands i = OpValue a :: rest ->
  m !! a = Some aw -> Forall (fun w => w ∈ known c) aw ->
  builds (drives [] c) c (gen_not i m) (adds_value m out (length aw) (fun env =>
    2 ^ Z.of_nat (length aw) - 1 - bits_val env aw)).
Proof.
  intros Hc Eo Ei Ea Ha. eapply (builds_eq _ _ _ (ws ← invert_all aw; mret (wa_set m out ws))).
  { unfold gen_not, get_one_value_operand. rewrite Eo, Ei. cbn [lookup list_lookup].
    unfold required at 1, mbind, build_bind, mret, build_ret. by rewrite Ea. }
  eapply (step_call _ c []); [done|up|by intros ? ?%elem_of_nil|by apply builds_invert_all|].
  intros ws c1 Hc1 X1 _ HC _. apply builds_ret; [done|]. by exists ws.
Qed.

(** ** Instruction sequences *)

(** The words a wire map carries under an assignment. *)
Definition words (env : Z -> bool) (m : WireMap) : Words := (fun ws => (length ws, bits_val env ws)) <$> m.
Definition map_ok (m : WireMap) (c : Compiler) : Prop := map_Forall (fun _ ws => Forall (fun w => w ∈ known c) ws) m.

(** [g] turns [m] into a map whose words are those of [f]. *)
Definition computes (c : Compiler) (g : build WireMap) (m : WireMap) (f : Words -> option Words) (s' : Words) : Prop :=
  builds (drives [] c) c g (fun m' c' => map_ok m' c' /\ fst <$> s' = length <$> m' /\
    forall env, sat env c' -> f (words env m) = Some (words env m')).

Lemma map_ok_mono P m c c' : extends P c c' -> map_ok m c -> map_ok m c'.
Proof. intros X H k ws Hk. eapply known_mono_all; [done|]. by eapply H. Qed.

Lemma words_insert env m out ws : words env (<[out := ws]> m) = <[out := (length ws, bits_val env ws)]> (words env m).
Proof. unfold words. by rewrite fmap_insert. Qed.

Lemma shape_lookup (s : Words) (m : WireMap) a w x : fst <$> s = length <$> m -> s !! a = Some (w, x) ->
  exists ws, m !! a = Some ws /\ length ws = w.
Proof.
  intros Hsh Ha. pose proof (f_equal (lookup a) Hsh) as E. rewrite !lookup_fmap, Ha in E. cbn in E.
  destruct (m !! a) as [ws|]; [|done]. injection E as ->. eauto.
Qed.
Lemma shape_lookup_none (s : Words) (m : WireMap) a : fst <$> s = length <$> m -> s !! a = None -> m !! a = None.
Proof. intros Hsh Ha. pose proof (f_equal (lookup a) Hsh) as E. rewrite !lookup_fmap, Ha in E. by destruct (m !! a). Qed.

Lemma words_lookup env m a ws : m !! a = Some ws -> words env m !! a = Some (length ws, bits_val env ws).
Proof. intros H. unfold words. by rewrite lookup_fmap, H. Qed.

(** Whether and how wide a result is depends on the widths only. *)
Lemma word_value_shape o w wa wb x y x' y' r : word_value o w (wa, x) (wb, y) = Some r ->
  exists v, word_value o w (wa, x') (wb, y') = Some (r.1, v).
Proof.
  unfold word_value. destruct o; intros H; repeat case_match; simplify_eq; cbn [fst]; eauto.
Qed.

Lemma computes_value c g m f (s : Words) out w v h : cc_ok c -> map_ok m c -> fst <$> s = length <$> m ->
  builds (drives [] c) c g (adds_value m out w h) ->
  (forall env, f (words env m) = Some (<[out := (w, h env)]> (words env m))) ->
  computes c g m f (<[out := (w, v)]> s).
Proof.
  intros Hc Hm Hsh Hg Hf. unfold computes. eapply builds_post; [exact Hg|]. intros m' c' Hc' X (ws & -> & L & K & V).
  split_and!.
  - apply map_Forall_insert_2; [done|]. by eapply map_ok_mono.
  - by rewrite !fmap_insert, Hsh, L.
  - intros env Hs. by rewrite Hf, words_insert, L, (V env Hs).
Qed.

Lemma computes_binary c g i m (s s' : Words) : cc_ok c -> map_ok m c -> fst <$> s = length <$> m ->
  exec_binary i s = Some s' ->
  (forall out aw bw w r, two_operands i m out aw bw -> Forall (fun w => w ∈ known c) aw -> Forall (fun w => w ∈ known c) bw ->
     word_value (i_op i) (Z.to_nat (bits (i_type i))) (length aw, 0) (length bw, 0) = Some (w, r) ->
     builds (drives [] c) c g (adds_value m out w (fun env => default 0 (snd <$> word_value (i_op i)
       (Z.to_nat (bits (i_type i))) (length aw, bits_val env aw) (length bw, bits_val env bw))))) ->
  computes c g m (exec_binary i) s'.
Proof.
  intros Hc Hm Hsh He Hg. unfold exec_binary in He. destruct (i_out i) as [out|] eqn:Eo; [|done]. cbn [mbind option_bind] in He.
  destruct (operands i) as [|[a| | | |] [|[b| | | |] rest]] eqn:Ei; try done.
  destruct (s !! a) as [[wa x]|] eqn:Ea; [|done]. destruct (s !! b) as [[wb y]|] eqn:Eb; [|done]. cbn [mbind option_bind] in He.
  destruct (word_value _ _ _ _) as [[w v]|] eqn:Ev; [|done]. injection He as <-.
  destruct (shape_lookup s m a wa x Hsh Ea) as (aw & Ma & <-). destruct (shape_lookup s m b wb y Hsh Eb) as (bw & Mb & <-).
  destruct (word_value_shape _ _ _ _ x y 0 0 _ Ev) as (v0 & Ev0).
  eapply computes_value; [done|done|done|apply (Hg out aw bw w v0); [|by eapply Hm|by eapply Hm|exact Ev0]|].
  - split; [done|]. by exists a, b, rest.
  - intros env. unfold exec_binary. rewrite Eo, Ei, (words_lookup env m a aw), (words_lookup env m b bw) by done. cbn [mbind option_bind].
    destruct (word_value_shape _ _ _ _ x y (bits_val env aw) (bits_val env bw) _ Ev) as (v1 & ->). done.
Qed.

Lemma adds_value_is c g m out n n' h h' : n = n' -> (forall env, h env = h' env) ->
  builds (drives [] c) c g (adds_value m out n h) -> builds (drives [] c) c g (adds_value m out n' h').
Proof.
  intros <- Hh Hg. eapply builds_post; [exact Hg|]. intros m' c' _ _ (ws & -> & L & K & V). exists ws. split; [done|].
  split_and!; [done|done|]. intros env Hs. by rewrite <- Hh, (V env Hs).
Qed.

Lemma computes_skip c m (s : Words) : cc_ok c -> map_ok m c -> fst <$> s = length <$> m -> computes c (mret m) m Some s.
Proof. intros. apply builds_ret; [done|]. by split_and!. Qed.

Lemma exec_unary_inv i f s s' : exec_unary i s f = Some s' -> exists out a rest v,
  i_out i = Some out /\ operands i = OpValue a :: rest /\ s !! a = Some v /\ s' = <[out := f v]> s.
Proof.
  unfold exec_unary. destruct (i_out i) as [out|]; [|done]. destruct (operands i) as [|[a| | | |] rest]; try done.
  cbn [mbind option_bind]. destruct (s !! a) as [v|] eqn:Ea; [|done]. intros [= <-]. by exists out, a, rest, v.
Qed.

Lemma computes_not c i m (s s' : Words) : cc_ok c -> map_ok m c -> fst <$> s = length <$> m ->
  exec_unary i s (fun v => (v.1, 2 ^ Z.of_nat v.1 - 1 - v.2)) = Some s' ->
  computes c (gen_not i m) m (fun s => exec_unary i s (fun v => (v.1, 2 ^ Z.of_nat v.1 - 1 - v.2))) s'.
Proof.
  intros Hc Hm Hsh (out & a & rest & [w x] & Eo & Ei & Ea & ->)%exec_unary_inv.
  destruct (shape_lookup s m a w x Hsh Ea) as (aw & Ma & <-).
  eapply computes_value; [done|done|done|by eapply builds_gen_not; [done..|by eapply Hm]|].
  intros env. unfold exec_unary. rewrite Eo, Ei. cbn [mbind option_bind]. by rewrite (words_lookup env m a aw).
Qed.

Lemma computes_mov c i m (s s' : Words) : cc_ok c -> map_ok m c -> fst <$> s = length <$> m ->
  exec_unary i s (fun v => v) = Some s' -> computes c (gen_mov i m) m (fun s => exec_unary i s (fun v => v)) s'.
Proof.
  intros Hc Hm Hsh (out & a & rest & [w x] & Eo & Ei & Ea & ->)%exec_unary_inv.
  destruct (shape_lookup s m a w x Hsh Ea) as (ws & Ma & <-).
  eapply (builds_eq _ _ _ (mret (match m !! a with Some ws => wa_set m out ws | None => m end))).
  { unfold gen_mov, get_one_value_operand. by rewrite Eo, Ei. }
  rewrite Ma. apply builds_ret; [done|]. unfold wa_set. split_and!.
  - apply map_Forall_insert_2; [by eapply Hm|done].
  - by rewrite !fmap_insert, Hsh.
  - intros env _. unfold exec_unary. rewrite Eo, Ei. cbn [mbind option_bind]. by rewrite (words_lookup env m a ws), words_insert.
Qed.

(** The generators of the two-operand instructions. *)
Lemma builds_word i m c out aw bw w r : cc_ok c -> two_operands i m out aw bw ->
  Forall (fun w => w ∈ known c) aw -> Forall (fun w => w ∈ known c) bw ->
  word_value (i_op i) (Z.to_nat (bits (i_type i))) (length aw, 0) (length bw, 0) = Some (w, r) ->
  builds (drives [] c) c (process_instr i m) (adds_value m out w (fun env => default 0 (snd <$> word_value (i_op i)
    (Z.to_nat (bits (i_type i))) (length aw, bits_val env aw) (length bw, bits_val env bw)))).
Proof.
  intros Hc Hi Ha Hb Hv. unfold process_instr.
  assert (forall o, o = i_op i -> Z.to_nat (bits (i_type i)) = w -> forall op, WordOp op o ->
    builds (drives [] c) c (gen_binary op i m) (adds_value m out w (fun env => default 0 (snd <$> word_value o
      (Z.to_nat (bits (i_type i))) (length aw, bits_val env aw) (length bw, bits_val env bw))))) as Hbin.
  { intros o -> Hw op Hop. eapply (adds_value_is _ _ _ _ (Z.to_nat (bits (i_type i)))); [done|by intros env|].
    by eapply builds_gen_binary. }
  destruct (i_op i); cbn [word_value] in Hv; try done; repeat case_match; simplify_eq.
  all: try (by apply (Hbin _ eq_refl eq_refl); apply _).
  1: (eapply adds_value_is; [| |by apply (builds_gen_compare i m c out aw bw)]; done).
  1: (eapply adds_value_is; [| |by apply (builds_gen_equality false i m c out aw bw)]; done).
  1: (eapply adds_value_is; [| |by apply (builds_gen_equality true i m c out aw bw)]; done).
  1: (eapply adds_value_is; [| |by apply (builds_gen_bitwise OAnd Z.land i m c out aw bw); [apply land_fun|..]]; done).
  1: (eapply adds_value_is; [| |by apply (builds_gen_bitwise OOr Z.lor i m c out aw bw); [apply lor_fun|..]]; done).
  1: (eapply adds_value_is; [| |by apply (builds_gen_bitwise OXor Z.lxor i m c out aw bw); [apply lxor_fun|..]]; done).
Qed.

(** One instruction: whenever the semantics has a result on words of the map's
    widths, generation succeeds and its gates compute that result. *)
Lemma computes_instr c i m (s s' : Words) : cc_ok c -> map_ok m c -> fst <$> s = length <$> m ->
  exec_instr i s = Some s' -> computes c (process_instr i m) m (exec_instr i) s'.
Proof.
  intros Hc Hm Hsh He. pose proof (fun out aw bw w r => builds_word i m c out aw bw w r Hc) as Hw.
  pose proof (computes_not c i m s s' Hc Hm Hsh) as Hnot. pose proof (computes_mov c i m s s' Hc Hm Hsh) as Hmov.
  unfold exec_instr, process_instr in *.
  destruct (i_op i) eqn:Eop; try done; try (injection He as <-; by apply computes_skip); try (by auto);
    (eapply computes_binary; [done..|]; by rewrite Eop).
Qed.

Lemma computes_instrs instrs c m (s s' : Words) : cc_ok c -> map_ok m c -> fst <$> s = length <$> m ->
  exec_instrs instrs s = Some s' -> computes c (process_instrs instrs m) m (exec_instrs instrs) s'.
Proof.
  revert c m s. induction instrs as [|i instrs IH]; intros c m s Hc Hm Hsh He.
  { injection He as <-. by apply computes_skip. }
  cbn [exec_instrs process_instrs] in *. destruct (exec_instr i s) as [s1|] eqn:E1; [|done]. cbn [mbind option_bind] in He.
  eapply (step_call _ c []); [done|up|by intros ? ?%elem_of_nil|by apply (computes_instr c i m s s1)|].
  intros m1 c1 Hc1 X1 HP1 (Hm1 & Hsh1 & V1) _.
  eapply builds_weaken; [by apply (IH c1 m1 s1)| |].
  { intros o [Ho|Ho]; [by left|right; by eapply fresh_mono]. }
  intros m2 c2 Hc2 X2 (Hm2 & Hsh2 & V2). split_and!; [done|done|]. intros env Hs.
  rewrite (V1 env) by up. by apply V2.
Qed.

(** ** Whole programs *)

(** The input values, with the argument numbers reduced to their widths. *)
Fixpoint input_words (io : list IOArg) (ids ins : list Z) (s : Words) : Words :=
  match io, ids, ins with
  | a :: io, id :: ids, v :: ins =>
      input_words io ids ins (<[id := (arg_width a, v mod 2 ^ Z.of_nat (arg_width a))]> s)
  | _, _, _ => s
  end.

(** The bits of the returned values, lowest first, in order. *)
Definition returned_bits (s : Words) (rets : list Z) : list bool :=
  rets ≫= fun r => match s !! r with Some (w, v) => to_bits v w | None => [] end.

(** What a program computes; [None] when its returned values are narrower than
    its outputs. *)
Definition exec_program (p : Program) (ins : list Z) : option (list Z) :=
  s ← exec_instrs (program_instrs p) (input_words (p_inputs p) (input_values p) ins ∅);
  let bs := returned_bits s (return_values p) in
  if (io_width (p_outputs p) <=? length bs)%nat
  then Some (output_vals (p_outputs p) (take (io_width (p_outputs p)) bs)) else None.

(** Programs with at least one input wire, flat arguments and sizes in range. *)
Record program_ok (p : Program) : Prop := {
  po_inputs : Forall (fun a => 0 <= io_bits a /\ io_compound a = []) (p_inputs p);
  po_outputs : Forall (fun a => 0 <= io_bits a) (p_outputs p);
  po_some : (0 < io_width (p_inputs p))%nat;
  po_small : Z.of_nat (io_width (p_inputs p)) < 2 ^ 31 /\ Z.of_nat (io_width (p_outputs p)) < 2 ^ 31;
  po_ids : length (input_values p) = length (p_inputs p);
}.

(** *** Inputs *)

Definition wire_range (k n : nat) : list Z := Z.of_nat <$> seq k n.

Lemma wire_range_app k n m : wire_range k (n + m) = wire_range k n ++ wire_range (k + n) m.
Proof. unfold wire_range. by rewrite seq_app, fmap_app. Qed.
Lemma length_wire_range k n : length (wire_range k n) = n.
Proof. unfold wire_range. by rewrite length_fmap, length_seq. Qed.
Lemma elem_wire_range k n w : w ∈ wire_range k n <-> Z.of_nat k <= w < Z.of_nat (k + n).
Proof.
  unfold wire_range. rewrite list_elem_of_fmap. split.
  - intros (x & -> & Hx%elem_of_seq). lia.
  - intros Hw. exists (Z.to_nat w). rewrite elem_of_seq. lia.
Qed.
Lemma NoDup_wire_range k n : NoDup (wire_range k n).
Proof. apply NoDup_fmap_2; [apply _|apply NoDup_seq]. Qed.

Lemma arg_wires_range io k : arg_wires (Z.of_nat k) io = wire_range k (io_width io).
Proof.
  revert k. induction io as [|a io IH]; intros k; [done|]. cbn [arg_wires]. rewrite io_width_cons, wire_range_app.
  rewrite Nat2Z.id, <- Nat2Z.inj_add, IH. done.
Qed.

Lemma bits_of_word env ws v w : env <$> ws = to_bits v w -> bits_val env ws = v mod 2 ^ Z.of_nat w.
Proof. intros E. by rewrite bits_val_bools, E, bools_to_bits. Qed.

Lemma assign_inputs_cons a io id ids m k : 0 <= io_bits a -> Z.of_nat (k + arg_width a) < 2 ^ 64 ->
  assign_inputs (Z.of_nat k) (a :: io) (id :: ids) m
  = assign_inputs (Z.of_nat (k + arg_width a)) io ids (wa_set m id (wire_range k (arg_width a))).
Proof.
  intros Ha Hk. cbn [assign_inputs].
  assert (wrap_u64 (Z.of_nat k + as_usize (io_bits a)) = Z.of_nat (k + arg_width a)) as ->.
  { unfold as_usize, wrap_u64, arg_width in *. rewrite (Z.mod_small (io_bits a)), Z.mod_small by lia. lia. }
  by replace (Z.to_nat (Z.of_nat (k + arg_width a) - Z.of_nat k)) with (arg_width a) by lia; rewrite Nat2Z.id.
Qed.

Lemma assign_inputs_words env io ids ins m k : Forall (fun a => 0 <= io_bits a) io -> length ids = length io ->
  length ins = length io -> Z.of_nat (k + io_width io) < 2 ^ 64 -> env <$> wire_range k (io_width io) = input_bits io ins ->
  words env (assign_inputs (Z.of_nat k) io ids m) = input_words io ids ins (words env m).
Proof.
  intros Hb. revert ids ins m k. induction Hb as [|a io Ha Hb IH]; intros [|id ids] [|v ins] m k Hid Hin Hk He; try done.
  injection Hid as Hid. injection Hin as Hin. rewrite io_width_cons in *. cbn [input_words].
  rewrite assign_inputs_cons by (done || lia).
  rewrite wire_range_app, fmap_app in He. unfold input_bits in He. cbn [zip_with mjoin list_join] in He.
  apply app_inj_1 in He as [He1 He2]; [|by rewrite length_fmap, length_wire_range, length_to_bits].
  rewrite (IH ids ins _ (k + arg_width a)%nat) by (done || lia). f_equal. unfold wa_set.
  by rewrite words_insert, length_wire_range, (bits_of_word _ _ _ _ He1).
Qed.

(** The wires of the input values are input wires. *)
Lemma assign_inputs_ok (Q : Z -> Prop) io ids m k : Forall (fun a => 0 <= io_bits a) io -> Z.of_nat (k + io_width io) < 2 ^ 64 ->
  map_Forall (fun _ ws => Forall Q ws) m -> (forall w, Z.of_nat k <= w < Z.of_nat (k + io_width io) -> Q w) ->
  map_Forall (fun _ ws => Forall Q ws) (assign_inputs (Z.of_nat k) io ids m).
Proof.
  intros Hb. revert ids m k. induction Hb as [|a io Ha Hb IH]; intros [|id ids] m k Hk Hm HQ; try done.
  rewrite io_width_cons in *.
  rewrite assign_inputs_cons by (done || lia).
  apply IH; [lia| |intros w Hw; apply HQ; lia]. apply map_Forall_insert_2; [|done].
  apply Forall_forall. intros w Hw%elem_wire_range. apply HQ. lia.
Qed.

(** *** Outputs *)

Lemma builds_connect ws os c : cc_ok c -> Forall (fun w => w ∈ known c) ws -> outs c os ->
  builds (drives os c) c (connect ws os) (fun rest c' => rest = drop (length ws) os /\ outs c' rest /\
    Forall (fun w => w ∈ known c') (take (length ws) os) /\
    forall env, sat env c' -> env <$> take (length ws) os = env <$> take (length os) ws).
Proof.
  revert os c. induction ws as [|w ws IH]; intros os c Hc Hw Ho.
  { apply builds_ret; [done|]. cbn [length drop take]. split_and!; [done|done|done|]. intros env _. by rewrite take_nil. }
  destruct os as [|o os]; [by apply builds_ret|]. apply Forall_cons in Hw as [Hw Hws]. apply outs_cons in Ho as (Uo & Ho & Hos).
  cbn [connect length drop take]. eapply (step_call _ c [o]); [done|up|by intros x ->%list_elem_of_singleton; left; apply list_elem_of_here|
    by apply builds_id|].
  intros [] c1 Hc1 X1 HP1 [K1 V1] S1. eapply builds_weaken; [apply (IH os c1); [done|up|]| |].
  - apply (outs_spares c c1 [o]); [done| |done]. intros x Hx ->%list_elem_of_singleton. done.
  - intros x [Hx|Hx]; [left; by apply list_elem_of_further|right; by eapply fresh_mono].
  - intros rest c2 Hc2 X2 (-> & Hr & K & V). split_and!; [done|done|constructor; [up|done]|].
    intros env Hs. cbn. f_equal; [apply V1; up|by apply V].
Qed.

(** The wires of the returned values, in order. *)
Definition returned_wires (m : WireMap) (rets : list Z) : list Z := rets ≫= fun r => default [] (m !! r).

Lemma builds_returns m rets os c : cc_ok c -> map_ok m c -> outs c os ->
  builds (drives os c) c (connect_returns m rets os) (fun _ c' =>
    let ws := returned_wires m rets in (length os <= length ws)%nat ->
    Forall (fun w => w ∈ known c') os /\ forall env, sat env c' -> env <$> os = env <$> take (length os) ws).
Proof.
  revert os c. induction rets as [|r rets IH]; intros os c Hc Hm Ho.
  { apply builds_ret; [done|]. cbn. intros Hl. by destruct os; [|cbn in Hl; lia]. }
  cbn [connect_returns]. unfold returned_wires. cbn [mbind list_bind]. fold (returned_wires m rets).
  eapply (step_call _ c os) with (Q := fun rest c' => let ws := default [] (m !! r) in
    rest = drop (length ws) os /\ outs c' rest /\ Forall (fun w => w ∈ known c') (take (length ws) os) /\
    forall env, sat env c' -> env <$> take (length ws) os = env <$> take (length os) ws); [done|up|by left| |].
  { destruct (m !! r) as [ws|] eqn:Er; [apply builds_connect; [done|by eapply Hm|done]|].
    apply builds_ret; [done|]. cbn. split_and!; [done|done|done|]. intros env _. by rewrite take_nil. }
  set (ws := default [] (m !! r)). intros rest c1 Hc1 X1 HP1 (-> & Hr & K1 & V1) _.
  eapply builds_weaken; [apply (IH (drop (length ws) os) c1); [done|by eapply map_ok_mono|done]| |].
  { intros x [Hx|Hx]; [left; rewrite <- (take_drop (length ws) os); apply elem_of_app; by right|right; by eapply fresh_mono]. }
  intros [] c2 Hc2 X2 HR. cbn zeta in *. rewrite length_app, length_drop in *. intros Hl.
  destruct HR as [K2 V2]; [lia|]. rewrite <- (take_drop (length ws) os) at 1. split.
  - apply Forall_app. split; [up|done].
  - intros env Hs. rewrite <- (take_drop (length ws) os) at 1. rewrite fmap_app, (V1 env), (V2 env) by up.
    by rewrite take_app, fmap_app.
Qed.

(** *** The theorem *)

Lemma start_ok p : program_ok p -> exists c, start_compiler p = Ok c /\ cc_ok c /\
  input_wires c = wire_range 0 (io_width (p_inputs p)) /\
  output_wires c = wire_range (io_width (p_inputs p)) (io_width (p_outputs p)) /\
  cc_inputs c = p_inputs p /\ cc_outputs c = p_outputs p /\ outs c (output_wires c).
Proof.
  intros [Hi Ho Hs [Hsm _] _]. unfold start_compiler. rewrite (arg_wires_range _ 0), length_wire_range, arg_wires_range.
  set (n := io_width (p_inputs p)) in *. set (k := io_width (p_outputs p)).
  unfold Compiler_new. destruct (wire_range 0 n) as [|w0 ws] eqn:E.
  { apply (f_equal length) in E. rewrite length_wire_range in E. cbn in E. lia. }
  rewrite <- E. eexists. split; [done|]. cbn [input_wires output_wires cc_inputs cc_outputs].
  assert (forall i o g w z x y, let c := mkCompiler (io_allocator (wire_range 0 n) (wire_range n k)) false i o (wire_range 0 n) g [] 0 x y z in
    in_range c w <-> 0 <= w < Z.of_nat (n + k)) as Hr.
  { intros. unfold c, in_range, io_allocator. cbn [wires]. rewrite length_app, !length_replicate, !length_wire_range. lia. }
  split_and!; [|done|done|done|done|].
  - split; [by rewrite E|cbn|done|done| |done|done|done].
    + rewrite app_nil_r. apply Forall_forall. intros w Hw%elem_wire_range. apply Hr. lia.
    + split; [|done]. cbn. unfold io_allocator. apply Forall_app. split; by apply Forall_replicate.
  - split; [apply NoDup_wire_range|]. apply Forall_forall. intros w Hw%elem_wire_range. split; [apply Hr; lia|].
    unfold known. cbn. rewrite app_nil_r, elem_wire_range. lia.
Qed.

Lemma to_bits_val bs : to_bits (bools_val bs) (length bs) = bs.
Proof.
  induction bs as [|b bs IH]; [done|]. cbn [length]. rewrite to_bits_S, bools_val_cons.
  rewrite Z.add_comm, Z.testbit_0_r. f_equal. rewrite Z.shiftr_div_pow2 by lia. change (2 ^ 1) with 2.
  rewrite <- (Z.div_unique _ 2 (bools_val bs) (Z.b2z b)); [done|destruct b; cbn; lia|lia].
Qed.

Lemma returned_bits_words env m rets : returned_bits (words env m) rets = env <$> returned_wires m rets.
Proof.
  unfold returned_bits, returned_wires. induction rets as [|r rets IH]; [done|]. cbn [mbind list_bind]. rewrite fmap_app, <- IH.
  f_equal. unfold words. rewrite lookup_fmap. destruct (m !! r) as [ws|]; [|done]. cbn.
  by rewrite bits_val_bools, <- (length_fmap env ws), to_bits_val.
Qed.

Lemma returned_length (s : Words) m rets : fst <$> s = length <$> m ->
  length (returned_wires m rets) = length (returned_bits s rets).
Proof.
  intros Hsh. unfold returned_bits, returned_wires. induction rets as [|r rets IH]; [done|]. cbn [mbind list_bind].
  rewrite !length_app. f_equal; [|exact IH]. destruct (s !! r) as [[w v]|] eqn:E.
  - destruct (shape_lookup s m r w v Hsh E) as (ws & -> & <-). by rewrite length_to_bits.
  - by rewrite (shape_lookup_none s m r Hsh E).
Qed.

Lemma flat_args io : Forall (fun a => 0 <= io_bits a /\ io_compound a = []) io -> flatten_args io = io.
Proof.
  unfold flatten_args. induction 1 as [|a io [_ Ha] Hio IH]; [done|]. cbn. rewrite Ha. cbn. by f_equal.
Qed.

(** The gates of a program: every assignment that puts arguments on the input
    wires puts the program's results on the output wires. *)
Definition gates_compute (p : Program) (c : Compiler) : Prop :=
  Forall (fun w => w ∈ g_o <$> cc_gates c) (output_wires c) /\
  forall env ins, length ins = length (p_inputs p) -> sat env c -> env <$> input_wires c = input_bits (p_inputs p) ins ->
    exec_program p ins = Some (output_vals (p_outputs p) (env <$> output_wires c)).

Section program.
Context (p : Program) (Hp : program_ok p).

Lemma input_map_words env ins : length ins = length (p_inputs p) ->
  env <$> wire_range 0 (io_width (p_inputs p)) = input_bits (p_inputs p) ins ->
  words env (assign_inputs 0 (p_inputs p) (input_values p) ∅) = input_words (p_inputs p) (input_values p) ins ∅.
Proof.
  intros Hl He. destruct Hp as [Hi _ _ [Hs _] Hid].
  rewrite (assign_inputs_words env _ _ ins _ 0); [by unfold words; rewrite fmap_empty| |done|done|lia|done].
  eapply Forall_impl; [done|]. by intros a [? _].
Qed.

Lemma input_map_shape ins : length ins = length (p_inputs p) ->
  fst <$> input_words (p_inputs p) (input_values p) ins ∅ = length <$> assign_inputs 0 (p_inputs p) (input_values p) ∅.
Proof.
  intros Hl. destruct (NoDup_assign (wire_range 0 (io_width (p_inputs p))) (input_bits (p_inputs p) ins)) as [env He].
  { apply NoDup_wire_range. } { by rewrite length_wire_range, length_input_bits. }
  rewrite <- (input_map_words env ins Hl He). unfold words. rewrite <- map_fmap_compose. done.
Qed.

Lemma input_map_ok c : input_wires c = wire_range 0 (io_width (p_inputs p)) ->
  map_ok (assign_inputs 0 (p_inputs p) (input_values p) ∅) c.
Proof.
  intros Ei. destruct Hp as [Hi _ _ [Hs _] _]. apply (assign_inputs_ok (fun w => w ∈ known c) _ _ _ 0).
  - eapply Forall_impl; [done|]. by intros a [? _].
  - lia.
  - apply map_Forall_empty.
  - intros w Hw. unfold known. rewrite Ei. apply elem_of_app. left. by apply elem_wire_range.
Qed.

Lemma generate_gates_ok ins0 r0 : length ins0 = length (p_inputs p) -> exec_program p ins0 = Some r0 ->
  exists c c1, start_compiler p = Ok c /\ generate_gates p c = Ok ((), c1) /\ cc_ok c1 /\
    extends (drives (output_wires c) c) c c1 /\ gates_compute p c1.
Proof.
  intros Hl0 Hx. destruct (start_ok p Hp) as (c & Ec & Hc & Ei & Eo & Eci & Eco & Hos). unfold exec_program in Hx.
  destruct (exec_instrs _ _) as [s1|] eqn:Es; [|done]. cbn [mbind option_bind] in Hx.
  destruct (Nat.leb_spec (io_width (p_outputs p)) (length (returned_bits s1 (return_values p)))) as [Hw|]; [|done]. clear Hx.
  assert (builds (drives (output_wires c) c) c (generate_gates p) (fun _ c1 => gates_compute p c1)) as (u & c1 & E1 & H1 & X1 & Q1).
  2: { destruct u. by exists c, c1. }
  unfold generate_gates. eapply (step_call _ c []); [done|up|by intros ? ?%elem_of_nil| |].
  { eapply (computes_instrs _ c _ _ s1); [done|by apply input_map_ok|by apply (input_map_shape ins0)|done]. }
  intros m c1 Hc1 X1 HP1 (Hm & Hsh & V1) S1.
  assert (outs c1 (output_wires c)) as Hos1 by (eapply outs_spares; [done|by intros ? _ ?%elem_of_nil|done]).
  assert (output_wires c1 = output_wires c /\ input_wires c1 = input_wires c) as [Eo1 Ei1] by (by destruct X1 as [_ _ (? & ? & _)]).
  eapply builds_bind; [by apply builds_get|]. intros ? ? _ _ [-> ->]. rewrite Eo1.
  eapply builds_weaken; [by apply (builds_returns m (return_values p) (output_wires c) c1)| |].
  { intros o [Ho|Ho]; [by left|right; by eapply fresh_mono]. }
  intros [] c2 Hc2 X2 HR. cbn zeta in HR.
  assert (output_wires c2 = output_wires c /\ input_wires c2 = input_wires c) as [Eo2 Ei2].
  { destruct X2 as [_ _ (-> & -> & _)]. done. }
  pose proof (returned_length s1 m (return_values p) Hsh) as Hlen.
  destruct HR as [Kout Vout]. { rewrite Eo, length_wire_range, Hlen. done. }
  split.
  - rewrite Eo2. apply Forall_forall. intros w Hw'. rewrite Forall_forall in Kout. pose proof (Kout w Hw') as Hk.
    unfold known in Hk. rewrite Ei2, Ei, elem_of_app in Hk. destruct Hk as [Hk|Hk]; [|done].
    apply elem_wire_range in Hk. rewrite Eo in Hw'. apply elem_wire_range in Hw'. lia.
  - intros env ins Hl Hs He. unfold exec_program. rewrite Ei2, Ei in He. rewrite <- (input_map_words env ins Hl He), (V1 env) by up.
    cbn [mbind option_bind]. rewrite returned_bits_words, Eo2, (Vout env Hs).
    rewrite length_fmap, Hlen, (proj2 (Nat.leb_le _ _) Hw), fmap_take. by rewrite Eo, length_wire_range.
Qed.
End program.

(** The circuit of a program's gates, without the passes. *)
Definition unpruned (p : Program) : result Circuit :=
  c ← start_compiler p;
  '(_, c) ← generate_gates p c;
  '(circ, _) ← compile_circuit c;
  Ok circ.
Definition run_unpruned (p : Program) (ins : list Z) : result (list Z) := circ ← unpruned p; compute circ ins.

(** The wires of the gates can be numbered in 32 bits. *)
Definition gates_fit (p : Program) : bool :=
  match (c ← start_compiler p; generate_gates p c) with
  | Ok (_, c) => Z.of_nat (length (wires c)) <? UNASSIGNED_ID
  | _ => true
  end.

(** The gates of a supported program, compiled as they are, compute the program. *)
Lemma unpruned_spec p ins0 r0 : program_ok p -> gates_fit p = true -> length ins0 = length (p_inputs p) ->
  exec_program p ins0 = Some r0 ->
  exists c1 circ c2, compilable c1 /\ cc_inputs c1 = p_inputs p /\ cc_outputs c1 = p_outputs p /\
    compile_circuit c1 = Ok (circ, c2) /\ unpruned p = Ok circ /\
    forall ins, length ins = length (p_inputs p) -> exists r, exec_program p ins = Some r /\ compute circ ins = Ok r.
Proof.
  intros Hp Hfit Hl0 Hx. destruct (generate_gates_ok p Hp ins0 r0 Hl0 Hx) as (c & c1 & Ec & E1 & Hc1 & X1 & [Hd Hg]).
  assert (fits c1) as Hf.
  { unfold gates_fit in Hfit. rewrite Ec in Hfit. cbn [mbind result_bind] in Hfit. rewrite E1 in Hfit. by apply Z.ltb_lt. }
  destruct (start_ok p Hp) as (c0 & Ec0 & _ & Ei & Eo & Eci & Eco & _). rewrite Ec in Ec0. injection Ec0 as <-.
  destruct X1 as [_ _ (Ei1 & Eo1 & Eci1 & Eco1)]. pose proof (flat_args _ (po_inputs p Hp)) as Hflat.
  assert (compilable c1) as Hcomp.
  { destruct Hp as [Hi Ho Hs [Hs1 Hs2] _].
    split; rewrite ?Ei1, ?Eo1, ?Eci1, ?Eco1, ?Ei, ?Eo, ?Eci, ?Eco, ?Hflat, ?length_wire_range;
      [done|done|apply NoDup_wire_range|apply NoDup_wire_range|by rewrite Eo1, Eo in Hd| |done].
    split_and!; [|done|done]. eapply Forall_impl; [done|]. by intros a [? _]. }
  destruct (compile_computes c1 Hcomp) as (circ & c2 & Ecirc & Hcirc). exists c1, circ, c2.
  split_and!; [done|by rewrite Eci1, Eci|by rewrite Eco1, Eco|done| |].
  { unfold unpruned. rewrite Ec. cbn [mbind result_bind]. rewrite E1. cbn [mbind result_bind]. by rewrite Ecirc. }
  intros ins Hl. rewrite Eci1, Eci, Hflat in Hcirc. destruct (Hcirc ins Hl) as (env & Hs & He & Hcomp2).
  eexists. split; [by apply (Hg env ins)|]. by rewrite Hcomp2, Eco1, Eco.
Qed.

(** ** The passes *)

(** Constant propagation records only values the wires have. *)
Definition values_sound (env : Z -> bool) (ws : list Wire) : Prop :=
  forall i w, ws !! i = Some w ->
    match value w with WZero => env (Z.of_nat i) = false | WOne => env (Z.of_nat i) = true | WUnknown => True end.

Lemma const_value_sound o (a b : bool) av bv v : const_value o av bv = Some v ->
  (av = WZero -> a = false) -> (av = WOne -> a = true) -> (bv = WZero -> b = false) -> (bv = WOne -> b = true) ->
  match v with WZero => apply_op o a b = false | WOne => apply_op o a b = true | WUnknown => True end.
Proof.
  intros H Ha0 Ha1 Hb0 Hb1. destruct o, av, bv; cbn in H; simplify_eq;
    rewrite ?Ha0, ?Ha1, ?Hb0, ?Hb1 by done; cbn; by rewrite ?andb_false_r, ?orb_true_r.
Qed.

Lemma value_set_value w v : value (set_value w v) = v.
Proof.
  unfold value, set_value. cbn [ovnum].
  assert (Z.shiftr (Z.land (Z.lor (Z.land (ovnum w) (not_u32 VALUE_MASK)) (Z.land (Z.shiftl (wire_value_code v) VALUE_SHIFT) VALUE_MASK))
    VALUE_MASK) VALUE_SHIFT = wire_value_code v) as ->; [|by destruct v].
  rewrite Z.land_lor_distr_l, <- !Z.land_assoc. change (Z.land (not_u32 VALUE_MASK) VALUE_MASK) with 0.
  rewrite Z.land_0_r, Z.lor_0_l. by destruct v.
Qed.

Lemma index_inv {A} (v : list A) i x : index v i = Ok x -> 0 <= i /\ v !! Z.to_nat i = Some x.
Proof.
  unfold index. destruct (Z.leb_spec 0 i); [|done]. destruct (i <? Z.of_nat (length v)); [|done]. cbn.
  destruct (v !! Z.to_nat i); [|done]. by intros [= ->].
Qed.

Lemma values_sound_index env ws i w : values_sound env ws -> index ws i = Ok w ->
  (value w = WZero -> env i = false) /\ (value w = WOne -> env i = true).
Proof.
  intros Hv [Hi Hw]%index_inv. specialize (Hv _ _ Hw). rewrite Z2Nat.id in Hv by done. split; intros E; by rewrite E in Hv.
Qed.

Lemma const_gates_sound env gs ws ws' : Forall (gate_holds env) gs -> values_sound env ws ->
  const_propagate_gates ws gs = Ok ws' -> values_sound env ws'.
Proof.
  intros Hg. revert ws. induction Hg as [|g gs Hg Hgs IH]; intros ws Hv E; [by injection E as <-|].
  cbn [const_propagate_gates] in E. unfold mbind, result_bind in E. destruct (index ws (g_a g)) as [a| |] eqn:Ea; [|discriminate E..].
  destruct (index ws (g_b g)) as [b| |] eqn:Eb; [|discriminate E..].
  destruct (values_sound_index _ _ _ _ Hv Ea) as [Ha0 Ha1]. destruct (values_sound_index _ _ _ _ Hv Eb) as [Hb0 Hb1].
  destruct (const_value (g_op g) (value a) (value b)) as [v|] eqn:Ev; [|by eapply IH].
  destruct (index ws (g_o g)) as [o| |] eqn:Eo; [|discriminate E..].
  apply index_inv in Eo as [Ho1 Ho2]. pose proof (lookup_lt_Some _ _ _ Ho2) as Hlt.
  rewrite index_set_ok in E by lia. eapply IH; [|done].
  intros i w Hi. apply list_lookup_insert_Some in Hi as [(<- & <- & _)|[_ Hi]]; [|by apply Hv].
  rewrite value_set_value, Z2Nat.id, Hg by done. eapply const_value_sound; eauto.
Qed.

Lemma ordered_in_range c gs seen : ordered seen gs -> Forall (in_range c) (seen ++ (g_o <$> gs)) ->
  Forall (fun g => in_range c (g_a g) /\ in_range c (g_o g)) gs.
Proof.
  revert seen. induction gs as [|g gs IH]; intros seen Ho Hr; [done|]. destruct Ho as (Ha & _ & _ & Ho).
  rewrite fmap_cons in Hr. constructor.
  - apply Forall_app in Hr as [H1 H2]. apply Forall_cons in H2 as [H2 _]. rewrite Forall_forall in H1. auto.
  - apply (IH _ Ho). by rewrite <- app_assoc.
Qed.

Lemma const_gates_total n gs : Forall (fun g => 0 <= g_a g < n /\ 0 <= g_b g < n /\ 0 <= g_o g < n) gs -> forall ws,
  Z.of_nat (length ws) = n -> exists ws', const_propagate_gates ws gs = Ok ws'.
Proof.
  induction 1 as [|g gs (Ha & Hb & Ho) Hgs IH]; intros ws Hl; [by exists ws|]. cbn [const_propagate_gates]. subst n.
  destruct (lookup_lt_is_Some_2 ws (Z.to_nat (g_a g))) as [a Ea]; [lia|].
  destruct (lookup_lt_is_Some_2 ws (Z.to_nat (g_b g))) as [b Eb]; [lia|].
  destruct (lookup_lt_is_Some_2 ws (Z.to_nat (g_o g))) as [o Eo]; [lia|].
  rewrite (index_Some _ _ _ (proj1 Ha) Ea), (index_Some _ _ _ (proj1 Hb) Eb). cbn [mbind result_bind].
  destruct (const_value _ _ _) as [v|]; [|by apply IH].
  rewrite (index_Some _ _ _ (proj1 Ho) Eo). cbn [mbind result_bind]. rewrite index_set_ok by lia. apply IH. by rewrite length_insert.
Qed.

(** Constant propagation is total and sound: in every assignment that satisfies
    the gates, the wires it marks as constant have that value. *)
Theorem const_propagate_sound c : cc_ok c -> exists c', const_propagate c = Ok ((), c') /\ cc_gates c' = cc_gates c /\
  forall env, sat env c -> values_sound env (wires c) -> values_sound env (wires c').
Proof.
  intros Hc. pose proof (ordered_in_range c _ _ (ok_ordered c Hc) (ok_range c Hc)) as Hr.
  destruct (const_gates_total (Z.of_nat (length (wires c))) (cc_gates c)) with (ws := wires c) as [ws' E]; [|done|].
  { pose proof (ok_gate_b c Hc) as Hb. rewrite Forall_forall in Hr, Hb |- *. intros g Hg.
    destruct (Hr g Hg), (Hb g Hg). done. }
  exists (with_wires c ws'). unfold const_propagate. rewrite E. split_and!; [done|done|]. intros env Hs Hv.
  by eapply const_gates_sound.
Qed.

Definition drives_output (ws : list Wire) (g : BGate) : bool :=
  match index ws (g_o g) with Ok w => is_output w | _ => false end.

(** Pruning relies on registered readers: when no wire has a registered reader,
    which is how the builder leaves them, the gates it keeps are exactly those that
    drive output wires, whatever those gates read. *)
Theorem prune_keeps_outputs c n c' : prune c = Ok (n, c') -> Forall (fun w => num_outputs w = 0) (wires c) ->
  Forall (fun g => dead g = false) (cc_gates c) ->
  cc_gates c' = filter (fun g => drives_output (wires c) g = true) (cc_gates c).
Proof.
  unfold prune. destruct (prune_gates (wires c) (cc_gates c)) as [[gs k]| |] eqn:E; [|discriminate..]. cbn. intros [= _ <-] Hn Hd.
  cbn [cc_gates with_gates]. revert gs k E. induction Hd as [|g gs Hd Hgs IH]; intros live n' E; [by injection E as <- <-|].
  cbn [prune_gates] in E. unfold mbind, result_bind in E. destruct (index (wires c) (g_o g)) as [w| |] eqn:Ew; [|discriminate E..].
  destruct (prune_gates (wires c) gs) as [[l j]| |]; [|discriminate E..]. specialize (IH _ _ eq_refl).
  rewrite Hd in E. pose proof (index_inv _ _ _ Ew) as [_ Hw]. rewrite Forall_lookup in Hn. rewrite (Hn _ _ Hw) in E.
  cbn in E. rewrite orb_false_r in E. rewrite filter_cons, <- IH.
  assert (drives_output (wires c) g = is_output w) as Ho by (unfold drives_output; by rewrite Ew).
  destruct (is_output w); injection E as <- <-; [by rewrite decide_True|by rewrite decide_False by congruence].
Qed.

(** ** Single operations *)

(** [func main(a uintN, b uintM) uintK { return a o b }] *)
Definition binary_program (o : Opcode) (n m k : nat) : Program :=
  mkProgram [IOArg_new (text "a") TUint (Z.of_nat n); IOArg_new (text "b") TUint (Z.of_nat m)] [IOArg_new [] TUint (Z.of_nat k)]
    [mkBlock 0 (text "entry")
       [mkInstr o (Some 2) [OpValue 0; OpValue 1] (scalar TUint true (Z.of_nat k) (Z.of_nat k));
        mkInstr Ret None [OpValue 2] Info_default] [] [] false false]
    [] [0; 1] [2].

Definition binary_widths (n m k : nat) : Prop := (0 < n + m)%nat /\ Z.of_nat (n + m) < 2 ^ 31 /\ Z.of_nat k < 2 ^ 31.

Lemma arg_width_new name t n : arg_width (IOArg_new name t (Z.of_nat n)) = n.
Proof. apply Nat2Z.id. Qed.
Lemma io_width_nil : io_width [] = 0%nat.
Proof. done. Qed.

Lemma binary_program_ok o n m k : binary_widths n m k -> program_ok (binary_program o n m k).
Proof.
  intros (H1 & H2 & H3). split; cbn [p_inputs p_outputs input_values binary_program];
    rewrite ?io_width_cons, ?arg_width_new, ?io_width_nil; [repeat constructor; cbn; lia|repeat constructor; cbn; lia|lia|lia|done].
Qed.

Lemma binary_circuit o n m k x y v : binary_widths n m k -> gates_fit (binary_program o n m k) = true ->
  (forall i s, i_op i = o -> exec_instr i s = exec_binary i s) ->
  word_value o k (n, x mod 2 ^ Z.of_nat n) (m, y mod 2 ^ Z.of_nat m) = Some (k, v mod 2 ^ Z.of_nat k) ->
  run_unpruned (binary_program o n m k) [x; y] = Ok [v mod 2 ^ Z.of_nat k].
Proof.
  intros Hw Hfit Ho Hv.
  assert (exec_program (binary_program o n m k) [x; y] = Some [v mod 2 ^ Z.of_nat k]) as Hx.
  { unfold exec_program. cbn [program_instrs binary_program p_blocks mbind list_bind instructions app p_inputs input_values
      input_words exec_instrs p_outputs return_values]. rewrite Ho by done. unfold exec_binary.
    cbn [i_out operands i_op i_type mbind option_bind]. rewrite lookup_insert_eq, (lookup_insert_ne _ 1 0), lookup_insert_eq by done.
    cbn [mbind option_bind]. rewrite !arg_width_new. cbn [scalar bits]. rewrite Nat2Z.id, Hv.
    cbn [mbind option_bind exec_instr i_op]. unfold returned_bits. cbn [mbind list_bind]. rewrite lookup_insert_eq, app_nil_r.
    rewrite io_width_cons, io_width_nil, arg_width_new, Nat.add_0_r, length_to_bits, Nat.leb_refl. cbn [output_vals].
    rewrite arg_width_new, firstn_all2 by (rewrite length_take, length_to_bits; lia).
    rewrite firstn_all2 by (rewrite length_to_bits; lia). by rewrite bools_to_bits, Z.mod_mod by lia. }
  unfold run_unpruned. destruct (unpruned_spec (binary_program o n m k) [x; y] [v mod 2 ^ Z.of_nat k])
    as (c1 & circ & c2 & _ & _ & _ & _ & -> & H); try done.
  - by apply binary_program_ok.
  - destruct (H [x; y]) as (r & Hr & Hc); [done|]. cbn. congruence.
Qed.



(** The compiler state with the gates of [a + b]. *)
Definition sum_gates : Compiler :=
  match (c ← start_compiler (binary_program Iadd 4 4 4); generate_gates (binary_program Iadd 4 4 4) c) with
  | Ok (_, c) => c
  | _ => mkCompiler [] false [] [] [] [] [] 0 None None None
  end.

Lemma prune_keeps_outputs_witness : exists n c', prune sum_gates = Ok (n, c') /\ length (cc_gates c') = 4%nat /\
  length (cc_gates sum_gates) = 26%nat.
Proof.
  destruct (prune sum_gates) as [[n c']| |] eqn:E; [|exfalso; revert E; vm_compute; discriminate..].
  exists n, c'. split; [reflexivity|]. rewrite (prune_keeps_outputs sum_gates n c' E).
  - split; vm_compute; reflexivity.
  - apply (bool_decide_unpack _). vm_compute. exact I.
  - apply (bool_decide_unpack _). vm_compute. exact I.
Defined.

Lemma const_propagate_sound_witness : exists c c1 c', start_compiler (binary_program Iadd 4 4 4) = Ok c /\
  generate_gates (binary_program Iadd 4 4 4) c = Ok ((), c1) /\ const_propagate c1 = Ok ((), c').
Proof.
  destruct (generate_gates_ok (binary_program Iadd 4 4 4)) with (ins0 := [3; 5]) (r0 := [8]) as (c & c1 & Ec & E1 & Hc1 & _);
    [apply binary_program_ok; unfold binary_widths; lia|reflexivity|vm_compute; reflexivity|].
  destruct (const_propagate_sound c1 Hc1) as (c' & E & _). exists c, c1, c'. split; [exact Ec|]. split; [exact E1|exact E].
Defined.
