(* ===== verification/QclCompiler.v ===== *)
(** * From syntax trees to SSA
    ([src/crates/quil-compiler/src/compiler.rs], [ast.rs])

    The syntax trees of the circuit language and the compiler that turns the body
    of [main] into SSA.  Source locations are dropped; error texts are not
    modelled.  Reading the source text (lexer and parser) is not modelled: the
    functions start from the package the parser builds. *)

From S2P Require Import Prelude Bytes QclTypes Circuit QclMpa QclSsa QclCircuitGen.

(** ** Syntax ([ast.rs]) *)

Inductive BinaryType :=
| BMul | BDiv | BMod | BLshift | BRshift | BBand | BBclear | BAdd | BSub | BBor | BBxor
| BLt | BLe | BGt | BGe | BEq | BNeq | BAnd | BOr.

Inductive UnaryType := UPlus | UMinus | UNot | UXor | UPtr | UAddr | USend.

Inductive ConstValue :=
| CInt (i : Mpa.Int)
| CBool (b : bool)
| CString (s : list byte)
| CNil.

Inductive Expr :=
| EConstant (v : ConstValue) (t : Info)
| EVariableRef (name : list byte) (t : Info)
| EBinary (op : BinaryType) (l r : Expr) (t : Info)
| EUnary (op : UnaryType) (e : Expr) (t : Info)
| ECast (e : Expr) (target : Info)
| ECall (name : list byte) (args : list Expr) (t : Info)
| EIndex (e index : Expr) (t : Info)
| ESlice (e : Expr) (from to : option Expr) (t : Info)
| EDot (e : Expr) (name : list byte) (t : Info)
| ECompositeLit (t : Info) (elements : list Expr)
| EMake (t : Info) (args : list Expr).

Inductive Stmt :=
| SVar (names : list (list byte)) (t : option Info) (init : list Expr)
| SConst (name : list byte) (t : option Info) (init : Expr)
| SAssign (targets values : list Expr)
| SShortDecl (names : list (list byte)) (values : list Expr)
| SExprStmt (e : Expr)
| SIncrement (e : Expr)
| SDecrement (e : Expr)
| SCompoundAssign (op : BinaryType) (target value : Expr)
| SIf (init : option Stmt) (cond : Expr) (body else_body : list Stmt)
| SFor (init : option Stmt) (cond : option Expr) (post : option Stmt) (body : list Stmt)
| SForRange (key value : option (list byte)) (e : Expr) (body : list Stmt)
| SReturn (values : list Expr)
| SBlock (body : list Stmt).

Record FuncDef := mkFuncDef {
  f_name : list byte;
  params : list (list byte * Info);
  returns : list (list byte * Info);
  f_body : list Stmt;
  f_annotations : list (list byte);
}.

(** The functions of a package; [main] is the first with that name. *)
Definition find_main (functions : list FuncDef) : option FuncDef :=
  find (fun f => bool_decide (f_name f = text "main")) functions.

(** ** Expressions *)

Definition binary_type_to_opcode (o : BinaryType) : Opcode :=
  match o with
  | BAdd => Iadd | BSub => Isub | BMul => Imul | BDiv => Idiv | BMod => Imod
  | BLt => Ilt | BLe => Ile | BGt => Igt | BGe => Ige | BEq => Ieq | BNeq => Ineq
  | BAnd => And | BOr => Or | BBand => Band | BBor => Bor | BBxor => Bxor | BBclear => Bclear
  | BLshift => Lshift | BRshift => Rshift
  end.

Definition unary_opcode (o : UnaryType) : Opcode :=
  match o with UMinus => Isub | UNot => Not | UXor => Bxor | _ => Mov end.

Fixpoint gen_expr (e : Expr) (g : Generator) : result (Z * Generator) :=
  match e with
  | EConstant (CInt v) t => new_const g v t
  | EConstant (CBool b) t => new_const g (Mpa.from_i64 (if b then 1 else 0) 1) t
  | EConstant _ t => Ok (new_value g (text "const") t)
  | EVariableRef name _ =>
      match bind_lookup (bindings g) name with Some id => Ok (id, g) | None => Err InvalidArgument end
  | EBinary op l r t =>
      '(lhs, g) ← gen_expr l g;
      '(rhs, g) ← gen_expr r g;
      rt ← (if is_undefined t then v ← get_value g lhs; Ok (v_type v) else Ok t);
      emit_binary g (binary_type_to_opcode op) lhs rhs rt
  | EUnary op e _ =>
      '(val, g) ← gen_expr e g;
      v ← get_value g val;
      match op with
      | UMinus =>
          '(zero, g) ← new_const g (Mpa.from_i64 0 32) (v_type v);
          emit_binary g (unary_opcode op) zero val (v_type v)
      | _ => emit_unary g (unary_opcode op) val (v_type v)
      end
  | ECall name args _ =>
      '(vals, g) ←
        (fix go (es : list Expr) (g : Generator) : result (list Z * Generator) :=
           match es with
           | [] => Ok ([], g)
           | e :: es => '(v, g) ← gen_expr e g; '(vs, g) ← go es g; Ok (v :: vs, g)
           end) args g;
      match vals with
      | first :: _ => Ok (first, g)
      | [] => Ok (new_value g name Info_default)
      end
  | EIndex e index _ =>
      '(base, g) ← gen_expr e g;
      '(_, g) ← gen_expr index g;
      Ok (base, g)
  | ECast _ _ | ESlice _ _ _ _ | EDot _ _ _ | ECompositeLit _ _ | EMake _ _ =>
      Ok (new_value g (text "expr") Info_default)
  end.

Fixpoint gen_exprs (es : list Expr) (g : Generator) : result (list Z * Generator) :=
  match es with
  | [] => Ok ([], g)
  | e :: es => '(v, g) ← gen_expr e g; '(vs, g) ← gen_exprs es g; Ok (v :: vs, g)
  end.

(** ** Statements *)

(** The compiler's state: the generator and the returned values recorded in the
    program. *)
Abbreviation GenState := (Generator * list Z)%type (only parsing).

Definition define (g : Generator) (name : list byte) (id : Z) : Generator :=
  with_bindings g (bind_define (bindings g) name id).

(** [var]: names without an initialiser get a value of the declared type. *)
Fixpoint gen_var (names : list (list byte)) (t : Info) (init : list Expr) (g : Generator) : result Generator :=
  match names with
  | [] => Ok g
  | name :: names =>
      match init with
      | e :: init => '(v, g) ← gen_expr e g; gen_var names t init (define g name v)
      | [] => let '(v, g) := new_value g name t in gen_var names t [] (define g name v)
      end
  end.

Fixpoint gen_short (names : list (list byte)) (vals : list Expr) (g : Generator) : result Generator :=
  match names, vals with
  | name :: names, e :: vals => '(v, g) ← gen_expr e g; gen_short names vals (define g name v)
  | _, _ => Ok g
  end.

Fixpoint gen_assign (targets vals : list Expr) (g : Generator) : result Generator :=
  match targets, vals with
  | t :: targets, e :: vals =>
      '(v, g) ← gen_expr e g;
      gen_assign targets vals (match t with EVariableRef name _ => define g name v | _ => g end)
  | _, _ => Ok g
  end.

(** [x++] and [x--]. *)
Definition gen_step (o : Opcode) (e : Expr) (g : Generator) : result Generator :=
  match e with
  | EVariableRef name _ =>
      match bind_lookup (bindings g) name with
      | Some val =>
          '(one, g) ← new_const g (Mpa.from_i64 1 32) Info_int32;
          '(r, g) ← emit_binary g o val one Info_int32;
          Ok (define g name r)
      | None => Ok g
      end
  | _ => Ok g
  end.

Definition gen_compound (op : BinaryType) (target value : Expr) (g : Generator) : result Generator :=
  match target with
  | EVariableRef name _ =>
      match bind_lookup (bindings g) name with
      | Some lhs =>
          '(rhs, g) ← gen_expr value g;
          '(r, g) ← emit_binary g (binary_type_to_opcode op) lhs rhs Info_int32;
          Ok (define g name r)
      | None => Ok g
      end
  | _ => Ok g
  end.

Fixpoint gen_stmt (s : Stmt) (st : GenState) : result GenState :=
  let '(g, ret) := st in
  let stmts :=
    fix stmts (l : list Stmt) (st : GenState) : result GenState :=
      match l with [] => Ok st | s :: l => st ← gen_stmt s st; stmts l st end in
  match s with
  | SReturn vals =>
      '(vs, g) ← gen_exprs vals g;
      g ← emit_ret g vs;
      Ok (g, vs)
  | SVar names t init => g ← gen_var names (default Info_default t) init g; Ok (g, ret)
  | SShortDecl names vals => g ← gen_short names vals g; Ok (g, ret)
  | SAssign targets vals => g ← gen_assign targets vals g; Ok (g, ret)
  | SExprStmt e => '(_, g) ← gen_expr e g; Ok (g, ret)
  | SIf _ cond body else_body =>
      '(cond_val, g) ← gen_expr cond g;
      let '(then_block, g) := new_block g (text "then") in
      let '(else_block, g) := new_block g (text "else") in
      let '(merge_block, g) := new_block g (text "merge") in
      g ← emit_if g cond_val then_block else_block;
      '(g, ret) ← stmts body (set_current_block g then_block, ret);
      g ← emit_jump g merge_block;
      '(g, ret) ← stmts else_body (set_current_block g else_block, ret);
      g ← emit_jump g merge_block;
      Ok (set_current_block g merge_block, ret)
  | SFor init cond post body =>
      '(g, ret) ← match init with Some i => gen_stmt i (g, ret) | None => Ok (g, ret) end;
      let '(cond_block, g) := new_block g (text "for.cond") in
      let '(body_block, g) := new_block g (text "for.body") in
      let '(post_block, g) := new_block g (text "for.post") in
      let '(exit_block, g) := new_block g (text "for.exit") in
      g ← emit_jump g cond_block;
      let g := set_current_block g cond_block in
      g ← match cond with
          | Some cond => '(v, g) ← gen_expr cond g; emit_if g v body_block exit_block
          | None => emit_jump g body_block
          end;
      '(g, ret) ← stmts body (set_current_block g body_block, ret);
      g ← emit_jump g post_block;
      '(g, ret) ← match post with
                  | Some p => gen_stmt p (set_current_block g post_block, ret)
                  | None => Ok (set_current_block g post_block, ret)
                  end;
      g ← emit_jump g cond_block;
      Ok (set_current_block g exit_block, ret)
  | SIncrement e => g ← gen_step Iadd e g; Ok (g, ret)
  | SDecrement e => g ← gen_step Isub e g; Ok (g, ret)
  | SCompoundAssign op target value => g ← gen_compound op target value g; Ok (g, ret)
  | SConst _ _ _ | SForRange _ _ _ _ | SBlock _ => Ok (g, ret)
  end.

Fixpoint gen_stmts (l : list Stmt) (st : GenState) : result GenState :=
  match l with [] => Ok st | s :: l => st ← gen_stmt s st; gen_stmts l st end.

(** ** The program of [main] *)

(** Parameters: types instantiated by the input sizes, one value each. *)
Fixpoint gen_params (ps : list (list byte * Info)) (sizes : list (list Z)) (g : Generator) :
    result (list IOArg * list Z * Generator) :=
  match ps with
  | [] => Ok ([], [], g)
  | (name, t) :: ps =>
      t ← (match sizes with
           | size :: _ => if negb (concrete t) then instantiate_with_sizes t size else Ok t
           | [] => Ok t
           end);
      let '(id, g) := new_value g name t in
      vs ← alter_at (values g) id set_param;
      '(ios, ids, g) ← gen_params ps (tail sizes) (with_values g vs);
      Ok (IOArg_new name (typ t) (bits t) :: ios, id :: ids, g)
  end.

Fixpoint define_all (names : list (list byte)) (ids : list Z) (g : Generator) : Generator :=
  match names, ids with
  | name :: names, id :: ids => define_all names ids (define g name id)
  | _, _ => g
  end.

Definition build_ssa (functions : list FuncDef) (input_sizes : list (list Z)) : result Program :=
  match find_main functions with
  | None => Err InvalidArgument
  | Some f =>
      '(ios, ids, g) ← gen_params (params f) input_sizes Generator_new;
      let outs := (fun nt : list byte * Info => IOArg_new nt.1 (typ nt.2) (bits nt.2)) <$> returns f in
      '(g, ret) ← gen_stmts (f_body f) (define_all (fst <$> params f) ids g, []);
      Ok (mkProgram ios outs (blocks g) (values g) ids ret)
  end.

(** [Compiler::compile] past the parser; [no_circ_compile] is the parameter that
    stops before the circuit. *)
Definition compile (no_circ_compile : bool) (functions : list FuncDef) (input_sizes : list (list Z)) : result Circuit :=
  p ← build_ssa functions input_sizes;
  if no_circ_compile then Err InvalidArgument else generate p.
