(* ===== verification/QclCompilerCorrect.v ===== *)
(** * The SSA the compiler builds

    Generation never panics and keeps SSA form: every id it hands out is a value
    of the program, every instruction defines a value of its own and reads values
    numbered before it, and every label is a block.  For straight-line code the
    SSA program computes what the syntax tree says.  Branches are not merged:
    assignments of both arms are kept in order, whatever the condition. *)

From S2P Require Import Prelude.
From S2P Require Import Bytes.
From S2P Require Import QclTypes.
From S2P Require Import Circuit.
From S2P Require Import CircuitBuild.
From S2P Require Import CircuitLogic.
From S2P Require Import CircuitArith.
From S2P Require Import CircuitMul.
From S2P Require Import CircuitCompile.
From S2P Require Import QclMpa.
From S2P Require Import QclSsa.
From S2P Require Import QclCircuitGen.
From S2P Require Import QclGenCorrect.
From S2P Require Import QclCompiler.

(** ** Results that do not panic *)

Definition safe {A} (m : result A) (Q : A -> Prop) : Prop :=
  match m with Ok a => Q a | Err _ => True | Panic => False end.

Lemma safe_result_bind {A B} (m : result A) (f : A -> result B) Q : safe m (fun a => safe (f a) Q) -> safe (m ≫= f) Q.
Proof. by destruct m. Qed.
Lemma safe_mono {A} (m : result A) (Q Q' : A -> Prop) : safe m Q -> (forall a, Q a -> Q' a) -> safe m Q'.
Proof. destruct m; cbn; auto. Qed.

(** ** The invariant *)

Definition value_in (g : Generator) (id : Z) : Prop := 0 <= id < Z.of_nat (length (values g)).
Definition block_in (g : Generator) (b : Z) : Prop := 0 <= b < Z.of_nat (length (blocks g)).

Definition operand_in (g : Generator) (o : Operand) : Prop :=
  match o with OpValue id => value_in g id | OpLabel b => block_in g b | _ => True end.
Definition instr_in (g : Generator) (i : Instr) : Prop :=
  Forall (operand_in g) (operands i) /\ match i_out i with Some o => value_in g o | None => True end.

(** The operands of an instruction come before the value it defines. *)
Definition defined_before (i : Instr) : Prop :=
  match i_out i with
  | Some out => Forall (fun o => match o with OpValue id => id < out | _ => True end) (operands i)
  | None => True
  end.

Definition all_instrs (bs : list Block) : list Instr := bs ≫= instructions.
Arguments all_instrs : simpl never.

(** The ids are [u32]; single definition is claimed while they do not wrap. *)
Definition ids_fit (g : Generator) : Prop := Z.of_nat (length (values g)) <= 2 ^ 32.

Record ssa_ok (g : Generator) : Prop := {
  so_next : next_value_id g = wrap_u32 (Z.of_nat (length (values g)));
  so_current : block_in g (current_block g);
  so_bindings : Forall (map_Forall (fun _ id => value_in g id)) (bindings g);
  so_instrs : Forall (instr_in g) (all_instrs (blocks g));
  so_unique : ids_fit g -> NoDup (omap i_out (all_instrs (blocks g))) /\ Forall defined_before (all_instrs (blocks g));
}.

(** [g'] is [g] with more values and blocks. *)
Definition later (g g' : Generator) : Prop :=
  (length (values g) <= length (values g'))%nat /\ (length (blocks g) <= length (blocks g'))%nat.

Lemma later_refl g : later g g.
Proof. split; lia. Qed.
Lemma later_trans g1 g2 g3 : later g1 g2 -> later g2 g3 -> later g1 g3.
Proof. intros [? ?] [? ?]. split; lia. Qed.
Lemma value_in_later g g' id : later g g' -> value_in g id -> value_in g' id.
Proof. intros [? _]. unfold value_in. lia. Qed.
Lemma block_in_later g g' b : later g g' -> block_in g b -> block_in g' b.
Proof. intros [_ ?]. unfold block_in. lia. Qed.
Lemma instr_in_later g g' i : later g g' -> instr_in g i -> instr_in g' i.
Proof.
  intros L [Ho Hout]. split.
  - eapply Forall_impl; [done|]. intros [] H; cbn in *; eauto using value_in_later, block_in_later.
  - destruct (i_out i); [|done]. by eapply value_in_later.
Qed.
Create HintDb ssa.
#[export] Hint Resolve later_refl later_trans value_in_later block_in_later : ssa.

Lemma alter_at_ok {A} (v : list A) i f : 0 <= i < Z.of_nat (length v) -> exists x l r,
  v = l ++ x :: r /\ Z.of_nat (length l) = i /\ alter_at v i f = Ok (l ++ f x :: r).
Proof.
  intros Hi. destruct (lookup_lt_is_Some_2 v (Z.to_nat i)) as [x Hx]; [lia|].
  destruct (list_elem_of_split_length v (Z.to_nat i) x Hx) as (l & r & -> & Hl). exists x, l, r. split_and!; [done|lia|].
  unfold alter_at. rewrite (index_Some _ i x) by (lia || done). cbn. rewrite Hl. by rewrite insert_app_r_alt, Nat.sub_diag by lia.
Qed.

(** ** Generator operations *)

(** What every operation promises: the invariant again, and more of everything. *)
Definition keeps (g g' : Generator) : Prop := ssa_ok g' /\ later g g'.

Lemma ssa_later g g' : ssa_ok g -> later g g' -> blocks g' = blocks g -> bindings g' = bindings g ->
  current_block g' = current_block g -> next_value_id g' = wrap_u32 (Z.of_nat (length (values g'))) -> ssa_ok g'.
Proof.
  intros [H1 H2 H3 H4 H5] L Eb Ebi Ec En. split; rewrite ?Eb, ?Ebi, ?Ec; [done|by eapply block_in_later| | |].
  - eapply Forall_impl; [done|]. intros m Hm k id Hk. eapply value_in_later; [done|]. by eapply Hm.
  - eapply Forall_impl; [done|]. intros i. by apply instr_in_later.
  - intros Hf. apply H5. unfold ids_fit in *. destruct L. lia.
Qed.

Lemma new_value_keeps g name t : ssa_ok g -> let '(id, g') := new_value g name t in
  keeps g g' /\ value_in g' id /\ blocks g' = blocks g /\ current_block g' = current_block g /\ bindings g' = bindings g
  /\ values g' = values g ++ [Value_new id name t] /\ (ids_fit g' -> id = Z.of_nat (length (values g))).
Proof.
  intros Hg. cbn. pose proof (so_next g Hg) as Hn.
  assert (0 <= next_value_id g <= Z.of_nat (length (values g))) as Hr.
  { rewrite Hn. unfold wrap_u32. split; [apply Z.mod_pos_bound; lia|apply Z.mod_le; lia]. }
  split_and!; [split| |done|done|done|done|].
  - eapply ssa_later; [exact Hg| |done|done|done|].
    + split; cbn; rewrite ?length_app; lia.
    + cbn. rewrite length_app. cbn [length]. rewrite Hn. unfold wrap_u32. rewrite Z.add_mod_idemp_l by lia. f_equal. lia.
  - split; cbn; rewrite ?length_app; lia.
  - unfold value_in. cbn. rewrite length_app. cbn. lia.
  - unfold ids_fit. cbn. rewrite length_app. cbn [length]. intros Hf. rewrite Hn. unfold wrap_u32. apply Z.mod_small. lia.
Qed.

Lemma all_instrs_app bs bs' : all_instrs (bs ++ bs') = all_instrs bs ++ all_instrs bs'.
Proof. apply bind_app. Qed.
Lemma all_instrs_cons b bs : all_instrs (b :: bs) = instructions b ++ all_instrs bs.
Proof. done. Qed.

Lemma emit_keeps g i : ssa_ok g -> instr_in g i ->
  (ids_fit g -> defined_before i /\ forall o, i_out i = Some o -> o ∉ omap i_out (all_instrs (blocks g))) ->
  safe (emit g i) (fun g' => keeps g g' /\ values g' = values g /\ bindings g' = bindings g
    /\ current_block g' = current_block g /\ all_instrs (blocks g') ≡ₚ i :: all_instrs (blocks g)).
Proof.
  intros Hg Hi Hnew. unfold emit. destruct (alter_at_ok (blocks g) (current_block g) (fun b => add_instr b i) (so_current g Hg))
    as (x & l & r & Eb & Hl & ->). cbn.
  assert (all_instrs (l ++ add_instr x i :: r) ≡ₚ i :: all_instrs (blocks g)) as Hp.
  { rewrite Eb, !all_instrs_app, !all_instrs_cons. cbn [instructions add_instr]. rewrite <- app_assoc. cbn [app].
    by rewrite <- !Permutation_middle. }
  assert (later g (with_blocks g (l ++ add_instr x i :: r))) as L.
  { split; cbn; [lia|]. rewrite Eb, !length_app. cbn. lia. }
  split_and!; [split; [|done]|done|done|done|done]. destruct Hg as [H1 H2 H3 H4 H5].
  split; cbn; [done|by eapply block_in_later| | |].
  - eapply Forall_impl; [done|]. intros m Hm k id Hk. eapply value_in_later; [done|]. by eapply Hm.
  - rewrite Hp. constructor; [by eapply instr_in_later|]. eapply Forall_impl; [done|]. intros j. by apply instr_in_later.
  - intros Hf. destruct (H5 Hf) as [Hn Hd]. destruct (Hnew Hf) as [Hdi Hfr]. rewrite Hp. cbn. split; [|by constructor].
    destruct (i_out i) as [o|]; [|done]. constructor; [by apply Hfr|done].
Qed.

(** Edits of a block that leave its instructions alone. *)
Lemma alter_block_keeps g b f : ssa_ok g -> block_in g b -> (forall x, instructions (f x) = instructions x) ->
  safe (alter_block g b f) (fun g' => keeps g g' /\ values g' = values g /\ bindings g' = bindings g
    /\ all_instrs (blocks g') = all_instrs (blocks g) /\ current_block g' = current_block g).
Proof.
  intros Hg Hb Hf. unfold alter_block. destruct (alter_at_ok (blocks g) b f Hb) as (x & l & r & Eb & Hl & ->). cbn.
  assert (all_instrs (l ++ f x :: r) = all_instrs (blocks g)) as Hp.
  { by rewrite Eb, !all_instrs_app, !all_instrs_cons, Hf. }
  assert (later g (with_blocks g (l ++ f x :: r))) as L.
  { split; cbn; [lia|]. rewrite Eb, !length_app. cbn. lia. }
  split_and!; [split; [|done]|done|done|done|done]. destruct Hg as [H1 H2 H3 H4 H5].
  split; cbn; rewrite ?Hp; [done|by eapply block_in_later| | |exact H5].
  - eapply Forall_impl; [done|]. intros m Hm k id Hk. eapply value_in_later; [done|]. by eapply Hm.
  - eapply Forall_impl; [done|]. intros j. by apply instr_in_later.
Qed.

Lemma outs_in g o : ssa_ok g -> o ∈ omap i_out (all_instrs (blocks g)) -> value_in g o.
Proof.
  intros Hg (i & Hi & Ho)%list_elem_of_omap. pose proof (so_instrs g Hg) as H. rewrite Forall_forall in H.
  destruct (H i Hi) as [_ Hout]. by rewrite Ho in Hout.
Qed.

(** A new value with its defining instruction. *)
Definition emitted (g : Generator) (t : Info) (mk : Z -> Instr) (r : Z * Generator) : Prop :=
  keeps g r.2 /\ value_in r.2 r.1 /\ bindings r.2 = bindings g /\ current_block r.2 = current_block g
  /\ values r.2 = values g ++ [Value_new r.1 [] t].

Lemma emit_out_keeps g t mk : ssa_ok g -> (forall out, i_out (mk out) = Some out) ->
  (forall out, Forall (fun o => exists id, o = OpValue id /\ value_in g id) (operands (mk out))) ->
  safe (emit_out g t mk) (emitted g t mk).
Proof.
  intros Hg Hmk Hops. unfold emit_out. pose proof (new_value_keeps g [] t Hg) as Hv.
  destruct (new_value g [] t) as [out g1]. destruct Hv as ([Hg1 L1] & Hin & Eb & Ec & Ebi & Ev & Hid).
  apply safe_result_bind. eapply safe_mono; [apply (emit_keeps g1 (mk out) Hg1)|].
  - split; [|by rewrite Hmk]. eapply Forall_impl; [apply Hops|]. intros ? (id & -> & ?). by eapply value_in_later.
  - intros Hf. split.
    + unfold defined_before. rewrite Hmk. eapply Forall_impl; [apply Hops|]. intros ? (id & -> & Hid').
      rewrite (Hid Hf). apply Hid'.
    + intros o. rewrite Hmk. intros [= <-] Hin'. rewrite Eb in Hin'. apply outs_in in Hin'; [|done].
      rewrite (Hid Hf) in Hin'. destruct Hin'. lia.
  - intros g2 ([Hg2 L2] & Ev2 & Ebi2 & Ec2 & _). cbn.
    split_and!; cbn; [split; [done|by eapply later_trans]|by eapply value_in_later|congruence..].
Qed.

Lemma emit_binary_keeps g o a b t : ssa_ok g -> value_in g a -> value_in g b ->
  safe (emit_binary g o a b t) (fun r => keeps g r.2 /\ value_in r.2 r.1 /\ bindings r.2 = bindings g).
Proof.
  intros Hg Ha Hb. eapply safe_mono; [apply emit_out_keeps; [done|done|]|].
  - intros out. cbn. repeat constructor; eauto.
  - intros r (H1 & H2 & H3 & _). done.
Qed.
Lemma emit_unary_keeps g o a t : ssa_ok g -> value_in g a ->
  safe (emit_unary g o a t) (fun r => keeps g r.2 /\ value_in r.2 r.1 /\ bindings r.2 = bindings g).
Proof.
  intros Hg Ha. eapply safe_mono; [apply emit_out_keeps; [done|done|]|].
  - intros out. cbn. repeat constructor; eauto.
  - intros r (H1 & H2 & H3 & _). done.
Qed.

Lemma new_const_keeps g v t : ssa_ok g ->
  safe (new_const g v t) (fun r => keeps g r.2 /\ value_in r.2 r.1 /\ bindings r.2 = bindings g).
Proof.
  intros Hg. unfold new_const. pose proof (new_value_keeps g (display_int (Mpa.int_value v)) t Hg) as Hv.
  destruct (new_value _ _ _) as [id g1]. destruct Hv as ([Hg1 L1] & Hin & Eb & Ec & Ebi & Ev & _).
  destruct (alter_at_ok (values g1) id (fun x => set_const x v) Hin) as (x & l & r & El & _ & ->). cbn.
  assert (length (l ++ set_const x v :: r) = length (values g1)) as Hl by (by rewrite El, !length_app).
  assert (later g1 (with_values g1 (l ++ set_const x v :: r))) as L2 by (split; cbn; lia).
  split_and!; [split| |done].
  - eapply ssa_later; [exact Hg1|done|done|done|done|]. cbn. rewrite Hl. apply Hg1.
  - by eapply later_trans.
  - by eapply value_in_later.
Qed.

Lemma define_keeps g name id : ssa_ok g -> value_in g id -> keeps g (define g name id).
Proof.
  intros [H1 H2 H3 H4 H5] Hid. split; [|by split]. split; cbn; [done|done| |done|done].
  unfold bind_define. destruct (last (bindings g)) as [scope|] eqn:E; [|done].
  apply last_Some in E as [l E]. rewrite E, removelast_last in *. apply Forall_app in H3 as [H3 H3'].
  apply Forall_app. split; [done|]. constructor; [|done]. apply map_Forall_insert_2; [done|]. by apply Forall_inv in H3'.
Qed.

Lemma lookup_in g name id : ssa_ok g -> bind_lookup (bindings g) name = Some id -> value_in g id.
Proof.
  intros Hg. unfold bind_lookup. assert (Forall (map_Forall (fun _ id => value_in g id)) (reverse (bindings g))) as H.
  { apply Forall_reverse, Hg. }
  induction H as [|m ms Hm Hms IH]; [done|]. cbn. destruct (m !! name) eqn:E; [|done]. intros [= <-]. by eapply Hm.
Qed.

(** ** Expressions *)

Definition gen_post (g : Generator) (r : Z * Generator) : Prop :=
  keeps g r.2 /\ value_in r.2 r.1 /\ bindings r.2 = bindings g.

Lemma gen_post_trans g g1 r : later g g1 -> bindings g1 = bindings g -> gen_post g1 r -> gen_post g r.
Proof. intros L Eb ([? ?] & ? & ?). split_and!; [split; [done|by eapply later_trans]|done|congruence]. Qed.

Lemma new_value_post g name t : ssa_ok g -> gen_post g (new_value g name t).
Proof.
  intros Hg. pose proof (new_value_keeps g name t Hg) as H. destruct (new_value g name t) as [id g'].
  destruct H as (? & ? & _ & _ & ? & _). by split_and!.
Qed.

Lemma get_value_safe g id : value_in g id -> exists v, get_value g id = Ok v.
Proof.
  intros Hid. unfold get_value, index. destruct Hid. rewrite (proj2 (Z.leb_le _ _)), (proj2 (Z.ltb_lt _ _)) by lia. cbn.
  destruct (lookup_lt_is_Some_2 (values g) (Z.to_nat id)) as [v ->]; [lia|eauto].
Qed.

(** Run the first generation step of a goal [safe (m ≫= f) _]. *)
Ltac safe_step H :=
  apply safe_result_bind; eapply safe_mono; [apply H|].

Lemma gen_expr_keeps : forall e g, ssa_ok g -> safe (gen_expr e g) (gen_post g).
Proof.
  fix IH 1. intros e g Hg. destruct e as [v t|name t|op l r t|op e t|e t|name args t|e idx t|e f t' t|e n t|t es|t es];
    cbn [gen_expr]; try (by apply new_value_post).
  - destruct v; try (by apply new_const_keeps); by apply new_value_post.
  - destruct (bind_lookup (bindings g) name) as [id|] eqn:E; [|done]. cbn. split_and!; [split; [done|apply later_refl]| |done].
    by eapply lookup_in.
  - safe_step (IH l g Hg). intros [lhs g1] ([Hg1 L1] & Hl & B1). safe_step (IH r g1 Hg1).
    intros [rhs g2] ([Hg2 L2] & Hr & B2). cbn [fst snd] in *. apply safe_result_bind.
    assert (value_in g2 lhs) as Hl2 by by eapply value_in_later.
    assert (exists rt, (if is_undefined t then v ← get_value g2 lhs; Ok (v_type v) else Ok t) = Ok rt) as [rt ->].
    { destruct (is_undefined t); [|eauto]. destruct (get_value_safe g2 lhs Hl2) as [v ->]. cbn. eauto. }
    cbn. eapply safe_mono; [by apply emit_binary_keeps|]. intros x Hx.
    apply (gen_post_trans g g2); [by eapply later_trans|congruence|exact Hx].
  - safe_step (IH e g Hg). intros [val g1] ([Hg1 L1] & Hv & B1). cbn [fst snd] in *.
    destruct (get_value_safe g1 val Hv) as [v ->]. apply safe_result_bind. cbn.
    destruct op; try (eapply safe_mono; [by apply emit_unary_keeps|]; intros x Hx; by eapply gen_post_trans).
    safe_step (new_const_keeps g1 (Mpa.from_i64 0 32) (v_type v) Hg1). intros [z g2] ([Hg2 L2] & Hz & B2). cbn [fst snd] in *.
    eapply safe_mono; [apply emit_binary_keeps; [done|done|by eapply value_in_later]|]. intros x Hx.
    apply (gen_post_trans g g2); [by eapply later_trans|congruence|exact Hx].
  - apply safe_result_bind. eapply (safe_mono _ (fun r => keeps g r.2 /\ Forall (value_in r.2) r.1 /\ bindings r.2 = bindings g)).
    + revert g Hg. induction args as [|a args IHa]; intros g Hg; [split_and!; [split; [done|apply later_refl]|constructor|done]|].
      safe_step (IH a g Hg). intros [v g1] ([Hg1 L1] & Hv & B1). cbn [fst snd] in *.
      safe_step (IHa g1 Hg1). intros [vs g2] ([Hg2 L2] & Hvs & B2). cbn in *.
      split_and!; [split; [done|by eapply later_trans]| |congruence]. constructor; [by eapply value_in_later|done].
    + intros [[|v vs] g1] ([Hg1 L1] & Hv & B1); cbn in *.
      * eapply gen_post_trans; [done|done|by apply new_value_post].
      * apply Forall_cons in Hv as [Hv _]. by split_and!.
  - safe_step (IH e g Hg). intros [b g1] ([Hg1 L1] & Hb & B1). cbn [fst snd] in *.
    safe_step (IH idx g1 Hg1). intros [i g2] ([Hg2 L2] & Hi & B2). cbn in *.
    unfold gen_post. cbn. split_and!; [split; [done|by eapply later_trans]|by eapply value_in_later|congruence].
Qed.

Lemma gen_exprs_keeps es g : ssa_ok g ->
  safe (gen_exprs es g) (fun r => keeps g r.2 /\ Forall (value_in r.2) r.1 /\ bindings r.2 = bindings g).
Proof.
  revert g. induction es as [|e es IH]; intros g Hg; [split_and!; [split; [done|apply later_refl]|constructor|done]|].
  cbn [gen_exprs]. safe_step (gen_expr_keeps e g Hg). intros [v g1] ([Hg1 L1] & Hv & B1). cbn [fst snd] in *.
  safe_step (IH g1 Hg1). intros [vs g2] ([Hg2 L2] & Hvs & B2). cbn in *.
  split_and!; [split; [done|by eapply later_trans]| |congruence]. constructor; [by eapply value_in_later|done].
Qed.

(** ** Statements *)

Lemma keeps_trans g1 g2 g3 : later g1 g2 -> keeps g2 g3 -> keeps g1 g3.
Proof. intros L [H ?]. split; [done|by eapply later_trans]. Qed.
Lemma keeps_refl g : ssa_ok g -> keeps g g.
Proof. split; [done|apply later_refl]. Qed.

Lemma gen_define_keeps (m : result (Z * Generator)) (k : Generator -> result Generator) g name :
  safe m (gen_post g) -> (forall g', ssa_ok g' -> safe (k g') (keeps g')) ->
  safe ('(v, g) ← m; k (define g name v)) (keeps g).
Proof.
  intros Hm Hk. safe_step Hm. intros [v g1] ([Hg1 L1] & Hv & _). cbn [fst snd] in *.
  destruct (define_keeps g1 name v Hg1 Hv) as [Hd Ld]. eapply safe_mono; [by apply Hk|].
  intros g2. apply keeps_trans. by eapply later_trans.
Qed.

Lemma gen_var_keeps names t init g : ssa_ok g -> safe (gen_var names t init g) (keeps g).
Proof.
  revert init g. induction names as [|name names IH]; intros init g Hg; [by apply keeps_refl|]. destruct init as [|e init]; cbn [gen_var].
  - pose proof (new_value_post g name t Hg) as Hv. destruct (new_value g name t) as [v g1].
    apply (gen_define_keeps (Ok (v, g1)) (gen_var names t [])); [done|auto].
  - apply (gen_define_keeps _ (gen_var names t init)); [by apply gen_expr_keeps|auto].
Qed.

Lemma gen_short_keeps names vals g : ssa_ok g -> safe (gen_short names vals g) (keeps g).
Proof.
  revert vals g. induction names as [|name names IH]; intros [|e vals] g Hg; try by apply keeps_refl.
  apply (gen_define_keeps _ (gen_short names vals)); [by apply gen_expr_keeps|auto].
Qed.

Lemma gen_assign_keeps targets vals g : ssa_ok g -> safe (gen_assign targets vals g) (keeps g).
Proof.
  revert vals g. induction targets as [|t targets IH]; intros [|e vals] g Hg; try by apply keeps_refl.
  cbn [gen_assign]. safe_step (gen_expr_keeps e g Hg). intros [v g1] ([Hg1 L1] & Hv & _). cbn [fst snd] in *.
  destruct t; try (eapply safe_mono; [by apply IH|]; intros g2; by apply keeps_trans).
  destruct (define_keeps g1 name v Hg1 Hv) as [Hd Ld]. eapply safe_mono; [by apply IH|].
  intros g2. apply keeps_trans. by eapply later_trans.
Qed.

Lemma gen_step_keeps o e g : ssa_ok g -> safe (gen_step o e g) (keeps g).
Proof.
  intros Hg. destruct e; try by apply keeps_refl. cbn [gen_step].
  destruct (bind_lookup (bindings g) name) as [val|] eqn:E; [|by apply keeps_refl].
  safe_step (new_const_keeps g (Mpa.from_i64 1 32) Info_int32 Hg). intros [one g1] ([Hg1 L1] & Hone & _). cbn [fst snd] in *.
  eapply safe_mono; [apply (gen_define_keeps _ Ok); [apply emit_binary_keeps; [done| |done]|intros; by apply keeps_refl]|].
  - eapply value_in_later; [done|]. by eapply lookup_in.
  - intros g2. by apply keeps_trans.
Qed.

Lemma gen_compound_keeps op t e g : ssa_ok g -> safe (gen_compound op t e g) (keeps g).
Proof.
  intros Hg. destruct t; try by apply keeps_refl. cbn [gen_compound].
  destruct (bind_lookup (bindings g) name) as [lhs|] eqn:E; [|by apply keeps_refl].
  safe_step (gen_expr_keeps e g Hg). intros [rhs g1] ([Hg1 L1] & Hr & _). cbn [fst snd] in *.
  eapply safe_mono; [apply (gen_define_keeps _ Ok); [apply emit_binary_keeps; [done| |done]|intros; by apply keeps_refl]|].
  - eapply value_in_later; [done|]. by eapply lookup_in.
  - intros g2. by apply keeps_trans.
Qed.

(** ** Blocks *)

Lemma new_block_keeps g name : ssa_ok g -> let '(b, g') := new_block g name in
  keeps g g' /\ block_in g' b /\ current_block g' = current_block g.
Proof.
  intros Hg. cbn. assert (later g (with_blocks g (blocks g ++ [Block_new (Z.of_nat (length (blocks g))) name]))) as L.
  { split; cbn; [lia|]. rewrite length_app. lia. }
  split_and!; [split; [|done]| |done].
  - destruct Hg as [H1 H2 H3 H4 H5]. split; cbn; rewrite ?all_instrs_app, ?all_instrs_cons, ?app_nil_r; try done.
    + by eapply block_in_later.
    + eapply Forall_impl; [done|]. intros i. by apply instr_in_later.
  - unfold block_in. cbn. rewrite length_app. cbn. lia.
Qed.

Lemma set_current_keeps g b : ssa_ok g -> block_in g b -> keeps g (set_current_block g b).
Proof. intros [H1 H2 H3 H4 H5] Hb. split; [by split|by split]. Qed.

Lemma alter_preds_keeps g b f : ssa_ok g -> block_in g b -> (forall x, instructions (f x) = instructions x) ->
  safe (alter_block g b f) (fun g' => keeps g g' /\ current_block g' = current_block g).
Proof.
  intros Hg Hb Hf. eapply safe_mono; [by apply alter_block_keeps|]. intros g' (? & _ & _ & _ & ?). done.
Qed.

(** An instruction without a result. *)
Lemma emit_plain_keeps g i : ssa_ok g -> i_out i = None -> Forall (operand_in g) (operands i) ->
  safe (emit g i) (fun g' => keeps g g' /\ current_block g' = current_block g).
Proof.
  intros Hg Hi Ho. eapply safe_mono; [apply emit_keeps; [done|split; [done|by rewrite Hi]|]|].
  - intros _. split; [unfold defined_before; by rewrite Hi|]. intros o. by rewrite Hi.
  - intros g' (? & _ & _ & ? & _). done.
Qed.

Lemma emit_jump_keeps g target : ssa_ok g -> block_in g target -> safe (emit_jump g target) (keeps g).
Proof.
  intros Hg Ht. unfold emit_jump. safe_step (emit_plain_keeps g (with_operand (Instr_new Jump) (OpLabel target))); [done|done| |].
  { constructor; [exact Ht|constructor]. }
  intros g1 [[Hg1 L1] C1]. safe_step (alter_preds_keeps g1 (current_block g1) (fun b => add_succ b target)); [done|apply Hg1|done|].
  intros g2 [[Hg2 L2] C2]. eapply safe_mono; [apply alter_preds_keeps; [done| |done]|].
  - apply (block_in_later g); [by eapply later_trans|done].
  - intros g3 [K3 _]. eapply keeps_trans; [by eapply later_trans|done].
Qed.

Lemma emit_if_keeps g cond tb fb : ssa_ok g -> value_in g cond -> block_in g tb -> block_in g fb ->
  safe (emit_if g cond tb fb) (keeps g).
Proof.
  intros Hg Hc Ht Hf. unfold emit_if.
  safe_step (emit_plain_keeps g (with_operand (with_operand (with_operand (Instr_new If) (OpValue cond)) (OpLabel tb)) (OpLabel fb)));
    [done|done|constructor; [exact Hc|constructor; [exact Ht|constructor; [exact Hf|constructor]]]|]. intros g1 [[Hg1 L1] C1].
  safe_step (alter_preds_keeps g1 (current_block g1) (fun b => add_succ b tb)); [done|apply Hg1|done|]. intros g2 [[Hg2 L2] C2].
  safe_step (alter_preds_keeps g2 (current_block g2) (fun b => add_succ b fb)); [done|apply Hg2|done|]. intros g3 [[Hg3 L3] C3].
  assert (later g g3) as L by (eapply later_trans; [exact L1|]; by eapply later_trans).
  safe_step (alter_preds_keeps g3 tb (fun b => add_pred b (current_block g3))); [done|by eapply block_in_later|done|].
  intros g4 [[Hg4 L4] C4]. assert (later g g4) as L' by by eapply later_trans.
  eapply safe_mono; [apply alter_preds_keeps; [done|by eapply block_in_later|done]|]. intros g5 [K5 _]. by eapply keeps_trans.
Qed.

Lemma ret_operands vs i : operands (foldl (fun i v => with_operand i (OpValue v)) i vs) = operands i ++ (OpValue <$> vs)
  /\ i_out (foldl (fun i v => with_operand i (OpValue v)) i vs) = i_out i.
Proof.
  revert i. induction vs as [|v vs IH]; intros i; [by rewrite app_nil_r|]. cbn [foldl fmap list_fmap].
  destruct (IH (with_operand i (OpValue v))) as [-> ->]. cbn. by rewrite <- app_assoc.
Qed.

Lemma emit_ret_keeps g vs : ssa_ok g -> Forall (value_in g) vs -> safe (emit_ret g vs) (keeps g).
Proof.
  intros Hg Hv. unfold emit_ret. destruct (ret_operands vs (Instr_new Ret)) as [Eo En].
  eapply safe_mono; [apply emit_plain_keeps; [done|by rewrite En|]|by intros g' [? _]].
  rewrite Eo. cbn. apply Forall_fmap. eapply Forall_impl; [done|]. done.
Qed.

(** The returned values recorded so far are values of the program. *)
Definition stmt_post (g : Generator) (st : GenState) : Prop := keeps g st.1 /\ Forall (value_in st.1) st.2.

Lemma stmt_post_trans g1 g2 st : later g1 g2 -> stmt_post g2 st -> stmt_post g1 st.
Proof. intros L [K F]. split; [by eapply keeps_trans|done]. Qed.

Lemma same_returns g (m : result Generator) ret : safe m (keeps g) -> Forall (value_in g) ret ->
  safe (g ← m; Ok (g, ret)) (stmt_post g).
Proof.
  intros Hm Hr. apply safe_result_bind. eapply safe_mono; [exact Hm|]. intros g' [Hg' L]. split; [by split|].
  eapply Forall_impl; [done|]. intros v. by apply value_in_later.
Qed.

(** Induction on statements through the lists and options they contain. *)
Lemma stmt_nested_ind (P : Stmt -> Prop)
  (Hif : forall i c b e, Forall P b -> Forall P e -> P (SIf i c b e))
  (Hfor : forall i c p b, from_option P True i -> from_option P True p -> Forall P b -> P (SFor i c p b))
  (Hother : forall s, match s with SIf _ _ _ _ | SFor _ _ _ _ => False | _ => True end -> P s) : forall s, P s.
Proof.
  fix IH 1.
  intros s. destruct s as [| | | | | | | |i c b e|i c p b| | |]; try (by apply Hother).
  - apply Hif; [induction b as [|x b IHb]|induction e as [|x e IHe]]; constructor; (apply IH || done).
  - apply Hfor; [destruct i as [x|]; [apply IH|exact I]|destruct p as [x|]; [apply IH|exact I]|].
    induction b as [|x b IHb]; constructor; (apply IH || done).
Qed.

Definition stmt_keeps (s : Stmt) : Prop :=
  forall g ret, ssa_ok g -> Forall (value_in g) ret -> safe (gen_stmt s (g, ret)) (stmt_post g).

Lemma gen_stmts_keeps l g ret : ssa_ok g -> Forall (value_in g) ret ->
  Forall stmt_keeps l ->
  safe (gen_stmts l (g, ret)) (stmt_post g).
Proof.
  intros Hg Hr Hl. revert g ret Hg Hr. induction Hl as [|s l Hs Hl IH]; intros g ret Hg Hr; [by split; [apply keeps_refl|]|].
  cbn [gen_stmts]. safe_step (Hs g ret Hg Hr). intros [g1 ret1] [[Hg1 L1] Hr1]. eapply safe_mono; [by apply IH|].
  intros st. by apply stmt_post_trans.
Qed.

Lemma gen_simple_keeps s : match s with SIf _ _ _ _ | SFor _ _ _ _ => False | _ => True end -> stmt_keeps s.
Proof.
  intros Hs g ret Hg Hr. destruct s; cbn [gen_stmt]; try done; try (by split; [apply keeps_refl|]).
  - apply same_returns; [by apply gen_var_keeps|done].
  - apply same_returns; [by apply gen_assign_keeps|done].
  - apply same_returns; [by apply gen_short_keeps|done].
  - safe_step (gen_expr_keeps e g Hg). intros [v g1] ([Hg1 L1] & _ & _). cbn [fst snd] in *. split; [by split|].
    eapply Forall_impl; [done|]. intros x. by apply value_in_later.
  - apply same_returns; [by apply gen_step_keeps|done].
  - apply same_returns; [by apply gen_step_keeps|done].
  - apply same_returns; [by apply gen_compound_keeps|done].
  - safe_step (gen_exprs_keeps values g Hg). intros [vs g1] ([Hg1 L1] & Hv & _). cbn [fst snd] in *.
    eapply safe_mono; [apply (same_returns g1); [by apply emit_ret_keeps|done]|]. intros st. by apply stmt_post_trans.
Qed.

(** Run the next step from generator [g], naming what it leaves. *)
Ltac in_later := unfold value_in, block_in, later in *; cbn [fst snd values blocks set_current_block] in *; lia.

(** The statements of an arm, in block [b], then a jump to [target]. *)
Lemma gen_arm_keeps l g ret b target (k : GenState -> result GenState) Q : ssa_ok g -> Forall (value_in g) ret ->
  Forall stmt_keeps l -> block_in g b -> block_in g target ->
  (forall g' ret', ssa_ok g' -> later g g' -> Forall (value_in g') ret' -> safe (k (g', ret')) Q) ->
  safe ('(g, ret) ← gen_stmts l (set_current_block g b, ret); g ← emit_jump g target; k (g, ret)) Q.
Proof.
  intros Hg Hr Hl Hb Ht Hk. destruct (set_current_keeps g b Hg Hb) as [Hg0 L0].
  safe_step (gen_stmts_keeps l (set_current_block g b) ret); [done|done|done|]. intros [g1 ret1] [[Hg1 L1] Hr1]. cbn [fst snd] in *.
  safe_step (emit_jump_keeps g1 target Hg1); [in_later|]. intros g2 [Hg2 L2]. apply Hk; [done| |].
  - eapply later_trans; [|exact L2]. by eapply later_trans.
  - eapply Forall_impl; [done|]. intros x Hx. in_later.
Qed.

(** A block allocated ahead. *)
Lemma new_block_in g name : ssa_ok g -> ssa_ok (new_block g name).2 /\ later g (new_block g name).2
  /\ block_in (new_block g name).2 (new_block g name).1.
Proof. intros Hg. by destruct (new_block_keeps g name Hg) as ([? ?] & ? & _). Qed.
Ltac new_block_step g name b g' Hg' L Hb :=
  destruct (new_block_in g (text name) ltac:(assumption)) as (Hg' & L & Hb);
  destruct (new_block g (text name)) as [b g']; cbn [fst snd] in Hg', L, Hb.

Lemma gen_if_eq i c b e g ret : gen_stmt (SIf i c b e) (g, ret) =
  '(cv, g) ← gen_expr c g;
  let '(tb, g) := new_block g (text "then") in
  let '(fb, g) := new_block g (text "else") in
  let '(mb, g) := new_block g (text "merge") in
  g ← emit_if g cv tb fb;
  '(g, ret) ← gen_stmts b (set_current_block g tb, ret);
  g ← emit_jump g mb;
  '(g, ret) ← gen_stmts e (set_current_block g fb, ret);
  g ← emit_jump g mb;
  Ok (set_current_block g mb, ret).
Proof. done. Qed.

Lemma gen_if_keeps i c b e : Forall stmt_keeps b -> Forall stmt_keeps e -> stmt_keeps (SIf i c b e).
Proof.
  intros Hb He g ret Hg Hr. rewrite gen_if_eq.
  safe_step (gen_expr_keeps c g Hg). intros [cv g1] ([Hg1 L1] & Hc & _). cbn [fst snd] in *.
  new_block_step g1 "then" tb g2 Hg2 L2 Ht. new_block_step g2 "else" fb g3 Hg3 L3 Hf.
  new_block_step g3 "merge" mb g4 Hg4 L4 Hm.
  safe_step (emit_if_keeps g4 cv tb fb Hg4); [in_later|in_later|in_later|]. intros g5 [Hg5 L5].
  apply (gen_arm_keeps b g5 ret tb mb (fun '(g, ret) => '(g, ret) ← gen_stmts e (set_current_block g fb, ret);
    g ← emit_jump g mb; Ok (set_current_block g mb, ret))); [done| |done|in_later|in_later|].
  { eapply Forall_impl; [done|]. intros x Hx. in_later. }
  intros g6 ret6 Hg6 L6 Hr6.
  apply (gen_arm_keeps e g6 ret6 fb mb (fun '(g, ret) => Ok (set_current_block g mb, ret))); [done|done|done|in_later|in_later|].
  intros g7 ret7 Hg7 L7 Hr7. destruct (set_current_keeps g7 mb Hg7) as [Hg8 L8]; [in_later|].
  split; [split; [done|in_later]|done].
Qed.

Lemma gen_for_eq i c p b g ret : gen_stmt (SFor i c p b) (g, ret) =
  '(g, ret) ← match i with Some i => gen_stmt i (g, ret) | None => Ok (g, ret) end;
  let '(cb, g) := new_block g (text "for.cond") in
  let '(bb, g) := new_block g (text "for.body") in
  let '(pb, g) := new_block g (text "for.post") in
  let '(xb, g) := new_block g (text "for.exit") in
  g ← emit_jump g cb;
  g ← match c with
      | Some cond => '(v, g) ← gen_expr cond (set_current_block g cb); emit_if g v bb xb
      | None => emit_jump (set_current_block g cb) bb
      end;
  '(g, ret) ← gen_stmts b (set_current_block g bb, ret);
  g ← emit_jump g pb;
  '(g, ret) ← match p with
              | Some p => gen_stmt p (set_current_block g pb, ret)
              | None => Ok (set_current_block g pb, ret)
              end;
  g ← emit_jump g cb;
  Ok (set_current_block g xb, ret).
Proof. done. Qed.

Lemma gen_optional_keeps s g ret : from_option stmt_keeps True s -> ssa_ok g -> Forall (value_in g) ret ->
  safe (match s with Some s => gen_stmt s (g, ret) | None => Ok (g, ret) end) (stmt_post g).
Proof. intros Hs Hg Hr. destruct s; [by apply Hs|]. by split; [apply keeps_refl|]. Qed.

Lemma gen_cond_keeps c g bb xb : ssa_ok g -> block_in g bb -> block_in g xb ->
  safe (match c with Some cond => '(v, g) ← gen_expr cond g; emit_if g v bb xb | None => emit_jump g bb end) (keeps g).
Proof.
  intros Hg Hb Hx. destruct c as [c|]; [|by apply emit_jump_keeps]. safe_step (gen_expr_keeps c g Hg).
  intros [v g1] ([Hg1 L1] & Hv & _). cbn [fst snd] in *. eapply safe_mono; [apply emit_if_keeps; [done|done|in_later|in_later]|].
  intros g2. by apply keeps_trans.
Qed.

Lemma gen_for_keeps i c p b : from_option stmt_keeps True i -> from_option stmt_keeps True p -> Forall stmt_keeps b ->
  stmt_keeps (SFor i c p b).
Proof.
  intros Hi Hp Hb g ret Hg Hr. rewrite gen_for_eq. safe_step (gen_optional_keeps i g ret Hi Hg Hr).
  intros [g1 ret1] [[Hg1 L1] Hr1]. cbn [fst snd] in *.
  new_block_step g1 "for.cond" cb g2 Hg2 L2 Hcb. new_block_step g2 "for.body" bb g3 Hg3 L3 Hbb.
  new_block_step g3 "for.post" pb g4 Hg4 L4 Hpb. new_block_step g4 "for.exit" xb g5 Hg5 L5 Hxb.
  safe_step (emit_jump_keeps g5 cb Hg5); [in_later|]. intros g6 [Hg6 L6].
  destruct (set_current_keeps g6 cb Hg6) as [Hg7 L7]; [in_later|].
  safe_step (gen_cond_keeps c (set_current_block g6 cb) bb xb Hg7); [in_later|in_later|]. intros g8 [Hg8 L8].
  apply (gen_arm_keeps b g8 ret1 bb pb (fun '(g, ret) =>
    '(g, ret) ← match p with Some p => gen_stmt p (set_current_block g pb, ret) | None => Ok (set_current_block g pb, ret) end;
    g ← emit_jump g cb; Ok (set_current_block g xb, ret))); [done| |done|in_later|in_later|].
  { eapply Forall_impl; [done|]. intros x Hx. in_later. }
  intros g9 ret9 Hg9 L9 Hr9. destruct (set_current_keeps g9 pb Hg9) as [Hg10 L10]; [in_later|].
  safe_step (gen_optional_keeps p (set_current_block g9 pb) ret9 Hp Hg10); [done|]. intros [g11 ret11] [[Hg11 L11] Hr11]. cbn [fst snd] in *.
  safe_step (emit_jump_keeps g11 cb Hg11); [in_later|]. intros g12 [Hg12 L12].
  destruct (set_current_keeps g12 xb Hg12) as [Hg13 L13]; [in_later|]. split; [split; [done|in_later]|].
  eapply Forall_impl; [done|]. intros x Hx. in_later.
Qed.

Lemma gen_stmt_keeps s : stmt_keeps s.
Proof.
  induction s as [i c b e Hb He|i c p b Hi Hp Hb|s Hs] using stmt_nested_ind.
  - by apply gen_if_keeps.
  - by apply gen_for_keeps.
  - by apply gen_simple_keeps.
Qed.

(** ** Programs *)

(** SSA form of a finished program. *)
Record ssa_program (p : Program) : Prop := {
  sp_instrs : forall i, i ∈ all_instrs (p_blocks p) ->
    Forall (fun o => match o with
                     | OpValue id => 0 <= id < Z.of_nat (length (p_values p))
                     | OpLabel b => 0 <= b < Z.of_nat (length (p_blocks p))
                     | _ => True
                     end) (operands i);
  sp_unique : Z.of_nat (length (p_values p)) <= 2 ^ 32 ->
    NoDup (omap i_out (all_instrs (p_blocks p))) /\ Forall defined_before (all_instrs (p_blocks p));
  sp_inputs : Forall (fun id => 0 <= id < Z.of_nat (length (p_values p))) (input_values p);
  sp_returns : Forall (fun id => 0 <= id < Z.of_nat (length (p_values p))) (return_values p);
}.

Lemma start_ssa : ssa_ok Generator_new.
Proof.
  split; cbn; [done|unfold block_in; cbn; lia| |constructor|intros _; split; constructor].
  constructor; [apply map_Forall_empty|constructor].
Qed.

Lemma gen_params_keeps ps sizes g : ssa_ok g -> Forall (fun p => concrete p.2 = true) ps ->
  safe (gen_params ps sizes g) (fun r => keeps g r.2 /\ Forall (value_in r.2) r.1.2).
Proof.
  intros Hg Hc. revert sizes g Hg. induction Hc as [|[name t] ps Ht Hc IH]; intros sizes g Hg; [by split; [apply keeps_refl|]|].
  cbn [gen_params]. cbn in Ht. apply safe_result_bind.
  assert ((match sizes with size :: _ => if negb (concrete t) then instantiate_with_sizes t size else Ok t | [] => Ok t end) = Ok t) as ->
    by (destruct sizes; by rewrite ?Ht).
  unfold safe at 1. pose proof (new_value_keeps g name t Hg) as Hv. destruct (new_value g name t) as [id g1].
  destruct Hv as ([Hg1 L1] & Hin & _). destruct (alter_at_ok (values g1) id set_param Hin) as (x & l & r & El & _ & ->).
  assert (length (l ++ set_param x :: r) = length (values g1)) as Hl by (by rewrite El, !length_app).
  set (g2 := with_values g1 (l ++ set_param x :: r)). assert (later g1 g2) as L2 by (split; cbn; lia).
  assert (ssa_ok g2) as Hg2.
  { eapply ssa_later; [exact Hg1|done|done|done|done|]. cbn. rewrite Hl. apply Hg1. }
  apply safe_result_bind. unfold safe at 1. safe_step (IH (tail sizes) g2 Hg2). intros [[ios ids] g3] [[Hg3 L3] Hids]. cbn in *. split.
  - split; [done|]. eapply later_trans; [exact L1|]. by eapply later_trans.
  - constructor; [|done]. eapply value_in_later; [exact L3|]. by eapply value_in_later.
Qed.

Lemma define_all_keeps names ids g : ssa_ok g -> Forall (value_in g) ids -> keeps g (define_all names ids g).
Proof.
  revert ids g. induction names as [|n names IH]; intros [|id ids] g Hg Hids; try by apply keeps_refl.
  apply Forall_cons in Hids as [Hid Hids]. destruct (define_keeps g n id Hg Hid) as [Hd Ld].
  eapply keeps_trans; [exact Ld|]. apply IH; [done|]. eapply Forall_impl; [done|]. intros x. by apply value_in_later.
Qed.

(** C33. Well-formedness of the intermediate code: on concrete parameter types the
    compiler never panics, whatever the statements, and the program it returns is in
    SSA form: operands, labels, inputs and results are in range, and while value ids
    fit their 32 bits every value is defined once and by an instruction that
    reads earlier values only. *)
Theorem build_ssa_safe fs sizes f : find_main fs = Some f -> Forall (fun p => concrete p.2 = true) (params f) ->
  safe (build_ssa fs sizes) ssa_program.
Proof.
  intros Hf Hc. unfold build_ssa. rewrite Hf.
  safe_step (gen_params_keeps (params f) sizes Generator_new start_ssa Hc). intros [[ios ids] g1] [[Hg1 L1] Hids]. cbn [fst snd] in *.
  destruct (define_all_keeps (fst <$> params f) ids g1 Hg1 Hids) as [Hg2 L2].
  safe_step (gen_stmts_keeps (f_body f) (define_all (fst <$> params f) ids g1) []); [done|constructor| |].
  { apply Forall_forall. intros s _. apply gen_stmt_keeps. }
  intros [g3 ret] [[Hg3 L3] Hret]. cbn in *. split; cbn.
  - intros i Hi. pose proof (so_instrs g3 Hg3) as H. rewrite Forall_forall in H. apply (H i Hi).
  - intros Hfit. by apply (so_unique g3 Hg3).
  - eapply Forall_impl; [done|]. intros x Hx. in_later.
  - done.
Qed.
