(* ===== verification/QclSource.v ===== *)
(** * Source-level meaning of straight-line programs

    An interpreter for straight-line functions on syntax trees, and the proof
    that the SSA program the compiler builds computes it.  With the correctness of
    circuit generation this relates a function to the gates generated for it. *)

From S2P Require Import Prelude.
From S2P Require Import Bytes.
From S2P Require Import QclTypes.
From S2P Require Import Circuit.
From S2P Require Import CircuitBuild.
From S2P Require Import CircuitLogic.
From S2P Require Import CircuitArith.
From S2P Require Import CircuitMul.
From S2P Require Import CircuitCompile.
From S2P Require Import CircuitCodec.
From S2P Require Import QclMpa.
From S2P Require Import QclSsa.
From S2P Require Import QclCircuitGen.
From S2P Require Import QclGenCorrect.
From S2P Require Import QclCompiler.
From S2P Require Import QclCompilerCorrect.

(** ** The interpreter *)

(** A typed word: the declared type decides the width of results. *)
Abbreviation TWord := (Info * (nat * Z))%type (only parsing).
Abbreviation Env := (gmap (list byte) TWord) (only parsing).

Fixpoint eval_expr (r : Env) (e : Expr) : option TWord :=
  match e with
  | EVariableRef name _ => r !! name
  | EBinary op e1 e2 t =>
      '(t1, w1) ← eval_expr r e1;
      '(_, w2) ← eval_expr r e2;
      let rt := if is_undefined t then t1 else t in
      w ← word_value (binary_type_to_opcode op) (Z.to_nat (bits rt)) w1 w2;
      Some (rt, w)
  | EUnary UNot e _ =>
      '(t, w) ← eval_expr r e;
      if (w.1 =? 1)%nat then Some (t, (1%nat, 1 - w.2)) else None
  | EUnary UPlus e _ => eval_expr r e
  | _ => None
  end.

Fixpoint eval_exprs (r : Env) (es : list Expr) : option (list TWord) :=
  match es with
  | [] => Some []
  | e :: es => v ← eval_expr r e; vs ← eval_exprs r es; Some (v :: vs)
  end.

(** Declarations and assignments, one name per value. *)
Fixpoint eval_defs (r : Env) (names : list (list byte)) (es : list Expr) : option Env :=
  match names, es with
  | name :: names, e :: es => v ← eval_expr r e; eval_defs (<[name := v]> r) names es
  | [], _ | _, [] => Some r
  end.

Definition target_name (e : Expr) : option (list byte) := match e with EVariableRef name _ => Some name | _ => None end.

(** A body: declarations and assignments, then one [return]. *)
Fixpoint eval_body (r : Env) (body : list Stmt) : option (list TWord) :=
  match body with
  | [SReturn es] => eval_exprs r es
  | SShortDecl names es :: body => r ← eval_defs r names es; eval_body r body
  | SAssign targets es :: body =>
      names ← mapM target_name targets;
      r ← eval_defs r names es;
      eval_body r body
  | _ => None
  end.

(** The arguments of [main], reduced to their declared widths. *)
Fixpoint param_env (ps : list (list byte * Info)) (ins : list Z) (r : Env) : Env :=
  match ps, ins with
  | (name, t) :: ps, v :: ins =>
      param_env ps ins (<[name := (t, (Z.to_nat (bits t), v mod 2 ^ Z.of_nat (Z.to_nat (bits t))))]> r)
  | _, _ => r
  end.

(** ** Simulation *)

Section simulation.
Context (s0 : Words).

(** A generator with one block, whose instructions lead from [s0] to [s]. *)
Record sim (g : Generator) (s : Words) : Prop := {
  sim_ssa : ssa_ok g;
  sim_block : exists b, blocks g = [b] /\ exec_instrs (instructions b) s0 = Some s;
  sim_fresh : forall id, is_Some (s !! id) -> value_in g id;
}.

(** The value [id] has type [t] and word [w]. *)
Definition holds (g : Generator) (s : Words) (id : Z) (v : TWord) : Prop :=
  s !! id = Some v.2 /\ exists x, values g !! Z.to_nat id = Some x /\ v_type x = v.1.
Definition env_ok (g : Generator) (s : Words) (r : Env) : Prop :=
  forall name v, r !! name = Some v -> exists id, bind_lookup (bindings g) name = Some id /\ holds g s id v.

Lemma exec_instrs_app l1 l2 s : exec_instrs (l1 ++ l2) s = exec_instrs l1 s ≫= exec_instrs l2.
Proof.
  revert s. induction l1 as [|i l1 IH]; intros s; [done|]. cbn. destruct (exec_instr i s) as [s1|]; [|done]. cbn. apply IH.
Qed.

(** Facts that survive further generation. *)
Definition extends_sim (g : Generator) (s : Words) (g' : Generator) (s' : Words) : Prop :=
  s ⊆ s' /\ values g `prefix_of` values g' /\ bindings g' = bindings g.

Lemma holds_extends g s g' s' id v : extends_sim g s g' s' -> holds g s id v -> holds g' s' id v.
Proof.
  intros (Hs & [vs Hv] & _) [H1 (x & H2 & H3)]. split; [by eapply lookup_weaken|]. exists x. split; [|done].
  rewrite Hv. by apply lookup_app_l_Some.
Qed.
Lemma env_ok_extends g s g' s' r : extends_sim g s g' s' -> env_ok g s r -> env_ok g' s' r.
Proof.
  intros X H name v Hr. destruct (H name v Hr) as (id & Hid & Hh). exists id. split; [|by eapply holds_extends].
  destruct X as (_ & _ & ->). done.
Qed.
Lemma extends_sim_trans g1 s1 g2 s2 g3 s3 : extends_sim g1 s1 g2 s2 -> extends_sim g2 s2 g3 s3 -> extends_sim g1 s1 g3 s3.
Proof. intros (A1 & A2 & A3) (B1 & B2 & B3). split_and!; [by etrans|by etrans|congruence]. Qed.

(** A generation step that makes at most [n] values succeeds, and its result holds
    [v], while the ids do not wrap. *)
Definition gives (g : Generator) (s : Words) (m : result (Z * Generator)) (n : nat) (v : TWord) : Prop :=
  Z.of_nat (length (values g) + n) <= 2 ^ 32 -> exists id g' s', m = Ok (id, g') /\ sim g' s' /\ extends_sim g s g' s' /\
    holds g' s' id v /\ (length (values g') <= length (values g) + n)%nat.

(** An instruction that defines a new value. *)
Lemma emit_out_sim g s t mk w : sim g s -> (forall out, i_out (mk out) = Some out) ->
  (forall out, Forall (fun o => exists id, o = OpValue id /\ value_in g id) (operands (mk out))) ->
  (forall out, exec_instr (mk out) s = Some (<[out := w]> s)) -> gives g s (emit_out g t mk) 1 (t, w).
Proof.
  intros [Hg (b & Eb & Hx) Hfr] Hmk Hops Hex Hf. pose proof (emit_out_keeps g t mk Hg Hmk Hops) as Hk. revert Hk.
  pose proof (so_current g Hg) as Hcur. unfold block_in in Hcur. rewrite Eb in Hcur. cbn in Hcur.
  pose proof (so_next g Hg) as Hn.
  assert (current_block g = 0) as Ec by lia. unfold emit_out, new_value, emit, alter_at. cbn [blocks current_block].
  rewrite Eb, Ec. cbn. set (id := next_value_id g). intros ([Hg' L'] & Hin & _).
  assert (id = Z.of_nat (length (values g))) as Hid.
  { unfold id. rewrite Hn. unfold wrap_u32. apply Z.mod_small. lia. }
  assert (s !! id = None) as Hnone.
  { destruct (s !! id) eqn:E; [|done]. assert (value_in g id) as Hv by (apply Hfr; by rewrite E). unfold value_in in Hv. lia. }
  eexists id, _, (<[id := w]> s). split_and!; [done| | | |].
  - split; [done| |].
    + eexists. split; [done|]. cbn. rewrite exec_instrs_app, Hx. cbn. by rewrite Hex.
    + intros x [y Hy]. apply lookup_insert_Some in Hy as [[<- _]|[_ Hy]]; [done|]. eapply value_in_later; [exact L'|]. by apply Hfr.
  - split_and!; [by apply insert_subseteq|by eexists|done].
  - split; [cbn; by rewrite lookup_insert_eq|]. exists (Value_new id [] t).
    split; [|done]. cbn. by rewrite Hid, Nat2Z.id, lookup_app_r, Nat.sub_diag by lia.
  - cbn. rewrite length_app. cbn. lia.
Qed.

Lemma holds_value_in g s id v : sim g s -> holds g s id v -> value_in g id.
Proof. intros Hs [H _]. apply (sim_fresh g s Hs). by rewrite H. Qed.

Lemma holds_get g s id v : sim g s -> holds g s id v -> exists x, get_value g id = Ok x /\ v_type x = v.1.
Proof.
  intros Hs Hh. pose proof (holds_value_in g s id v Hs Hh) as [Hi _]. destruct Hh as [_ (x & Hx & Ht)].
  exists x. split; [|done]. by apply index_Some.
Qed.

Lemma gives_binary g s o a b va vb rt w : sim g s -> holds g s a va -> holds g s b vb ->
  word_value o (Z.to_nat (bits rt)) va.2 vb.2 = Some w -> gives g s (emit_binary g o a b rt) 1 (rt, w).
Proof.
  intros Hs Ha Hb Hv. apply emit_out_sim; [done|done| |].
  - intros out. cbn. repeat constructor; eauto using holds_value_in.
  - intros out. assert (exec_instr (with_type (with_operand (with_operand (with_out (Instr_new o) out) (OpValue a)) (OpValue b)) rt) s
      = exec_binary (with_type (with_operand (with_operand (with_out (Instr_new o) out) (OpValue a)) (OpValue b)) rt) s) as ->.
    { unfold exec_instr. cbn [i_op with_type with_operand with_out Instr_new]. destruct va as [? [? ?]], vb as [? [? ?]].
      destruct o; try done. }
    unfold exec_binary. cbn -[word_value]. rewrite (proj1 Ha), (proj1 Hb). cbn -[word_value]. by rewrite Hv.
Qed.

Lemma gives_unary g s o a v f : sim g s -> holds g s a v ->
  (o = Not /\ f = (fun w : Word => (w.1, 2 ^ Z.of_nat w.1 - 1 - w.2))) \/ (o = Mov /\ f = (fun w => w)) ->
  gives g s (emit_unary g o a v.1) 1 (v.1, f v.2).
Proof.
  intros Hs Ha Ho. apply emit_out_sim; [done|done| |].
  - intros out. cbn. repeat constructor; eauto using holds_value_in.
  - intros out. destruct Ho as [[-> ->]|[-> ->]]; unfold exec_instr, exec_unary; cbn; by rewrite (proj1 Ha).
Qed.

(** The values an expression needs. *)
Fixpoint expr_size (e : Expr) : nat :=
  match e with
  | EBinary _ e1 e2 _ => S (expr_size e1 + expr_size e2)
  | EUnary _ e _ => S (expr_size e)
  | _ => 0
  end.

Fixpoint exprs_size (es : list Expr) : nat := match es with [] => 0 | e :: es => expr_size e + exprs_size es end.

Lemma gives_trans g s g1 s1 (m : result (Z * Generator)) n1 n2 v : extends_sim g s g1 s1 ->
  (length (values g1) <= length (values g) + n1)%nat -> gives g1 s1 m n2 v -> gives g s m (n1 + n2) v.
Proof.
  intros X L H Hf. destruct H as (id & g2 & s2 & E & S2 & X2 & H2 & L2); [lia|].
  exists id, g2, s2. split_and!; [done|done|by eapply extends_sim_trans|done|lia].
Qed.

Lemma gives_bind g s (m : result (Z * Generator)) (k : Z * Generator -> result (Z * Generator)) n1 n2 v1 v :
  gives g s m n1 v1 -> (forall id g1 s1, sim g1 s1 -> extends_sim g s g1 s1 -> holds g1 s1 id v1 -> gives g1 s1 (k (id, g1)) n2 v) ->
  gives g s (m ≫= k) (n1 + n2) v.
Proof.
  intros Hm Hk Hf. destruct Hm as (id & g1 & s1 & -> & S1 & X1 & H1 & L1); [lia|]. by eapply gives_trans; [..|by eapply Hk|].
Qed.

Lemma gen_expr_sim e : forall g s r v, sim g s -> env_ok g s r -> eval_expr r e = Some v ->
  gives g s (gen_expr e g) (expr_size e) v.
Proof.
  induction e as [cv ct|name t|op e1 IH1 e2 IH2 t|op e IH t| | | | | | |]; intros g s r v Hs Hr He; try done.
  - cbn [eval_expr] in He. destruct (Hr _ _ He) as (id & Hid & Hh). intros _. cbn [gen_expr]. rewrite Hid.
    exists id, g, s. split_and!; [done|done| |done|cbn; lia]. by split_and!.
  - cbn [eval_expr] in He. destruct (eval_expr r e1) as [[t1 w1]|] eqn:E1; [|done]. cbn [mbind option_bind] in He.
    destruct (eval_expr r e2) as [[t2 w2]|] eqn:E2; [|done]. cbn [mbind option_bind] in He.
    destruct (word_value _ _ _ _) as [w|] eqn:Ew; [|done]. injection He as <-. cbn [gen_expr expr_size].
    replace (S (expr_size e1 + expr_size e2)) with (expr_size e1 + (expr_size e2 + 1))%nat by lia.
    eapply gives_bind; [by eapply IH1|]. intros a g1 s1 S1 X1 Ha.
    eapply gives_bind; [eapply IH2; [done|by eapply env_ok_extends|done]|]. intros b g2 s2 S2 X2 Hb.
    assert (holds g2 s2 a (t1, w1)) as Ha2 by by eapply holds_extends.
    destruct (holds_get g2 s2 a _ S2 Ha2) as (x & Ex & Et).
    assert ((if is_undefined t then v ← get_value g2 a; Ok (v_type v) else Ok t) = Ok (if is_undefined t then t1 else t)) as ->.
    { destruct (is_undefined t); [|done]. rewrite Ex. cbn. by rewrite Et. }
    cbn [mbind result_bind]. by eapply gives_binary.
  - cbn [gen_expr expr_size]. replace (S (expr_size e)) with (expr_size e + 1)%nat by lia.
    assert (exists t' w, eval_expr r e = Some (t', w) /\ ((op = UNot /\ v = (t', (w.1, 2 ^ Z.of_nat w.1 - 1 - w.2))) \/
      (op = UPlus /\ v = (t', w)))) as (t' & w & Ee & Hv).
    { cbn [eval_expr] in He. destruct op; try done; destruct (eval_expr r e) as [[t' [n x]]|]; try done.
      - injection He as <-. exists t', (n, x). auto.
      - cbn in He. destruct (Nat.eqb_spec n 1) as [-> |]; [|done]. injection He as <-. exists t', (1%nat, x). auto. }
    eapply gives_bind; [by eapply IH|]. intros a g1 s1 S1 X1 Ha. destruct (holds_get g1 s1 a _ S1 Ha) as (x & -> & Et). cbn in Et.
    cbn [mbind result_bind]. rewrite Et. destruct Hv as [[-> ->]|[-> ->]].
    + apply (gives_unary g1 s1 Not a (t', w) (fun w => (w.1, 2 ^ Z.of_nat w.1 - 1 - w.2))); [done|done|by left].
    + apply (gives_unary g1 s1 Mov a (t', w) (fun w => w)); auto.
Qed.

(** ** Statements *)

Lemma lookup_define b name id name' : b <> [] ->
  bind_lookup (bind_define b name id) name' = if decide (name' = name) then Some id else bind_lookup b name'.
Proof.
  intros Hb. destruct (exists_last Hb) as (l & scope & ->). unfold bind_define, bind_lookup. rewrite last_snoc, removelast_last.
  rewrite !reverse_snoc. cbn [lookup_scopes]. destruct (decide (name' = name)) as [->|Hne].
  - by rewrite lookup_insert_eq.
  - by rewrite lookup_insert_ne by done.
Qed.

(** A point in a body: generator, words, environment. *)
Record at_point (g : Generator) (s : Words) (r : Env) : Prop := {
  pt_sim : sim g s;
  pt_env : env_ok g s r;
  pt_scope : bindings g <> [];
}.

Lemma define_at g s r name id v : at_point g s r -> holds g s id v -> at_point (define g name id) s (<[name := v]> r).
Proof.
  intros [Hs Hr Hb] Hh. split.
  - destruct Hs as [H1 H2 H3]. split; [|done|done]. apply (define_keeps g name id H1). apply H3. by rewrite (proj1 Hh).
  - intros n w Hn. cbn [define with_bindings bindings]. rewrite lookup_define by done. apply lookup_insert_Some in Hn as [[<- <-]|[Hne Hn]].
    + rewrite decide_True by done. by exists id.
    + rewrite decide_False by done. destruct (Hr n w Hn) as (i & Hi & Hi'). by exists i.
  - cbn [define with_bindings bindings]. unfold bind_define. destruct (last (bindings g)); [|done]. by destruct (removelast (bindings g)).
Qed.

(** A step to a later point that makes at most [n] values. *)
Definition reaches (g : Generator) (m : result Generator) (n : nat) (r' : Env) : Prop :=
  Z.of_nat (length (values g) + n) <= 2 ^ 32 -> exists g' s', m = Ok g' /\ at_point g' s' r'
    /\ (length (values g') <= length (values g) + n)%nat.

Lemma gen_def_at g s r e v name (k : Generator -> result Generator) n r' : at_point g s r -> eval_expr r e = Some v ->
  (forall g' s', at_point g' s' (<[name := v]> r) -> reaches g' (k g') n r') ->
  reaches g ('(id, g) ← gen_expr e g; k (define g name id)) (expr_size e + n) r'.
Proof.
  intros [Hs Hr Hb] He Hk Hf. destruct (gen_expr_sim e g s r v Hs Hr He) as (id & g1 & s1 & -> & S1 & X1 & H1 & L1); [lia|].
  cbn [mbind result_bind]. destruct (Hk (define g1 name id) s1) as (g2 & s2 & E2 & P2 & L2).
  - apply (define_at g1 s1 r); [|done]. split; [done|by eapply env_ok_extends|by destruct X1 as (_ & _ & ->)].
  - cbn. lia.
  - exists g2, s2. split_and!; [done|done|]. cbn in L2. lia.
Qed.

Lemma gen_short_at names es : forall g s r r', at_point g s r -> eval_defs r names es = Some r' ->
  reaches g (gen_short names es g) (exprs_size es) r'.
Proof.
  revert es. induction names as [|n names IH]; intros es g s r r' Hp He.
  { destruct es; injection He as <-; intros _; exists g, s; (split_and!; [done|done|lia]). }
  destruct es as [|e es]; [injection He as <-; intros _; exists g, s; (split_and!; [done|done|cbn; lia])|].
  cbn [eval_defs] in He. destruct (eval_expr r e) as [v|] eqn:Ee; [|done]. cbn [mbind option_bind] in He.
  cbn [gen_short exprs_size]. apply (gen_def_at g s r e v); [done|done|]. intros g1 s1 Hp1. by eapply IH.
Qed.

Lemma gen_assign_at targets es : forall g s r r' names, at_point g s r -> mapM target_name targets = Some names ->
  eval_defs r names es = Some r' -> reaches g (gen_assign targets es g) (exprs_size es) r'.
Proof.
  revert es. induction targets as [|t targets IH]; intros es g s r r' names Hp Hn He.
  { injection Hn as <-. destruct es; injection He as <-; intros _; exists g, s; (split_and!; [done|done|lia]). }
  cbn in Hn. destruct t as [|name ty| | | | | | | | |]; try done. cbn in Hn. destruct (mapM target_name targets) as [ns|]; [|done].
  injection Hn as <-. destruct es as [|e es]; [injection He as <-; intros _; exists g, s; (split_and!; [done|done|cbn; lia])|].
  cbn [eval_defs] in He. destruct (eval_expr r e) as [v|] eqn:Ee; [|done]. cbn [mbind option_bind] in He.
  cbn [gen_assign exprs_size]. apply (gen_def_at g s r e v); [done|done|]. intros g1 s1 Hp1. by eapply IH.
Qed.

Lemma gen_exprs_at es : forall g s r vs, at_point g s r -> eval_exprs r es = Some vs ->
  Z.of_nat (length (values g) + exprs_size es) <= 2 ^ 32 -> exists ids g' s', gen_exprs es g = Ok (ids, g')
    /\ sim g' s' /\ extends_sim g s g' s' /\ Forall2 (holds g' s') ids vs.
Proof.
  induction es as [|e es IH]; intros g s r vs Hp He Hf.
  { injection He as <-. exists [], g, s. split_and!; [done|apply Hp|by split_and!|constructor]. }
  cbn [eval_exprs] in He. destruct (eval_expr r e) as [v|] eqn:Ee; [|done]. cbn [mbind option_bind] in He.
  destruct (eval_exprs r es) as [vs'|] eqn:Es; [|done]. injection He as <-. cbn [gen_exprs exprs_size] in *.
  destruct Hp as [Hs Hr Hb].
  destruct (gen_expr_sim e g s r v Hs Hr Ee) as (id & g1 & s1 & -> & S1 & X1 & H1 & L1); [lia|]. cbn [mbind result_bind].
  destruct (IH g1 s1 r vs') as (ids & g2 & s2 & -> & S2 & X2 & H2); [|done|lia|].
  { split; [done|by eapply env_ok_extends|by destruct X1 as (_ & _ & ->)]. }
  exists (id :: ids), g2, s2. split_and!; [done|done|by eapply extends_sim_trans|]. constructor; [by eapply holds_extends|done].
Qed.

(** The values a body needs. *)
Definition stmt_size (st : Stmt) : nat :=
  match st with SReturn es | SShortDecl _ es | SAssign _ es => exprs_size es | _ => 0 end.
Fixpoint body_size (body : list Stmt) : nat := match body with [] => 0 | st :: body => stmt_size st + body_size body end.

Lemma ret_op vs i : i_op (foldl (fun i v => with_operand i (OpValue v)) i vs) = i_op i.
Proof. revert i. induction vs as [|v vs IH]; intros i; [done|]. cbn. by rewrite IH. Qed.

(** The return instruction does not change words. *)
Lemma emit_ret_sim g s vs : sim g s -> Forall (value_in g) vs -> exists g', emit_ret g vs = Ok g' /\ sim g' s /\ values g' = values g.
Proof.
  intros [Hg (b & Eb & Hx) Hfr] Hv. pose proof (emit_ret_keeps g vs Hg Hv) as Hk. revert Hk.
  pose proof (so_current g Hg) as Hcur. unfold block_in in Hcur. rewrite Eb in Hcur. cbn in Hcur.
  assert (current_block g = 0) as Ec by lia. unfold emit_ret, emit, alter_at. rewrite Eb, Ec. cbn. intros [Hg' L'].
  eexists. split_and!; [done| |done]. split; [done| |].
  - eexists. split; [done|]. cbn. rewrite exec_instrs_app, Hx. cbn. unfold exec_instr. by rewrite ret_op.
  - intros id Hid. eapply value_in_later; [exact L'|]. by apply Hfr.
Qed.

(** A statement before the rest of the body. *)
Lemma gen_rest_at (m : result Generator) g n r' body ret vs :
  (forall g s r vs ret, at_point g s r -> eval_body r body = Some vs -> Z.of_nat (length (values g) + body_size body) <= 2 ^ 32 ->
     exists g' s' ids, gen_stmts body (g, ret) = Ok (g', ids) /\ sim g' s' /\ Forall2 (holds g' s') ids vs) ->
  reaches g m n r' -> eval_body r' body = Some vs -> Z.of_nat (length (values g) + (n + body_size body)) <= 2 ^ 32 ->
  exists g' s' ids, (st ← (g ← m; Ok (g, ret)); gen_stmts body st) = Ok (g', ids) /\ sim g' s' /\ Forall2 (holds g' s') ids vs.
Proof.
  intros IH Hm He Hf. destruct Hm as (g1 & s1 & -> & P1 & L1); [lia|]. cbn [mbind result_bind]. eapply IH; [done|done|lia].
Qed.

Lemma gen_body_at body : forall g s r vs ret, at_point g s r -> eval_body r body = Some vs ->
  Z.of_nat (length (values g) + body_size body) <= 2 ^ 32 -> exists g' s' ids, gen_stmts body (g, ret) = Ok (g', ids)
    /\ sim g' s' /\ Forall2 (holds g' s') ids vs.
Proof.
  induction body as [|st body IH]; intros g s r vs ret Hp He Hf; [done|]. cbn [body_size gen_stmts] in *.
  destruct st as [| |targets es|names es| | | | | | | |es|]; try done.
  - cbn [eval_body] in He. destruct (mapM target_name targets) as [names|] eqn:En; [|done]. cbn [mbind option_bind] in He.
    destruct (eval_defs r names es) as [r'|] eqn:Ed; [|done].
    eapply (gen_rest_at _ g (exprs_size es) r'); [exact IH|by eapply gen_assign_at|done|done].
  - cbn [eval_body] in He. destruct (eval_defs r names es) as [r'|] eqn:Ed; [|done].
    eapply (gen_rest_at _ g (exprs_size es) r'); [exact IH|by eapply gen_short_at|done|done].
  - destruct body; [|done]. cbn [eval_body] in He. cbn [stmt_size body_size] in Hf.
    destruct (gen_exprs_at es g s r vs Hp He) as (ids & g1 & s1 & E1 & S1 & X1 & H1); [lia|].
    destruct (emit_ret_sim g1 s1 ids S1) as (g2 & E2 & S2 & V2).
    { apply Forall_forall. intros id Hid. apply list_elem_of_lookup_1 in Hid as [k Hk].
      destruct (Forall2_lookup_l _ _ _ _ _ H1 Hk) as (v & _ & Hh). by eapply holds_value_in. }
    exists g2, s1, ids. cbn [gen_stmt]. rewrite E1. cbn [mbind result_bind]. rewrite E2. split_and!; [done|done|].
    eapply Forall2_impl; [exact H1|]. intros id v [Hh1 Hh2]. split; [done|by rewrite V2].
Qed.
End simulation.

(** ** The parameters of [main] *)

Lemma input_words_other io ids ins s id : id ∉ ids -> input_words io ids ins s !! id = s !! id.
Proof.
  revert ids ins s. induction io as [|a io IH]; intros [|i ids] [|v ins] s Hid; try done. cbn [input_words].
  apply not_elem_of_cons in Hid as [Hne Hid]. by rewrite IH, lookup_insert_ne by done.
Qed.

Lemma input_words_lookup io ids ins s k a id v : NoDup ids -> io !! k = Some a -> ids !! k = Some id -> ins !! k = Some v ->
  input_words io ids ins s !! id = Some (arg_width a, v mod 2 ^ Z.of_nat (arg_width a)).
Proof.
  revert ids ins s k. induction io as [|a' io IH]; intros [|i ids] [|v' ins] s k Hn Ha Hi Hv; try done.
  apply NoDup_cons in Hn as [Hi' Hn]. cbn [input_words]. destruct k as [|k].
  - injection Ha as ->. injection Hi as ->. injection Hv as ->. by rewrite input_words_other, lookup_insert_eq.
  - by apply (IH ids ins _ k).
Qed.

Lemma input_words_dom io ids ins s id : is_Some (input_words io ids ins s !! id) -> id ∈ ids \/ is_Some (s !! id).
Proof.
  intros H. destruct (decide (id ∈ ids)); [by left|right]. by rewrite input_words_other in H.
Qed.

Definition param_io (p : list byte * Info) : IOArg := IOArg_new p.1 (typ p.2) (bits p.2).

(** New parameters: ids in order, types recorded, nothing else changed. *)
Lemma gen_params_spec ps sizes g : ssa_ok g -> Forall (fun p => concrete p.2 = true) ps ->
  Z.of_nat (length (values g) + length ps) <= 2 ^ 32 -> exists g',
    gen_params ps sizes g = Ok (param_io <$> ps, wire_range (length (values g)) (length ps), g') /\ ssa_ok g' /\
    blocks g' = blocks g /\ bindings g' = bindings g /\ values g `prefix_of` values g' /\
    length (values g') = (length (values g) + length ps)%nat /\
    forall k p, ps !! k = Some p -> exists x, values g' !! (length (values g) + k)%nat = Some x /\ v_type x = p.2.
Proof.
  intros Hg Hc. revert sizes g Hg. induction Hc as [|[name t] ps Ht Hc IH]; intros sizes g Hg Hf.
  { exists g. split_and!; [done|done|done|done|done|cbn; lia|done]. }
  cbn in Ht. cbn [length] in Hf. pose proof (new_value_keeps g name t Hg) as Hv. cbn [gen_params].
  assert ((match sizes with size :: _ => if negb (concrete t) then instantiate_with_sizes t size else Ok t | [] => Ok t end) = Ok t) as ->
    by (destruct sizes; by rewrite ?Ht).
  cbn [mbind result_bind]. destruct (new_value g name t) as [id g1]. destruct Hv as ([Hg1 L1] & Hin & B1 & C1 & D1 & V1 & Hid).
  assert (ids_fit g1) as Hfit by (unfold ids_fit; rewrite V1, length_app; cbn; lia). specialize (Hid Hfit).
  destruct (alter_at_ok (values g1) id set_param Hin) as (x & l & r & El & Hl & ->). cbn [mbind result_bind].
  rewrite V1 in El. assert (l = values g /\ x = Value_new id name t /\ r = []) as (-> & -> & ->).
  { apply app_inj_1 in El as [<- [= <- <-]]; [done|lia]. }
  set (g2 := with_values g1 _). assert (length (values g2) = S (length (values g))) as Hl2 by (cbn; rewrite length_app; cbn; lia).
  assert (ssa_ok g2) as Hg2.
  { eapply ssa_later; [exact Hg1| |done|done|done|].
    - split; cbn; rewrite ?V1, ?length_app; cbn; lia.
    - rewrite Hl2. cbn. rewrite (so_next g1 Hg1), V1, length_app. cbn. f_equal. lia. }
  destruct (IH (tail sizes) g2 Hg2) as (g3 & E3 & Hg3 & B3 & D3 & P3 & L3 & T3); [lia|]. rewrite E3. cbn [mbind result_bind].
  exists g3. rewrite Hl2 in *. split_and!; [|done|by rewrite B3|by rewrite D3| |cbn; lia|].
  - unfold wire_range. cbn [length seq fmap list_fmap]. rewrite Hid. done.
  - etrans; [|exact P3]. cbn. by eexists.
  - intros [|k] p Hp.
    + injection Hp as <-. exists (set_param (Value_new id name t)). split; [|done]. rewrite Nat.add_0_r.
      destruct P3 as [vs ->]. apply lookup_app_l_Some. cbn. by rewrite lookup_app_r, Nat.sub_diag by lia.
    + destruct (T3 k p Hp) as (y & Hy & Hty). exists y. split; [|done]. by replace (length (values g) + S k)%nat with (S (length (values g)) + k)%nat by lia.
Qed.

Lemma define_params_at s0 ps : forall ids ins g s r, length ids = length ps -> length ins = length ps ->
  (forall k p id v, ps !! k = Some p -> ids !! k = Some id -> ins !! k = Some v ->
     holds g s id (p.2, (Z.to_nat (bits p.2), v mod 2 ^ Z.of_nat (Z.to_nat (bits p.2))))) ->
  at_point s0 g s r -> at_point s0 (define_all (fst <$> ps) ids g) s (param_env ps ins r)
    /\ values (define_all (fst <$> ps) ids g) = values g.
Proof.
  induction ps as [|[name t] ps IH]; intros [|id ids] [|v ins] g s r Hid Hin Hh Hp; try done.
  injection Hid as Hid. injection Hin as Hin. cbn [define_all fmap list_fmap param_env fst].
  destruct (IH ids ins (define g name id) s (<[name := (t, (Z.to_nat (bits t), v mod 2 ^ Z.of_nat (Z.to_nat (bits t))))]> r))
    as [H1 H2]; [done|done| | |].
  - intros k p i w Hk Hi Hw. apply (Hh (S k) p i w Hk Hi Hw).
  - apply define_at; [done|]. apply (Hh 0%nat (name, t) id v); done.
  - split; [done|]. by rewrite H2.
Qed.

(** ** The function *)

(** The words of a function's returned values, cut to its outputs. *)
Definition run_main (f : FuncDef) (ins : list Z) : option (list Z) :=
  vs ← eval_body (param_env (params f) ins ∅) (f_body f);
  let outs := param_io <$> returns f in
  let bs := vs ≫= (fun v : TWord => to_bits v.2.2 v.2.1) in
  if (io_width outs <=? length bs)%nat then Some (output_vals outs (take (io_width outs) bs)) else None.

Lemma returned_holds g s ids vs : Forall2 (holds g s) ids vs ->
  returned_bits s ids = vs ≫= (fun v : TWord => to_bits v.2.2 v.2.1).
Proof.
  unfold returned_bits. induction 1 as [|id v ids vs [H _] _ IH]; [done|]. cbn [mbind list_bind]. rewrite IH, H.
  by destruct v as [? [? ?]].
Qed.

(** The SSA program of a straight-line function computes the function. *)
Lemma build_ssa_computes fs sizes f ins r : find_main fs = Some f -> Forall (fun p => concrete p.2 = true) (params f) ->
  Z.of_nat (length (params f) + body_size (f_body f)) <= 2 ^ 32 -> length ins = length (params f) ->
  run_main f ins = Some r ->
  exists p, build_ssa fs sizes = Ok p /\ exec_program p ins = Some r.
Proof.
  intros Hf Hc Hsz Hl Hr. unfold build_ssa. rewrite Hf. unfold run_main in Hr.
  destruct (eval_body _ _) as [vs|] eqn:Ev; [|done]. cbn [mbind option_bind] in Hr.
  destruct (gen_params_spec (params f) sizes Generator_new start_ssa Hc) as (g1 & E1 & Hg1 & B1 & D1 & P1 & L1 & T1); [cbn; lia|].
  rewrite E1. cbn [mbind result_bind]. cbn [values Generator_new length] in *.
  set (s0 := input_words (param_io <$> params f) (wire_range 0 (length (params f))) ins ∅).
  assert (at_point s0 g1 s0 ∅) as Hp1.
  { split; [|by intros ? ? ?%lookup_empty_Some|by rewrite D1]. split; [done|rewrite B1; by eexists|].
    intros id [Hid%elem_wire_range|[? ?%lookup_empty_Some]]%input_words_dom; [|done]. unfold value_in. lia. }
  destruct (define_params_at s0 (params f) (wire_range 0 (length (params f))) ins g1 s0 ∅) as [Hp2 V2];
    [apply length_wire_range|done| |done|].
  { intros k p id v Hk Hi Hv. pose proof (lookup_lt_Some _ _ _ Hk) as Hlt. split.
    - unfold s0. apply (input_words_lookup _ _ _ _ k (param_io p)); [apply NoDup_wire_range| |done|done].
      by rewrite list_lookup_fmap, Hk.
    - unfold wire_range in Hi. rewrite list_lookup_fmap, lookup_seq_lt in Hi by done. injection Hi as <-.
      rewrite Nat2Z.id. by apply T1. }
  destruct (gen_body_at s0 (f_body f) (define_all (fst <$> params f) (wire_range 0 (length (params f))) g1) s0
    (param_env (params f) ins ∅) vs []) as (g3 & s3 & ids & -> & S3 & H3); [done|done|rewrite V2; lia|].
  cbn [mbind result_bind]. eexists. split; [done|]. unfold exec_program, program_instrs. cbn.
  destruct (sim_block s0 g3 s3 S3) as (b & -> & Hx). cbn. rewrite app_nil_r. fold s0. rewrite Hx. cbn [mbind option_bind].
  pose proof (returned_holds g3 s3 ids vs H3) as E. unfold returned_bits in E. rewrite E. exact Hr.
Qed.

(** A function whose interface fits circuits: scalar sizes, at least one input bit. *)
Record main_ok (f : FuncDef) : Prop := {
  mo_params : Forall (fun p => concrete p.2 = true /\ 0 <= bits p.2) (params f);
  mo_returns : Forall (fun p => 0 <= bits p.2) (returns f);
  mo_some : (0 < io_width (param_io <$> params f))%nat;
  mo_small : Z.of_nat (io_width (param_io <$> params f)) < 2 ^ 31 /\ Z.of_nat (io_width (param_io <$> returns f)) < 2 ^ 31;
  mo_size : Z.of_nat (length (params f) + body_size (f_body f)) <= 2 ^ 32;
}.

Lemma build_ssa_io fs sizes f p : find_main fs = Some f -> main_ok f -> build_ssa fs sizes = Ok p ->
  p_inputs p = param_io <$> params f /\ p_outputs p = param_io <$> returns f /\ length (input_values p) = length (params f).
Proof.
  intros Hf [Hc _ _ _ Hsz] E. unfold build_ssa in E. rewrite Hf in E.
  destruct (gen_params_spec (params f) sizes Generator_new start_ssa) as (g1 & E1 & _);
    [by eapply Forall_impl; [exact Hc|]; intros ? []|cbn; lia|].
  rewrite E1 in E. cbn [mbind result_bind] in E. destruct (gen_stmts _ _) as [[g ret]| |]; [|discriminate E..].
  cbn [mbind result_bind] in E. injection E as <-. cbn. by rewrite length_wire_range.
Qed.

Lemma main_program_ok fs sizes f p : find_main fs = Some f -> main_ok f -> build_ssa fs sizes = Ok p -> program_ok p.
Proof.
  intros Hf Hm E. destruct (build_ssa_io fs sizes f p Hf Hm E) as (Ei & Eo & El). destruct Hm as [Hc Hr Hs Hw _].
  split; rewrite ?Ei, ?Eo, ?El, ?length_fmap; [| |done|done|done]; apply Forall_fmap; (eapply Forall_impl; [done|]); cbn; [|done].
  intros [n t] [_ Ht]. done.
Qed.

(** ** Examples *)

Definition uint4 : Info := scalar TUint true 4 4.
Definition var (name : list byte) : Expr := EVariableRef name Info_default.
Definition bin (o : BinaryType) (e1 e2 : Expr) : Expr := EBinary o e1 e2 Info_default.

(** [func main(a, b uint4) (x, y uint4) { s := a + b s = s * a return s, s - b }] *)
Definition sample_main : FuncDef :=
  mkFuncDef (text "main") [(text "a", uint4); (text "b", uint4)] [(text "x", uint4); (text "y", uint4)]
    [SShortDecl [text "s"] [bin BAdd (var (text "a")) (var (text "b"))];
     SAssign [var (text "s")] [bin BMul (var (text "s")) (var (text "a"))];
     SReturn [var (text "s"); bin BSub (var (text "s")) (var (text "b"))]] [].

(** [func main(c bool, a, b uint4) uint4 { x := a; if c { x = b }; return x }] *)
Definition branch_main : FuncDef :=
  mkFuncDef (text "main") [(text "c", scalar TBool true 1 1); (text "a", uint4); (text "b", uint4)] [([], uint4)]
    [SShortDecl [text "x"] [var (text "a")];
     SIf None (var (text "c")) [SAssign [var (text "x")] [var (text "b")]] [];
     SReturn [var (text "x")]] [].
Lemma build_ssa_safe_witness : exists p, build_ssa [branch_main] [] = Ok p /\ ssa_program p.
Proof.
  pose proof (build_ssa_safe [branch_main] [] branch_main) as H. destruct (build_ssa [branch_main] []) as [p| |] eqn:E.
  - exists p. split; [reflexivity|]. apply H; [reflexivity|repeat constructor].
  - exfalso. revert E. vm_compute. discriminate.
  - exfalso. revert E. vm_compute. discriminate.
Defined.

(** ** The compiler *)

(** Parameters and results whose circuit arguments can be stored: scalar types, names in UTF-8. *)
Definition storable_io (ps : list (list byte * Info)) : Prop :=
  Z.of_nat (length ps) < 2 ^ 32 /\ Forall (fun p : list byte * Info =>
    utf8 p.1 = true /\ Z.of_nat (length p.1) < 2 ^ 32 /\ is_i32 (bits p.2) /\
    typ p.2 ∈ [TBool; TInt; TUint; TFloat; TString; TStruct]) ps.

Lemma length_digits fuel n acc : (length (digits fuel n acc) <= fuel + length acc)%nat.
Proof.
  revert n acc. induction fuel as [|fuel IH]; intros n acc; [done|]. cbn [digits]. destruct (n <? 10); [cbn; lia|].
  etrans; [apply IH|]. cbn. lia.
Qed.
Lemma display_i32_short z : (length (display_i32 z) <= 11)%nat.
Proof.
  unfold display_i32. pose proof (length_digits 10 z []) as H1. pose proof (length_digits 10 (- z) []) as H2. cbn [length] in *.
  destruct (z <? 0); [|lia]. rewrite length_app. change (length (text "-")) with 1%nat. lia.
Qed.

Lemma storable_io_ok ps : storable_io ps -> Forall io_ok (param_io <$> ps).
Proof.
  intros [_ H]. apply Forall_fmap. eapply Forall_impl; [exact H|]. intros [name t] (Hu & Hn & Hb & Ht). cbn in *.
  pose proof (display_i32_short (bits t)) as Hd. unfold param_io, IOArg_new. cbn [fst snd].
  assert (readable (scalar (typ t) true (bits t) 0) /\ display (scalar (typ t) true (bits t) 0) = Ok (type_name (typ t) ++ display_i32 (bits t))
    /\ (length (type_name (typ t)) <= 6)%nat) as (Hr & Es & Hl).
  { repeat (apply elem_of_cons in Ht as [-> |Ht]; [by (split_and!; [split|..]; cbn; try lia)|]). by apply elem_of_nil in Ht. }
  eapply io_ok_intro; [done|done|done|exact Es|rewrite length_app; lia|cbn; lia|constructor].
Qed.

(** From syntax tree to circuit: for a straight-line [main] that has a value on some
    input, the compiler builds an SSA program, its gates (taken before the gate
    passes) compile to a circuit, and on every input on which the function has a
    value the circuit computes that value; so does the circuit read back from the
    file it is stored in, when its interface can be stored. *)
Lemma function_to_gates fs sizes f ins0 r0 : find_main fs = Some f -> main_ok f -> length ins0 = length (params f) ->
  run_main f ins0 = Some r0 ->
  exists p, build_ssa fs sizes = Ok p /\
    (gates_fit p = true -> exists circ, unpruned p = Ok circ /\
       (forall ins r, length ins = length (params f) -> run_main f ins = Some r -> compute circ ins = Ok r) /\
       (storable_io (params f) -> storable_io (returns f) -> exists bs circ', marshal circ = Ok bs /\ parse_qclc bs = Ok circ' /\
          forall ins, compute circ' ins = compute circ ins)).
Proof.
  intros Hf Hm Hl Hr.
  assert (Forall (fun p => concrete p.2 = true) (params f)) as Hc.
  { eapply Forall_impl; [apply Hm|]. by intros ? []. }
  destruct (build_ssa_computes fs sizes f ins0 r0) as (p & Ep & Ex); [done|done|apply Hm|done|done|].
  destruct (build_ssa_io fs sizes f p Hf Hm Ep) as (Ei & Eo & _). exists p. split; [done|]. intros Hfit.
  destruct (unpruned_spec p ins0 r0) as (c1 & circ & c2 & Hcomp & Ci & Co & Ecirc & Ec & Hcirc);
    [by eapply main_program_ok|done|by rewrite Ei, length_fmap|done|].
  exists circ. split_and!; [done| |].
  - intros ins r Hl2 Hr2. destruct (Hcirc ins) as (r' & Hx & Hcomp2); [by rewrite Ei, length_fmap|].
    destruct (build_ssa_computes fs sizes f ins r) as (p' & Ep' & Ex'); [done|done|apply Hm|done|done|]. congruence.
  - intros Hi Ho. destruct (storable_round_trip circ) as (bs & circ' & H1 & H2 & _ & _ & _ & _ & H3); [|by exists bs, circ'].
    eapply compiled_storable; [done| | | | |done]; rewrite ?Ci, ?Co, ?Ei, ?Eo, ?length_fmap;
      [by apply storable_io_ok|by apply storable_io_ok|apply Hi|apply Ho].
Qed.

Lemma sample_main_ok : main_ok sample_main.
Proof. by split; repeat constructor; cbn; lia || vm_compute. Qed.

(** ** What the compiler gets wrong *)

(** [func main(a uint4) uint4 { return a + 1 }] *)
Definition constant_main : FuncDef :=
  mkFuncDef (text "main") [(text "a", uint4)] [([], uint4)]
    [SReturn [bin BAdd (var (text "a")) (EConstant (CInt (Mpa.from_i64 1 4)) uint4)]] [].
(** [func main(a, b uint4) uint4 { return a + b }] *)
Definition sum_main : FuncDef :=
  mkFuncDef (text "main") [(text "a", uint4); (text "b", uint4)] [([], uint4)]
    [SReturn [bin BAdd (var (text "a")) (var (text "b"))]] [].

(** [func main(a [2]uint4) [2]uint4 { return a }] *)
Definition array_main : FuncDef :=
  mkFuncDef (text "main") [(text "a", array_of 2 uint4)] [([], array_of 2 uint4)] [SReturn [var (text "a")]] [].

