(* ===== verification/QclLexer.v ===== *)
(** * The lexical analyzer ([quil-compiler/src/lexer.rs])

    Tokens, the lexer state and its operations.  A character is its code point, a
    string its UTF-8 bytes.  The lexer is a state that survives errors, since the
    parser goes on after some of them; a loop that has not ended within its fuel
    answers [None].  The name of the source, which only appears in messages, is
    left out of points. *)

From S2P Require Import Prelude.
From S2P Require Import Bytes.
From S2P Require Import QclTypes.
From S2P Require Import QclMpa.
From S2P Require Import QclSsa.
From S2P Require Import QclCompiler.

(** ** Characters *)

Definition code (b : byte) : Z := byte_val b.
Arguments code b%_byte_scope.

(** [String::push]: the UTF-8 bytes of a character. *)
Definition encode_char (c : Z) : list byte :=
  if c <? 0x80 then [byte_of c]
  else if c <? 0x800 then [byte_of (0xc0 + c / 64); byte_of (0x80 + c mod 64)]
  else if c <? 0x10000
  then [byte_of (0xe0 + c / 4096); byte_of (0x80 + c / 64 mod 64); byte_of (0x80 + c mod 64)]
  else [byte_of (0xf0 + c / 262144); byte_of (0x80 + c / 4096 mod 64); byte_of (0x80 + c / 64 mod 64); byte_of (0x80 + c mod 64)].
Definition encode (cs : list Z) : list byte := cs ≫= encode_char.

(** [char::from_u32]: a scalar value. *)
Definition from_u32 (v : Z) : option Z :=
  if (v <? 0xd800) || ((0xdfff <? v) && (v <? 0x110000)) then Some v else None.

Definition char_in (a b c : Z) : bool := (a <=? c) && (c <=? b).
Definition is_ascii_digit (c : Z) : bool := char_in (code "0") (code "9") c.
Definition is_octal_digit (c : Z) : bool := char_in (code "0") (code "7") c.
Definition is_ascii_hexdigit (c : Z) : bool :=
  is_ascii_digit c || char_in (code "a") (code "f") c || char_in (code "A") (code "F") c.
Definition is_ascii_letter (c : Z) : bool := char_in (code "a") (code "z") c || char_in (code "A") (code "Z") c.

(** [char::is_whitespace]: the characters with the property White_Space. *)
Definition is_whitespace (c : Z) : bool :=
  char_in 9 13 c || (c =? 32) || (c =? 0x85) || (c =? 0xa0) || (c =? 0x1680) || char_in 0x2000 0x200a c
  || (c =? 0x2028) || (c =? 0x2029) || (c =? 0x202f) || (c =? 0x205f) || (c =? 0x3000).

(** Letters and digits outside ASCII come from the tables of the Unicode standard;
    the text of big integers from the crate num-bigint, which reads a non-empty
    string of digits of the radix as its value. *)
Definition digit_of (b : byte) : option Z :=
  let c := byte_val b in
  if is_ascii_digit c then Some (c - code "0")
  else if char_in (code "a") (code "z") c then Some (c - code "a" + 10)
  else if char_in (code "A") (code "Z") c then Some (c - code "A" + 10) else None.
Fixpoint radix_val (base acc : Z) (s : list byte) : option Z :=
  match s with
  | [] => Some acc
  | b :: s => match digit_of b with Some d => if d <? base then radix_val base (acc * base + d) s else None | None => None end
  end.
Class Texts := {
  wide_alphabetic : Z -> bool;
  wide_numeric : Z -> bool;
  parse_bytes : list byte -> Z -> option Z;
  parse_bytes_digits s base v : s <> [] -> 2 <= base <= 16 -> radix_val base 0 s = Some v -> parse_bytes s base = Some v;
}.

(** An instance for texts whose letters are in ASCII. *)
Definition ascii_texts : Texts.
Proof.
  refine {| wide_alphabetic := fun _ => false; wide_numeric := fun _ => false;
            parse_bytes := fun s b => match s with [] => None | _ => radix_val b 0 s end |}.
  by intros [|b s] base v.
Defined.

(** [char::is_alphabetic], [char::is_alphanumeric]. *)
Definition is_alphabetic `{Texts} (c : Z) : bool := if c <? 128 then is_ascii_letter c else wide_alphabetic c.
Definition is_alphanumeric `{Texts} (c : Z) : bool :=
  is_alphabetic c || if c <? 128 then is_ascii_digit c else wide_numeric c.

(** ** Tokens *)

Module TokenType.
Inductive t :=
| Char (c : byte)
| Identifier | Constant
| SymPackage | SymImport | SymFunc | SymIf | SymElse | SymBreak | SymContinue | SymGoto | SymReturn | SymStruct
| SymVar | SymConst | SymType | SymFor | SymRange | SymNil
| DefAssign | MultEq | DivEq | LshiftEq | Lshift | RshiftEq | Rshift | PlusPlus | PlusEq | MinusMinus | MinusEq
| OrEq | XorEq | AndEq | Lt | Le | Gt | Ge | Eq | Neq | And | Or | BitClear | Send | Eof.
Arguments Char c%_byte_scope.
End TokenType.
#[export] Instance TokenType_eq_dec : EqDecision TokenType.t.
Proof. solve_decision. Defined.

Definition binary_type (t : TokenType.t) : result BinaryType :=
  match t with
  | TokenType.Char "*" => Ok BMul
  | TokenType.Char "+" => Ok BAdd
  | TokenType.Char "-" => Ok BSub
  | TokenType.Char "/" => Ok BDiv
  | TokenType.Char "%" => Ok BMod
  | TokenType.Lt => Ok BLt
  | TokenType.Le => Ok BLe
  | TokenType.Gt => Ok BGt
  | TokenType.Ge => Ok BGe
  | TokenType.Eq => Ok BEq
  | TokenType.Neq => Ok BNeq
  | TokenType.And => Ok BAnd
  | TokenType.Or => Ok BOr
  | TokenType.Char "&" => Ok BBand
  | TokenType.Char "|" => Ok BBor
  | TokenType.Char "^" => Ok BBxor
  | TokenType.BitClear => Ok BBclear
  | TokenType.Lshift => Ok BLshift
  | TokenType.Rshift => Ok BRshift
  | _ => Panic
  end%byte.

Definition unary_type (t : TokenType.t) : result UnaryType :=
  match t with
  | TokenType.Char "+" => Ok UPlus
  | TokenType.Char "-" => Ok UMinus
  | TokenType.Char "!" => Ok UNot
  | TokenType.Char "^" => Ok UXor
  | TokenType.Char "*" => Ok UPtr
  | TokenType.Char "&" => Ok UAddr
  | TokenType.Send => Ok USend
  | _ => Panic
  end%byte.

(** [TokenType::fmt]. *)
Definition token_text (t : TokenType.t) : list byte :=
  match t with
  | TokenType.Char c => encode_char (byte_val c)
  | TokenType.Identifier => text "identifier" | TokenType.Constant => text "constant"
  | TokenType.SymPackage => text "package" | TokenType.SymImport => text "import" | TokenType.SymFunc => text "func"
  | TokenType.SymIf => text "if" | TokenType.SymElse => text "else" | TokenType.SymBreak => text "break"
  | TokenType.SymContinue => text "continue" | TokenType.SymGoto => text "goto" | TokenType.SymReturn => text "return"
  | TokenType.SymStruct => text "struct" | TokenType.SymVar => text "var" | TokenType.SymConst => text "const"
  | TokenType.SymType => text "type" | TokenType.SymFor => text "for" | TokenType.SymRange => text "range"
  | TokenType.SymNil => text "nil" | TokenType.DefAssign => text ":=" | TokenType.MultEq => text "*="
  | TokenType.DivEq => text "/=" | TokenType.LshiftEq => text "<<=" | TokenType.Lshift => text "<<"
  | TokenType.RshiftEq => text ">>=" | TokenType.Rshift => text ">>" | TokenType.PlusPlus => text "++"
  | TokenType.PlusEq => text "+=" | TokenType.MinusMinus => text "--" | TokenType.MinusEq => text "-="
  | TokenType.OrEq => text "|=" | TokenType.XorEq => text "^=" | TokenType.AndEq => text "&=" | TokenType.Lt => text "<"
  | TokenType.Le => text "<=" | TokenType.Gt => text ">" | TokenType.Ge => text ">=" | TokenType.Eq => text "=="
  | TokenType.Neq => text "!=" | TokenType.And => text "&&" | TokenType.Or => text "||" | TokenType.BitClear => text "&^"
  | TokenType.Send => text "<-" | TokenType.Eof => text "EOF"
  end.

Inductive ConstVal :=
| VString (s : list byte)
| VInt (i : Mpa.Int)
| VBool (b : bool)
| VChar (c : Z).

Record Point := mkPoint { line : Z; col : Z }.
Definition Point_default : Point := mkPoint 0 0.

Record Token := mkToken {
  tok_typ : TokenType.t;
  from : Point;
  to : Point;
  str_val : list byte;
  const_val : option ConstVal;
}.

Record Comment := mkComment { c_start : Point; c_end : Point; c_lines : list (list byte) }.
Definition Comment_default : Comment := mkComment Point_default Point_default [].

Definition keywords : list (list byte * TokenType.t) :=
  [(text "import", TokenType.SymImport); (text "const", TokenType.SymConst); (text "type", TokenType.SymType);
   (text "for", TokenType.SymFor); (text "range", TokenType.SymRange); (text "nil", TokenType.SymNil);
   (text "else", TokenType.SymElse); (text "func", TokenType.SymFunc); (text "if", TokenType.SymIf);
   (text "package", TokenType.SymPackage); (text "return", TokenType.SymReturn); (text "struct", TokenType.SymStruct);
   (text "var", TokenType.SymVar)].
Definition keyword (s : list byte) : option TokenType.t :=
  snd <$> find (fun p => bool_decide (p.1 = s)) keywords.

(** ** The state *)

(** The input, split at the position: [before] is what was read, last first. *)
Record Lexer := mkLexer {
  before : list Z;
  rest : list Z;
  point : Point;
  token_start : Point;
  ungot : option Token;
  last_comment : Comment;
}.
Definition Lexer_new (input : list Z) : Lexer :=
  mkLexer [] input (mkPoint 1 0) Point_default None Comment_default.

Definition read_char (l : Lexer) : option Z * Lexer :=
  match rest l with
  | [] => (None, l)
  | ch :: cs =>
      let p := point l in
      let p := if ch =? 10 then mkPoint (line p + 1) 0 else mkPoint (line p) (col p + 1) in
      (Some ch, mkLexer (ch :: before l) cs p (token_start l) (ungot l) (last_comment l))
  end.
Definition advance (l : Lexer) : Lexer := (read_char l).2.
Definition peek_char (l : Lexer) : option Z := head (rest l).
Definition unread_char (l : Lexer) : Lexer :=
  match before l with
  | [] => l
  | ch :: cs =>
      let p := point l in
      let p := if ch =? 10 then mkPoint (line p - 1) (col p) else mkPoint (line p) (Z.max 0 (col p - 1)) in
      mkLexer cs (ch :: rest l) p (token_start l) (ungot l) (last_comment l)
  end.
Definition start_token (l : Lexer) : Lexer :=
  mkLexer (before l) (rest l) (point l) (point l) (ungot l) (last_comment l).
Definition with_ungot (t : option Token) (l : Lexer) : Lexer :=
  mkLexer (before l) (rest l) (point l) (token_start l) t (last_comment l).
Definition token (t : TokenType.t) (l : Lexer) : Token := mkToken t (token_start l) (point l) [] None.

(** Annotations preceding a location. *)
Definition annotations (loc : Point) (l : Lexer) : option (list (list byte)) :=
  let c := last_comment l in
  if (length (c_lines c) =? 0)%nat || negb (line (c_end c) + 1 =? line loc) then None else Some (c_lines c).
Definition add_comment (cs : list Z) (loc : Point) (l : Lexer) : Lexer :=
  let c := last_comment l in
  let c := if (length (c_lines c) =? 0)%nat || negb (line (c_end c) + 1 =? line loc)
           then mkComment loc loc [encode cs]
           else mkComment (c_start c) loc (c_lines c ++ [encode cs]) in
  mkLexer (before l) (rest l) (point l) (token_start l) (ungot l) c.

(** ** Computations *)

(** An error keeps the state; [None] is a loop cut off by its fuel. *)
Definition parser (A : Type) : Type := Lexer -> option (result A * Lexer).
#[export] Instance parser_ret : MRet parser := fun _ a l => Some (Ok a, l).
#[export] Instance parser_bind : MBind parser := fun _ _ f m l =>
  match m l with
  | Some (Ok a, l) => f a l
  | Some (Err e, l) => Some (Err e, l)
  | Some (Panic, l) => Some (Panic, l)
  | None => None
  end.
Definition fail {A} : parser A := fun l => Some (Err InvalidArgument, l).
Definition endless {A} : parser A := fun _ => None.
Definition observe {A} (f : Lexer -> A) : parser A := fun l => Some (Ok (f l), l).
Definition update (f : Lexer -> Lexer) : parser unit := fun l => Some (Ok (), f l).
Definition steps {A} (f : Lexer -> A * Lexer) : parser A := fun l => let '(a, l) := f l in Some (Ok a, l).
Definition or_fail {A} (o : option A) : parser A := match o with Some a => mret a | None => fail end.
Definition from_result {A} (r : result A) : parser A := fun l => Some (r, l).

(** [self.read_char().ok_or(..)?] *)
Definition need_char : parser Z := o ← steps read_char; or_fail o.

Definition tok (t : TokenType.t) : parser Token := observe (token t).
Definition const_tok (v : ConstVal) : parser Token :=
  observe (fun l => mkToken TokenType.Constant (token_start l) (point l) [] (Some v)).

(** ** Scanning *)

Fixpoint while_loop (p : Z -> bool) (cs : list Z) (l : Lexer) : list Z * Lexer :=
  match cs with
  | c :: cs => if p c then let '(v, l) := while_loop p cs (advance l) in (c :: v, l) else ([], l)
  | [] => ([], l)
  end.
Definition read_while (p : Z -> bool) : parser (list Z) := steps (fun l => while_loop p (rest l) l).

Fixpoint line_comment (cs : list Z) (l : Lexer) : list Z * Lexer :=
  match cs with
  | c :: cs => if c =? 10 then ([], advance l) else let '(v, l) := line_comment cs (advance l) in (c :: v, l)
  | [] => ([], l)
  end.
Fixpoint block_comment (cs : list Z) (l : Lexer) : list Z * Lexer :=
  match cs with
  | c :: cs =>
      if (c =? code "*") && match cs with d :: _ => d =? code "/" | [] => false end
      then ([], advance (advance l))
      else let '(v, l) := block_comment cs (advance l) in (c :: v, l)
  | [] => ([], l)
  end.
Definition skip_comment (body : list Z -> Lexer -> list Z * Lexer) (l : Lexer) : Lexer :=
  let '(v, l') := body (rest l) l in
  add_comment v (point l) l'.

Definition hex_digit (c : Z) : option Z :=
  if is_ascii_digit c then Some (c - code "0")
  else if char_in (code "a") (code "f") c then Some (10 + c - code "a")
  else if char_in (code "A") (code "F") c then Some (10 + c - code "A") else None.
(** [n] more hexadecimal digits; octal digits. *)
Fixpoint hex_escape (n : nat) (v : Z) : parser Z :=
  match n with
  | O => mret v
  | S n => c ← need_char; d ← or_fail (hex_digit c); hex_escape n (Z.shiftl v 4 + d)
  end.
Fixpoint octal_escape (n : nat) (v : Z) : parser Z :=
  match n with
  | O => mret v
  | S n => c ← need_char; if is_octal_digit c then octal_escape n (v * 8 + (c - code "0")) else fail
  end.
Definition simple_escapes : list (byte * Z) :=
  [("a", 7); ("b", 8); ("f", 12); ("n", 10); ("r", 13); ("t", 9); ("v", 11); (x5c, 92)]%byte.
Definition read_escape : parser Z :=
  ch ← need_char;
  if negb (ch =? code x5c) then mret ch else
  ch ← need_char;
  match find (fun p => ch =? byte_val p.1) simple_escapes with
  | Some (_, v) => mret v
  | None =>
      if ch =? code "u" then hex_escape 4 0
      else if ch =? code "x" then hex_escape 2 0
      else if is_octal_digit ch then octal_escape 2 (ch - code "0")
      else fail
  end.

Fixpoint string_loop (n : nat) : parser (list Z) :=
  match n with
  | O => endless
  | S n =>
      ch ← need_char;
      if ch =? code x22 then mret []
      else if ch =? code x5c
      then _ ← update unread_char; v ← read_escape; cs ← string_loop n; mret (default (code "?") (from_u32 v) :: cs)
      else cs ← string_loop n; mret (ch :: cs)
  end.
Definition read_string : parser (list Z) := fun l => string_loop (S (length (rest l))) l.

Section lexer.
Context `{Texts}.

Definition int_parse (cs : list Z) (base : Z) : parser Mpa.Int := or_fail (Mpa.parse parse_bytes (encode cs) base).
Definition read_binary_literal : parser Mpa.Int :=
  cs ← read_while (fun c => (c =? code "0") || (c =? code "1")); int_parse cs 2.
Definition read_octal_literal : parser Mpa.Int :=
  cs ← read_while is_octal_digit;
  match cs with [] => mret (Mpa.from_i64 0 0) | _ => int_parse cs 8 end.
Definition read_hex_literal : parser Mpa.Int := cs ← read_while is_ascii_hexdigit; int_parse cs 16.

(** The longer operators that start with the character just read. *)
Definition longer (alts : list (byte * parser Token)) (t : TokenType.t) : parser Token :=
  o ← observe peek_char;
  match o ≫= (fun c => find (fun p : byte * parser Token => c =? byte_val p.1) alts) with
  | Some (_, m) => _ ← update advance; m
  | None => tok t
  end.

Definition alt (b : byte) (m : parser Token) : byte * parser Token := (b, m).
Arguments alt b%_byte_scope m.

(** Literals that start with a zero; names and keywords; decimal literals. *)
Definition scan_zero : parser Token :=
  o ← observe peek_char;
  let next a b := match o with Some c => (c =? byte_val a) || (c =? byte_val b) | None => false end in
  i ← (if next "b"%byte "B"%byte then _ ← update advance; read_binary_literal
       else if next "o"%byte "O"%byte then _ ← update advance; read_octal_literal
       else if next "x"%byte "X"%byte then _ ← update advance; read_hex_literal
       else if match o with Some c => is_octal_digit c | None => false end then read_octal_literal
       else mret (Mpa.from_i64 0 0));
  const_tok (VInt i).
Definition scan_name (ch : Z) : parser Token :=
  cs ← read_while (fun c => is_alphanumeric c || (c =? code "_"));
  let sym := encode (ch :: cs) in
  match keyword sym with
  | Some t => tok t
  | None =>
      if bool_decide (sym = text "true") || bool_decide (sym = text "false")
      then const_tok (VBool (bool_decide (sym = text "true")))
      else observe (fun l => mkToken TokenType.Identifier (token_start l) (point l) sym None)
  end.
Definition scan_number (ch : Z) : parser Token :=
  cs ← read_while is_ascii_digit; i ← int_parse (ch :: cs) 10; const_tok (VInt i).

(** The token that starts with [ch]; [again] continues after a comment. *)
Definition scan (again : parser Token) (ch : Z) : parser Token :=
  if existsb (fun b => ch =? byte_val b) (text "%(){}[],;.") then tok (TokenType.Char (byte_of ch))
  else if ch =? code "^" then longer [alt "=" (tok TokenType.XorEq)] (TokenType.Char "^")
  else if ch =? code "+" then longer [alt "+" (tok TokenType.PlusPlus); alt "=" (tok TokenType.PlusEq)] (TokenType.Char "+")
  else if ch =? code "-" then longer [alt "-" (tok TokenType.MinusMinus); alt "=" (tok TokenType.MinusEq)] (TokenType.Char "-")
  else if ch =? code "*" then longer [alt "=" (tok TokenType.MultEq)] (TokenType.Char "*")
  else if ch =? code "/" then
    longer [alt "/" (_ ← update (skip_comment line_comment); again); alt "*" (_ ← update (skip_comment block_comment); again);
            alt "=" (tok TokenType.DivEq)] (TokenType.Char "/")
  else if ch =? code "<" then
    longer [alt "=" (tok TokenType.Le); alt "<" (longer [alt "=" (tok TokenType.LshiftEq)] TokenType.Lshift); alt "-" (tok TokenType.Send)]
      TokenType.Lt
  else if ch =? code ">" then
    longer [alt "=" (tok TokenType.Ge); alt ">" (longer [alt "=" (tok TokenType.RshiftEq)] TokenType.Rshift)] TokenType.Gt
  else if ch =? code "=" then longer [alt "=" (tok TokenType.Eq)] (TokenType.Char "=")
  else if ch =? code ":" then longer [alt "=" (tok TokenType.DefAssign)] (TokenType.Char ":")
  else if ch =? code "|" then longer [alt "|" (tok TokenType.Or); alt "=" (tok TokenType.OrEq)] (TokenType.Char "|")
  else if ch =? code "&" then
    longer [alt "&" (tok TokenType.And); alt "^" (tok TokenType.BitClear); alt "=" (tok TokenType.AndEq)] (TokenType.Char "&")
  else if ch =? code x22 then cs ← read_string; const_tok (VString (encode cs))
  else if ch =? code "'" then
    v ← read_escape;
    o ← steps read_char;
    if bool_decide (o = Some (code "'")) then const_tok (VChar v) else fail
  else if ch =? code "!" then longer [alt "=" (tok TokenType.Neq)] (TokenType.Char "!")
  else if ch =? code "0" then scan_zero
  else if is_alphabetic ch || (ch =? code "_") then scan_name ch
  else if is_ascii_digit ch then scan_number ch
  else fail.

Fixpoint get_loop (n : nat) : parser Token :=
  match n with
  | O => endless
  | S n =>
      _ ← update start_token;
      o ← steps read_char;
      match o with
      | None => tok TokenType.Eof
      | Some ch => if is_whitespace ch then get_loop n else scan (get_loop n) ch
      end
  end.

(** [Lexer::get]: the pushed-back token, or the next one. *)
Definition get : parser Token := fun l =>
  match ungot l with
  | Some t => Some (Ok t, with_ungot None l)
  | None => get_loop (S (length (rest l))) l
  end.
Definition unget (t : Token) : parser unit := update (with_ungot (Some t)).
End lexer.
