(* ===== verification/QclParser.v ===== *)
(** * The parser ([quil-compiler/src/parser.rs])

    Recursive descent over the lexer, one definition per function of the source.
    The functions that call each other take the recursive call as an argument; the
    knots are tied on fuel, as are the loops. *)

From S2P Require Import Prelude.
From S2P Require Import Bytes.
From S2P Require Import QclTypes.
From S2P Require Import QclMpa.
From S2P Require Import QclSsa.
From S2P Require Import QclCircuitGen.
From S2P Require Import QclCompiler.
From S2P Require Import QclLexer.
From S2P Require Import Circuit.

Record TypeDef := mkTypeDef { td_name : list byte; td_type : Info }.

Record Package := mkPackage {
  pkg_name : list byte;
  imports : gmap (list byte) (list byte);
  functions : list FuncDef;
  types : list TypeDef;
  constants : list Stmt;
  variables : list Stmt;
}.
Definition Package_new (name : list byte) : Package := mkPackage name ∅ [] [] [] [].

Module Parser.
Section parser.
Context `{Texts}.

(** ** Helpers *)

Definition is_tok (t : TokenType.t) (k : Token) : bool := bool_decide (tok_typ k = t).
Definition expect (t : TokenType.t) : parser Token := k ← get; if is_tok t k then mret k else fail.
Definition expect_ident : parser Token := expect TokenType.Identifier.
Definition peek_is_any (ts : list TokenType.t) : parser bool :=
  k ← get; _ ← unget k; mret (bool_decide (tok_typ k ∈ ts)).
Definition peek_is (t : TokenType.t) : parser bool := k ← get; _ ← unget k; mret (is_tok t k).

(** [result.ok()]: an error is forgotten, what it consumed is not put back. *)
Definition ok {A} (m : parser A) : parser (option A) := fun l =>
  match m l with
  | Some (Ok a, l) => Some (Ok (Some a), l)
  | Some (Err _, l) => Some (Ok None, l)
  | Some (Panic, l) => Some (Panic, l)
  | None => None
  end.

(** ** Types *)

Definition with_offset (t : Info) (o : Z) : Info :=
  mkInfo (info_id t) (typ t) (is_concrete t) (bits t) (min_bits t) (fields t) (element_type t) (array_size t) o.

(** The fields of a struct.  A token that is no identifier is skipped, the end of
    the input included. *)
Fixpoint struct_loop (parse_type : parser Info) (n : nat) (fs : list (list byte * Info)) (size : Z) : parser Info :=
  match n with
  | O => endless
  | S n =>
      k ← get;
      if is_tok (TokenType.Char "}") k then mret (mkInfo 0 TStruct true size 0 fs None 0 0)
      else if is_tok TokenType.Identifier k then
        fi ← parse_type;
        struct_loop parse_type n (fs ++ [(str_val k, with_offset fi size)]) (as_i32 (size + bits fi))
      else struct_loop parse_type n fs size
  end.

Fixpoint parse_type (n : nat) : parser Info :=
  match n with
  | O => endless
  | S n =>
      k ← get;
      if is_tok TokenType.Identifier k then from_result (QclTypes.parse_type (str_val k))
      else if is_tok (TokenType.Char "[") k then
        k2 ← get;
        if is_tok (TokenType.Char "]") k2 then elem ← parse_type n; mret (slice_of elem)
        else match const_val k2 with
             | Some (VInt size) =>
                 _ ← expect (TokenType.Char "]");
                 elem ← parse_type n;
                 mret (array_of (as_i32 (Mpa.int64 size)) elem)
             | _ => fail
             end
      else if is_tok (TokenType.Char "*") k then elem ← parse_type n; mret (ptr_to elem)
      else if is_tok TokenType.SymStruct k then _ ← expect (TokenType.Char "{"); struct_loop (parse_type n) n [] 0
      else fail
  end.

(** ** Parameters *)

Abbreviation Params := (list (list byte * Info)) (only parsing).

(** The names before a type: what is left to be given a type, and the parameters. *)
Fixpoint names_loop (n : nat) (names : list (list byte)) (ps : Params) : parser (list (list byte) * Params) :=
  match n with
  | O => endless
  | S n =>
      next ← get;
      if is_tok (TokenType.Char ",") next then
        name_tok ← get;
        if is_tok TokenType.Identifier name_tok then
          peek ← get;
          _ ← unget peek;
          match is_tok (TokenType.Char ",") peek || is_tok TokenType.Identifier peek, QclTypes.parse_type (str_val name_tok) with
          | true, Ok t => mret ([], ps ++ ((fun name => (name, t)) <$> names))
          | _, _ => names_loop n (names ++ [str_val name_tok]) ps
          end
        else _ ← unget name_tok; mret (names, ps)
      else _ ← unget next; mret (names, ps)
  end.

Fixpoint params_loop (n : nat) (ps : Params) : parser Params :=
  match n with
  | O => endless
  | S n =>
      k ← get;
      if is_tok (TokenType.Char ",") k then params_loop n ps
      else if is_tok TokenType.Identifier k then
        '(names, ps) ← names_loop n [str_val k] ps;
        match names with
        | [] => params_loop n ps
        | _ => t ← parse_type n; params_loop n (ps ++ ((fun name => (name, t)) <$> names))
        end
      else _ ← unget k; mret ps
  end.
Definition parse_param_list (n : nat) : parser Params := params_loop n [].

Definition parse_return_types (n : nat) : parser Params :=
  k ← get;
  if is_tok (TokenType.Char "{") k then _ ← unget k; mret []
  else if is_tok (TokenType.Char "(") k then ts ← parse_param_list n; _ ← expect (TokenType.Char ")"); mret ts
  else _ ← unget k; t ← parse_type n; mret [([], t)].

Definition parse_type_def (n : nat) : parser TypeDef :=
  name_tok ← expect_ident;
  t ← parse_type n;
  mret (mkTypeDef (str_val name_tok) t).

(** ** Expressions *)

Section expressions.
(** [parse_expr], and the fuel of the loops. *)
Context (parse_expr : parser Expr) (n : nat).

(** [while self.peek_is(',')? {..}] up to the closing [end]. *)
Fixpoint list_loop (n : nat) (close : TokenType.t) (es : list Expr) : parser (list Expr) :=
  match n with
  | O => endless
  | S n =>
      b ← peek_is (TokenType.Char ",");
      if (b : bool) then
        _ ← get;
        b ← peek_is close;
        if (b : bool) then mret es else e ← parse_expr; list_loop n close (es ++ [e])
      else mret es
  end.
Definition parse_expr_list (close : TokenType.t) : parser (list Expr) :=
  b ← peek_is close;
  if (b : bool) then _ ← get; mret []
  else e ← parse_expr; es ← list_loop n close [e]; _ ← expect close; mret es.

Definition const_expr (v : ConstVal) : Expr :=
  match v with
  | VInt i => EConstant (CInt i) (scalar TInt true (Z.max (Mpa.int_bits i) 32) (as_i32 (Mpa.bit_len i)))
  | VBool b => EConstant (CBool b) Info_bool
  | VString s => EConstant (CString s) (scalar TString true (as_i32 (as_i32 (Z.of_nat (length s)) * 8)) 0)
  | VChar c => EConstant (CInt (Mpa.from_i64 c 32)) Info_rune
  end.

Definition parse_primary_expr : parser Expr :=
  k ← get;
  if is_tok TokenType.Constant k then match const_val k with Some v => mret (const_expr v) | None => fail end
  else if is_tok TokenType.Identifier k then mret (EVariableRef (str_val k) Info_default)
  else if is_tok TokenType.SymNil k then mret (EConstant CNil Info_nil)
  else if is_tok (TokenType.Char "(") k then e ← parse_expr; _ ← expect (TokenType.Char ")"); mret e
  else fail.

Fixpoint postfix_loop (n : nat) (e : Expr) : parser Expr :=
  match n with
  | O => endless
  | S n =>
      k ← get;
      if is_tok (TokenType.Char "(") k then
        match e with
        | EVariableRef name _ =>
            args ← parse_expr_list (TokenType.Char ")");
            postfix_loop n (ECall name args Info_default)
        | _ => fail
        end
      else if is_tok (TokenType.Char "[") k then
        i ← parse_expr;
        _ ← expect (TokenType.Char "]");
        postfix_loop n (EIndex e i Info_default)
      else if is_tok (TokenType.Char ".") k then
        name_tok ← expect_ident;
        postfix_loop n (EDot e (str_val name_tok) Info_default)
      else _ ← unget k; mret e
  end.
Definition parse_postfix_expr : parser Expr := e ← parse_primary_expr; postfix_loop n e.

Definition is_unary (t : TokenType.t) : bool :=
  bool_decide (t ∈ [TokenType.Char "-"; TokenType.Char "+"; TokenType.Char "!"; TokenType.Char "^"; TokenType.Char "*";
                    TokenType.Char "&"]).
Fixpoint unary_loop (n : nat) : parser Expr :=
  match n with
  | O => endless
  | S n =>
      k ← get;
      if is_unary (tok_typ k)
      then op ← from_result (unary_type (tok_typ k)); e ← unary_loop n; mret (EUnary op e Info_default)
      else _ ← unget k; parse_postfix_expr
  end.
Definition parse_unary_expr : parser Expr := unary_loop n.

(** A left-associative level: operands of the next level joined by the operators
    that [op] names, with results of type [t]. *)
Fixpoint level_loop (op : TokenType.t -> option BinaryType) (t : Info) (operand : parser Expr) (n : nat) (e : Expr) : parser Expr :=
  match n with
  | O => endless
  | S n =>
      k ← get;
      match op (tok_typ k) with
      | Some o => r ← operand; level_loop op t operand n (EBinary o e r t)
      | None => _ ← unget k; mret e
      end
  end.
Definition level (op : TokenType.t -> option BinaryType) (t : Info) (operand : parser Expr) : parser Expr :=
  e ← operand; level_loop op t operand n e.

Definition operator (ops : list (TokenType.t * BinaryType)) (t : TokenType.t) : option BinaryType :=
  snd <$> find (fun p => bool_decide (p.1 = t)) ops.
Definition shift_op := operator [(TokenType.Lshift, BLshift); (TokenType.Rshift, BRshift)].
Definition mul_op := operator
  [(TokenType.Char "*", BMul); (TokenType.Char "/", BDiv); (TokenType.Char "%", BMod); (TokenType.Char "&", BBand);
   (TokenType.BitClear, BBclear)].
Definition add_op := operator
  [(TokenType.Char "+", BAdd); (TokenType.Char "-", BSub); (TokenType.Char "|", BBor); (TokenType.Char "^", BBxor)].
Definition comparison_op := operator
  [(TokenType.Eq, BEq); (TokenType.Neq, BNeq); (TokenType.Lt, BLt); (TokenType.Le, BLe); (TokenType.Gt, BGt); (TokenType.Ge, BGe)].
Definition and_op := operator [(TokenType.And, BAnd)].
Definition or_op := operator [(TokenType.Or, BOr)].

Definition parse_shift_expr : parser Expr := level shift_op Info_default parse_unary_expr.
Definition parse_mul_expr : parser Expr := level mul_op Info_default parse_shift_expr.
Definition parse_add_expr : parser Expr := level add_op Info_default parse_mul_expr.
Definition parse_comparison_expr : parser Expr := level comparison_op Info_bool parse_add_expr.
Definition parse_and_expr : parser Expr := level and_op Info_bool parse_comparison_expr.
Definition parse_or_expr : parser Expr := level or_op Info_bool parse_and_expr.
End expressions.

Fixpoint parse_expr (n : nat) : parser Expr :=
  match n with O => endless | S n => parse_or_expr (parse_expr n) n end.

(** ** Statements *)

(** [var] and [const] take the next token for their location and push back an
    identifier without a name in its place. *)
Definition name_here : parser Token :=
  k ← get;
  _ ← unget (mkToken TokenType.Identifier (from k) (from k) [] None);
  expect_ident.

Definition parse_var (n : nat) : parser Stmt :=
  name_tok ← name_here;
  t ← ok (parse_type n);
  b ← peek_is (TokenType.Char "=");
  init ← (if (b : bool) then _ ← get; e ← parse_expr n; mret [e] else mret []);
  mret (SVar [str_val name_tok] t init).

Definition parse_const (n : nat) : parser Stmt :=
  name_tok ← name_here;
  t ← ok (parse_type n);
  _ ← expect (TokenType.Char "=");
  init ← parse_expr n;
  mret (SConst (str_val name_tok) t init).

Definition compound_op := operator
  [(TokenType.PlusEq, BAdd); (TokenType.MinusEq, BSub); (TokenType.MultEq, BMul); (TokenType.DivEq, BDiv);
   (TokenType.AndEq, BBand); (TokenType.OrEq, BBor); (TokenType.XorEq, BBxor); (TokenType.LshiftEq, BLshift);
   (TokenType.RshiftEq, BRshift)].

(** An expression and what follows it. *)
Definition parse_simple_stmt (n : nat) : parser Stmt :=
  e ← parse_expr n;
  next ← get;
  if is_tok TokenType.DefAssign next then
    match e with
    | EVariableRef name _ => v ← parse_expr n; mret (SShortDecl [name] [v])
    | _ => fail
    end
  else if is_tok (TokenType.Char "=") next then v ← parse_expr n; mret (SAssign [e] [v])
  else if is_tok TokenType.PlusPlus next then mret (SIncrement e)
  else if is_tok TokenType.MinusMinus next then mret (SDecrement e)
  else match compound_op (tok_typ next) with
       | Some op => v ← parse_expr n; mret (SCompoundAssign op e v)
       | None => _ ← unget next; mret (SExprStmt e)
       end.

Fixpoint values_loop (n m : nat) (es : list Expr) : parser (list Expr) :=
  match n with
  | O => endless
  | S n =>
      b ← peek_is (TokenType.Char ",");
      if (b : bool) then _ ← get; e ← parse_expr m; values_loop n m (es ++ [e]) else mret es
  end.
Definition parse_return (n : nat) : parser Stmt :=
  b ← peek_is_any [TokenType.Char "}"; TokenType.Eof; TokenType.Char ";"];
  if (b : bool) then mret (SReturn []) else e ← parse_expr n; es ← values_loop n n [e]; mret (SReturn es).

Section statements.
Context (parse_stmt : parser Stmt) (n : nat).

Fixpoint block_loop (n : nat) (body : list Stmt) : parser (list Stmt) :=
  match n with
  | O => endless
  | S n =>
      k ← get;
      if is_tok (TokenType.Char "}") k || is_tok TokenType.Eof k then mret body
      else _ ← unget k; st ← parse_stmt; block_loop n (body ++ [st])
  end.
Definition parse_block_body : parser (list Stmt) := block_loop n [].

Fixpoint if_loop (m : nat) : parser Stmt :=
  match m with
  | O => endless
  | S m =>
      cond ← parse_expr n;
      _ ← expect (TokenType.Char "{");
      body ← parse_block_body;
      b ← peek_is TokenType.SymElse;
      else_body ← (if (b : bool) then
                     _ ← get;
                     b ← peek_is TokenType.SymIf;
                     if (b : bool) then _ ← get; st ← if_loop m; mret [st]
                     else _ ← expect (TokenType.Char "{"); parse_block_body
                   else mret []);
      mret (SIf None cond body else_body)
  end.
Definition parse_if : parser Stmt := if_loop n.

(** [if !self.peek_is(..)? { Some(m?) } else { None }] *)
Definition unless {A} (ts : list TokenType.t) (m : parser A) : parser (option A) :=
  b ← peek_is_any ts;
  if (b : bool) then mret None else a ← m; mret (Some a).

Definition parse_for : parser Stmt :=
  b ← peek_is TokenType.SymRange;
  if (b : bool) then
    _ ← get;
    e ← parse_expr n;
    _ ← expect (TokenType.Char "{");
    body ← parse_block_body;
    mret (SForRange None None e body)
  else
  init ← unless [TokenType.Char ";"; TokenType.Char "{"] parse_stmt;
  b ← peek_is (TokenType.Char "{");
  if (b : bool) then _ ← get; body ← parse_block_body; mret (SFor init None None body)
  else
  _ ← expect (TokenType.Char ";");
  cond ← unless [TokenType.Char ";"] (parse_expr n);
  _ ← expect (TokenType.Char ";");
  post ← unless [TokenType.Char "{"] parse_stmt;
  _ ← expect (TokenType.Char "{");
  body ← parse_block_body;
  mret (SFor init cond post body).

Definition stmt_step : parser Stmt :=
  k ← get;
  if is_tok TokenType.SymVar k then parse_var n
  else if is_tok TokenType.SymReturn k then parse_return n
  else if is_tok TokenType.SymIf k then parse_if
  else if is_tok TokenType.SymFor k then parse_for
  else if is_tok (TokenType.Char "{") k then body ← parse_block_body; mret (SBlock body)
  else _ ← unget k; parse_simple_stmt n.
End statements.

Fixpoint parse_stmt (n : nat) : parser Stmt :=
  match n with O => endless | S n => stmt_step (parse_stmt n) n end.

(** ** Declarations *)

Definition parse_func (n : nat) (notes : list (list byte)) : parser FuncDef :=
  name_tok ← expect_ident;
  _ ← expect (TokenType.Char "(");
  ps ← parse_param_list n;
  _ ← expect (TokenType.Char ")");
  rs ← parse_return_types n;
  _ ← expect (TokenType.Char "{");
  body ← parse_block_body (parse_stmt n) n;
  mret (mkFuncDef (str_val name_tok) ps rs body notes).

(** The name an import goes by: its path from the last slash. *)
Definition last_segment (path : list byte) : list byte :=
  foldl (fun acc b => if bool_decide (b = x2f) then [] else acc ++ [b]) [] path.
Definition add_import (path : list byte) (p : Package) : Package :=
  mkPackage (pkg_name p) (<[last_segment path := path]> (imports p)) (functions p) (types p) (constants p) (variables p).

Fixpoint import_loop (n : nat) (p : Package) : parser Package :=
  match n with
  | O => endless
  | S n =>
      k ← get;
      if is_tok (TokenType.Char ")") k then mret p
      else match const_val k with Some (VString path) => import_loop n (add_import path p) | _ => fail end
  end.
Definition parse_import (n : nat) (p : Package) : parser Package :=
  k ← get;
  if is_tok (TokenType.Char "(") k then import_loop n p
  else match const_val k with Some (VString path) => mret (add_import path p) | _ => fail end.

Fixpoint decl_loop (n m : nat) (p : Package) : parser Package :=
  match n with
  | O => endless
  | S n =>
      k ← get;
      if is_tok TokenType.Eof k then mret p
      else if is_tok TokenType.SymImport k then p ← parse_import m p; decl_loop n m p
      else if is_tok TokenType.SymFunc k then
        notes ← observe (annotations (from k));
        f ← parse_func m (default [] notes);
        decl_loop n m (mkPackage (pkg_name p) (imports p) (functions p ++ [f]) (types p) (constants p) (variables p))
      else if is_tok TokenType.SymType k then
        td ← parse_type_def m;
        decl_loop n m (mkPackage (pkg_name p) (imports p) (functions p) (types p ++ [td]) (constants p) (variables p))
      else if is_tok TokenType.SymVar k then
        st ← parse_var m;
        decl_loop n m (mkPackage (pkg_name p) (imports p) (functions p) (types p) (constants p) (variables p ++ [st]))
      else if is_tok TokenType.SymConst k then
        st ← parse_const m;
        decl_loop n m (mkPackage (pkg_name p) (imports p) (functions p) (types p) (constants p ++ [st]) (variables p))
      else fail
  end.

Definition parse (n : nat) (p : Package) : parser Package :=
  _ ← expect TokenType.SymPackage;
  name_tok ← expect_ident;
  decl_loop n n (mkPackage (str_val name_tok) (imports p) (functions p) (types p) (constants p) (variables p)).
End parser.
End Parser.

(** [Compiler::compile]: the whole pipeline on a text; [None] when the parser does
    not end within [n] steps. *)
Definition compile_source `{Texts} (n : nat) (source : list Z) (input_sizes : list (list Z)) : option (result Circuit) :=
  match Parser.parse n (Package_new (text "main")) (Lexer_new source) with
  | Some (r, _) => Some (p ← r; compile false (functions p) input_sizes)
  | None => None
  end.
