(* ===== verification/QclTerminate.v ===== *)
(** * The lexer and the parser end, and never panic

    Every token but the end of the input consumes a character; every loop of the
    parser consumes a token, except the one over the fields of a struct, which does
    not stop at the end of the input.  So a source without the word [struct] is
    parsed within as many steps as it has characters, and an unterminated struct
    is never done with. *)

From S2P Require Import Prelude.
From S2P Require Import Bytes.
From S2P Require Import QclTypes.
From S2P Require Import QclMpa.
From S2P Require Import QclSsa.
From S2P Require Import QclCompiler.
From S2P Require Import QclLexer.
From S2P Require Import QclParser.

(** ** Text *)

Definition chars (s : string) : list Z := byte_val <$> text s.
(** A character is a code point. *)
Definition is_char (c : Z) : Prop := 0 <= c < 0x110000.
Definition contains (w cs : list Z) : Prop := exists a b, cs = a ++ w ++ b.

Lemma contains_suffix w cs cs' : cs' `suffix_of` cs -> contains w cs' -> contains w cs.
Proof. intros [a ->] (b & c & ->). exists (a ++ b), c. by rewrite <- app_assoc. Qed.

(** Only ASCII characters are encoded by ASCII bytes. *)
Lemma encode_ascii cs bs : Forall is_char cs -> Forall (fun b => byte_val b < 128) bs -> encode cs = bs -> cs = byte_val <$> bs.
Proof.
  intros Hc. revert bs. induction Hc as [|c cs Hc _ IH]; intros bs Hb E; [by subst|]. unfold is_char in Hc.
  unfold encode in E. cbn [mbind list_bind] in E. fold (encode cs) in E. unfold encode_char in E.
  destruct (Z.ltb_spec c 0x80) as [H0|H0].
  { destruct bs as [|b bs]; [done|]. injection E as <- E. apply Forall_cons in Hb as [_ Hb].
    cbn [fmap list_fmap]. rewrite byte_val_of, Z.mod_small by lia. by rewrite (IH bs Hb E). }
  assert (forall h rest, 0xc0 <= h < 256 -> byte_of h :: rest = bs -> False) as Hbad.
  { intros h rest Hh <-. apply Forall_cons in Hb as [Hb _]. rewrite byte_val_of, Z.mod_small in Hb by lia. lia. }
  destruct (Z.ltb_spec c 0x800); [|destruct (Z.ltb_spec c 0x10000)]; cbn [app] in E;
    (exfalso; eapply Hbad; [|exact E]); pose proof (Z.div_pos c 64); pose proof (Z.div_pos c 4096); pose proof (Z.div_pos c 262144);
    pose proof (Z.div_lt_upper_bound c 64 32); pose proof (Z.div_lt_upper_bound c 4096 16);
    pose proof (Z.div_lt_upper_bound c 262144 8); lia.
Qed.

Section terminate.
Context `{Texts}.

(** ** The lexer *)

(** From [l] the computation ends with the state at a later position, [Q] holds of
    what it returns, and it does not panic. *)
Definition lexes {A} (m : parser A) (l : Lexer) (Q : A -> Lexer -> Prop) : Prop :=
  exists r l', m l = Some (r, l') /\ ungot l' = None /\ rest l' `suffix_of` rest l /\
    match r with Ok a => Q a l' | Err _ => True | Panic => False end.

Lemma lexes_bind {A B} (m : parser A) (f : A -> parser B) l Q R : lexes m l Q ->
  (forall a l', ungot l' = None -> rest l' `suffix_of` rest l -> Q a l' -> lexes (f a) l' R) -> lexes (m ≫= f) l R.
Proof.
  intros (r & l1 & E & Hu & Hs & HQ) Hf. unfold lexes, mbind, parser_bind. rewrite E. destruct r as [a|e|]; [|by exists (Err e), l1|done].
  destruct (Hf a l1 Hu Hs HQ) as (r2 & l2 & E2 & Hu2 & Hs2 & HR). exists r2, l2. split_and!; [done|done|by etrans|done].
Qed.
Lemma lexes_post {A} (m : parser A) l (Q R : A -> Lexer -> Prop) : lexes m l Q ->
  (forall a l', rest l' `suffix_of` rest l -> Q a l' -> R a l') -> lexes m l R.
Proof.
  intros (r & l1 & E & Hu & Hs & HQ) HR. exists r, l1. split_and!; [done|done|done|]. destruct r; [by apply HR|done|done].
Qed.

Lemma lexes_ret {A} (a : A) l (Q : A -> Lexer -> Prop) : ungot l = None -> Q a l -> lexes (mret a) l Q.
Proof. intros Hu HQ. by exists (Ok a), l. Qed.
Lemma lexes_fail {A} l (Q : A -> Lexer -> Prop) : ungot l = None -> lexes fail l Q.
Proof. intros Hu. by exists (Err InvalidArgument), l. Qed.
Lemma lexes_observe {A} (f : Lexer -> A) l (Q : A -> Lexer -> Prop) : ungot l = None -> Q (f l) l -> lexes (observe f) l Q.
Proof. intros Hu HQ. by exists (Ok (f l)), l. Qed.
Lemma lexes_or_fail {A} (o : option A) l (Q : A -> Lexer -> Prop) : ungot l = None ->
  (forall a, o = Some a -> Q a l) -> lexes (or_fail o) l Q.
Proof. intros Hu HQ. destruct o; [apply lexes_ret; auto|by apply lexes_fail]. Qed.

Lemma advance_cons c cs l : rest l = c :: cs -> rest (advance l) = cs /\ ungot (advance l) = ungot l.
Proof. intros E. unfold advance, read_char. by rewrite E. Qed.
Lemma advance_suffix l : ungot (advance l) = ungot l /\ rest (advance l) `suffix_of` rest l.
Proof.
  destruct (rest l) as [|c cs] eqn:E; [unfold advance, read_char; rewrite E; cbn; by rewrite E|].
  destruct (advance_cons c cs l E) as [-> ->]. split; [done|]. by exists [c].
Qed.
Lemma lexes_advance l (Q : unit -> Lexer -> Prop) : ungot l = None -> Q () (advance l) -> lexes (update advance) l Q.
Proof. intros Hu HQ. exists (Ok ()), (advance l). destruct (advance_suffix l) as [E Hs]. by rewrite E. Qed.

Lemma lexes_read l (Q : option Z -> Lexer -> Prop) : ungot l = None ->
  (rest l = [] -> Q None l) -> (forall c cs, rest l = c :: cs -> Q (Some c) (advance l)) -> lexes (steps read_char) l Q.
Proof.
  intros Hu H1 H2. unfold lexes, steps, advance, read_char in *. destruct (rest l) as [|c cs] eqn:E.
  - exists (Ok None), l. by rewrite E; auto.
  - eexists (Ok (Some c)), _. split_and!; [done|done|by exists [c]|by apply (H2 c cs)].
Qed.
Lemma lexes_need l (Q : Z -> Lexer -> Prop) : ungot l = None ->
  (forall c cs, rest l = c :: cs -> Q c (advance l)) -> lexes need_char l Q.
Proof.
  intros Hu HQ. unfold need_char. eapply (lexes_bind _ _ _ (fun o l' => forall c, o = Some c -> Q c l')).
  - apply lexes_read; [done|by intros|]. intros c cs E ? [= <-]. by eapply HQ.
  - intros o l' Hu' _ Ho. by apply lexes_or_fail.
Qed.

Lemma while_loop_spec p cs l v l' : rest l = cs -> while_loop p cs l = (v, l') -> cs = v ++ rest l' /\ ungot l' = ungot l.
Proof.
  revert l v l'. induction cs as [|c cs IH]; intros l v l' El E; cbn [while_loop] in E.
  - injection E as <- <-. by rewrite El.
  - destruct (p c); [|by injection E as <- <-; rewrite El].
    destruct (advance_cons c cs l El) as [Ea Eu]. destruct (while_loop p cs (advance l)) as [v1 l1] eqn:E1.
    injection E as <- <-. destruct (IH _ _ _ Ea E1) as [-> Hu]. split; [done|congruence].
Qed.
Lemma lexes_while p l (Q : list Z -> Lexer -> Prop) : ungot l = None ->
  (forall cs l', rest l = cs ++ rest l' -> Q cs l') -> lexes (read_while p) l Q.
Proof.
  intros Hu HQ. unfold lexes, read_while, steps. destruct (while_loop p (rest l) l) as [v l'] eqn:E.
  destruct (while_loop_spec p _ _ _ _ eq_refl E) as [Er Eu]. exists (Ok v), l'. split_and!; [done|by rewrite Eu|by exists v|by apply HQ].
Qed.

Lemma line_comment_suffix cs l : rest l = cs -> ungot (line_comment cs l).2 = ungot l /\ rest (line_comment cs l).2 `suffix_of` rest l.
Proof.
  revert l. induction cs as [|c cs IH]; intros l El; cbn [line_comment]; [done|]. destruct (advance_suffix l) as [Eu Hs].
  destruct (c =? 10); [done|]. destruct (advance_cons c cs l El) as [Ea _]. specialize (IH (advance l) Ea).
  destruct (line_comment cs (advance l)) as [v l']. destruct IH as [IH1 IH2]. cbn [snd] in *. split; [congruence|by etrans].
Qed.
Lemma block_comment_suffix cs l : rest l = cs -> ungot (block_comment cs l).2 = ungot l /\ rest (block_comment cs l).2 `suffix_of` rest l.
Proof.
  revert l. induction cs as [|c cs IH]; intros l El; cbn [block_comment]; [done|]. destruct (advance_suffix l) as [Eu Hs].
  destruct (_ && _).
  { destruct (advance_suffix (advance l)) as [Eu2 Hs2]. split; [cbn; congruence|cbn; by etrans]. }
  destruct (advance_cons c cs l El) as [Ea _]. specialize (IH (advance l) Ea).
  destruct (block_comment cs (advance l)) as [v l']. destruct IH as [IH1 IH2]. cbn [snd] in *. split; [congruence|by etrans].
Qed.
Lemma lexes_skip body l (Q : unit -> Lexer -> Prop) : ungot l = None ->
  (forall l, ungot (body (rest l) l).2 = ungot l /\ rest (body (rest l) l).2 `suffix_of` rest l) ->
  (forall l', rest l' `suffix_of` rest l -> Q () l') -> lexes (update (skip_comment body)) l Q.
Proof.
  intros Hu Hb HQ. unfold lexes, update, skip_comment. specialize (Hb l). destruct (body (rest l) l) as [v l'].
  destruct Hb as [H1 H2]. eexists (Ok ()), _. split_and!; [done|cbn in *; congruence|done|by apply HQ].
Qed.

(** Escapes and literals. *)
Definition any {A} (_ : A) (_ : Lexer) : Prop := True.

Lemma lexes_hex n v l : ungot l = None -> lexes (hex_escape n v) l any.
Proof.
  revert v l. induction n as [|n IH]; intros v l Hu; cbn [hex_escape]; [by apply lexes_ret|].
  apply (lexes_bind _ _ _ any); [by apply lexes_need|]. intros c l1 Hu1 _ _.
  apply (lexes_bind _ _ _ any); [by apply lexes_or_fail|]. intros d l2 Hu2 _ _. by apply IH.
Qed.
Lemma lexes_octal n v l : ungot l = None -> lexes (octal_escape n v) l any.
Proof.
  revert v l. induction n as [|n IH]; intros v l Hu; cbn [octal_escape]; [by apply lexes_ret|].
  apply (lexes_bind _ _ _ any); [by apply lexes_need|]. intros c l1 Hu1 _ _.
  destruct (is_octal_digit c); [by apply IH|by apply lexes_fail].
Qed.

(** The rest of [read_escape] after its first character. *)
Lemma lexes_after_escape l : ungot l = None -> lexes (
  ch ← need_char;
  match find (fun p => ch =? byte_val p.1) simple_escapes with
  | Some (_, v) => mret v
  | None =>
      if ch =? code "u" then hex_escape 4 0
      else if ch =? code "x" then hex_escape 2 0
      else if is_octal_digit ch then octal_escape 2 (ch - code "0")
      else fail
  end) l any.
Proof.
  intros Hu. apply (lexes_bind _ _ _ any); [by apply lexes_need|]. intros ch l1 Hu1 _ _.
  destruct (find _ _) as [[b v]|]; [by apply lexes_ret|].
  destruct (ch =? code "u"); [by apply lexes_hex|]. destruct (ch =? code "x"); [by apply lexes_hex|].
  destruct (is_octal_digit ch); [by apply lexes_octal|by apply lexes_fail].
Qed.
Lemma lexes_escape l : ungot l = None -> lexes read_escape l any.
Proof.
  intros Hu. apply (lexes_bind _ _ _ any); [by apply lexes_need|]. intros ch l1 Hu1 _ _.
  destruct (negb _); [by apply lexes_ret|by apply lexes_after_escape].
Qed.

Lemma lexes_reread l cs : ungot l = None -> rest l = code x5c :: cs ->
  lexes (_ ← update unread_char; read_escape) (advance l) any.
Proof.
  intros Hu E. set (u := unread_char (advance l)).
  assert (rest u = code x5c :: cs /\ ungot u = None) as [Er Eu].
  { unfold u, unread_char, advance, read_char. rewrite E. done. }
  destruct (advance_cons _ _ u Er) as [Ea Eau]. destruct (advance_cons _ _ l E) as [El _].
  destruct (lexes_after_escape (advance u)) as (r & l' & E' & Hu' & Hs & Hr); [congruence|].
  exists r, l'. split_and!; [|done|by rewrite El, <- Ea|done]. rewrite <- E'.
  unfold mbind, parser_bind, update. fold u. unfold read_escape, need_char, mbind, parser_bind, steps.
  assert (read_char u = (Some (code x5c), advance u)) as -> by (unfold advance, read_char; by rewrite Er). done.
Qed.

Lemma lexes_string_loop n l : ungot l = None -> (length (rest l) < n)%nat -> lexes (string_loop n) l any.
Proof.
  revert l. induction n as [|n IH]; intros l Hu Hn; [lia|]. cbn [string_loop].
  apply (lexes_bind _ _ _ (fun c l' => exists cs, rest l = c :: cs /\ l' = advance l)); [apply lexes_need; [done|by eauto]|].
  intros c l1 Hu1 _ (cs & E & ->). destruct (advance_cons c cs l E) as [Ea _]. rewrite E in Hn. cbn [length] in Hn.
  destruct (c =? code x22); [by apply lexes_ret|]. destruct (Z.eqb_spec c (code x5c)) as [->|_].
  - assert (lexes (v ← (_ ← update unread_char; read_escape); cs0 ← string_loop n; mret (default (code "?") (from_u32 v) :: cs0))
      (advance l) any) as Hx.
    { apply (lexes_bind _ _ _ any); [by apply (lexes_reread l cs)|]. intros v l2 Hu2 Hs2 _. apply suffix_length in Hs2.
      rewrite Ea in Hs2. apply (lexes_bind _ _ _ any); [apply IH; [done|lia]|]. intros. by apply lexes_ret. }
    destruct Hx as (r & l2 & E2 & H2). exists r, l2. by rewrite <- E2.
  - apply (lexes_bind _ _ _ any); [apply IH; [done|rewrite Ea; lia]|]. intros. by apply lexes_ret.
Qed.

Lemma lexes_int cs base l : ungot l = None -> lexes (int_parse cs base) l any.
Proof. intros Hu. by apply lexes_or_fail. Qed.
Lemma lexes_literals l : ungot l = None ->
  lexes read_binary_literal l any /\ lexes read_octal_literal l any /\ lexes read_hex_literal l any.
Proof.
  intros Hu. split_and!; (apply (lexes_bind _ _ _ any); [by apply lexes_while|]); intros cs l1 Hu1 _ _; [by apply lexes_int| |by apply lexes_int].
  destruct cs; [by apply lexes_ret|by apply lexes_int].
Qed.

(** ** Tokens *)

Lemma lexes_longer alts t l (Q : Token -> Lexer -> Prop) : ungot l = None ->
  Forall (fun p => lexes p.2 (advance l) Q) alts -> Q (token t l) l -> lexes (longer alts t) l Q.
Proof.
  intros Hu Ha Ht. apply (lexes_bind _ _ _ (fun o l' => l' = l)); [by apply lexes_observe|].
  intros o ? _ _ ->. destruct (o ≫= _) as [[b m]|] eqn:E.
  - assert (lexes m (advance l) Q) as Hm.
    { destruct o as [c|]; [|done]. cbn in E. apply find_some in E as [E _]. rewrite Forall_forall in Ha.
      apply (Ha (b, m)). by apply list_elem_of_In. }
    apply (lexes_bind _ _ _ (fun _ l' => l' = advance l)); [by apply lexes_advance|]. by intros [] ? _ _ ->.
  - by apply lexes_observe.
Qed.

(** What a token tells of the text it was read from. *)
Definition from_text (cs : list Z) (t : Token) (_ : Lexer) : Prop :=
  (tok_typ t = TokenType.Eof -> const_val t = None) /\
  (tok_typ t = TokenType.SymStruct -> Forall is_char cs -> contains (chars "struct") cs).

(** A token of a text without structs. *)
Definition plain (t : Token) : Prop :=
  (tok_typ t = TokenType.Eof -> const_val t = None) /\ tok_typ t <> TokenType.SymStruct.

Lemma keyword_struct s : keyword s = Some TokenType.SymStruct -> s = text "struct".
Proof.
  unfold keyword. destruct (find _ keywords) as [[k t]|] eqn:E; [|done]. intros [= ->].
  apply find_some in E as [E Hk]. apply bool_decide_eq_true in Hk. cbn in Hk. subst k.
  apply list_elem_of_In in E. unfold keywords in E.
  repeat (apply elem_of_cons in E as [E|E]; [first [discriminate E|by injection E]|]). by apply elem_of_nil in E.
Qed.

Lemma lexes_plain (f : Lexer -> Token) l cs : ungot l = None -> plain (f l) ->
  lexes (observe f) l (from_text cs).
Proof. intros Hu [H1 H2]. apply lexes_observe; [done|]. split; [done|]. by intros ?. Qed.
Lemma lexes_const {A} (m : parser A) (f : A -> ConstVal) l cs : lexes m l any ->
  lexes (a ← m; const_tok (f a)) l (from_text cs).
Proof. intros Hm. apply (lexes_bind _ _ _ any); [done|]. intros a l' Hu _ _. by apply lexes_plain. Qed.

Lemma lexes_name ch l : ungot l = None -> lexes (scan_name ch) l (from_text (ch :: rest l)).
Proof.
  intros Hu. apply (lexes_bind _ _ _ (fun cs l' => rest l = cs ++ rest l')); [by apply lexes_while|].
  intros cs l' Hu' _ E. cbv zeta. destruct (keyword _) as [t|] eqn:Ek.
  - apply lexes_observe; [done|]. split; [done|]. intros Ht Hc. cbn in Ht. subst t. apply keyword_struct in Ek.
    rewrite E in Hc |- *. change (ch :: cs ++ rest l') with ((ch :: cs) ++ rest l') in *. apply Forall_app in Hc as [Hc _].
    apply encode_ascii in Ek; [|done|by apply (bool_decide_unpack _); vm_compute]. rewrite Ek. by exists [], (rest l').
  - destruct (_ || _); by apply lexes_plain.
Qed.

Lemma lexes_zero l cs : ungot l = None -> lexes scan_zero l (from_text cs).
Proof.
  intros Hu. destruct (advance_suffix l) as [Eu _]. rewrite Hu in Eu. destruct (lexes_literals l Hu) as (_ & Ho & _).
  destruct (lexes_literals (advance l) Eu) as (Lb & Lo & Lh).
  apply (lexes_bind _ _ _ (fun _ l' => l' = l)); [by apply lexes_observe|]. intros o ? _ _ ->. cbv zeta. apply lexes_const.
  assert (forall m : parser Mpa.Int, lexes m (advance l) any -> lexes (_ ← update advance; m) l any) as Hadv.
  { intros m Hm. apply (lexes_bind _ _ _ (fun _ l' => l' = advance l)); [by apply lexes_advance|]. by intros [] ? _ _ ->. }
  do 4 (match goal with |- lexes (if ?b then _ else _) _ _ => destruct b end; [first [assumption|by apply Hadv]|]).
  by apply lexes_ret.
Qed.

Lemma lexes_scan again ch l : ungot l = None ->
  (forall l', ungot l' = None -> rest l' `suffix_of` rest l -> lexes again l' (from_text (ch :: rest l))) ->
  lexes (scan again ch) l (from_text (ch :: rest l)).
Proof.
  intros Hu Hagain. destruct (advance_suffix l) as [Eu Hs]. rewrite Hu in Eu.
  destruct (advance_suffix (advance l)) as [Eu2 _]. rewrite Eu in Eu2. unfold scan.
  repeat match goal with
  | |- lexes (if ?b then longer _ _ else _) _ _ => destruct b;
      [apply lexes_longer; [done|repeat apply Forall_cons_2; try apply Forall_nil_2; cbn [alt snd]; try by apply lexes_plain|done]|]
  | |- lexes (if existsb _ _ then _ else _) _ _ => destruct (existsb _ _); [by apply lexes_plain|]
  end.
  - apply (lexes_bind _ _ _ (fun _ l' => rest l' `suffix_of` rest (advance l)));
      [apply lexes_skip; [done|intros; by apply line_comment_suffix|done]|].
    intros [] l' Hu' _ Hs'. apply Hagain; [done|by etrans].
  - apply (lexes_bind _ _ _ (fun _ l' => rest l' `suffix_of` rest (advance l)));
      [apply lexes_skip; [done|intros; by apply block_comment_suffix|done]|].
    intros [] l' Hu' _ Hs'. apply Hagain; [done|by etrans].
  - apply lexes_longer; [done|repeat constructor; by apply lexes_plain|done].
  - apply lexes_longer; [done|repeat constructor; by apply lexes_plain|done].
  - destruct (ch =? code x22); [apply (lexes_const _ (fun cs => VString (encode cs))), lexes_string_loop; [done|lia]|].
    destruct (ch =? code "'").
    { apply (lexes_bind _ _ _ any); [by apply lexes_escape|]. intros v l1 Hu1 _ _.
      apply (lexes_bind _ _ _ any); [by apply lexes_read|]. intros o l2 Hu2 _ _.
      destruct (bool_decide _); [by apply lexes_plain|by apply lexes_fail]. }
    destruct (ch =? code "!"); [apply lexes_longer; [done|repeat constructor; by apply lexes_plain|done]|].
    destruct (ch =? code "0"); [by apply lexes_zero|].
    destruct (_ || _); [by apply lexes_name|]. destruct (is_ascii_digit ch); [|by apply lexes_fail].
    apply (lexes_bind _ _ _ any); [by apply lexes_while|]. intros cs l1 Hu1 _ _. apply lexes_const. by apply lexes_int.
Qed.

Lemma from_text_suffix cs cs' t l : cs' `suffix_of` cs -> from_text cs' t l -> from_text cs t l.
Proof.
  intros Hs [He Ht]. split; [done|]. intros Es Hc. eapply contains_suffix; [done|]. apply Ht; [done|]. destruct Hs as [a ->]. by apply Forall_app in Hc as [_ Hc].
Qed.

(** The next token is found, and every token but the last consumes a character. *)
Lemma lexes_get_loop n l : ungot l = None -> (length (rest l) < n)%nat -> lexes (get_loop n) l (fun t l' =>
  (tok_typ t <> TokenType.Eof -> length (rest l') < length (rest l))%nat /\ from_text (rest l) t l').
Proof.
  revert l. induction n as [|n IH]; intros l Hu Hn; [lia|]. cbn [get_loop].
  apply (lexes_bind _ _ _ (fun _ l' => rest l' = rest l)); [by exists (Ok ()), (start_token l)|]. intros [] l0 Hu0 _ E0.
  rewrite <- E0 in *. clear l Hu E0. rename l0 into l, Hu0 into Hu.
  apply (lexes_bind _ _ _ (fun o l' => o = None \/ exists c, o = Some c /\ rest l = c :: rest l')).
  { apply lexes_read; [done|by left|]. intros c cs E. right. exists c. by destruct (advance_cons c cs l E) as [-> _]. }
  intros o l1 Hu1 _ [-> |(c & -> & E)]; [by apply lexes_observe|]. rewrite E in Hn |- *. cbn [length] in *.
  assert (forall l', ungot l' = None -> rest l' `suffix_of` rest l1 -> lexes (get_loop n) l' (fun t l'' =>
    (tok_typ t <> TokenType.Eof -> length (rest l'') < S (length (rest l1)))%nat /\ from_text (c :: rest l1) t l'')) as Hagain.
  { intros l' Hu' Hs'. pose proof (suffix_length _ _ Hs'). eapply lexes_post; [apply IH; [done|lia]|].
    intros t l'' Hs'' [H1 H2]. pose proof (suffix_length _ _ Hs''). split; [lia|]. eapply from_text_suffix; [|done].
    etrans; [done|]. by exists [c]. }
  destruct (is_whitespace c); [by apply Hagain|]. eapply lexes_post; [apply (lexes_scan _ c l1); [done|]|].
  - intros l' Hu' Hs'. eapply lexes_post; [by apply Hagain|]. by intros t l'' _ [_ ?].
  - intros t l' Hs' Ht. pose proof (suffix_length _ _ Hs'). split; [lia|done].
Qed.

(** ** Parsing *)

Record good (l : Lexer) : Prop := {
  good_chars : Forall is_char (rest l);
  good_text : ~ contains (chars "struct") (rest l);
  good_ungot : forall t, ungot l = Some t -> plain t;
}.

Definition weight (t : Token) : nat := if decide (tok_typ t = TokenType.Eof) then 0 else 1.
Definition size (l : Lexer) : nat := length (rest l) + match ungot l with Some t => weight t | None => 0 end.

(** From [l] the computation ends, in a state that has at most [s] tokens left if it
    is an error, and satisfies [Q] if it is not. *)
Definition term {A} (s : nat) (m : parser A) (l : Lexer) (Q : A -> Lexer -> Prop) : Prop :=
  exists r l', m l = Some (r, l') /\ good l' /\ match r with Ok a => Q a l' | Err _ => (size l' <= s)%nat | Panic => False end.

Lemma term_bind {A B} s (m : parser A) (f : A -> parser B) l Q R : term s m l Q ->
  (forall a l', good l' -> Q a l' -> term s (f a) l' R) -> term s (m ≫= f) l R.
Proof.
  intros (r & l1 & E & Hg & HQ) Hf. unfold term, mbind, parser_bind. rewrite E. destruct r as [a|e|]; [|by exists (Err e), l1|done].
  by apply Hf.
Qed.
Lemma term_weaken {A} s s' (m : parser A) l (Q R : A -> Lexer -> Prop) : term s m l Q -> (s <= s')%nat ->
  (forall a l', Q a l' -> R a l') -> term s' m l R.
Proof. intros (r & l1 & E & Hg & HQ) Hs HR. exists r, l1. split_and!; [done|done|]. destruct r; [by apply HR|lia|done]. Qed.

Lemma term_ret {A} s (a : A) l (Q : A -> Lexer -> Prop) : good l -> Q a l -> term s (mret a) l Q.
Proof. intros Hg HQ. by exists (Ok a), l. Qed.
Lemma term_fail {A} s l (Q : A -> Lexer -> Prop) : good l -> (size l <= s)%nat -> term s fail l Q.
Proof. intros Hg Hs. by exists (Err InvalidArgument), l. Qed.
Lemma term_result {A} s (r : result A) l (Q : A -> Lexer -> Prop) : good l -> (size l <= s)%nat -> r <> Panic ->
  (forall a, Q a l) -> term s (from_result r) l Q.
Proof. intros Hg Hs Hr HQ. exists r, l. split_and!; [done|done|]. by destruct r. Qed.

Lemma rest_le_size l : (length (rest l) <= size l)%nat.
Proof. unfold size. lia. Qed.

Lemma term_get s l : good l -> (size l <= s)%nat -> term s get l (fun k l' =>
  ungot l' = None /\ plain k /\ (size l' + weight k <= size l)%nat).
Proof.
  intros [Hc Ht Hug] Hs. unfold term, get. destruct (ungot l) as [t|] eqn:Eu.
  - exists (Ok t), (with_ungot None l). split_and!; [done|by split|done|by apply Hug|]. unfold size. cbn. rewrite Eu. lia.
  - destruct (lexes_get_loop (S (length (rest l))) l Eu) as (r & l' & E & Hu' & Hs' & Hr); [lia|]. pose proof (suffix_length _ _ Hs').
    assert (good l') as Hg'.
    { split; [|intros Hx; by eapply Ht, contains_suffix|by rewrite Hu'].
      destruct Hs' as [a Ea]. rewrite Ea in Hc. by apply Forall_app in Hc as [_ Hc]. }
    exists r, l'. split_and!; [done|done|]. unfold size, weight in *. rewrite Eu, Hu' in *. destruct r as [t|e|]; [|lia|done].
    destruct Hr as [H1 [H2 H3]]. split_and!; [done|split; [done|intros Ek; by apply Ht, H3]|]. destruct (decide _); [lia|]. specialize (H1 n). lia.
Qed.

Lemma term_get_bind {B} s l (f : Token -> parser B) R : good l -> (size l <= s)%nat ->
  (forall k l', good l' -> plain k -> (size l' + weight k <= size l)%nat -> term s (f k) l' R) ->
  term s (get ≫= f) l R.
Proof. intros Hg Hs Hf. eapply term_bind; [by apply term_get|]. intros k l' Hg' (_ & ? & ?). by apply Hf. Qed.

Lemma term_unget_bind {B} s l k (f : unit -> parser B) R : good l -> plain k ->
  (forall l', good l' -> (size l' <= size l + weight k)%nat -> term s (f ()) l' R) -> term s (unget k ≫= f) l R.
Proof.
  intros Hg Hk Hf. apply (term_bind _ _ _ _ (fun _ l' => (size l' <= size l + weight k)%nat)); [|by intros []].
  exists (Ok ()), (with_ungot (Some k) l). split_and!; [done| |].
  - destruct Hg. split; [done|done|]. by intros ? [= <-].
  - pose proof (rest_le_size l). unfold size in *. cbn in *. lia.
Qed.

Lemma weight_tok t k : Parser.is_tok t k = true -> t <> TokenType.Eof -> weight k = 1%nat.
Proof. unfold Parser.is_tok, weight. intros ->%bool_decide_eq_true Ht. by destruct (decide _). Qed.

Lemma term_expect_bind {B} s l t (f : Token -> parser B) R : good l -> (size l <= s)%nat -> t <> TokenType.Eof ->
  (forall k l', good l' -> (size l' < size l)%nat -> term s (f k) l' R) -> term s (Parser.expect t ≫= f) l R.
Proof.
  intros Hg Hs Ht Hf. eapply term_bind; [|exact Hf]. apply term_get_bind; [done|done|]. intros k l' Hg' _ Hw.
  destruct (Parser.is_tok t k) eqn:Ek; [|apply term_fail; [done|lia]]. apply term_ret; [done|].
  rewrite (weight_tok t k Ek Ht) in Hw. lia.
Qed.

Lemma term_peek_bind {B} s l t (f : bool -> parser B) R : good l -> (size l <= s)%nat ->
  (forall b l', good l' -> (size l' <= size l)%nat -> term s (f b) l' R) -> term s (Parser.peek_is t ≫= f) l R.
Proof.
  intros Hg Hs Hf. apply (term_bind _ _ _ _ (fun _ l' => (size l' <= size l)%nat)); [|by apply Hf].
  apply term_get_bind; [done|done|]. intros k l' Hg' Hk Hw. apply term_unget_bind; [done|done|]. intros l2 Hg2 H2.
  apply term_ret; [done|lia].
Qed.
Lemma term_peek_any_bind {B} s l ts (f : bool -> parser B) R : good l -> (size l <= s)%nat ->
  (forall b l', good l' -> (size l' <= size l)%nat -> term s (f b) l' R) -> term s (Parser.peek_is_any ts ≫= f) l R.
Proof.
  intros Hg Hs Hf. apply (term_bind _ _ _ _ (fun _ l' => (size l' <= size l)%nat)); [|by apply Hf].
  apply term_get_bind; [done|done|]. intros k l' Hg' Hk Hw. apply term_unget_bind; [done|done|]. intros l2 Hg2 H2.
  apply term_ret; [done|lia].
Qed.

(** Computations that end from states with less than [k] tokens, and consume at
    least one token, or none. *)
Definition consumes {A} (k : nat) (m : parser A) : Prop :=
  forall l s, good l -> (size l < k)%nat -> (size l <= s)%nat -> term s m l (fun _ l' => (size l' < size l)%nat).
Definition stays {A} (k : nat) (m : parser A) : Prop :=
  forall l s, good l -> (size l < k)%nat -> (size l <= s)%nat -> term s m l (fun _ l' => (size l' <= size l)%nat).

Lemma consumes_stays {A} k (m : parser A) : consumes k m -> stays k m.
Proof. intros Hm l s Hg Hk Hs. eapply term_weaken; [by apply Hm|done|]. cbn. lia. Qed.
Lemma term_consumes {A B} k s (m : parser A) (f : A -> parser B) l R : consumes k m -> good l -> (size l < k)%nat -> (size l <= s)%nat ->
  (forall a l', good l' -> (size l' < size l)%nat -> term s (f a) l' R) -> term s (m ≫= f) l R.
Proof. intros Hm Hg Hk Hs Hf. eapply term_bind; [by apply Hm|exact Hf]. Qed.
Lemma term_stays {A B} k s (m : parser A) (f : A -> parser B) l R : stays k m -> good l -> (size l < k)%nat -> (size l <= s)%nat ->
  (forall a l', good l' -> (size l' <= size l)%nat -> term s (f a) l' R) -> term s (m ≫= f) l R.
Proof. intros Hm Hg Hk Hs Hf. eapply term_bind; [by apply Hm|exact Hf]. Qed.

(** The steps shared by all functions of the parser: one call at a time, sizes by
    arithmetic; a token that was compared weighs one. *)
Ltac weigh :=
  repeat match goal with
  | E : Parser.is_tok ?t ?k = true |- _ =>
      lazymatch goal with
      | _ : weight k = 1%nat |- _ => fail
      | _ => pose proof (weight_tok t k E ltac:(discriminate))
      end
  end.
Ltac sizes := weigh; cbn beta in *; lia.
Ltac step :=
  cbn beta iota zeta;
  lazymatch goal with
  | |- term _ (get ≫= _) _ _ => apply term_get_bind; [assumption|sizes|intros ? ? ? ? ?]
  | |- term _ (unget _ ≫= _) _ _ => apply term_unget_bind; [assumption|assumption|intros ? ? ?]
  | |- term _ (Parser.expect _ ≫= _) _ _ => apply term_expect_bind; [assumption|sizes|discriminate|intros ? ? ? ?]
  | |- term _ (Parser.expect_ident ≫= _) _ _ => apply term_expect_bind; [assumption|sizes|discriminate|intros ? ? ? ?]
  | |- term _ (Parser.peek_is _ ≫= _) _ _ => apply term_peek_bind; [assumption|sizes|intros ? ? ? ?]
  | |- term _ (Parser.peek_is_any _ ≫= _) _ _ => apply term_peek_any_bind; [assumption|sizes|intros ? ? ? ?]
  | |- term _ (mret _) _ _ => apply term_ret; [assumption|sizes]
  | |- term _ fail _ _ => apply term_fail; [assumption|sizes]
  | |- term _ (if ?b then _ else _) _ _ => destruct b eqn:?
  | |- term _ (match ?x with _ => _ end) _ _ => destruct x eqn:?
  | |- term _ (_ ≫= _) _ _ =>
      first [eapply term_consumes; [solve [eauto]|assumption|sizes|sizes|intros ? ? ? ?]
            |eapply term_stays; [solve [eauto]|assumption|sizes|sizes|intros ? ? ? ?]]
  end.
Ltac call H := eapply term_weaken; [eapply H; [assumption|sizes|apply Nat.le_refl]|sizes|cbn beta; intros; sizes].

(** *** Types *)

Lemma parse_type_text_safe s : QclTypes.parse_type s <> Panic.
Proof.
  unfold QclTypes.parse_type. generalize (S (length s)) as n. intros n. revert s. induction n as [|n IH]; intros s; [done|].
  assert (forall r (f : Info -> Info), (e ← parse_type_fuel n r; Ok (f e)) <> Panic) as Hb.
  { intros r f. specialize (IH r). by destruct (parse_type_fuel n r). }
  cbn [parse_type_fuel]. cbv zeta. repeat (case_match; try done); apply Hb.
Qed.

Lemma consumes_type n : consumes n (Parser.parse_type n).
Proof.
  induction n as [|n IH]; intros l s Hg Hk Hs; [lia|]. cbn [Parser.parse_type].
  repeat step; try (apply term_result; [done|sizes|apply parse_type_text_safe|sizes]).
  apply bool_decide_eq_true in Heqb2. by destruct H1.
Qed.

Lemma stays_names n names ps : stays n (Parser.names_loop n names ps).
Proof.
  revert names ps. induction n as [|n IH]; intros names ps l s Hg Hk Hs; [lia|]. cbn [Parser.names_loop].
  repeat step; try call IH.
Qed.
Lemma stays_params n ps : stays n (Parser.params_loop n ps).
Proof.
  revert ps. induction n as [|n IH]; intros ps l s Hg Hk Hs; [lia|]. cbn [Parser.params_loop].
  pose proof (stays_names n) as Hn. pose proof (consumes_type n) as Ht. repeat step; try call IH.
Qed.
Lemma stays_param_list n : stays n (Parser.parse_param_list n).
Proof. apply stays_params. Qed.
Lemma stays_return_types n : stays n (Parser.parse_return_types n).
Proof.
  intros l s Hg Hk Hs. unfold Parser.parse_return_types. pose proof (consumes_type n) as Ht. pose proof (stays_param_list n) as Hp.
  repeat step.
Qed.
Lemma consumes_type_def n : consumes n (Parser.parse_type_def n).
Proof. intros l s Hg Hk Hs. unfold Parser.parse_type_def. pose proof (consumes_type n). repeat step. Qed.

(** *** Expressions *)

Section expressions.
Context (k n : nat) (parse_expr : parser Expr) (Hrec : consumes k parse_expr) (Hkn : (k < n)%nat).

Lemma stays_list_loop m close es l s : good l -> (size l < m)%nat -> (size l < k)%nat -> (size l <= s)%nat ->
  term s (Parser.list_loop parse_expr m close es) l (fun _ l' => (size l' <= size l)%nat).
Proof.
  revert es l. induction m as [|m IH]; intros es l Hg Hm Hk Hs; [lia|]. cbn [Parser.list_loop].
  repeat step; (eapply (term_weaken s s); [apply IH; [done|sizes..]|sizes|cbn beta; intros; sizes]).
Qed.

Lemma stays_expr_list close l s : good l -> (size l < k)%nat -> (size l <= s)%nat -> close <> TokenType.Eof ->
  term s (Parser.parse_expr_list parse_expr n close) l (fun _ l' => (size l' <= size l)%nat).
Proof.
  intros Hg Hk Hs Hc. unfold Parser.parse_expr_list. step. step; [step; step|]. step.
  eapply term_bind; [apply stays_list_loop; [done|sizes..]|]. intros es l2 Hg2 Hl2. cbn beta in Hl2.
  apply term_expect_bind; [done|sizes|done|]. intros. apply term_ret; [done|sizes].
Qed.

Lemma consumes_primary : consumes (S k) (Parser.parse_primary_expr parse_expr).
Proof. intros l s Hg Hk Hs. unfold Parser.parse_primary_expr. repeat step. Qed.

Lemma stays_postfix_loop m e l s : good l -> (size l < m)%nat -> (size l <= k)%nat -> (size l <= s)%nat ->
  term s (Parser.postfix_loop parse_expr n m e) l (fun _ l' => (size l' <= size l)%nat).
Proof.
  revert e l. induction m as [|m IH]; intros e l Hg Hm Hk Hs; [lia|]. cbn [Parser.postfix_loop].
  assert (forall e l', good l' -> (size l' < size l)%nat ->
    term s (Parser.postfix_loop parse_expr n m e) l' (fun _ l2 => (size l2 <= size l)%nat)) as Hnext.
  { intros e' l' Hg' Hl'. eapply (term_weaken s s); [apply IH; [done|lia..]|done|cbn; lia]. }
  assert (forall name l', good l' -> (size l' < size l)%nat -> term s
    (args ← Parser.parse_expr_list parse_expr n (TokenType.Char ")"); Parser.postfix_loop parse_expr n m (ECall name args Info_default))
    l' (fun _ l2 => (size l2 <= size l)%nat)) as Hcall.
  { intros name l' Hg' Hl'. eapply term_bind; [apply stays_expr_list; [done|lia|lia|discriminate]|].
    intros args l2 Hg2 H2. cbn beta in H2. apply Hnext; [done|lia]. }
  repeat first [apply Hcall; [assumption|sizes]|step|apply Hnext; [assumption|sizes]].
Qed.
Lemma consumes_postfix : consumes (S k) (Parser.parse_postfix_expr parse_expr n).
Proof.
  intros l s Hg Hk Hs. unfold Parser.parse_postfix_expr. pose proof consumes_primary. step.
  eapply (term_weaken s s); [apply stays_postfix_loop; [done|sizes..]|sizes|cbn; lia].
Qed.

Lemma unary_type_safe t : Parser.is_unary t = true -> unary_type t <> Panic.
Proof.
  unfold Parser.is_unary. intros Ht%bool_decide_eq_true.
  repeat (apply elem_of_cons in Ht as [-> |Ht]; [done|]). by apply elem_of_nil in Ht.
Qed.
Lemma weight_unary k' : Parser.is_unary (tok_typ k') = true -> weight k' = 1%nat.
Proof. unfold weight. destruct (decide _) as [->|_]; [|done]. by vm_compute. Qed.
Lemma consumes_unary m : (m <= S k)%nat -> consumes m (Parser.unary_loop parse_expr n m).
Proof.
  induction m as [|m IH]; intros Hm l s Hg Hk Hs; [lia|]. cbn [Parser.unary_loop]. pose proof consumes_postfix as Hp. step.
  destruct (Parser.is_unary (tok_typ k0)) eqn:Eu.
  - pose proof (weight_unary _ Eu) as Hw. eapply term_bind;
      [apply (term_result _ _ _ (fun _ l1 => l1 = l')); [done|sizes|by apply unary_type_safe|done]|]. intros op ? _ ->.
    assert (consumes m (Parser.unary_loop parse_expr n m)) as IH' by (apply IH; lia). repeat step.
  - step. call Hp.
Qed.

End expressions.

Lemma stays_level_loop k op t operand m e l s : consumes k operand -> good l ->
  (size l < m)%nat -> (size l < k)%nat -> (size l <= s)%nat ->
  term s (Parser.level_loop op t operand m e) l (fun _ l' => (size l' <= size l)%nat).
Proof.
  intros Ho. revert e l. induction m as [|m IH]; intros e l Hg Hm Hk Hs; [lia|]. cbn [Parser.level_loop]. step. step.
  - step. eapply (term_weaken s s); [apply IH; [done|sizes..]|sizes|cbn beta; intros; sizes].
  - step. step.
Qed.
Lemma consumes_level k n op t operand : (k <= n)%nat -> consumes k operand ->
  consumes k (Parser.level n op t operand).
Proof.
  intros Hkn Ho l s Hg Hk Hs. unfold Parser.level. step.
  eapply (term_weaken s s); [apply (stays_level_loop k); [done|done|sizes..]|sizes|cbn; lia].
Qed.

Lemma consumes_expr n : consumes n (Parser.parse_expr (S n)).
Proof.
  induction n as [|n IH]; [intros l s _ Hk; lia|]. cbn [Parser.parse_expr]. cbn [Parser.parse_expr] in IH.
  do 6 (apply consumes_level; [done|]). apply (consumes_unary n); [done|lia|lia].
Qed.
Lemma consumes_expr_at n k : (k < n)%nat -> consumes k (Parser.parse_expr n).
Proof. destruct n as [|n]; [lia|]. intros Hk l s Hg Hl. apply consumes_expr; [done|lia]. Qed.
#[local] Hint Resolve consumes_expr_at consumes_type : core.

(** *** Statements *)

Lemma stays_ok {A} k (m : parser A) : stays k m -> stays k (Parser.ok m).
Proof.
  intros Hm l s Hg Hk Hs. destruct (Hm l (size l) Hg Hk) as (r & l' & E & Hg' & Hr); [done|].
  unfold Parser.ok, term. rewrite E. destruct r as [a|e|]; [| |done]; eexists _, l'; split_and!; [done|done|done|done|done|done].
Qed.

Lemma stays_name_here k : stays k Parser.name_here.
Proof.
  intros l s Hg _ Hs. unfold Parser.name_here. eapply term_bind; [by apply term_get|].
  intros t l1 Hg1 (Hu & _ & Hw). cbn beta in Hw.
  set (t0 := mkToken _ _ _ _ _). exists (Ok t0), l1. split_and!; [|done|lia].
  unfold mbind, parser_bind, unget, update, Parser.expect_ident, Parser.expect, get, mbind, parser_bind. cbn.
  by destruct l1; cbn in *; subst.
Qed.

(** A computation bound to the rest, by what it leaves. *)
Lemma term_then {A B} s (m : parser A) (f : A -> parser B) l (b : nat) R : term s m l (fun _ l' => (size l' <= b)%nat) ->
  (forall a l', good l' -> (size l' <= b)%nat -> term s (f a) l' R) -> term s (m ≫= f) l R.
Proof. apply term_bind. Qed.

Section statements.
Context (n k : nat) (Hkn : (k < n)%nat).

Lemma stays_var : stays k (Parser.parse_var n).
Proof.
  intros l s Hg Hl Hs. unfold Parser.parse_var. pose proof (stays_name_here k) as Hn.
  assert (stays n (Parser.ok (Parser.parse_type n))) as Ht by (apply stays_ok, consumes_stays, consumes_type).
  pose proof (consumes_expr_at n k Hkn) as He. do 3 step. apply (term_then _ _ _ _ (size l)); [|intros ? ? ? ?]; repeat step.
Qed.
Lemma stays_const : stays k (Parser.parse_const n).
Proof.
  intros l s Hg Hl Hs. unfold Parser.parse_const. pose proof (stays_name_here k) as Hn.
  assert (stays n (Parser.ok (Parser.parse_type n))) as Ht by (apply stays_ok, consumes_stays, consumes_type).
  pose proof (consumes_expr_at n k Hkn) as He. repeat step.
Qed.
Lemma consumes_simple : consumes k (Parser.parse_simple_stmt n).
Proof.
  intros l s Hg Hl Hs. unfold Parser.parse_simple_stmt. pose proof (consumes_expr_at n k Hkn) as He. repeat step.
Qed.
Lemma stays_values m es l s : good l -> (size l < m)%nat -> (size l < k)%nat -> (size l <= s)%nat ->
  term s (Parser.values_loop m n es) l (fun _ l' => (size l' <= size l)%nat).
Proof.
  pose proof (consumes_expr_at n k Hkn) as He.
  revert es l. induction m as [|m IH]; intros es l Hg Hm Hl Hs; [lia|]. cbn [Parser.values_loop].
  repeat step. eapply (term_weaken s s); [apply IH; [done|sizes..]|sizes|cbn beta; intros; sizes].
Qed.
Lemma stays_return : stays k (Parser.parse_return n).
Proof.
  pose proof (consumes_expr_at n k Hkn) as He.
  intros l s Hg Hl Hs. unfold Parser.parse_return. step. step; [step|]. step.
  apply (term_then _ _ _ _ (size l)); [|intros ? ? ? ?; repeat step].
  eapply (term_weaken s s); [apply stays_values; [done|sizes..]|sizes|cbn beta; intros; sizes].
Qed.

Context (rec : parser Stmt) (Hrec : consumes (pred k) rec).

Lemma stays_block_loop m body l s : good l -> (size l < m)%nat -> (size l < pred k)%nat -> (size l <= s)%nat ->
  term s (Parser.block_loop rec m body) l (fun _ l' => (size l' <= size l)%nat).
Proof.
  revert body l. induction m as [|m IH]; intros body l Hg Hm Hl Hs; [lia|]. cbn [Parser.block_loop].
  repeat step. eapply (term_weaken s s); [apply IH; [done|sizes..]|sizes|cbn beta; intros; sizes].
Qed.
Lemma stays_block : stays (pred k) (Parser.parse_block_body rec n).
Proof. intros l s Hg Hl Hs. apply stays_block_loop; [done|lia|done|done]. Qed.

Lemma stays_if m l s : good l -> (size l < m)%nat -> (size l < k)%nat -> (size l <= s)%nat ->
  term s (Parser.if_loop rec n m) l (fun _ l' => (size l' <= size l)%nat).
Proof.
  pose proof (consumes_expr_at n k Hkn) as He. pose proof stays_block as Hb.
  revert l. induction m as [|m IH]; intros l Hg Hm Hl Hs; [lia|]. cbn [Parser.if_loop]. do 4 step.
  apply (term_then _ _ _ _ (size l)); [|intros ? ? ? ?; repeat step]. step; [|step]. do 3 step; [step|repeat step].
  - apply (term_then _ _ _ _ (size l)); [|intros ? ? ? ?; repeat step]. eapply (term_weaken s s); [apply IH; [done|sizes..]|sizes|cbn; sizes].
  - call Hb.
Qed.

Lemma stays_unless {A} ts (m : parser A) j : stays j m -> stays j (Parser.unless ts m).
Proof. intros Hm l s Hg Hl Hs. unfold Parser.unless. repeat step. Qed.

Lemma stays_for : stays (pred k) (Parser.parse_for rec n).
Proof.
  pose proof (consumes_expr_at n k Hkn) as He. pose proof stays_block as Hb.
  assert (forall ts, stays (pred k) (Parser.unless ts rec)) as Hu by (intros; by apply stays_unless, consumes_stays).
  assert (forall ts, stays k (Parser.unless ts (Parser.parse_expr n))) as Hu2 by (intros; by apply stays_unless, consumes_stays).
  intros l s Hg Hl Hs. unfold Parser.parse_for. repeat step.
Qed.

Lemma consumes_stmt_step : consumes k (Parser.stmt_step rec n).
Proof.
  pose proof stays_var as H1. pose proof stays_return as H2. pose proof stays_for as H3. pose proof stays_block as H4.
  pose proof consumes_simple as H5.
  intros l s Hg Hl Hs. unfold Parser.stmt_step, Parser.parse_if.
  repeat first [step|call H1|call H2|call H3|call H4|call H5].
  eapply (term_weaken s s); [apply stays_if; [done|sizes..]|sizes|cbn; sizes].
Qed.
End statements.

Lemma consumes_stmt n : consumes (n - 2) (Parser.parse_stmt n).
Proof.
  induction n as [|n IH]; [intros l s _ Hl; lia|]. cbn [Parser.parse_stmt]. destruct n as [|n]; [intros l s _ Hl; lia|].
  replace (S (S n) - 2)%nat with n by lia. apply consumes_stmt_step; [lia|]. by replace (pred n) with (S n - 2)%nat by lia.
Qed.

(** *** Declarations *)

Lemma consumes_func n notes : consumes n (Parser.parse_func n notes).
Proof.
  intros l s Hg Hl Hs. unfold Parser.parse_func.
  pose proof (stays_param_list n) as H1. pose proof (stays_return_types n) as H2.
  assert (stays (n - 2) (Parser.parse_block_body (Parser.parse_stmt n) n)) as H3.
  { replace (n - 2)%nat with (pred (n - 1)) by lia. apply stays_block; [lia|].
    replace (pred (n - 1)) with (n - 2)%nat by lia. apply consumes_stmt. }
  repeat step.
Qed.

Lemma weight_const k v : plain k -> const_val k = Some v -> weight k = 1%nat.
Proof. intros [He _] Hc. unfold weight. destruct (decide _) as [E|]; [|done]. by rewrite He in Hc. Qed.

Lemma stays_import_loop n p : stays n (Parser.import_loop n p).
Proof.
  revert p. induction n as [|n IH]; intros p l s Hg Hl Hs; [lia|]. cbn [Parser.import_loop].
  step. step; [step|]. destruct (const_val k) as [[]|] eqn:Ec; try step. pose proof (weight_const k _ H1 Ec) as Hw. call IH.
Qed.
Lemma stays_import n p : stays n (Parser.parse_import n p).
Proof.
  intros l s Hg Hl Hs. unfold Parser.parse_import. pose proof (stays_import_loop n) as Hi. repeat first [step|call Hi].
Qed.

Lemma term_observe {A B} s (f : Lexer -> A) (g : A -> parser B) l R : term s (g (f l)) l R -> term s (observe f ≫= g) l R.
Proof. done. Qed.

Lemma stays_decl_loop n m p l s : good l -> (size l < n)%nat -> (size l < m)%nat -> (size l <= s)%nat ->
  term s (Parser.decl_loop n m p) l (fun _ l' => (size l' <= size l)%nat).
Proof.
  pose proof (stays_import m) as H1. pose proof (consumes_func m) as H2. pose proof (consumes_type_def m) as H3.
  revert p l. induction n as [|n IH]; intros p l Hg Hl Hm Hs; [lia|]. cbn [Parser.decl_loop].
  assert (stays (m - 1) (Parser.parse_var m)) as H4 by (apply stays_var; lia).
  assert (stays (m - 1) (Parser.parse_const m)) as H5 by (apply stays_const; lia).
  repeat first [apply term_observe|step];
    (eapply (term_weaken s s); [apply IH; [done|sizes..]|sizes|cbn beta; intros; sizes]).
Qed.

(** C31. The parser ends: on a text without the word [struct] it answers within as
    many steps as the text has characters, with a package or an error, and never
    panics. *)
Theorem parse_terminates n p cs : Forall is_char cs -> ~ contains (chars "struct") cs -> (length cs < n)%nat ->
  exists r l, Parser.parse n p (Lexer_new cs) = Some (r, l) /\ r <> Panic.
Proof.
  intros Hc Ht Hn. assert (good (Lexer_new cs)) as Hg by by split.
  assert (size (Lexer_new cs) = length cs) as Hs by (unfold size; cbn; lia).
  assert (term (size (Lexer_new cs)) (Parser.parse n p) (Lexer_new cs) any) as (r & l & E & _ & Hr).
  { unfold Parser.parse. do 2 step. eapply term_weaken; [apply stays_decl_loop; [done|sizes..|apply Nat.le_refl]|sizes|done]. }
  exists r, l. split; [done|]. by intros ->.
Qed.

(** ** The loop that does not end *)

Lemma bind_none {A B} (m : parser A) (f : A -> parser B) l : m l = None -> (m ≫= f) l = None.
Proof. intros E. unfold mbind, parser_bind. by rewrite E. Qed.
Lemma bind_some {A B} (m : parser A) (f : A -> parser B) l a l' : m l = Some (Ok a, l') -> (m ≫= f) l = f a l'.
Proof. intros E. unfold mbind, parser_bind. by rewrite E. Qed.

(** At the end of the input the fields of a struct go on for ever. *)
Lemma struct_loop_at_end pt n fs sz l : ungot l = None -> rest l = [] -> Parser.struct_loop pt n fs sz l = None.
Proof.
  revert l. induction n as [|n IH]; intros l Hu Hr; [done|]. cbn [Parser.struct_loop].
  assert (get l = Some (Ok (token TokenType.Eof (start_token l)), start_token l)) as E.
  { unfold get. rewrite Hu, Hr. cbn. unfold mbind, parser_bind, update, steps, read_char. cbn. rewrite Hr. done. }
  rewrite (bind_some _ _ _ _ _ E). cbn. by apply IH.
Qed.

Ltac run_get :=
  match goal with
  | |- (get ≫= ?f) ?l = _ =>
      let r := eval vm_compute in (get l) in
      match r with Some (Ok ?k, ?l') => rewrite (bind_some get f l k l') by (vm_compute; reflexivity) end
  | |- (Parser.expect ?t ≫= ?f) ?l = _ =>
      let r := eval vm_compute in (Parser.expect t l) in
      match r with Some (Ok ?k, ?l') => rewrite (bind_some (Parser.expect t) f l k l') by (vm_compute; reflexivity) end
  | |- (if ?b then _ else _) _ = _ => let v := eval vm_compute in b in change b with v; cbv iota
  end; cbn beta.

Lemma struct_hangs n p : Parser.parse n p (Lexer_new (chars "package main type T struct {")) = None.
Proof.
  unfold Parser.parse, Parser.expect_ident. do 2 run_get. destruct n as [|n]; [done|]. cbn [Parser.decl_loop].
  repeat run_get. apply bind_none. unfold Parser.parse_type_def, Parser.expect_ident. run_get. apply bind_none.
  cbn [Parser.parse_type]. repeat run_get. by apply struct_loop_at_end.
Qed.
End terminate.

#[local] Existing Instance ascii_texts.
(** A text without an [s]. *)
Lemma parse_terminates_witness : exists r l,
  Parser.parse 50 (Package_new []) (Lexer_new (chars "package main func main(a uint4) uint4 { a }")) = Some (r, l) /\ r <> Panic.
Proof.
  apply parse_terminates.
  - apply Forall_fmap, Forall_forall. intros b _. cbn. unfold is_char. pose proof (byte_val_range b). lia.
  - intros (a & b & E). assert (code "s" ∈ chars "package main func main(a uint4) uint4 { a }") as Hs.
    { rewrite E. apply elem_of_app. right. apply elem_of_app. left. by apply (bool_decide_unpack _). }
    revert Hs. apply (bool_decide_unpack _). vm_compute. exact I.
  - vm_compute. lia.
Defined.
