(* ===== verification/QclPrint.v ===== *)
(** * Printing syntax trees, and parsing them back

    Syntax trees as sequences of words (tokens without their positions), with the
    parentheses the precedences ask for, and the proof that the parser reads the
    words of a tree back as that tree. *)

From S2P Require Import Prelude.
From S2P Require Import Bytes.
From S2P Require Import QclTypes.
From S2P Require Import QclMpa.
From S2P Require Import QclSsa.
From S2P Require Import QclCompiler.
From S2P Require Import QclLexer.
From S2P Require Import QclParser.

(** ** Words *)

Abbreviation Word := (TokenType.t * list byte * option ConstVal)%type (only parsing).
Definition data (k : Token) : Word := (tok_typ k, str_val k, const_val k).
Definition kw (t : TokenType.t) : Word := (t, [], None).
Definition ch (b : byte) : Word := kw (TokenType.Char b).
Arguments ch b%_byte_scope.
Definition ident (s : list byte) : Word := (TokenType.Identifier, s, None).
Definition const (v : ConstVal) : Word := (TokenType.Constant, [], Some v).
Definition next (ws : list Word) : Word := default (kw TokenType.Eof) (head ws).
Definition next_typ (ws : list Word) : TokenType.t := (next ws).1.1.

Section reads.
Context `{Texts}.

(** The lexer gives the words and then the end of the input, and has seen no comment. *)
Fixpoint yields (l : Lexer) (ws : list Word) : Prop :=
  c_lines (last_comment l) = [] /\ exists k l', get l = Some (Ok k, l') /\ data k = next ws /\ ungot l' = None /\ c_lines (last_comment l') = [] /\
    match ws with [] => True | _ :: ws => yields l' ws end.

(** From a lexer of the words [ws] the computation returns [a], and leaves [ws']. *)
Definition reads {A} (m : parser A) (ws : list Word) (a : A) (ws' : list Word) : Prop :=
  forall l, yields l ws -> exists l', m l = Some (Ok a, l') /\ yields l' ws'.

Lemma reads_bind {A B} (m : parser A) (f : A -> parser B) ws a ws1 b ws2 :
  reads m ws a ws1 -> reads (f a) ws1 b ws2 -> reads (m ≫= f) ws b ws2.
Proof.
  intros Hm Hf l Hl. destruct (Hm l Hl) as (l1 & E1 & H1). unfold mbind, parser_bind. rewrite E1. by apply Hf.
Qed.
Lemma reads_assoc {A B C} (m : parser A) (f : A -> parser B) (g : B -> parser C) ws c ws' :
  reads ((m ≫= f) ≫= g) ws c ws' -> reads (m ≫= (fun a => f a ≫= g)) ws c ws'.
Proof.
  intros Hm l Hl. destruct (Hm l Hl) as (l' & E & Hl'). exists l'. split; [|done]. rewrite <- E.
  unfold mbind, parser_bind. by destruct (m l) as [[[a| |] l1]|].
Qed.
Lemma reads_ret {A} (a : A) ws : reads (mret a) ws a ws.
Proof. intros l Hl. by exists l. Qed.

Lemma reads_get {B} (f : Token -> parser B) w ws b ws2 : (forall k, data k = w -> reads (f k) ws b ws2) ->
  reads (get ≫= f) (w :: ws) b ws2.
Proof.
  intros Hf l (_ & k & l1 & E & Hk & _ & _ & Hl). unfold mbind, parser_bind. rewrite E. by apply Hf.
Qed.

(** A token that is looked at and put back. *)
Lemma reads_back {B} (f g : Token -> parser B) ws b ws2 :
  (forall k, data k = next ws -> f k = (_ ← unget k; g k)) ->
  (forall k, data k = next ws -> reads (g k) ws b ws2) -> reads (get ≫= f) ws b ws2.
Proof.
  intros Hf Hg l Hl. pose proof Hl as Hl'. destruct ws as [|w ws]; destruct Hl' as (_ & k & l1 & E & Hk & Hu & Hc & Hn);
    unfold mbind, parser_bind; rewrite E, (Hf k Hk); unfold mbind, parser_bind, unget, update.
  all: assert (with_ungot None (with_ungot (Some k) l1) = l1) as Eu by (destruct l1; cbn in *; by subst).
  all: apply (Hg k Hk); split; [done|]; exists k, l1; split_and!; [cbn; by rewrite Eu|done|done|done|done].
Qed.

Lemma is_tok_data t k w : data k = w -> Parser.is_tok t k = bool_decide (w.1.1 = t).
Proof. by intros <-. Qed.

Lemma reads_expect {B} t (f : Token -> parser B) w ws b ws2 : w.1.1 = t ->
  (forall k, data k = w -> reads (f k) ws b ws2) -> reads (Parser.expect t ≫= f) (w :: ws) b ws2.
Proof.
  intros Ht Hf l (_ & k & l1 & E & Hk & _ & _ & Hl). unfold Parser.expect, mbind, parser_bind. rewrite E, (is_tok_data t k w Hk).
  rewrite bool_decide_true by done. by apply Hf.
Qed.

Lemma reads_peek {B} t (f : bool -> parser B) ws b ws2 : reads (f (bool_decide (next_typ ws = t))) ws b ws2 ->
  reads (Parser.peek_is t ≫= f) ws b ws2.
Proof.
  intros Hf. eapply reads_bind; [|exact Hf]. eapply (reads_back _ (fun k => mret (Parser.is_tok t k))); [done|].
  intros k Hk. rewrite (is_tok_data _ _ _ Hk). apply reads_ret.
Qed.
Lemma reads_peek_any {B} ts (f : bool -> parser B) ws b ws2 : reads (f (bool_decide (next_typ ws ∈ ts))) ws b ws2 ->
  reads (Parser.peek_is_any ts ≫= f) ws b ws2.
Proof.
  intros Hf. eapply reads_bind; [|exact Hf]. eapply (reads_back _ (fun k => mret (bool_decide (tok_typ k ∈ ts)))); [done|].
  intros k Hk. replace (tok_typ k) with (next_typ ws) by (unfold next_typ; by rewrite <- Hk). apply reads_ret.
Qed.
End reads.

(** Reading a token that the cases compare with. *)
Ltac compare :=
  cbn [fst snd next next_typ default head app];
  repeat match goal with
  | |- context [bool_decide (?a = ?b)] =>
      let v := eval vm_compute in (bool_decide (a = b)) in
      lazymatch v with true => idtac | false => idtac end;
      change (bool_decide (a = b)) with v
  end; cbv iota.
Ltac token k Hk := apply reads_get; intros k Hk; rewrite ?(is_tok_data _ _ _ Hk); compare.

(** ** Expressions *)

Definition op_level (o : BinaryType) : nat :=
  match o with
  | BOr => 1 | BAnd => 2 | BEq | BNeq | BLt | BLe | BGt | BGe => 3
  | BAdd | BSub | BBor | BBxor => 4 | BMul | BDiv | BMod | BBand | BBclear => 5 | BLshift | BRshift => 6
  end.
Definition op_token (o : BinaryType) : TokenType.t :=
  match o with
  | BOr => TokenType.Or | BAnd => TokenType.And
  | BEq => TokenType.Eq | BNeq => TokenType.Neq | BLt => TokenType.Lt | BLe => TokenType.Le | BGt => TokenType.Gt | BGe => TokenType.Ge
  | BAdd => TokenType.Char "+" | BSub => TokenType.Char "-" | BBor => TokenType.Char "|" | BBxor => TokenType.Char "^"
  | BMul => TokenType.Char "*" | BDiv => TokenType.Char "/" | BMod => TokenType.Char "%" | BBand => TokenType.Char "&"
  | BBclear => TokenType.BitClear | BLshift => TokenType.Lshift | BRshift => TokenType.Rshift
  end.
Definition op_type (o : BinaryType) : Info := if (op_level o <=? 3)%nat then Info_bool else Info_default.
Definition unary_token (o : UnaryType) : TokenType.t :=
  match o with
  | UPlus => TokenType.Char "+" | UMinus => TokenType.Char "-" | UNot => TokenType.Char "!" | UXor => TokenType.Char "^"
  | UPtr => TokenType.Char "*" | UAddr => TokenType.Char "&" | USend => TokenType.Send
  end.

Definition parens (b : bool) (ws : list Word) : list Word := if b then ch "(" :: ws ++ [ch ")"] else ws.

Section separated.
Context {A : Type} (f : A -> list Word).
Fixpoint separated (xs : list A) : list Word :=
  match xs with
  | [] => []
  | x :: xs => f x ++ match xs with [] => [] | _ => ch "," :: separated xs end
  end.
End separated.

(** The words of an expression in a place for operators of level [p] and above. *)
Fixpoint expr_words (p : nat) (e : Expr) : list Word :=
  match e with
  | EConstant (CInt i) _ => [const (VInt i)]
  | EConstant (CBool b) _ => [const (VBool b)]
  | EConstant (CString s) _ => [const (VString s)]
  | EConstant CNil _ => [kw TokenType.SymNil]
  | EVariableRef name _ => [ident name]
  | EBinary o l r _ =>
      parens (op_level o <? p)%nat (expr_words (op_level o) l ++ kw (op_token o) :: expr_words (S (op_level o)) r)
  | EUnary o e _ => parens (7 <? p)%nat (kw (unary_token o) :: expr_words 7 e)
  | ECall name args _ => ident name :: ch "(" :: separated (expr_words 1) args ++ [ch ")"]
  | EIndex e i _ => expr_words 8 e ++ ch "[" :: expr_words 1 i ++ [ch "]"]
  | EDot e name _ => expr_words 8 e ++ [ch "."; ident name]
  | _ => []
  end.

(** The expressions the parser builds, except character literals, whose value is
    printed as a number. *)
Definition const_ok (v : ConstValue) (t : Info) : Prop :=
  match v with
  | CInt i => Parser.const_expr (VInt i) = EConstant v t
  | CBool b => Parser.const_expr (VBool b) = EConstant v t
  | CString s => Parser.const_expr (VString s) = EConstant v t
  | CNil => t = Info_nil
  end.
Fixpoint expr_ok (e : Expr) : Prop :=
  match e with
  | EConstant v t => const_ok v t
  | EVariableRef _ t => t = Info_default
  | EBinary o l r t => t = op_type o /\ expr_ok l /\ expr_ok r
  | EUnary o e t => o <> USend /\ t = Info_default /\ expr_ok e
  | ECall _ args t => t = Info_default /\ (fix all es := match es with [] => True | e :: es => expr_ok e /\ all es end) args
  | EIndex e i t => t = Info_default /\ expr_ok e /\ expr_ok i
  | EDot e _ t => t = Info_default /\ expr_ok e
  | _ => False
  end.
Lemma call_ok name args t : expr_ok (ECall name args t) <-> t = Info_default /\ Forall expr_ok args.
Proof.
  cbn. assert ((fix all es := match es with [] => True | e :: es => expr_ok e /\ all es end) args <-> Forall expr_ok args) as ->; [|done].
  induction args as [|e es IH]; [done|]. by rewrite Forall_cons, IH.
Qed.

(** Induction on the expressions of the parser, with calls by their arguments. *)
Lemma expr_induction (P : Expr -> Prop) :
  (forall v t, const_ok v t -> P (EConstant v t)) -> (forall name, P (EVariableRef name Info_default)) ->
  (forall o l r, expr_ok l -> expr_ok r -> P l -> P r -> P (EBinary o l r (op_type o))) ->
  (forall o e, o <> USend -> expr_ok e -> P e -> P (EUnary o e Info_default)) ->
  (forall name args, Forall expr_ok args -> Forall P args -> P (ECall name args Info_default)) ->
  (forall e i, expr_ok e -> expr_ok i -> P e -> P i -> P (EIndex e i Info_default)) ->
  (forall e name, expr_ok e -> P e -> P (EDot e name Info_default)) ->
  (forall e, expr_ok e -> P e).
Proof.
  intros H1 H2 H3 H4 H5 H6 H7. fix IH 1. intros [v t|name t|o l r t|o e t|e t|name args t|e i t|e a b t|e name t|t es|t es] Hok;
    [by apply H1|rewrite Hok; apply H2|..]; try (exact (False_ind _ Hok)).
  - destruct Hok as (-> & Hl & Hr). apply H3; [done|done|apply IH, Hl|apply IH, Hr].
  - destruct Hok as (Ho & -> & He). apply H4; [done|done|apply IH, He].
  - pose proof (proj1 (call_ok name args t) Hok) as [-> Hargs]. apply H5; [done|]. destruct Hok as [_ Hok]. clear Hargs.
    revert args Hok. fix IHs 1. intros [|e es] Hok; constructor; [apply IH, Hok|apply IHs, Hok].
  - destruct Hok as (-> & He & Hi). apply H6; [done|done|apply IH, He|apply IH, Hi].
  - destruct Hok as (-> & He). apply H7; [done|apply IH, He].
Qed.

Section parse_back.
Context `{Texts}.

(** The function that parses operators of level [p] and above. *)
Definition op_at (p : nat) : TokenType.t -> option BinaryType :=
  match p with
  | 1 => Parser.or_op | 2 => Parser.and_op | 3 => Parser.comparison_op | 4 => Parser.add_op | 5 => Parser.mul_op
  | 6 => Parser.shift_op | _ => fun _ => None
  end%nat.
Definition type_at (p : nat) : Info := if (p <=? 3)%nat then Info_bool else Info_default.
Definition at_level (n p : nat) : parser Expr :=
  let rec := Parser.parse_expr n in
  match p with
  | 1 => Parser.parse_or_expr rec n | 2 => Parser.parse_and_expr rec n | 3 => Parser.parse_comparison_expr rec n
  | 4 => Parser.parse_add_expr rec n | 5 => Parser.parse_mul_expr rec n | 6 => Parser.parse_shift_expr rec n
  | 7 => Parser.parse_unary_expr rec n | _ => Parser.parse_postfix_expr rec n
  end%nat.

Lemma at_level_step n p : (1 <= p <= 6)%nat -> at_level n p = Parser.level n (op_at p) (type_at p) (at_level n (S p)).
Proof. intros Hp. destruct p as [|[|[|[|[|[|[|p]]]]]]]; try lia; done. Qed.
Lemma op_at_token o : op_at (op_level o) (op_token o) = Some o /\ type_at (op_level o) = op_type o /\ (1 <= op_level o <= 6)%nat.
Proof. destruct o; (split_and!; [done|done|cbn; lia|cbn; lia]). Qed.
Lemma op_at_above o q : (op_level o < q)%nat -> op_at q (op_token o) = None.
Proof. destruct (decide (q <= 6)%nat); [|by do 7 (destruct q as [|q]; [lia|])]. intros Hq.
  destruct q as [|[|[|[|[|[|[|q]]]]]]]; try lia; by destruct o; cbn in *; try lia. Qed.

(** What may follow an expression in such a place. *)
Definition opens : list TokenType.t := [TokenType.Char "("; TokenType.Char "["; TokenType.Char "."].
Definition follow (p : nat) (ws : list Word) : Prop :=
  (forall q, (p <= q)%nat -> op_at q (next_typ ws) = None) /\ next_typ ws ∉ opens.
Lemma follow_mono p q ws : (p <= q)%nat -> follow p ws -> follow q ws.
Proof. intros Hpq [H1 H2]. split; [|done]. intros r Hr. apply H1. lia. Qed.
Lemma follow_operator o ws : follow (S (op_level o)) (kw (op_token o) :: ws).
Proof. split; [intros q Hq; apply op_at_above; lia|]. by destruct o; apply (bool_decide_unpack _). Qed.

(** Tokens that end an expression. *)
Definition ends_expr (t : TokenType.t) : bool :=
  forallb (fun q => bool_decide (op_at q t = None)) (seq 1 6) && bool_decide (t ∉ opens).
Lemma ends_follow p ws : ends_expr (next_typ ws) = true -> follow p ws.
Proof.
  unfold ends_expr. intros [H1 H2%bool_decide_eq_true]%andb_prop. split; [|done]. intros q _.
  destruct (decide (1 <= q <= 6)%nat) as [Hq|Hq].
  - rewrite forallb_forall in H1. apply (bool_decide_eq_true _), H1, in_seq. lia.
  - destruct q as [|q]; [done|]. do 6 (destruct q as [|q]; [lia|]). done.
Qed.

Lemma reads_loop_stop p t operand m e ws : op_at p (next_typ ws) = None -> (0 < m)%nat ->
  reads (Parser.level_loop (op_at p) t operand m e) ws e ws.
Proof.
  intros Hop Hm. destruct m as [|m]; [lia|]. cbn [Parser.level_loop]. apply (reads_back _ (fun _ => mret e)); [|intros; apply reads_ret].
  intros k Hk. replace (tok_typ k) with (next_typ ws) by (unfold next_typ; by rewrite <- Hk). by rewrite Hop.
Qed.

(** An expression without operators of level [p] is read by the level above. *)
Lemma reads_down n p q W e : (1 <= p <= q)%nat -> (q <= 7)%nat -> (0 < n)%nat ->
  (forall ws, follow q ws -> reads (at_level n q) (W ++ ws) e ws) ->
  forall ws, follow p ws -> reads (at_level n p) (W ++ ws) e ws.
Proof.
  intros Hpq Hq Hn Hcore. remember (q - p)%nat as d eqn:Hd. revert p Hpq Hd. induction d as [|d IH]; intros p Hpq Hd ws Hw.
  - by replace p with q by lia; apply Hcore; replace q with p by lia.
  - rewrite at_level_step by lia. eapply reads_bind; [apply (IH (S p)); [lia|lia|by eapply follow_mono; [|exact Hw]; lia]|].
    apply reads_loop_stop; [by apply Hw|done].
Qed.

Lemma reads_unary_skip n m W e ws : (exists w W', W = w :: W' /\ Parser.is_unary w.1.1 = false) -> (0 < m)%nat ->
  reads (at_level n 8) (W ++ ws) e ws -> reads (Parser.unary_loop (Parser.parse_expr n) n m) (W ++ ws) e ws.
Proof.
  intros (w & W' & -> & Hu) Hm Hr. destruct m as [|m]; [lia|]. cbn [Parser.unary_loop].
  apply (reads_back _ (fun _ => at_level n 8)); [|done].
  intros k Hk. cbn in Hk. replace (tok_typ k) with (w.1.1) by (by rewrite <- Hk). by rewrite Hu.
Qed.

(** ** Postfix *)

Lemma reads_postfix_stop rec n m e ws : next_typ ws ∉ opens -> (0 < m)%nat -> reads (Parser.postfix_loop rec n m e) ws e ws.
Proof.
  intros Hop Hm. destruct m as [|m]; [lia|]. cbn [Parser.postfix_loop].
  apply (reads_back _ (fun _ => mret e)); [|intros; apply reads_ret].
  intros k Hk. rewrite !(is_tok_data _ _ _ Hk). change ((next ws).1.1) with (next_typ ws).
  unfold opens in Hop. rewrite !not_elem_of_cons in Hop. destruct Hop as (H1 & H2 & H3 & _).
  by rewrite !bool_decide_false by done.
Qed.

(** ** Reading back *)

(** In every place. *)
Definition read_at_levels (e : Expr) : Prop := forall n p ws, (1 <= p <= 8)%nat -> (length (expr_words p e) < n)%nat -> follow p ws ->
  reads (at_level n p) (expr_words p e ++ ws) e ws.
(** As the start of a chain of postfix operators, or of operators of level [q]. *)
Fixpoint postfixes (e : Expr) : nat :=
  match e with ECall _ _ _ => 1 | EIndex e _ _ => S (postfixes e) | EDot e _ _ => S (postfixes e) | _ => 0 end.
Definition read_as_postfix (e : Expr) : Prop := forall n ws x ws', (length (expr_words 8 e) < n)%nat ->
  reads (Parser.postfix_loop (Parser.parse_expr n) n (n - postfixes e) e) ws x ws' -> reads (at_level n 8) (expr_words 8 e ++ ws) x ws'.
Fixpoint spine (q : nat) (e : Expr) : nat :=
  match e with EBinary o l _ _ => if (op_level o =? q)%nat then S (spine q l) else 0 | _ => 0 end.
Definition read_as_left (e : Expr) : Prop := forall q n ws x ws', (1 <= q <= 6)%nat -> (length (expr_words q e) < n)%nat -> follow (S q) ws ->
  reads (Parser.level_loop (op_at q) (type_at q) (at_level n (S q)) (n - spine q e) e) ws x ws' ->
  reads (at_level n q) (expr_words q e ++ ws) x ws'.

Lemma reads_rec e n ws : read_at_levels e -> (S (length (expr_words 1 e)) < n)%nat -> follow 1 ws ->
  reads (Parser.parse_expr n) (expr_words 1 e ++ ws) e ws.
Proof. intros He Hn Hw. destruct n as [|n]; [lia|]. apply (He n 1%nat); [lia|lia|done]. Qed.

Definition starters : list TokenType.t :=
  [TokenType.Constant; TokenType.Identifier; TokenType.SymNil; TokenType.Char "("].
Lemma unary_token_is o : o <> USend -> Parser.is_unary (unary_token o) = true /\ unary_type (unary_token o) = Ok o.
Proof. by destruct o. Qed.
Definition starts (p : nat) (t : TokenType.t) : Prop := t ∈ starters \/ (p < 8)%nat /\ Parser.is_unary t = true.
Lemma words_head e : expr_ok e -> forall p, (p <= 8)%nat -> exists w W, expr_words p e = w :: W /\ starts p w.1.1.
Proof.
  assert (forall t, bool_decide (t ∈ starters) = true -> forall p, starts p t) as Hst.
  { intros t Ht p. left. by apply bool_decide_eq_true in Ht. }
  revert e. refine (expr_induction _ _ _ _ _ _ _ _); cbn [expr_words].
  - intros [] t _ p Hp; (eexists _, _; split; [done|by apply Hst]).
  - intros name p Hp. eexists _, _. split; [done|by apply Hst].
  - intros o l r _ _ IHl _ p Hp. destruct (Nat.ltb_spec (op_level o) p); cbn [parens].
    { eexists _, _. split; [done|by apply Hst]. }
    destruct (op_at_token o) as (_ & _ & Ho). destruct (IHl (op_level o)) as (w & W & -> & Hw); [lia|].
    eexists _, _. split; [done|]. destruct Hw as [Hw|[? Hw]]; [by left|right; split; [lia|done]].
  - intros o e Ho _ _ p Hp. destruct (Nat.ltb_spec 7 p); cbn [parens]; (eexists _, _; split; [done|]); [by apply Hst|].
    right. split; [lia|]. by apply unary_token_is.
  - intros name args _ _ p Hp. eexists _, _. split; [done|by apply Hst].
  - intros e i _ _ IHe _ p Hp. destruct (IHe 8%nat) as (w & W & -> & Hw); [lia|]. eexists _, _. split; [done|].
    destruct Hw as [Hw|[? Hw]]; [by left|lia].
  - intros e name _ IHe p Hp. destruct (IHe 8%nat) as (w & W & -> & Hw); [lia|]. eexists _, _. split; [done|].
    destruct Hw as [Hw|[? Hw]]; [by left|lia].
Qed.

Lemma starters_not_unary t : t ∈ starters -> Parser.is_unary t = false.
Proof. unfold starters. intros Ht. repeat (apply elem_of_cons in Ht as [->|Ht]; [done|]). by apply elem_of_nil in Ht. Qed.

(** From a chain of postfix operators to every level. *)
Lemma postfix_levels e : expr_ok e -> (postfixes e <= length (expr_words 8 e))%nat -> (forall p, (p <= 8)%nat -> expr_words p e = expr_words 8 e) ->
  read_as_postfix e -> read_at_levels e.
Proof.
  intros Hok Hpf Hw Ht n p ws Hp Hn Hf. rewrite (Hw p) in * by lia.
  assert (forall ws, follow 8 ws -> reads (at_level n 8) (expr_words 8 e ++ ws) e ws) as H8.
  { intros ws' [_ Hop]. apply Ht; [done|]. apply reads_postfix_stop; [done|lia]. }
  assert (forall ws, follow 7 ws -> reads (at_level n 7) (expr_words 8 e ++ ws) e ws) as H7.
  { intros ws' Hf'. apply reads_unary_skip; [|lia|apply H8; by eapply follow_mono; [|exact Hf']; lia].
    destruct (words_head e Hok 8) as (w & W & E & [Hs|[? _]]); [lia| |lia]. exists w, W. split; [done|by apply starters_not_unary]. }
  destruct (decide (p = 8%nat)) as [->|]; [by apply H8|]. apply (reads_down n p 7); [lia|lia|lia|done|done].
Qed.

(** A parenthesized expression as a primary. *)
Lemma reads_paren n e W ws x ws' : (forall ws, follow 1 ws -> reads (Parser.parse_expr n) (W ++ ws) e ws) ->
  reads (Parser.postfix_loop (Parser.parse_expr n) n n e) ws x ws' ->
  reads (at_level n 8) ((ch "(" :: W ++ [ch ")"]) ++ ws) x ws'.
Proof.
  intros He Hx. cbn [at_level]. unfold Parser.parse_postfix_expr. eapply (reads_bind _ _ _ e); [|exact Hx].
  unfold Parser.parse_primary_expr. cbn [app]. token k Hk. rewrite <- app_assoc.
  eapply reads_bind; [apply He; by apply ends_follow|]. apply reads_expect; [done|]. intros. apply reads_ret.
Qed.

(** From an operator of level [q] to every level. *)
Lemma operator_levels e q W : (1 <= q <= 7)%nat -> postfixes e = 0%nat -> (forall p, expr_words p e = parens (q <? p)%nat W) ->
  (forall n ws, (length W < n)%nat -> follow q ws -> reads (at_level n q) (W ++ ws) e ws) ->
  read_at_levels e /\ read_as_postfix e.
Proof.
  intros Hq Hpf Hw Hcore.
  assert (forall n p ws, (1 <= p <= q)%nat -> (length W < n)%nat -> follow p ws -> reads (at_level n p) (W ++ ws) e ws) as Hlow.
  { intros n p ws Hp Hn. apply (reads_down n p q); [lia|lia|lia|]. intros. by apply Hcore. }
  assert (forall n ws, (S (length W) < n)%nat -> follow 1 ws -> reads (Parser.parse_expr n) (W ++ ws) e ws) as Hrec.
  { intros [|n] ws Hn Hf; [lia|]. apply (Hlow n 1%nat); [lia|lia|done]. }
  assert (read_as_postfix e) as Ht.
  { intros n ws x ws' Hn Hx. rewrite Hpf, Nat.sub_0_r in Hx. rewrite Hw in *. replace (q <? 8)%nat with true in * by (symmetry; apply Nat.ltb_lt; lia).
    cbn [parens length] in *. rewrite length_app in Hn. cbn in Hn. apply (reads_paren n e); [|done]. intros. apply Hrec; [lia|done]. }
  split; [|done]. intros n p ws Hp Hn Hf. rewrite Hw in *. destruct (Nat.ltb_spec q p) as [Hqp|Hqp]; [|by apply Hlow; [lia|..]].
  assert (expr_words 8 e = parens true W) as E8 by (rewrite Hw; by replace (q <? 8)%nat with true by (symmetry; apply Nat.ltb_lt; lia)).
  assert (forall ws, follow 8 ws -> reads (at_level n 8) (parens true W ++ ws) e ws) as H8.
  { intros ws' [_ Hop]. rewrite <- E8. apply Ht; [by rewrite E8|]. rewrite Hpf. apply reads_postfix_stop; [done|lia]. }
  destruct (decide (p = 8%nat)) as [->|]; [by apply H8|]. apply (reads_down n p 7); [lia|lia|lia| |done].
  intros ws' Hf'. apply reads_unary_skip; [by eexists _, _|lia|]. apply H8. by eapply follow_mono; [|exact Hf']; lia.
Qed.

Lemma left_levels e q n ws x ws' : read_at_levels e -> (1 <= q <= 6)%nat -> spine q e = 0%nat -> expr_words (S q) e = expr_words q e ->
  (length (expr_words q e) < n)%nat -> follow (S q) ws ->
  reads (Parser.level_loop (op_at q) (type_at q) (at_level n (S q)) (n - spine q e) e) ws x ws' ->
  reads (at_level n q) (expr_words q e ++ ws) x ws'.
Proof.
  intros He Hq Hsp Hw Hn Hf Hx. rewrite at_level_step by lia. rewrite Hsp, Nat.sub_0_r in Hx. rewrite <- Hw in *.
  eapply reads_bind; [by apply He; [lia|..]|exact Hx].
Qed.

Lemma spine_length e q : (spine q e <= length (expr_words q e))%nat.
Proof.
  induction e as [v| | o l IHl r _ t| | | | | | | |]; cbn [spine]; try lia. destruct (Nat.eqb_spec (op_level o) q) as [<-|]; [|lia].
  cbn [expr_words]. rewrite Nat.ltb_irrefl. cbn [parens]. rewrite length_app. cbn. lia.
Qed.
Lemma postfixes_length e : (postfixes e <= length (expr_words 8 e))%nat.
Proof.
  induction e; cbn [postfixes expr_words]; try lia; cbn [length]; rewrite ?length_app; cbn [length]; lia.
Qed.

(** A binary operator, read by its level's loop. *)
Lemma reads_binary o l r n ws x ws' : read_as_left l -> read_at_levels r -> 
  (length (expr_words (op_level o) l ++ kw (op_token o) :: expr_words (S (op_level o)) r) < n)%nat -> follow (S (op_level o)) ws ->
  reads (Parser.level_loop (op_at (op_level o)) (type_at (op_level o)) (at_level n (S (op_level o)))
           (n - S (spine (op_level o) l)) (EBinary o l r (op_type o))) ws x ws' ->
  reads (at_level n (op_level o)) ((expr_words (op_level o) l ++ kw (op_token o) :: expr_words (S (op_level o)) r) ++ ws) x ws'.
Proof.
  intros Hl Hr Hn Hf Hx. pose proof (spine_length l (op_level o)) as Hsp. destruct (op_at_token o) as (Eo & Et & Ho). rewrite length_app in Hn. cbn [length] in Hn.
  rewrite <- app_assoc. apply Hl; [done|lia|apply follow_operator|].
  replace (n - spine (op_level o) l)%nat with (S (n - S (spine (op_level o) l))) by lia. cbn [Parser.level_loop app].
  apply reads_get. intros k Hk. injection Hk as -> _ _. rewrite Eo.
  eapply reads_bind; [apply Hr; [lia|lia|done]|]. by rewrite Et in *.
Qed.

(** Arguments. *)
Definition more (es : list Expr) : list Word := es ≫= (fun e => ch "," :: expr_words 1 e).
Lemma separated_more e es : separated (expr_words 1) (e :: es) = expr_words 1 e ++ more es.
Proof.
  revert e. induction es as [|e' es IH]; intros e; [done|]. change (separated (expr_words 1) (e :: e' :: es)) with
    (expr_words 1 e ++ ch "," :: separated (expr_words 1) (e' :: es)). by rewrite IH.
Qed.

Lemma starts_not_closer t : starts 1 t -> t <> TokenType.Char ")".
Proof.
  intros [Ht|[_ Ht]] ->; [|by vm_compute in Ht]. revert Ht. by apply (bool_decide_unpack _).
Qed.

Lemma reads_list_loop n m es acc ws : Forall expr_ok es -> Forall read_at_levels es -> (length (more es) < n)%nat -> (length es < m)%nat ->
  reads (Parser.list_loop (Parser.parse_expr n) m (TokenType.Char ")") acc) (more es ++ ch ")" :: ws) (acc ++ es) (ch ")" :: ws).
Proof.
  intros Hok Hes. revert m acc. induction Hes as [|e es He _ IH]; intros m acc Hn Hm; (destruct m as [|m]; [cbn in Hm; lia|]); cbn [Parser.list_loop].
  - apply reads_peek. cbn. rewrite app_nil_r. apply reads_ret.
  - apply Forall_cons in Hok as [Hoke Hok]. unfold more in Hn |- *. cbn [mbind list_bind] in Hn |- *. fold (more es) in Hn |- *.
    cbn [app length] in Hn |- *. rewrite length_app in Hn. cbn in Hm.
    apply reads_peek. cbn. apply reads_get. intros k _. apply reads_peek.
    destruct (words_head e Hoke 1) as (w & W & Ew & Hw); [lia|]. rewrite bool_decide_false.
    2: { rewrite Ew. cbn. by apply starts_not_closer. }
    rewrite <- app_assoc. eapply reads_bind; [apply reads_rec; [done|lia|]|].
    { apply ends_follow. by destruct es. }
    specialize (IH Hok m (acc ++ [e])). rewrite <- app_assoc in IH. apply IH; lia.
Qed.

Lemma reads_args n args ws : Forall expr_ok args -> Forall read_at_levels args -> (S (length (separated (expr_words 1) args)) < n)%nat ->
  reads (Parser.parse_expr_list (Parser.parse_expr n) n (TokenType.Char ")")) (separated (expr_words 1) args ++ ch ")" :: ws) args ws.
Proof.
  intros Hok Hes Hn. unfold Parser.parse_expr_list. destruct args as [|e es].
  { apply reads_peek. cbn. apply reads_get. intros. apply reads_ret. }
  rewrite separated_more, length_app in Hn. rewrite separated_more, <- app_assoc.
  apply Forall_cons in Hok as [Hoke Hok]. apply Forall_cons in Hes as [He Hes].
  pose proof (length_bind_le (fun e => ch "," :: expr_words 1 e) es ltac:(done)) as Hl. fold (more es) in Hl.
  apply reads_peek. destruct (words_head e Hoke 1) as (w & W & Ew & Hw); [lia|]. rewrite bool_decide_false.
  2: { rewrite Ew. cbn. by apply starts_not_closer. }
  eapply reads_bind; [apply reads_rec; [done|lia|apply ends_follow; by destruct es]|].
  eapply reads_bind; [apply reads_list_loop; [done|done|lia|lia]|]. cbn [app]. apply reads_expect; [done|]. intros. apply reads_ret.
Qed.

(** *** Every expression *)

(** As the operand of a chain of unary operators. *)
Definition read_as_operand (e : Expr) : Prop := forall n m ws, (length (expr_words 7 e) < m <= n)%nat -> follow 7 ws ->
  reads (Parser.unary_loop (Parser.parse_expr n) n m) (expr_words 7 e ++ ws) e ws.
Definition read_back (e : Expr) : Prop := read_at_levels e /\ read_as_postfix e /\ read_as_left e /\ read_as_operand e.

Lemma operand_levels e : expr_ok e -> expr_words 7 e = expr_words 8 e -> read_at_levels e -> read_as_operand e.
Proof.
  intros Hok Hw He n m ws Hn Hf. rewrite Hw in *. destruct (words_head e Hok 8) as (w & W & E & [Hs|[? _]]); [lia| |lia].
  apply reads_unary_skip; [|lia|apply He; [lia|lia|by eapply follow_mono; [|exact Hf]; lia]].
  exists w, W. split; [done|by apply starters_not_unary].
Qed.


Lemma read_back_postfix e : expr_ok e -> (forall p, expr_words p e = expr_words 8 e) -> (forall q, spine q e = 0%nat) -> read_as_postfix e -> read_back e.
Proof.
  intros Hok Hw Hsp Ht. assert (read_at_levels e) as Hl by (apply postfix_levels; [done|apply postfixes_length|done|done]).
  split_and!; [done|done| |by apply operand_levels]. intros q n ws x ws' Hq. apply left_levels; [done|done|done|by rewrite !(Hw (S q)), (Hw q)].
Qed.

Lemma read_const v t : const_ok v t -> read_back (EConstant v t).
Proof.
  intros Hv. apply read_back_postfix; [done|by destruct v|done|]. intros n ws x ws' Hn Hx. cbn [postfixes] in Hx. rewrite Nat.sub_0_r in Hx.
  cbn [at_level]. unfold Parser.parse_postfix_expr. eapply reads_bind; [|exact Hx]. unfold Parser.parse_primary_expr.
  destruct v; cbn [expr_words app]; token k Hk.
  all: try (injection Hk as _ _ ->; unfold const_ok in Hv; rewrite Hv; apply reads_ret). rewrite <- Hv. apply reads_ret.
Qed.

Lemma read_variable name : read_back (EVariableRef name Info_default).
Proof.
  apply read_back_postfix; [done|done|done|]. intros n ws x ws' Hn Hx. cbn [postfixes] in Hx. rewrite Nat.sub_0_r in Hx.
  cbn [at_level]. unfold Parser.parse_postfix_expr. eapply reads_bind; [|exact Hx]. unfold Parser.parse_primary_expr.
  cbn [expr_words app]. token k Hk. injection Hk as _ -> _. apply reads_ret.
Qed.

Lemma read_binary o l r : expr_ok l -> expr_ok r -> read_back l -> read_back r -> read_back (EBinary o l r (op_type o)).
Proof.
  intros Hokl Hokr (_ & _ & Hl & _) (Hr & _). set (e := EBinary o l r (op_type o)).
  set (W := expr_words (op_level o) l ++ kw (op_token o) :: expr_words (S (op_level o)) r).
  destruct (op_at_token o) as (Eo & _ & Ho). pose proof (spine_length l (op_level o)) as Hsp.
  destruct (operator_levels e (op_level o) W) as [Hlev Hpf]; [lia|done|done| |].
  { intros n ws Hn Hf. apply reads_binary; [done|done|done|by eapply follow_mono; [|exact Hf]; lia|].
    apply reads_loop_stop; [by apply Hf|]. unfold W in Hn. rewrite length_app in Hn. cbn in Hn. lia. }
  assert (expr_words 7 e = expr_words 8 e) as E78.
  { unfold e. cbn [expr_words]. f_equal. apply eq_true_iff_eq. rewrite !Nat.ltb_lt. lia. }
  split_and!; [done|done| |by apply operand_levels]. intros q n ws x ws' Hq Hn Hf Hx. destruct (decide (op_level o = q)) as [<-|Hne].
  - cbn [expr_words spine e] in Hx, Hn |- *. rewrite Nat.ltb_irrefl, Nat.eqb_refl in *. by apply reads_binary.
  - apply left_levels; try done.
    + cbn. by rewrite (proj2 (Nat.eqb_neq _ _)).
    + cbn [expr_words e]. f_equal. apply eq_true_iff_eq. rewrite !Nat.ltb_lt. lia.
Qed.

Lemma read_unary o e : o <> USend -> expr_ok e -> read_back e -> read_back (EUnary o e Info_default).
Proof.
  intros Ho Hok (_ & _ & _ & He). destruct (unary_token_is o Ho) as [Hu Ht]. set (u := EUnary o e Info_default).
  assert (read_as_operand u) as Hop.
  { intros n m ws Hn Hf. cbn [expr_words u parens length] in Hn |- *. cbn in Hn. destruct m as [|m]; [lia|]. cbn [Parser.unary_loop app].
    apply reads_get. intros k Hk. replace (tok_typ k) with (unary_token o) by (by injection Hk). rewrite Hu, Ht.
    eapply (reads_bind _ _ _ o); [intros l Hl; by exists l|]. eapply reads_bind; [|apply reads_ret]. apply He; [lia|done]. }
  destruct (operator_levels u 7 (kw (unary_token o) :: expr_words 7 e)) as [Hlev Hpf]; [lia|done|done| |].
  { intros n ws Hn Hf. apply (Hop n n); [split; [exact Hn|done]|done]. }
  split_and!; [done|done| |done]. intros q n ws x ws' Hq. apply left_levels; [done|done|done|].
  unfold u. cbn [expr_words]. f_equal. apply eq_true_iff_eq. rewrite !Nat.ltb_lt. lia.
Qed.

Lemma read_call name args : Forall expr_ok args -> Forall read_back args -> read_back (ECall name args Info_default).
Proof.
  intros Hok Hargs. apply read_back_postfix; [by apply call_ok|done|done|]. intros n ws x ws' Hn Hx.
  cbn [postfixes expr_words length app] in Hn, Hx |- *. rewrite length_app in Hn. cbn in Hn.
  cbn [at_level]. unfold Parser.parse_postfix_expr. eapply (reads_bind _ _ _ (EVariableRef name Info_default)).
  { unfold Parser.parse_primary_expr. token k Hk. injection Hk as _ -> _. apply reads_ret. }
  destruct n as [|n]; [lia|]. rewrite Nat.sub_succ, Nat.sub_0_r in Hx. cbn [Parser.postfix_loop]. token k Hk.
  rewrite <- app_assoc. eapply reads_bind; [|exact Hx].
  apply reads_args; [done|by eapply Forall_impl; [exact Hargs|]; intros ? []|lia].
Qed.

Lemma read_index e i : expr_ok e -> expr_ok i -> read_back e -> read_back i -> read_back (EIndex e i Info_default).
Proof.
  intros Hoke Hoki (_ & He & _) (Hi & _). apply read_back_postfix; [done|done|done|]. intros n ws x ws' Hn Hx.
  pose proof (postfixes_length e) as Hp. cbn [postfixes expr_words] in Hn, Hx |- *. rewrite length_app in Hn. cbn [length] in Hn.
  rewrite length_app in Hn. cbn [length] in Hn. rewrite <- app_assoc. apply He; [lia|].
  replace (n - postfixes e)%nat with (S (n - S (postfixes e))) by lia. cbn [Parser.postfix_loop app]. token k Hk.
  rewrite <- app_assoc. eapply reads_bind; [apply reads_rec; [done|lia|by apply ends_follow]|].
  apply reads_expect; [done|]. intros. exact Hx.
Qed.

Lemma read_dot e name : expr_ok e -> read_back e -> read_back (EDot e name Info_default).
Proof.
  intros Hoke (_ & He & _). apply read_back_postfix; [done|done|done|]. intros n ws x ws' Hn Hx.
  pose proof (postfixes_length e) as Hp. cbn [postfixes expr_words] in Hn, Hx |- *. rewrite length_app in Hn. cbn [length] in Hn.
  rewrite <- app_assoc. apply He; [lia|].
  replace (n - postfixes e)%nat with (S (n - S (postfixes e))) by lia. cbn [Parser.postfix_loop app]. token k Hk.
  apply reads_expect; [done|]. intros k' Hk'. injection Hk' as _ -> _. exact Hx.
Qed.

Lemma read_expr e : expr_ok e -> read_back e.
Proof.
  revert e. apply expr_induction;
    eauto using read_const, read_variable, read_binary, read_unary, read_call, read_index, read_dot.
Qed.

(** The parser reads an expression back. *)
Lemma reads_expr e n ws : expr_ok e -> (S (length (expr_words 1 e)) < n)%nat -> ends_expr (next_typ ws) = true ->
  reads (Parser.parse_expr n) (expr_words 1 e ++ ws) e ws.
Proof. intros Hok Hn Hw. apply reads_rec; [by apply read_expr|done|by apply ends_follow]. Qed.
End parse_back.
