(* ===== verification/QclPrintDecl.v ===== *)
(** * Printing and parsing back types, statements and declarations *)

From S2P Require Import Prelude.
From S2P Require Import Bytes.
From S2P Require Import QclTypes.
From S2P Require Import QclMpa.
From S2P Require Import QclSsa.
From S2P Require Import QclCompiler.
From S2P Require Import QclLexer.
From S2P Require Import QclParser.
From S2P Require Import QclPrint.

(** ** Words *)

Fixpoint type_words (i : Info) : list Word :=
  match i with
  | mkInfo _ TArray _ _ _ _ (Some e) n _ => ch "[" :: const (VInt (Mpa.from_bigint n 0)) :: ch "]" :: type_words e
  | mkInfo _ TSlice _ _ _ _ (Some e) _ _ => ch "[" :: ch "]" :: type_words e
  | mkInfo _ TPtr _ _ _ _ (Some e) _ _ => ch "*" :: type_words e
  | mkInfo _ t _ b _ _ _ _ _ => [ident (type_name t ++ display_i32 b)]
  end.
(** Scalars the text parser knows, and arrays, slices and pointers. *)
Fixpoint type_ok (i : Info) : Prop :=
  match i with
  | mkInfo _ TArray _ _ _ _ (Some e) n _ => i = array_of n e /\ 0 <= n < 2 ^ 31 /\ type_ok e
  | mkInfo _ TSlice _ _ _ _ (Some e) _ _ => i = slice_of e /\ type_ok e
  | mkInfo _ TPtr _ _ _ _ (Some e) _ _ => i = ptr_to e /\ type_ok e
  | mkInfo _ t _ b _ _ _ _ _ => QclTypes.parse_type (type_name t ++ display_i32 b) = Ok i
  end.

Definition param_words (p : list byte * Info) : list Word := ident p.1 :: type_words p.2.
Definition returns_words (rs : list (list byte * Info)) : list Word :=
  match rs with
  | [] => []
  | [([], t)] => type_words t
  | _ => ch "(" :: separated param_words rs ++ [ch ")"]
  end.

Definition compound_token (o : BinaryType) : option TokenType.t :=
  match o with
  | BAdd => Some TokenType.PlusEq | BSub => Some TokenType.MinusEq | BMul => Some TokenType.MultEq
  | BDiv => Some TokenType.DivEq | BBand => Some TokenType.AndEq | BBor => Some TokenType.OrEq
  | BBxor => Some TokenType.XorEq | BLshift => Some TokenType.LshiftEq | BRshift => Some TokenType.RshiftEq
  | _ => None
  end.

(** Statements made of expressions. *)
Definition simple_words (st : Stmt) : list Word :=
  match st with
  | SShortDecl [name] [e] => ident name :: kw TokenType.DefAssign :: expr_words 1 e
  | SAssign [a] [e] => expr_words 1 a ++ ch "=" :: expr_words 1 e
  | SExprStmt e => expr_words 1 e
  | SIncrement e => expr_words 1 e ++ [kw TokenType.PlusPlus]
  | SDecrement e => expr_words 1 e ++ [kw TokenType.MinusMinus]
  | SCompoundAssign o a e => expr_words 1 a ++ kw (default TokenType.Eof (compound_token o)) :: expr_words 1 e
  | _ => []
  end.
Definition simple_ok (st : Stmt) : Prop :=
  match st with
  | SShortDecl [_] [e] => expr_ok e
  | SAssign [a] [e] => expr_ok a /\ expr_ok e
  | SExprStmt e | SIncrement e | SDecrement e => expr_ok e
  | SCompoundAssign o a e => is_Some (compound_token o) /\ expr_ok a /\ expr_ok e
  | _ => False
  end.

Definition opt_words {A} (f : A -> list Word) (o : option A) : list Word := match o with Some a => f a | None => [] end.
Definition opt_ok {A} (P : A -> Prop) (o : option A) : Prop := match o with Some a => P a | None => True end.

Fixpoint stmt_words (st : Stmt) : list Word :=
  match st with
  | SReturn es => kw TokenType.SymReturn :: separated (expr_words 1) es
  | SIf None c body els =>
      kw TokenType.SymIf :: expr_words 1 c ++ ch "{" :: (body ≫= stmt_words) ++ ch "}" ::
        match els with
        | [] => []
        | [SIf None _ _ _ as st] => kw TokenType.SymElse :: stmt_words st
        | _ => kw TokenType.SymElse :: ch "{" :: (els ≫= stmt_words) ++ [ch "}"]
        end
  | SFor init c post body =>
      kw TokenType.SymFor :: opt_words simple_words init ++ ch ";" :: opt_words (expr_words 1) c ++ ch ";" ::
        opt_words simple_words post ++ ch "{" :: (body ≫= stmt_words) ++ [ch "}"]
  | SForRange None None e body =>
      kw TokenType.SymFor :: kw TokenType.SymRange :: expr_words 1 e ++ ch "{" :: (body ≫= stmt_words) ++ [ch "}"]
  | SBlock body => ch "{" :: (body ≫= stmt_words) ++ [ch "}"]
  | st => simple_words st
  end.
Definition block_words (body : list Stmt) : list Word := body ≫= stmt_words.

(** What may follow a statement.  Statements are not separated, so that one must
    not begin with a token that would continue the one before it; a return
    without values is last. *)
Definition after_stmt (t : TokenType.t) : bool :=
  ends_expr t && bool_decide (t ∉ [TokenType.Char ","; TokenType.Char "="; TokenType.DefAssign; TokenType.PlusPlus; TokenType.MinusMinus;
    TokenType.SymElse]) && bool_decide (Parser.compound_op t = None).
Definition may_follow (st : Stmt) (ws : list Word) : Prop :=
  after_stmt (next_typ ws) = true /\
  (st = SReturn [] -> next_typ ws ∈ [TokenType.Char "}"; TokenType.Eof; TokenType.Char ";"]).
Fixpoint sequence_ok (body : list Stmt) : Prop :=
  match body with
  | [] => True
  | st :: body => (body <> [] -> may_follow st (block_words body)) /\ sequence_ok body
  end.

Fixpoint stmt_ok (st : Stmt) : Prop :=
  let all := fix all sts := match sts with [] => True | st :: sts => stmt_ok st /\ all sts end in
  match st with
  | SReturn es => Forall expr_ok es
  | SIf None c body els => expr_ok c /\ all body /\ sequence_ok body /\ all els /\ sequence_ok els
  | SFor init c post body => opt_ok simple_ok init /\ opt_ok expr_ok c /\ opt_ok simple_ok post /\ all body /\ sequence_ok body
  | SForRange None None e body => expr_ok e /\ all body /\ sequence_ok body
  | SBlock body => all body /\ sequence_ok body
  | st => simple_ok st
  end.
Definition block_ok (body : list Stmt) : Prop := Forall stmt_ok body /\ sequence_ok body.
Lemma all_ok body :
  (fix all sts := match sts with [] => True | st :: sts => stmt_ok st /\ all sts end) body <-> Forall stmt_ok body.
Proof. induction body as [|st body IH]; [done|]. by rewrite Forall_cons, IH. Qed.

Definition func_words (f : FuncDef) : list Word :=
  kw TokenType.SymFunc :: ident (f_name f) :: ch "(" :: separated param_words (params f) ++ ch ")" ::
    returns_words (returns f) ++ ch "{" :: block_words (f_body f) ++ [ch "}"].
Definition params_ok (ps : list (list byte * Info)) : Prop := Forall (fun p => type_ok p.2) ps.
Definition returns_ok (rs : list (list byte * Info)) : Prop := params_ok rs.
Definition func_ok (f : FuncDef) : Prop :=
  params_ok (params f) /\ returns_ok (returns f) /\ block_ok (f_body f) /\ f_annotations f = [].

Definition typedef_words (d : TypeDef) : list Word := kw TokenType.SymType :: ident (td_name d) :: type_words (td_type d).
Definition package_words (p : Package) : list Word :=
  kw TokenType.SymPackage :: ident (pkg_name p) :: (types p ≫= typedef_words) ++ (functions p ≫= func_words).
Definition package_ok (p : Package) : Prop :=
  imports p = ∅ /\ constants p = [] /\ variables p = [] /\ Forall (fun d => type_ok (td_type d)) (types p) /\ Forall func_ok (functions p).

Section parse_back.
Context `{Texts}.

(** ** Types and parameters *)

Lemma int64_small n : 0 <= n < 2 ^ 31 -> as_i32 (Mpa.int64 (Mpa.from_bigint n 0)) = n.
Proof.
  intros Hn. assert (0 <= Mpa.bit_length n <= 31) as Hl.
  { unfold Mpa.bit_length. destruct (Z.eqb_spec n 0); [lia|]. rewrite Z.abs_eq by lia. pose proof (Z.log2_nonneg n).
    pose proof (Z.log2_lt_pow2 n 31). lia. }
  assert (Mpa.from_bigint n 0 = Mpa.from_bigint n 32) as ->.
  { unfold Mpa.from_bigint. cbn [Z.eqb]. rewrite as_i32_id by (unfold is_i32; lia). destruct (Z.ltb_spec 32 (Mpa.bit_length n)); [lia|].
    by rewrite Z.max_l by lia. }
  rewrite Mpa.int64_from_bigint by (lia || unfold is_i64; lia). unfold as_signed. rewrite Z.mod_small by lia.
  rewrite (proj2 (Z.ltb_lt _ _)) by lia. apply as_i32_id. unfold is_i32. lia.
Qed.

Lemma reads_type i : type_ok i -> forall n ws, (length (type_words i) < n)%nat -> reads (Parser.parse_type n) (type_words i ++ ws) i ws.
Proof.
  revert i. fix IH 1. intros i. destruct i as [id ty c b m fs el sz off].
  assert (forall s n ws, QclTypes.parse_type s = Ok (mkInfo id ty c b m fs el sz off) -> (0 < n)%nat ->
    reads (Parser.parse_type n) (ident s :: ws) (mkInfo id ty c b m fs el sz off) ws) as Hs.
  { intros s [|n] ws Hp Hn; [lia|]. cbn [Parser.parse_type]. token k Hk. injection Hk as _ -> _. rewrite Hp. apply reads_ret. }
  intros Hok n ws Hn.
  destruct ty; try (by apply Hs; [exact Hok|lia]); (destruct el as [e|]; [|by apply Hs; [exact Hok|lia]]); specialize (IH e);
    (destruct n as [|n]; [lia|]); cbn [type_words length] in Hn; cbn [type_words Parser.parse_type app].
  - destruct Hok as (-> & Hsz & He). token k Hk. token k2 Hk2. injection Hk2 as _ _ ->.
    apply reads_expect; [done|]. intros _ _. eapply reads_bind; [apply IH; [done|lia]|]. rewrite int64_small by done. apply reads_ret.
  - destruct Hok as (-> & He). token k Hk. token k2 Hk2. eapply reads_bind; [apply IH; [done|lia]|]. apply reads_ret.
  - destruct Hok as (-> & He). token k Hk. eapply reads_bind; [apply IH; [done|lia]|]. apply reads_ret.
Qed.

Lemma type_head i : exists w W, type_words i = w :: W /\ w.1.1 ∈ [TokenType.Identifier; TokenType.Char "["; TokenType.Char "*"].
Proof.
  destruct i as [id ty c b m fs el sz off].
  destruct ty; try destruct el; (eexists _, _; split; [done|by apply (bool_decide_unpack _)]).
Qed.

Lemma reads_params ps : params_ok ps -> forall n acc ws, (length (separated param_words ps) + 1 < n)%nat ->
  next_typ ws ∉ [TokenType.Char ","; TokenType.Identifier] ->
  reads (Parser.params_loop n acc) (separated param_words ps ++ ws) (acc ++ ps) ws.
Proof.
  intros Hok. induction Hok as [|[name t] ps Ht Hok IH]; intros n acc ws Hn Hw.
  { rewrite app_nil_r. destruct n as [|n]; [lia|]. cbn [Parser.params_loop app separated].
    apply (reads_back _ (fun _ => mret acc)); [|intros; apply reads_ret]. intros k Hk. rewrite !(is_tok_data _ _ _ Hk).
    rewrite !not_elem_of_cons in Hw. change (next ws).1.1 with (next_typ ws). by rewrite !bool_decide_false by apply Hw. }
  cbn [separated] in Hn |- *. unfold param_words in Hn at 1 |- * at 1. cbn [fst snd app length] in Hn, Ht |- *.
  rewrite length_app in Hn. destruct n as [|n]; [lia|]. cbn [Parser.params_loop]. token k Hk. injection Hk as _ -> _. clear k.
  rewrite <- app_assoc. destruct (type_head t) as (w & W & Ew & Hwt).
  eapply (reads_bind _ _ _ ([name], acc)).
  { destruct n as [|n]; [lia|]. cbn [Parser.names_loop]. rewrite Ew. apply (reads_back _ (fun _ => mret ([name], acc))); [|intros; apply reads_ret].
    intros k Hk. rewrite (is_tok_data _ _ _ Hk). cbn [next head default app]. rewrite bool_decide_false; [done|].
    intros E. change (id w) with w in E. rewrite E in Hwt. revert Hwt. by apply (bool_decide_unpack _). }
  cbn beta iota. rewrite <- Ew. eapply reads_bind; [apply reads_type; [done|lia]|]. cbn [fmap list_fmap].
  replace (acc ++ (name, t) :: ps) with ((acc ++ [(name, t)]) ++ ps) by by rewrite <- app_assoc.
  destruct ps as [|p ps]; [by apply IH; [cbn; lia|]|]. cbn [app]. cbn [length] in Hn.
  destruct n as [|n]; [lia|]. cbn [Parser.params_loop]. token k Hk. apply IH; [lia|done].
Qed.

Lemma reads_returns rs n ws : params_ok rs -> (length (returns_words rs) < n)%nat ->
  reads (Parser.parse_return_types n) (returns_words rs ++ ch "{" :: ws) rs (ch "{" :: ws).
Proof.
  intros Hok Hn. unfold Parser.parse_return_types.
  assert (forall rs, rs <> [] -> params_ok rs -> (length (ch "(" :: separated param_words rs ++ [ch ")"]) < n)%nat ->
    reads (Parser.parse_return_types n) ((ch "(" :: separated param_words rs ++ [ch ")"]) ++ ch "{" :: ws) rs (ch "{" :: ws)) as Hmany.
  { clear rs Hok Hn. intros rs _ Hok Hn. cbn [length app] in *. rewrite length_app in Hn. cbn in Hn. unfold Parser.parse_return_types.
    token k Hk. rewrite <- app_assoc. eapply reads_bind; [apply (reads_params rs Hok); [lia|by apply (bool_decide_unpack _)]|].
    apply reads_expect; [done|]. intros. apply reads_ret. }
  destruct rs as [|[name t] rs].
  { apply (reads_back _ (fun _ => mret [])); [|intros; apply reads_ret]. intros k Hk. by rewrite (is_tok_data _ _ _ Hk). }
  destruct name as [|b name]; [destruct rs as [|r rs]|]; [|by apply Hmany..].
  cbn [returns_words] in Hn |- *. apply Forall_inv in Hok. cbn in Hok. destruct (type_head t) as (w & W & Ew & Hw).
  apply (reads_back _ (fun _ => t ← Parser.parse_type n; mret [([], t)])).
  - intros k Hk. rewrite !(is_tok_data _ _ _ Hk), Ew. cbn [next head default app]. change (id w) with w.
    rewrite !elem_of_cons, elem_of_nil in Hw. by destruct Hw as [->|[->|[->|[]]]].
  - intros _ _. eapply reads_bind; [by apply reads_type|apply reads_ret].
Qed.

(** ** Statements *)

Lemma after_ends t : after_stmt t = true -> ends_expr t = true /\ Parser.compound_op t = None /\
  t ∉ [TokenType.Char ","; TokenType.Char "="; TokenType.DefAssign; TokenType.PlusPlus; TokenType.MinusMinus; TokenType.SymElse].
Proof. unfold after_stmt. rewrite !andb_true_iff, !bool_decide_eq_true. tauto. Qed.

Lemma compound_token_op o t : compound_token o = Some t -> Parser.compound_op t = Some o /\ ends_expr t = true /\
  t ∉ [TokenType.Char "="; TokenType.DefAssign; TokenType.PlusPlus; TokenType.MinusMinus].
Proof. destruct o; intros [= <-]; (split_and!; [done|done|by apply (bool_decide_unpack _)]). Qed.

Lemma reads_simple st n ws : simple_ok st -> (length (simple_words st) + 1 < n)%nat -> after_stmt (next_typ ws) = true ->
  reads (Parser.parse_simple_stmt n) (simple_words st ++ ws) st ws.
Proof.
  intros Hok Hn (Hend & Hcomp & Hnot)%after_ends. unfold Parser.parse_simple_stmt.
  destruct st as [| |[|a [|]] [|e [|]]|[|name [|]] [|e [|]]|e|e|e|o a e| | | | |]; try done; cbn [simple_words] in Hn |- *; cbn in Hok.
  - destruct Hok as [Ha He]. rewrite length_app in Hn. cbn [length] in Hn. rewrite <- app_assoc.
    eapply reads_bind; [apply reads_expr; [done|lia|done]|]. cbn [app]. token k Hk.
    eapply reads_bind; [apply reads_expr; [done|lia|done]|apply reads_ret].
  - cbn [length] in Hn. eapply (reads_bind _ _ _ (EVariableRef name Info_default)).
    { apply (reads_expr (EVariableRef name Info_default) n); [done|cbn; lia|done]. }
    token k Hk. eapply reads_bind; [apply reads_expr; [done|lia|done]|apply reads_ret].
  - eapply reads_bind; [apply reads_expr; [done|lia|done]|].
    apply (reads_back _ (fun _ => mret (SExprStmt e))); [|intros; apply reads_ret]. intros k Hk. rewrite !(is_tok_data _ _ _ Hk).
    replace (tok_typ k) with (next_typ ws) by (unfold next_typ; by rewrite <- Hk). rewrite Hcomp. change (next ws).1.1 with (next_typ ws).
    rewrite !not_elem_of_cons in Hnot. by rewrite !bool_decide_false by tauto.
  - rewrite length_app in Hn. cbn in Hn. rewrite <- app_assoc. eapply reads_bind; [apply reads_expr; [done|lia|done]|]. cbn [app].
    token k Hk. apply reads_ret.
  - rewrite length_app in Hn. cbn in Hn. rewrite <- app_assoc. eapply reads_bind; [apply reads_expr; [done|lia|done]|]. cbn [app].
    token k Hk. apply reads_ret.
  - destruct Hok as ([t Ht] & Ha & He). rewrite Ht in *. rewrite length_app in Hn. cbn [length default] in Hn |- *. change (id t) with t.
    destruct (compound_token_op o t Ht) as (Ec & Et & Hnt). rewrite <- app_assoc.
    eapply reads_bind; [apply reads_expr; [done|lia|done]|]. cbn [app]. apply reads_get. intros k Hk. rewrite !(is_tok_data _ _ _ Hk).
    replace (tok_typ k) with t by (by injection Hk). cbn [kw fst]. rewrite !not_elem_of_cons in Hnt. rewrite !bool_decide_false by tauto.
    rewrite Ec. eapply reads_bind; [apply reads_expr; [done|lia|done]|apply reads_ret].
Qed.

(** Induction on statements, with blocks by their statements. *)
Lemma stmt_induction (P : Stmt -> Prop) :
  (forall st, simple_ok st -> P st) -> (forall es, Forall expr_ok es -> P (SReturn es)) ->
  (forall c body els, expr_ok c -> block_ok body -> block_ok els -> Forall P body -> Forall P els -> P (SIf None c body els)) ->
  (forall init c post body, opt_ok simple_ok init -> opt_ok expr_ok c -> opt_ok simple_ok post -> block_ok body -> Forall P body ->
     P (SFor init c post body)) ->
  (forall e body, expr_ok e -> block_ok body -> Forall P body -> P (SForRange None None e body)) ->
  (forall body, block_ok body -> Forall P body -> P (SBlock body)) ->
  forall st, stmt_ok st -> P st.
Proof.
  intros H1 H2 H3 H4 H5 H6. fix IH 1.
  assert (forall body, (fix all sts := match sts with [] => True | st :: sts => stmt_ok st /\ all sts end) body -> Forall P body) as IHs.
  { fix IHs 1. intros [|st body] Hok; constructor; [apply IH, Hok|apply IHs, Hok]. }
  intros st Hok. destruct st as [| | | | | | | |[i|] c body els|init c post body|[k|] [v|] e body|es|body];
    try (by apply H1); try (exact (False_ind _ Hok)).
  - destruct Hok as (Hc & Hb & Sb & He & Se). apply H3; [done|by split; [apply all_ok|]|by split; [apply all_ok|]|by apply IHs|by apply IHs].
  - destruct Hok as (Hi & Hc & Hp & Hb & Sb). apply H4; [done|done|done|by split; [apply all_ok|]|by apply IHs].
  - destruct Hok as (He & Hb & Sb). apply H5; [done|by split; [apply all_ok|]|by apply IHs].
  - by apply H2.
  - destruct Hok as (Hb & Sb). apply H6; [by split; [apply all_ok|]|by apply IHs].
Qed.

Definition stmt_starters : list TokenType.t :=
  [TokenType.SymReturn; TokenType.SymIf; TokenType.SymFor; TokenType.Char "{"].
Lemma simple_head st : simple_ok st -> exists w W, simple_words st = w :: W /\ starts 1 w.1.1.
Proof.
  assert (forall e ws, expr_ok e -> exists w W, expr_words 1 e ++ ws = w :: W /\ starts 1 w.1.1) as He.
  { intros e ws Hok. destruct (words_head e Hok 1) as (w & W & -> & Hw); [lia|]. by eexists _, _. }
  destruct st as [| |[|a [|]] [|e [|]]|[|name [|]] [|e [|]]|e|e|e|o a e| | | | |]; try done; cbn [simple_words simple_ok]; intros Hok.
  2: { eexists _, _. split; [done|]. left. by apply (bool_decide_unpack _). }
  2: rewrite <- (app_nil_r (expr_words 1 e)).
  all: apply He; tauto.
Qed.
Lemma simple_words_eq st : simple_ok st -> stmt_words st = simple_words st.
Proof. by destruct st as [| |[|a [|]] [|e [|]]|[|name [|]] [|e [|]]| | | | | | | | |]. Qed.
Lemma stmt_head st : stmt_ok st -> exists w W, stmt_words st = w :: W /\ (w.1.1 ∈ stmt_starters \/ starts 1 w.1.1).
Proof.
  revert st. apply stmt_induction.
  1: { intros st Hok. rewrite simple_words_eq by done. destruct (simple_head st Hok) as (w & W & -> & Hw). eexists _, _. eauto. }
  all: intros; eexists _, _; (split; [done|]); left; by apply (bool_decide_unpack _).
Qed.

(** No expression starts with a token of [ts]. *)
Lemma starts_not t ts : starts 1 t ->
  Forall (fun t => bool_decide (t ∉ starters) && negb (Parser.is_unary t) = true) ts -> t ∉ ts.
Proof.
  intros Ht Hts Hin. rewrite Forall_forall in Hts. specialize (Hts t Hin).
  apply andb_true_iff in Hts as [Hs%bool_decide_eq_true Hu%negb_true_iff]. destruct Ht as [Ht|[_ Ht]]; congruence.
Qed.

Definition read_stmt (st : Stmt) : Prop := forall n ws, (length (stmt_words st) + 2 < n)%nat -> may_follow st ws ->
  reads (Parser.parse_stmt n) (stmt_words st ++ ws) st ws.
(** An [if], without its keyword. *)
Definition read_if (st : Stmt) : Prop :=
  match st with
  | SIf None _ _ _ => forall n m ws, (length (stmt_words st) + 1 < n)%nat -> (length (stmt_words st) < m)%nat -> after_stmt (next_typ ws) = true ->
      reads (Parser.if_loop (Parser.parse_stmt n) n m) (tail (stmt_words st) ++ ws) st ws
  | _ => True
  end.

Lemma next_app (ws1 ws2 : list Word) : ws1 <> [] -> next_typ (ws1 ++ ws2) = next_typ ws1.
Proof. by destruct ws1. Qed.

Lemma block_length body : Forall stmt_ok body -> (length body <= length (block_words body))%nat.
Proof.
  induction 1 as [|st body Hst _ IH]; [done|]. unfold block_words in *. cbn [mbind list_bind length]. rewrite length_app.
  destruct (stmt_head st Hst) as (w & W & -> & _). cbn. lia.
Qed.

Lemma reads_block_loop body : Forall stmt_ok body -> Forall read_stmt body -> sequence_ok body -> forall n m acc ws,
  (length (block_words body) + 2 < n)%nat -> (length body < m)%nat ->
  reads (Parser.block_loop (Parser.parse_stmt n) m acc) (block_words body ++ ch "}" :: ws) (acc ++ body) ws.
Proof.
  intros Hok Hread. induction Hread as [|st body Hst Hread IH]; intros Hseq n m acc ws Hn Hm; (destruct m as [|m]; [cbn in Hm; lia|]);
    cbn [Parser.block_loop].
  { cbn [block_words mbind list_bind app]. token k Hk. rewrite app_nil_r. apply reads_ret. }
  apply Forall_cons in Hok as [Hstok Hok]. destruct Hseq as [Hfol Hseq]. cbn [length] in Hm.
  change (block_words (st :: body)) with (stmt_words st ++ block_words body) in *. rewrite length_app in Hn.
  rewrite <- app_assoc. destruct (stmt_head st Hstok) as (w & W & Ew & Hw).
  apply (reads_back _ (fun _ => st ← Parser.parse_stmt n; Parser.block_loop (Parser.parse_stmt n) m (acc ++ [st]))).
  - intros k Hk. rewrite !(is_tok_data _ _ _ Hk), Ew. cbn [next head default app]. change (id w) with w.
    assert (w.1.1 ∉ [TokenType.Char "}"; TokenType.Eof]) as Hnot.
    { destruct Hw as [Hw|Hw]; [|apply starts_not; [done|repeat constructor]].
      unfold stmt_starters in Hw. rewrite !elem_of_cons, elem_of_nil in Hw. by destruct Hw as [->|[->|[->|[->|[]]]]]; apply (bool_decide_unpack _). }
    rewrite !not_elem_of_cons in Hnot. by rewrite !bool_decide_false by tauto.
  - intros _ _. eapply reads_bind; [apply Hst; [lia|]|].
    + destruct body as [|st' body]; [by split; [done|]; intros _; apply (bool_decide_unpack _)|].
      destruct Hfol as [H1 H2]; [done|]. pose proof (block_length (st' :: body) Hok) as Hl. cbn [length] in Hl.
      unfold may_follow. rewrite next_app; [done|]. intros E. rewrite E in Hl. cbn in Hl. lia.
    + replace (acc ++ st :: body) with ((acc ++ [st]) ++ body) by by rewrite <- app_assoc. apply IH; [done|done|lia|lia].
Qed.

Lemma reads_block body n ws : block_ok body -> Forall read_stmt body -> (length (block_words body) + 2 < n)%nat ->
  reads (Parser.parse_block_body (Parser.parse_stmt n) n) (block_words body ++ ch "}" :: ws) body ws.
Proof.
  intros [Hok Hseq] Hread Hn. pose proof (block_length body Hok). apply (reads_block_loop body); [done|done|done|lia|lia].
Qed.

Lemma read_simple_stmt st : simple_ok st -> read_stmt st.
Proof.
  intros Hok n ws Hn [Hf _]. rewrite simple_words_eq in * by done. destruct n as [|n]; [lia|]. cbn [Parser.parse_stmt]. unfold Parser.stmt_step.
  destruct (simple_head st Hok) as (w & W & Ew & Hw).
  apply (reads_back _ (fun _ => Parser.parse_simple_stmt n)); [|intros _ _; apply reads_simple; [done|lia|done]].
  intros k Hk. rewrite !(is_tok_data _ _ _ Hk), Ew. cbn [next head default app]. change (id w) with w.
  assert (w.1.1 ∉ [TokenType.SymVar; TokenType.SymReturn; TokenType.SymIf; TokenType.SymFor; TokenType.Char "{"]) as Hnot
    by (apply starts_not; [done|repeat constructor]).
  rewrite !not_elem_of_cons in Hnot. by rewrite !bool_decide_false by tauto.
Qed.

Lemma reads_values n m es acc ws : Forall expr_ok es -> (length (more es) < n)%nat -> (length es < m)%nat -> after_stmt (next_typ ws) = true ->
  reads (Parser.values_loop m n acc) (more es ++ ws) (acc ++ es) ws.
Proof.
  intros Hok. revert m acc. induction Hok as [|e es He Hok IH]; intros m acc Hn Hm Hf; (destruct m as [|m]; [cbn in Hm; lia|]); cbn [Parser.values_loop].
  - apply reads_peek. apply after_ends in Hf as (_ & _ & Hf). rewrite !not_elem_of_cons in Hf. cbn [more mbind list_bind app].
    rewrite bool_decide_false by tauto. rewrite app_nil_r. apply reads_ret.
  - unfold more in Hn |- *. cbn [mbind list_bind] in Hn |- *. fold (more es) in Hn |- *. cbn [app length] in Hn, Hm |- *.
    rewrite length_app in Hn. apply reads_peek. compare. apply reads_get. intros _ _. rewrite <- app_assoc.
    eapply reads_bind; [apply reads_expr; [done|lia|]|].
    { destruct es; [|done]. by apply after_ends in Hf as (? & _). }
    specialize (IH m (acc ++ [e])). rewrite <- app_assoc in IH. apply IH; [lia|lia|done].
Qed.

Lemma read_return es : Forall expr_ok es -> read_stmt (SReturn es).
Proof.
  intros Hok n ws Hn [Hf Hret]. cbn [stmt_words length] in Hn. destruct n as [|n]; [lia|]. cbn [Parser.parse_stmt stmt_words app].
  unfold Parser.stmt_step. token k Hk. unfold Parser.parse_return. apply reads_peek_any. destruct Hok as [|e es He Hok].
  { cbn [separated app]. rewrite bool_decide_true by by apply Hret. apply reads_ret. }
  rewrite separated_more, length_app in Hn. rewrite separated_more, <- app_assoc.
  destruct (words_head e He 1) as (w & W & Ew & Hw); [lia|]. rewrite bool_decide_false.
  2: { rewrite Ew. cbn [next_typ next head default app]. apply starts_not; [exact Hw|repeat constructor]. }
  pose proof (length_bind_le (fun e => ch "," :: expr_words 1 e) es ltac:(done)) as Hl. fold (more es) in Hl.
  eapply reads_bind; [apply reads_expr; [done|lia|]|].
  { destruct es; [|done]. by apply after_ends in Hf as (? & _). }
  eapply reads_bind; [apply reads_values; [done|lia|lia|done]|]. apply reads_ret.
Qed.

(** The words of an else branch. *)
Definition is_if (st : Stmt) : bool := match st with SIf None _ _ _ => true | _ => false end.
Definition else_words (els : list Stmt) : list Word :=
  match els with
  | [] => []
  | [st] => if is_if st then kw TokenType.SymElse :: stmt_words st else kw TokenType.SymElse :: ch "{" :: block_words els ++ [ch "}"]
  | _ => kw TokenType.SymElse :: ch "{" :: block_words els ++ [ch "}"]
  end.
Lemma if_words c body els : stmt_words (SIf None c body els)
  = kw TokenType.SymIf :: expr_words 1 c ++ ch "{" :: block_words body ++ ch "}" :: else_words els.
Proof. cbn [stmt_words]. do 3 f_equal. by destruct els as [|[| | | | | | | |[|]| | | |] [|]]. Qed.
Lemma if_tail st : is_if st = true -> stmt_words st = kw TokenType.SymIf :: tail (stmt_words st).
Proof. by destruct st as [| | | | | | | |[|]| | | |]. Qed.

Lemma reads_else els n m ws : block_ok els -> Forall read_stmt els -> Forall read_if els -> (length (else_words els) + 1 < n)%nat ->
  (length (else_words els) < m)%nat -> after_stmt (next_typ ws) = true ->
  reads (b ← Parser.peek_is TokenType.SymElse;
         if (b : bool) then
           _ ← get;
           b ← Parser.peek_is TokenType.SymIf;
           if (b : bool) then _ ← get; st ← Parser.if_loop (Parser.parse_stmt n) n m; mret [st]
           else _ ← Parser.expect (TokenType.Char "{"); Parser.parse_block_body (Parser.parse_stmt n) n
         else mret []) (else_words els ++ ws) els ws.
Proof.
  intros Hok Hread Hif Hn Hm Hf. apply reads_peek. destruct (decide (els = [])) as [->|Hne].
  { cbn [else_words app]. apply after_ends in Hf as (_ & _ & Hf). rewrite !not_elem_of_cons in Hf. rewrite bool_decide_false by tauto.
    apply reads_ret. }
  assert ((exists st, els = [st] /\ is_if st = true /\ else_words els = kw TokenType.SymElse :: stmt_words st)
    \/ else_words els = kw TokenType.SymElse :: ch "{" :: block_words els ++ [ch "}"]) as [(st & -> & Hst & E)|E].
  { destruct els as [|st [|]]; [done| |by right]. cbn [else_words]. destruct (is_if st) eqn:Hst; [left; by exists st|by right]. }
  - rewrite E in *. cbn [length app] in *. compare. apply reads_get. intros _ _. apply reads_peek. rewrite (if_tail st Hst). cbn [app]. compare.
    apply reads_get. intros _ _. apply Forall_inv in Hif. destruct st as [| | | | | | | |[|]| | | |]; try done.
    eapply reads_bind; [apply Hif; [lia|lia|done]|apply reads_ret].
  - rewrite E in *. cbn [length app] in *. rewrite length_app in Hn. cbn in Hn. compare. apply reads_get. intros _ _. apply reads_peek. compare.
    apply reads_expect; [done|]. intros _ _. rewrite <- app_assoc. apply reads_block; [done|done|lia].
Qed.

Lemma read_if_stmt c body els : expr_ok c -> block_ok body -> block_ok els -> Forall read_stmt body -> Forall read_stmt els -> Forall read_if els ->
  read_if (SIf None c body els).
Proof.
  intros Hc Hb He Rb Re Ri n m ws Hn Hm Hf. rewrite if_words in *. cbn [tail length] in *. rewrite length_app in Hn, Hm. cbn [length] in Hn, Hm.
  rewrite length_app in Hn, Hm. cbn [length] in Hn, Hm. destruct m as [|m]; [lia|]. cbn [Parser.if_loop].
  rewrite <- app_assoc. eapply reads_bind; [apply reads_expr; [done|lia|done]|]. cbn [app]. apply reads_expect; [done|]. intros _ _.
  rewrite <- app_assoc. eapply reads_bind; [apply reads_block; [done|done|lia]|].
  apply (reads_assoc (Parser.peek_is TokenType.SymElse)). eapply reads_bind; [by apply reads_else; [..|lia|lia|]|apply reads_ret].
Qed.

Lemma read_if_kw st : is_if st = true -> read_if st -> read_stmt st.
Proof.
  intros Hst Hif n ws Hn [Hf _]. rewrite (if_tail st Hst). cbn [app]. destruct n as [|n]; [lia|]. cbn [Parser.parse_stmt]. unfold Parser.stmt_step.
  token k Hk. destruct st as [| | | | | | | |[|]| | | |]; try done. apply Hif; [lia|lia|done].
Qed.

(** An optional part, present unless a token of [ts] is next. *)
Lemma reads_unless {A} (m : parser A) (f : A -> list Word) (P : A -> Prop) o ts ws :
  opt_ok P o -> next_typ ws ∈ ts -> (forall a, P a -> reads m (f a ++ ws) a ws /\ f a <> [] /\ next_typ (f a) ∉ ts) ->
  reads (Parser.unless ts m) (opt_words f o ++ ws) o ws.
Proof.
  intros Hok Hts Hm. unfold Parser.unless. apply reads_peek_any. destruct o as [a|]; cbn [opt_words opt_ok] in *.
  - destruct (Hm a Hok) as (Hr & Hne & Hnot). rewrite next_app, bool_decide_false by done.
    eapply reads_bind; [exact Hr|apply reads_ret].
  - cbn [app]. rewrite bool_decide_true by done. apply reads_ret.
Qed.

Lemma simple_next st ts : simple_ok st -> Forall (fun t => bool_decide (t ∉ starters) && negb (Parser.is_unary t) = true) ts ->
  simple_words st <> [] /\ next_typ (simple_words st) ∉ ts.
Proof.
  intros Hok Hts. destruct (simple_head st Hok) as (w & W & -> & Hw). split; [done|]. by apply starts_not.
Qed.
Lemma expr_next e ts : expr_ok e -> Forall (fun t => bool_decide (t ∉ starters) && negb (Parser.is_unary t) = true) ts ->
  expr_words 1 e <> [] /\ next_typ (expr_words 1 e) ∉ ts.
Proof.
  intros Hok Hts. destruct (words_head e Hok 1) as (w & W & -> & Hw); [lia|]. split; [done|]. by apply starts_not.
Qed.

Lemma read_for init c post body : opt_ok simple_ok init -> opt_ok expr_ok c -> opt_ok simple_ok post -> block_ok body -> Forall read_stmt body ->
  read_stmt (SFor init c post body).
Proof.
  intros Hi Hc Hp Hb Rb n ws Hn Hf. cbn [stmt_words length] in Hn |- *. fold (block_words body) in Hn |- *.
  repeat (rewrite length_app in Hn; cbn [length] in Hn). destruct n as [|n]; [lia|]. cbn [Parser.parse_stmt app]. unfold Parser.stmt_step.
  token k Hk. unfold Parser.parse_for. repeat (rewrite <- app_assoc; cbn [app]).
  set (fits := fun st => simple_ok st /\ (length (simple_words st) + 2 < n)%nat).
  assert (forall ts ws, after_stmt (next_typ ws) = true -> Forall (fun t => bool_decide (t ∉ starters) && negb (Parser.is_unary t) = true) ts ->
    forall st, fits st -> reads (Parser.parse_stmt n) (simple_words st ++ ws) st ws /\ simple_words st <> [] /\ next_typ (simple_words st) ∉ ts) as Hs.
  { intros ts ws' Ha Hts st [Hst Hl]. split; [|by apply simple_next]. rewrite <- simple_words_eq by done.
    apply read_simple_stmt; [done|by rewrite simple_words_eq|]. split; [done|]. by intros ->. }
  assert (opt_ok fits init /\ opt_ok fits post /\ opt_ok (fun e => expr_ok e /\ (S (length (expr_words 1 e)) < n)%nat) c) as (Hi' & Hp' & Hc').
  { split_and!; [destruct init|destruct post|destruct c]; try done; cbn [opt_words] in Hn; (split; [done|lia]). }
  apply reads_peek. rewrite bool_decide_false.
  2: { destruct init as [st|]; [|done]. cbn [opt_words]. destruct (simple_next st [TokenType.SymRange]) as [Hne Hnot]; [done|repeat constructor|].
    rewrite next_app by done. set_solver. }
  eapply reads_bind; [apply (reads_unless _ _ fits); [done|by apply (bool_decide_unpack _)|apply Hs; [done|repeat constructor]]|].
  apply reads_peek. compare. apply reads_expect; [done|]. intros _ _.
  eapply reads_bind; [eapply reads_unless; [exact Hc'|by apply (bool_decide_unpack _)|]|].
  { intros e [He Hl]. split; [by apply reads_expr|]. apply expr_next; [done|repeat constructor]. }
  apply reads_expect; [done|]. intros _ _.
  eapply reads_bind; [apply (reads_unless _ _ fits); [done|by apply (bool_decide_unpack _)|apply Hs; [done|repeat constructor]]|].
  apply reads_expect; [done|]. intros _ _. eapply reads_bind; [apply reads_block; [done|done|lia]|apply reads_ret].
Qed.

Lemma read_for_range e body : expr_ok e -> block_ok body -> Forall read_stmt body -> read_stmt (SForRange None None e body).
Proof.
  intros He Hb Rb n ws Hn Hf. cbn [stmt_words length] in Hn |- *. fold (block_words body) in Hn |- *.
  repeat (rewrite length_app in Hn; cbn [length] in Hn). destruct n as [|n]; [lia|]. cbn [Parser.parse_stmt app]. unfold Parser.stmt_step.
  token k Hk. unfold Parser.parse_for. apply reads_peek. compare. apply reads_get. intros _ _. repeat (rewrite <- app_assoc; cbn [app]).
  eapply reads_bind; [apply reads_expr; [done|lia|done]|]. apply reads_expect; [done|]. intros _ _.
  eapply reads_bind; [apply reads_block; [done|done|lia]|apply reads_ret].
Qed.

Lemma read_block_stmt body : block_ok body -> Forall read_stmt body -> read_stmt (SBlock body).
Proof.
  intros Hb Rb n ws Hn Hf. cbn [stmt_words length] in Hn |- *. fold (block_words body) in Hn |- *. rewrite length_app in Hn.
  destruct n as [|n]; [lia|]. cbn [Parser.parse_stmt app]. unfold Parser.stmt_step. token k Hk. rewrite <- app_assoc.
  eapply reads_bind; [apply reads_block; [done|done|lia]|apply reads_ret].
Qed.

Lemma read_stmts st : stmt_ok st -> read_stmt st /\ read_if st.
Proof.
  revert st. apply stmt_induction.
  - intros st Hok. split; [by apply read_simple_stmt|]. by destruct st as [| | | | | | | |[|]| | | |].
  - intros es Hok. split; [by apply read_return|done].
  - intros c body els Hc Hb He Rb Re. apply Forall_and in Rb as [Rb _], Re as [Re Ri].
    assert (read_if (SIf None c body els)) as Hi by by apply read_if_stmt. split; [by apply read_if_kw|done].
  - intros init c post body Hi Hc Hp Hb Rb. apply Forall_and in Rb as [Rb _]. split; [by apply read_for|done].
  - intros e body He Hb Rb. apply Forall_and in Rb as [Rb _]. split; [by apply read_for_range|done].
  - intros body Hb Rb. apply Forall_and in Rb as [Rb _]. split; [by apply read_block_stmt|done].
Qed.
Lemma reads_body body n ws : block_ok body -> (length (block_words body) + 2 < n)%nat ->
  reads (Parser.parse_block_body (Parser.parse_stmt n) n) (block_words body ++ ch "}" :: ws) body ws.
Proof.
  intros Hok Hn. apply reads_block; [done| |done]. eapply Forall_impl; [apply Hok|]. intros st Hst. by apply read_stmts.
Qed.

(** ** Declarations *)

Lemma reads_func f n ws : func_ok f -> (length (func_words f) < n)%nat ->
  reads (Parser.parse_func n []) (tail (func_words f) ++ ws) f ws.
Proof.
  intros (Hp & Hr & Hb & Ha) Hn. unfold func_words in *. cbn [length tail] in *. repeat (rewrite length_app in Hn; cbn [length] in Hn).
  unfold Parser.parse_func. cbn [app]. apply reads_expect; [done|]. intros k Hk. injection Hk as _ -> _. clear k.
  apply reads_expect; [done|]. intros _ _. repeat (rewrite <- app_assoc; cbn [app]).
  eapply reads_bind; [apply (reads_params _ Hp n []); [lia|by apply (bool_decide_unpack _)]|]. cbn [app].
  apply reads_expect; [done|]. intros _ _. eapply reads_bind; [apply reads_returns; [done|lia]|].
  apply reads_expect; [done|]. intros _ _. eapply reads_bind; [apply reads_body; [done|lia]|].
  destruct f as [name ps rs body notes]. cbn in *. subst notes. apply reads_ret.
Qed.

(** From a lexer of the words [ws] the computation returns [a]. *)
Definition parses {A} (m : parser A) (ws : list Word) (a : A) : Prop :=
  forall l, yields l ws -> exists l', m l = Some (Ok a, l').
Lemma parses_bind {A B} (m : parser A) (f : A -> parser B) ws a ws1 b : reads m ws a ws1 -> parses (f a) ws1 b -> parses (m ≫= f) ws b.
Proof. intros Hm Hf l Hl. destruct (Hm l Hl) as (l1 & E1 & H1). unfold mbind, parser_bind. rewrite E1. by apply Hf. Qed.
Lemma parses_get {B} (f : Token -> parser B) w ws b : (forall k, data k = w -> parses (f k) ws b) -> parses (get ≫= f) (w :: ws) b.
Proof. intros Hf l (_ & k & l1 & E & Hk & _ & _ & Hl). unfold mbind, parser_bind. rewrite E. by apply Hf. Qed.
Lemma parses_expect {B} t (f : Token -> parser B) w ws b : w.1.1 = t ->
  (forall k, data k = w -> parses (f k) ws b) -> parses (Parser.expect t ≫= f) (w :: ws) b.
Proof.
  intros Ht Hf l (_ & k & l1 & E & Hk & _ & _ & Hl). unfold Parser.expect, mbind, parser_bind. rewrite E, (is_tok_data t k w Hk).
  rewrite bool_decide_true by done. by apply Hf.
Qed.
Lemma parses_no_notes {B} p (f : option (list (list byte)) -> parser B) ws b : parses (f None) ws b ->
  parses (observe (annotations p) ≫= f) ws b.
Proof.
  intros Hf l Hl. assert (annotations p l = None) as E.
  { unfold annotations. destruct ws; destruct Hl as [-> _]; done. }
  unfold mbind, parser_bind, observe. rewrite E. by apply Hf.
Qed.

Lemma parses_funcs m fs : Forall func_ok fs -> (length (fs ≫= func_words) < m)%nat -> forall n p, (length fs < n)%nat ->
  parses (Parser.decl_loop n m p) (fs ≫= func_words)
    (mkPackage (pkg_name p) (imports p) (functions p ++ fs) (types p) (constants p) (variables p)).
Proof.
  intros Hfs. induction Hfs as [|f fs Hf Hfs IH]; intros Hm n p Hn; (destruct n as [|n]; [cbn in Hn; lia|]); cbn [Parser.decl_loop].
  - intros l (_ & k & l1 & E & Hk & _). exists l1. unfold mbind, parser_bind. rewrite E, (is_tok_data _ _ _ Hk). cbn.
    rewrite app_nil_r. by destruct p.
  - cbn [mbind list_bind] in Hm |- *. rewrite length_app in Hm. cbn [length] in Hn.
    change (func_words f) with (kw TokenType.SymFunc :: tail (func_words f)) at 1. cbn [app].
    apply parses_get. intros k Hk. rewrite !(is_tok_data _ _ _ Hk). compare. apply parses_no_notes.
    eapply parses_bind; [apply reads_func; [done|lia]|].
    set (p' := mkPackage _ _ (functions p ++ [f]) _ _ _). specialize (IH ltac:(lia) n p' ltac:(lia)).
    unfold p' in IH at 2 3 4 5 6 7. cbn [pkg_name imports functions types constants variables] in IH. by rewrite <- app_assoc in IH.
Qed.

Lemma parses_decls m ts fs : Forall (fun d => type_ok (td_type d)) ts -> Forall func_ok fs ->
  (length ((ts ≫= typedef_words) ++ (fs ≫= func_words)) < m)%nat -> forall n p, (length ts + length fs < n)%nat ->
  parses (Parser.decl_loop n m p) ((ts ≫= typedef_words) ++ (fs ≫= func_words))
    (mkPackage (pkg_name p) (imports p) (functions p ++ fs) (types p ++ ts) (constants p) (variables p)).
Proof.
  intros Hts Hfs. rewrite length_app. induction Hts as [|d ts Hd Hts IH]; intros Hm n p Hn.
  { rewrite app_nil_r. apply parses_funcs; [done|cbn in Hm; lia|cbn in Hn; lia]. }
  destruct n as [|n]; [cbn in Hn; lia|]. cbn [Parser.decl_loop]. cbn [mbind list_bind] in Hm |- *. rewrite length_app in Hm.
  cbn [length] in Hn. unfold typedef_words in Hm at 1 |- * at 1. cbn [length app] in Hm |- *.
  apply parses_get. intros k Hk. rewrite !(is_tok_data _ _ _ Hk). compare.
  eapply (parses_bind _ _ _ d).
  { unfold Parser.parse_type_def. apply reads_expect; [done|]. intros k' Hk'. injection Hk' as _ -> _. rewrite <- app_assoc.
    eapply reads_bind; [apply reads_type; [done|lia]|]. destruct d. apply reads_ret. }
  set (p' := mkPackage _ _ _ (types p ++ [d]) _ _). specialize (IH ltac:(lia) n p' ltac:(lia)).
  unfold p' in IH at 2 3 4 5 6 7. cbn [pkg_name imports functions types constants variables] in IH. by rewrite <- (app_assoc (types p)) in IH.
Qed.

Lemma parses_package p name n : package_ok p -> (length (package_words p) < n)%nat ->
  parses (Parser.parse n (Package_new name)) (package_words p) p.
Proof.
  intros (Ei & Ec & Ev & Ht & Hf) Hn. unfold package_words in *. cbn [length] in Hn. unfold Parser.parse.
  apply parses_expect; [done|]. intros _ _. apply parses_expect; [done|]. intros k Hk. injection Hk as _ -> _.
  destruct p as [pn im fs ts cs vs]. cbn in *. subst.
  apply (parses_decls n ts fs Ht Hf); [lia|]. rewrite length_app in Hn.
  pose proof (length_bind_le typedef_words ts ltac:(done)). pose proof (length_bind_le func_words fs ltac:(done)). lia.
Qed.
End parse_back.
