(* ===== verification/QclText.v ===== *)
(** * Source text

    The text of a sequence of words, lexed back as those words; with the printer
    and the parser, a package written out and parsed is that package, and the text
    of a function is compiled to a circuit that computes it. *)

From S2P Require Import Prelude.
From S2P Require Import Bytes.
From S2P Require Import QclTypes.
From S2P Require Import QclMpa.
From S2P Require Import QclSsa.
From S2P Require Import QclCompiler.
From S2P Require Import Circuit.
From S2P Require Import CircuitCodec.
From S2P Require Import QclGenCorrect.
From S2P Require Import QclSource.
From S2P Require Import QclLexer.
From S2P Require Import QclParser.
From S2P Require Import QclTerminate.
From S2P Require Import QclPrint.
From S2P Require Import QclPrintDecl.

(** ** The text of a word *)

Definition decimal (v : Z) : list byte := digits (S (Z.to_nat (Z.log2 v))) v [].
Definition word_text (w : Word) : list byte :=
  match w with
  | (TokenType.Identifier, s, _) => s
  | (TokenType.Constant, _, Some (VInt i)) => decimal (Mpa.int_value i)
  | (TokenType.Constant, _, Some (VBool b)) => text (if b then "true" else "false")
  | (TokenType.Constant, _, Some (VString s)) => x22 :: s ++ [x22]
  | (t, _, _) => token_text t
  end.
Definition source (ws : list Word) : list Z := ws ≫= (fun w => (byte_val <$> word_text w) ++ [32]).

(** Names in ASCII that are no keywords. *)
Definition name_start (b : byte) : bool := is_ascii_letter (byte_val b) || (byte_val b =? code "_").
Definition name_char (b : byte) : bool := name_start b || is_ascii_digit (byte_val b).
Definition name_ok (s : list byte) : bool :=
  match s with b :: s' => name_start b && forallb name_char s' | [] => false end
  && bool_decide (keyword s = None) && bool_decide (s <> text "true") && bool_decide (s <> text "false").
(** ASCII text without quotes and escapes. *)
Definition string_char (b : byte) : bool := (byte_val b <? 128) && negb (byte_val b =? code x22) && negb (byte_val b =? code x5c).

Definition fixed_tokens : list TokenType.t :=
  (TokenType.Char <$> text "%(){}[],;.^+-*/=:|&!") ++
  [TokenType.SymPackage; TokenType.SymImport; TokenType.SymFunc; TokenType.SymIf; TokenType.SymElse; TokenType.SymReturn;
   TokenType.SymStruct; TokenType.SymVar; TokenType.SymConst; TokenType.SymType; TokenType.SymFor; TokenType.SymRange; TokenType.SymNil;
   TokenType.DefAssign; TokenType.MultEq; TokenType.DivEq; TokenType.LshiftEq; TokenType.Lshift; TokenType.RshiftEq; TokenType.Rshift;
   TokenType.PlusPlus; TokenType.PlusEq; TokenType.MinusMinus; TokenType.MinusEq; TokenType.OrEq; TokenType.XorEq; TokenType.AndEq;
   TokenType.Lt; TokenType.Le; TokenType.Gt; TokenType.Ge; TokenType.Eq; TokenType.Neq; TokenType.And; TokenType.Or; TokenType.BitClear;
   TokenType.Send].

Definition word_ok (w : Word) : Prop :=
  match w with
  | (TokenType.Identifier, s, v) => name_ok s = true /\ v = None
  | (TokenType.Constant, s, Some (VInt i)) => s = [] /\ 0 <= Mpa.int_value i /\ Mpa.from_bigint (Mpa.int_value i) 0 = i
  | (TokenType.Constant, s, Some (VBool b)) => s = []
  | (TokenType.Constant, s, Some (VString v)) => s = [] /\ forallb string_char v = true
  | (t, s, v) => t ∈ fixed_tokens /\ s = [] /\ v = None
  end.

Section lex_back.
Context `{Texts}.

(** From [l], whose text is that of [w] and a space, the lexer gives [w] and stops
    at the space. *)
Definition lexed (w : Word) (cs : list Z) (l : Lexer) (r : option (result Token * Lexer)) : Prop :=
  match r with
  | Some (Ok k, l') => data k = w /\ ungot l' = None /\ rest l' = 32 :: cs /\ last_comment l' = last_comment l
  | _ => False
  end.

Lemma lex_fixed t n l cs : t ∈ fixed_tokens -> ungot l = None -> rest l = (byte_val <$> token_text t) ++ 32 :: cs ->
  lexed (kw t) cs l (get_loop (S n) l).
Proof.
  intros Ht Hu Hr. destruct l as [bef rs pt ts ug lc]. cbn in Hu, Hr. subst rs ug.
  unfold fixed_tokens in Ht. cbn [app fmap list_fmap text String.list_byte_of_string] in Ht.
  repeat (apply elem_of_cons in Ht as [->|Ht]; [vm_compute; by split_and!|]). by apply elem_of_nil in Ht.
Qed.

(** Reading characters while a predicate holds. *)
Lemma while_text p (s : list Z) c cs l : rest l = s ++ c :: cs -> forallb p s = true -> p c = false ->
  exists l', while_loop p (rest l) l = (s, l') /\ rest l' = c :: cs /\ ungot l' = ungot l /\ last_comment l' = last_comment l.
Proof.
  revert l. induction s as [|x s IH]; intros l Hr Hs Hc; rewrite Hr; cbn [app while_loop].
  - rewrite Hc. exists l. by rewrite Hr.
  - cbn in Hs. apply andb_true_iff in Hs as [Hx Hs]. rewrite Hx.
    assert (rest (advance l) = s ++ c :: cs /\ ungot (advance l) = ungot l /\ last_comment (advance l) = last_comment l) as (Ea & Eu & El).
    { unfold advance, read_char. rewrite Hr. done. }
    destruct (IH (advance l) Ea Hs Hc) as (l' & E & H1 & H2 & H3). rewrite Ea in E. rewrite E. exists l'. split_and!; [done|done|congruence|congruence].
Qed.

Lemma encode_bytes s : Forall (fun b => byte_val b < 128) s -> encode (byte_val <$> s) = s.
Proof.
  induction 1 as [|b s Hb _ IH]; [done|]. unfold encode in *. cbn [fmap list_fmap mbind list_bind]. rewrite IH. unfold encode_char.
  rewrite (proj2 (Z.ltb_lt (byte_val b) 128)) by done. by rewrite byte_of_val.
Qed.

(** The first step of the lexer on a text. *)
Lemma get_loop_cons n l c cs : rest l = c :: cs -> is_whitespace c = false ->
  get_loop (S n) l = scan (get_loop n) c (advance (start_token l)).
Proof.
  intros Hr Hw. cbn [get_loop]. unfold mbind, parser_bind, update, steps, advance, read_char. cbn [rest start_token]. rewrite Hr. cbn. by rewrite Hw.
Qed.
Lemma advance_start l c cs : rest l = c :: cs -> rest (advance (start_token l)) = cs /\ ungot (advance (start_token l)) = ungot l
  /\ last_comment (advance (start_token l)) = last_comment l.
Proof. intros Hr. unfold advance, read_char. cbn [rest start_token]. by rewrite Hr. Qed.

Lemma scan_start again b : name_start b = true -> scan again (byte_val b) = scan_name (byte_val b) /\ is_whitespace (byte_val b) = false.
Proof. destruct b; intros Hb; try discriminate Hb; by split. Qed.
Lemma scan_digit again b : is_ascii_digit (byte_val b) = true -> b <> x30 ->
  scan again (byte_val b) = scan_number (byte_val b) /\ is_whitespace (byte_val b) = false.
Proof. destruct b; intros Hb Hz; try discriminate Hb; [done|..]; by split. Qed.

Lemma name_char_alnum b : name_char b = true -> byte_val b < 128 /\ is_alphanumeric (byte_val b) || (byte_val b =? code "_") = true.
Proof. destruct b; intros Hb; try discriminate Hb; by split. Qed.
Lemma name_start_char b : name_start b = true -> name_char b = true.
Proof. unfold name_char. by intros ->. Qed.

Lemma lex_name s n l cs : name_ok s = true -> ungot l = None -> rest l = (byte_val <$> s) ++ 32 :: cs -> lexed (ident s) cs l (get_loop (S n) l).
Proof.
  unfold name_ok. rewrite !andb_true_iff, !bool_decide_eq_true. intros (((Hs & Hk) & Ht) & Hf) Hu Hr. destruct s as [|b s]; [done|].
  apply andb_true_iff in Hs as [Hb Hs]. cbn [fmap list_fmap app] in Hr. destruct (scan_start (get_loop n) b Hb) as [Es Ew].
  rewrite (get_loop_cons n l _ _ Hr Ew), Es. destruct (advance_start l _ _ Hr) as (Hr1 & Hu1 & Hl1). set (l1 := advance (start_token l)) in *.
  destruct (while_text (fun c => is_alphanumeric c || (c =? code "_")) (byte_val <$> s) 32 cs l1 Hr1) as (l2 & E2 & Hr2 & Hu2 & Hl2); [|done|].
  { apply forallb_forall. intros c Hc. apply list_elem_of_In, list_elem_of_fmap in Hc as (b' & -> & Hb'). apply name_char_alnum.
    rewrite forallb_forall in Hs. by apply Hs, list_elem_of_In. }
  assert (encode (byte_val b :: (byte_val <$> s)) = b :: s) as Ee.
  { apply (encode_bytes (b :: s)). constructor; [by apply name_char_alnum, name_start_char|]. apply Forall_forall. intros b' Hb'.
    rewrite forallb_forall in Hs. by apply name_char_alnum, Hs, list_elem_of_In. }
  unfold scan_name, mbind, parser_bind, read_while, steps. rewrite E2. cbv zeta. rewrite Ee, Hk, !bool_decide_false by done. cbn.
  split_and!; [done|congruence|done|congruence].
Qed.

(** *** Numbers *)

Lemma digits_head fuel n acc : 0 < n < 10 ^ Z.of_nat fuel -> (0 < fuel)%nat -> exists d ds, digits fuel n acc = d :: ds /\ d <> x30.
Proof.
  revert n acc. induction fuel as [|fuel IH]; intros n acc Hn Hf; [lia|]. cbn [digits]. destruct (Z.ltb_spec n 10).
  - eexists _, _. split; [done|]. rewrite Z.mod_small by lia. unfold digit. intros E. apply (f_equal byte_val) in E. rewrite byte_val_of in E.
    change (byte_val x30) with 48 in E. rewrite Z.mod_small in E by lia. lia.
  - rewrite Nat2Z.inj_succ, Z.pow_succ_r in Hn by lia. apply IH; [|destruct fuel; [cbn in Hn; lia|lia]].
    split; [apply Z.div_str_pos; lia|apply Z.div_lt_upper_bound; lia].
Qed.
Lemma decimal_fuel v : 0 <= v -> v < 10 ^ Z.of_nat (S (Z.to_nat (Z.log2 v))).
Proof.
  intros Hv. rewrite Nat2Z.inj_succ, Z2Nat.id by apply Z.log2_nonneg. destruct (decide (v = 0)) as [->|]; [done|].
  pose proof (Z.log2_spec v ltac:(lia)) as [_ Hl]. eapply Z.lt_le_trans; [exact Hl|]. apply Z.pow_le_mono_l. lia.
Qed.
Lemma digit_val_of b d : digit_val b = Some d -> digit_of b = Some d /\ 0 <= d <= 9 /\ is_ascii_digit (byte_val b) = true /\ byte_val b < 128.
Proof. destruct b; vm_compute; intros [= <-]; by split_and!. Qed.
Lemma radix_val_digits s acc v : digits_val acc s = Some v -> radix_val 10 acc s = Some v.
Proof.
  revert acc. induction s as [|b s IH]; intros acc E; [done|]. cbn in E |- *. destruct (digit_val b) as [d|] eqn:Ed; [|done].
  destruct (digit_val_of b d Ed) as (-> & Hd & _). rewrite (proj2 (Z.ltb_lt d 10)) by lia. by apply IH.
Qed.

Lemma lex_number i n l cs : 0 <= Mpa.int_value i -> Mpa.from_bigint (Mpa.int_value i) 0 = i -> ungot l = None ->
  rest l = (byte_val <$> decimal (Mpa.int_value i)) ++ 32 :: cs -> lexed (const (VInt i)) cs l (get_loop (S n) l).
Proof.
  intros Hv Hi Hu Hr. destruct (decide (Mpa.int_value i = 0)) as [E|Hne].
  { rewrite <- Hi. rewrite E in *. destruct l as [bef rs pt ts ug lc]. cbn in Hu, Hr. subst rs ug. vm_compute. by split_and!. }
  set (v := Mpa.int_value i) in *. pose proof (decimal_fuel v Hv) as Hfu. unfold decimal in Hr.
  destruct (digits_spec (S (Z.to_nat (Z.log2 v))) v []) as (ds & Ed & _ & Hall & Hval); [lia|lia|].
  destruct (digits_head (S (Z.to_nat (Z.log2 v))) v []) as (d & ds' & Ed' & Hd); [lia|lia|]. rewrite app_nil_r in Ed.
  rewrite Ed in Hr. assert (ds = d :: ds') as -> by congruence. clear Ed Ed'.
  assert (Forall (fun b => is_ascii_digit (byte_val b) = true /\ byte_val b < 128) (d :: ds')) as Hdig.
  { eapply Forall_impl; [exact Hall|]. intros b [w Hb]. by destruct (digit_val_of b w Hb) as (_ & _ & ? & ?). }
  pose proof Hdig as [[Hd0 _] Hdig']%Forall_cons. destruct (scan_digit (get_loop n) d Hd0 Hd) as [Es Ew]. cbn [fmap list_fmap app] in Hr.
  rewrite (get_loop_cons n l _ _ Hr Ew), Es. destruct (advance_start l _ _ Hr) as (Hr1 & Hu1 & Hl1). set (l1 := advance (start_token l)) in *.
  destruct (while_text is_ascii_digit (byte_val <$> ds') 32 cs l1 Hr1) as (l2 & E2 & Hr2 & Hu2 & Hl2); [|done|].
  { apply forallb_forall. intros c Hc. apply list_elem_of_In, list_elem_of_fmap in Hc as (b' & -> & Hb'). rewrite Forall_forall in Hdig'. by apply Hdig'. }
  unfold scan_number, mbind, parser_bind, read_while, steps. rewrite E2. unfold int_parse, Mpa.parse. cbn [Z.eqb].
  change (byte_val d :: (byte_val <$> ds')) with (byte_val <$> (d :: ds')).
  rewrite (encode_bytes (d :: ds')) by (eapply Forall_impl; [exact Hdig|]; by intros ? []).
  rewrite (parse_bytes_digits _ 10 v) by (done || lia || by apply radix_val_digits). cbn. rewrite Hi. cbn.
  split_and!; [done|congruence|done|congruence].
Qed.

(** *** Strings *)

Lemma string_text s n cs l : forallb string_char s = true -> rest l = (byte_val <$> s) ++ code x22 :: cs -> (length s < n)%nat ->
  exists l', string_loop n l = Some (Ok (byte_val <$> s), l') /\ rest l' = cs /\ ungot l' = ungot l /\ last_comment l' = last_comment l.
Proof.
  revert n l. induction s as [|b s IH]; intros n l Hs Hr Hn; (destruct n as [|n]; [cbn in Hn; lia|]); cbn [string_loop].
  - unfold mbind, parser_bind, need_char, steps, mbind, parser_bind, read_char. cbn [fmap list_fmap app] in Hr. rewrite Hr. cbn. by eexists.
  - cbn in Hs. apply andb_true_iff in Hs as [Hb Hs]. unfold string_char in Hb.
    rewrite !andb_true_iff, !negb_true_iff in Hb. destruct Hb as [[_ Hq] He]. cbn [fmap list_fmap app] in Hr.
    assert (need_char l = Some (Ok (byte_val b), advance l)) as E.
    { unfold need_char, mbind, parser_bind, steps, advance, read_char. by rewrite Hr. }
    destruct (IH n (advance l)) as (l' & E' & H1 & H2 & H3); [done|unfold advance, read_char; by rewrite Hr|cbn in Hn; lia|].
    exists l'. unfold mbind, parser_bind. rewrite E, Hq, He, E'. cbn.
    split_and!; [done|done|rewrite H2|rewrite H3]; unfold advance, read_char; by rewrite Hr.
Qed.

Lemma lex_string s n l cs : forallb string_char s = true -> ungot l = None -> rest l = (byte_val <$> (x22 :: s ++ [x22])) ++ 32 :: cs ->
  lexed (const (VString s)) cs l (get_loop (S n) l).
Proof.
  intros Hs Hu Hr. rewrite fmap_cons, fmap_app, <- app_comm_cons, <- app_assoc in Hr. cbn [fmap list_fmap app] in Hr.
  rewrite (get_loop_cons n l _ _ Hr) by done. destruct (advance_start l _ _ Hr) as (Hr1 & Hu1 & Hl1). set (l1 := advance (start_token l)) in *.
  change (scan (get_loop n) (byte_val x22)) with (cs ← read_string; const_tok (VString (encode cs))).
  destruct (string_text s (S (length (rest l1))) (32 :: cs) l1 Hs Hr1) as (l2 & E2 & Hr2 & Hu2 & Hl2).
  { rewrite Hr1, length_app, length_fmap. lia. }
  unfold mbind, parser_bind, read_string. rewrite E2. rewrite encode_bytes.
  - cbn. split_and!; [done|congruence|done|congruence].
  - apply Forall_forall. intros b Hb. rewrite forallb_forall in Hs. apply list_elem_of_In, Hs in Hb. unfold string_char in Hb.
    rewrite !andb_true_iff in Hb. apply Z.ltb_lt. tauto.
Qed.

Lemma lex_word w n l cs : word_ok w -> ungot l = None -> rest l = (byte_val <$> word_text w) ++ 32 :: cs -> lexed w cs l (get_loop (S n) l).
Proof.
  intros Hw Hu Hr. destruct w as [[t s] v]. cbn in Hw.
  destruct t; try (destruct Hw as (Ht & -> & ->); by apply lex_fixed).
  - destruct Hw as [Hs ->]. by apply lex_name.
  - destruct v as [[v|i|b|c]|]; try (by destruct Hw as (Ht & _); exfalso; revert Ht; apply (bool_decide_unpack _)).
    + destruct Hw as [-> Hs]. by apply lex_string.
    + destruct Hw as (-> & Hi & Ei). by apply lex_number.
    + subst s. destruct l as [bef rs pt ts ug lc]. cbn in Hu, Hr. subst rs ug. destruct b; vm_compute; by split_and!.
Qed.

(** *** Sequences of words *)

(** A space before a token is skipped. *)
Lemma get_space l cs : ungot l = None -> rest l = 32 :: cs -> get l = get (advance (start_token l)).
Proof.
  intros Hu Hr. destruct (advance_start l _ _ Hr) as (Hr1 & Hu1 & _). unfold get. rewrite Hu, Hu1, Hu, Hr, Hr1. cbn [length].
  change (get_loop (S (S (length cs))) l) with
    ((_ ← update start_token; o ← steps read_char;
      match o with
      | None => tok TokenType.Eof
      | Some ch => if is_whitespace ch then get_loop (S (length cs)) else scan (get_loop (S (length cs))) ch
      end) l).
  unfold mbind, parser_bind, update, steps, advance, read_char. cbn [rest start_token]. by rewrite Hr.
Qed.

Lemma yields_source ws : Forall word_ok ws -> forall l, ungot l = None -> c_lines (last_comment l) = [] -> rest l = source ws ->
  yields l ws.
Proof.
  induction 1 as [|w ws Hw _ IH]; intros l Hu Hc Hr; (split; [done|]).
  - exists (token TokenType.Eof (start_token l)), (start_token l). unfold get. rewrite Hu, Hr. cbn.
    unfold mbind, parser_bind, update, steps, read_char. cbn [rest start_token]. by rewrite Hr.
  - unfold source in Hr. cbn [mbind list_bind] in Hr. fold (source ws) in Hr. rewrite <- app_assoc in Hr. cbn [app] in Hr.
    unfold get. rewrite Hu. pose proof (lex_word w (length (rest l)) l (source ws) Hw Hu Hr) as Hl.
    destruct (get_loop (S (length (rest l))) l) as [[[k| |] l']|]; try done. destruct Hl as (Hk & Hu' & Hr' & Hc').
    exists k, l'. rewrite <- Hc' in Hc. split_and!; [done|done|done|done|].
    destruct (advance_start l' _ _ Hr') as (Hr2 & Hu2 & Hc2). set (l2 := advance (start_token l')) in *.
    assert (yields l2 ws) as Hy by (apply IH; [congruence|by rewrite Hc2|done]). revert Hy. pose proof (get_space l' _ Hu' Hr') as Eg.
    destruct ws; intros [_ Hy]; (split; [done|]); by rewrite Eg.
Qed.
End lex_back.

(** ** Programs *)

Section programs.
Context `{Texts}.

Lemma parse_text p name n : package_ok p -> Forall word_ok (package_words p) -> (length (package_words p) < n)%nat ->
  exists l, Parser.parse n (Package_new name) (Lexer_new (source (package_words p))) = Some (Ok p, l).
Proof. intros Hp Hw Hn. apply (parses_package p name n Hp Hn). by apply yields_source. Qed.

(** C30. Text round trip: a package of type definitions and functions, written out
    as text with the parentheses its operators need, is parsed back as exactly
    that package: parameters, all kinds of statements, every operator and its
    precedence.  So the compiler, given the text, compiles that package. *)
Theorem package_text_round_trip p n : package_ok p -> Forall word_ok (package_words p) -> (length (package_words p) < n)%nat ->
  (exists l, Parser.parse n (Package_new (text "main")) (Lexer_new (source (package_words p))) = Some (Ok p, l)) /\
  forall sizes, compile_source n (source (package_words p)) sizes = Some (compile false (functions p) sizes).
Proof.
  intros Hp Hw Hn. destruct (parse_text p (text "main") n Hp Hw Hn) as [l E]. split; [by exists l|].
  intros sizes. unfold compile_source. by rewrite E.
Qed.

End programs.

(** ** Examples *)

#[local] Existing Instance ascii_texts.

Definition sample_package : Package := mkPackage (text "main") ∅ [sample_main] [] [] [].
Lemma sample_package_ok : package_ok sample_package /\ Forall word_ok (package_words sample_package).
Proof.
  split.
  - split_and!; [done|done|done|constructor|]. constructor; [|constructor]. split_and!; [by repeat constructor|by repeat constructor| |done].
    split; [by repeat constructor|]. cbn. unfold may_follow. by split_and!.
  - let ws := eval vm_compute in (package_words sample_package) in change (Forall word_ok ws).
    repeat apply Forall_cons_2; try apply Forall_nil_2; cbn [word_ok];
      first [done|split_and!; [apply (bool_decide_unpack _); vm_compute; exact I|done|done]].
Qed.

Lemma package_text_round_trip_witness : exists l,
  Parser.parse 100 (Package_new (text "main")) (Lexer_new (chars "package main func main ( a uint4 , b uint4 ) ( x uint4 , y uint4 ) { s := a + b s = s * a return s , s - b } "))
  = Some (Ok sample_package, l).
Proof.
  destruct (package_text_round_trip sample_package 100) as [[l E] _]; [apply sample_package_ok|apply sample_package_ok|vm_compute; lia|].
  exists l. exact E.
Defined.


(** ** What the parser gets wrong *)

Definition parsed (s : string) : option (result Package) :=
  fst <$> Parser.parse 1000 (Package_new (text "main")) (Lexer_new (chars s)).
Definition body_of (s : string) : option (list Stmt) :=
  match parsed s with Some (Ok p) => f_body <$> head (functions p) | _ => None end.

(** Where the parser leaves the language: a variable declaration loses its name;
    without a type it also loses its initial value, which becomes a statement;
    a constant without a type is refused; a list of result types without names is
    refused; a semicolon between statements is refused; a line that starts with a
    sign continues the line before; and on a struct without its closing brace the
    parser does not end, whatever the number of steps. *)
Theorem misparsed_programs :
  body_of "package main func main(a uint4) { var x uint4 = a }" = Some [SVar [[]] (Some uint4) [var (text "a")]] /\
  body_of "package main func main(a uint4) { var x = a }" = Some [SVar [[]] None []; SExprStmt (var (text "a"))] /\
  parsed "package main const N = M" = Some (Err InvalidArgument) /\
  parsed "package main func main(a uint4) (uint4, uint4) { return a, a }" = Some (Err InvalidArgument) /\
  parsed "package main func main(a uint4) uint4 { x := a; return x }" = Some (Err InvalidArgument) /\
  body_of "package main func main(a, b uint4) { x := a
 -b }" = Some [SShortDecl [text "x"] [bin BSub (var (text "a")) (var (text "b"))]] /\
  forall n p, Parser.parse n p (Lexer_new (chars "package main type T struct {")) = None.
Proof. split_and!; [vm_compute; reflexivity..|intros; apply struct_hangs]. Qed.
