(* ===== verification/MembershipTree.v ===== *)
(** * The coin accumulator as a binary hash tree

    [src/crates/quil-lattice-ct/src/confidential/coin_tree.rs] and
    [sharded_tree.rs] compute roots and paths of one binary tree over coin
    positions in several ways.  This file holds what they share: the interface
    of the hash ([relation/membership.rs]: nodes, leaves, parents and their
    bytes), the reference tree [subtree] that every algorithm is compared with,
    the zero nodes, and paths. *)

From S2P Require Import Prelude Bytes.

(** ** The hash of the tree

    [parent] and [leaf] hash under a key derived from a 32-byte context;
    [to_bytes] is the canonical encoding that [from_bytes] reads back. *)
Class MembershipHash := {
  Node : Type;
  AmountCommitment : Type;
  NODE_BYTES : nat;
  IDENTITY_BYTES : nat;
  node_zero : Node;
  key_parent : list byte -> Node -> Node -> Node;
  key_leaf : list byte -> Node -> AmountCommitment -> Node;
  to_bytes : Node -> list byte;
  from_bytes : list byte -> option Node;
  from_identity_bytes : list byte -> option Node;
  Node_eq_dec :: EqDecision Node;
  to_bytes_length n : length (to_bytes n) = NODE_BYTES;
  from_bytes_to_bytes n : from_bytes (to_bytes n) = Some n;
  to_bytes_from_bytes bs n : from_bytes bs = Some n -> to_bytes n = bs;
}.

#[export] Instance Node_inhabited `{MembershipHash} : Inhabited Node := populate node_zero.

Definition MAX_DEPTH : nat := 32.

Inductive TreeError :=
| Capacity
| Depth
| DuplicateAddress
| Position
| MissingCoin
| Encoding
| Context.

(** [Result<_, TreeError>]. *)
Inductive tree (A : Type) : Type :=
| TOk (a : A)
| TErr (e : TreeError).
Arguments TOk {A} a.
Arguments TErr {A} e.

#[export] Instance tree_ret : MRet tree := fun _ a => TOk a.
#[export] Instance tree_bind : MBind tree := fun _ _ f m =>
  match m with TOk a => f a | TErr e => TErr e end.
Definition tree_guard (c : bool) (e : TreeError) : tree unit := if c then TOk () else TErr e.
Definition tree_some {A} (o : option A) (e : TreeError) : tree A :=
  match o with Some a => TOk a | None => TErr e end.

Definition tree_ok {A} (m : tree A) : bool := match m with TOk _ => true | TErr _ => false end.
Lemma tree_ok_some {A} (m : tree A) : tree_ok m = true -> exists a, m = TOk a.
Proof. destruct m; [eauto|done]. Qed.

Lemma tree_bind_inv {A B} (m : tree A) (f : A -> tree B) b :
  (m ≫= f) = TOk b -> exists a, m = TOk a /\ f a = TOk b.
Proof. destruct m; cbn; naive_solver. Qed.
Lemma tree_guard_inv c e u : tree_guard c e = TOk u -> c = true.
Proof. by destruct c. Qed.

(** [binary_search_by_key(key, ..)] on a vector of pairs sorted by their first
    component without repeats. *)
Definition search {K A} `{EqDecision K} (l : list (K * A)) (k : K) : option A :=
  snd <$> (snd <$> list_find (fun e => e.1 = k) l).

Lemma search_cons {K A} `{EqDecision K} (l : list (K * A)) k a b :
  search ((a, b) :: l) k = if decide (a = k) then Some b else search l k.
Proof.
  unfold search. cbn [list_find fst]. destruct (decide (a = k)); [done|]. by destruct (list_find _ l) as [[??]|].
Qed.

Lemma search_Some {K A} `{EqDecision K} (l : list (K * A)) k v : NoDup (fst <$> l) -> (k, v) ∈ l -> search l k = Some v.
Proof.
  intros Hn Hi. induction l as [|[a b] l IH]; [by apply not_elem_of_nil in Hi|].
  cbn [fmap list_fmap] in Hn. apply NoDup_cons in Hn as [Hb Hn]. rewrite search_cons.
  apply elem_of_cons in Hi as [[= <- <-]|Hi]; [by rewrite decide_True|].
  rewrite decide_False; [by apply IH|]. cbn in Hb. intros ->. apply Hb, list_elem_of_fmap. by exists (k, v).
Qed.

Lemma search_elem {K A} `{EqDecision K} (l : list (K * A)) k v : search l k = Some v -> (k, v) ∈ l.
Proof.
  induction l as [|[a b] l IH]; [done|]. rewrite search_cons. destruct (decide (a = k)) as [->|].
  - intros [= ->]. left.
  - intros Hs. right. by apply IH.
Qed.

Lemma search_None {K A} `{EqDecision K} (l : list (K * A)) k : search l k = None <-> k ∉ fst <$> l.
Proof.
  induction l as [|[a b] l IH]; [split; [intros _; apply not_elem_of_nil|done]|].
  rewrite search_cons. cbn [fmap list_fmap fst]. rewrite not_elem_of_cons, <- IH.
  destruct (decide (a = k)); naive_solver.
Qed.

(** A path from a node to the root: the sibling at each level, and whether the
    running node is the right child. *)
Record AuthPath `{MembershipHash} := mkPath { siblings : list Node; right : list bool }.
Arguments mkPath {_} _ _.
Arguments siblings {_} _.
Arguments right {_} _.

Section Reference.
Context `{MembershipHash} (context : list byte).
#[local] Notation parent := (key_parent context).

(** The node at [level] and [index] of the tree with leaves [f]. *)
Fixpoint subtree (f : Z -> Node) (level : nat) (index : Z) : Node :=
  match level with
  | O => f index
  | S l => parent (subtree f l (2 * index)) (subtree f l (2 * index + 1))
  end.

Definition no_leaf : Z -> Node := fun _ => node_zero.
Definition zero_tree (level : nat) : Node := subtree no_leaf level 0.

(** [zero_nodes]: the zero node of every level up to [depth]. *)
Fixpoint zero_nodes_from (z : Node) (depth : nat) : list Node :=
  z :: match depth with O => [] | S d => zero_nodes_from (parent z z) d end.
Definition zero_nodes (depth : nat) : list Node := zero_nodes_from node_zero depth.

(** A running node carried up a path, as a verifier does. *)
Definition climb_step (node : Node) (s : Node * bool) : Node :=
  if s.2 then parent s.1 node else parent node s.1.
Definition climb (node : Node) (p : AuthPath) : Node :=
  foldl climb_step node (zip (siblings p) (right p)).

(** ** The reference tree *)

Lemma subtree_local f g level index :
  (forall i, index * 2 ^ Z.of_nat level <= i < (index + 1) * 2 ^ Z.of_nat level -> f i = g i) ->
  subtree f level index = subtree g level index.
Proof.
  revert index. induction level as [|l IH]; intros index Hfg; cbn [subtree].
  - apply Hfg. cbn. lia.
  - rewrite Nat2Z.inj_succ, Z.pow_succ_r in Hfg by lia.
    f_equal; apply IH; intros i Hi; apply Hfg; nia.
Qed.

Lemma subtree_no_leaf level i j : subtree no_leaf level i = subtree no_leaf level j.
Proof. revert i j. induction level as [|l IH]; intros i j; cbn [subtree]; [done|]. f_equal; apply IH. Qed.

Lemma subtree_empty f level index :
  (forall i, index * 2 ^ Z.of_nat level <= i < (index + 1) * 2 ^ Z.of_nat level -> f i = node_zero) ->
  subtree f level index = zero_tree level.
Proof. intros Hf. rewrite (subtree_local f no_leaf) by (intros; by apply Hf). apply subtree_no_leaf. Qed.

Lemma zero_tree_S level : zero_tree (S level) = parent (zero_tree level) (zero_tree level).
Proof. unfold zero_tree. cbn [subtree]. f_equal; apply subtree_no_leaf. Qed.

(** A tree of [k + l] levels is a tree of [k] levels over subtrees of [l] levels. *)
Lemma subtree_compose f l k index : subtree f (k + l) index = subtree (subtree f l) k index.
Proof. revert index. induction k as [|k IH]; intros index; cbn [subtree Nat.add]; [done|]. by rewrite !IH. Qed.

(** The leaves of a subtree, renumbered from zero. *)
Lemma subtree_shift f l index base :
  subtree f l (base * 2 ^ 0 + index) = subtree (fun i => f (base * 2 ^ Z.of_nat l + i)) l index.
Proof.
  revert index base. induction l as [|l IH]; intros index base; cbn [subtree].
  - f_equal.
  - rewrite Nat2Z.inj_succ, Z.pow_succ_r by lia.
    replace (2 * (base * 2 ^ 0 + index)) with ((2 * base) * 2 ^ 0 + 2 * index) by lia.
    replace (2 * base * 2 ^ 0 + 2 * index + 1) with ((2 * base) * 2 ^ 0 + (2 * index + 1)) by lia.
    rewrite !IH. f_equal; apply subtree_local; intros i _; f_equal; lia.
Qed.

Lemma zero_nodes_from_lookup depth level l : (level <= depth)%nat ->
  zero_nodes_from (zero_tree l) depth !! level = Some (zero_tree (l + level)).
Proof.
  revert l level. induction depth as [|d IH]; intros l level Hl.
  - replace level with 0%nat by lia. cbn. by rewrite Nat.add_0_r.
  - destruct level as [|level]; cbn; [by rewrite Nat.add_0_r|].
    rewrite <- zero_tree_S, IH by lia. do 2 f_equal. lia.
Qed.

Lemma zero_nodes_lookup depth level : (level <= depth)%nat ->
  zero_nodes depth !! level = Some (zero_tree level).
Proof. apply (zero_nodes_from_lookup depth level 0). Qed.

Lemma zero_nodes_length depth : length (zero_nodes depth) = S depth.
Proof.
  unfold zero_nodes. generalize node_zero. induction depth as [|d IH]; intros z; cbn; [done|]. by rewrite IH.
Qed.

Lemma zero_nodes_total depth level : (level <= depth)%nat -> zero_nodes depth !!! level = zero_tree level.
Proof. intros Hl. apply list_lookup_total_correct. by apply zero_nodes_lookup. Qed.

Lemma zero_nodes_drop depth k level : (k + level <= depth)%nat ->
  drop k (zero_nodes depth) !!! level = zero_tree (k + level).
Proof. intros Hl. apply list_lookup_total_correct. rewrite lookup_drop. by apply zero_nodes_lookup. Qed.

(** ** Paths *)

(** The path of [n] siblings above the node at [level] and [index]. *)
Fixpoint path_from (f : Z -> Node) (level n : nat) (index : Z) : AuthPath :=
  match n with
  | O => mkPath [] []
  | S n =>
      let p := path_from f (S level) n (Z.shiftr index 1) in
      mkPath (subtree f level (Z.lxor index 1) :: siblings p) (Z.odd index :: right p)
  end.

Lemma path_from_length f level n index :
  length (siblings (path_from f level n index)) = n /\ length (right (path_from f level n index)) = n.
Proof.
  revert level index. induction n as [|n IH]; intros level index; cbn; [done|].
  destruct (IH (S level) (Z.shiftr index 1)) as [H1 H2]. by rewrite H1, H2.
Qed.

(** The sibling of an index, and its parent. *)
Lemma lxor_even k : Z.lxor (2 * k) 1 = 2 * k + 1.
Proof.
  symmetry. apply Z.add_nocarry_lxor. apply Z.bits_inj'. intros n Hn. rewrite Z.land_spec, Z.bits_0.
  destruct (decide (n = 0)) as [->|Hz]; [by rewrite Z.testbit_even_0|].
  change 1 with (2 ^ 0). rewrite (Z.pow2_bits_false 0 n) by lia. apply andb_false_r.
Qed.

Lemma lxor_odd k : Z.lxor (2 * k + 1) 1 = 2 * k.
Proof. by rewrite <- lxor_even, Z.lxor_assoc, Z.lxor_nilpotent, Z.lxor_0_r. Qed.

Lemma index_cases index :
  Z.shiftr index 1 = index / 2 /\
  (if Z.odd index then index = 2 * (index / 2) + 1 /\ Z.lxor index 1 = 2 * (index / 2)
   else index = 2 * (index / 2) /\ Z.lxor index 1 = 2 * (index / 2) + 1).
Proof.
  rewrite Z.shiftr_div_pow2 by lia. change (2 ^ 1) with 2. split; [done|].
  pose proof (Z.div_mod index 2 ltac:(lia)) as E. rewrite Zmod_odd in E.
  destruct (Z.odd index); split; try lia.
  - rewrite E at 1. apply lxor_odd.
  - rewrite E at 1. rewrite Z.add_0_r. apply lxor_even.
Qed.

(** Climbing a path of the tree gives the node of the tree above. *)
Lemma climb_path f level n index : 0 <= index ->
  climb (subtree f level index) (path_from f level n index) = subtree f (n + level) (Z.shiftr index (Z.of_nat n)).
Proof.
  revert level index. induction n as [|n IH]; intros level index Hi; [by rewrite Z.shiftr_0_r|].
  destruct (index_cases index) as [Es Ei].
  assert (climb_step (subtree f level index) (subtree f level (Z.lxor index 1), Z.odd index)
    = subtree f (S level) (Z.shiftr index 1)) as Hstep.
  { unfold climb_step. cbn [fst snd]. rewrite Es. cbn [subtree]. revert Ei. generalize (index / 2). intros k Ei.
    by destruct (Z.odd index); destruct Ei as [-> ->]. }
  replace (Z.of_nat (S n)) with (1 + Z.of_nat n) by lia. rewrite <- Z.shiftr_shiftr by lia.
  replace (S n + level)%nat with (n + S level)%nat by lia. rewrite <- IH by (apply Z.shiftr_nonneg; lia).
  rewrite <- Hstep. done.
Qed.

(** Two paths one above the other. *)
Lemma path_from_app f level a b index : 0 <= index ->
  path_from f level (a + b) index =
  mkPath (siblings (path_from f level a index) ++ siblings (path_from f (a + level) b (Z.shiftr index (Z.of_nat a))))
         (right (path_from f level a index) ++ right (path_from f (a + level) b (Z.shiftr index (Z.of_nat a)))).
Proof.
  revert level index. induction a as [|a IH]; intros level index Hi; cbn [Nat.add path_from].
  - cbn [siblings right app]. change (Z.of_nat 0) with 0. rewrite Z.shiftr_0_r.
    by destruct (path_from f level b index).
  - rewrite IH by (apply Z.shiftr_nonneg; lia). cbn [siblings right app].
    rewrite Z.shiftr_shiftr by lia. replace (1 + Z.of_nat a) with (Z.of_nat (S a)) by lia.
    by replace (a + S level)%nat with (S a + level)%nat by lia.
Qed.

End Reference.
