(* ===== verification/CoinTree.v ===== *)
(** * Coin trees and frontiers ([quil-lattice-ct/src/confidential/coin_tree.rs])

    A coin's leaf sits at its insertion position.  [CoinTree] is the full
    reconstruction of the tree with its paths, [Frontier] the append-only state
    that extends the root coin by coin, [IndexedTree] the reader that rebuilds a
    path from the completed subtrees the frontier emits.  All three are shown to
    compute the reference tree of [MembershipTree].  Levels and depths are
    [nat]; positions and counts are 64-bit integers in [Z]. *)

From S2P Require Import Prelude Bytes MembershipTree.

Section Coins.
Context `{MembershipHash} (context : list byte).
#[local] Notation parent := (key_parent context).

Record CoinRecord := mkCoin {
  address : list byte;
  owner : list byte;
  commitment : AmountCommitment;
  position : Z;
}.

(** ** Root records *)

Record RootRecord := mkRoot {
  r_context : list byte;
  r_depth : Z;
  r_coins : Z;
  r_root : Node;
}.

Definition ROOT_VERSION : list byte := String.list_byte_of_string "QCT3RT" ++ [x00; x02].
Definition ROOT_RECORD_BYTES : nat := 8 + 32 + 1 + 8 + NODE_BYTES.

Definition root_validate (r : RootRecord) : tree unit :=
  tree_guard (negb ((r_depth r =? 0) || (Z.of_nat MAX_DEPTH <? r_depth r)
    || (2 ^ r_depth r <? r_coins r))) Depth.

Definition root_encode (r : RootRecord) : tree (list byte) :=
  _ ← root_validate r;
  TOk (ROOT_VERSION ++ r_context r ++ [byte_of (r_depth r)] ++ le_bytes 8 (r_coins r) ++ to_bytes (r_root r)).

(** [bytes[a..b]]. *)
Definition slice (a b : nat) (bs : list byte) : list byte := take (b - a) (drop a bs).

Definition root_decode (bs : list byte) (ctx : list byte) : tree RootRecord :=
  _ ← tree_guard (bool_decide (length bs = ROOT_RECORD_BYTES) && bool_decide (take 8 bs = ROOT_VERSION)) Encoding;
  _ ← tree_guard (bool_decide (slice 8 40 bs = ctx)) MembershipTree.Context;
  root ← tree_some (from_bytes (drop 49 bs)) Encoding;
  let r := mkRoot ctx (byte_val (default x00 (bs !! 40%nat))) (le_val (slice 41 49 bs)) root in
  _ ← root_validate r; TOk r.

(** The leaf of a coin: [key.leaf(from_identity_bytes(owner)?, commitment)]. *)
Definition coin_leaf (c : CoinRecord) : tree Node :=
  o ← tree_some (from_identity_bytes (owner c)) Encoding; TOk (key_leaf context o (commitment c)).

(** ** [CoinTree] *)

Record CoinTree := mkCoinTree {
  ct_addresses : list (list byte);
  ct_index : list (list byte * Z);
  ct_layers : list (list Node);
  ct_zeros : list Node;
  ct_depth : nat;
  ct_max_depth : nat;
}.

(** The loop that counts the nodes of all layers; [width] halves each round. *)
Fixpoint size_loop (fuel : nat) (width nodes : Z) (depth : nat) : tree (nat * Z) :=
  match fuel with
  | O => TErr Capacity
  | S n =>
      let nodes := nodes + width in
      if usize_max <? nodes then TErr Capacity
      else if (width =? 1) && (1 <=? depth)%nat then TOk (depth, nodes)
      else size_loop n ((width + 1) / 2) nodes (S depth)
  end.

(** [previous.chunks(2)], the last chunk padded with the zero of its level. *)
Fixpoint pair_layer (z : Node) (l : list Node) : list Node :=
  match l with
  | [] => []
  | [a] => [parent a z]
  | a :: b :: t => parent a b :: pair_layer z t
  end.
Fixpoint build_layers (zeros : list Node) (level n : nat) (prev : list Node) : list (list Node) :=
  prev :: match n with
          | O => []
          | S n => build_layers zeros (S level) n (pair_layer (zeros !!! level) prev)
          end.

Fixpoint positions_from (expected : Z) (coins : list CoinRecord) : bool :=
  match coins with
  | [] => true
  | c :: cs => (position c =? expected) && positions_from (expected + 1) cs
  end.

Fixpoint leaves_of (coins : list CoinRecord) : tree (list Node) :=
  match coins with
  | [] => TOk []
  | c :: cs => l ← coin_leaf c; ls ← leaves_of cs; TOk (l :: ls)
  end.

Definition coin_tree_build (coins : list CoinRecord) (max_depth : nat) (max_nodes : Z) : tree CoinTree :=
  _ ← tree_guard ((1 <=? max_depth)%nat && (max_depth <=? MAX_DEPTH)%nat) Depth;
  _ ← tree_guard (Z.of_nat (length coins) <=? 2 ^ Z.of_nat max_depth) Capacity;
  p ← size_loop 66 (Z.max (Z.of_nat (length coins)) 1) (Z.of_nat max_depth + 1) 0;
  let '(depth, nodes) := p in
  _ ← tree_guard (nodes <=? max_nodes) Capacity;
  let order := sort_by_key position Z.leb coins in
  _ ← tree_guard (positions_from 0 order) Position;
  let index := sort_by_key fst bytes_leb ((fun c => (address c, position c)) <$> order) in
  _ ← tree_guard (negb (adjacent_repeat fst index)) DuplicateAddress;
  let zeros := zero_nodes context max_depth in
  leaves ← leaves_of order;
  let leaves := if bool_decide (leaves = []) then [zeros !!! 0%nat] else leaves in
  TOk (mkCoinTree (address <$> order) index (build_layers zeros 0 depth leaves) zeros depth max_depth).

Definition ct_coins (t : CoinTree) : Z := Z.of_nat (length (ct_addresses t)).

Fixpoint pad_root (zeros : list Node) (root : Node) (level n : nat) : Node :=
  match n with O => root | S n => pad_root zeros (parent root (zeros !!! level)) (S level) n end.

Definition ct_root_at_depth (t : CoinTree) (depth : nat) : tree RootRecord :=
  _ ← tree_guard ((ct_depth t <=? depth)%nat && (depth <=? ct_max_depth t)%nat) Depth;
  let root := (ct_layers t !!! ct_depth t) !!! 0%nat in
  TOk (mkRoot context (Z.of_nat depth) (ct_coins t) (pad_root (ct_zeros t) root (ct_depth t) (depth - ct_depth t))).

Fixpoint ct_path_from (t : CoinTree) (level n : nat) (index : Z) : AuthPath :=
  match n with
  | O => mkPath [] []
  | S n =>
      let p := ct_path_from t (S level) n (Z.shiftr index 1) in
      let sibling := default (ct_zeros t !!! level)
        (layer ← ct_layers t !! level; layer !! Z.to_nat (Z.lxor index 1)) in
      mkPath (sibling :: siblings p) (Z.odd index :: right p)
  end.
Definition ct_auth_path (t : CoinTree) (a : list byte) (depth : nat) : tree AuthPath :=
  _ ← tree_guard ((ct_depth t <=? depth)%nat && (depth <=? ct_max_depth t)%nat) Depth;
  index ← tree_some (search (ct_index t) a) MissingCoin;
  TOk (ct_path_from t 0 depth index).

(** ** [Frontier] *)

Record Frontier := mkFrontier {
  fr_zeros : list Node;
  fr_max_depth : nat;
  fr_count : Z;
  fr_filled : list (option Node);
}.

Record CompletedNode := mkCompleted { cn_level : nat; cn_index : Z; cn_node : Node }.

(** [depth_for]: the loop raises the depth while it is too small. *)
Fixpoint depth_loop (fuel depth : nat) (count : Z) : nat :=
  match fuel with
  | O => depth
  | S n => if (depth <? MAX_DEPTH)%nat && (2 ^ Z.of_nat depth <? count) then depth_loop n (S depth) count else depth
  end.
Definition depth_for (count : Z) : nat := depth_loop MAX_DEPTH 1 count.

Definition frontier_new (max_depth : nat) : tree Frontier :=
  _ ← tree_guard ((1 <=? max_depth)%nat && (max_depth <=? MAX_DEPTH)%nat) Depth;
  TOk (mkFrontier (zero_nodes context max_depth) max_depth 0 (replicate (S max_depth) None)).

Definition fr_current_depth (fr : Frontier) : nat := Nat.min (depth_for (fr_count fr)) (fr_max_depth fr).

(** The carry of [append_leaf_with], with the nodes it emits. *)
Fixpoint carry (count : Z) (level : nat) (node : Node) (filled : list (option Node))
  : list (option Node) * list CompletedNode :=
  match filled with
  | [] => ([], [])
  | slot :: rest =>
      let emitted := mkCompleted level (Z.shiftr count (Z.of_nat level)) node in
      match slot with
      | None => (Some node :: rest, [emitted])
      | Some lhs => let '(rest, out) := carry count (S level) (parent lhs node) rest in (None :: rest, emitted :: out)
      end
  end.
Definition append_leaf_with (fr : Frontier) (node : Node) : Frontier * list CompletedNode :=
  let '(filled, out) := carry (fr_count fr) 0 node (fr_filled fr) in
  (mkFrontier (fr_zeros fr) (fr_max_depth fr) (wrap_u64 (fr_count fr + 1)) filled, out).

(** [append_with_nodes]; [append] is the same without the nodes. *)
Definition append_with_nodes (fr : Frontier) (o : list byte) (c : AmountCommitment)
  : tree (Z * list CompletedNode * Frontier) :=
  _ ← tree_guard (fr_count fr <? 2 ^ Z.of_nat (fr_max_depth fr)) Capacity;
  o ← tree_some (from_identity_bytes o) Encoding;
  let '(fr', out) := append_leaf_with fr (key_leaf context o c) in
  TOk (fr_count fr, out, fr').
Definition append (fr : Frontier) (o : list byte) (c : AmountCommitment) : tree (Z * Frontier) :=
  r ← append_with_nodes fr o c; TOk (r.1.1, r.2).

(** [CoinTree::frontier]: the leaves of the first layer, appended in order. *)
Definition ct_frontier (t : CoinTree) : Frontier :=
  foldl (fun fr leaf => (append_leaf_with fr leaf).1)
    (mkFrontier (ct_zeros t) (ct_max_depth t) 0 (replicate (S (ct_max_depth t)) None))
    (take (length (ct_addresses t)) (ct_layers t !!! 0%nat)).

(** The pending left nodes folded upward, padded with zero subtrees. *)
Fixpoint pending_fold (zeros : list Node) (level n : nat) (node : option Node) (filled : list (option Node)) : option Node :=
  match n, filled with
  | S n, slot :: rest =>
      let node := match slot, node with
                  | Some lhs, Some rhs => Some (parent lhs rhs)
                  | Some lhs, None => Some (parent lhs (zeros !!! level))
                  | None, Some rhs => Some (parent rhs (zeros !!! level))
                  | None, None => None
                  end in
      pending_fold zeros (S level) n node rest
  | _, _ => node
  end.
Definition fr_root_at_depth (fr : Frontier) (depth : nat) : tree RootRecord :=
  _ ← tree_guard ((fr_current_depth fr <=? depth)%nat && (depth <=? fr_max_depth fr)%nat) Depth;
  let root := match pending_fold (fr_zeros fr) 0 depth None (fr_filled fr) with
              | Some node => node
              | None => default (fr_zeros fr !!! depth) (mjoin (fr_filled fr !! depth))
              end in
  TOk (mkRoot context (Z.of_nat depth) (fr_count fr) root).

Definition FRONTIER_VERSION : list byte := String.list_byte_of_string "QCT3FR" ++ [x00; x02].
Definition FRONTIER_HEADER_BYTES : nat := 8 + 32 + 1 + 8.

Definition fr_encode (fr : Frontier) : list byte :=
  FRONTIER_VERSION ++ context ++ [byte_of (Z.of_nat (fr_max_depth fr))] ++ le_bytes 8 (fr_count fr)
  ++ concat (to_bytes <$> omap id (fr_filled fr)).

(** The slots of the set bits of [count], read one after the other. *)
Fixpoint read_filled (count : Z) (level n : nat) (bs : list byte) : tree (list (option Node)) :=
  match n with
  | O => TOk []
  | S n =>
      if Z.odd (Z.shiftr count (Z.of_nat level)) then
        node ← tree_some (from_bytes (take NODE_BYTES bs)) Encoding;
        rest ← read_filled count (S level) n (drop NODE_BYTES bs); TOk (Some node :: rest)
      else rest ← read_filled count (S level) n bs; TOk (None :: rest)
  end.
Fixpoint set_bits (count : Z) (level n : nat) : nat :=
  match n with
  | O => 0
  | S n => (if Z.odd (Z.shiftr count (Z.of_nat level)) then 1 else 0) + set_bits count (S level) n
  end.
Definition fr_decode (bs : list byte) (max_depth : nat) : tree Frontier :=
  _ ← tree_guard ((FRONTIER_HEADER_BYTES <=? length bs)%nat && bool_decide (take 8 bs = FRONTIER_VERSION)) Encoding;
  _ ← tree_guard (bool_decide (slice 8 40 bs = context)) MembershipTree.Context;
  _ ← tree_guard ((byte_val (default x00 (bs !! 40%nat)) =? Z.of_nat max_depth)
                  && (1 <=? max_depth)%nat && (max_depth <=? MAX_DEPTH)%nat) Depth;
  let count := le_val (slice 41 49 bs) in
  _ ← tree_guard (count <=? 2 ^ Z.of_nat max_depth) Capacity;
  _ ← tree_guard (bool_decide (length bs = FRONTIER_HEADER_BYTES + set_bits count 0 (S max_depth) * NODE_BYTES)%nat) Encoding;
  fr ← frontier_new max_depth;
  filled ← read_filled count 0 (S max_depth) (drop FRONTIER_HEADER_BYTES bs);
  TOk (mkFrontier (fr_zeros fr) max_depth count filled).

(** ** [IndexedTree] *)

Record IndexedTree := mkIndexed { it_context : list byte; it_zeros : list Node }.

Inductive IndexedWitnessError (E : Type) :=
| WTree (e : TreeError)
| WLookup (e : E)
| WMissingNode
| WRootMismatch.
#[global] Arguments WTree {E} e.
#[global] Arguments WLookup {E} e.
#[global] Arguments WMissingNode {E}.
#[global] Arguments WRootMismatch {E}.

Definition indexed_new (max_depth : nat) : tree IndexedTree :=
  _ ← tree_guard ((1 <=? max_depth)%nat && (max_depth <=? MAX_DEPTH)%nat) Depth;
  TOk (mkIndexed context (zero_nodes context max_depth)).

Section Reader.
Context {E : Type} (lookup : nat -> Z -> E + option Node) (it : IndexedTree).
#[local] Notation answer A := (IndexedWitnessError E + A)%type.
#[local] Instance answer_bind : MBind (sum (IndexedWitnessError E)) := fun _ _ f m =>
  match m with inl e => inl e | inr a => f a end.

(** [IndexedTree::subtree].  A subtree that is neither empty nor complete has
    [level >= 1], so the last case of [level] is not reached. *)
Fixpoint read_subtree (count : Z) (level : nat) (index : Z) : answer Node :=
  let start := wrap_u64 (Z.shiftl index (Z.of_nat level)) in
  if count <=? start then inr (it_zeros it !!! level)
  else if start + 2 ^ Z.of_nat level <=? count then
    match lookup level index with
    | inl e => inl (WLookup e)
    | inr None => inl WMissingNode
    | inr (Some node) => inr node
    end
  else match level with
       | O => inl WMissingNode
       | S l =>
           lhs ← read_subtree count l (index * 2);
           rhs ← read_subtree count l (index * 2 + 1);
           inr (parent lhs rhs)
       end.

(** The loop of [auth_path]: the node reached and the path below it. *)
Fixpoint path_loop (count : Z) (level n : nat) (index : Z) (node : Node) : answer (Node * AuthPath) :=
  match n with
  | O => inr (node, mkPath [] [])
  | S n =>
      sibling ← read_subtree count level (Z.lxor index 1);
      let node := if Z.odd index then parent sibling node else parent node sibling in
      r ← path_loop count (S level) n (Z.shiftr index 1) node;
      inr (r.1, mkPath (sibling :: siblings r.2) (Z.odd index :: right r.2))
  end.

Definition indexed_auth_path (root : RootRecord) (coin : CoinRecord) : answer AuthPath :=
  match root_validate root with
  | TErr e => inl (WTree e)
  | TOk _ =>
      if negb (bool_decide (r_context root = it_context it)) then inl (WTree MembershipTree.Context)
      else if (Z.of_nat (length (it_zeros it)) <=? r_depth root) then inl (WTree Depth)
      else if r_coins root <=? position coin then inl (WTree MissingCoin)
      else match coin_leaf coin with
           | TErr e => inl (WTree e)
           | TOk leaf =>
               r ← path_loop (r_coins root) 0 (Z.to_nat (r_depth root)) (position coin) leaf;
               if bool_decide (r.1 = r_root root) then inr r.2 else inl WRootMismatch
           end
  end.
End Reader.
End Coins.

(** ** The frontier holds completed subtrees of the reference tree *)

Section Frontiers.
Context `{MembershipHash} (context : list byte).
#[local] Notation parent := (key_parent context).
#[local] Notation subtree := (subtree context).

(** The leaves of a list, at positions from zero. *)
Definition leaf_at (ls : list Node) (i : Z) : Node := if i <? 0 then node_zero else default node_zero (ls !! Z.to_nat i).

Definition slot_of (f : Z -> Node) (count : Z) (level : nat) : option Node :=
  let q := Z.shiftr count (Z.of_nat level) in
  if Z.odd q then Some (subtree f level (q - 1)) else None.
Definition slots (f : Z -> Node) (count : Z) (level n : nat) : list (option Node) := slot_of f count <$> seq level n.

Record frontier_of (f : Z -> Node) (fr : Frontier) : Prop := {
  fo_zeros : fr_zeros fr = zero_nodes context (fr_max_depth fr);
  fo_depth : (1 <= fr_max_depth fr <= MAX_DEPTH)%nat;
  fo_count : 0 <= fr_count fr <= 2 ^ Z.of_nat (fr_max_depth fr);
  fo_filled : fr_filled fr = slots f (fr_count fr) 0 (S (fr_max_depth fr));
}.

Lemma shiftr_S count level : Z.shiftr count (Z.of_nat (S level)) = Z.shiftr count (Z.of_nat level) / 2.
Proof.
  replace (Z.of_nat (S level)) with (Z.of_nat level + 1) by lia. rewrite <- Z.shiftr_shiftr by lia.
  by rewrite Z.shiftr_div_pow2 with (n := 1) by lia.
Qed.

(** The slots of a level depend on the bits of the count above it. *)
Lemma slots_above f c d level n : Z.shiftr c (Z.of_nat level) = Z.shiftr d (Z.of_nat level) ->
  slots f c level n = slots f d level n.
Proof.
  revert level. induction n as [|n IH]; intros level E; [done|]. unfold slots. cbn [seq fmap list_fmap].
  unfold slot_of at 1 3. rewrite E. f_equal. apply IH. by rewrite !shiftr_S, E.
Qed.

(** The nodes an append completes: those whose range ends after the new leaf. *)
Definition completes (f : Z -> Node) (count : Z) (level : nat) (cn : CompletedNode) : Prop :=
  exists j, (level <= j)%nat /\ (count + 1) mod 2 ^ Z.of_nat j = 0 /\
    cn = mkCompleted j (Z.shiftr count (Z.of_nat j)) (subtree f j (Z.shiftr count (Z.of_nat j))).

Lemma odd_half q : Z.odd q = true -> q = 2 * (q / 2) + 1.
Proof. intros Ho. pose proof (Z.div_mod q 2). rewrite Zmod_odd, Ho in *. lia. Qed.
Lemma even_half q : Z.odd q = false -> q = 2 * (q / 2).
Proof. intros Ho. pose proof (Z.div_mod q 2). rewrite Zmod_odd, Ho in *. lia. Qed.

(** A count whose low bits are all ones. *)
Lemma ones_shift count level : (count + 1) mod 2 ^ Z.of_nat level = 0 ->
  count + 1 = (Z.shiftr count (Z.of_nat level) + 1) * 2 ^ Z.of_nat level /\
  Z.shiftr (count + 1) (Z.of_nat level) = Z.shiftr count (Z.of_nat level) + 1.
Proof.
  intros Hm. rewrite !Z.shiftr_div_pow2 by lia. set (p := 2 ^ Z.of_nat level) in *.
  assert (0 < p) as Hp by (apply Z.pow_pos_nonneg; lia).
  assert (count + 1 = (count + 1) / p * p) as E by (pose proof (Z.div_mod (count + 1) p); lia).
  assert (count / p = (count + 1) / p - 1) as ->; [|lia].
  symmetry. apply (Z.div_unique_pos _ _ _ (p - 1)); nia.
Qed.

Lemma carry_slots f count level n : 0 <= count -> (count + 1) mod 2 ^ Z.of_nat level = 0 ->
  Z.shiftr count (Z.of_nat level) + 1 < 2 ^ Z.of_nat n ->
  exists out, carry context count level (subtree f level (Z.shiftr count (Z.of_nat level))) (slots f count level n)
    = (slots f (count + 1) level n, out) /\ forall cn, cn ∈ out <-> completes f count level cn.
Proof.
  revert level. induction n as [|n IH]; intros level Hc Hm Hn.
  { assert (0 <= Z.shiftr count (Z.of_nat level)) by (apply Z.shiftr_nonneg; lia). cbn in Hn. lia. }
  destruct (ones_shift count level Hm) as [Ec Es]. unfold slots. cbn [seq fmap list_fmap].
  fold (slots f count (S level) n) (slots f (count + 1) (S level) n).
  unfold slot_of. rewrite Es. set (q := Z.shiftr count (Z.of_nat level)) in *. cbn [carry]. fold q.
  rewrite Z.add_1_r, Z.odd_succ, <- Z.negb_odd, <- Z.add_1_r.
  assert (Hmod : (count + 1) mod 2 ^ Z.of_nat (S level) = if Z.odd q then 0 else 2 ^ Z.of_nat level).
  { rewrite Nat2Z.inj_succ, Z.pow_succ_r, Ec by lia. rewrite Z.mul_comm, (Z.mul_comm 2), Z.mul_mod_distr_l by lia.
    rewrite Zmod_odd, Z.add_1_r, Z.odd_succ, <- Z.negb_odd. destruct (Z.odd q); cbn; lia. }
  destruct (Z.odd q) eqn:Eo; cbn [negb].
  - destruct (IH (S level) Hc Hmod) as (out & E & Hout).
    { rewrite shiftr_S. fold q. rewrite Nat2Z.inj_succ, Z.pow_succ_r in Hn by lia.
      pose proof (odd_half q Eo). lia. }
    assert (parent (subtree f level (q - 1)) (subtree f level q) = subtree f (S level) (Z.shiftr count (Z.of_nat (S level)))) as ->.
    { rewrite shiftr_S. fold q. cbn [MembershipTree.subtree]. pose proof (odd_half q Eo). f_equal; f_equal; lia. }
    rewrite E. eexists. split; [done|]. intros cn. rewrite elem_of_cons, Hout. split.
    + intros [->|(j & Hj & Hz & ->)]; [by exists level|exists j; split; [lia|done]].
    + intros (j & Hj & Hz & ->). destruct (decide (j = level)) as [->|Hjl]; [by left|].
      right. exists j. split; [lia|done].
  - assert (slots f (count + 1) (S level) n = slots f count (S level) n) as ->.
    { apply slots_above. rewrite !shiftr_S, Es. fold q. rewrite (even_half q Eo) at 1.
      rewrite Z.add_comm, (Z.mul_comm 2), Z.div_add by lia. done. }
    replace (q + 1 - 1) with q by lia. eexists. split; [done|]. intros cn. rewrite list_elem_of_singleton. split.
    + intros ->. by exists level.
    + intros (j & Hj & Hz & ->). destruct (decide (j = level)) as [->|Hjl]; [done|]. exfalso.
      assert (0 < 2 ^ Z.of_nat level) by (apply Z.pow_pos_nonneg; lia).
      apply Z.mod_divide in Hz; [|lia]. assert ((2 ^ Z.of_nat (S level) | 2 ^ Z.of_nat j)) as Hd.
      { exists (2 ^ (Z.of_nat j - Z.of_nat (S level))). rewrite <- Z.pow_add_r by lia. f_equal. lia. }
      pose proof (Z.divide_trans _ _ _ Hd Hz) as Hz'. apply Z.mod_divide in Hz'; lia.
Qed.

(** Appending the leaf of the next position keeps the invariant and emits
    exactly the subtrees it completes. *)
Lemma append_leaf_of f fr : frontier_of f fr -> fr_count fr < 2 ^ Z.of_nat (fr_max_depth fr) ->
  exists fr' out, append_leaf_with context fr (f (fr_count fr)) = (fr', out) /\ frontier_of f fr' /\
    fr_count fr' = fr_count fr + 1 /\ fr_max_depth fr' = fr_max_depth fr /\
    forall cn, cn ∈ out <-> completes f (fr_count fr) 0 cn.
Proof.
  intros Hf Hc. pose proof (fo_count _ _ Hf). pose proof (fo_depth _ _ Hf).
  assert (2 ^ Z.of_nat (fr_max_depth fr) <= 2 ^ 32).
  { apply Z.pow_le_mono_r; [lia|]. unfold MAX_DEPTH in *. lia. }
  destruct (carry_slots f (fr_count fr) 0 (S (fr_max_depth fr))) as (out & E & Hout).
  - lia.
  - by rewrite Z.mod_1_r.
  - rewrite Z.shiftr_0_r, Nat2Z.inj_succ, Z.pow_succ_r by lia. lia.
  - cbn [MembershipTree.subtree] in E. change (Z.of_nat 0) with 0 in E. rewrite Z.shiftr_0_r, <- (fo_filled _ _ Hf) in E.
    unfold append_leaf_with. rewrite E. eexists _, _. split; [done|].
    rewrite wrap_u64_id by (unfold is_u64; lia). split; [|done].
    split; cbn; [apply Hf|done|lia|done].
Qed.

Lemma frontier_new_of f max_depth : (1 <= max_depth <= MAX_DEPTH)%nat ->
  exists fr, frontier_new context max_depth = TOk fr /\ frontier_of f fr /\ fr_count fr = 0 /\ fr_max_depth fr = max_depth.
Proof.
  intros Hd. unfold frontier_new, tree_guard. rewrite !(proj2 (Nat.leb_le _ _)) by lia. eexists. split; [done|].
  split; [|done]. split; cbn [fr_zeros fr_max_depth fr_count fr_filled]; [done|lia|lia|].
  generalize (S max_depth). intros n. generalize 0%nat. induction n as [|n IH]; intros l; [done|].
  unfold slots. cbn [replicate seq fmap list_fmap]. f_equal; [|apply IH].
  unfold slot_of. by rewrite Z.shiftr_0_l.
Qed.

(** ** Its root is the root of the tree *)

Definition pending (f : Z -> Node) (count : Z) (level : nat) : option Node :=
  if bool_decide (count mod 2 ^ Z.of_nat level = 0) then None
  else Some (subtree f level (Z.shiftr count (Z.of_nat level))).

Lemma subtree_beyond f count level index : (forall i, count <= i -> f i = node_zero) ->
  count <= index * 2 ^ Z.of_nat level -> subtree f level index = zero_tree context level.
Proof. intros Hf Hi. apply subtree_empty. intros i [Hlo _]. apply Hf. lia. Qed.

Lemma pending_step f count level zero : 0 <= count -> (forall i, count <= i -> f i = node_zero) ->
  zero = zero_tree context level ->
  match slot_of f count level, pending f count level with
  | Some lhs, Some rhs => Some (parent lhs rhs)
  | Some lhs, None => Some (parent lhs zero)
  | None, Some rhs => Some (parent rhs zero)
  | None, None => None
  end = pending f count (S level).
Proof.
  intros Hc Hf ->. unfold slot_of, pending. rewrite shiftr_S. set (q := Z.shiftr count (Z.of_nat level)).
  assert (count = q * 2 ^ Z.of_nat level + count mod 2 ^ Z.of_nat level) as E.
  { unfold q. rewrite Z.shiftr_div_pow2 by lia. pose proof (Z.div_mod count (2 ^ Z.of_nat level)). lia. }
  set (r := count mod 2 ^ Z.of_nat level) in *.
  assert (0 <= r < 2 ^ Z.of_nat level) as Hr by (apply Z.mod_pos_bound, Z.pow_pos_nonneg; lia).
  assert (count mod 2 ^ Z.of_nat (S level) = r + (if Z.odd q then 2 ^ Z.of_nat level else 0)) as ->.
  { rewrite Nat2Z.inj_succ, Z.pow_succ_r by lia. symmetry. apply (Z.mod_unique_pos _ _ (q / 2)).
    - destruct (Z.odd q); lia.
    - destruct (Z.odd q) eqn:Eo; [pose proof (odd_half q Eo)|pose proof (even_half q Eo)]; nia. }
  destruct (Z.odd q) eqn:Eo.
  - rewrite (bool_decide_eq_false_2 (r + _ = 0)) by lia. cbn [MembershipTree.subtree]. pose proof (odd_half q Eo) as Eq.
    case_bool_decide as Hr0; do 2 f_equal; try (f_equal; lia).
    symmetry. apply (subtree_beyond f count); [done|]. rewrite <- Eq. lia.
  - rewrite Z.add_0_r. case_bool_decide as Hr0; [done|]. cbn [MembershipTree.subtree]. pose proof (even_half q Eo) as Eq.
    do 2 f_equal; [by rewrite <- Eq|]. symmetry. apply (subtree_beyond f count); [done|]. rewrite <- Eq. nia.
Qed.

Lemma pending_fold_slots f count max_depth n : 0 <= count -> (forall i, count <= i -> f i = node_zero) ->
  forall level m, (level + n <= max_depth)%nat -> (n <= m)%nat ->
  pending_fold context (zero_nodes context max_depth) level n (pending f count level) (slots f count level m)
  = pending f count (level + n).
Proof.
  intros Hc Hf. induction n as [|n IH]; intros level m Hl Hm.
  - rewrite Nat.add_0_r. by destruct (slots f count level m).
  - destruct m as [|m]; [lia|]. unfold slots. cbn [seq fmap list_fmap pending_fold].
    rewrite pending_step; [|done|done|apply zero_nodes_total; lia].
    fold (slots f count (S level) m). rewrite IH by lia. f_equal. lia.
Qed.

Lemma depth_loop_spec fuel depth count : (depth <= MAX_DEPTH)%nat -> (MAX_DEPTH - depth <= fuel)%nat ->
  count <= 2 ^ Z.of_nat MAX_DEPTH ->
  let d := depth_loop fuel depth count in
  (depth <= d <= MAX_DEPTH)%nat /\ count <= 2 ^ Z.of_nat d /\
  forall k, (depth <= k)%nat -> count <= 2 ^ Z.of_nat k -> (d <= k)%nat.
Proof.
  revert depth. induction fuel as [|n IH]; intros depth Hd Hf Hc; cbn [depth_loop].
  - assert (depth = MAX_DEPTH) as -> by lia. naive_solver lia.
  - destruct (Nat.ltb_spec depth MAX_DEPTH) as [Hlt|Hge], (Z.ltb_spec (2 ^ Z.of_nat depth) count) as [Hs|Hs]; cbn [andb].
    + destruct (IH (S depth)) as (H1 & H2 & H3); [lia..|]. split; [lia|]. split; [done|]. intros k Hk Hck.
      apply H3; [|done]. destruct (decide (k = depth)) as [->|]; lia.
    + naive_solver lia.
    + assert (depth = MAX_DEPTH) as -> by lia. lia.
    + naive_solver lia.
Qed.

Lemma depth_for_spec count : count <= 2 ^ Z.of_nat MAX_DEPTH ->
  (1 <= depth_for count <= MAX_DEPTH)%nat /\ count <= 2 ^ Z.of_nat (depth_for count) /\
  forall k, (1 <= k)%nat -> count <= 2 ^ Z.of_nat k -> (depth_for count <= k)%nat.
Proof. intros Hc. apply depth_loop_spec; unfold MAX_DEPTH; [lia..|done]. Qed.

Lemma fr_count_bound f fr : frontier_of f fr -> 0 <= fr_count fr <= 2 ^ Z.of_nat MAX_DEPTH.
Proof.
  intros Hf. pose proof (fo_count _ _ Hf). pose proof (fo_depth _ _ Hf).
  pose proof (Z.pow_le_mono_r 2 (Z.of_nat (fr_max_depth fr)) (Z.of_nat MAX_DEPTH)). lia.
Qed.

(** The frontier answers exactly the depths that hold its leaves. *)
Lemma fr_depths f fr depth : frontier_of f fr ->
  (fr_current_depth fr <=? depth)%nat && (depth <=? fr_max_depth fr)%nat = true <->
  (1 <= depth <= fr_max_depth fr)%nat /\ fr_count fr <= 2 ^ Z.of_nat depth.
Proof.
  intros Hf. pose proof (fo_depth _ _ Hf). pose proof (fo_count _ _ Hf).
  destruct (depth_for_spec (fr_count fr)) as (D1 & D2 & D3); [by apply fr_count_bound with f|].
  rewrite andb_true_iff, !Nat.leb_le. unfold fr_current_depth. split.
  - intros [Hd Hm]. split; [lia|]. destruct (Nat.min_spec (depth_for (fr_count fr)) (fr_max_depth fr)) as [[_ E]|[_ E]]; rewrite E in Hd.
    + transitivity (2 ^ Z.of_nat (depth_for (fr_count fr))); [done|]. apply Z.pow_le_mono_r; lia.
    + assert (depth = fr_max_depth fr) as -> by lia. lia.
  - intros [Hd Hc]. specialize (D3 depth ltac:(lia) Hc). lia.
Qed.

Lemma fr_root_of f fr depth : frontier_of f fr -> (forall i, fr_count fr <= i -> f i = node_zero) ->
  (1 <= depth <= fr_max_depth fr)%nat -> fr_count fr <= 2 ^ Z.of_nat depth ->
  fr_root_at_depth context fr depth = TOk (mkRoot context (Z.of_nat depth) (fr_count fr) (subtree f depth 0)).
Proof.
  intros Hf Hz Hd Hc. pose proof (fo_count _ _ Hf) as Hb. unfold fr_root_at_depth.
  rewrite (proj2 (fr_depths f fr depth Hf)) by done. cbn [tree_guard mbind tree_bind].
  rewrite (fo_zeros _ _ Hf), (fo_filled _ _ Hf). do 2 f_equal.
  assert (pending f (fr_count fr) 0 = None) as Hp0.
  { unfold pending. rewrite bool_decide_eq_true_2; [done|]. by rewrite Z.mod_1_r. }
  rewrite <- Hp0, pending_fold_slots by first [done|lia]. cbn [Nat.add]. unfold pending.
  assert (0 < 2 ^ Z.of_nat depth) by (apply Z.pow_pos_nonneg; lia).
  case_bool_decide as Hm.
  - unfold slots. rewrite list_lookup_fmap, lookup_seq_lt by lia. cbn [fmap option_fmap option_map mjoin option_join Nat.add].
    unfold slot_of. rewrite Z.shiftr_div_pow2 by lia. destruct (decide (fr_count fr = 2 ^ Z.of_nat depth)) as [->|Hne].
    + by rewrite Z.div_same by lia.
    + rewrite Z.mod_small in Hm by lia. rewrite Hm, Z.div_0_l by lia. cbn [Z.odd default].
      rewrite zero_nodes_total by lia. symmetry. apply (subtree_beyond f (fr_count fr)); [done|lia].
  - rewrite Z.shiftr_div_pow2 by lia. rewrite Z.div_small; [done|]. split; [lia|].
    destruct (decide (fr_count fr = 2 ^ Z.of_nat depth)) as [E|]; [|lia]. by rewrite E, Z.mod_same in Hm by lia.
Qed.

(** An invariant about other leaves that agree below the count. *)
Lemma frontier_of_ext f g fr : (forall i, i < fr_count fr -> f i = g i) -> frontier_of f fr -> frontier_of g fr.
Proof.
  intros Hfg Hf. destruct Hf as [H1 H2 H3 H4]. split; [done..|]. rewrite H4. apply list_fmap_ext. intros n l _.
  unfold slot_of. destruct (Z.odd _) eqn:Eo; [|done]. f_equal. apply subtree_local. intros i [_ Hi]. apply Hfg.
  rewrite Z.shiftr_div_pow2 in Hi by lia. set (p := 2 ^ Z.of_nat l) in *.
  assert (0 < p) by (apply Z.pow_pos_nonneg; lia). pose proof (Z.mul_div_le (fr_count fr) p). lia.
Qed.


(** ** Appending coins one after the other *)

(** The loop of a writer that keeps the completed nodes. *)
Fixpoint append_coins (fr : Frontier) (coins : list CoinRecord) : tree (list CompletedNode * Frontier) :=
  match coins with
  | [] => TOk ([], fr)
  | c :: cs =>
      r ← append_with_nodes context fr (owner c) (commitment c);
      rest ← append_coins r.2 cs; TOk (r.1.2 ++ rest.1, rest.2)
  end.

(** The completed subtrees of a tree with [count] leaves. *)
Definition complete (f : Z -> Node) (lo count : Z) (cn : CompletedNode) : Prop :=
  exists level index, 0 <= index /\ lo < (index + 1) * 2 ^ Z.of_nat level <= count /\
    cn = mkCompleted level index (subtree f level index).

Lemma completes_complete f count cn : 0 <= count -> completes f count 0 cn <-> complete f count (count + 1) cn.
Proof.
  intros Hc. split.
  - intros (j & _ & Hm & ->). destruct (ones_shift count j Hm) as [E _].
    exists j, (Z.shiftr count (Z.of_nat j)). split; [apply Z.shiftr_nonneg; lia|]. split; [lia|done].
  - intros (level & index & Hi & Hr & ->). exists level.
    assert ((index + 1) * 2 ^ Z.of_nat level = count + 1) as E by lia.
    assert (0 < 2 ^ Z.of_nat level) by (apply Z.pow_pos_nonneg; lia).
    assert (Z.shiftr count (Z.of_nat level) = index) as ->.
    { rewrite Z.shiftr_div_pow2 by lia. symmetry. apply (Z.div_unique_pos _ _ _ (2 ^ Z.of_nat level - 1)); lia. }
    split; [lia|]. split; [|done]. rewrite <- E. apply Z.mod_mul. lia.
Qed.

Lemma complete_app f a b c cn : a <= b <= c -> complete f a c cn <-> complete f a b cn \/ complete f b c cn.
Proof.
  intros Habc. unfold complete. split.
  - intros (l & i & Hi & Hr & ->). destruct (decide ((i + 1) * 2 ^ Z.of_nat l <= b)).
    + left. exists l, i. split; [done|]. split; [lia|done].
    + right. exists l, i. split; [done|]. split; [lia|done].
  - intros [(l & i & Hi & Hr & ->)|(l & i & Hi & Hr & ->)]; exists l, i; (split; [done|]; split; [lia|done]).
Qed.

Lemma append_coins_of f coins : forall fr leaves, frontier_of f fr ->
  leaves_of context coins = TOk leaves -> fr_count fr + Z.of_nat (length coins) <= 2 ^ Z.of_nat (fr_max_depth fr) ->
  (forall i leaf, leaves !! i = Some leaf -> f (fr_count fr + Z.of_nat i) = leaf) ->
  exists nodes fr', append_coins fr coins = TOk (nodes, fr') /\ frontier_of f fr' /\
    fr_count fr' = fr_count fr + Z.of_nat (length coins) /\ fr_max_depth fr' = fr_max_depth fr /\
    forall cn, cn ∈ nodes <-> complete f (fr_count fr) (fr_count fr') cn.
Proof.
  induction coins as [|c cs IH]; intros fr leaves Hf Hl Hb Hv; cbn [append_coins].
  - exists [], fr. rewrite Z.add_0_r. do 4 (split; [done|]). intros cn. split; [by intros ?%not_elem_of_nil|].
    intros (l & i & _ & Hr & _). lia.
  - cbn [leaves_of] in Hl. apply tree_bind_inv in Hl as (leaf & Hleaf & Hl). apply tree_bind_inv in Hl as (ls & Hls & [= <-]).
    cbn [length] in Hb. assert (f (fr_count fr) = leaf) as Hfl.
    { rewrite <- (Hv 0%nat leaf eq_refl). f_equal. lia. }
    destruct (append_leaf_of f fr Hf) as (fr1 & out & E & Hf1 & Hc1 & Hm1 & Hout); [lia|].
    unfold append_with_nodes. rewrite (proj2 (Z.ltb_lt _ _)) by lia. cbn [tree_guard mbind tree_bind].
    unfold coin_leaf in Hleaf. destruct (from_identity_bytes (owner c)) as [o|]; [|done]. cbn in Hleaf |- *.
    injection Hleaf as Hleaf. rewrite Hleaf, <- Hfl, E.
    destruct (IH fr1 ls Hf1 Hls) as (nodes & fr' & E' & Hf' & Hc' & Hm' & Hn).
    { rewrite Hc1, Hm1. lia. }
    { intros i l Hi. rewrite <- (Hv (S i) l Hi). f_equal. lia. }
    exists (out ++ nodes), fr'. cbn [mbind tree_bind fst snd]. rewrite E'. cbn [mbind tree_bind fst snd].
    split; [done|]. split; [done|]. split; [lia|]. split; [congruence|]. intros cn.
    pose proof (fo_count _ _ Hf).
    rewrite elem_of_app, Hout, Hn, completes_complete by lia. rewrite Hc1. symmetry. apply complete_app. lia.
Qed.

(** ** The full reconstruction *)

Lemma size_loop_spec fuel : forall width nodes depth m (e : Z), 1 <= width <= 2 ^ Z.of_nat m ->
  (m + 1 + (if decide (depth = 0)%nat then 1 else 0) <= fuel)%nat -> 1 <= e -> (depth = 0%nat -> 3 <= e) ->
  0 <= nodes -> nodes + 2 * width + Z.of_nat m + e <= usize_max ->
  exists d total, size_loop fuel width nodes depth = TOk (d, total) /\ (Nat.max 1 depth <= d)%nat /\
    width <= 2 ^ Z.of_nat (d - depth) /\ total <= nodes + 2 * width + Z.of_nat m + e /\
    forall k, (Nat.max 1 depth <= k)%nat -> width <= 2 ^ Z.of_nat (k - depth) -> (d <= k)%nat.
Proof.
  induction fuel as [|n IH]; intros width nodes depth m e Hw Hf He He0 Hn Hu; [lia|]. cbn [size_loop].
  rewrite (proj2 (Z.ltb_ge _ _)) by lia. destruct ((width =? 1) && (1 <=? depth)%nat) eqn:E.
  - apply andb_true_iff in E as [->%Z.eqb_eq Hd%Nat.leb_le]. exists depth, (nodes + 1). split; [done|].
    rewrite Nat.sub_diag. split; [lia|]. split; [done|]. split; [lia|]. lia.
  - assert (width = 1 \/ (1 <= m)%nat /\ 2 <= width) as Hcase by (destruct m; [left; cbn in Hw; lia|lia]).
    assert (1 <= (width + 1) / 2) as Hlo by (apply Z.div_le_lower_bound; lia).
    assert (2 * ((width + 1) / 2) <= width + 1) as Hup by (apply Z.mul_div_le; lia).
    assert (width <= 2 * ((width + 1) / 2)) as Hhalf by (pose proof (Z.mod_pos_bound (width + 1) 2); pose proof (Z.div_mod (width + 1) 2); lia).
    assert (width = 1 -> depth = 0%nat) as Hw1.
    { intros ->. by destruct depth. }
    destruct (IH ((width + 1) / 2) (nodes + width) (S depth) (Nat.pred m) 1) as (d & total & E' & Hd & Hwd & Ht & Hmin).
    { destruct m as [|m]; [cbn in *; lia|]. rewrite Nat2Z.inj_succ, Z.pow_succ_r in Hw by lia. cbn [Nat.pred]. lia. }
    { destruct (decide (S depth = 0)%nat); [lia|]. destruct m; [|destruct (decide (depth = 0)%nat); lia].
      rewrite decide_True in Hf by (apply Hw1; cbn in Hw; lia). lia. }
    { lia. } { lia. } { lia. }
    { destruct Hcase as [->|[??]]; [|lia]. change ((1 + 1) / 2) with 1. specialize (Hw1 eq_refl). lia. }
    exists d, total. split; [done|]. split; [lia|].
    assert (d - depth = S (d - S depth))%nat as Es by lia.
    split; [rewrite Es, Nat2Z.inj_succ, Z.pow_succ_r by lia; lia|].
    split; [destruct Hcase as [->|[??]]; [change ((1 + 1) / 2) with 1 in Ht; specialize (Hw1 eq_refl); lia|lia]|].
    intros k Hk Hwk. apply Hmin.
    + destruct (decide (k = depth)) as [->|]; [|lia]. rewrite Nat.sub_diag in Hwk. change (2 ^ Z.of_nat 0) with 1 in Hwk.
      specialize (Hw1 ltac:(lia)). lia.
    + destruct (decide (k = depth)) as [->|].
      { rewrite Nat.sub_diag in Hwk. change (2 ^ Z.of_nat 0) with 1 in Hwk. specialize (Hw1 ltac:(lia)). lia. }
      replace (k - depth)%nat with (S (k - S depth)) in Hwk by lia.
      rewrite Nat2Z.inj_succ, Z.pow_succ_r in Hwk by lia. lia.
Qed.


(** The reconstruction has the depth of the frontier, and at most [2n + 101] nodes. *)
Lemma size_loop_depth n max_depth : 0 <= n <= 2 ^ Z.of_nat MAX_DEPTH -> (max_depth <= MAX_DEPTH)%nat ->
  exists total, size_loop 66 (Z.max n 1) (Z.of_nat max_depth + 1) 0 = TOk (depth_for n, total) /\ total <= 2 * n + 101.
Proof.
  intros Hn Hd. destruct (size_loop_spec 66 (Z.max n 1) (Z.of_nat max_depth + 1) 0 MAX_DEPTH 3)
    as (d & total & E & H1 & H2 & H3 & H4); [unfold MAX_DEPTH, usize_max, u64_max in *; repeat case_decide; cbn in *; lia..|].
  rewrite !Nat.sub_0_r in *. destruct (depth_for_spec n) as (D1 & D2 & D3); [lia|].
  assert (1 <= 2 ^ Z.of_nat (depth_for n)) by (pose proof (Z.pow_pos_nonneg 2 (Z.of_nat (depth_for n))); lia).
  assert (d = depth_for n) as ->.
  { apply Nat.le_antisymm; [apply H4; rewrite ?Nat.sub_0_r; lia|apply D3; lia]. }
  exists total. split; [done|]. unfold MAX_DEPTH in *. lia.
Qed.

(** A list holds a level of the tree when every index reads its node, absent
    ones the zero node. *)
Definition layer_of (f : Z -> Node) (level : nat) (l : list Node) : Prop :=
  forall i, default (zero_tree context level) (l !! i) = subtree f level (Z.of_nat i).

Lemma pair_layer_lookup z l i : default (parent z z) (pair_layer context z l !! i)
  = parent (default z (l !! (2 * i)%nat)) (default z (l !! (2 * i + 1)%nat)).
Proof.
  revert l. induction i as [|i IH]; intros [|a [|b t]]; try done.
  all: replace (2 * S i)%nat with (S (S (2 * i))) by lia; cbn; [done..|apply IH].
Qed.

Lemma pair_layer_of f level l : layer_of f level l -> layer_of f (S level) (pair_layer context (zero_tree context level) l).
Proof.
  intros Hl i. rewrite zero_tree_S, pair_layer_lookup, !Hl. cbn [MembershipTree.subtree].
  f_equal; f_equal; lia.
Qed.

Lemma pair_layer_nonempty z l : l <> [] -> pair_layer context z l <> [].
Proof. by destruct l as [|a [|b t]]. Qed.

Lemma build_layers_of f max_depth n : forall level l, layer_of f level l -> l <> [] -> (level + n <= S max_depth)%nat ->
  let layers := build_layers context (zero_nodes context max_depth) level n l in
  length layers = S n /\ forall k layer, layers !! k = Some layer -> layer_of f (level + k) layer /\ layer <> [].
Proof.
  induction n as [|n IH]; intros level l Hl Hne Hb; cbn [build_layers].
  - split; [done|]. intros [|k] layer; [|done]. intros [= <-]. by rewrite Nat.add_0_r.
  - destruct (IH (S level) (pair_layer context (zero_nodes context max_depth !!! level) l)) as [IH1 IH2].
    + rewrite zero_nodes_total by lia. by apply pair_layer_of.
    + by apply pair_layer_nonempty.
    + lia.
    + split; [cbn; by rewrite IH1|]. intros [|k] layer; [intros [= <-]; by rewrite Nat.add_0_r|].
      intros Hk. replace (level + S k)%nat with (S level + k)%nat by lia. by apply IH2.
Qed.

(** What a built tree holds. *)
Record coin_tree_of (f : Z -> Node) (count : Z) (t : CoinTree) : Prop := {
  cto_zeros : ct_zeros t = zero_nodes context (ct_max_depth t);
  cto_max : (1 <= ct_max_depth t <= MAX_DEPTH)%nat;
  cto_depth : ct_depth t = depth_for count;
  cto_count : ct_coins t = count /\ 0 <= count <= 2 ^ Z.of_nat (ct_max_depth t);
  cto_beyond : forall i, count <= i -> f i = node_zero;
  cto_length : length (ct_layers t) = S (ct_depth t);
  cto_layers : forall k layer, ct_layers t !! k = Some layer -> layer_of f k layer /\ layer <> [];
}.

Lemma cto_bound f count t : coin_tree_of f count t ->
  (1 <= ct_depth t <= ct_max_depth t)%nat /\ count <= 2 ^ Z.of_nat (ct_depth t).
Proof.
  intros Ht. destruct (cto_count _ _ _ Ht) as [_ Hc]. pose proof (cto_max _ _ _ Ht).
  pose proof (Z.pow_le_mono_r 2 (Z.of_nat (ct_max_depth t)) (Z.of_nat MAX_DEPTH)).
  destruct (depth_for_spec count) as (D1 & D2 & D3); [lia|]. rewrite (cto_depth _ _ _ Ht).
  split; [|done]. split; [lia|]. apply D3; lia.
Qed.

Lemma pad_root_zero f max_depth n : forall level, (level + n <= S max_depth)%nat ->
  (forall i, 2 ^ Z.of_nat level <= i -> f i = node_zero) ->
  pad_root context (zero_nodes context max_depth) (subtree f level 0) level n = subtree f (level + n) 0.
Proof.
  induction n as [|n IH]; intros level Hl Hf; cbn [pad_root]; [by rewrite Nat.add_0_r|].
  rewrite zero_nodes_total by lia. rewrite <- (subtree_beyond f (2 ^ Z.of_nat level) level 1) by first [done|lia].
  change (parent (subtree f level 0) (subtree f level 1)) with (subtree f (S level) 0).
  rewrite IH; [f_equal; lia|lia|]. intros i Hi. apply Hf.
  pose proof (Z.pow_le_mono_r 2 (Z.of_nat level) (Z.of_nat (S level))). lia.
Qed.

Lemma ct_root_of f count t depth : coin_tree_of f count t -> (ct_depth t <= depth <= ct_max_depth t)%nat ->
  ct_root_at_depth context t depth = TOk (mkRoot context (Z.of_nat depth) count (subtree f depth 0)).
Proof.
  intros Ht Hd. destruct (cto_bound _ _ _ Ht) as [Hb Hc]. unfold ct_root_at_depth.
  rewrite !(proj2 (Nat.leb_le _ _)) by lia. cbn [andb tree_guard mbind tree_bind].
  destruct (lookup_lt_is_Some_2 (ct_layers t) (ct_depth t)) as [layer Hlayer]; [rewrite (cto_length _ _ _ Ht); lia|].
  rewrite (list_lookup_total_correct _ _ _ Hlayer). destruct (cto_layers _ _ _ Ht _ _ Hlayer) as [Hl Hne].
  destruct layer as [|top rest]; [done|]. specialize (Hl 0%nat). cbn in Hl. subst top. cbn [lookup_total list_lookup_total].
  destruct (cto_count _ _ _ Ht) as [-> _]. rewrite (cto_zeros _ _ _ Ht), pad_root_zero; [|lia|].
  - do 3 f_equal. lia.
  - intros i Hi. apply (cto_beyond _ _ _ Ht). lia.
Qed.

(** The path of a leaf is its path in the reference tree. *)
Lemma ct_path_of f count t : coin_tree_of f count t -> forall n level index,
  (level + n <= ct_max_depth t)%nat -> 0 <= index -> index * 2 ^ Z.of_nat level < count ->
  ct_path_from t level n index = path_from context f level n index.
Proof.
  intros Ht. destruct (cto_bound _ _ _ Ht) as [Hb Hc].
  induction n as [|n IH]; intros level index Hl Hi Hic; cbn [ct_path_from path_from]; [done|].
  assert (0 < 2 ^ Z.of_nat level) by (apply Z.pow_pos_nonneg; lia).
  destruct (index_cases index) as [Es Ei].
  assert (0 <= Z.lxor index 1) as Hx by (destruct (Z.odd index); lia).
  rewrite IH; [|lia|apply Z.shiftr_nonneg; lia|].
  2: { rewrite Nat2Z.inj_succ, Z.pow_succ_r, Es by lia. pose proof (Z.mul_div_le index 2). nia. }
  f_equal. f_equal. rewrite (cto_zeros _ _ _ Ht), zero_nodes_total by lia.
  destruct (ct_layers t !! level) as [layer|] eqn:El; cbn [mbind option_bind].
  - destruct (cto_layers _ _ _ Ht _ _ El) as [Hlay _]. rewrite (Hlay (Z.to_nat (Z.lxor index 1))). f_equal. lia.
  - cbn [default]. symmetry. apply lookup_ge_None in El. rewrite (cto_length _ _ _ Ht) in El.
    pose proof (Z.pow_lt_mono_r 2 (Z.of_nat (ct_depth t)) (Z.of_nat level)).
    assert (index = 0) as -> by nia. apply (subtree_beyond f count); [apply Ht|]. change (Z.lxor 0 1) with 1. lia.
Qed.


(** ** Building from a list of coins *)

Lemma positions_from_lookup coins : forall n, positions_from n coins = true ->
  forall i c, coins !! i = Some c -> position c = n + Z.of_nat i.
Proof.
  induction coins as [|c cs IH]; intros n Hp [|i] c' Hi; try done; cbn in Hp; apply andb_true_iff in Hp as [Hc Hp].
  - injection Hi as <-. apply Z.eqb_eq in Hc. lia.
  - rewrite (IH _ Hp i c' Hi). lia.
Qed.

Lemma leaves_of_spec coins : forall leaves, leaves_of context coins = TOk leaves -> length leaves = length coins /\
  forall i c, coins !! i = Some c -> exists leaf, coin_leaf context c = TOk leaf /\ leaves !! i = Some leaf.
Proof.
  induction coins as [|c cs IH]; intros leaves Hl; cbn in Hl.
  - injection Hl as <-. split; [done|]. by intros [|i].
  - apply tree_bind_inv in Hl as (leaf & Hleaf & Hl). apply tree_bind_inv in Hl as (ls & Hls & [= <-]).
    destruct (IH ls Hls) as [E Hi]. split; [cbn; by rewrite E|].
    intros [|i] c' Hc; [injection Hc as <-; by exists leaf|]. by apply Hi.
Qed.

Lemma leaf_at_lookup leaves i leaf : leaves !! i = Some leaf -> leaf_at leaves (Z.of_nat i) = leaf.
Proof. intros Hi. unfold leaf_at. rewrite (proj2 (Z.ltb_ge _ _)), Nat2Z.id, Hi by lia. done. Qed.

Lemma leaf_at_beyond leaves i : Z.of_nat (length leaves) <= i -> leaf_at leaves i = node_zero.
Proof.
  intros Hi. unfold leaf_at. destruct (i <? 0); [done|]. rewrite lookup_ge_None_2 by lia. done.
Qed.

Lemma leaves_layer leaves : layer_of (leaf_at leaves) 0 (if bool_decide (leaves = []) then [node_zero] else leaves).
Proof.
  intros i. cbn [MembershipTree.subtree]. change (zero_tree context 0) with node_zero.
  case_bool_decide as E; unfold leaf_at; rewrite (proj2 (Z.ltb_ge _ _)), Nat2Z.id by lia; [|done].
  subst. by destruct i.
Qed.

(** A list is a tree: what a successful build says of it. *)
Lemma coin_tree_build_of coins max_depth max_nodes t :
  coin_tree_build context coins max_depth max_nodes = TOk t ->
  exists leaves, leaves_of context (sort_by_key position Z.leb coins) = TOk leaves /\
    positions_from 0 (sort_by_key position Z.leb coins) = true /\ NoDup (address <$> coins) /\
    coin_tree_of (leaf_at leaves) (Z.of_nat (length coins)) t /\ ct_max_depth t = max_depth /\
    ct_layers t !!! 0%nat = (if bool_decide (leaves = []) then [node_zero] else leaves) /\
    forall c, c ∈ coins -> search (ct_index t) (address c) = Some (position c).
Proof.
  unfold coin_tree_build. set (order := sort_by_key position Z.leb coins).
  assert (Permutation order coins) as Hperm by apply sort_by_key_perm.
  intros Hb. apply tree_bind_inv in Hb as (u1 & Hd%tree_guard_inv & Hb). apply tree_bind_inv in Hb as (u2 & Hc%tree_guard_inv & Hb).
  apply tree_bind_inv in Hb as ([depth nodes] & Hs & Hb). apply tree_bind_inv in Hb as (u3 & Hn%tree_guard_inv & Hb).
  apply tree_bind_inv in Hb as (u4 & Hp%tree_guard_inv & Hb). apply tree_bind_inv in Hb as (u5 & Hr%tree_guard_inv & Hb).
  apply tree_bind_inv in Hb as (leaves & Hl & [= <-]). exists leaves.
  apply andb_true_iff in Hd as [Hd1%Nat.leb_le Hd2%Nat.leb_le]. apply Z.leb_le in Hc. apply negb_true_iff in Hr.
  apply (sort_by_key_repeat fst bytes_leb bytes_leb_total bytes_leb_antisym bytes_leb_trans) in Hr.
  rewrite <- list_fmap_compose in Hr. change (NoDup (address <$> order)) in Hr.
  destruct (leaves_of_spec order leaves Hl) as [Hlen _]. rewrite Hperm in Hlen.
  assert (2 ^ Z.of_nat max_depth <= 2 ^ Z.of_nat MAX_DEPTH) by (apply Z.pow_le_mono_r; lia).
  destruct (size_loop_depth (Z.of_nat (length coins)) max_depth) as (total & Es & _); [lia..|].
  rewrite Es in Hs. injection Hs as <- <-.
  split; [done|]. split; [done|]. split; [by rewrite <- Hperm|].
  assert (zero_nodes context max_depth !!! 0%nat = node_zero) as Hz by (rewrite zero_nodes_total by lia; done).
  rewrite Hz. set (first := if bool_decide (leaves = []) then [node_zero] else leaves).
  destruct (depth_for_spec (Z.of_nat (length coins))) as (D1 & D2 & D3); [lia|].
  specialize (D3 max_depth ltac:(lia) Hc).
  destruct (build_layers_of (leaf_at leaves) max_depth (depth_for (Z.of_nat (length coins))) 0 first) as [Hll Hlay].
  { apply leaves_layer. } { unfold first. by case_bool_decide. } { lia. }
  split; [|split; [done|split]].
  - split; cbn [ct_zeros ct_max_depth ct_depth ct_layers ct_coins ct_addresses]; try done; try lia.
    + split; [|lia]. unfold ct_coins. cbn [ct_addresses]. by rewrite length_fmap, Hperm.
    + intros i Hi. apply leaf_at_beyond. lia.
  - cbn [ct_layers]. by destruct (depth_for (Z.of_nat (length coins))).
  - intros c Hin. cbn [ct_index]. apply search_Some.
    + rewrite (sort_by_key_perm _ _), <- list_fmap_compose. done.
    + rewrite (sort_by_key_perm _ _), list_elem_of_fmap. exists c. by rewrite Hperm.
Qed.

End Frontiers.
