(* ===== verification/CoinWitness.v ===== *)
(** * Roots, paths and stored frontiers of the coin tree

    The claims on [coin_tree.rs]: the incremental frontier has the roots of the
    full reconstruction, the reader over completed subtrees returns its paths,
    every path leads to the root, and the stored forms are read back. *)

From S2P Require Import Prelude Bytes MembershipTree CoinTree.

(** A small hash for examples: one-byte nodes. *)
Definition small_hash : MembershipHash.
Proof.
  refine {| Node := byte; AmountCommitment := Z; NODE_BYTES := 1; IDENTITY_BYTES := 1; node_zero := x00;
    key_parent := fun _ a b => byte_of (3 * byte_val a + 5 * byte_val b + 1);
    key_leaf := fun _ o c => byte_of (byte_val o + c);
    to_bytes := fun n => [n];
    from_bytes := fun bs => match bs with [b] => Some b | _ => None end;
    from_identity_bytes := fun bs => match bs with [b] => Some b | _ => None end |}.
  - done.
  - done.
  - by intros [|b [|]] n; intros [= ->].
Defined.

Section Reading.
Context `{MembershipHash} (context : list byte).
#[local] Notation parent := (key_parent context).
#[local] Notation subtree := (subtree context).

(** ** Reading a path from completed subtrees *)

Section Indexed.
Context {E : Type} (lookup : nat -> Z -> E + option Node) (it : IndexedTree).
Context (f : Z -> Node) (count : Z) (max_depth : nat).
Context (Hzeros : it_zeros it = zero_nodes context max_depth) (Hmax : (max_depth <= MAX_DEPTH)%nat).
Context (Hcount : 0 <= count <= 2 ^ Z.of_nat MAX_DEPTH) (Hbeyond : forall i, count <= i -> f i = node_zero).
Context (Hlookup : forall level index, 0 <= index -> (index + 1) * 2 ^ Z.of_nat level <= count ->
  lookup level index = inr (Some (subtree f level index))).

Lemma read_subtree_of level : forall index, (level <= max_depth)%nat -> 0 <= index ->
  (index + 1) * 2 ^ Z.of_nat level <= 2 ^ 63 ->
  read_subtree context lookup it count level index = inr (subtree f level index).
Proof.
  induction level as [|l IH]; intros index Hl Hi Hb; cbn [read_subtree].
  - change (Z.of_nat 0) with 0 in *. rewrite Z.shiftl_0_r, wrap_u64_id by (unfold is_u64; lia).
    change (2 ^ 0) with 1 in *.
    destruct (Z.leb_spec count index); [rewrite Hzeros, zero_nodes_total by lia; cbn; by rewrite Hbeyond|].
    rewrite (proj2 (Z.leb_le _ _)) by lia. rewrite Hlookup; [done|lia|]. change (2 ^ Z.of_nat 0) with 1. lia.
  - assert (0 < 2 ^ Z.of_nat (S l)) by (apply Z.pow_pos_nonneg; lia).
    rewrite Z.shiftl_mul_pow2, wrap_u64_id by (unfold is_u64; lia).
    destruct (Z.leb_spec count (index * 2 ^ Z.of_nat (S l))).
    { rewrite Hzeros, zero_nodes_total by lia. f_equal. symmetry. by apply (subtree_beyond context f count). }
    destruct (Z.leb_spec (index * 2 ^ Z.of_nat (S l) + 2 ^ Z.of_nat (S l)) count).
    { rewrite Hlookup; [done|lia|lia]. }
    rewrite Nat2Z.inj_succ, Z.pow_succ_r in Hb by lia.
    rewrite IH by first [lia|nia]. cbn [mbind answer_bind]. rewrite IH by first [lia|nia]. cbn [mbind answer_bind].
    cbn [MembershipTree.subtree]. by rewrite (Z.mul_comm index 2).
Qed.

Lemma path_loop_of n : forall level index, (level + n <= max_depth)%nat -> 0 <= index ->
  index * 2 ^ Z.of_nat level < count ->
  path_loop context lookup it count level n index (subtree f level index)
  = inr (subtree f (n + level) (Z.shiftr index (Z.of_nat n)), path_from context f level n index).
Proof.
  induction n as [|n IH]; intros level index Hl Hi Hc; cbn [path_loop].
  { change (Z.of_nat 0) with 0. by rewrite Z.shiftr_0_r. }
  assert (0 < 2 ^ Z.of_nat level <= 2 ^ 32).
  { split; [apply Z.pow_pos_nonneg; lia|]. apply Z.pow_le_mono_r; unfold MAX_DEPTH in *; lia. }
  destruct (index_cases index) as [Es Ei].
  rewrite read_subtree_of; [|lia|destruct (Z.odd index); lia|].
  2: { change (2 ^ Z.of_nat MAX_DEPTH) with (2 ^ 32) in Hcount. destruct (Z.odd index); nia. }
  cbn [mbind answer_bind].
  assert ((if Z.odd index then parent (subtree f level (Z.lxor index 1)) (subtree f level index)
           else parent (subtree f level index) (subtree f level (Z.lxor index 1)))
          = subtree f (S level) (Z.shiftr index 1)) as ->.
  { cbn [MembershipTree.subtree]. rewrite Es. revert Ei. generalize (index / 2). intros k Ei.
    by destruct (Z.odd index); destruct Ei as [-> ->]. }
  rewrite IH; [|lia|apply Z.shiftr_nonneg; lia|].
  2: { rewrite Nat2Z.inj_succ, Z.pow_succ_r, Es by lia. pose proof (Z.mul_div_le index 2). nia. }
  cbn [mbind answer_bind fst snd]. rewrite Z.shiftr_shiftr by lia. cbn [path_from].
  replace (1 + Z.of_nat n) with (Z.of_nat (S n)) by lia. by replace (n + S level)%nat with (S n + level)%nat by lia.
Qed.

(** A coin below the root has its path, and the root check passes. *)
Lemma indexed_auth_path_of depth c : it_context it = context -> (1 <= depth <= max_depth)%nat ->
  count <= 2 ^ Z.of_nat depth -> 0 <= position c < count -> coin_leaf context c = TOk (f (position c)) ->
  indexed_auth_path context lookup it (mkRoot context (Z.of_nat depth) count (subtree f depth 0)) c
  = inr (path_from context f 0 depth (position c)).
Proof.
  intros Hctx Hd Hc Hp Hleaf. unfold indexed_auth_path, root_validate. cbn [r_depth r_coins r_context r_root].
  rewrite !(proj2 (Z.eqb_neq _ _)), !(proj2 (Z.ltb_ge _ _)) by (unfold MAX_DEPTH in *; lia). cbn [orb negb tree_guard].
  rewrite bool_decide_eq_true_2 by done. cbn [negb].
  rewrite Hzeros, zero_nodes_length, (proj2 (Z.leb_gt _ _)), (proj2 (Z.leb_gt _ _)), Hleaf, Nat2Z.id by lia.
  change (f (position c)) with (subtree f 0 (position c)). rewrite path_loop_of by (change (2 ^ Z.of_nat 0) with 1; lia).
  cbn [mbind answer_bind fst snd]. rewrite Z.shiftr_div_pow2, Z.div_small, Nat.add_0_r by lia.
  by rewrite bool_decide_eq_true_2.
Qed.

End Indexed.

(** A local index of completed nodes, read by level and index. *)
Definition lookup_nodes (nodes : list CompletedNode) (level : nat) (index : Z) : Empty_set + option Node :=
  inr (cn_node <$> (snd <$> list_find (fun cn => cn_level cn = level /\ cn_index cn = index) nodes)).

Lemma lookup_nodes_complete f count nodes level index :
  (forall cn, cn ∈ nodes <-> complete context f 0 count cn) -> 0 <= index -> (index + 1) * 2 ^ Z.of_nat level <= count ->
  lookup_nodes nodes level index = inr (Some (subtree f level index)).
Proof.
  intros Hn Hi Hc. unfold lookup_nodes. assert (0 < 2 ^ Z.of_nat level) by (apply Z.pow_pos_nonneg; lia).
  assert (mkCompleted level index (subtree f level index) ∈ nodes) as Hin.
  { apply Hn. exists level, index. split; [done|]. split; [nia|done]. }
  destruct (list_find _ nodes) as [[k cn]|] eqn:Ef.
  - apply list_find_Some in Ef as (Hk & [<- <-] & _). apply list_elem_of_lookup_2 in Hk.
    apply Hn in Hk as (l & i & _ & _ & ->). done.
  - apply list_find_None in Ef. rewrite Forall_forall in Ef. by destruct (Ef _ Hin).
Qed.

(** ** The frontier of a list of coins *)

Lemma append_coins_foldl coins : forall fr nodes fr' leaves, append_coins context fr coins = TOk (nodes, fr') ->
  leaves_of context coins = TOk leaves -> fr' = foldl (fun fr leaf => (append_leaf_with context fr leaf).1) fr leaves.
Proof.
  induction coins as [|c cs IH]; intros fr nodes fr' leaves Ha Hl.
  - injection Hl as <-. by injection Ha as <- <-.
  - cbn [append_coins leaves_of] in *. apply tree_bind_inv in Ha as ([[p out] fr1] & Hc & Ha).
    apply tree_bind_inv in Ha as ([nodes' fr2] & Hcs & [= <- <-]).
    apply tree_bind_inv in Hl as (leaf & Hleaf & Hl). apply tree_bind_inv in Hl as (ls & Hls & [= <-]).
    unfold append_with_nodes in Hc. apply tree_bind_inv in Hc as (u & _ & Hc). apply tree_bind_inv in Hc as (o & Ho & Hc).
    unfold coin_leaf in Hleaf. rewrite Ho in Hleaf. cbn in Hleaf. injection Hleaf as <-. cbn [foldl snd fst] in *.
    destruct (append_leaf_with context fr (key_leaf context o (commitment c))) as [fr3 out3]. injection Hc as <- <- <-.
    cbn [fst]. by eapply IH.
Qed.

(** A buildable list of coins can be appended, and the frontier then holds the
    same tree, having emitted each of its completed subtrees. *)
Lemma build_appends coins max_depth max_nodes t : coin_tree_build context coins max_depth max_nodes = TOk t ->
  exists fr0 nodes fr leaves, frontier_new context max_depth = TOk fr0 /\
    append_coins context fr0 (sort_by_key position Z.leb coins) = TOk (nodes, fr) /\
    leaves_of context (sort_by_key position Z.leb coins) = TOk leaves /\
    coin_tree_of context (leaf_at leaves) (Z.of_nat (length coins)) t /\ ct_max_depth t = max_depth /\
    frontier_of context (leaf_at leaves) fr /\ fr_count fr = Z.of_nat (length coins) /\ fr_max_depth fr = max_depth /\
    forall cn, cn ∈ nodes <-> complete context (leaf_at leaves) 0 (Z.of_nat (length coins)) cn.
Proof.
  intros Hb. destruct (coin_tree_build_of context _ _ _ _ Hb) as (leaves & Hl & _ & _ & Ht & Hm & _).
  destruct (cto_count _ _ _ _ Ht) as [_ Hc]. pose proof (cto_max _ _ _ _ Ht) as Hd. rewrite Hm in Hc, Hd.
  destruct (frontier_new_of context (leaf_at leaves) max_depth Hd) as (fr0 & E0 & Hf0 & Hc0 & Hm0).
  assert (length (sort_by_key position Z.leb coins) = length coins) as Hlen by apply sort_by_key_length.
  destruct (append_coins_of context (leaf_at leaves) (sort_by_key position Z.leb coins) fr0 leaves Hf0 Hl)
    as (nodes & fr & E & Hf & Hcf & Hmf & Hn).
  - rewrite Hc0, Hm0, Hlen. lia.
  - intros i leaf Hi. rewrite Hc0. by apply leaf_at_lookup.
  - rewrite Hcf, Hc0, Hlen in *. exists fr0, nodes, fr, leaves.
    repeat (split; [first [done|congruence]|]). intros cn. rewrite Hn, Z.add_0_l. done.
Qed.

(** C8. The frontier, extended one coin at a time, is the frontier of the full
    reconstruction and has the same root record at every depth, with the same
    depths refused: a persisted frontier can replace rebuilding the tree. *)
Theorem frontier_is_rebuild coins max_depth max_nodes t : coin_tree_build context coins max_depth max_nodes = TOk t ->
  exists fr0 nodes fr, frontier_new context max_depth = TOk fr0 /\
    append_coins context fr0 (sort_by_key position Z.leb coins) = TOk (nodes, fr) /\
    fr_count fr = Z.of_nat (length coins) /\ ct_frontier context t = fr /\
    forall depth, fr_root_at_depth context fr depth = ct_root_at_depth context t depth.
Proof.
  intros Hb. destruct (build_appends _ _ _ _ Hb) as (fr0 & nodes & fr & leaves & E0 & E & Hl & Ht & Hm & Hf & Hc & Hmf & _).
  exists fr0, nodes, fr. split; [done|]. split; [done|]. split; [done|]. split.
  - destruct (coin_tree_build_of context _ _ _ _ Hb) as (leaves' & Hl' & _ & _ & _ & _ & Hfirst & _).
    assert (leaves' = leaves) as -> by congruence.
    rewrite (append_coins_foldl _ _ _ _ _ E Hl). unfold ct_frontier. rewrite Hfirst, (cto_zeros _ _ _ _ Ht), Hm.
    destruct (cto_count _ _ _ _ Ht) as [Hcc _]. unfold ct_coins in Hcc. apply Nat2Z.inj in Hcc. rewrite Hcc.
    destruct (leaves_of_spec context _ _ Hl) as [Hlen _]. rewrite sort_by_key_length in Hlen.
    unfold frontier_new in E0. apply tree_bind_inv in E0 as (u & _ & [= <-]). f_equal.
    case_bool_decide as Hnil; [subst; cbn in Hlen; by rewrite <- Hlen|]. by rewrite <- Hlen, firstn_all.
  - intros depth. destruct (cto_bound _ _ _ _ Ht) as [Hb1 Hb2]. rewrite Hm in Hb1.
    destruct (decide (ct_depth t <= depth <= max_depth)%nat) as [Hd|Hd].
    + rewrite (ct_root_of context _ _ _ depth Ht) by (rewrite Hm; lia).
      assert (2 ^ Z.of_nat (ct_depth t) <= 2 ^ Z.of_nat depth) by (apply Z.pow_le_mono_r; lia).
      rewrite (fr_root_of context (leaf_at leaves)); [by rewrite Hc|done| |lia|lia].
      intros i Hi. apply (cto_beyond _ _ _ _ Ht). lia.
    + unfold fr_root_at_depth, ct_root_at_depth, fr_current_depth. rewrite Hc, Hmf, <- (cto_depth _ _ _ _ Ht), Hm.
      rewrite Nat.min_l by lia. destruct (Nat.leb_spec (ct_depth t) depth), (Nat.leb_spec depth max_depth); try done; lia.
Qed.

(** Every coin of the tree has a path at every admitted depth; the reader over
    the completed subtrees that appending emitted returns the same path as the
    full reconstruction, and climbing it from the coin's leaf gives the root. *)
Theorem coin_paths_verify coins max_depth max_nodes t : coin_tree_build context coins max_depth max_nodes = TOk t ->
  exists it fr0 nodes fr, indexed_new context max_depth = TOk it /\ frontier_new context max_depth = TOk fr0 /\
    append_coins context fr0 (sort_by_key position Z.leb coins) = TOk (nodes, fr) /\
    forall c depth, c ∈ coins -> (ct_depth t <= depth <= max_depth)%nat ->
    exists path leaf root, ct_auth_path t (address c) depth = TOk path /\ coin_leaf context c = TOk leaf /\
      fr_root_at_depth context fr depth = TOk root /\ climb context leaf path = r_root root /\
      indexed_auth_path context (lookup_nodes nodes) it root c = inr path.
Proof.
  intros Hb. destruct (build_appends _ _ _ _ Hb) as (fr0 & nodes & fr & leaves & E0 & E & Hl & Ht & Hm & Hf & Hc & Hmf & Hn).
  destruct (coin_tree_build_of context _ _ _ _ Hb) as (_ & _ & Hpos & _ & _ & _ & _ & Hix).
  pose proof (cto_max _ _ _ _ Ht) as Hmax. rewrite Hm in Hmax. destruct (cto_bound _ _ _ _ Ht) as [Hb1 Hb2].
  exists (mkIndexed context (zero_nodes context max_depth)), fr0, nodes, fr. split.
  { unfold indexed_new. by rewrite !(proj2 (Nat.leb_le _ _)) by lia. }
  split; [done|]. split; [done|]. intros c depth Hin Hd.
  assert (c ∈ sort_by_key position Z.leb coins) as Hin' by (by rewrite (sort_by_key_perm _ _)).
  apply list_elem_of_lookup in Hin' as [i Hi]. pose proof (positions_from_lookup _ _ Hpos i c Hi) as Hp. rewrite Z.add_0_l in Hp.
  destruct (leaves_of_spec context _ _ Hl) as [Hlen Hls]. destruct (Hls i c Hi) as (leaf & Hleaf & Hli).
  rewrite sort_by_key_length in Hlen. pose proof (lookup_lt_Some _ _ _ Hli) as Hilt.
  assert (2 ^ Z.of_nat (ct_depth t) <= 2 ^ Z.of_nat depth <= 2 ^ Z.of_nat MAX_DEPTH) by (split; apply Z.pow_le_mono_r; lia).
  assert (leaf = subtree (leaf_at leaves) 0 (position c)) as Hlf by (cbn; rewrite Hp; symmetry; by apply leaf_at_lookup).
  assert (Z.shiftr (position c) (Z.of_nat depth) = 0) as Htop by (rewrite Z.shiftr_div_pow2, Z.div_small by lia; done).
  exists (path_from context (leaf_at leaves) 0 depth (position c)), leaf,
    (mkRoot context (Z.of_nat depth) (fr_count fr) (subtree (leaf_at leaves) depth 0)). repeat split.
  - unfold ct_auth_path. rewrite Hm, !(proj2 (Nat.leb_le _ _)), (Hix c Hin) by lia. cbn.
    f_equal. apply (ct_path_of context _ _ _ Ht); [lia|lia|]. change (2 ^ Z.of_nat 0) with 1. lia.
  - done.
  - apply fr_root_of; [done| |lia|lia]. intros j Hj. apply (cto_beyond _ _ _ _ Ht). lia.
  - rewrite Hlf, climb_path, Htop, Nat.add_0_r by lia. done.
  - apply (indexed_auth_path_of _ _ _ _ max_depth); try done; try lia.
    + intros j Hj. apply (cto_beyond _ _ _ _ Ht). lia.
    + intros l j Hj Hlj. rewrite Hc in Hlj. by apply (lookup_nodes_complete _ (Z.of_nat (length coins))).
    + by rewrite Hleaf, Hlf.
Qed.


(** ** Stored forms *)

(** Both records begin with a version, the context, a depth and a count. *)
Lemma header_fields v c b n rest : length v = 8%nat -> length c = 32%nat -> length n = 8%nat ->
  let bs := v ++ c ++ [b] ++ n ++ rest in
  take 8 bs = v /\ slice 8 40 bs = c /\ default x00 (bs !! 40%nat) = b /\ slice 41 49 bs = n /\ drop 49 bs = rest.
Proof.
  intros Hv Hc Hn. unfold slice.
  assert (drop 8 (v ++ c ++ [b] ++ n ++ rest) = c ++ [b] ++ n ++ rest) as E8 by (apply drop_app_length'; lia).
  assert (drop 40 (v ++ c ++ [b] ++ n ++ rest) = [b] ++ n ++ rest) as E40.
  { change 40%nat with (8 + 32)%nat. rewrite <- drop_drop, E8. apply drop_app_length'. lia. }
  assert (drop 41 (v ++ c ++ [b] ++ n ++ rest) = n ++ rest) as E41.
  { change 41%nat with (40 + 1)%nat. by rewrite <- drop_drop, E40. }
  split; [apply take_app_length'; lia|]. split; [rewrite E8; apply take_app_length'; lia|].
  split; [|split; [rewrite E41; apply take_app_length'; lia|]].
  - replace ((v ++ c ++ [b] ++ n ++ rest) !! 40%nat) with (drop 40 (v ++ c ++ [b] ++ n ++ rest) !! 0%nat) by (by rewrite lookup_drop).
    by rewrite E40.
  - change 49%nat with (41 + 8)%nat. rewrite <- drop_drop, E41. apply drop_app_length'. lia.
Qed.

Lemma header_split bs : (49 <= length bs)%nat ->
  bs = take 8 bs ++ slice 8 40 bs ++ [default x00 (bs !! 40%nat)] ++ slice 41 49 bs ++ drop 49 bs /\
  length (take 8 bs) = 8%nat /\ length (slice 8 40 bs) = 32%nat /\ length (slice 41 49 bs) = 8%nat.
Proof.
  intros Hl. unfold slice. split; [|rewrite !length_take, !length_drop; lia].
  rewrite <- (take_drop 8 bs) at 1. f_equal. rewrite <- (take_drop (40 - 8) (drop 8 bs)) at 1. f_equal.
  rewrite drop_drop. change (8 + (40 - 8))%nat with 40%nat.
  destruct (lookup_lt_is_Some_2 bs 40%nat) as [b Hb]; [lia|]. rewrite Hb. rewrite (drop_S _ _ _ Hb). cbn [default app]. f_equal.
  rewrite <- (take_drop (49 - 41) (drop 41 bs)) at 1. f_equal. by rewrite drop_drop.
Qed.

(** A slot is filled when its bit of the count is set. *)
Definition filled_as (count : Z) (level : nat) (filled : list (option Node)) : Prop :=
  forall i slot, filled !! i = Some slot -> Z.odd (Z.shiftr count (Z.of_nat (level + i))) = bool_decide (is_Some slot).

Lemma filled_as_cons count level slot filled : filled_as count level (slot :: filled) ->
  Z.odd (Z.shiftr count (Z.of_nat level)) = bool_decide (is_Some slot) /\ filled_as count (S level) filled.
Proof.
  intros Hf. split; [rewrite <- (Hf 0%nat slot eq_refl); by rewrite Nat.add_0_r|].
  intros i s Hi. rewrite <- (Hf (S i) s Hi). do 3 f_equal. lia.
Qed.

Lemma read_filled_bytes count filled : forall level, filled_as count level filled ->
  read_filled count level (length filled) (concat (to_bytes <$> omap id filled)) = TOk filled /\
  length (concat (to_bytes <$> omap id filled)) = (set_bits count level (length filled) * NODE_BYTES)%nat.
Proof.
  induction filled as [|slot filled IH]; intros level Hf; [done|].
  apply filled_as_cons in Hf as [Hs Hf]. destruct (IH (S level) Hf) as [IH1 IH2].
  cbn [length read_filled set_bits]. rewrite Hs. destruct slot as [node|]; cbn [omap list_omap id].
  - rewrite bool_decide_eq_true_2 by done. cbn [fmap list_fmap concat].
    rewrite take_app_length', drop_app_length' by (by rewrite to_bytes_length).
    rewrite from_bytes_to_bytes. cbn [tree_some mbind tree_bind]. rewrite IH1. split; [done|].
    rewrite length_app, to_bytes_length, IH2. lia.
  - rewrite bool_decide_eq_false_2 by (by intros []). rewrite IH1. done.
Qed.

Lemma read_filled_inv count n : forall level bs filled, read_filled count level n bs = TOk filled ->
  length bs = (set_bits count level n * NODE_BYTES)%nat -> concat (to_bytes <$> omap id filled) = bs.
Proof.
  induction n as [|n IH]; intros level bs filled Hr Hl; cbn [read_filled set_bits] in *.
  - injection Hr as <-. by destruct bs.
  - destruct (Z.odd _).
    + apply tree_bind_inv in Hr as (node & Hn & Hr). apply tree_bind_inv in Hr as (rest & Hrest & [= <-]).
      destruct (from_bytes (take NODE_BYTES bs)) as [node'|] eqn:En; [|done]. injection Hn as ->.
      cbn [omap list_omap id fmap list_fmap concat]. rewrite (to_bytes_from_bytes _ _ En).
      rewrite (IH _ _ _ Hrest) by (rewrite length_drop; lia). apply take_drop.
    + apply tree_bind_inv in Hr as (rest & Hrest & [= <-]). cbn. by eapply IH.
Qed.

Lemma slots_filled f count level n : filled_as count level (slots context f count level n).
Proof.
  intros i slot Hi. unfold slots in Hi. rewrite list_lookup_fmap in Hi.
  destruct (seq level n !! i) as [l|] eqn:El; [|done]. apply lookup_seq in El as [-> _]. injection Hi as <-.
  unfold slot_of. destruct (Z.odd _); [by rewrite bool_decide_eq_true_2|]. rewrite bool_decide_eq_false_2; [done|by intros []].
Qed.

Lemma fr_decode_encode f fr : length context = 32%nat -> frontier_of context f fr ->
  fr_decode context (fr_encode context fr) (fr_max_depth fr) = TOk fr.
Proof.
  intros Hctx Hf. pose proof (fo_depth _ _ _ Hf) as Hd. pose proof (fo_count _ _ _ Hf) as Hc.
  assert (2 ^ Z.of_nat (fr_max_depth fr) <= 2 ^ 32) by (apply Z.pow_le_mono_r; unfold MAX_DEPTH in *; lia).
  pose proof (slots_filled f (fr_count fr) 0 (S (fr_max_depth fr))) as Hs. rewrite <- (fo_filled _ _ _ Hf) in Hs.
  destruct (read_filled_bytes _ _ _ Hs) as [Hr Hl].
  assert (length (fr_filled fr) = S (fr_max_depth fr)) as Hlen.
  { rewrite (fo_filled _ _ _ Hf). unfold slots. by rewrite length_fmap, length_seq. }
  rewrite Hlen in Hr, Hl. unfold fr_decode, fr_encode.
  destruct (header_fields FRONTIER_VERSION context (byte_of (Z.of_nat (fr_max_depth fr))) (le_bytes 8 (fr_count fr))
    (concat (to_bytes <$> omap id (fr_filled fr)))) as (E1 & E2 & E3 & E4 & E5); [done|done|apply le_bytes_length|].
  cbv zeta. unfold FRONTIER_HEADER_BYTES. rewrite E1, E2, E3, E4, !length_app, Hctx, le_bytes_length, Hl, le_val_bytes.
  rewrite Z.mod_small by (change (256 ^ Z.of_nat 8) with (2 ^ 64); lia).
  rewrite (proj2 (Nat.leb_le _ _)) by (cbn; lia). rewrite !bool_decide_eq_true_2 by (done || (cbn; lia)).
  rewrite byte_val_of, Z.mod_small, Z.eqb_refl by (unfold MAX_DEPTH in *; lia).
  rewrite !(proj2 (Nat.leb_le _ _)), (proj2 (Z.leb_le _ _)) by lia. cbn [andb tree_guard mbind tree_bind].
  unfold frontier_new. rewrite !(proj2 (Nat.leb_le _ _)) by lia. cbn [andb tree_guard mbind tree_bind].
  change (8 + 32 + 1 + 8)%nat with 49%nat. rewrite E5, Hr. cbn. rewrite <- (fo_zeros _ _ _ Hf). by destruct fr.
Qed.

Lemma fr_encode_decode max_depth bs fr : fr_decode context bs max_depth = TOk fr -> fr_encode context fr = bs.
Proof.
  intros Hdec. unfold fr_decode in Hdec. apply tree_bind_inv in Hdec as (u1 & H1%tree_guard_inv & Hdec).
  apply tree_bind_inv in Hdec as (u2 & H2%tree_guard_inv & Hdec). apply tree_bind_inv in Hdec as (u3 & H3%tree_guard_inv & Hdec).
  apply tree_bind_inv in Hdec as (u4 & H4%tree_guard_inv & Hdec). apply tree_bind_inv in Hdec as (u5 & H5%tree_guard_inv & Hdec).
  apply tree_bind_inv in Hdec as (fr0 & Hnew & Hdec). apply tree_bind_inv in Hdec as (filled & Hfill & [= <-]).
  apply andb_true_iff in H1 as [Hlen%Nat.leb_le Hv%bool_decide_eq_true]. apply bool_decide_eq_true in H2, H5.
  apply andb_true_iff in H3 as [[H3%Z.eqb_eq _]%andb_true_iff _].
  destruct (header_split bs Hlen) as (Es & _ & _ & L3). unfold fr_encode. cbn [fr_max_depth fr_count fr_filled].
  change FRONTIER_HEADER_BYTES with 49%nat in *.
  rewrite (read_filled_inv _ _ _ _ _ Hfill) by (rewrite length_drop; lia).
  rewrite <- H3, byte_of_val, <- Hv, <- H2. rewrite Es at 6. do 3 f_equal.
  rewrite <- L3 at 1. by rewrite le_bytes_val.
Qed.

(** A stored frontier is read back as it was, and nothing else is read as a
    frontier: the decoder accepts exactly the encodings. *)
Theorem frontier_round_trip f fr : length context = 32%nat -> frontier_of context f fr ->
  fr_decode context (fr_encode context fr) (fr_max_depth fr) = TOk fr /\
  forall bs max_depth fr', fr_decode context bs max_depth = TOk fr' -> fr_encode context fr' = bs.
Proof. intros Hctx Hf. split; [by eapply fr_decode_encode|]. intros bs max_depth fr'. apply fr_encode_decode. Qed.

(** Root records are read back too. *)
Lemma root_round_trip r bs : length (r_context r) = 32%nat -> 0 <= r_coins r -> 0 <= r_depth r ->
  root_encode r = TOk bs -> root_decode bs (r_context r) = TOk r /\ length bs = ROOT_RECORD_BYTES.
Proof.
  intros Hctx Hc Hd He. unfold root_encode in He. apply tree_bind_inv in He as (u & Hv & He).
  assert (bs = ROOT_VERSION ++ r_context r ++ [byte_of (r_depth r)] ++ le_bytes 8 (r_coins r) ++ to_bytes (r_root r)) as -> by congruence.
  destruct (header_fields ROOT_VERSION (r_context r) (byte_of (r_depth r)) (le_bytes 8 (r_coins r)) (to_bytes (r_root r)))
    as (E1 & E2 & E3 & E4 & E5); [done|done|apply le_bytes_length|].
  assert (length (ROOT_VERSION ++ r_context r ++ [byte_of (r_depth r)] ++ le_bytes 8 (r_coins r) ++ to_bytes (r_root r)) = ROOT_RECORD_BYTES) as Hlen.
  { rewrite !length_app, Hctx, le_bytes_length, to_bytes_length. unfold ROOT_RECORD_BYTES. cbn. lia. }
  split; [|done]. unfold root_decode. rewrite Hlen, E1, E2, E3, E4, E5, !bool_decide_eq_true_2 by done.
  cbn [andb tree_guard mbind tree_bind]. rewrite from_bytes_to_bytes. cbn [tree_some mbind tree_bind].
  pose proof (tree_guard_inv _ _ _ Hv) as Hg. apply negb_true_iff, orb_false_iff in Hg as [[_ H2%Z.ltb_ge]%orb_false_iff H3%Z.ltb_ge].
  assert (2 ^ r_depth r <= 2 ^ 32) by (apply Z.pow_le_mono_r; unfold MAX_DEPTH in *; lia).
  rewrite byte_val_of, le_val_bytes, !Z.mod_small by first [change (256 ^ Z.of_nat 8) with (2 ^ 64); lia|unfold MAX_DEPTH in *; lia].
  destruct r. cbn [CoinTree.r_context CoinTree.r_depth CoinTree.r_coins CoinTree.r_root] in *. rewrite Hv. done.
Qed.

End Reading.

(** ** Examples *)

Section Examples.
#[local] Existing Instance small_hash.

Definition sample_coins : list CoinRecord :=
  [mkCoin [x03] [x21] 5 1; mkCoin [x02] [x22] 9 0; mkCoin [x01] [x23] 7 2].
Definition sample_leaves : list Node := [x10; x07; x2a].
Definition sample_context : list byte := replicate 32 x07.
Definition sample_frontier : Frontier :=
  mkFrontier (zero_nodes sample_context 4) 4 3 [Some x2a; Some x54; None; None; None].

Lemma frontier_is_rebuild_witness : exists t, coin_tree_build [x07] sample_coins 4 100 = TOk t /\
  exists fr0 nodes fr, frontier_new [x07] 4 = TOk fr0 /\
    append_coins [x07] fr0 (sort_by_key position Z.leb sample_coins) = TOk (nodes, fr) /\
    fr_count fr = 3 /\ ct_frontier [x07] t = fr /\
    forall depth, fr_root_at_depth [x07] fr depth = ct_root_at_depth [x07] t depth.
Proof.
  destruct (tree_ok_some (coin_tree_build [x07] sample_coins 4 100)) as [t Ht]; [vm_compute; reflexivity|].
  exists t. split; [exact Ht|]. by apply (frontier_is_rebuild [x07] sample_coins 4 100).
Defined.

Lemma coin_paths_verify_witness : exists t, coin_tree_build [x07] sample_coins 4 100 = TOk t /\
  exists it fr0 nodes fr, indexed_new [x07] 4 = TOk it /\ frontier_new [x07] 4 = TOk fr0 /\
    append_coins [x07] fr0 (sort_by_key position Z.leb sample_coins) = TOk (nodes, fr) /\
    forall c depth, c ∈ sample_coins -> (ct_depth t <= depth <= 4)%nat ->
    exists path leaf root, ct_auth_path t (address c) depth = TOk path /\ coin_leaf [x07] c = TOk leaf /\
      fr_root_at_depth [x07] fr depth = TOk root /\ climb [x07] leaf path = r_root root /\
      indexed_auth_path [x07] (lookup_nodes nodes) it root c = inr path.
Proof.
  destruct (tree_ok_some (coin_tree_build [x07] sample_coins 4 100)) as [t Ht]; [vm_compute; reflexivity|].
  exists t. split; [exact Ht|]. by apply (coin_paths_verify [x07] sample_coins 4 100).
Defined.

Lemma frontier_round_trip_witness :
  fr_decode sample_context (fr_encode sample_context sample_frontier) 4 = TOk sample_frontier /\
  forall bs max_depth fr', fr_decode sample_context bs max_depth = TOk fr' -> fr_encode sample_context fr' = bs.
Proof.
  apply (frontier_round_trip sample_context (leaf_at sample_leaves) sample_frontier); [reflexivity|].
  split; cbn [sample_frontier fr_zeros fr_max_depth fr_count fr_filled]; unfold MAX_DEPTH; [reflexivity|lia|lia|].
  vm_compute. reflexivity.
Defined.

End Examples.
