(* ===== verification/ShardedTree.v ===== *)
(** * The accumulator split across shards ([quil-lattice-ct/src/confidential/sharded_tree.rs])

    A position is a shard and a local index; shards compute the roots of their
    own subtrees, and the application root is the fold of those.  A level of the
    tree is a sparse list of nodes sorted by index ([fold_once] makes the level
    above); [fold_sparse] folds nodes placed at different levels.  The algorithms
    are compared with the reference tree of [MembershipTree]. *)

From S2P Require Import Prelude Bytes MembershipTree CoinTree.

(** [split_position] and [position_of]; [checked_shl] checks the amount only. *)
Definition split_position (position : Z) (subtree_bits : nat) : Z * Z :=
  if (64 <=? subtree_bits)%nat then (0, position)
  else (Z.shiftr position (Z.of_nat subtree_bits), Z.land position (2 ^ Z.of_nat subtree_bits - 1)).

Definition position_of (shard local : Z) (subtree_bits : nat) : tree Z :=
  if (64 <=? subtree_bits)%nat || (2 ^ Z.of_nat subtree_bits <=? local) then TErr Position
  else let high := wrap_u64 (Z.shiftl shard (Z.of_nat subtree_bits)) in
       tree_some (checked_add_u64 high local) Position.

Record Shape := mkShape { shard_bits : nat; subtree_bits : nat }.
Definition shape_depth (s : Shape) : nat := shard_bits s + subtree_bits s.
Definition shards (s : Shape) : Z := 2 ^ Z.of_nat (shard_bits s).
Definition shape_validate (s : Shape) : tree unit :=
  tree_guard (negb ((subtree_bits s =? 0)%nat || (shape_depth s =? 0)%nat || (MAX_DEPTH <? shape_depth s)%nat)) Depth.

Section Sharded.
Context `{MembershipHash} (context : list byte).
#[local] Notation parent := (key_parent context).

(** One level up; [zero] is the zero node of the nodes' own level. *)
Fixpoint fold_once (zero : Node) (nodes : list (Z * Node)) : list (Z * Node) :=
  match nodes with
  | [] => []
  | (index, node) :: rest =>
      if Z.even index then
        match rest with
        | (next_index, next_node) :: rest' =>
            if next_index =? index + 1 then (Z.shiftr index 1, parent node next_node) :: fold_once zero rest'
            else (Z.shiftr index 1, parent node zero) :: fold_once zero rest
        | [] => [(Z.shiftr index 1, parent node zero)]
        end
      else (Z.shiftr index 1, parent zero node) :: fold_once zero rest
  end.

Definition sorted_level (nodes : list (Z * Node)) (shards : option Z) : tree (list (Z * Node)) :=
  let nodes := sort_by_key fst Z.leb nodes in
  _ ← tree_guard (negb (adjacent_repeat fst nodes)) Position;
  _ ← tree_guard (match shards with
                  | Some n => negb (existsb (fun e => n <=? e.1) nodes)
                  | None => true
                  end) Position;
  TOk nodes.

Fixpoint fold_levels (zeros : list Node) (level n : nat) (nodes : list (Z * Node)) : list (Z * Node) :=
  match n with
  | O => nodes
  | S n => fold_levels zeros (S level) n (fold_once (zeros !!! level) nodes)
  end.

Definition fold_level (zeros : list Node) (nodes : list (Z * Node)) (levels : nat) : tree Node :=
  nodes ← sorted_level nodes None;
  match fold_levels zeros 0 levels nodes with
  | (0, node) :: _ => TOk node
  | _ :: _ => TErr Position
  | [] => TOk (zeros !!! levels)
  end.

(** The root of one shard's subtree, from its own coins. *)
Fixpoint local_leaves (bits : nat) (coins : list CoinRecord) : tree (list (Z * Node)) :=
  match coins with
  | [] => TOk []
  | c :: cs =>
      let local := (split_position (position c) bits).2 in
      _ ← tree_guard (negb (2 ^ Z.of_nat bits <=? local)) Position;
      leaf ← coin_leaf context c;
      rest ← local_leaves bits cs; TOk ((local, leaf) :: rest)
  end.
Definition subtree_root (shape : Shape) (coins : list CoinRecord) : tree Node :=
  _ ← shape_validate shape;
  leaves ← local_leaves (subtree_bits shape) coins;
  fold_level (zero_nodes context (shape_depth shape)) leaves (subtree_bits shape).

(** The application root from the subtree roots of the shards. *)
Definition fold_subtree_roots (shape : Shape) (roots : list (Z * Node)) : tree Node :=
  _ ← shape_validate shape;
  _ ← tree_guard (negb (existsb (fun e => shards shape <=? e.1) roots)) Position;
  fold_level (drop (subtree_bits shape) (zero_nodes context (shape_depth shape))) roots (shard_bits shape).

(** The siblings above one shard's subtree root. *)
Fixpoint upper_path (upper : list Node) (level n : nat) (index : Z) (nodes : list (Z * Node)) : AuthPath :=
  match n with
  | O => mkPath [] []
  | S n =>
      let sibling := default (upper !!! level) (search nodes (Z.lxor index 1)) in
      let p := upper_path upper (S level) n (Z.shiftr index 1) (fold_once (upper !!! level) nodes) in
      mkPath (sibling :: siblings p) (Z.odd index :: right p)
  end.
Definition fold_auth_path (shape : Shape) (roots : list (Z * Node)) (shard : Z) : tree AuthPath :=
  _ ← shape_validate shape;
  _ ← tree_guard (shard <? shards shape) Position;
  nodes ← sorted_level roots (Some (shards shape));
  TOk (upper_path (drop (subtree_bits shape) (zero_nodes context (shape_depth shape))) 0 (shard_bits shape) shard nodes).

(** ** Nodes placed at different levels *)

Definition placed_at (level : nat) (nodes : list (nat * Z * Node)) : list (Z * Node) :=
  omap (fun '(l, i, n) => if (l =? level)%nat then Some (i, n) else None) nodes.
Definition in_place (top_level : nat) (e : nat * Z * Node) : bool :=
  let '(l, i, _) := e in (l <? top_level)%nat && (i <? 2 ^ Z.of_nat (top_level - l)).
(** [placed.keys().next()]: the least level with a node. *)
Definition first_level (nodes : list (nat * Z * Node)) : option nat :=
  match nodes with
  | [] => None
  | e :: es => Some (foldr (fun e m => Nat.min e.1.1 m) e.1.1 es)
  end.

Fixpoint sparse_levels (zeros : list Node) (nodes : list (nat * Z * Node)) (level n : nat) (carried : list (Z * Node))
  : tree (list (Z * Node)) :=
  match n with
  | O => TOk carried
  | S n =>
      here ← sorted_level (placed_at level nodes ++ carried) None;
      sparse_levels zeros nodes (S level) n (fold_once (zeros !!! level) here)
  end.

Definition fold_sparse (top_level : nat) (nodes : list (nat * Z * Node)) : tree Node :=
  _ ← tree_guard (negb ((top_level =? 0)%nat || (MAX_DEPTH <? top_level)%nat)) Depth;
  let zeros := zero_nodes context top_level in
  _ ← tree_guard (forallb (in_place top_level) nodes) Position;
  match first_level nodes with
  | None => TOk (zeros !!! top_level)
  | Some start =>
      carried ← sparse_levels zeros nodes start (top_level - start) [];
      match carried with
      | [] => TOk (zeros !!! top_level)
      | [(0, node)] => TOk node
      | _ => TErr Position
      end
  end.

(** The path from a placed node up to the root. *)
Fixpoint sparse_path (zeros : list Node) (nodes : list (nat * Z * Node)) (mine : nat) (level n : nat) (index : Z)
  (carried : list (Z * Node)) : tree AuthPath :=
  match n with
  | O => TOk (mkPath [] [])
  | S n =>
      here ← sorted_level (placed_at level nodes ++ carried) None;
      let carried := fold_once (zeros !!! level) here in
      if (mine <=? level)%nat then
        let sibling := default (zeros !!! level) (search here (Z.lxor index 1)) in
        p ← sparse_path zeros nodes mine (S level) n (Z.shiftr index 1) carried;
        TOk (mkPath (sibling :: siblings p) (Z.odd index :: right p))
      else sparse_path zeros nodes mine (S level) n index carried
  end.
Definition fold_sparse_auth_path (top_level : nat) (nodes : list (nat * Z * Node)) (mine : nat * Z) : tree AuthPath :=
  _ ← tree_guard (negb ((top_level =? 0)%nat || (MAX_DEPTH <? top_level)%nat || (top_level <=? mine.1)%nat)) Depth;
  _ ← tree_guard (existsb (fun e => bool_decide (e.1 = mine)) nodes) MissingCoin;
  let zeros := zero_nodes context top_level in
  _ ← tree_guard (forallb (in_place top_level) nodes) Position;
  match first_level nodes with
  | None => TErr MissingCoin
  | Some start => sparse_path zeros nodes mine.1 start (top_level - start) mine.2 []
  end.

(** ** The whole application's tree *)

Record ShardedCoinTree := mkSharded {
  st_zeros : list Node;
  st_shape : Shape;
  st_levels : list (list (Z * Node));
  st_index : list (list byte * Z);
}.

Fixpoint sharded_leaves (shape : Shape) (coins : list CoinRecord) : tree (list (Z * Node)) :=
  match coins with
  | [] => TOk []
  | c :: cs =>
      _ ← tree_guard (negb (shards shape <=? (split_position (position c) (subtree_bits shape)).1)) Position;
      leaf ← coin_leaf context c;
      rest ← sharded_leaves shape cs; TOk ((position c, leaf) :: rest)
  end.
Fixpoint sharded_levels (zeros : list Node) (level n : nat) (nodes : list (Z * Node)) : list (list (Z * Node)) :=
  nodes :: match n with
           | O => []
           | S n => sharded_levels zeros (S level) n (fold_once (zeros !!! level) nodes)
           end.

Definition sharded_build (shape : Shape) (coins : list CoinRecord) : tree ShardedCoinTree :=
  _ ← shape_validate shape;
  let zeros := zero_nodes context (shape_depth shape) in
  leaves ← sharded_leaves shape coins;
  leaves ← sorted_level leaves None;
  let index := sort_by_key fst bytes_leb ((fun c => (address c, position c)) <$> coins) in
  _ ← tree_guard (negb (adjacent_repeat fst index)) DuplicateAddress;
  TOk (mkSharded zeros shape (sharded_levels zeros 0 (shape_depth shape) leaves) index).

Definition st_coins (t : ShardedCoinTree) : Z := Z.of_nat (length (st_index t)).
Definition st_root (t : ShardedCoinTree) : Node :=
  match st_levels t !!! shape_depth (st_shape t) with
  | (_, node) :: _ => node
  | [] => st_zeros t !!! shape_depth (st_shape t)
  end.
Definition st_root_at_depth (t : ShardedCoinTree) (depth : nat) : tree RootRecord :=
  _ ← tree_guard (depth =? shape_depth (st_shape t))%nat Depth;
  TOk (mkRoot context (Z.of_nat depth) (st_coins t) (st_root t)).
Definition st_node (t : ShardedCoinTree) (level : nat) (index : Z) : Node :=
  default (st_zeros t !!! level) (search (st_levels t !!! level) index).
Fixpoint st_path_from (t : ShardedCoinTree) (level n : nat) (index : Z) : AuthPath :=
  match n with
  | O => mkPath [] []
  | S n =>
      let p := st_path_from t (S level) n (Z.shiftr index 1) in
      mkPath (st_node t level (Z.lxor index 1) :: siblings p) (Z.odd index :: right p)
  end.
Definition st_auth_path (t : ShardedCoinTree) (a : list byte) : tree AuthPath :=
  position ← tree_some (search (st_index t) a) MissingCoin;
  TOk (st_path_from t 0 (shape_depth (st_shape t)) position).
Definition st_auth_path_at_depth (t : ShardedCoinTree) (a : list byte) (depth : nat) : tree AuthPath :=
  _ ← tree_guard (depth =? shape_depth (st_shape t))%nat Depth; st_auth_path t a.

(** What a verifier computes from a leaf and its path. *)
Definition root_from_path (owner : Node) (commitment : AmountCommitment) (path : AuthPath) : tree Node :=
  _ ← tree_guard (negb (negb (length (siblings path) =? length (right path))%nat
                        || (MAX_DEPTH <? length (siblings path))%nat)) Depth;
  TOk (climb context (key_leaf context owner commitment) path).

End Sharded.

(** ** Sparse levels *)

Section Sparse.
Context `{MembershipHash} (context : list byte).
#[local] Notation parent := (key_parent context).
#[local] Notation subtree := (subtree context).
#[local] Notation fold_once := (fold_once context).

(** Indices strictly ascending from a bound. *)
Fixpoint asc {A} (b : Z) (l : list (Z * A)) : Prop :=
  match l with [] => True | e :: t => b <= e.1 /\ asc (e.1 + 1) t end.

Lemma asc_weaken {A} a b (l : list (Z * A)) : a <= b -> asc b l -> asc a l.
Proof. destruct l; cbn; [done|]. intros Hab [Hb Hl]. split; [lia|done]. Qed.

Lemma asc_lower {A} b (l : list (Z * A)) i : asc b l -> i ∈ fst <$> l -> b <= i.
Proof.
  revert b. induction l as [|[j n] l IH]; intros b Hl Hi; [by apply not_elem_of_nil in Hi|].
  cbn in *. destruct Hl as [Hj Hl]. apply elem_of_cons in Hi as [->|Hi]; [done|]. specialize (IH _ Hl Hi). lia.
Qed.

Lemma asc_NoDup {A} b (l : list (Z * A)) : asc b l -> NoDup (fst <$> l).
Proof.
  revert b. induction l as [|[j n] l IH]; intros b Hl; [constructor|]. cbn in *. destruct Hl as [Hj Hl].
  constructor; [|by eapply IH]. intros Hi. pose proof (asc_lower _ _ _ Hl Hi). lia.
Qed.

Lemma search_below {A} b (l : list (Z * A)) i : asc b l -> i < b -> search l i = None.
Proof. intros Hl Hi. apply search_None. intros Hin. pose proof (asc_lower _ _ _ Hl Hin). lia. Qed.

(** Sorting distinct indices gives an ascending level with the same nodes. *)
Lemma sorted_asc {A} (l : list (Z * A)) : NoDup (fst <$> l) -> (forall i, i ∈ fst <$> l -> 0 <= i) ->
  asc 0 (sort_by_key fst Z.leb l).
Proof.
  intros Hn Hpos. assert (forall i, i ∈ fst <$> sort_by_key fst Z.leb l -> 0 <= i) as Hpos'.
  { intros i. rewrite (sort_by_key_perm fst Z.leb l). apply Hpos. }
  assert (StronglySorted (fun a b : Z * A => Z.leb a.1 b.1 = true /\ a.1 <> b.1) (sort_by_key fst Z.leb l)) as Hs.
  { apply sort_by_key_strict; [intros a b; rewrite Z.leb_gt, Z.leb_le; lia|intros a b; rewrite !Z.leb_le; lia|
      intros a b c; rewrite !Z.leb_le; lia|done]. }
  revert Hpos' Hs. generalize (sort_by_key fst Z.leb l) 0. clear. induction l as [|[j n] l IH]; intros b Hb Hs; [done|].
  apply StronglySorted_inv in Hs as [Hs Hj]. cbn in *. split; [apply Hb; left|]. apply IH; [|done].
  intros i (e & -> & He)%list_elem_of_fmap. rewrite Forall_forall in Hj. destruct (Hj e He) as [Hle%Z.leb_le Hne]. lia.
Qed.

Lemma search_perm {A} (l l' : list (Z * A)) i : Permutation l l' -> NoDup (fst <$> l) -> search l i = search l' i.
Proof.
  intros Hp Hn. assert (NoDup (fst <$> l')) as Hn' by (by rewrite <- Hp).
  destruct (search l' i) as [v|] eqn:E.
  - apply search_Some; [done|]. rewrite Hp. by apply search_elem.
  - apply search_None. rewrite Hp. by apply search_None.
Qed.

Lemma sorted_level_inv nodes n sorted : sorted_level nodes n = TOk sorted ->
  NoDup (fst <$> nodes) /\ sorted = sort_by_key fst Z.leb nodes.
Proof.
  unfold sorted_level. intros Hs. apply tree_bind_inv in Hs as (u & Hr%tree_guard_inv & Hs).
  apply tree_bind_inv in Hs as (u' & _ & [= <-]). split; [|done]. apply negb_true_iff in Hr.
  apply (sort_by_key_repeat fst Z.leb) in Hr; [done|..]; intros *; rewrite ?Z.leb_gt, ?Z.leb_le; lia.
Qed.

Lemma sorted_level_ok nodes : NoDup (fst <$> nodes) -> sorted_level nodes None = TOk (sort_by_key fst Z.leb nodes).
Proof.
  intros Hn. unfold sorted_level. assert (adjacent_repeat fst (sort_by_key fst Z.leb nodes) = false) as ->; [|done].
  apply sort_by_key_repeat; [intros *; rewrite ?Z.leb_gt, ?Z.leb_le; lia..|done].
Qed.

(** A sparse level holds the function [lev] when every index reads its node. *)
Definition sparse_of (z : Node) (l : list (Z * Node)) (lev : Z -> Node) : Prop :=
  asc 0 l /\ forall i, default z (search l i) = lev i.

Lemma search_skip {A} (l : list (Z * A)) k a b : a <> k -> search ((a, b) :: l) k = search l k.
Proof. intros Hk. by rewrite search_cons, decide_False. Qed.
Lemma search_here {A} (l : list (Z * A)) a b : search ((a, b) :: l) a = Some b.
Proof. by rewrite search_cons, decide_True. Qed.

(** What a fold of the level [l] from the bound [b] is. *)
Definition folds (z : Node) (b : Z) (l out : list (Z * Node)) : Prop :=
  asc (b / 2) out /\ (forall i, i ∈ fst <$> out <-> exists j, j ∈ fst <$> l /\ i = j / 2) /\
  forall i, default (parent z z) (search out i) = parent (default z (search l (2 * i))) (default z (search l (2 * i + 1))).

(** One node of the fold: [rest] is what follows the pair of [i]. *)
Lemma folds_cons z b i x l rest out v : asc b ((i, x) :: l) ->
  folds z (2 * (i / 2) + 2) rest out -> asc (2 * (i / 2) + 2) rest ->
  (forall k, 2 * (i / 2) + 2 <= k -> search ((i, x) :: l) k = search rest k) ->
  (forall k, k ∈ fst <$> (i, x) :: l -> k / 2 = i / 2 \/ k ∈ fst <$> rest) -> rest ⊆ (i, x) :: l ->
  v = parent (default z (search ((i, x) :: l) (2 * (i / 2)))) (default z (search ((i, x) :: l) (2 * (i / 2) + 1))) ->
  folds z b ((i, x) :: l) ((i / 2, v) :: out).
Proof.
  intros Hl (IH1 & IH2 & IH3) Har Hrest Hkeys Hsub ->. pose proof Hl as [Hb Ha]. cbn [fst] in Hb, Ha. split; [|split].
  - split; cbn [fst]; [apply Z.div_le_mono; lia|]. replace (i / 2 + 1) with ((2 * (i / 2) + 2) / 2); [done|].
    replace (2 * (i / 2) + 2) with ((i / 2 + 1) * 2) by lia. by rewrite Z.div_mul.
  - intros k. cbn [fmap list_fmap fst]. rewrite elem_of_cons, IH2. split.
    + intros [->|(j & (e & -> & He)%list_elem_of_fmap & ->)]; [exists i; split; [left|done]|].
      exists e.1. split; [|done]. apply (list_elem_of_fmap_2 fst ((i, x) :: l)). by apply Hsub.
    + intros (j & Hj & ->). destruct (Hkeys j Hj) as [->|Hj']; [by left|right; by exists j].
  - intros k. rewrite search_cons. destruct (decide (i / 2 = k)) as [<-|Hk]; [done|]. rewrite IH3.
    destruct (decide (k < i / 2)) as [Hlt|Hge]; [|by rewrite !Hrest by lia].
    rewrite !(search_below _ rest _ Har) by lia. pose proof (Z.mul_div_le i 2).
    by rewrite !(search_below i ((i, x) :: l)) by first [split; [cbn; lia|done]|lia].
Qed.

Lemma fold_once_spec z n : forall l b, (length l <= n)%nat -> asc b l -> folds z b l (fold_once z l).
Proof.
  induction n as [|n IH]; intros [|[i x] l] b Hn Hl; cbn [length] in Hn; try lia.
  1, 2: split; [done|]; split; [|done]; intros j; split; [by intros ?%not_elem_of_nil|by intros (k & ?%not_elem_of_nil & _)].
  pose proof Hl as [Hb Ha]. cbn [fst] in Hb, Ha. destruct (index_cases i) as [Es Ei].
  cbn [ShardedTree.fold_once]. rewrite Es, <- Z.negb_odd.
  destruct (Z.odd i) eqn:Eo; cbn [negb]; destruct Ei as [Ei _].
  - assert (asc (2 * (i / 2) + 2) l) as Hr by (eapply asc_weaken; [|done]; lia).
    apply (folds_cons _ _ _ _ _ l); [done|apply IH; [lia|done]|done| |set_solver..|].
    + intros k Hk. apply search_skip. lia.
    + rewrite <- Ei, search_here, search_skip by lia. by rewrite (search_below (i + 1) l) by first [done|lia].
  - destruct l as [|[j y] l].
    + apply (folds_cons _ _ _ _ _ []); [done|apply (IH [] _); [lia|done]|done| |set_solver..|].
      * intros k Hk. by rewrite search_skip by lia.
      * by rewrite <- Ei, search_here, search_skip by lia.
    + destruct Ha as [Hj Ha]. cbn [fst] in Hj, Ha. cbn [length] in Hn. destruct (Z.eqb_spec j (i + 1)) as [->|Hne].
      * assert (asc (2 * (i / 2) + 2) l) as Hr by (eapply asc_weaken; [|done]; lia).
        apply (folds_cons _ _ _ _ _ l); [done|apply IH; [lia|done]|done| | |set_solver|].
        -- intros k Hk. by rewrite !search_skip by lia.
        -- intros k. cbn [fmap list_fmap fst]. rewrite !elem_of_cons. intros [->|[->|Hk]]; [by left| |by right].
           left. rewrite Ei at 1. rewrite Z.add_comm, (Z.mul_comm 2), Z.div_add by lia. done.
        -- by rewrite <- Ei, search_here, search_skip, search_here by lia.
      * assert (asc (2 * (i / 2) + 2) ((j, y) :: l)) as Hr by (cbn; split; [lia|done]).
        apply (folds_cons _ _ _ _ _ ((j, y) :: l)); [done|apply IH; [cbn; lia|done]|done| |set_solver..|].
        -- intros k Hk. by rewrite search_skip by lia.
        -- rewrite <- Ei, search_here, search_skip, search_skip by lia. by rewrite (search_below (j + 1) l) by first [done|lia].
Qed.

Lemma fold_once_sparse z l lev : sparse_of z l lev ->
  sparse_of (parent z z) (fold_once z l) (fun i => parent (lev (2 * i)) (lev (2 * i + 1))).
Proof.
  intros [Ha Hl]. destruct (fold_once_spec z (length l) l 0 (Nat.le_refl _) Ha) as (H1 & _ & H3).
  split; [done|]. intros i. by rewrite H3, !Hl.
Qed.

Lemma fold_once_keys z l i : asc 0 l -> i ∈ fst <$> fold_once z l <-> exists j, j ∈ fst <$> l /\ i = j / 2.
Proof. intros Ha. apply (fold_once_spec z (length l) l 0 (Nat.le_refl _) Ha). Qed.

Section Levels.
Context (zeros : list Node) (base top : nat).
Context (Hzeros : forall k, (k <= top)%nat -> zeros !!! k = zero_tree context (base + k)).

Lemma fold_levels_sparse lev n : forall level l, (level + n <= top)%nat ->
  sparse_of (zero_tree context (base + level)) l (subtree lev level) ->
  sparse_of (zero_tree context (base + level + n)) (fold_levels context zeros level n l) (subtree lev (level + n)).
Proof.
  induction n as [|n IH]; intros level l Hn Hl; cbn [fold_levels]; [by rewrite !Nat.add_0_r|].
  replace (base + level + S n)%nat with (base + S level + n)%nat by lia.
  replace (level + S n)%nat with (S level + n)%nat by lia. apply IH; [lia|].
  rewrite Hzeros by lia. replace (base + S level)%nat with (S (base + level)) by lia. rewrite zero_tree_S.
  by apply fold_once_sparse.
Qed.

Lemma fold_levels_keys n : forall level l i, asc 0 l -> i ∈ fst <$> fold_levels context zeros level n l ->
  exists j, j ∈ fst <$> l /\ i = j / 2 ^ Z.of_nat n.
Proof.
  induction n as [|n IH]; intros level l i Ha Hi; cbn [fold_levels] in Hi; [exists i; split; [done|by rewrite Z.div_1_r]|].
  apply IH in Hi as (j & Hj & ->); [|apply (fold_once_spec _ (length l) l 0 (Nat.le_refl _) Ha)].
  apply (fold_once_keys _ _ _ Ha) in Hj as (k & Hk & ->). exists k. split; [done|].
  rewrite Z.div_div, Nat2Z.inj_succ, Z.pow_succ_r by lia. done.
Qed.

(** A level whose indices all fit folds to the node above them. *)
Lemma fold_level_roots lev l levels : (levels <= top)%nat -> NoDup (fst <$> l) ->
  (forall i, i ∈ fst <$> l -> 0 <= i < 2 ^ Z.of_nat levels) ->
  (forall i, default (zero_tree context base) (search l i) = lev i) ->
  fold_level context zeros l levels = TOk (subtree lev levels 0).
Proof.
  intros Ht Hn Hb Hl. unfold fold_level. rewrite sorted_level_ok by done. cbn [mbind tree_bind].
  assert (asc 0 (sort_by_key fst Z.leb l)) as Ha by (apply sorted_asc; [done|]; intros i Hi; by apply Hb).
  assert (sparse_of (zero_tree context (base + 0)) (sort_by_key fst Z.leb l) (subtree lev 0)) as Hs.
  { split; [done|]. intros i. cbn [subtree]. rewrite Nat.add_0_r, <- Hl. f_equal. apply search_perm; [apply sort_by_key_perm|].
    by apply asc_NoDup with 0. }
  destruct (fold_levels_sparse lev levels 0 _ Ht Hs) as [Ha' Hs']. rewrite Nat.add_0_r in Hs'.
  assert (forall i, i ∈ fst <$> fold_levels context zeros 0 levels (sort_by_key fst Z.leb l) -> i = 0) as Hzero.
  { intros i Hi. apply (fold_levels_keys levels 0 _ i Ha) in Hi as (j & Hj & ->).
    rewrite (sort_by_key_perm fst Z.leb l) in Hj. apply Z.div_small. by apply Hb. }
  specialize (Hs' 0). destruct (fold_levels _ _ _ _ _) as [|[i n] rest]; cbn in Hs'.
  - rewrite Hzeros by lia. by rewrite <- Hs'.
  - rewrite (Hzero i ltac:(left)) in *. by rewrite <- Hs'.
Qed.

Lemma fold_level_of f l levels : (levels <= top)%nat -> NoDup (fst <$> l) ->
  (forall i, i ∈ fst <$> l -> 0 <= i < 2 ^ Z.of_nat levels) ->
  (forall i, default (zero_tree context base) (search l i) = subtree f base i) ->
  fold_level context zeros l levels = TOk (subtree f (base + levels) 0).
Proof. intros. rewrite (fold_level_roots (subtree f base)) by done. by rewrite <- subtree_compose, Nat.add_comm. Qed.

(** The upper part of a path. *)
Lemma upper_path_of f n : forall level index l, (level + n <= top)%nat ->
  sparse_of (zero_tree context (base + level)) l (subtree f (base + level)) ->
  upper_path context zeros level n index l = path_from context f (base + level) n index.
Proof.
  induction n as [|n IH]; intros level index l Hn Hl; cbn [upper_path path_from]; [done|].
  rewrite Hzeros by lia. rewrite IH; [|lia|].
  - destruct Hl as [_ Hl]. rewrite Hl. by replace (base + S level)%nat with (S (base + level)) by lia.
  - replace (base + S level)%nat with (S (base + level)) by lia. rewrite zero_tree_S. by apply fold_once_sparse.
Qed.

End Levels.

End Sparse.
