(* ===== verification/ShardedRoots.v ===== *)
(** * The application root from the shards' parts

    The claims on [sharded_tree.rs]: folding what the shards compute from their
    own coins gives the root and the paths of the tree of all coins, and a fold
    of nodes placed at different levels is accepted exactly when they do not
    overlap. *)

From S2P Require Import Prelude Bytes MembershipTree CoinTree CoinWitness ShardedTree.

Section Roots.
Context `{MembershipHash} (context : list byte).
#[local] Notation parent := (key_parent context).
#[local] Notation subtree := (subtree context).

Lemma shape_validate_inv shape u : shape_validate shape = TOk u ->
  (1 <= subtree_bits shape)%nat /\ (shape_depth shape <= MAX_DEPTH)%nat.
Proof.
  intros Hv%tree_guard_inv. apply negb_true_iff, orb_false_iff in Hv as [[H1%Nat.eqb_neq _]%orb_false_iff H2%Nat.ltb_ge]. lia.
Qed.

Lemma split_position_spec p bits : (bits < 64)%nat -> 0 <= p ->
  p = (split_position p bits).1 * 2 ^ Z.of_nat bits + (split_position p bits).2 /\
  0 <= (split_position p bits).1 /\ 0 <= (split_position p bits).2 < 2 ^ Z.of_nat bits.
Proof.
  intros Hb Hp. unfold split_position. rewrite (proj2 (Nat.leb_gt _ _)) by lia. cbn [fst snd].
  replace (2 ^ Z.of_nat bits - 1) with (Z.ones (Z.of_nat bits)) by (rewrite Z.ones_equiv; lia).
  rewrite Z.shiftr_div_pow2, Z.land_ones by lia. assert (0 < 2 ^ Z.of_nat bits) by (apply Z.pow_pos_nonneg; lia).
  pose proof (Z.div_mod p (2 ^ Z.of_nat bits)). pose proof (Z.mod_pos_bound p (2 ^ Z.of_nat bits)).
  pose proof (Z.div_pos p (2 ^ Z.of_nat bits)). lia.
Qed.

(** ** The leaves of all coins, and of one shard *)

Definition shard_of (shape : Shape) (c : CoinRecord) : Z := (split_position (position c) (subtree_bits shape)).1.
Definition local_of (shape : Shape) (c : CoinRecord) : Z := (split_position (position c) (subtree_bits shape)).2.
Definition shard_coins (shape : Shape) (coins : list CoinRecord) (s : Z) : list CoinRecord :=
  base.filter (fun c => shard_of shape c = s) coins.

Definition leaves_fun (leaves : list (Z * Node)) (i : Z) : Node := default node_zero (search leaves i).

Lemma sharded_leaves_spec shape coins : forall leaves, sharded_leaves context shape coins = TOk leaves ->
  fst <$> leaves = position <$> coins /\ Forall (fun c => shard_of shape c < shards shape) coins /\
  forall c, c ∈ coins -> exists leaf, coin_leaf context c = TOk leaf /\ (position c, leaf) ∈ leaves.
Proof.
  induction coins as [|c cs IH]; intros leaves Hl; cbn [sharded_leaves] in Hl.
  - injection Hl as <-. split; [done|]. split; [done|]. by intros c ?%not_elem_of_nil.
  - apply tree_bind_inv in Hl as (u & Hs%tree_guard_inv & Hl). apply tree_bind_inv in Hl as (leaf & Hleaf & Hl).
    apply tree_bind_inv in Hl as (rest & Hr & [= <-]). destruct (IH rest Hr) as (IH1 & IH2 & IH3).
    split; [cbn; by f_equal|]. split.
    + constructor; [|done]. by apply negb_true_iff, Z.leb_gt in Hs.
    + intros c' [->|Hc]%elem_of_cons; [exists leaf; split; [done|left]|].
      destruct (IH3 c' Hc) as (leaf' & E & Hin). exists leaf'. split; [done|by right].
Qed.

(** A shard's local leaves are the leaves of the tree in its range. *)
Lemma local_leaves_spec shape coins s : (subtree_bits shape < 64)%nat ->
  forall leaves, sharded_leaves context shape coins = TOk leaves -> Forall (fun c => 0 <= position c) coins ->
  exists ll, local_leaves context (subtree_bits shape) (shard_coins shape coins s) = TOk ll /\
    (forall i, i ∈ fst <$> ll -> 0 <= i < 2 ^ Z.of_nat (subtree_bits shape)) /\
    forall i, 0 <= i < 2 ^ Z.of_nat (subtree_bits shape) ->
      search ll i = search leaves (s * 2 ^ Z.of_nat (subtree_bits shape) + i).
Proof.
  intros Hb. induction coins as [|c cs IH]; intros leaves Hl Hpos; cbn [sharded_leaves] in Hl.
  - injection Hl as <-. exists []. split; [done|]. split; [by intros i ?%not_elem_of_nil|done].
  - apply tree_bind_inv in Hl as (u & _ & Hl). apply tree_bind_inv in Hl as (leaf & Hleaf & Hl).
    apply tree_bind_inv in Hl as (rest & Hr & [= <-]). apply Forall_cons in Hpos as [Hp Hpos].
    destruct (IH rest Hr Hpos) as (ll & E & Hk & Hs). destruct (split_position_spec (position c) _ Hb Hp) as (Ep & _ & Hloc).
    fold (shard_of shape c) (local_of shape c) in *. unfold shard_coins.
    destruct (decide (shard_of shape c = s)) as [Hcs|Hcs].
    + rewrite filter_cons_True by done. fold (shard_coins shape cs s). cbn [local_leaves]. fold (local_of shape c).
      rewrite (proj2 (Z.leb_gt _ _)), Hleaf by lia. cbn [negb tree_guard mbind tree_bind]. rewrite E.
      exists ((local_of shape c, leaf) :: ll). split; [done|]. split.
      * intros i [->|Hi]%elem_of_cons; [done|by apply Hk].
      * intros i Hi. rewrite !search_cons, Hs by done.
        destruct (decide (local_of shape c = i)), (decide (position c = s * 2 ^ Z.of_nat (subtree_bits shape) + i)); try done; nia.
    + rewrite filter_cons_False by done. fold (shard_coins shape cs s). exists ll. split; [done|]. split; [done|].
      intros i Hi. rewrite search_cons, decide_False by nia. by apply Hs.
Qed.

Lemma local_keys_NoDup shape coins s : (subtree_bits shape < 64)%nat -> Forall (fun c => 0 <= position c) coins ->
  NoDup (position <$> coins) -> forall ll, local_leaves context (subtree_bits shape) (shard_coins shape coins s) = TOk ll ->
  NoDup (fst <$> ll).
Proof.
  intros Hb Hpos Hn ll Hll.
  assert (fst <$> ll = local_of shape <$> shard_coins shape coins s) as ->.
  { clear -Hll. revert ll Hll. generalize (shard_coins shape coins s) as cs. induction cs as [|c cs IH]; intros ll Hll.
    - by injection Hll as <-.
    - cbn [local_leaves] in Hll. apply tree_bind_inv in Hll as (u & _ & Hll). apply tree_bind_inv in Hll as (leaf & _ & Hll).
      apply tree_bind_inv in Hll as (rest & Hr & [= <-]). cbn. f_equal. by apply IH. }
  clear ll Hll. unfold shard_coins. induction coins as [|c cs IH]; [constructor|].
  apply Forall_cons in Hpos as [Hp Hpos]. cbn in Hn. apply NoDup_cons in Hn as [Hc Hn].
  specialize (IH Hpos Hn).
  destruct (decide (shard_of shape c = s)) as [Hcs|]; [|by rewrite filter_cons_False].
  rewrite filter_cons_True by done. cbn. constructor; [|done]. intros (c' & El & [Hs' Hc']%list_elem_of_filter)%list_elem_of_fmap.
  apply Hc. apply list_elem_of_fmap. exists c'. split; [|done]. rewrite Forall_forall in Hpos.
  destruct (split_position_spec (position c) _ Hb Hp) as (E1 & _), (split_position_spec (position c') _ Hb (Hpos _ Hc')) as (E2 & _).
  fold (shard_of shape c) (local_of shape c) (shard_of shape c') (local_of shape c') in *. congruence.
Qed.

(** ** The tree of all coins *)

Lemma leaves_fun_empty leaves (f := leaves_fun leaves) level index :
  (forall i, i ∈ fst <$> leaves -> ~ index * 2 ^ Z.of_nat level <= i < (index + 1) * 2 ^ Z.of_nat level) ->
  subtree f level index = zero_tree context level.
Proof.
  intros Hi. apply subtree_empty. intros i Hr. unfold f, leaves_fun.
  destruct (search leaves i) as [n|] eqn:E; [|done]. destruct (Hi i); [|done].
  apply list_elem_of_fmap. exists (i, n). split; [done|]. by apply search_elem.
Qed.

Lemma sharded_levels_of zeros f n : forall level l, (forall k, (k < level + n)%nat -> zeros !!! k = zero_tree context k) ->
  sparse_of (zero_tree context level) l (subtree f level) ->
  forall k, (k <= n)%nat ->
  sparse_of (zero_tree context (level + k)) (sharded_levels context zeros level n l !!! k) (subtree f (level + k)) /\
  forall i, i ∈ fst <$> (sharded_levels context zeros level n l !!! k) -> exists j, j ∈ fst <$> l /\ i = j / 2 ^ Z.of_nat k.
Proof.
  induction n as [|n IH]; intros level l Hz Hl k Hk.
  - replace k with 0%nat by lia. rewrite Nat.add_0_r. split; [done|]. intros i Hi. exists i. by rewrite Z.div_1_r.
  - destruct k as [|k]; [rewrite Nat.add_0_r; split; [done|]; intros i Hi; exists i; by rewrite Z.div_1_r|].
    replace (level + S k)%nat with (S level + k)%nat by lia. cbn [sharded_levels lookup_total list_lookup_total].
    destruct (IH (S level) (fold_once context (zeros !!! level) l)) with (k := k) as [IH1 IH2]; [|..|lia|].
    + intros j Hj. apply Hz. lia.
    + rewrite Hz, zero_tree_S by lia. by apply fold_once_sparse.
    + split; [done|]. intros i Hi. apply IH2 in Hi as (j & Hj & ->).
      apply fold_once_keys in Hj as (m & Hm & ->); [|apply Hl]. exists m. split; [done|].
      rewrite Z.div_div, Nat2Z.inj_succ, Z.pow_succ_r by lia. done.
Qed.

(** What a built tree holds. *)
Record sharded_of (shape : Shape) (coins : list CoinRecord) (leaves : list (Z * Node)) (t : ShardedCoinTree) : Prop := {
  so_shape : st_shape t = shape /\ (1 <= subtree_bits shape)%nat /\ (shape_depth shape <= MAX_DEPTH)%nat;
  so_zeros : st_zeros t = zero_nodes context (shape_depth shape);
  so_leaves : sharded_leaves context shape coins = TOk leaves;
  so_positions : NoDup (position <$> coins);
  so_range : Forall (fun c => 0 <= position c < 2 ^ Z.of_nat (shape_depth shape)) coins;
  so_levels : forall k, (k <= shape_depth shape)%nat ->
    sparse_of (zero_tree context k) (st_levels t !!! k) (subtree (leaves_fun leaves) k);
  so_index : forall c, c ∈ coins -> search (st_index t) (address c) = Some (position c);
  so_root : st_root t = subtree (leaves_fun leaves) (shape_depth shape) 0;
}.

Lemma sharded_build_of shape coins t : sharded_build context shape coins = TOk t -> Forall (fun c => 0 <= position c) coins ->
  exists leaves, sharded_of shape coins leaves t.
Proof.
  unfold sharded_build. intros Hb Hpos. apply tree_bind_inv in Hb as (u & Hv%shape_validate_inv & Hb).
  apply tree_bind_inv in Hb as (leaves & Hl & Hb). apply tree_bind_inv in Hb as (sorted & [Hn ->]%sorted_level_inv & Hb).
  apply tree_bind_inv in Hb as (u' & Hr%tree_guard_inv & [= <-]). apply negb_true_iff in Hr.
  apply (sort_by_key_repeat fst bytes_leb bytes_leb_total bytes_leb_antisym bytes_leb_trans) in Hr.
  destruct (sharded_leaves_spec shape coins leaves Hl) as (Ek & Hsh & _). exists leaves.
  assert (forall i, i ∈ fst <$> leaves -> 0 <= i < 2 ^ Z.of_nat (shape_depth shape)) as Hrange.
  { intros i. rewrite Ek. intros (c & -> & Hc)%list_elem_of_fmap. rewrite Forall_forall in Hpos, Hsh.
    specialize (Hpos c Hc). specialize (Hsh c Hc). unfold shards, shape_depth, MAX_DEPTH in *.
    destruct (split_position_spec (position c) (subtree_bits shape)) as (Ep & Hs & Hloc); [lia|done|].
    fold (shard_of shape c) (local_of shape c) in *. rewrite Nat2Z.inj_add, Z.pow_add_r by lia. nia. }
  assert (sparse_of (zero_tree context 0) (sort_by_key fst Z.leb leaves) (subtree (leaves_fun leaves) 0)) as H0.
  { split; [apply sorted_asc; [done|]; intros i Hi; by apply Hrange|]. intros i. cbn. unfold leaves_fun.
    change (zero_tree context 0) with node_zero. f_equal. apply search_perm; [apply sort_by_key_perm|].
    by rewrite (sort_by_key_perm fst Z.leb leaves). }
  pose proof (sharded_levels_of (zero_nodes context (shape_depth shape)) (leaves_fun leaves) (shape_depth shape) 0 _
    ltac:(intros k Hk; apply zero_nodes_total; lia) H0) as Hlev.
  split; cbn [st_shape st_zeros st_levels st_index]; try done; try (by rewrite <- Ek).
  - apply Forall_forall. intros c Hc. apply Hrange. rewrite Ek. apply list_elem_of_fmap. by exists c.
  - intros k Hk. by apply Hlev.
  - intros c Hc. apply search_Some.
    + by rewrite (sort_by_key_perm fst bytes_leb _).
    + rewrite (sort_by_key_perm fst bytes_leb _), list_elem_of_fmap. by exists c.
  - destruct (Hlev (shape_depth shape) (Nat.le_refl _)) as [[Ha Hs] Hkeys]. unfold st_root. cbn [st_levels st_shape st_zeros].
    cbn [Nat.add] in Hs. rewrite <- (Hs 0). destruct (sharded_levels _ _ _ _ _ !!! _) as [|[i n] rest].
    + by rewrite zero_nodes_total by lia.
    + assert (i = 0) as ->; [|by rewrite search_here].
      destruct (Hkeys i ltac:(left)) as (j & Hj & ->). rewrite (sort_by_key_perm fst Z.leb leaves) in Hj.
      apply Z.div_small. by apply Hrange.
Qed.

(** ** The parts of the shards *)

Section Parts.
Context (shape : Shape) (coins : list CoinRecord) (leaves : list (Z * Node)) (t : ShardedCoinTree).
Context (Ht : sharded_of shape coins leaves t).
#[local] Notation f := (leaves_fun leaves).
#[local] Notation sb := (subtree_bits shape).

Lemma so_bits : (sb < 64)%nat /\ shape_validate shape = TOk ().
Proof.
  destruct (so_shape _ _ _ _ Ht) as (_ & H1 & H2). unfold shape_depth, MAX_DEPTH in *. split; [lia|].
  unfold shape_validate, shape_depth, MAX_DEPTH.
  rewrite !(proj2 (Nat.eqb_neq _ _)), (proj2 (Nat.ltb_ge _ _)) by lia. done.
Qed.

Lemma so_nonneg : Forall (fun c => 0 <= position c) coins.
Proof. eapply Forall_impl; [apply (so_range _ _ _ _ Ht)|]. cbn. lia. Qed.

(** The root a shard computes is the node of the tree over its range. *)
Lemma shard_subtree s : subtree_root context shape (shard_coins shape coins s) = TOk (subtree f sb s).
Proof.
  destruct so_bits as [Hb Hv]. pose proof so_nonneg as Hpos.
  destruct (local_leaves_spec shape coins s Hb leaves (so_leaves _ _ _ _ Ht) Hpos) as (ll & El & Hk & Hs).
  unfold subtree_root. rewrite Hv. cbn [mbind tree_bind]. rewrite El. cbn [mbind tree_bind].
  rewrite (fold_level_of context (zero_nodes context (shape_depth shape)) 0 (shape_depth shape)) with (f := leaves_fun ll).
  - cbn [Nat.add]. f_equal. replace s with (s * 2 ^ 0 + 0) by lia. rewrite subtree_shift. apply subtree_local. intros i Hi.
    unfold leaves_fun. rewrite Hs; [|lia]. replace (s * 2 ^ 0 + 0) with s by lia. done.
  - intros k Hk'. by apply zero_nodes_total.
  - unfold shape_depth. lia.
  - by eapply (local_keys_NoDup shape coins s Hb Hpos (so_positions _ _ _ _ Ht)).
  - done.
  - done.
Qed.

(** A list of subtree roots that names every shard with a coin. *)
Definition roots_of (roots : list (Z * Node)) : Prop :=
  NoDup (fst <$> roots) /\ (forall s r, (s, r) ∈ roots -> 0 <= s < shards shape /\
    subtree_root context shape (shard_coins shape coins s) = TOk r) /\
  forall c, c ∈ coins -> shard_of shape c ∈ fst <$> roots.

Lemma roots_level roots i : roots_of roots ->
  default (zero_tree context sb) (search roots i) = subtree f sb i.
Proof.
  intros (Hn & Hr & Hc). destruct (search roots i) as [r|] eqn:E.
  - apply search_elem, Hr in E as [_ E]. rewrite shard_subtree in E. injection E as <-. done.
  - cbn. symmetry. apply leaves_fun_empty. intros p Hp Hi.
    destruct (sharded_leaves_spec shape coins leaves (so_leaves _ _ _ _ Ht)) as (Ek & _).
    rewrite Ek in Hp. apply list_elem_of_fmap in Hp as (c & -> & Hin).
    apply search_None in E. apply E. replace i with (shard_of shape c); [by apply Hc|].
    destruct so_bits as [Hb _]. pose proof so_nonneg as Hpos. rewrite Forall_forall in Hpos.
    destruct (split_position_spec (position c) _ Hb (Hpos c Hin)) as (Ep & _ & Hl). fold (shard_of shape c) in *. nia.
Qed.

Lemma roots_range roots : roots_of roots -> existsb (fun e => shards shape <=? e.1) roots = false.
Proof.
  intros (_ & Hr & _). apply not_true_iff_false. rewrite existsb_exists. intros ([s r] & Hin%list_elem_of_In & Hs%Z.leb_le).
  apply Hr in Hin as [Hs' _]. cbn in Hs. lia.
Qed.

Lemma upper_zeros k : (k <= shard_bits shape)%nat ->
  drop sb (zero_nodes context (shape_depth shape)) !!! k = zero_tree context (sb + k).
Proof. intros Hk. apply zero_nodes_drop. unfold shape_depth. lia. Qed.

Lemma st_path_of n : forall level index, (level + n <= shape_depth shape)%nat ->
  st_path_from t level n index = path_from context f level n index.
Proof.
  induction n as [|n IH]; intros level index Hn; cbn [st_path_from path_from]; [done|]. rewrite IH by lia.
  unfold st_node. rewrite (so_zeros _ _ _ _ Ht), zero_nodes_total by lia.
  by destruct (so_levels _ _ _ _ Ht level ltac:(lia)) as [_ ->].
Qed.

Lemma fold_auth_path_of roots s : roots_of roots -> s < shards shape ->
  fold_auth_path context shape roots s = TOk (path_from context f sb (shard_bits shape) s).
Proof.
  intros Hroots Hs. destruct so_bits as [_ Hv]. unfold fold_auth_path. rewrite Hv, (proj2 (Z.ltb_lt _ _)) by done.
  cbn [tree_guard mbind tree_bind]. pose proof Hroots as (Hn & Hr & _).
  unfold sorted_level. rewrite (proj2 (sort_by_key_repeat fst Z.leb
    ltac:(intros *; rewrite ?Z.leb_gt, ?Z.leb_le; lia) ltac:(intros *; rewrite ?Z.leb_gt, ?Z.leb_le; lia)
    ltac:(intros *; rewrite ?Z.leb_gt, ?Z.leb_le; lia) roots) Hn). cbn [negb tree_guard mbind tree_bind].
  assert (existsb (fun e => shards shape <=? e.1) (sort_by_key fst Z.leb roots) = false) as ->.
  { apply not_true_iff_false. rewrite existsb_exists. intros ([s' r] & Hin%list_elem_of_In & Hs'%Z.leb_le).
    rewrite (sort_by_key_perm fst Z.leb roots) in Hin. apply Hr in Hin as [??]. cbn in Hs'. lia. }
  cbn [negb tree_guard mbind tree_bind]. f_equal.
  rewrite (upper_path_of context _ sb (shard_bits shape) upper_zeros f); [by rewrite Nat.add_0_r|lia|].
  rewrite Nat.add_0_r. split.
  - apply sorted_asc; [done|]. intros i ((s' & r) & -> & Hin)%list_elem_of_fmap. by apply Hr in Hin as [[??] _].
  - intros i. rewrite <- (roots_level roots i Hroots). f_equal. apply search_perm; [apply sort_by_key_perm|].
    by rewrite (sort_by_key_perm fst Z.leb roots).
Qed.

(** The leaf of a coin, its shard and its position. *)
Lemma coin_facts c : c ∈ coins -> exists o, from_identity_bytes (owner c) = Some o /\
  key_leaf context o (commitment c) = f (position c) /\ 0 <= position c < 2 ^ Z.of_nat (shape_depth shape) /\
  shard_of shape c < shards shape /\ Z.shiftr (position c) (Z.of_nat sb) = shard_of shape c.
Proof.
  intros Hc. destruct (sharded_leaves_spec shape coins leaves (so_leaves _ _ _ _ Ht)) as (Ek & Hsh & Hleaf).
  destruct (Hleaf c Hc) as (leaf & Eleaf & Hin). unfold coin_leaf in Eleaf.
  destruct (from_identity_bytes (owner c)) as [o|]; [|done]. injection Eleaf as <-. exists o. split; [done|].
  pose proof (so_range _ _ _ _ Ht) as Hrange. rewrite Forall_forall in Hsh, Hrange. destruct so_bits as [Hb _].
  split; [|split; [by apply Hrange|split; [by apply Hsh|]]].
  - unfold leaves_fun. rewrite (search_Some leaves (position c) _ ltac:(rewrite Ek; apply (so_positions _ _ _ _ Ht)) Hin). done.
  - unfold shard_of, split_position. by rewrite (proj2 (Nat.leb_gt _ _)) by lia.
Qed.

End Parts.

Lemma path_leads_up f o cm n p : (n <= MAX_DEPTH)%nat -> 0 <= p -> key_leaf context o cm = f p ->
  root_from_path context o cm (path_from context f 0 n p) = TOk (subtree f n (Z.shiftr p (Z.of_nat n))).
Proof.
  intros Hn Hp Hleaf. unfold root_from_path. destruct (path_from_length context f 0 n p) as [-> ->].
  rewrite Nat.eqb_refl, (proj2 (Nat.ltb_ge _ _)) by done. cbn [negb orb tree_guard mbind tree_bind].
  rewrite Hleaf. change (f p) with (subtree f 0 p). by rewrite climb_path, Nat.add_0_r.
Qed.

(** C7. The property the sharded accumulator rests on: every shard can compute its
    subtree root from its own coins, and folding any list of those roots that
    names each shard with a coin once gives the root of the tree built from all
    coins. *)
Theorem shards_fold_to_root shape coins t roots : sharded_build context shape coins = TOk t ->
  Forall (fun c => 0 <= position c) coins -> roots_of shape coins roots ->
  (forall s, exists r, subtree_root context shape (shard_coins shape coins s) = TOk r) /\
  fold_subtree_roots context shape roots = TOk (st_root t).
Proof.
  intros Hb Hpos Hroots. destruct (sharded_build_of shape coins t Hb Hpos) as (leaves & Ht).
  split; [intros s; eexists; by apply (shard_subtree shape coins leaves t)|].
  destruct (so_bits _ _ _ _ Ht) as [_ Hv]. unfold fold_subtree_roots. rewrite Hv, (roots_range _ _ _ Hroots).
  cbn [negb tree_guard mbind tree_bind]. pose proof Hroots as (Hn & Hr & _).
  rewrite (fold_level_of context _ (subtree_bits shape) (shard_bits shape) (upper_zeros shape) (leaves_fun leaves)).
  - rewrite (so_root _ _ _ _ Ht). unfold shape_depth. by rewrite Nat.add_comm.
  - lia.
  - done.
  - intros i ((s & r) & -> & Hin)%list_elem_of_fmap. by apply Hr in Hin as [Hs _].
  - intros i. by apply (roots_level shape coins leaves t).
Qed.

(** C11. Paths across shards: the path of a coin in the tree of all coins leads from
    its leaf to the application root; its lower part leads to the root of the
    coin's shard, and its upper part is what the shard roots alone give. *)
Theorem shard_paths_compose shape coins t roots : sharded_build context shape coins = TOk t ->
  Forall (fun c => 0 <= position c) coins -> roots_of shape coins roots ->
  forall c, c ∈ coins -> exists path upper owner_node,
    st_auth_path t (address c) = TOk path /\ from_identity_bytes (owner c) = Some owner_node /\
    root_from_path context owner_node (commitment c) path = TOk (st_root t) /\
    fold_auth_path context shape roots (shard_of shape c) = TOk upper /\
    siblings path = take (subtree_bits shape) (siblings path) ++ siblings upper /\
    right path = take (subtree_bits shape) (right path) ++ right upper /\
    subtree_root context shape (shard_coins shape coins (shard_of shape c))
    = root_from_path context owner_node (commitment c)
        (mkPath (take (subtree_bits shape) (siblings path)) (take (subtree_bits shape) (right path))).
Proof.
  intros Hb Hpos Hroots c Hc. destruct (sharded_build_of shape coins t Hb Hpos) as (leaves & Ht).
  destruct (so_shape _ _ _ _ Ht) as (Eshape & Hsb & Hdep).
  destruct (coin_facts shape coins leaves t Ht c Hc) as (o & Eo & Hlf & Hp & Hs & Hshift).
  set (f := leaves_fun leaves) in *.
  destruct (path_from_length context f 0 (subtree_bits shape) (position c)) as [L1 L2].
  assert (Epath : path_from context f 0 (shape_depth shape) (position c)
    = mkPath (siblings (path_from context f 0 (subtree_bits shape) (position c))
              ++ siblings (path_from context f (subtree_bits shape) (shard_bits shape) (shard_of shape c)))
             (right (path_from context f 0 (subtree_bits shape) (position c))
              ++ right (path_from context f (subtree_bits shape) (shard_bits shape) (shard_of shape c)))).
  { unfold shape_depth. rewrite Nat.add_comm, path_from_app by lia. by rewrite Hshift, Nat.add_0_r. }
  exists (path_from context f 0 (shape_depth shape) (position c)),
    (path_from context f (subtree_bits shape) (shard_bits shape) (shard_of shape c)), o.
  split; [|split; [done|split; [|split; [|rewrite Epath; cbn [siblings right]; rewrite !take_app_length' by done]]]].
  - unfold st_auth_path. rewrite (so_index _ _ _ _ Ht c Hc), Eshape. cbn.
    by rewrite (st_path_of shape coins leaves t Ht) by lia.
  - rewrite (path_leads_up f) by first [done|lia]. rewrite (so_root _ _ _ _ Ht), Z.shiftr_div_pow2, Z.div_small by lia. done.
  - by apply (fold_auth_path_of shape coins leaves t).
  - split; [done|]. split; [done|]. rewrite (shard_subtree shape coins leaves t Ht).
    replace (mkPath _ _) with (path_from context f 0 (subtree_bits shape) (position c)) by (by destruct (path_from _ _ _ _ _)).
    rewrite (path_leads_up f) by first [done|unfold shape_depth in *; lia]. by rewrite Hshift.
Qed.

End Roots.

Section Example.
#[local] Existing Instance small_hash.

Definition sample_shape : Shape := mkShape 2 2.
Definition shard_sample : list CoinRecord :=
  [mkCoin [x03] [x21] 5 9; mkCoin [x02] [x22] 9 0; mkCoin [x01] [x23] 7 1; mkCoin [x04] [x24] 1 8].
Definition sample_roots : list (Z * Node) := Eval vm_compute in
  match subtree_root [x07] sample_shape (shard_coins sample_shape shard_sample 0),
        subtree_root [x07] sample_shape (shard_coins sample_shape shard_sample 2) with
  | TOk a, TOk b => [(2, b); (0, a)]
  | _, _ => []
  end.

Lemma sample_roots_of : roots_of [x07] sample_shape shard_sample sample_roots.
Proof.
  split; [apply (bool_decide_unpack _); vm_compute; reflexivity|]. split.
  - intros s r. unfold sample_roots. rewrite !elem_of_cons.
    intros [[= -> ->]|[[= -> ->]|?%not_elem_of_nil]]; [split; [change (shards sample_shape) with 4; lia|vm_compute; reflexivity]..|done].
  - intros c. unfold shard_sample. rewrite !elem_of_cons.
    intros [->|[->|[->|[->|?%not_elem_of_nil]]]]; [apply (bool_decide_unpack _); vm_compute; reflexivity..|done].
Qed.

Lemma shards_fold_to_root_witness : exists t, sharded_build [x07] sample_shape shard_sample = TOk t /\
  (forall s, exists r, subtree_root [x07] sample_shape (shard_coins sample_shape shard_sample s) = TOk r) /\
  fold_subtree_roots [x07] sample_shape sample_roots = TOk (st_root t).
Proof.
  destruct (tree_ok_some (sharded_build [x07] sample_shape shard_sample)) as [t Ht]; [vm_compute; reflexivity|].
  exists t. split; [exact Ht|]. apply (shards_fold_to_root [x07] sample_shape shard_sample); [exact Ht| |apply sample_roots_of].
  repeat constructor; cbn; lia.
Defined.

Lemma shard_paths_compose_witness : exists t, sharded_build [x07] sample_shape shard_sample = TOk t /\
  forall c, c ∈ shard_sample -> exists path upper owner_node,
    st_auth_path t (address c) = TOk path /\ from_identity_bytes (owner c) = Some owner_node /\
    root_from_path [x07] owner_node (commitment c) path = TOk (st_root t) /\
    fold_auth_path [x07] sample_shape sample_roots (shard_of sample_shape c) = TOk upper /\
    siblings path = take 2 (siblings path) ++ siblings upper /\ right path = take 2 (right path) ++ right upper /\
    subtree_root [x07] sample_shape (shard_coins sample_shape shard_sample (shard_of sample_shape c))
    = root_from_path [x07] owner_node (commitment c) (mkPath (take 2 (siblings path)) (take 2 (right path))).
Proof.
  destruct (tree_ok_some (sharded_build [x07] sample_shape shard_sample)) as [t Ht]; [vm_compute; reflexivity|].
  exists t. split; [exact Ht|]. apply (shard_paths_compose [x07] sample_shape shard_sample); [exact Ht| |apply sample_roots_of].
  repeat constructor; cbn; lia.
Defined.

End Example.
