(* ===== verification/SparseFold.v ===== *)
(** * Folding nodes placed at different levels ([fold_sparse] of [sharded_tree.rs])

    Shards of different depth report nodes of different levels.  The fold is
    compared with [placed_tree], the tree in which a placed node stands for all
    that is below it and everything absent is zero. *)

From S2P Require Import Prelude Bytes MembershipTree CoinTree CoinWitness ShardedTree.

Section Placed.
Context `{MembershipHash} (context : list byte).
#[local] Notation parent := (key_parent context).
#[local] Notation subtree := (subtree context).

Fixpoint placed_tree (nodes : list (nat * Z * Node)) (level : nat) (index : Z) : Node :=
  match search nodes (level, index) with
  | Some node => node
  | None => match level with
            | O => node_zero
            | S l => parent (placed_tree nodes l (2 * index)) (placed_tree nodes l (2 * index + 1))
            end
  end.

(** What the levels below make of a position that holds no node itself. *)
Definition built (nodes : list (nat * Z * Node)) (level : nat) (index : Z) : Node :=
  match level with
  | O => node_zero
  | S l => parent (placed_tree nodes l (2 * index)) (placed_tree nodes l (2 * index + 1))
  end.

(** No position is given twice, and none lies in the subtree of another. *)
Definition overlap_free (nodes : list (nat * Z * Node)) : Prop :=
  NoDup (fst <$> nodes) /\
  forall l i l' i', (l, i) ∈ fst <$> nodes -> (l', i') ∈ fst <$> nodes -> (l < l')%nat -> i / 2 ^ Z.of_nat (l' - l) <> i'.

Lemma placed_tree_eq nodes level index :
  placed_tree nodes level index = default (built nodes level index) (search nodes (level, index)).
Proof. destruct level; cbn [placed_tree built]; by destruct (search nodes _). Qed.

(** ** Positions of a level *)

Lemma placed_at_search level nodes i : search (placed_at level nodes) i = search nodes (level, i).
Proof.
  induction nodes as [|[[l j] n] nodes IH]; [done|]. unfold placed_at. cbn [omap list_omap].
  rewrite search_cons. destruct (Nat.eqb_spec l level) as [->|Hne].
  - rewrite search_cons. fold (placed_at level nodes). rewrite IH. destruct (decide (j = i)) as [->|Hji]; [by rewrite decide_True|].
    rewrite decide_False; [done|congruence].
  - rewrite decide_False by congruence. apply IH.
Qed.

Lemma placed_at_keys level nodes i : i ∈ fst <$> placed_at level nodes <-> (level, i) ∈ fst <$> nodes.
Proof.
  destruct (search nodes (level, i)) as [n|] eqn:E.
  - split; intros _.
    + apply search_elem in E. apply list_elem_of_fmap. by exists (level, i, n).
    + rewrite <- placed_at_search in E. apply search_elem in E. apply list_elem_of_fmap. by exists (i, n).
  - pose proof E as E'. rewrite <- placed_at_search in E'. apply search_None in E, E'. naive_solver.
Qed.

Lemma placed_at_NoDup nodes : NoDup (fst <$> nodes) -> forall level, NoDup (fst <$> placed_at level nodes).
Proof.
  intros Hn level. induction nodes as [|[[l j] n] nodes IH]; [constructor|]. cbn in Hn. apply NoDup_cons in Hn as [Hj Hn].
  specialize (IH Hn). unfold placed_at. cbn [omap list_omap]. fold (placed_at level nodes).
  destruct (Nat.eqb_spec l level) as [->|]; [|done]. cbn. constructor; [|done]. by rewrite placed_at_keys.
Qed.

Lemma NoDup_placed_at nodes : (forall level, NoDup (fst <$> placed_at level nodes)) -> NoDup (fst <$> nodes).
Proof.
  intros Hn. induction nodes as [|[[l j] n] nodes IH]; [constructor|]. cbn. constructor.
  - specialize (Hn l). unfold placed_at in Hn. cbn [omap list_omap] in Hn. rewrite Nat.eqb_refl in Hn. cbn in Hn.
    apply NoDup_cons in Hn as [Hj _]. fold (placed_at l nodes) in Hj. by rewrite placed_at_keys in Hj.
  - apply IH. intros level. specialize (Hn level). unfold placed_at in Hn. cbn [omap list_omap] in Hn.
    fold (placed_at level nodes) in Hn. destruct (l =? level)%nat; [|done]. cbn in Hn. by apply NoDup_cons in Hn as [_ Hn].
Qed.

(** The ancestor one level further up. *)
Lemma ancestor_S i level l : (l <= level)%nat -> i / 2 ^ Z.of_nat (S level - l) = i / 2 ^ Z.of_nat (level - l) / 2.
Proof.
  intros Hl. rewrite Nat.sub_succ_l, Nat2Z.inj_succ, Z.pow_succ_r by lia.
  rewrite Z.div_div by first [lia|apply Z.pow_nonzero; lia]. f_equal. lia.
Qed.
Lemma child_half index c : c = 2 * index \/ c = 2 * index + 1 -> c / 2 = index.
Proof. intros [->| ->]; rewrite Z.mul_comm; [by apply Z.div_mul|]. by rewrite Z.add_comm, Z.div_add by lia. Qed.

(** Where nothing is placed, the tree is zero. *)
Lemma placed_tree_zero nodes level : forall index,
  (forall l i, (l, i) ∈ fst <$> nodes -> (l <= level)%nat -> i / 2 ^ Z.of_nat (level - l) <> index) ->
  placed_tree nodes level index = zero_tree context level.
Proof.
  induction level as [|level IH]; intros index Hno; rewrite placed_tree_eq.
  - rewrite (proj2 (search_None nodes (0%nat, index))); [done|]. intros Hin. apply (Hno _ _ Hin); [lia|]. by rewrite Z.div_1_r.
  - rewrite (proj2 (search_None nodes (S level, index))).
    2: { intros Hin. apply (Hno _ _ Hin); [lia|]. by rewrite Nat.sub_diag, Z.div_1_r. }
    cbn [default built]. rewrite zero_tree_S, !IH; [done|..]; intros l i Hin Hl E; apply (Hno l i Hin ltac:(lia));
      rewrite ancestor_S by lia; apply child_half; lia.
Qed.

(** ** The loop over the levels *)

(** What is carried into a level. *)
Record carries (nodes : list (nat * Z * Node)) (level : nat) (carried : list (Z * Node)) : Prop := {
  ca_asc : asc 0 carried;
  ca_value : forall i, default (zero_tree context level) (search carried i) = built nodes level i;
  ca_keys : forall i, i ∈ fst <$> carried <->
    exists l j, (l, j) ∈ fst <$> nodes /\ (l < level)%nat /\ i = j / 2 ^ Z.of_nat (level - l);
}.

(** No collision at a level: what is placed there is not above other nodes. *)
Definition level_free (nodes : list (nat * Z * Node)) (level : nat) : Prop :=
  NoDup (fst <$> placed_at level nodes) /\
  forall l i i', (l, i) ∈ fst <$> nodes -> (level, i') ∈ fst <$> nodes -> (l < level)%nat -> i / 2 ^ Z.of_nat (level - l) <> i'.

Lemma overlap_free_levels nodes : overlap_free nodes <-> forall level, level_free nodes level.
Proof.
  split.
  - intros [Hn Ho] level. split; [by apply placed_at_NoDup|]. intros l i i' Hi Hi' Hl. by apply Ho.
  - intros Hl. split; [apply NoDup_placed_at; intros level; apply Hl|].
    intros l i l' i' Hi Hi' Hll. by apply (Hl l').
Qed.

Lemma level_NoDup nodes level carried : carries nodes level carried ->
  NoDup (fst <$> placed_at level nodes ++ carried) <-> level_free nodes level.
Proof.
  intros Hc. rewrite fmap_app, NoDup_app. split.
  - intros (Hn & Hd & _). split; [done|]. intros l i i' Hi Hi' Hl E. apply (Hd i').
    + by apply placed_at_keys.
    + apply (ca_keys _ _ _ Hc). exists l, i. by split.
  - intros [Hn Hf]. split; [done|]. split; [|by apply (asc_NoDup 0), Hc].
    intros i Hi Hk. apply placed_at_keys in Hi. apply (ca_keys _ _ _ Hc) in Hk as (l & j & Hj & Hl & E). by eapply Hf.
Qed.

(** One round: with no collision the level is the tree's, and the next level is
    carried. *)
Lemma level_step nodes level carried zero : carries nodes level carried -> level_free nodes level ->
  (forall l i, (l, i) ∈ fst <$> nodes -> 0 <= i) -> zero = zero_tree context level ->
  let here := sort_by_key fst Z.leb (placed_at level nodes ++ carried) in
  sorted_level (placed_at level nodes ++ carried) None = TOk here /\
  sparse_of zero here (placed_tree nodes level) /\ carries nodes (S level) (fold_once context zero here).
Proof.
  intros Hc Hf Hpos -> here. pose proof (proj2 (level_NoDup _ _ _ Hc) Hf) as Hn.
  assert (forall i, i ∈ fst <$> here <-> (level, i) ∈ fst <$> nodes \/ i ∈ fst <$> carried) as Hkeys.
  { intros i. unfold here. rewrite (sort_by_key_perm fst Z.leb _), fmap_app, elem_of_app, placed_at_keys. done. }
  assert (asc 0 here) as Ha.
  { apply sorted_asc; [done|]. intros i. rewrite fmap_app, elem_of_app, placed_at_keys. intros [Hi|Hi]; [by eapply Hpos|].
    apply (asc_lower 0 _ _ (ca_asc _ _ _ Hc) Hi). }
  assert (forall i, search here i = match search nodes (level, i) with Some n => Some n | None => search carried i end) as Hs.
  { intros i. unfold here. rewrite (search_perm _ (placed_at level nodes ++ carried)); [|apply sort_by_key_perm|].
    2: { by rewrite (sort_by_key_perm fst Z.leb _). }
    rewrite <- placed_at_search. clear. induction (placed_at level nodes) as [|[a b] l IH]; [done|]. cbn [app].
    rewrite !search_cons, IH. by destruct (decide _). }
  assert (sparse_of (zero_tree context level) here (placed_tree nodes level)) as Hsp.
  { split; [done|]. intros i. rewrite Hs, placed_tree_eq, <- (ca_value _ _ _ Hc). by destruct (search nodes _). }
  split; [by apply sorted_level_ok|]. split; [done|].
  destruct (fold_once_sparse context _ _ _ Hsp) as [Ha' Hv']. split; [done| |].
  - intros i. rewrite zero_tree_S, Hv'. done.
  - intros i. rewrite fold_once_keys by done. split.
    + intros (j & Hj & ->). apply Hkeys in Hj as [Hj|Hj].
      * exists level, j. split; [done|]. split; [lia|]. by replace (S level - level)%nat with 1%nat by lia.
      * apply (ca_keys _ _ _ Hc) in Hj as (l & k & Hk & Hl & ->). exists l, k. split; [done|]. split; [lia|].
        by rewrite ancestor_S by lia.
    + intros (l & k & Hk & Hl & ->). destruct (decide (l = level)) as [->|Hne].
      * exists k. split; [apply Hkeys; by left|]. by replace (S level - level)%nat with 1%nat by lia.
      * exists (k / 2 ^ Z.of_nat (level - l)). split.
        -- apply Hkeys. right. apply (ca_keys _ _ _ Hc). exists l, k. split; [done|]. split; [lia|done].
        -- by rewrite ancestor_S by lia.
Qed.


Lemma sorted_level_err nodes : ~ NoDup (fst <$> nodes) -> sorted_level nodes None = TErr Position.
Proof.
  intros Hn. unfold sorted_level. destruct (adjacent_repeat fst (sort_by_key fst Z.leb nodes)) eqn:E; [done|].
  destruct Hn. apply (sort_by_key_repeat fst Z.leb) in E; [done|..]; intros *; rewrite ?Z.leb_gt, ?Z.leb_le; lia.
Qed.

Section Loop.
Context (nodes : list (nat * Z * Node)) (top : nat) (Htop : (1 <= top <= MAX_DEPTH)%nat).
Context (Hpos : forall l i, (l, i) ∈ fst <$> nodes -> 0 <= i).
#[local] Notation zeros := (zero_nodes context top).

Lemma sparse_levels_spec n : forall level carried, (level + n <= top)%nat -> carries nodes level carried ->
  match sparse_levels context zeros nodes level n carried with
  | TOk c => carries nodes (level + n) c /\ forall k, (level <= k < level + n)%nat -> level_free nodes k
  | TErr e => e = Position /\ exists k, (level <= k < level + n)%nat /\ ~ level_free nodes k
  end.
Proof.
  induction n as [|n IH]; intros level carried Hn Hc; cbn [sparse_levels].
  - rewrite Nat.add_0_r. split; [done|lia].
  - pose proof (level_NoDup _ _ _ Hc) as Hiff.
    destruct (decide (NoDup (fst <$> placed_at level nodes ++ carried))) as [Hnd|Hnd].
    + destruct (level_step nodes level carried (zeros !!! level) Hc (proj1 Hiff Hnd) Hpos) as (E & _ & Hc').
      { apply zero_nodes_total. lia. }
      rewrite E. cbn [mbind tree_bind]. specialize (IH (S level) _ ltac:(lia) Hc').
      replace (level + S n)%nat with (S level + n)%nat by lia. destruct (sparse_levels _ _ _ _ _ _).
      * destruct IH as [IH1 IH2]. split; [done|]. intros k Hk. destruct (decide (k = level)) as [->|]; [by apply Hiff|].
        apply IH2. lia.
      * destruct IH as [-> (k & Hk & Hf)]. split; [done|]. exists k. split; [lia|done].
    + rewrite sorted_level_err by done. cbn. split; [done|]. exists level. split; [lia|]. by rewrite <- Hiff.
Qed.

Lemma first_level_spec : match first_level nodes with
  | None => nodes = []
  | Some start => (exists i, (start, i) ∈ fst <$> nodes) /\ forall l i, (l, i) ∈ fst <$> nodes -> (start <= l)%nat
  end.
Proof.
  unfold first_level. destruct nodes as [|e es]; [done|]. clear. revert e. induction es as [|e' es IH]; intros e; cbn [foldr].
  - split; [exists e.1.2; destruct e as [[??]?]; left|]. intros l i Hi. apply list_elem_of_singleton in Hi.
    destruct e as [[??]?]. cbn in Hi. injection Hi as -> ->. done.
  - destruct (IH e) as [[i Hi] Hmin]. split.
    + destruct (Nat.min_spec e'.1.1 (foldr (fun e m => Nat.min e.1.1 m) e.1.1 es)) as [[_ ->]|[_ ->]].
      * exists e'.1.2. destruct e' as [[??]?]. right. left.
      * exists i. cbn in Hi |- *. apply elem_of_cons in Hi as [->|Hi]; [left|by do 2 right].
    + intros l j Hj. cbn in Hj. apply elem_of_cons in Hj as [Hj|[Hj|Hj]%elem_of_cons].
      * specialize (Hmin l j). cbn in Hmin. rewrite Hj in Hmin. specialize (Hmin ltac:(left)). lia.
      * destruct e' as [[??]?]. cbn in Hj. injection Hj as -> ->. cbn. lia.
      * specialize (Hmin l j ltac:(by right)). lia.
Qed.

Lemma carries_start start : (forall l i, (l, i) ∈ fst <$> nodes -> (start <= l)%nat) -> carries nodes start [].
Proof.
  intros Hmin. split; [done| |].
  - intros i. cbn. destruct start as [|l]; [done|]. cbn [built]. rewrite zero_tree_S, !placed_tree_zero; [done|..];
      intros l' i' Hin Hl; specialize (Hmin l' i' Hin); lia.
  - intros i. split; [by intros ?%not_elem_of_nil|]. intros (l & j & Hin & Hl & _). specialize (Hmin l j Hin). lia.
Qed.

Lemma in_place_spec : forallb (in_place top) nodes = true <->
  forall l i, (l, i) ∈ fst <$> nodes -> (l < top)%nat /\ i < 2 ^ Z.of_nat (top - l).
Proof.
  rewrite forallb_forall. split.
  - intros Hin l i (((l' & i') & n) & [= -> ->] & He)%list_elem_of_fmap. apply list_elem_of_In, Hin in He.
    unfold in_place in He. apply andb_true_iff in He as [H1%Nat.ltb_lt H2%Z.ltb_lt]. done.
  - intros Hin [[l i] n] He%list_elem_of_In. unfold in_place.
    destruct (Hin l i) as [H1 H2]; [apply list_elem_of_fmap; by exists (l, i, n)|].
    by rewrite (proj2 (Nat.ltb_lt _ _)), (proj2 (Z.ltb_lt _ _)).
Qed.

(** Levels without nodes are free. *)
Lemma level_free_empty k : (forall i, (k, i) ∉ fst <$> nodes) -> level_free nodes k.
Proof.
  intros Hk. split.
  - assert (placed_at k nodes = []) as ->; [|constructor]. destruct (placed_at k nodes) as [|[i n] rest] eqn:E; [done|].
    destruct (Hk i). apply placed_at_keys. rewrite E. left.
  - intros l i i' _ Hi'. by destruct (Hk i').
Qed.

Lemma carries_top c : (forall l i, (l, i) ∈ fst <$> nodes -> (l < top)%nat /\ i < 2 ^ Z.of_nat (top - l)) ->
  carries nodes top c ->
  match c with
  | [] => TOk (zeros !!! top)
  | [(0, node)] => TOk node
  | _ => TErr Position
  end = TOk (placed_tree nodes top 0).
Proof.
  intros Hin [Ha Hv Hk].
  assert (forall i, i ∈ fst <$> c -> i = 0) as Hzero.
  { intros i (l & j & Hj & Hl & ->)%Hk. apply Z.div_small. split; [by eapply Hpos|]. by apply Hin. }
  rewrite placed_tree_eq, (proj2 (search_None nodes (top, 0))) by (intros [Hl _]%Hin; lia). cbn [default].
  rewrite <- (Hv 0). destruct c as [|[i n] [|[j m] rest]].
  - by rewrite zero_nodes_total by lia.
  - rewrite (Hzero i) by left. by rewrite search_here.
  - assert (i = 0) by (apply Hzero; left). assert (j = 0) by (apply Hzero; right; left). cbn in Ha. lia.
Qed.

(** The fold is accepted exactly when the nodes lie in the tree and do not
    overlap, and then it is the tree they stand for. *)
Lemma fold_sparse_cases :
  ((forallb (in_place top) nodes = true /\ overlap_free nodes) /\
   fold_sparse context top nodes = TOk (placed_tree nodes top 0)) \/
  (~ (forallb (in_place top) nodes = true /\ overlap_free nodes) /\ fold_sparse context top nodes = TErr Position).
Proof.
  unfold fold_sparse. rewrite !(proj2 (Nat.eqb_neq _ _)), (proj2 (Nat.ltb_ge _ _)) by lia.
  cbn [orb negb tree_guard mbind tree_bind]. destruct (forallb (in_place top) nodes) eqn:Ep.
  2: { right. cbn. split; [|done]. by intros [? _]. }
  pose proof (proj1 in_place_spec Ep) as Hin. cbn [tree_guard mbind tree_bind].
  pose proof first_level_spec as Hfirst. destruct (first_level nodes) as [start|].
  - destruct Hfirst as [[i0 Hi0] Hmin]. destruct (Hin _ _ Hi0) as [Hst _].
    pose proof (sparse_levels_spec (top - start) start [] ltac:(lia) (carries_start start Hmin)) as Hs.
    replace (start + (top - start))%nat with top in Hs by lia.
    destruct (sparse_levels _ _ _ _ _ _) as [c|e]; cbn [mbind tree_bind].
    + destruct Hs as [Hc Hfree]. left. split; [|by apply carries_top]. split; [done|]. apply overlap_free_levels. intros k.
      destruct (decide (start <= k < top)%nat) as [Hk|Hk]; [by apply Hfree|]. apply level_free_empty. intros i Hi.
      destruct (Hin _ _ Hi). specialize (Hmin _ _ Hi). lia.
    + destruct Hs as [-> (k & Hk & Hf)]. right. split; [|done]. intros [_ Ho]. by apply Hf, overlap_free_levels.
  - subst nodes. left. split; [split; [done|]; split; [constructor|by intros ? ? ? ? ?%not_elem_of_nil]|].
    rewrite zero_nodes_total by lia. f_equal. symmetry. apply placed_tree_zero. by intros ? ? ?%not_elem_of_nil.
Qed.

(** The path from a node: its siblings are the tree's, and it leads up as long as
    no node is placed above. *)
Lemma sparse_path_spec mine n : forall level carried index, (level + n <= top)%nat -> carries nodes level carried ->
  (forall k, (level <= k < level + n)%nat -> level_free nodes k) -> 0 <= index ->
  (forall k i, (Nat.max level mine < k <= level + n)%nat -> (k, i) ∈ fst <$> nodes ->
    index / 2 ^ Z.of_nat (k - Nat.max level mine) <> i) ->
  exists p, sparse_path context zeros nodes mine level n index carried = TOk p /\
    length (siblings p) = (level + n - Nat.max level mine)%nat /\ length (right p) = length (siblings p) /\
    climb context (placed_tree nodes (Nat.max level mine) index) p
    = placed_tree nodes (Nat.max (level + n) mine) (index / 2 ^ Z.of_nat (level + n - Nat.max level mine)).
Proof.
  induction n as [|n IH]; intros level carried index Hn Hc Hfree Hi Hup; cbn [sparse_path].
  - exists (mkPath [] []). rewrite Nat.add_0_r. replace (level - Nat.max level mine)%nat with 0%nat by lia. by rewrite Z.div_1_r.
  - destruct (level_step nodes level carried (zeros !!! level) Hc (Hfree level ltac:(lia)) Hpos) as (E & [_ Hv] & Hc').
    { apply zero_nodes_total. lia. }
    rewrite E. cbn [mbind tree_bind]. destruct (Nat.leb_spec mine level) as [Hm|Hm].
    + replace (Nat.max level mine) with level in * by lia. destruct (index_cases index) as [Es Ei].
      destruct (IH (S level) _ (Z.shiftr index 1) ltac:(lia) Hc') as (p & Ep & L1 & L2 & Hclimb).
      { intros k Hk. apply Hfree. lia. }
      { apply Z.shiftr_nonneg. lia. }
      { intros k i Hk Hin. replace (Nat.max (S level) mine) with (S level) in * by lia. rewrite Es.
        pose proof (Hup k i ltac:(lia) Hin) as Hne.
        rewrite Z.div_div by first [lia|apply Z.pow_nonzero; lia]. rewrite <- Z.pow_succ_r, <- Nat2Z.inj_succ by lia.
        by replace (S (k - S level)) with (k - level)%nat by lia. }
      rewrite Ep. cbn [mbind tree_bind]. eexists. split; [done|]. cbn [siblings right length].
      replace (Nat.max (S level) mine) with (S level) in * by lia. split; [lia|]. split; [congruence|].
      unfold climb in *. cbn [zip foldl siblings right]. rewrite Hv.
      assert (climb_step context (placed_tree nodes level index) (placed_tree nodes level (Z.lxor index 1), Z.odd index)
        = placed_tree nodes (S level) (Z.shiftr index 1)) as ->.
      { rewrite (placed_tree_eq nodes (S level)), (proj2 (search_None nodes (S level, Z.shiftr index 1))).
        2: { intros Hin. apply (Hup (S level) _ ltac:(lia) Hin). rewrite Es. by replace (S level - level)%nat with 1%nat by lia. }
        unfold climb_step. cbn [fst snd default built]. rewrite Es. revert Ei. generalize (index / 2). intros k Ei.
        by destruct (Z.odd index); destruct Ei as [-> ->]. }
      rewrite Hclimb, Es. replace (S level + n)%nat with (level + S n)%nat by lia. f_equal.
      rewrite Z.div_div by first [lia|apply Z.pow_nonzero; lia]. rewrite <- Z.pow_succ_r, <- Nat2Z.inj_succ by lia.
      by replace (S (level + S n - S level)) with (level + S n - level)%nat by lia.
    + replace (level + S n)%nat with (S level + n)%nat in * by lia.
      replace (Nat.max level mine) with (Nat.max (S level) mine) in * by lia. apply IH; try done; try lia.
      intros k Hk. apply Hfree. lia.
Qed.

Lemma fold_sparse_path_of mine : forallb (in_place top) nodes = true -> overlap_free nodes -> mine ∈ fst <$> nodes ->
  exists p, fold_sparse_auth_path context top nodes mine = TOk p /\ length (siblings p) = (top - mine.1)%nat /\
    length (right p) = length (siblings p) /\
    climb context (placed_tree nodes mine.1 mine.2) p = placed_tree nodes top 0.
Proof.
  intros Hin Hfree Hm. destruct mine as [ml mi]. cbn [fst snd].
  pose proof (proj1 in_place_spec Hin) as Hpl. destruct (Hpl _ _ Hm) as [Hml Hmi].
  unfold fold_sparse_auth_path. cbn [fst snd].
  rewrite !(proj2 (Nat.eqb_neq _ _)), (proj2 (Nat.ltb_ge _ _)), (proj2 (Nat.leb_gt _ _)) by lia.
  assert (existsb (fun e => bool_decide (e.1 = (ml, mi))) nodes = true) as ->.
  { apply list_elem_of_fmap in Hm as (e & E & He). apply existsb_exists. exists e. split; [by apply list_elem_of_In|].
    by apply bool_decide_eq_true_2. }
  cbn [orb negb tree_guard mbind tree_bind]. rewrite Hin. cbn [tree_guard mbind tree_bind].
  pose proof first_level_spec as Hfirst. destruct (first_level nodes) as [start|]; [|subst; by apply not_elem_of_nil in Hm].
  destruct Hfirst as [_ Hmin]. pose proof (Hmin _ _ Hm) as Hst.
  destruct (sparse_path_spec ml (top - start) start [] mi ltac:(lia) (carries_start start Hmin)) as (p & Ep & L1 & L2 & Hc).
  - intros k _. by apply overlap_free_levels.
  - by eapply Hpos.
  - intros k i Hk Hki. replace (Nat.max start ml) with ml in * by lia. apply Hfree; [done..|lia].
  - exists p. replace (Nat.max start ml) with ml in * by lia. replace (start + (top - start))%nat with top in * by lia.
    replace (Nat.max top ml) with top in * by lia. split; [done|]. split; [done|]. split; [done|].
    rewrite Hc, Z.div_small; [done|]. split; [by eapply Hpos|done].
Qed.

End Loop.

(** ** Nodes of one tree *)

(** Nodes that are nodes of the tree of [f] and cover its leaves stand for it. *)
Lemma placed_tree_cover f nodes top : (forall l i n, (l, i, n) ∈ nodes -> n = subtree f l i) ->
  (forall p, f p <> node_zero -> exists l i, (l, i) ∈ fst <$> nodes /\ p / 2 ^ Z.of_nat l = i) ->
  forall level index, (forall l i, (l, i) ∈ fst <$> nodes -> (level < l)%nat -> index / 2 ^ Z.of_nat (l - level) <> i) ->
  (level <= top)%nat -> placed_tree nodes level index = subtree f level index.
Proof.
  intros Hn Hc. induction level as [|level IH]; intros index Hup Ht; rewrite placed_tree_eq.
  - destruct (search nodes (0%nat, index)) as [n|] eqn:E; [apply search_elem, Hn in E as ->; done|]. cbn.
    destruct (decide (f index = node_zero)) as [->|Hf]; [done|]. destruct (Hc index Hf) as (l & i & Hin & Ei).
    apply search_None in E. destruct l as [|l].
    + rewrite Z.div_1_r in Ei. subst. by destruct E.
    + by destruct (Hup _ _ Hin ltac:(lia)).
  - destruct (search nodes (S level, index)) as [n|] eqn:E; [apply search_elem, Hn in E as ->; done|]. apply search_None in E.
    assert (forall c, c = 2 * index \/ c = 2 * index + 1 -> forall l i, (l, i) ∈ fst <$> nodes -> (level < l)%nat ->
      c / 2 ^ Z.of_nat (l - level) <> i) as Hchild.
    { intros c Hcase l i Hin Hl Ec. replace (l - level)%nat with (S (l - S level)) in Ec by lia.
      rewrite Nat2Z.inj_succ, Z.pow_succ_r, <- Z.div_div, (child_half index c) in Ec by
        first [lia|done|apply Z.pow_pos_nonneg; lia|apply Z.pow_nonzero; lia].
      destruct (decide (l = S level)) as [->|]; [|by apply (Hup l i Hin ltac:(lia))].
      rewrite Nat.sub_diag, Z.div_1_r in Ec. subst. by destruct E. }
    cbn [default built MembershipTree.subtree]. rewrite !IH; [done|apply Hchild; lia|lia|apply Hchild; lia|lia].
Qed.

Lemma fold_sparse_of_tree f top nodes : (1 <= top <= MAX_DEPTH)%nat -> (forall l i, (l, i) ∈ fst <$> nodes -> 0 <= i) ->
  forallb (in_place top) nodes = true -> overlap_free nodes -> (forall l i n, (l, i, n) ∈ nodes -> n = subtree f l i) ->
  (forall p, f p <> node_zero -> exists l i, (l, i) ∈ fst <$> nodes /\ p / 2 ^ Z.of_nat l = i) ->
  fold_sparse context top nodes = TOk (subtree f top 0).
Proof.
  intros Htop Hpos Hin Hfree Hn Hc. destruct (fold_sparse_cases nodes top Htop Hpos) as [[_ ->]|[Hno _]]; [|by destruct Hno].
  f_equal. apply (placed_tree_cover f nodes top Hn Hc); [|lia].
  intros l i Hl Hlt. destruct (proj1 (in_place_spec nodes top) Hin _ _ Hl). lia.
Qed.

(** C10. Shards at different depths: nodes placed at different levels are folded
    exactly when they lie in the tree and none is given twice or lies in the
    subtree of another; the result is the tree they stand for, every placed node
    has a path that leads to it, and when the nodes are nodes of one tree that
    cover its leaves, it is that tree's root. *)
Theorem sparse_fold_exact top nodes : (1 <= top <= MAX_DEPTH)%nat -> (forall l i, (l, i) ∈ fst <$> nodes -> 0 <= i) ->
  (~ (forallb (in_place top) nodes = true /\ overlap_free nodes) -> fold_sparse context top nodes = TErr Position) /\
  (forallb (in_place top) nodes = true -> overlap_free nodes ->
   fold_sparse context top nodes = TOk (placed_tree nodes top 0) /\
   (forall l i n, (l, i, n) ∈ nodes -> exists p, fold_sparse_auth_path context top nodes (l, i) = TOk p /\
      length (siblings p) = (top - l)%nat /\ climb context n p = placed_tree nodes top 0) /\
   forall f, (forall l i n, (l, i, n) ∈ nodes -> n = subtree f l i) ->
     (forall p, f p <> node_zero -> exists l i, (l, i) ∈ fst <$> nodes /\ p / 2 ^ Z.of_nat l = i) ->
     fold_sparse context top nodes = TOk (subtree f top 0)).
Proof.
  intros Htop Hpos. destruct (fold_sparse_cases nodes top Htop Hpos) as [[[Hin Hfree] E]|[Hno E]].
  - split; [by intros []|]. intros _ _. split; [done|]. split.
    + intros l i n Hn. assert ((l, i) ∈ fst <$> nodes) as Hk by (apply list_elem_of_fmap; by exists (l, i, n)).
      destruct (fold_sparse_path_of nodes top Htop Hpos (l, i) Hin Hfree Hk) as (p & Ep & L1 & _ & Hc). exists p.
      split; [done|]. split; [done|]. rewrite <- Hc. cbn [fst snd]. f_equal.
      rewrite placed_tree_eq, (search_Some nodes (l, i) n); [done|apply Hfree|done].
    + intros f Hn Hc. by apply fold_sparse_of_tree.
  - split; [done|]. intros Hin Hfree. by destruct Hno.
Qed.

End Placed.

Section Example.
#[local] Existing Instance small_hash.

Definition sample_nodes : list (nat * Z * Node) := [((1%nat, 0), x11); ((0%nat, 5), x22); ((2%nat, 2), x33)].

Lemma sample_nodes_free : overlap_free sample_nodes.
Proof.
  split; [apply (bool_decide_unpack _); vm_compute; reflexivity|].
  intros l i l' i'. unfold sample_nodes. cbn [fmap list_fmap fst]. rewrite !elem_of_cons.
  intros [[= -> ->]|[[= -> ->]|[[= -> ->]|?%not_elem_of_nil]]] [[= -> ->]|[[= -> ->]|[[= -> ->]|?%not_elem_of_nil]]] Hl; done || lia.
Qed.

Lemma sparse_fold_exact_witness :
  fold_sparse [x07] 4 sample_nodes = TOk (placed_tree [x07] sample_nodes 4 0) /\
  (forall l i n, (l, i, n) ∈ sample_nodes -> exists p, fold_sparse_auth_path [x07] 4 sample_nodes (l, i) = TOk p /\
     length (siblings p) = (4 - l)%nat /\ climb [x07] n p = placed_tree [x07] sample_nodes 4 0) /\
  forall f, (forall l i n, (l, i, n) ∈ sample_nodes -> n = subtree [x07] f l i) ->
    (forall p, f p <> node_zero -> exists l i, (l, i) ∈ fst <$> sample_nodes /\ p / 2 ^ Z.of_nat l = i) ->
    fold_sparse [x07] 4 sample_nodes = TOk (subtree [x07] f 4 0).
Proof.
  apply (sparse_fold_exact [x07] 4 sample_nodes); [unfold MAX_DEPTH; lia| |reflexivity|apply sample_nodes_free].
  intros l i. unfold sample_nodes. cbn [fmap list_fmap fst]. rewrite !elem_of_cons.
  intros [[= -> ->]|[[= -> ->]|[[= -> ->]|?%not_elem_of_nil]]]; done || lia.
Defined.

End Example.
