(* ===== verification/CoinBlocks.v ===== *)
(** * Blocks of the accumulator and their owners ([token_intrinsic/coin_blocks.rs])

    A position is a block and a local index; a block id carries the width it was
    created at as a sentinel bit, and the path below the sentinel says which
    shard owns it.  Widths are [nat], ids and positions 64-bit integers in [Z],
    bit paths lists of booleans, most significant first. *)

From S2P Require Import Prelude Bytes MembershipTree CoinTree ShardedTree ShardedRoots.

Definition MAX_BLOCK_BITS : nat := 15.
Definition SUBTREE_BITS : nat := 16.
Definition INITIAL_BLOCK_BITS : nat := 6.
Definition BLOCK_INDEX_BITS : nat := MAX_BLOCK_BITS + 1.
Definition DEPTH : nat := BLOCK_INDEX_BITS + SUBTREE_BITS.

Definition invalid {A} : result A := Err InvalidArgument.

Definition shape (block_bits : nat) : result Shape :=
  if (block_bits <? INITIAL_BLOCK_BITS)%nat || (MAX_BLOCK_BITS <? block_bits)%nat then invalid
  else Ok (mkShape BLOCK_INDEX_BITS SUBTREE_BITS).

Definition blocks (block_bits : nat) : Z := 2 ^ Z.of_nat block_bits.

(** The addition is checked on a [u8]. *)
Definition grown (block_bits : nat) : result nat :=
  if (255 <? S block_bits)%nat then invalid else _ ← shape (S block_bits); Ok (S block_bits).

Definition max_position : Z := 2 ^ Z.of_nat (BLOCK_INDEX_BITS + SUBTREE_BITS).

Definition block_id (width : nat) (path_value : Z) : result Z :=
  if (width <? INITIAL_BLOCK_BITS)%nat || (MAX_BLOCK_BITS <? width)%nat || (2 ^ Z.of_nat width <=? path_value) then invalid
  else Ok (Z.lor (2 ^ Z.of_nat width) path_value).

Definition leading_zeros (z : Z) : Z := if z =? 0 then 64 else 63 - Z.log2 z.
Definition creation_width (block : Z) : nat := Z.to_nat (63 - Z.min (leading_zeros block) 63).

(** The [width] low bits, most significant first. *)
Fixpoint path_bits (path : Z) (width : nat) : list bool :=
  match width with O => [] | S w => Z.odd (Z.shiftr path (Z.of_nat w)) :: path_bits path w end.
Definition block_path (block : Z) : list bool :=
  let width := creation_width block in
  path_bits (Z.land block (2 ^ Z.of_nat width - 1)) width.

Definition bits_value (bits : list bool) : Z :=
  foldl (fun acc (bit : bool) => Z.lor (Z.shiftl acc 1) (if bit then 1 else 0)) 0 bits.

(** The leading bits of a 32-byte address, most significant first; reading past
    its end is out of bounds. *)
Fixpoint address_bits (address : list byte) (bit n : nat) : result (list bool) :=
  match n with
  | O => Ok []
  | S n =>
      match address !! (bit / 8)%nat with
      | None => Panic
      | Some b => rest ← address_bits address (S bit) n;
                  Ok (Z.odd (Z.shiftr (byte_val b) (Z.of_nat (7 - bit mod 8))) :: rest)
      end
  end.
Definition block_for_address (width : nat) (address : list byte) : result Z :=
  bits ← address_bits address 0 width; block_id width (bits_value bits).

Definition shard_owns_block (prefix : list bool) (block : Z) : bool :=
  let path := block_path block in
  (length prefix <=? length path)%nat && forallb (fun '(a, b) => Bool.eqb a b) (zip prefix path).

Definition zrange (n : Z) : list Z := Z.of_nat <$> seq 0 (Z.to_nat n).
Definition owned_blocks (shard : list bool) (max_width : nat) : list Z :=
  let prefix := bits_value shard in
  base.filter (fun width => length shard <= width)%nat
    (seq INITIAL_BLOCK_BITS (S (Nat.min max_width MAX_BLOCK_BITS) - INITIAL_BLOCK_BITS))
  ≫= fun width =>
    let free := (width - length shard)%nat in
    (fun rest => Z.lor (Z.lor (2 ^ Z.of_nat width) (Z.shiftl prefix (Z.of_nat free))) rest) <$> zrange (2 ^ Z.of_nat free).

Definition is_allocated_width (block_bits : nat) (block : Z) : bool :=
  let width := creation_width block in
  (0 <? block) && (INITIAL_BLOCK_BITS <=? width)%nat && (width <=? block_bits)%nat.

Definition block_position (block_bits : nat) (block local : Z) : result Z :=
  if negb (is_allocated_width block_bits block) then invalid
  else match position_of block local SUBTREE_BITS with TOk p => Ok p | TErr _ => invalid end.

Definition locate (position : Z) : Z * Z := split_position position SUBTREE_BITS.

Definition check_position (shard_prefix : list bool) (position : Z) : result unit :=
  if shard_owns_block shard_prefix (locate position).1 then Ok () else invalid.

(** ** Ids and paths *)

Lemma bits_value_app a b : bits_value (a ++ b) = bits_value a * 2 ^ Z.of_nat (length b) + bits_value b.
Proof.
  unfold bits_value. rewrite foldl_app.
  assert (forall acc c, 0 <= acc -> foldl (fun acc (bit : bool) => Z.lor (Z.shiftl acc 1) (if bit then 1 else 0)) acc c
    = acc * 2 ^ Z.of_nat (length c) + foldl (fun acc (bit : bool) => Z.lor (Z.shiftl acc 1) (if bit then 1 else 0)) 0 c /\
    0 <= foldl (fun acc (bit : bool) => Z.lor (Z.shiftl acc 1) (if bit then 1 else 0)) acc c) as Hgo.
  { intros acc c. revert acc. induction c as [|x c IH]; intros acc Hacc; cbn [foldl length]; [split; lia|].
    rewrite (lor_shiftl_add acc) by (destruct x; lia). rewrite (lor_shiftl_add 0) by (destruct x; lia).
    destruct (IH (acc * 2 ^ 1 + (if x then 1 else 0))) as [E1 P1]; [destruct x; lia|].
    destruct (IH (0 * 2 ^ 1 + (if x then 1 else 0))) as [E2 _]; [destruct x; lia|].
    split; [|done]. rewrite E1, E2, Nat2Z.inj_succ, Z.pow_succ_r by lia. destruct x; lia. }
  apply Hgo. by apply (Hgo 0 a).
Qed.

Lemma bits_value_cons x b : bits_value (x :: b) = (if x then 1 else 0) * 2 ^ Z.of_nat (length b) + bits_value b.
Proof. change (x :: b) with ([x] ++ b). rewrite bits_value_app. destruct x; done. Qed.

Lemma bits_value_range b : 0 <= bits_value b < 2 ^ Z.of_nat (length b).
Proof.
  induction b as [|x b IH]; [cbn; lia|]. rewrite bits_value_cons. cbn [length].
  rewrite Nat2Z.inj_succ, Z.pow_succ_r by lia. destruct x; lia.
Qed.

Lemma bits_value_inj a b : length a = length b -> bits_value a = bits_value b -> a = b.
Proof.
  revert b. induction a as [|x a IH]; intros [|y b] Hl Hv; try done. injection Hl as Hl.
  rewrite !bits_value_cons, Hl in Hv. pose proof (bits_value_range a). pose proof (bits_value_range b). rewrite Hl in *.
  assert (x = y) as -> by (destruct x, y; lia). f_equal. apply IH; [done|]. destruct y; lia.
Qed.

Lemma path_bits_length p w : length (path_bits p w) = w.
Proof. induction w; cbn; congruence. Qed.

Lemma path_bits_value p w : bits_value (path_bits p w) = p mod 2 ^ Z.of_nat w.
Proof.
  induction w as [|w IH]; [cbn; by rewrite Z.mod_1_r|]. cbn [path_bits].
  rewrite bits_value_cons, path_bits_length, IH, Nat2Z.inj_succ, Z.pow_succ_r, (Z.mul_comm 2), Z.rem_mul_r by
    first [lia|apply Z.pow_nonzero; lia|apply Z.pow_pos_nonneg; lia].
  rewrite Z.shiftr_div_pow2, Zmod_odd by lia. destruct (Z.odd _); lia.
Qed.

Lemma creation_width_log2 b : 0 <= b < 2 ^ 64 -> creation_width b = Z.to_nat (Z.log2 b).
Proof.
  intros Hb. unfold creation_width, leading_zeros. destruct (Z.eqb_spec b 0) as [->|]; [done|].
  pose proof (Z.log2_nonneg b). assert (Z.log2 b < 64) by (apply Z.log2_lt_pow2; lia). f_equal. lia.
Qed.

(** An id with its sentinel bit. *)
Definition sentinel (w : nat) (p : Z) : Z := 2 ^ Z.of_nat w + p.

Lemma sentinel_lor w p : 0 <= p < 2 ^ Z.of_nat w -> Z.lor (2 ^ Z.of_nat w) p = sentinel w p.
Proof.
  intros Hp. unfold sentinel. replace (2 ^ Z.of_nat w) with (Z.shiftl 1 (Z.of_nat w)) at 1 by (by rewrite Z.shiftl_1_l).
  rewrite lor_shiftl_add by lia. lia.
Qed.

Lemma sentinel_width w p : (w < 64)%nat -> 0 <= p < 2 ^ Z.of_nat w -> creation_width (sentinel w p) = w.
Proof.
  intros Hw Hp. assert (0 < 2 ^ Z.of_nat w <= 2 ^ 63) by (split; [lia|apply Z.pow_le_mono_r; lia]).
  unfold sentinel. rewrite creation_width_log2 by lia. rewrite (Z.log2_unique' _ (Z.of_nat w) p) by lia. lia.
Qed.

Lemma sentinel_path w p : (w < 64)%nat -> 0 <= p < 2 ^ Z.of_nat w ->
  length (block_path (sentinel w p)) = w /\ bits_value (block_path (sentinel w p)) = p.
Proof.
  intros Hw Hp. unfold block_path. rewrite sentinel_width by done. rewrite path_bits_length, path_bits_value. split; [done|].
  replace (2 ^ Z.of_nat w - 1) with (Z.ones (Z.of_nat w)) by (rewrite Z.ones_equiv; lia).
  rewrite Z.land_ones, Z.mod_mod by lia. unfold sentinel.
  replace (2 ^ Z.of_nat w + p) with (p + 1 * 2 ^ Z.of_nat w) by lia. rewrite Z.mod_add by lia. apply Z.mod_small. lia.
Qed.

(** Every nonzero id is the sentinel of its width over its path. *)
Lemma block_sentinel b : 0 < b < 2 ^ 64 ->
  b = sentinel (creation_width b) (bits_value (block_path b)) /\ (creation_width b < 64)%nat /\
  length (block_path b) = creation_width b.
Proof.
  intros Hb. assert (Z.log2 b < 64) by (apply Z.log2_lt_pow2; lia). pose proof (Z.log2_nonneg b).
  assert (creation_width b = Z.to_nat (Z.log2 b)) as Ew by (apply creation_width_log2; lia).
  pose proof (Z.log2_spec b ltac:(lia)) as Hs. rewrite Z.pow_succ_r in Hs by lia.
  assert (0 <= b - 2 ^ Z.log2 b < 2 ^ Z.of_nat (creation_width b)) as Hp by (rewrite Ew, Z2Nat.id; lia).
  assert (b = sentinel (creation_width b) (b - 2 ^ Z.log2 b)) as E by (unfold sentinel; rewrite Ew, Z2Nat.id; lia).
  destruct (sentinel_path (creation_width b) (b - 2 ^ Z.log2 b) ltac:(lia) Hp) as [Hl Hv]. rewrite <- E in Hl, Hv.
  split; [|split; [lia|done]]. by rewrite Hv.
Qed.

Lemma allocated_spec w b : 0 <= b < 2 ^ 64 -> is_allocated_width w b = true <->
  0 < b /\ (INITIAL_BLOCK_BITS <= creation_width b <= w)%nat.
Proof. intros Hb. unfold is_allocated_width. rewrite !andb_true_iff, Z.ltb_lt, !Nat.leb_le. lia. Qed.

Lemma block_id_ok w p b : 0 <= p -> block_id w p = Ok b ->
  b = sentinel w p /\ (INITIAL_BLOCK_BITS <= w <= MAX_BLOCK_BITS)%nat /\ 0 <= p < 2 ^ Z.of_nat w.
Proof.
  intros Hp. unfold block_id. destruct (w <? _)%nat eqn:E1; [done|]. destruct (_ <? w)%nat eqn:E2; [done|].
  destruct (_ <=? p) eqn:E3; [done|]. apply Nat.ltb_ge in E1, E2. apply Z.leb_gt in E3. cbn [orb]. intros [= <-].
  rewrite sentinel_lor by lia. lia.
Qed.

Lemma block_id_sentinel w p : (INITIAL_BLOCK_BITS <= w <= MAX_BLOCK_BITS)%nat -> 0 <= p < 2 ^ Z.of_nat w ->
  block_id w p = Ok (sentinel w p).
Proof.
  intros Hw Hp. unfold block_id. rewrite !(proj2 (Nat.ltb_ge _ _)) by lia.
  rewrite (proj2 (Z.leb_gt _ _)) by lia. cbn [orb]. by rewrite sentinel_lor.
Qed.

Lemma sentinel_bound w p : (w <= MAX_BLOCK_BITS)%nat -> 0 <= p < 2 ^ Z.of_nat w -> 0 < sentinel w p < 2 ^ 16.
Proof.
  intros Hw Hp. unfold sentinel. assert (0 < 2 ^ Z.of_nat w <= 2 ^ 15); [|lia].
  split; [lia|]. apply Z.pow_le_mono_r; unfold MAX_BLOCK_BITS in Hw; lia.
Qed.

(** Ownership is the prefix order on paths. *)
Lemma zip_prefix (p l : list bool) : (length p <=? length l)%nat && forallb (fun '(a, b) => Bool.eqb a b) (zip p l) = true
  <-> p `prefix_of` l.
Proof.
  revert l. induction p as [|x p IH]; intros l; [split; [intros; apply prefix_nil|done]|].
  destruct l as [|y l]; cbn.
  { split; [done|]. intros H. by apply prefix_nil_inv in H. }
  specialize (IH l). rewrite andb_true_iff in *. rewrite andb_true_iff, eqb_true_iff. split.
  - intros (? & -> & ?). apply prefix_cons. by apply IH.
  - intros H. pose proof (prefix_cons_inv_1 _ _ _ _ H). apply prefix_cons_inv_2 in H. apply IH in H. tauto.
Qed.

Lemma owns_prefix p b : shard_owns_block p b = true <-> p `prefix_of` block_path b.
Proof. apply zip_prefix. Qed.

Lemma path_of_sentinel bits : (length bits < 64)%nat -> block_path (sentinel (length bits) (bits_value bits)) = bits.
Proof.
  intros Hl. destruct (sentinel_path (length bits) (bits_value bits) Hl (bits_value_range bits)) as [El Ev].
  by apply bits_value_inj.
Qed.

Lemma elem_of_zrange n x : 0 <= n -> x ∈ zrange n <-> 0 <= x < n.
Proof.
  intros Hn. unfold zrange. rewrite list_elem_of_fmap. split.
  - intros (y & -> & Hy%elem_of_seq). lia.
  - intros Hx. exists (Z.to_nat x). rewrite elem_of_seq. lia.
Qed.

Lemma owned_id shard w rest : (length shard <= w)%nat ->
  0 <= rest < 2 ^ Z.of_nat (w - length shard) ->
  Z.lor (Z.lor (2 ^ Z.of_nat w) (Z.shiftl (bits_value shard) (Z.of_nat (w - length shard)))) rest
  = sentinel w (bits_value shard * 2 ^ Z.of_nat (w - length shard) + rest) /\
  0 <= bits_value shard * 2 ^ Z.of_nat (w - length shard) + rest < 2 ^ Z.of_nat w.
Proof.
  intros Hl Hr. pose proof (bits_value_range shard).
  assert (2 ^ Z.of_nat w = 2 ^ Z.of_nat (length shard) * 2 ^ Z.of_nat (w - length shard)) as E
    by (rewrite <- Z.pow_add_r by lia; f_equal; lia).
  assert (0 <= bits_value shard * 2 ^ Z.of_nat (w - length shard) + rest < 2 ^ Z.of_nat w) by nia.
  split; [|done]. rewrite <- Z.lor_assoc, lor_shiftl_add by lia. by apply sentinel_lor.
Qed.

(** The path of a width-[w] id that extends [shard] splits at the shard. *)
Lemma extends_iff shard w p : (length shard <= w < 64)%nat -> 0 <= p < 2 ^ Z.of_nat w ->
  shard `prefix_of` block_path (sentinel w p) <->
  exists rest, 0 <= rest < 2 ^ Z.of_nat (w - length shard) /\ p = bits_value shard * 2 ^ Z.of_nat (w - length shard) + rest.
Proof.
  intros Hw Hp. destruct (sentinel_path w p ltac:(lia) Hp) as [El Ev]. split.
  - intros [rest E]. exists (bits_value rest). rewrite E, length_app in El. rewrite E, bits_value_app in Ev.
    replace (w - length shard)%nat with (length rest) by lia. split; [apply bits_value_range|done].
  - intros (rest & Hr & ->). exists (path_bits rest (w - length shard)).
    apply bits_value_inj; [rewrite length_app, path_bits_length; lia|].
    rewrite Ev, bits_value_app, path_bits_length, path_bits_value, Z.mod_small by lia. done.
Qed.

Lemma elem_of_owned shard w b : 0 <= b < 2 ^ 64 ->
  b ∈ owned_blocks shard w <-> is_allocated_width (Nat.min w MAX_BLOCK_BITS) b = true /\ shard_owns_block shard b = true.
Proof.
  intros Hb. rewrite allocated_spec, owns_prefix by done. unfold owned_blocks. rewrite list_elem_of_bind.
  unfold INITIAL_BLOCK_BITS, MAX_BLOCK_BITS. split.
  - intros (width & Hin & Hw%list_elem_of_filter). rewrite elem_of_seq in Hw.
    apply list_elem_of_fmap in Hin as (rest & -> & Hr). rewrite elem_of_zrange in Hr by lia.
    destruct (owned_id shard width rest ltac:(lia) Hr) as [-> Hp]. rewrite sentinel_width by lia.
    pose proof (sentinel_bound width _ ltac:(unfold MAX_BLOCK_BITS; lia) Hp). split; [lia|]. apply extends_iff; [lia..|eauto].
  - intros [[Hpos Hw] Hpre]. destruct (block_sentinel b ltac:(lia)) as (E & Hlt & Hl).
    pose proof (bits_value_range (block_path b)) as Hr. rewrite Hl in Hr. pose proof (prefix_length _ _ Hpre) as Hlen.
    set (w0 := creation_width b) in *. set (p := bits_value (block_path b)) in *. rewrite E in Hpre.
    apply extends_iff in Hpre as (rest & Hrest & Hp); [|lia..]. exists w0. split.
    + apply list_elem_of_fmap. exists rest. rewrite elem_of_zrange by lia. split; [|done].
      destruct (owned_id shard w0 rest ltac:(lia) Hrest) as [-> _]. by rewrite <- Hp.
    + rewrite list_elem_of_filter, elem_of_seq. lia.
Qed.

(** ** Positions *)

Lemma block_position_iff w b local p : (w <= MAX_BLOCK_BITS)%nat -> 0 <= b < 2 ^ 64 -> 0 <= local ->
  block_position w b local = Ok p <->
  0 < b < 2 ^ 16 /\ (INITIAL_BLOCK_BITS <= creation_width b <= w)%nat /\ local < 2 ^ 16 /\ p = b * 2 ^ 16 + local.
Proof.
  intros Hw Hb Hlocal. unfold block_position. pose proof (allocated_spec w b Hb) as Hall.
  destruct (is_allocated_width w b); cbn [negb]; [|split; [done|intros H; exfalso; enough (false = true) by done; tauto]].
  destruct (proj1 Hall eq_refl) as [Hpos Hwd]. destruct (block_sentinel b) as (E & _ & Hl); [lia|].
  pose proof (bits_value_range (block_path b)) as Hr. rewrite Hl in Hr.
  pose proof (sentinel_bound (creation_width b) _ ltac:(lia) Hr) as Hs. rewrite <- E in Hs.
  unfold position_of. change (64 <=? SUBTREE_BITS)%nat with false. change (2 ^ Z.of_nat SUBTREE_BITS) with (2 ^ 16). cbn [orb].
  destruct (Z.leb_spec (2 ^ 16) local); [split; [done|lia]|].
  rewrite Z.shiftl_mul_pow2 by lia. change (2 ^ Z.of_nat SUBTREE_BITS) with (2 ^ 16).
  unfold wrap_u64. rewrite Z.mod_small by lia. rewrite checked_add_u64_ok by (unfold u64_max; lia).
  cbn. split; [intros [= <-]; lia|intros (_ & _ & _ & ->); done].
Qed.

Lemma locate_position b local : 0 <= b -> 0 <= local < 2 ^ 16 -> locate (b * 2 ^ 16 + local) = (b, local).
Proof.
  intros Hb Hl. unfold locate. destruct (split_position_spec (b * 2 ^ 16 + local) SUBTREE_BITS) as (E & H1 & H2); [unfold SUBTREE_BITS; lia|lia|].
  change (2 ^ Z.of_nat SUBTREE_BITS) with (2 ^ 16) in *. destruct (split_position _ _) as [x y]. cbn in *. f_equal; lia.
Qed.

Lemma grown_ok w w' : grown w = Ok w' -> w' = S w /\ (INITIAL_BLOCK_BITS <= S w <= MAX_BLOCK_BITS)%nat.
Proof.
  unfold grown, shape. destruct (_ <? S w)%nat eqn:E1; [done|]. destruct (S w <? _)%nat eqn:E2; [done|].
  destruct (MAX_BLOCK_BITS <? S w)%nat eqn:E3; cbn; [done|]. intros [= <-].
  apply Nat.ltb_ge in E2, E3. lia.
Qed.

(** ** Addresses *)

Lemma address_bits_ok address i n : (i + n <= 8 * length address)%nat ->
  exists bits, address_bits address i n = Ok bits /\ length bits = n.
Proof.
  revert i. induction n as [|n IH]; intros i Hi; cbn [address_bits]; [eauto|].
  destruct (lookup_lt_is_Some_2 address (i / 8)) as [b ->]; [apply Nat.Div0.div_lt_upper_bound; lia|].
  destruct (IH (S i)) as (bits & -> & Hl); [lia|]. cbn. eexists. split; [done|]. cbn. lia.
Qed.

Lemma address_bits_length address i n bits : address_bits address i n = Ok bits -> length bits = n.
Proof.
  revert i bits. induction n as [|n IH]; intros i bits; cbn [address_bits]; [by intros [= <-]|].
  destruct (address !! _); [|done]. destruct (address_bits address (S i) n) eqn:E; cbn; try done.
  intros [= <-]. cbn. by rewrite (IH _ _ E).
Qed.

Lemma block_for_address_ok w address b : block_for_address w address = Ok b ->
  (INITIAL_BLOCK_BITS <= w <= MAX_BLOCK_BITS)%nat /\ 0 < b < 2 ^ 16 /\ creation_width b = w /\
  address_bits address 0 w = Ok (block_path b).
Proof.
  unfold block_for_address. destruct (address_bits address 0 w) as [bits| |] eqn:E; cbn; try done.
  pose proof (address_bits_length _ _ _ _ E) as Hl. pose proof (bits_value_range bits) as Hr. rewrite Hl in Hr.
  intros (-> & Hw & Hp)%block_id_ok; [|lia]. pose proof (sentinel_bound w _ ltac:(lia) Hp). unfold MAX_BLOCK_BITS in Hw.
  split; [unfold MAX_BLOCK_BITS; lia|]. split; [done|]. split; [apply sentinel_width; lia|]. f_equal. symmetry.
  rewrite <- Hl at 1. apply path_of_sentinel. lia.
Qed.

(** ** The shard grid

    A shard is the bit path it covers; the grid starts with the one shard over
    everything and changes by splitting a shard into its two halves and by
    merging two halves again. *)

Inductive regrid : list (list bool) -> list (list bool) -> Prop :=
| regrid_split l p r : regrid (l ++ p :: r) (l ++ (p ++ [false]) :: (p ++ [true]) :: r)
| regrid_merge l p r : regrid (l ++ (p ++ [false]) :: (p ++ [true]) :: r) (l ++ p :: r).
Definition grid_reached (grid : list (list bool)) : Prop := rtc regrid [[]] grid.

Definition covering (path : list bool) (grid : list (list bool)) : list (list bool) :=
  base.filter (fun s => s `prefix_of` path) grid.
Definition covers_once (grid : list (list bool)) : Prop :=
  forall path, (forall s, s ∈ grid -> length s <= length path)%nat -> length (covering path grid) = 1%nat.

Lemma covering_app path a b : covering path (a ++ b) = covering path a ++ covering path b.
Proof. apply filter_app. Qed.

(** The two halves of a shard cover together what the shard covers. *)
Lemma covering_halves path p : (length p < length path)%nat ->
  length (covering path [p ++ [false]; p ++ [true]]) = length (covering path [p]).
Proof.
  intros Hl. unfold covering. destruct (decide (p `prefix_of` path)) as [[rest ->]|Hn].
  - rewrite length_app in Hl. destruct rest as [|x rest]; [cbn in Hl; lia|].
    rewrite (filter_cons_True _ p) by (by exists (x :: rest)).
    assert (forall y, p ++ [y] `prefix_of` p ++ x :: rest <-> y = x) as Hiff.
    { intros y. split; [intros [z E]; rewrite <- app_assoc in E; apply app_inv_head in E; by injection E|].
      intros ->. exists rest. by rewrite <- app_assoc. }
    destruct x.
    + rewrite filter_cons_False, filter_cons_True by (rewrite Hiff; done). done.
    + rewrite filter_cons_True, filter_cons_False by (rewrite Hiff; done). done.
  - assert (forall y, ~ p ++ [y] `prefix_of` path) as Hy by (intros y H; apply Hn; etrans; [by apply prefix_app_r|exact H]).
    by rewrite !filter_cons_False.
Qed.

(** One more bit of path changes nothing for the shards it already reached. *)
Lemma prefix_extend (s path : list bool) x : (length s <= length path)%nat ->
  s `prefix_of` path ++ [x] <-> s `prefix_of` path.
Proof.
  intros Hs. split; [|intros; by apply prefix_app_r].
  intros [rest E]. destruct rest as [|y rest _] using rev_ind.
  { rewrite app_nil_r in E. subst s. rewrite length_app in Hs. cbn in Hs. lia. }
  rewrite app_assoc in E. apply app_inj_2 in E as [-> _]; [by exists rest|done].
Qed.

Lemma covering_extend path x grid : (forall s, s ∈ grid -> length s <= length path)%nat ->
  covering (path ++ [x]) grid = covering path grid.
Proof.
  unfold covering. induction grid as [|s grid IH]; intros Hg; [done|]. rewrite !filter_cons, IH by (intros; apply Hg; set_solver).
  pose proof (prefix_extend s path x (Hg s ltac:(set_solver))) as Hiff. repeat case_decide; tauto.
Qed.

Lemma covering_split path l p r : (length p < length path)%nat ->
  length (covering path (l ++ (p ++ [false]) :: (p ++ [true]) :: r)) = length (covering path (l ++ p :: r)).
Proof.
  intros Hl. change ((p ++ [false]) :: (p ++ [true]) :: r) with ([p ++ [false]; p ++ [true]] ++ r).
  change (p :: r) with ([p] ++ r). by rewrite !covering_app, !length_app, covering_halves.
Qed.

Lemma regrid_covers g g' : regrid g g' -> covers_once g -> covers_once g'.
Proof.
  intros [l p r|l p r] Hc path Hlen.
  - assert (length p < length path)%nat as Hp by (specialize (Hlen (p ++ [false]) ltac:(set_solver)); rewrite length_app in Hlen; cbn in Hlen; lia).
    rewrite covering_split by done. apply Hc. intros s [Hs | [-> | Hs]%elem_of_cons]%elem_of_app; [apply Hlen; set_solver|lia|apply Hlen; set_solver].
  - rewrite <- (covering_extend path false) by done. pose proof (Hlen p ltac:(set_solver)).
    rewrite <- covering_split by (rewrite length_app; cbn; lia). apply Hc.
    intros s Hs. rewrite length_app. cbn. rewrite elem_of_app, !elem_of_cons in Hs.
    destruct Hs as [Hs | [-> | [-> | Hs]]]; rewrite ?length_app; cbn; try lia; specialize (Hlen s ltac:(set_solver)); lia.
Qed.

Lemma grid_covers grid : grid_reached grid -> covers_once grid.
Proof.
  assert (covers_once [[]]) as H0.
  { intros path _. unfold covering. rewrite filter_cons_True by apply prefix_nil. done. }
  unfold grid_reached. revert H0. generalize ([[]] : list (list bool)).
  intros g H0 Hr. induction Hr; [done|]. eauto using regrid_covers.
Qed.


Definition sample_grid : list (list bool) := [[false]; [true; false]; [true; true]].
Definition sample_address : list byte := byte_of 171 :: repeat (byte_of 0) 31.

Lemma sample_grid_reached : grid_reached sample_grid.
Proof.
  eapply rtc_l; [apply (regrid_split [] [] [])|]. eapply rtc_l; [apply (regrid_split [[false]] [true] [])|]. apply rtc_refl.
Defined.


(** C12. A position is the same number at every width: if [position] forms one for
    a block and a local index, it lies below [max_position], [locate] reads back
    that block and index, and after [grown] the same block and index still form
    the same position, so growth moves no coin; two different blocks or indices
    never form one position. *)
Theorem position_survives_growth w b local p :
  (w <= MAX_BLOCK_BITS)%nat -> is_u64 b -> 0 <= local -> block_position w b local = Ok p ->
  locate p = (b, local) /\ 0 <= p < max_position /\
  (forall w', grown w = Ok w' -> block_position w' b local = Ok p) /\
  (forall w' b' local', (w' <= MAX_BLOCK_BITS)%nat -> is_u64 b' -> 0 <= local' ->
     block_position w' b' local' = Ok p -> b' = b /\ local' = local).
Proof.
  intros Hw Hb Hl Hp. pose proof Hp as Hp0. apply block_position_iff in Hp as (Hpos & Hcw & Hlt & ->); [|done..].
  split; [apply locate_position; lia|]. change max_position with (2 ^ 32). split; [lia|]. split.
  - intros w' [-> Hw']%grown_ok. apply block_position_iff; [lia..|done|]. repeat split; lia.
  - intros w' b' local' Hw' Hb' Hl' Hp'. apply block_position_iff in Hp' as (? & _ & ? & E); [|done..]. lia.
Qed.

Lemma position_survives_growth_witness : locate (69 * 2 ^ 16 + 9) = (69, 9) /\ 0 <= 69 * 2 ^ 16 + 9 < max_position /\
  (forall w', grown 6 = Ok w' -> block_position w' 69 9 = Ok (69 * 2 ^ 16 + 9)) /\
  (forall w' b' local', (w' <= MAX_BLOCK_BITS)%nat -> is_u64 b' -> 0 <= local' ->
     block_position w' b' local' = Ok (69 * 2 ^ 16 + 9) -> b' = 69 /\ local' = 9).
Proof. apply (position_survives_growth 6); [unfold MAX_BLOCK_BITS; lia|unfold is_u64; lia|lia|by vm_compute]. Defined.
