(* ===== verification/AccState.v ===== *)
(** * Records of the accumulator in the execution state ([token_intrinsic/state.rs])

    The state is the part of [HypergraphState] the accumulator reads and writes:
    the execution records (node-local copies among them) and the vertices of the
    application tree, as finite maps.  A store read that fails aborts the
    operation before it writes and is not modelled.  The addresses of the
    accumulator's own records and their recognition are modelled to the byte. *)

From S2P Require Import Prelude Bytes MembershipTree CoinTree ShardedTree ShardedRoots CoinBlocks.

Record AppState := mkState {
  st_records : gmap (list byte) (list byte);
  st_vertices : gmap (list byte * list byte) (list byte) }.

Definition LOCAL_RECORD_PREFIX : list byte := String.list_byte_of_string "quil/accumulator/local/v1" ++ [x00].
Definition local_record_key (application address : list byte) : list byte :=
  LOCAL_RECORD_PREFIX ++ application ++ address.
Definition local_record_application (key address : list byte) : option (list byte) :=
  if decide (take (length LOCAL_RECORD_PREFIX) key = LOCAL_RECORD_PREFIX) then
    let rest := drop (length LOCAL_RECORD_PREFIX) key in
    if (length rest =? 64)%nat && bool_decide (drop 32 rest = address) then Some (take 32 rest) else None
  else None.

Definition read_local (st : AppState) (application address : list byte) : option (list byte) :=
  match st_records st !! local_record_key application address with
  | Some value => Some value
  | None => st_vertices st !! (application, address)
  end.
Definition write_local (st : AppState) (application address value : list byte) : AppState :=
  mkState (<[local_record_key application address := value]> (st_records st)) (st_vertices st).

(** ** Addresses *)

Definition last_byte (b : byte) : list byte := replicate 31 xff ++ [b].
Definition ROOT_ADDRESS : list byte := last_byte xfc.
Definition FRONTIER_ADDRESS : list byte := last_byte xfb.
Definition SHAPE_ADDRESS : list byte := last_byte xfa.
Definition BLOCK_SUMMARY_ADDRESS : list byte := last_byte xf9.
Definition LEGACY_ACCUMULATOR_ROOT_ADDRESS : list byte := last_byte xfe.
Definition MIGRATION_RECEIPT_ADDRESS : list byte := last_byte xfd.

Definition BLOCK_FRONTIER_TAG : byte := xf0.
Definition BLOCK_ROOT_TAG : byte := xf1.
Definition BLOCK_OWNER_TAG : byte := xf2.
Definition BLOCK_ESCROW_COUNT_TAG : byte := xf3.
Definition block_tags : list byte := [BLOCK_FRONTIER_TAG; BLOCK_ROOT_TAG; BLOCK_OWNER_TAG; BLOCK_ESCROW_COUNT_TAG].

Fixpoint prefix_bits (bits : list bool) (i : nat) (prefix : Z) : Z :=
  match bits with
  | [] => prefix
  | bit :: rest => prefix_bits rest (S i) (if (bit : bool) then Z.lor prefix (Z.shiftl 1 (Z.of_nat (15 - i))) else prefix)
  end.
Definition block_path_prefix (block : Z) : list byte := be_bytes 2 (prefix_bits (take 16 (block_path block)) 0 0).

Definition block_record_address (tag : byte) (block : Z) : list byte :=
  block_path_prefix block ++ replicate 21 xff ++ [tag] ++ be_bytes 8 block.

(** The stored summary tree's own family ([summary_tree.rs]). *)
Definition LEVELS : nat := BLOCK_INDEX_BITS.
Definition NODE_TAG : byte := xf4.
Definition node_address (level : nat) (index : Z) : list byte :=
  replicate 23 xff ++ [NODE_TAG; byte_of (Z.of_nat level)] ++ replicate 5 xff ++ be_bytes 2 index.

Definition byte_at (address : list byte) (i : nat) : byte := default x00 (address !! i).
Definition all_ff (bs : list byte) : bool := forallb (fun b => bool_decide (b = xff)) bs.
Definition is_node_address (address : list byte) : bool :=
  let level := byte_val (byte_at address 24) in
  let index := be_val (slice 30 32 address) in
  all_ff (slice 0 23 address) && bool_decide (byte_at address 23 = NODE_TAG) && (level <=? Z.of_nat LEVELS)
  && all_ff (slice 25 30 address) && (index <? 2 ^ (Z.of_nat LEVELS - level)).

Definition is_accumulator_record (address : list byte) : bool :=
  if bool_decide (address = ROOT_ADDRESS) || bool_decide (address = FRONTIER_ADDRESS)
     || bool_decide (address = SHAPE_ADDRESS) || bool_decide (address = BLOCK_SUMMARY_ADDRESS)
     || bool_decide (address = LEGACY_ACCUMULATOR_ROOT_ADDRESS) || bool_decide (address = MIGRATION_RECEIPT_ADDRESS)
     || is_node_address address then true
  else if negb (all_ff (slice 2 23 address)) || negb (bool_decide (byte_at address 23 ∈ block_tags)) then false
  else
    let block := be_val (slice 24 32 address) in
    let width := creation_width block in
    (INITIAL_BLOCK_BITS <=? width)%nat && (width <=? MAX_BLOCK_BITS)%nat
    && bool_decide (slice 0 2 address = block_path_prefix block).

(** ** Local records *)

Lemma local_record_key_inj a b x y : length a = length b ->
  local_record_key a x = local_record_key b y -> a = b /\ x = y.
Proof. intros Hl E. apply app_inv_head in E. by apply app_inj_1 in E. Qed.

Lemma read_write_local st a x v b y : length a = length b ->
  read_local (write_local st a x v) b y = if decide (a = b /\ x = y) then Some v else read_local st b y.
Proof.
  intros Hl. unfold read_local, write_local. cbn. case_decide as Hd.
  - destruct Hd as [-> ->]. by rewrite lookup_insert_eq.
  - rewrite lookup_insert_ne; [done|]. intros E. apply Hd. by apply local_record_key_inj in E.
Qed.

Lemma local_record_key_application a x : length a = 32%nat -> length x = 32%nat ->
  forall y, local_record_application (local_record_key a x) y = if decide (x = y) then Some a else None.
Proof.
  intros Ha Hx y. unfold local_record_application, local_record_key. rewrite take_app_length, drop_app_length.
  rewrite decide_True by done. rewrite length_app, Ha, Hx, take_app_length', drop_app_length' by done. cbn [Nat.add Nat.eqb andb].
  case_decide; case_bool_decide; naive_solver.
Qed.

(** ** The bits of a block record's address *)

Lemma prefix_bits_value bits i k : (i + length bits <= 16)%nat ->
  prefix_bits bits i (k * 2 ^ Z.of_nat (16 - i)) = k * 2 ^ Z.of_nat (16 - i) + bits_value bits * 2 ^ Z.of_nat (16 - i - length bits).
Proof.
  revert i k. induction bits as [|x bits IH]; intros i k Hl; cbn [prefix_bits length] in *; [cbn; lia|].
  assert (2 ^ Z.of_nat (16 - i) = 2 * 2 ^ Z.of_nat (15 - i)) as E2 by (rewrite <- Z.pow_succ_r by lia; f_equal; lia).
  assert ((if x then Z.lor (k * 2 ^ Z.of_nat (16 - i)) (Z.shiftl 1 (Z.of_nat (15 - i))) else k * 2 ^ Z.of_nat (16 - i))
    = (2 * k + (if x then 1 else 0)) * 2 ^ Z.of_nat (16 - S i)) as ->.
  { replace (16 - S i)%nat with (15 - i)%nat by lia. destruct x; [|lia].
    rewrite Z.shiftl_1_l, <- Z.shiftl_mul_pow2, lor_shiftl_add by lia. lia. }
  rewrite IH by lia. rewrite bits_value_cons. replace (16 - S i)%nat with (15 - i)%nat by lia.
  replace (15 - i - length bits)%nat with (16 - i - S (length bits))%nat by lia.
  replace (2 ^ Z.of_nat (16 - i)) with (2 * 2 ^ Z.of_nat (15 - i)) by lia.
  assert (2 ^ Z.of_nat (15 - i) = 2 ^ Z.of_nat (length bits) * 2 ^ Z.of_nat (16 - i - S (length bits))) as ->
    by (rewrite <- Z.pow_add_r by lia; f_equal; lia).
  destruct x; lia.
Qed.

Lemma address_bit b0 b1 rest i : (i < 16)%nat ->
  exists b, (b0 :: b1 :: rest) !! (i / 8)%nat = Some b /\
    Z.odd (Z.shiftr (byte_val b) (Z.of_nat (7 - i mod 8))) = Z.odd (Z.shiftr (be_val [b0; b1]) (Z.of_nat (15 - i))).
Proof.
  intros Hi. pose proof (byte_val_range b0). pose proof (byte_val_range b1).
  assert (be_val [b0; b1] = byte_val b0 * 2 ^ 8 + byte_val b1) as Ev by (rewrite !be_val_cons; cbn; lia).
  destruct (Nat.lt_ge_cases i 8) as [Hlt|Hge].
  - rewrite Nat.div_small, Nat.mod_small by lia. exists b0. split; [done|]. rewrite Ev.
    replace (Z.of_nat (15 - i)) with (8 + Z.of_nat (7 - i)) by lia. rewrite <- Z.shiftr_shiftr by lia.
    rewrite (Z.shiftr_div_pow2 _ 8), Z.div_add_l, (Z.div_small (byte_val b1)) by lia. f_equal. f_equal. lia.
  - assert (i / 8 = 1 /\ i mod 8 = i - 8)%nat as [-> ->] by
      (pose proof (Nat.div_mod_eq i 8); pose proof (Nat.mod_upper_bound i 8); lia). exists b1. split; [done|].
    rewrite <- !Z.testbit_odd. replace (7 - (i - 8))%nat with (15 - i)%nat by lia.
    replace (byte_val b1) with (be_val [b0; b1] mod 2 ^ 8) by (rewrite Ev, Z.add_comm, Z.mod_add, Z.mod_small by lia; done).
    apply Z.mod_pow2_bits_low. lia.
Qed.

Lemma address_bits_prefix b0 b1 rest i n : (i + n <= 16)%nat ->
  address_bits (b0 :: b1 :: rest) i n = Ok (path_bits (Z.shiftr (be_val [b0; b1]) (Z.of_nat (16 - i - n))) n).
Proof.
  revert i. induction n as [|n IH]; intros i Hi; [done|]. cbn [address_bits path_bits].
  destruct (address_bit b0 b1 rest i ltac:(lia)) as (b & -> & Eb). rewrite Eb, IH by lia. cbn [mbind result_bind].
  rewrite Z.shiftr_shiftr by lia. replace (16 - S i - n)%nat with (16 - i - S n)%nat by lia.
  replace (Z.of_nat (15 - i)) with (Z.of_nat (16 - i - S n) + Z.of_nat n) by lia. done.
Qed.

(** An id of the accumulator. *)
Definition is_block (b : Z) : Prop := 0 < b < 2 ^ 64 /\ (INITIAL_BLOCK_BITS <= creation_width b <= MAX_BLOCK_BITS)%nat.

Lemma is_block_small b : is_block b -> 0 < b < 2 ^ 16 /\ length (block_path b) = creation_width b /\
  b = sentinel (creation_width b) (bits_value (block_path b)).
Proof.
  intros [Hb Hw]. destruct (block_sentinel b Hb) as (E & _ & Hl). split; [|done]. rewrite E.
  apply sentinel_bound; [lia|]. rewrite <- Hl. apply bits_value_range.
Qed.

Lemma block_path_prefix_val b : is_block b ->
  exists b0 b1, block_path_prefix b = [b0; b1] /\
    be_val [b0; b1] = bits_value (block_path b) * 2 ^ Z.of_nat (16 - creation_width b).
Proof.
  intros Hb. pose proof Hb as [_ Hw]. destruct (is_block_small b Hb) as (_ & Hl & _). unfold MAX_BLOCK_BITS in Hw.
  unfold block_path_prefix. rewrite take_ge by lia.
  pose proof (prefix_bits_value (block_path b) 0 0) as Ev. rewrite Hl, Z.mul_0_l, Z.add_0_l, Nat.sub_0_r in Ev. rewrite Ev by lia.
  set (v := bits_value _ * _). destruct (be_bytes 2 v) as [|b0 [|b1 [|]]] eqn:E;
    pose proof (be_bytes_length 2 v) as Hlen; rewrite E in Hlen; cbn in Hlen; try lia.
  exists b0, b1. split; [done|]. rewrite <- E, be_val_bytes. apply Z.mod_small.
  pose proof (bits_value_range (block_path b)) as Hr. rewrite Hl in Hr. subst v.
  assert (256 ^ Z.of_nat 2 = 2 ^ Z.of_nat (creation_width b) * 2 ^ Z.of_nat (16 - creation_width b)) as ->.
  { rewrite <- Z.pow_add_r by lia. replace (Z.of_nat (creation_width b) + _) with 16 by lia. done. }
  nia.
Qed.

Lemma block_path_prefix_length b : is_block b -> length (block_path_prefix b) = 2%nat.
Proof. intros (b0 & b1 & -> & _)%block_path_prefix_val. done. Qed.

(** Every record of a block lies in the block it describes. *)
Lemma block_record_in_block tag b : is_block b ->
  block_for_address (creation_width b) (block_record_address tag b) = Ok b.
Proof.
  intros Hb. pose proof Hb as [_ Hw]. destruct (is_block_small b Hb) as (_ & Hl & Es).
  destruct (block_path_prefix_val b Hb) as (b0 & b1 & Ep & Ev). unfold block_record_address, block_for_address.
  rewrite Ep. cbn [app]. unfold MAX_BLOCK_BITS in Hw.
  rewrite address_bits_prefix by lia. cbn [mbind result_bind]. rewrite Ev, Nat.sub_0_r.
  rewrite Z.shiftr_div_pow2, Z.div_mul by lia. rewrite path_bits_value, <- Hl, Z.mod_small by apply bits_value_range.
  rewrite block_id_sentinel; rewrite ?Hl; [by rewrite <- Es|by unfold MAX_BLOCK_BITS|].
  rewrite <- Hl. apply bits_value_range.
Qed.

(** ** Recognising the records *)

Inductive acc_record :=
| RootRec | FrontierRec | ShapeRec | SummaryRec | LegacyRootRec | ReceiptRec
| NodeRec (level : nat) (index : Z)
| BlockRec (tag : byte) (block : Z).
Definition record_address (r : acc_record) : list byte :=
  match r with
  | RootRec => ROOT_ADDRESS | FrontierRec => FRONTIER_ADDRESS | ShapeRec => SHAPE_ADDRESS
  | SummaryRec => BLOCK_SUMMARY_ADDRESS | LegacyRootRec => LEGACY_ACCUMULATOR_ROOT_ADDRESS
  | ReceiptRec => MIGRATION_RECEIPT_ADDRESS
  | NodeRec level index => node_address level index
  | BlockRec tag block => block_record_address tag block
  end.
Definition record_valid (r : acc_record) : Prop :=
  match r with
  | NodeRec level index => (level <= LEVELS)%nat /\ 0 <= index < 2 ^ Z.of_nat (LEVELS - level)
  | BlockRec tag block => tag ∈ block_tags /\ is_block block
  | _ => True
  end.

Lemma all_ff_iff bs : all_ff bs = true <-> bs = replicate (length bs) xff.
Proof.
  unfold all_ff. rewrite forallb_forall. split.
  - intros Hall. symmetry. apply replicate_as_elem_of. split; [done|]. intros b Hb%list_elem_of_In. by apply Hall, bool_decide_eq_true in Hb.
  - intros E b Hb%list_elem_of_In. rewrite E in Hb. apply elem_of_replicate in Hb as [-> _]. done.
Qed.

Lemma slice_split a i j : (i <= j)%nat -> drop i a = slice i j a ++ drop j a.
Proof. intros Hij. unfold slice. rewrite <- (take_drop (j - i) (drop i a)) at 1. rewrite drop_drop. by replace (i + (j - i))%nat with j by lia. Qed.

Lemma slice_byte a i : (i < length a)%nat -> slice i (S i) a = [byte_at a i].
Proof.
  intros Hi. unfold slice, byte_at. replace (S i - i)%nat with 1%nat by lia.
  destruct (lookup_lt_is_Some_2 a i Hi) as [b E]. rewrite E. by rewrite (drop_S _ _ _ E).
Qed.

Lemma slice_length a i j : (i <= j <= length a)%nat -> length (slice i j a) = (j - i)%nat.
Proof. intros. unfold slice. rewrite length_take, length_drop. lia. Qed.

Lemma be_bytes_2 z : exists a b, be_bytes 2 z = [a; b].
Proof. pose proof (be_bytes_length 2 z) as Hl. destruct (be_bytes 2 z) as [|a [|b [|]]]; try done. eauto. Qed.

Lemma node_address_slices l i : (l <= LEVELS)%nat -> 0 <= i < 2 ^ Z.of_nat (LEVELS - l) ->
  byte_at (node_address l i) 23 = NODE_TAG /\ byte_val (byte_at (node_address l i) 24) = Z.of_nat l /\
  be_val (slice 30 32 (node_address l i)) = i /\ length (node_address l i) = 32%nat /\
  slice 0 23 (node_address l i) = replicate 23 xff /\ slice 25 30 (node_address l i) = replicate 5 xff.
Proof.
  intros Hl Hi. unfold LEVELS, BLOCK_INDEX_BITS, MAX_BLOCK_BITS in *.
  assert (2 ^ Z.of_nat (15 + 1 - l) <= 2 ^ 16) by (apply Z.pow_le_mono_r; lia).
  destruct (be_bytes_2 i) as (x & y & E). pose proof (be_val_bytes 2 i) as Ev. rewrite E in Ev.
  rewrite Z.mod_small in Ev by (change (256 ^ Z.of_nat 2) with (2 ^ 16); lia).
  unfold node_address. rewrite E. repeat split; try reflexivity; [|exact Ev].
  change (byte_val (byte_of (Z.of_nat l)) = Z.of_nat l). rewrite byte_val_of. apply Z.mod_small. lia.
Qed.

Lemma is_node_address_iff a : length a = 32%nat ->
  is_node_address a = true <-> exists l i, record_valid (NodeRec l i) /\ a = node_address l i.
Proof.
  intros Hlen. unfold is_node_address. split.
  - rewrite !andb_true_iff, !all_ff_iff, bool_decide_eq_true, Z.leb_le, Z.ltb_lt. intros ((((H1 & H2) & H3) & H4) & H5).
    rewrite slice_length in H1, H4 by lia. pose proof (byte_val_range (byte_at a 24)) as Hr.
    exists (Z.to_nat (byte_val (byte_at a 24))), (be_val (slice 30 32 a)). split.
    + pose proof (be_val_range (slice 30 32 a)). cbn [record_valid]. split; [lia|].
      replace (Z.of_nat (LEVELS - _)) with (Z.of_nat LEVELS - byte_val (byte_at a 24)) by lia. lia.
    + unfold node_address. rewrite Z2Nat.id, byte_of_val by lia. rewrite <- H2.
      pose proof (be_bytes_val (slice 30 32 a)) as Es. rewrite slice_length in Es by lia. cbn [Nat.sub] in Es. rewrite Es.
      rewrite <- (drop_0 a) at 1. rewrite (slice_split a 0 23), (slice_split a 23 24), (slice_split a 24 25), (slice_split a 25 30), (slice_split a 30 32) by lia.
      rewrite (slice_byte a 23), (slice_byte a 24), (drop_ge a 32), H1, H4 by lia. cbn [app]. by rewrite app_nil_r.
  - intros (l & i & [Hl Hi] & ->). destruct (node_address_slices l i Hl Hi) as (E1 & E2 & E3 & _ & E5 & E6).
    rewrite E1, E2, E3, E5, E6. replace (Z.of_nat LEVELS - Z.of_nat l) with (Z.of_nat (LEVELS - l)) by lia.
    rewrite (proj2 (Z.leb_le _ _)), (proj2 (Z.ltb_lt _ _)) by lia. reflexivity.
Qed.

Lemma block_address_slices tag b : is_block b ->
  byte_at (block_record_address tag b) 23 = tag /\ be_val (slice 24 32 (block_record_address tag b)) = b /\
  length (block_record_address tag b) = 32%nat /\ slice 0 2 (block_record_address tag b) = block_path_prefix b /\
  slice 2 23 (block_record_address tag b) = replicate 21 xff.
Proof.
  intros Hb. pose proof Hb as [Hr _]. destruct (block_path_prefix_val b Hb) as (b0 & b1 & Ep & _).
  unfold block_record_address. rewrite Ep. repeat split.
  - change (be_val (take 8 (be_bytes 8 b)) = b). rewrite take_ge by (by rewrite be_bytes_length).
    rewrite be_val_bytes. apply Z.mod_small. change (256 ^ Z.of_nat 8) with (2 ^ 64). lia.
Qed.

Lemma is_block_address_iff a : length a = 32%nat ->
  negb (all_ff (slice 2 23 a)) || negb (bool_decide (byte_at a 23 ∈ block_tags)) = false /\
  (INITIAL_BLOCK_BITS <=? creation_width (be_val (slice 24 32 a)))%nat
    && (creation_width (be_val (slice 24 32 a)) <=? MAX_BLOCK_BITS)%nat
    && bool_decide (slice 0 2 a = block_path_prefix (be_val (slice 24 32 a))) = true
  <-> exists tag b, record_valid (BlockRec tag b) /\ a = block_record_address tag b.
Proof.
  intros Hlen. rewrite orb_false_iff, !negb_false_iff, !andb_true_iff, all_ff_iff, !bool_decide_eq_true, !Nat.leb_le. split.
  - intros [[H1 H2] [[H3 H4] H5]]. rewrite slice_length in H1 by lia. set (b := be_val (slice 24 32 a)) in *.
    pose proof (be_val_range (slice 24 32 a)) as Hr. rewrite slice_length in Hr by lia. fold b in Hr.
    assert (b <> 0) by (intros E; rewrite E in H3; vm_compute in H3; lia).
    exists (byte_at a 23), b. split; [split; [done|]; split; [change (256 ^ Z.of_nat (32 - 24)) with (2 ^ 64) in Hr; lia|lia]|].
    unfold block_record_address. rewrite <- H5.
    pose proof (be_bytes_val (slice 24 32 a)) as Es. rewrite slice_length in Es by lia. cbn [Nat.sub] in Es. fold b in Es. rewrite Es.
    rewrite <- (drop_0 a) at 1. rewrite (slice_split a 0 2), (slice_split a 2 23), (slice_split a 23 24), (slice_split a 24 32) by lia.
    rewrite (slice_byte a 23), (drop_ge a 32), H1 by lia. by rewrite app_nil_r.
  - intros (tag & b & [Ht Hb] & ->). destruct (block_address_slices tag b Hb) as (E1 & E2 & _ & E4 & E5).
    rewrite E1, E2, E4, E5. destruct Hb as [_ Hw]. tauto.
Qed.

Lemma record_address_inj r s : record_valid r -> record_valid s -> record_address r = record_address s -> r = s.
Proof.
  assert (forall b, byte_at (last_byte b) 23 = xff) as H23 by done.
  assert (forall l i, (l <= LEVELS)%nat -> 0 <= i < 2 ^ Z.of_nat (LEVELS - l) -> byte_at (node_address l i) 23 = NODE_TAG) as HN
    by (intros l i Hl Hi; apply (node_address_slices l i Hl Hi)).
  assert (forall t b, is_block b -> byte_at (block_record_address t b) 23 = t) as HB by (intros t b Hb; apply (block_address_slices t b Hb)).
  assert (NODE_TAG ∉ block_tags /\ xff ∉ block_tags) as [Hn Hf] by (split; apply (bool_decide_unpack _); reflexivity).
  intros Hr Hs E. pose proof (f_equal (fun a => byte_at a 23) E) as E23.
  destruct r as [| | | | | |l i|t b], s as [| | | | | |l' i'|t' b']; cbn [record_valid record_address] in *; try done;
    repeat match goal with
    | H : _ /\ _ |- _ => destruct H
    end; rewrite ?HN, ?HB in E23 by done; try (vm_compute in E23; discriminate); try (subst; contradiction);
    try (exfalso; apply Hf; first [rewrite E23|rewrite <- E23]; done).
  - destruct (node_address_slices l i) as (_ & E2 & E3 & _); [done|lia|].
    destruct (node_address_slices l' i') as (_ & E2' & E3' & _); [done|lia|]. rewrite E in E2, E3. f_equal; lia.
  - subst t'. destruct (block_address_slices t b) as (_ & E2 & _); [done|].
    destruct (block_address_slices t b') as (_ & E2' & _); [done|]. rewrite E in E2. congruence.
Qed.

(** C21. The accumulator's own records are recognised exactly: an address is taken
    for an accumulator record, and so never decoded as a coin, exactly when it is
    the address of one of them (the six fixed ones, a node of the summary tree,
    or a record of a block), and then of one only.  The records of a block lie in
    the block they describe, so its owner is the one shard that writes them. *)
Theorem accumulator_records_recognised address : length address = 32%nat ->
  (is_accumulator_record address = true <-> exists! r, record_valid r /\ record_address r = address) /\
  (forall tag b, record_valid (BlockRec tag b) -> record_address (BlockRec tag b) = address ->
     block_for_address (creation_width b) address = Ok b).
Proof.
  intros Hlen. split; [|intros tag b [_ Hb] <-; by apply block_record_in_block].
  assert (is_accumulator_record address = true <-> exists r, record_valid r /\ record_address r = address) as Hex.
  { unfold is_accumulator_record. destruct (_ || is_node_address address) eqn:E.
    - split; [intros _|done]. rewrite !orb_true_iff, !bool_decide_eq_true, is_node_address_iff in E by done.
      destruct E as [[[[[[E | E] | E] | E] | E] | E] | (l & i & Hv & E)];
        [exists RootRec|exists FrontierRec|exists ShapeRec|exists SummaryRec|exists LegacyRootRec|exists ReceiptRec|exists (NodeRec l i)]; done.
    - rewrite !orb_false_iff, !bool_decide_eq_false in E. destruct E as [E En].
      assert (~ exists l i, record_valid (NodeRec l i) /\ address = node_address l i) as Hnode
        by (rewrite <- is_node_address_iff by done; congruence).
      transitivity (exists tag b, record_valid (BlockRec tag b) /\ address = block_record_address tag b).
      + rewrite <- is_block_address_iff by done. destruct (negb _ || negb _); [split; [done|intros [? ?]; done]|tauto].
      + split; [intros (tag & b & Hv & ->); by exists (BlockRec tag b)|].
        intros ([| | | | | |l i|t b] & Hv & <-); cbn in E; try tauto; [exfalso; apply Hnode; eauto|eauto]. }
  rewrite Hex. split.
  - intros (r & Hv & E). exists r. split; [done|]. intros s [Hs Es]. apply record_address_inj; [done..|congruence].
  - intros (r & Hr & _). eauto.
Qed.

Lemma accumulator_records_recognised_witness :
  (is_accumulator_record (node_address 5 2047) = true <->
   exists! r, record_valid r /\ record_address r = node_address 5 2047) /\
  (forall tag b, record_valid (BlockRec tag b) -> record_address (BlockRec tag b) = node_address 5 2047 ->
     block_for_address (creation_width b) (node_address 5 2047) = Ok b).
Proof. apply (accumulator_records_recognised (node_address 5 2047)). reflexivity. Defined.
