(* ===== verification/SummaryTree.v ===== *)
(** * The stored block summary ([token_intrinsic/summary_tree.rs])

    Every non-empty block is a leaf record and every node above it is stored, so
    that the application root, the coin total and each shard's part are single
    reads.  A [BTreeMap] keyed by index is a finite map: the loops over one write
    distinct records, or stop with the one error of the file, so their order does
    not matter.  Callers roll a failed operation back: an error carries no state. *)

From S2P Require Import Prelude Bytes MembershipTree CoinTree ShardedTree ShardedRoots CoinBlocks AccState.

Definition MAX_NONEMPTY_BLOCKS : Z := 1024.
Definition MOVED : list byte := String.list_byte_of_string "QCT3BS" ++ [x00; x02].
Definition HEADER : nat := 16.
Definition CLEARED : list byte := replicate HEADER x00.

Section Summary.
Context `{MembershipHash} (context application : list byte).
#[local] Notation parent := (key_parent context).
#[local] Notation state := AppState.

Record TreeNode := mkTreeNode { tn_coins : Z; tn_blocks : Z; tn_node : Node }.

#[export] Instance TreeNode_eq_dec : EqDecision TreeNode.
Proof. solve_decision. Defined.

Definition RECORD : nat := HEADER + NODE_BYTES.

Definition tn_encode (n : TreeNode) : list byte :=
  be_bytes 8 (tn_coins n) ++ be_bytes 8 (tn_blocks n) ++ to_bytes (tn_node n).

Definition tn_decode (bytes : list byte) (level : nat) : result (option TreeNode) :=
  if bool_decide (bytes = CLEARED) then Ok None
  else if negb (length bytes =? RECORD)%nat || (LEVELS <? level)%nat then invalid
  else
    let coins := be_val (slice 0 8 bytes) in
    let blocks := be_val (slice 8 16 bytes) in
    if (blocks =? 0) || (2 ^ Z.of_nat level <? blocks) || (coins <? blocks) then invalid
    else match from_bytes (drop HEADER bytes) with
         | None => invalid
         | Some node => Ok (Some (mkTreeNode coins blocks node))
         end.

Definition read_node (st : state) (level : nat) (index : Z) : result (option TreeNode) :=
  if (LEVELS <? level)%nat || (2 ^ Z.of_nat (LEVELS - level) <=? index) then invalid
  else match read_local st application (node_address level index) with
       | Some bytes => tn_decode bytes level
       | None => Ok None
       end.

(** [top], and [subtree] of the file: the node of one shard's range. *)
Definition top_node (st : state) : result (option TreeNode) := read_node st LEVELS 0.
Definition shard_node (st : state) (level : nat) (index : Z) : result (option TreeNode) :=
  if (level <? SUBTREE_BITS)%nat then invalid else read_node st (level - SUBTREE_BITS) index.

(** The stack of [stored_positions] pops a node, then its left and its right
    subtree: the walk in preorder. *)
Fixpoint stored_from (st : state) (level : nat) (index : Z) : result (list (nat * Z * TreeNode)) :=
  found ← read_node st level index;
  match found with
  | None => Ok []
  | Some node =>
      match level with
      | O => Ok [(O, index, node)]
      | S l =>
          lhs ← stored_from st l (Z.shiftl index 1);
          rhs ← stored_from st l (Z.lor (Z.shiftl index 1) 1);
          Ok ((level, index, node) :: lhs ++ rhs)
      end
  end.
Definition stored_positions (st : state) : result (list (nat * Z * TreeNode)) := stored_from st LEVELS 0.

Definition leaf_entries (found : list (nat * Z * TreeNode)) : list (Z * Z * Node) :=
  (fun e => (e.1.2, tn_coins e.2, tn_node e.2)) <$> base.filter (fun e : nat * Z * TreeNode => e.1.1 = O) found.
Definition entries (st : state) : result (list (Z * Z * Node)) := leaf_entries <$> stored_positions st.

(** ** Writing *)

(** [zeros[l]] of a [SummaryTree]. *)
Definition summary_zeros : list Node := zero_nodes context (SUBTREE_BITS + LEVELS).

Definition summary_root (st : state) : result Node :=
  top ← top_node st;
  Ok (match top with Some top => tn_node top | None => summary_zeros !!! (SUBTREE_BITS + LEVELS)%nat end).

Definition write_node (st : state) (level : nat) (index : Z) (node : option TreeNode) : state :=
  write_local st application (node_address level index)
    (match node with Some node => tn_encode node | None => CLEARED end).

Definition sum_field (field : TreeNode -> Z) (lhs rhs : option TreeNode) : result Z :=
  match checked_add_u64 (from_option field 0 lhs) (from_option field 0 rhs) with
  | Some s => Ok s
  | None => invalid
  end.

Definition parent_node (level : nat) (lhs rhs : option TreeNode) : result (option TreeNode) :=
  match lhs, rhs with
  | None, None => Ok None
  | _, _ =>
      let zero := summary_zeros !!! (SUBTREE_BITS + level)%nat in
      coins ← sum_field tn_coins lhs rhs;
      blocks ← sum_field tn_blocks lhs rhs;
      Ok (Some (mkTreeNode coins blocks (parent (from_option tn_node zero lhs) (from_option tn_node zero rhs))))
  end.

Fixpoint leaf_loop (leaves : list (Z * Z * Node)) (level : gmap Z (option TreeNode)) : result (gmap Z (option TreeNode)) :=
  match leaves with
  | [] => Ok level
  | (block, coins, root) :: rest =>
      if 2 ^ Z.of_nat LEVELS <=? block then invalid
      else match level !! block with
           | Some _ => invalid
           | None =>
               let leaf := if 0 <? coins then Some (mkTreeNode coins 1 root) else None in
               leaf_loop rest (<[block := leaf]> level)
           end
  end.
Definition leaf_level (leaves : list (Z * Z * Node)) : result (gmap Z (option TreeNode)) := leaf_loop leaves ∅.

Definition check_cap (st : state) : result unit :=
  top ← top_node st;
  match top with
  | Some top => if MAX_NONEMPTY_BLOCKS <? tn_blocks top then invalid else Ok ()
  | None => Ok ()
  end.

(** ** Updating *)

Fixpoint changed_leaves (st : state) (leaves : list (Z * option TreeNode)) : result (gmap Z (option TreeNode)) :=
  match leaves with
  | [] => Ok ∅
  | (block, leaf) :: rest =>
      stored ← read_node st O block;
      changed ← changed_leaves st rest;
      Ok (if decide (stored = leaf) then changed else <[block := leaf]> changed)
  end.

Definition write_level (st : state) (level : nat) (nodes : gmap Z (option TreeNode)) : state :=
  map_fold (fun index node st => write_node st level index node) st nodes.

Definition child (st : state) (level : nat) (changed : gmap Z (option TreeNode)) (index : Z) : result (option TreeNode) :=
  match changed !! index with Some node => Ok node | None => read_node st level index end.

Definition parent_indices {A} (nodes : gmap Z A) : list Z :=
  elements (set_map (fun index => Z.shiftr index 1) (dom nodes) : gset Z).

Fixpoint changed_parents (st : state) (level : nat) (changed : gmap Z (option TreeNode)) (parents : list Z)
  : result (gmap Z (option TreeNode)) :=
  match parents with
  | [] => Ok ∅
  | p :: rest =>
      lhs ← child st level changed (Z.shiftl p 1);
      rhs ← child st level changed (Z.lor (Z.shiftl p 1) 1);
      node ← parent_node level lhs rhs;
      stored ← read_node st (S level) p;
      above ← changed_parents st level changed rest;
      Ok (if decide (stored = node) then above else <[p := node]> above)
  end.

(** [n] levels remain above [level]. *)
Fixpoint update_levels (st : state) (level n : nat) (changed : gmap Z (option TreeNode)) : result state :=
  let st := write_level st level changed in
  match n with
  | O => Ok st
  | S n =>
      parents ← changed_parents st level changed (parent_indices changed);
      update_levels st (S level) n parents
  end.

Definition update (st : state) (leaves : list (Z * Z * Node)) : result state :=
  level ← leaf_level leaves;
  changed ← changed_leaves st (map_to_list level);
  st ← update_levels st O LEVELS changed;
  _ ← check_cap st;
  Ok st.

(** ** Replacing *)

Fixpoint level_parents (level : nat) (nodes : gmap Z TreeNode) (parents : list Z) : result (gmap Z TreeNode) :=
  match parents with
  | [] => Ok ∅
  | p :: rest =>
      node ← parent_node level (nodes !! Z.shiftl p 1) (nodes !! Z.lor (Z.shiftl p 1) 1);
      above ← level_parents level nodes rest;
      Ok (match node with Some node => <[p := node]> above | None => above end)
  end.

Definition write_fresh (st : state) (stale : gmap (nat * Z) TreeNode) (level : nat) (nodes : gmap Z TreeNode) : state :=
  map_fold (fun index node st =>
    if decide (stale !! (level, index) = Some node) then st else write_node st level index (Some node)) st nodes.

Definition keep_level (kept : gset (nat * Z)) (level : nat) (nodes : gmap Z TreeNode) : gset (nat * Z) :=
  kept ∪ set_map (fun index => (level, index)) (dom nodes).

Fixpoint replace_levels (st : state) (stale : gmap (nat * Z) TreeNode) (kept : gset (nat * Z)) (level n : nat)
    (nodes : gmap Z TreeNode) : result (state * gset (nat * Z)) :=
  let st := write_fresh st stale level nodes in
  let kept := keep_level kept level nodes in
  match n with
  | O => Ok (st, kept)
  | S n =>
      parents ← level_parents level nodes (parent_indices nodes);
      replace_levels st stale kept (S level) n parents
  end.

Definition clear_stale (st : state) (kept : gset (nat * Z)) (stale : list (nat * Z * TreeNode)) : state :=
  foldl (fun st e => if decide (e.1 ∈ kept) then st else write_node st e.1.1 e.1.2 None) st stale.

Definition replace (st : state) (leaves : list (Z * Z * Node)) : result state :=
  found ← stored_positions st;
  let stale : gmap (nat * Z) TreeNode := list_to_map found in
  level ← leaf_level leaves;
  let nodes : gmap Z TreeNode := omap id level in
  '(st, kept) ← replace_levels st stale ∅ O LEVELS nodes;
  let st := clear_stale st kept (map_to_list stale) in
  _ ← check_cap st;
  Ok st.
End Summary.
