(* ===== verification/SummaryCorrect.v ===== *)
(** * The stored block summary represents its blocks

    The specification is a finite map from block ids to coin counts and roots,
    and [summary], the node the tree should hold at every place.  [represents]
    relates a state to such a map; [update] and [replace] preserve it, and the
    reads return what the map says. *)

From S2P Require Import Prelude Bytes MembershipTree CoinTree ShardedTree ShardedRoots CoinBlocks AccState SummaryTree.

Section Correct.
Context `{MembershipHash} (context application : list byte).
#[local] Notation parent := (key_parent context).
#[local] Notation Blocks := (gmap Z (Z * Node)).
#[local] Arguments zero_tree : simpl never.

(** ** The specification *)

Definition block_leaf (x : Z * Node) : TreeNode := mkTreeNode x.1 1 x.2.
Definition field (f : TreeNode -> Z) (o : option TreeNode) : Z := from_option f 0 o.
Definition node_or (level : nat) (o : option TreeNode) : Node := from_option tn_node (zero_tree context (SUBTREE_BITS + level)) o.
Definition join (level : nat) (lhs rhs : option TreeNode) : option TreeNode :=
  match lhs, rhs with
  | None, None => None
  | _, _ => Some (mkTreeNode (field tn_coins lhs + field tn_coins rhs) (field tn_blocks lhs + field tn_blocks rhs)
                    (parent (node_or level lhs) (node_or level rhs)))
  end.
Fixpoint summary (B : Blocks) (level : nat) (index : Z) : option TreeNode :=
  match level with
  | O => block_leaf <$> B !! index
  | S l => join l (summary B l (2 * index)) (summary B l (2 * index + 1))
  end.

Definition blocks_ok (B : Blocks) : Prop := forall b x, B !! b = Some x -> 0 <= b < 2 ^ Z.of_nat LEVELS /\ 1 <= x.1.
Definition total_coins (B : Blocks) : Z := map_fold (fun _ x s => x.1 + s) 0 B.
Definition in_tree (level : nat) (index : Z) : Prop := (level <= LEVELS)%nat /\ 0 <= index < 2 ^ Z.of_nat (LEVELS - level).
Definition represents (st : AppState) (B : Blocks) : Prop :=
  forall level index, in_tree level index -> read_node application st level index = Ok (summary B level index).

(** ** Counting *)

Definition additive (f : TreeNode -> Z) : Prop :=
  forall level lhs rhs, field f (join level lhs rhs) = field f lhs + field f rhs.
Lemma coins_additive : additive tn_coins. Proof. by intros level [a|] [b|]; cbn. Qed.
Lemma blocks_additive : additive tn_blocks. Proof. by intros level [a|] [b|]; cbn. Qed.

Lemma pow_S l : 2 ^ Z.of_nat (S l) = 2 * 2 ^ Z.of_nat l.
Proof. rewrite Nat2Z.inj_succ, Z.pow_succ_r by lia. lia. Qed.

Lemma half_of b l : b / 2 ^ Z.of_nat (S l) = b / 2 ^ Z.of_nat l / 2.
Proof. rewrite pow_S, Z.mul_comm, Z.div_div by lia. done. Qed.

Lemma field_insert f (B : Blocks) b x level : additive f -> B !! b = None -> forall index,
  field f (summary (<[b := x]> B) level index)
  = field f (summary B level index) + (if decide (b / 2 ^ Z.of_nat level = index) then f (block_leaf x) else 0).
Proof.
  intros Hf Hb. induction level as [|l IH]; intros index; cbn [summary].
  - rewrite Z.div_1_r. case_decide as Hi.
    + subst. rewrite lookup_insert_eq, Hb. cbn. lia.
    + rewrite lookup_insert_ne by done. lia.
  - rewrite !Hf, !IH, half_of. repeat case_decide; try lia.
    all: pose proof (Z.div_mod (b / 2 ^ Z.of_nat l) 2); pose proof (Z.mod_pos_bound (b / 2 ^ Z.of_nat l) 2); lia.
Qed.

Lemma summary_empty level index : summary ∅ level index = None.
Proof. revert index. induction level as [|l IH]; intros index; cbn [summary]; [by rewrite lookup_empty|]. by rewrite !IH. Qed.

Lemma field_top f (w : Z * Node -> Z) (B : Blocks) : additive f -> (forall x, f (block_leaf x) = w x) -> blocks_ok B ->
  field f (summary B LEVELS 0) = map_fold (fun _ x s => w x + s) 0 B.
Proof.
  intros Hf Hw. induction B as [|b x B Hb IH] using map_ind; intros Hok.
  - by rewrite summary_empty, map_fold_empty.
  - rewrite map_fold_insert_L by (try done; intros; lia). rewrite field_insert by done.
    destruct (Hok b x) as [Hr _]; [apply lookup_insert_eq|]. rewrite Z.div_small, decide_True by done. rewrite Hw, IH; [lia|].
    intros b' x' Hb'. apply Hok. rewrite lookup_insert_ne by congruence. done.
Qed.

Lemma top_coins B : blocks_ok B -> field tn_coins (summary B LEVELS 0) = total_coins B.
Proof. intros. by apply (field_top tn_coins fst B coins_additive). Qed.

Lemma top_blocks B : blocks_ok B -> field tn_blocks (summary B LEVELS 0) = Z.of_nat (size B).
Proof.
  intros Hok. rewrite (field_top tn_blocks (fun _ => 1) B blocks_additive) by done. clear Hok.
  induction B as [|b x B Hb IH] using map_ind; [by rewrite map_fold_empty, map_size_empty|].
  rewrite map_fold_insert_L, map_size_insert_None, IH by (try done; intros; lia). lia.
Qed.

(** ** Well-formed nodes *)

Definition node_ok (level : nat) (n : TreeNode) : Prop :=
  1 <= tn_blocks n <= 2 ^ Z.of_nat level /\ tn_blocks n <= tn_coins n <= u64_max.

Lemma summary_counts B level index n : blocks_ok B -> summary B level index = Some n ->
  1 <= tn_blocks n <= 2 ^ Z.of_nat level /\ tn_blocks n <= tn_coins n.
Proof.
  intros Hok. revert index n. induction level as [|l IH]; intros index n; cbn [summary].
  - rewrite fmap_Some. intros (x & Hx & ->). apply Hok in Hx. cbn. lia.
  - rewrite pow_S. pose proof (IH (2 * index)) as Hl. pose proof (IH (2 * index + 1)) as Hr.
    destruct (summary B l (2 * index)) as [a|], (summary B l (2 * index + 1)) as [b|]; cbn; [..|done]; intros [= <-]; cbn;
      try specialize (Hl _ eq_refl); try specialize (Hr _ eq_refl); lia.
Qed.

Lemma field_nonneg B level index : blocks_ok B -> 0 <= field tn_coins (summary B level index) /\
  0 <= field tn_blocks (summary B level index) <= field tn_coins (summary B level index).
Proof.
  intros Hok. destruct (summary B level index) as [n|] eqn:E; cbn; [|lia]. apply summary_counts in E; [lia|done].
Qed.

Lemma child_index i : 0 <= i -> i = 2 * (i / 2) \/ i = 2 * (i / 2) + 1.
Proof. intros. pose proof (Z.div_mod i 2). pose proof (Z.mod_pos_bound i 2). lia. Qed.

Lemma coins_climb B k : blocks_ok B -> forall level index, (level + k = LEVELS)%nat -> in_tree level index ->
  field tn_coins (summary B level index) <= field tn_coins (summary B LEVELS 0).
Proof.
  intros Hok. induction k as [|k IH]; intros level index Hl [Hlev Hi].
  - replace level with LEVELS in * by lia. rewrite Nat.sub_diag in Hi. replace index with 0 by (cbn in Hi; lia). lia.
  - replace (LEVELS - level)%nat with (S (LEVELS - S level)) in Hi by lia. rewrite pow_S in Hi.
    etrans; [|apply (IH (S level) (index / 2)); [lia|split; [lia|]]].
    + cbn [summary]. rewrite coins_additive. pose proof (field_nonneg B level (2 * (index / 2)) Hok).
      pose proof (field_nonneg B level (2 * (index / 2) + 1) Hok).
      destruct (child_index index) as [E | E]; [lia|rewrite E at 1; lia..].
    + split; [apply Z.div_pos; lia|apply Z.div_lt_upper_bound; lia].
Qed.

Lemma summary_node_ok B level index n : blocks_ok B -> total_coins B <= u64_max -> in_tree level index ->
  summary B level index = Some n -> node_ok level n.
Proof.
  intros Hok Ht Hin E. pose proof (coins_climb B (LEVELS - level) Hok level index ltac:(destruct Hin; lia) Hin) as Hc.
  rewrite E, top_coins in Hc by done. cbn in Hc. pose proof (summary_counts _ _ _ _ Hok E). split; lia.
Qed.

(** ** Reading what was written *)

Lemma decode_encode level n : (level <= LEVELS)%nat -> node_ok level n -> tn_decode (tn_encode n) level = Ok (Some n).
Proof.
  intros Hl ((Hb & Hb') & Hc). unfold tn_decode, tn_encode.
  assert (2 ^ Z.of_nat level <= 2 ^ 16) by (apply Z.pow_le_mono_r; unfold LEVELS, BLOCK_INDEX_BITS, MAX_BLOCK_BITS in Hl; lia).
  set (bytes := _ ++ _). unfold u64_max in Hc.
  assert (slice 0 8 bytes = be_bytes 8 (tn_coins n)) as E1.
  { unfold slice, bytes. rewrite drop_0. by rewrite take_app_length' by (by rewrite be_bytes_length). }
  assert (slice 8 16 bytes = be_bytes 8 (tn_blocks n)) as E2.
  { unfold slice, bytes. rewrite drop_app_length' by (by rewrite be_bytes_length).
    by rewrite take_app_length' by (by rewrite be_bytes_length). }
  assert (drop HEADER bytes = to_bytes (tn_node n)) as E3.
  { unfold bytes, HEADER. rewrite app_assoc, drop_app_length'; [done|]. by rewrite length_app, !be_bytes_length. }
  assert (length bytes = RECORD) as E4.
  { unfold bytes, RECORD, HEADER. rewrite !length_app, !be_bytes_length, to_bytes_length. done. }
  rewrite bool_decide_eq_false_2.
  2: { intros E. apply (f_equal (slice 8 16)) in E. rewrite E2 in E. apply (f_equal be_val) in E.
       rewrite be_val_bytes, Z.mod_small in E by (change (256 ^ Z.of_nat 8) with (2 ^ 64); lia). change (be_val (slice 8 16 CLEARED)) with 0 in E. lia. }
  rewrite E1, E2, E3, E4, Nat.eqb_refl, !be_val_bytes, !Z.mod_small by (change (256 ^ Z.of_nat 8) with (2 ^ 64); lia).
  rewrite (proj2 (Nat.ltb_ge _ _)), (proj2 (Z.eqb_neq _ _)), !(proj2 (Z.ltb_ge _ _)) by lia.
  cbn [negb orb]. rewrite from_bytes_to_bytes. by destruct n.
Qed.

Definition opt_ok (level : nat) (o : option TreeNode) : Prop := forall n, o = Some n -> node_ok level n.

Lemma read_write_node st l i o l' i' : in_tree l i -> in_tree l' i' -> opt_ok l o ->
  read_node application (write_node application st l i o) l' i'
  = if decide (l = l' /\ i = i') then Ok o else read_node application st l' i'.
Proof.
  intros Hin Hin' Ho. unfold read_node, write_node. rewrite read_write_local by done.
  destruct (decide (l = l' /\ i = i')) as [[-> ->]|Hne].
  - rewrite (proj2 (Nat.ltb_ge _ _)), (proj2 (Z.leb_gt _ _)) by (destruct Hin; lia). cbn [orb].
    rewrite decide_True by done. destruct o as [n|]; [|by unfold tn_decode; rewrite bool_decide_eq_true_2].
    apply decode_encode; [destruct Hin; lia|by apply Ho].
  - rewrite decide_False; [done|]. intros [_ E]. apply Hne.
    enough (NodeRec l i = NodeRec l' i') by (split; congruence). by apply record_address_inj.
Qed.

(** ** What a write leaves alone *)

Definition same_elsewhere (st st' : AppState) : Prop :=
  st_vertices st' = st_vertices st /\
  forall app' a, length app' = length application -> (app' = application -> forall l i, in_tree l i -> a <> node_address l i) ->
    read_local st' app' a = read_local st app' a.
#[export] Instance same_elsewhere_refl : Reflexive same_elsewhere.
Proof. by intros st. Qed.
#[export] Instance same_elsewhere_trans : Transitive same_elsewhere.
Proof. intros a b c [V1 H1] [V2 H2]. split; [congruence|]. intros app' x Hl Hx. by rewrite H2, H1. Qed.

Lemma write_node_elsewhere st l i o : in_tree l i -> same_elsewhere st (write_node application st l i o).
Proof.
  intros Hin. split; [done|]. intros app' a Hl Ha. unfold write_node. rewrite read_write_local by done.
  apply decide_False. intros [-> <-]. by eapply Ha.
Qed.

Lemma write_level_spec st l (m : gmap Z (option TreeNode)) :
  (forall i o, m !! i = Some o -> in_tree l i /\ opt_ok l o) ->
  same_elsewhere st (write_level application st l m) /\
  forall l' i', in_tree l' i' -> read_node application (write_level application st l m) l' i'
    = if decide (l = l') then from_option Ok (read_node application st l' i') (m !! i') else read_node application st l' i'.
Proof.
  unfold write_level. revert m. apply (map_fold_weak_ind (fun r m => (forall i o, m !! i = Some o -> in_tree l i /\ opt_ok l o) ->
    same_elsewhere st r /\ forall l' i', in_tree l' i' -> read_node application r l' i'
    = if decide (l = l') then from_option Ok (read_node application st l' i') (m !! i') else read_node application st l' i')).
  - intros _. split; [done|]. intros l' i' _. rewrite lookup_empty. by case_decide.
  - intros i o m r Hi IH Hm. destruct (Hm i o ltac:(apply lookup_insert_eq)) as [Hin Ho].
    destruct IH as [Hs Hr]; [intros j p Hj; apply Hm; rewrite lookup_insert_ne by congruence; done|].
    split; [etrans; [exact Hs|by apply write_node_elsewhere]|]. intros l' i' Hin'. rewrite read_write_node, Hr by done.
    destruct (decide (l = l')) as [<-|]; [|by rewrite decide_False by tauto].
    destruct (decide (i = i')) as [<-|]; [by rewrite decide_True, lookup_insert_eq by done|].
    rewrite decide_False, lookup_insert_ne by tauto. done.
Qed.

(** ** Updating *)

Lemma shiftl_1 p : Z.shiftl p 1 = 2 * p.
Proof. rewrite Z.shiftl_mul_pow2 by lia. lia. Qed.
Lemma lor_shiftl_1 p : Z.lor (Z.shiftl p 1) 1 = 2 * p + 1.
Proof. rewrite lor_shiftl_add by lia. lia. Qed.
Lemma in_tree_children l p : in_tree (S l) p -> in_tree l (2 * p) /\ in_tree l (2 * p + 1).
Proof.
  intros [Hl Hp]. assert (2 ^ Z.of_nat (LEVELS - l) = 2 * 2 ^ Z.of_nat (LEVELS - S l)) as E
    by (rewrite <- pow_S; f_equal; lia). unfold in_tree. rewrite E. lia.
Qed.
Lemma in_tree_parent l c : in_tree l c -> (S l <= LEVELS)%nat -> in_tree (S l) (Z.shiftr c 1).
Proof.
  intros [_ Hc] Hl. split; [done|]. rewrite Z.shiftr_div_pow2 by lia.
  assert (2 ^ Z.of_nat (LEVELS - l) = 2 * 2 ^ Z.of_nat (LEVELS - S l)) as E by (rewrite <- pow_S; f_equal; lia).
  split; [apply Z.div_pos; lia|apply Z.div_lt_upper_bound; lia].
Qed.

Lemma parent_node_join B l p : blocks_ok B -> total_coins B <= u64_max -> in_tree (S l) p ->
  parent_node context l (summary B l (2 * p)) (summary B l (2 * p + 1)) = Ok (summary B (S l) p).
Proof.
  intros Hok Ht Hin. pose proof (coins_climb B (LEVELS - S l) Hok (S l) p ltac:(destruct Hin; lia) Hin) as Hc.
  rewrite top_coins in Hc by done. cbn [summary] in *. rewrite coins_additive in Hc.
  pose proof (field_nonneg B l (2 * p) Hok). pose proof (field_nonneg B l (2 * p + 1) Hok).
  unfold parent_node, sum_field, join, node_or, summary_zeros. rewrite zero_nodes_total by (destruct Hin; lia).
  destruct (summary B l (2 * p)) as [a|], (summary B l (2 * p + 1)) as [b|]; unfold field in *; cbn [from_option] in *;
    rewrite ?checked_add_u64_ok by lia; reflexivity.
Qed.

Section Update.
Context (B B' : Blocks) (Hok : blocks_ok B) (Hok' : blocks_ok B').
Context (Ht : total_coins B <= u64_max) (Ht' : total_coins B' <= u64_max).

(** Levels below [lv] hold the new nodes, the others the old ones. *)
Definition phase (st : AppState) (lv : nat) : Prop := forall l i, in_tree l i ->
  read_node application st l i = Ok (if (l <? lv)%nat then summary B' l i else summary B l i).
(** The nodes of level [lv] that change. *)
Definition delta (lv : nat) (ch : gmap Z (option TreeNode)) : Prop := forall i o,
  ch !! i = Some o <-> in_tree lv i /\ o = summary B' lv i /\ summary B lv i <> o.

Lemma write_phase st lv ch : phase st lv -> delta lv ch ->
  phase (write_level application st lv ch) (S lv) /\ same_elsewhere st (write_level application st lv ch).
Proof.
  intros Hp Hd. destruct (write_level_spec st lv ch) as [Hs Hr].
  { intros i o (Hin & -> & _)%Hd. split; [done|]. intros n. by apply summary_node_ok. }
  split; [|done]. intros l i Hin. rewrite Hr, Hp by done. case_decide as E.
  - subst l. rewrite Nat.ltb_irrefl, (proj2 (Nat.ltb_lt _ _)) by lia. destruct (ch !! i) as [o|] eqn:Ei; cbn.
    + by apply Hd in Ei as (_ & -> & _).
    + f_equal. destruct (decide (summary B lv i = summary B' lv i)) as [|Hne]; [done|].
      exfalso. assert (ch !! i = Some (summary B' lv i)) by (by apply Hd). congruence.
  - destruct (Nat.ltb_spec l lv), (Nat.ltb_spec l (S lv)); try done; lia.
Qed.

Lemma changed_parents_spec st lv ch ps : phase st (S lv) -> delta lv ch -> NoDup ps -> (forall p, p ∈ ps -> in_tree (S lv) p) ->
  exists above, changed_parents context application st lv ch ps = Ok above /\
    forall p o, above !! p = Some o <-> p ∈ ps /\ o = summary B' (S lv) p /\ summary B (S lv) p <> o.
Proof.
  intros Hp Hd Hnd. induction Hnd as [|p ps Hnot Hnd IH]; intros Hin; cbn [changed_parents].
  { exists ∅. split; [done|]. intros p o. rewrite lookup_empty. set_solver. }
  assert (forall c, in_tree lv c -> child application st lv ch c = Ok (summary B' lv c)) as Hchild.
  { intros c Hc. unfold child. destruct (ch !! c) as [o|] eqn:E; [by apply Hd in E as (_ & -> & _)|].
    rewrite Hp by done. by rewrite (proj2 (Nat.ltb_lt _ _)) by lia. }
  pose proof (Hin p ltac:(set_solver)) as Hpin. destruct (in_tree_children lv p Hpin).
  rewrite lor_shiftl_1, shiftl_1, !Hchild by done.
  cbn [mbind result_bind]. rewrite parent_node_join by done. cbn [mbind result_bind].
  rewrite Hp, Nat.ltb_irrefl by done. cbn [mbind result_bind].
  destruct IH as (above & -> & Ha); [intros; apply Hin; set_solver|]. cbn [mbind result_bind]. eexists. split; [done|].
  intros q o. case_decide as Eq.
  - rewrite Ha, elem_of_cons. split; [naive_solver|]. intros ([-> | Hq] & -> & Hne); [congruence|done].
  - destruct (decide (p = q)) as [<-|Hpq].
    + rewrite lookup_insert_eq, elem_of_cons. split; [intros [= <-]; auto|]. by intros (_ & -> & _).
    + rewrite lookup_insert_ne, Ha, elem_of_cons by done. naive_solver.
Qed.

Lemma parents_delta st lv ch : phase st (S lv) -> delta lv ch -> (S lv <= LEVELS)%nat ->
  exists above, changed_parents context application st lv ch (parent_indices ch) = Ok above /\ delta (S lv) above.
Proof.
  intros Hp Hd Hl. assert (forall p, p ∈ parent_indices ch <-> exists c, is_Some (ch !! c) /\ p = Z.shiftr c 1) as Hpar.
  { intros p. unfold parent_indices. rewrite elem_of_elements, elem_of_map. split.
    - intros (c & -> & Hc%elem_of_dom). eauto.
    - intros (c & Hc & ->). exists c. by rewrite elem_of_dom. }
  destruct (changed_parents_spec st lv ch (parent_indices ch) Hp Hd) as (above & E & Ha).
  - apply NoDup_elements.
  - intros p (c & [o Hc] & ->)%Hpar. apply Hd in Hc as (Hc & _). by apply in_tree_parent.
  - exists above. split; [done|]. intros p o. rewrite Ha. split.
    + intros (Hin & -> & Hne). split; [|done]. apply Hpar in Hin as (c & [o Hc] & ->). apply Hd in Hc as (Hc & _). by apply in_tree_parent.
    + intros (Hin & -> & Hne). split; [|done]. apply Hpar. destruct (in_tree_children lv p Hin) as [H1 H2].
      assert (forall c, in_tree lv c -> summary B lv c <> summary B' lv c -> is_Some (ch !! c)) as Hch.
      { intros c Hc Hcne. exists (summary B' lv c). by apply Hd. }
      destruct (decide (summary B lv (2 * p) = summary B' lv (2 * p))) as [E1|E1];
        [destruct (decide (summary B lv (2 * p + 1) = summary B' lv (2 * p + 1))) as [E2|E2]|].
      * exfalso. apply Hne. cbn [summary]. by rewrite E1, E2.
      * exists (2 * p + 1). split; [by apply Hch|]. rewrite Z.shiftr_div_pow2 by lia. apply (Z.div_unique _ _ _ 1); lia.
      * exists (2 * p). split; [by apply Hch|]. rewrite Z.shiftr_div_pow2 by lia. apply (Z.div_unique _ _ _ 0); lia.
Qed.

Lemma update_levels_spec n : forall st lv ch, (lv + n = LEVELS)%nat -> phase st lv -> delta lv ch ->
  exists st', update_levels context application st lv n ch = Ok st' /\ phase st' (S LEVELS) /\ same_elsewhere st st'.
Proof.
  induction n as [|n IH]; intros st lv ch Hn Hp Hd; cbn [update_levels]; destruct (write_phase st lv ch Hp Hd) as [Hp' Hs].
  - replace lv with LEVELS in * by lia. eauto.
  - destruct (parents_delta _ lv ch Hp' Hd) as (above & -> & Hd'); [lia|]. cbn [mbind result_bind].
    destruct (IH (write_level application st lv ch) (S lv) above) as (st' & -> & Hp'' & Hs'); [lia|done..|].
    exists st'. split; [done|]. split; [done|]. by etrans.
Qed.
End Update.

(** ** The blocks a list of leaves sets *)

Definition set_block (B : Blocks) (e : Z * Z * Node) : Blocks :=
  if 0 <? e.1.2 then <[e.1.1 := (e.1.2, e.2)]> B else delete e.1.1 B.
Definition set_blocks (B : Blocks) (leaves : list (Z * Z * Node)) : Blocks := foldl set_block B leaves.
Definition leaf_of (coins : Z) (root : Node) : option TreeNode :=
  if 0 <? coins then Some (mkTreeNode coins 1 root) else None.
Definition leaves_ok (leaves : list (Z * Z * Node)) : Prop :=
  NoDup ((fun e => e.1.1) <$> leaves) /\ Forall (fun e => 0 <= e.1.1 < 2 ^ Z.of_nat LEVELS /\ 0 <= e.1.2) leaves.

Lemma set_block_lookup (B : Blocks) e b :
  set_block B e !! b = if decide (e.1.1 = b) then (if 0 <? e.1.2 then Some (e.1.2, e.2) else None) else B !! b.
Proof.
  unfold set_block. destruct (0 <? e.1.2); case_decide as Hb; subst;
    rewrite ?lookup_insert_eq, ?lookup_delete_eq, ?lookup_insert_ne, ?lookup_delete_ne by done; done.
Qed.

Lemma set_blocks_other B leaves b : b ∉ (fun e => e.1.1) <$> leaves -> set_blocks B leaves !! b = B !! b.
Proof.
  revert B. induction leaves as [|e leaves IH]; intros B Hb; [done|]. cbn in Hb. rewrite not_elem_of_cons in Hb.
  cbn. unfold set_blocks in IH. rewrite IH by tauto. rewrite set_block_lookup, decide_False by naive_solver. done.
Qed.

Lemma set_blocks_leaf B leaves b c r : NoDup ((fun e => e.1.1) <$> leaves) -> (b, c, r) ∈ leaves ->
  set_blocks B leaves !! b = if 0 <? c then Some (c, r) else None.
Proof.
  revert B. induction leaves as [|e leaves IH]; intros B Hnd Hin; [by apply not_elem_of_nil in Hin|].
  cbn in Hnd. apply NoDup_cons in Hnd as [Hnot Hnd]. apply elem_of_cons in Hin as [<-|Hin]; [|by apply IH].
  change (set_blocks B ((b, c, r) :: leaves)) with (set_blocks (set_block B (b, c, r)) leaves).
  rewrite set_blocks_other by done. by rewrite set_block_lookup, decide_True.
Qed.

Lemma leaf_loop_spec leaves : forall acc, leaves_ok leaves -> (forall b, b ∈ (fun e => e.1.1) <$> leaves -> acc !! b = None) ->
  exists level, leaf_loop leaves acc = Ok level /\
    forall b o, level !! b = Some o <-> acc !! b = Some o \/ exists c r, (b, c, r) ∈ leaves /\ o = leaf_of c r.
Proof.
  induction leaves as [|[[b c] r] leaves IH]; intros acc [Hnd Hall] Hacc; cbn [leaf_loop].
  { exists acc. split; [done|]. intros b o. split; [auto|]. intros [? | (? & ? & Hin & _)]; [done|by apply not_elem_of_nil in Hin]. }
  apply Forall_cons in Hall as [[Hb Hc] Hall]. cbn in Hnd, Hb. apply NoDup_cons in Hnd as [Hnot Hnd].
  rewrite (proj2 (Z.leb_gt _ _)), Hacc by (try lia; set_solver).
  destruct (IH (<[b := leaf_of c r]> acc)) as (level & E & Hl); [done| |].
  { intros b' Hb'. rewrite lookup_insert_ne by set_solver. apply Hacc. set_solver. }
  exists level. split; [done|]. intros b' o. rewrite Hl. destruct (decide (b = b')) as [<-|Hne].
  - rewrite lookup_insert_eq, (Hacc b) by set_solver. split; [|].
    + intros [[= <-] | (c' & r' & Hin & ->)]; right; [exists c, r; set_solver|exists c', r'; set_solver].
    + intros [? | (c' & r' & [[= -> ->] | Hin]%elem_of_cons & ->)]; [done|by left|].
      exfalso. apply Hnot. apply list_elem_of_fmap. by exists (b, c', r').
  - rewrite lookup_insert_ne by done. split; intros [? | (c' & r' & Hin & ->)]; auto; right; exists c', r'; [set_solver|].
    apply elem_of_cons in Hin as [[= -> _ _]|Hin]; [done|]. done.
Qed.

Lemma summary_set B leaves b c r : leaves_ok leaves -> (b, c, r) ∈ leaves -> summary (set_blocks B leaves) 0 b = leaf_of c r.
Proof. intros [Hnd _] Hin. cbn [summary]. rewrite (set_blocks_leaf B leaves b c r) by done. unfold leaf_of. by destruct (0 <? c). Qed.

Lemma set_blocks_ok B leaves : blocks_ok B -> leaves_ok leaves -> blocks_ok (set_blocks B leaves).
Proof.
  intros Hok [Hnd Hall] b x. destruct (decide (b ∈ (fun e => e.1.1) <$> leaves)) as [Hin|Hnot].
  - apply list_elem_of_fmap in Hin as ([[b' c] r] & -> & Hin). cbn. rewrite (set_blocks_leaf B leaves b' c r) by done.
    rewrite Forall_forall in Hall. pose proof (Hall _ Hin) as Hb. cbn in Hb. destruct (Z.ltb_spec 0 c); [|done]. intros [= <-]. cbn. lia.
  - rewrite set_blocks_other by done. apply Hok.
Qed.

Lemma changed_leaves_spec st B ls : represents st B -> NoDup (fst <$> ls) -> (forall b, b ∈ fst <$> ls -> in_tree 0 b) ->
  exists ch, changed_leaves application st ls = Ok ch /\
    forall b o, ch !! b = Some o <-> (b, o) ∈ ls /\ summary B 0 b <> o.
Proof.
  intros Hr. induction ls as [|[b o] ls IH]; intros Hnd Hin; cbn [changed_leaves].
  { exists ∅. split; [done|]. intros b o. rewrite lookup_empty. set_solver. }
  cbn in Hnd, Hin. apply NoDup_cons in Hnd as [Hnot Hnd]. rewrite Hr by (apply Hin; set_solver). cbn [mbind result_bind].
  destruct IH as (ch & -> & Hch); [done|intros; apply Hin; set_solver|]. cbn [mbind result_bind]. eexists. split; [done|].
  assert (forall o', (b, o') ∉ ls) as Hb by (intros o' Ho'; apply Hnot, list_elem_of_fmap; by exists (b, o')).
  intros b' o'. case_decide as E.
  - rewrite Hch, elem_of_cons. split; [tauto|]. intros [[[= -> ->] | ?] ?]; [done|tauto].
  - destruct (decide (b = b')) as [<-|Hne].
    + rewrite lookup_insert_eq, elem_of_cons. split; [intros [= <-]; auto|]. intros [[[= ->] | Hin'] _]; [done|by apply Hb in Hin'].
    + rewrite lookup_insert_ne, Hch, elem_of_cons by done. naive_solver.
Qed.

(** ** [update] and [check_cap] *)

Lemma check_cap_spec st B : blocks_ok B -> represents st B ->
  check_cap application st = if decide (Z.of_nat (size B) <= MAX_NONEMPTY_BLOCKS) then Ok () else invalid.
Proof.
  intros Hok Hr. unfold check_cap, top_node. rewrite Hr by (split; [lia|rewrite Nat.sub_diag; cbn; lia]). cbn [mbind result_bind].
  pose proof (top_blocks B Hok) as Hs. destruct (summary B LEVELS 0) as [n|]; cbn in Hs.
  - rewrite <- Hs. case_decide; [by rewrite (proj2 (Z.ltb_ge _ _))|by rewrite (proj2 (Z.ltb_lt _ _)) by lia].
  - rewrite decide_True; [done|]. rewrite <- Hs. by vm_compute.
Qed.

Lemma update_spec st B leaves (B' := set_blocks B leaves) : blocks_ok B -> total_coins B <= u64_max -> represents st B ->
  leaves_ok leaves -> total_coins B' <= u64_max ->
  exists st', represents st' B' /\ same_elsewhere st st' /\
    update context application st leaves = if decide (Z.of_nat (size B') <= MAX_NONEMPTY_BLOCKS) then Ok st' else invalid.
Proof.
  intros Hok Ht Hr Hl Ht'. pose proof (set_blocks_ok B leaves Hok Hl) as Hok'.
  destruct (leaf_loop_spec leaves ∅ Hl) as (level & El & Hlev); [intros; apply lookup_empty|].
  destruct (changed_leaves_spec st B (map_to_list level) Hr) as (ch & Ech & Hch).
  { apply NoDup_fst_map_to_list. }
  { intros b ([b' o] & -> & Hin%elem_of_map_to_list)%list_elem_of_fmap. apply Hlev in Hin as [Hin | (c & r & Hin & _)].
    - by rewrite lookup_empty in Hin.
    - destruct Hl as [_ Hall]. rewrite Forall_forall in Hall. apply Hall in Hin as [Hb _]. split; [lia|]. by rewrite Nat.sub_0_r. }
  destruct (update_levels_spec B B' Hok Hok' Ht Ht' LEVELS st 0 ch) as (st' & Eu & Hp & Hs).
  - done.
  - intros l i Hin. by apply Hr.
  - intros b o. rewrite Hch, elem_of_map_to_list, Hlev, lookup_empty. pose proof Hl as [_ Hall].
    rewrite Forall_forall in Hall. split.
    + intros [[? | (c & r & Hin & ->)] Hne]; [done|]. split.
      * apply Hall in Hin as [Hb _]. split; [lia|]. by rewrite Nat.sub_0_r.
      * split; [|done]. symmetry. by apply summary_set.
    + intros (Hin & -> & Hne). split; [|done]. right. destruct (decide (b ∈ (fun e => e.1.1) <$> leaves)) as [Hb|Hb].
      * apply list_elem_of_fmap in Hb as ([[b' c] r] & -> & Hb). exists c, r. split; [done|]. by apply summary_set.
      * exfalso. apply Hne. unfold B'. cbn [summary]. by rewrite set_blocks_other.
  - assert (represents st' B') as Hr'.
    { intros l i Hin. rewrite Hp by done. by rewrite (proj2 (Nat.ltb_lt _ _)) by (destruct Hin; lia). }
    exists st'. split; [done|]. split; [done|]. unfold update, leaf_level. rewrite El. cbn [mbind result_bind].
    rewrite Ech. cbn [mbind result_bind]. rewrite Eu. cbn [mbind result_bind]. rewrite (check_cap_spec st' B') by done. by case_decide.
Qed.
End Correct.
