(* ===== verification/SummaryRebuild.v ===== *)
(** * Reading and rebuilding the stored block summary

    What the walk over the stored tree returns, that [replace] makes the tree
    exactly the blocks given, and that any history of the two operations stores
    the tree of the blocks set last. *)

From S2P Require Import Prelude Bytes MembershipTree CoinTree ShardedTree ShardedRoots CoinBlocks AccState SummaryTree SummaryCorrect.
From S2P Require Import CoinWitness.

Section Rebuild.
Context `{MembershipHash} (context application : list byte).
#[local] Notation Blocks := (gmap Z (Z * Node)).
#[local] Notation summary := (summary context).
#[local] Notation represents := (represents context application).
#[local] Notation read_node := (read_node application).
#[local] Arguments zero_tree : simpl never.

(** ** The walk *)

Fixpoint walk (B : Blocks) (level : nat) (index : Z) : list (nat * Z * TreeNode) :=
  match summary B level index with
  | None => []
  | Some node =>
      (level, index, node) ::
      match level with O => [] | S l => walk B l (2 * index) ++ walk B l (2 * index + 1) end
  end.

Lemma stored_from_walk st B level : represents st B -> forall index, in_tree level index ->
  stored_from application st level index = Ok (walk B level index).
Proof.
  intros Hr. induction level as [|l IH]; intros index Hin; cbn [stored_from walk]; rewrite Hr by done; cbn [mbind result_bind].
  - by destruct (summary B 0 index).
  - destruct (summary B (S l) index); [|done]. destruct (in_tree_children l index Hin).
    rewrite lor_shiftl_1, shiftl_1, !IH by done. done.
Qed.

(** A node is absent only where its subtree has none. *)
Lemma summary_absent B l i : summary B (S l) i = None -> summary B l (2 * i) = None /\ summary B l (2 * i + 1) = None.
Proof. cbn [SummaryCorrect.summary]. by destruct (summary B l (2 * i)), (summary B l (2 * i + 1)). Qed.

(** The place of a node under [index], [lv - l] levels up. *)
Lemma under_self l i : i / 2 ^ Z.of_nat (l - l) = i.
Proof. rewrite Nat.sub_diag. apply Z.div_1_r. Qed.

Lemma under_child lv l i index : (l <= lv)%nat -> i / 2 ^ Z.of_nat (S lv - l) = index <->
  i / 2 ^ Z.of_nat (lv - l) = 2 * index \/ i / 2 ^ Z.of_nat (lv - l) = 2 * index + 1.
Proof.
  intros Hl. replace (S lv - l)%nat with (S (lv - l)) by lia. rewrite half_of. set (c := i / 2 ^ Z.of_nat (lv - l)).
  pose proof (Z.div_mod c 2). pose proof (Z.mod_pos_bound c 2). lia.
Qed.

Lemma absent_below B lv : forall index l i, summary B lv index = None -> (l <= lv)%nat ->
  i / 2 ^ Z.of_nat (lv - l) = index -> summary B l i = None.
Proof.
  induction lv as [|lv IH]; intros index l i Hn Hl Hi.
  - replace l with 0%nat in * by lia. rewrite under_self in Hi. by subst.
  - destruct (decide (l = S lv)) as [->|Hne]; [rewrite under_self in Hi; by subst|].
    apply summary_absent in Hn as [H1 H2]. apply under_child in Hi; [|lia].
    destruct Hi as [Hi | Hi]; [apply (IH (2 * index))|apply (IH (2 * index + 1))]; first [done|lia].
Qed.

Lemma walk_elem B level : forall index l i n, (l, i, n) ∈ walk B level index <->
  (l <= level)%nat /\ i / 2 ^ Z.of_nat (level - l) = index /\ summary B l i = Some n.
Proof.
  induction level as [|lv IH]; intros index l i n; cbn [walk]; destruct (summary B _ index) as [m|] eqn:E;
    try (split; [by intros ?%not_elem_of_nil|intros (Hl & Hi & Hn); rewrite (absent_below B _ _ _ _ E Hl Hi) in Hn; done]).
  - rewrite elem_of_cons. split; [intros [[= -> -> ->] | ?%not_elem_of_nil]; [by rewrite under_self|done]|].
    intros (Hl & Hi & Hn). replace l with 0%nat in * by lia. rewrite under_self in Hi. left. congruence.
  - rewrite elem_of_cons, elem_of_app, !IH. split.
    + intros [[= -> -> ->] | Hin]; [by rewrite under_self|]. rewrite under_child by (destruct Hin; lia). naive_solver lia.
    + intros (Hl & Hi & Hn). destruct (decide (l = S lv)) as [->|Hne]; [left; rewrite under_self in Hi; congruence|].
      right. apply under_child in Hi; [|lia]. destruct Hi; [left|right]; (split; [lia|done]).
Qed.

Lemma walk_NoDup B level : forall index, NoDup (fst <$> walk B level index).
Proof.
  assert (forall lv index l i, (l, i) ∈ fst <$> walk B lv index -> (l <= lv)%nat /\ i / 2 ^ Z.of_nat (lv - l) = index) as Hk.
  { intros lv index l i ([[l' i'] n] & [= -> ->] & Hin)%list_elem_of_fmap. apply walk_elem in Hin. tauto. }
  induction level as [|lv IH]; intros index; cbn [walk]; destruct (summary _ _ _); rewrite ?fmap_cons, ?fmap_app, ?fmap_nil;
    try apply NoDup_nil_2; apply NoDup_cons; [split; [apply not_elem_of_nil|apply NoDup_nil_2]|].
  split.
  - rewrite elem_of_app. cbn [fst]. intros [Hin | Hin]; apply Hk in Hin; lia.
  - apply NoDup_app. split; [apply IH|]. split; [|apply IH]. intros [l i] [_ H1]%Hk [_ H2]%Hk. lia.
Qed.

Lemma in_tree_under l i : in_tree l i <-> (l <= LEVELS)%nat /\ i / 2 ^ Z.of_nat (LEVELS - l) = 0.
Proof.
  unfold in_tree. split; intros [Hl Hi]; (split; [done|]).
  - by apply Z.div_small.
  - apply Z.div_small_iff in Hi; [|apply Z.pow_nonzero; lia]. assert (0 < 2 ^ Z.of_nat (LEVELS - l)) by lia. lia.
Qed.

(** The stale nodes of [replace]. *)
Lemma stored_positions_map st B : represents st B -> exists found,
  stored_positions application st = Ok found /\ NoDup (fst <$> found) /\
  forall l i n, (list_to_map found : gmap (nat * Z) TreeNode) !! (l, i) = Some n <-> in_tree l i /\ summary B l i = Some n.
Proof.
  intros Hr. exists (walk B LEVELS 0). split; [apply stored_from_walk; [done|split; [lia|rewrite Nat.sub_diag; cbn; lia]]|].
  split; [apply walk_NoDup|]. intros l i n. rewrite <- elem_of_list_to_map by apply walk_NoDup. rewrite walk_elem, in_tree_under. tauto.
Qed.

(** ** [replace] *)

Section Replace.
Context (B B' : Blocks) (Hok : blocks_ok B) (Hok' : blocks_ok B').
Context (Ht : total_coins B <= u64_max) (Ht' : total_coins B' <= u64_max).
Context (stale : gmap (nat * Z) TreeNode).
Context (Hstale : forall l i n, stale !! (l, i) = Some n <-> in_tree l i /\ summary B l i = Some n).

Definition level_nodes (lv : nat) (nodes : gmap Z TreeNode) : Prop :=
  forall i n, nodes !! i = Some n <-> in_tree lv i /\ summary B' lv i = Some n.
(** The new nodes of the levels below [lv] are in place, old ones not yet cleared. *)
Definition half (st : AppState) (lv : nat) : Prop := forall l i, in_tree l i ->
  read_node st l i = Ok (match summary B' l i with
                         | Some n => if (l <? lv)%nat then Some n else summary B l i
                         | None => summary B l i
                         end).
Definition kept_below (lv : nat) (kept : gset (nat * Z)) : Prop :=
  forall l i, (l, i) ∈ kept <-> (l < lv)%nat /\ in_tree l i /\ is_Some (summary B' l i).

Lemma level_lookup lv nodes i : level_nodes lv nodes -> in_tree lv i -> nodes !! i = summary B' lv i.
Proof.
  intros Hn Hin. destruct (summary B' lv i) as [n|] eqn:E; [by apply Hn|].
  destruct (nodes !! i) as [n|] eqn:Ei; [|done]. apply Hn in Ei as [_ Ei]. congruence.
Qed.

Lemma level_parents_spec lv nodes ps : level_nodes lv nodes -> (forall p, p ∈ ps -> in_tree (S lv) p) ->
  exists above, level_parents context lv nodes ps = Ok above /\
    forall p n, above !! p = Some n <-> p ∈ ps /\ summary B' (S lv) p = Some n.
Proof.
  intros Hn. induction ps as [|p ps IH]; intros Hin; cbn [level_parents].
  { exists ∅. split; [done|]. intros p n. rewrite lookup_empty. set_solver. }
  pose proof (Hin p ltac:(set_solver)) as Hp. destruct (in_tree_children lv p Hp).
  rewrite lor_shiftl_1, shiftl_1, !(level_lookup lv nodes) by done. rewrite parent_node_join by done.
  destruct IH as (above & E & Ha); [intros; apply Hin; set_solver|]. cbn [mbind result_bind]. rewrite E. cbn [mbind result_bind].
  eexists. split; [done|]. intros q n. rewrite elem_of_cons. destruct (summary B' (S lv) p) as [m|] eqn:Em.
  - destruct (decide (p = q)) as [<-|Hne]; [rewrite lookup_insert_eq, Em; naive_solver|].
    rewrite lookup_insert_ne, Ha by done. naive_solver.
  - rewrite Ha. naive_solver.
Qed.

Lemma level_parents_above lv nodes : level_nodes lv nodes -> (S lv <= LEVELS)%nat ->
  exists above, level_parents context lv nodes (parent_indices nodes) = Ok above /\ level_nodes (S lv) above.
Proof.
  intros Hn Hl. assert (forall p, p ∈ parent_indices nodes <-> exists c, is_Some (nodes !! c) /\ p = Z.shiftr c 1) as Hpar.
  { intros p. unfold parent_indices. rewrite elem_of_elements, elem_of_map. setoid_rewrite elem_of_dom. naive_solver. }
  assert (forall p, p ∈ parent_indices nodes -> in_tree (S lv) p) as Hin.
  { intros p (c & [n Hc] & ->)%Hpar. apply Hn in Hc as [Hc _]. by apply in_tree_parent. }
  destruct (level_parents_spec lv nodes (parent_indices nodes) Hn Hin) as (above & E & Ha). exists above. split; [done|].
  intros p n. rewrite Ha. split; [intros [Hp Hs]; split; [by apply Hin|done]|]. intros [Hp Hs]. split; [|done]. apply Hpar.
  destruct (in_tree_children lv p Hp) as [H1 H2].
  destruct (summary B' lv (2 * p)) as [a|] eqn:E1; [|destruct (summary B' lv (2 * p + 1)) as [b|] eqn:E2].
  - exists (2 * p). split; [exists a; by apply Hn|]. rewrite Z.shiftr_div_pow2 by lia. apply (Z.div_unique _ _ _ 0); lia.
  - exists (2 * p + 1). split; [exists b; by apply Hn|]. rewrite Z.shiftr_div_pow2 by lia. apply (Z.div_unique _ _ _ 1); lia.
  - cbn [SummaryCorrect.summary] in Hs. by rewrite E1, E2 in Hs.
Qed.

Lemma write_fresh_spec st lv (m : gmap Z TreeNode) :
  (forall i n, stale !! (lv, i) = Some n -> read_node st lv i = Ok (Some n)) ->
  (forall i n, m !! i = Some n -> in_tree lv i /\ node_ok lv n) ->
  same_elsewhere application st (write_fresh application st stale lv m) /\
  forall l i, in_tree l i -> read_node (write_fresh application st stale lv m) l i
    = if decide (lv = l) then from_option (fun n => Ok (Some n)) (read_node st l i) (m !! i) else read_node st l i.
Proof.
  intros Hst. unfold write_fresh. revert m.
  apply (map_fold_weak_ind (fun r m => (forall i n, m !! i = Some n -> in_tree lv i /\ node_ok lv n) ->
    same_elsewhere application st r /\ forall l i, in_tree l i -> read_node r l i
    = if decide (lv = l) then from_option (fun n => Ok (Some n)) (read_node st l i) (m !! i) else read_node st l i)).
  - intros _. split; [done|]. intros l i _. rewrite lookup_empty. by case_decide.
  - intros j n m r Hj IH Hm. destruct (Hm j n ltac:(apply lookup_insert_eq)) as [Hin Ho].
    destruct IH as [Hs Hr]; [intros i p Hi; apply Hm; rewrite lookup_insert_ne by congruence; done|].
    destruct (decide (stale !! (lv, j) = Some n)) as [Es|Es].
    + split; [done|]. intros l i Hi. rewrite Hr by done. destruct (decide (lv = l)) as [<-|]; [|done].
      destruct (decide (j = i)) as [<-|]; [rewrite lookup_insert_eq, Hj; cbn; by apply Hst|by rewrite lookup_insert_ne].
    + split; [etrans; [exact Hs|by apply write_node_elsewhere]|]. intros l i Hi.
      rewrite read_write_node, Hr by (try done; by intros ? [= <-]).
      destruct (decide (lv = l)) as [<-|]; [|by rewrite decide_False by tauto].
      destruct (decide (j = i)) as [<-|]; [by rewrite decide_True, lookup_insert_eq by done|].
      rewrite decide_False, lookup_insert_ne by tauto. done.
Qed.

Lemma fresh_half st lv nodes : half st lv -> level_nodes lv nodes ->
  half (write_fresh application st stale lv nodes) (S lv) /\ same_elsewhere application st (write_fresh application st stale lv nodes).
Proof.
  intros Hh Hn. assert (forall i, in_tree lv i -> read_node st lv i = Ok (summary B lv i)) as Hold.
  { intros i Hi. rewrite Hh, Nat.ltb_irrefl by done. by destruct (summary B' lv i). }
  destruct (write_fresh_spec st lv nodes) as [Hs Hr].
  { intros i n [Hi <-]%Hstale. by apply Hold. }
  { intros i n [Hi Hs]%Hn. split; [done|]. by eapply summary_node_ok. }
  split; [|done]. intros l i Hi. rewrite Hr by done. destruct (decide (lv = l)) as [<-|Hne].
  - rewrite (level_lookup lv nodes i), Hold, (proj2 (Nat.ltb_lt _ _)) by (done || lia). by destruct (summary B' lv i).
  - rewrite Hh by done. destruct (Nat.ltb_spec l lv), (Nat.ltb_spec l (S lv)); try done; lia.
Qed.

Lemma keep_level_below lv nodes kept : kept_below lv kept -> level_nodes lv nodes -> kept_below (S lv) (keep_level kept lv nodes).
Proof.
  intros Hk Hn l i. unfold keep_level. rewrite elem_of_union, (Hk l i), elem_of_map. setoid_rewrite elem_of_dom. split.
  - intros [(? & ?) | (i' & [= -> ->] & [n Hi])]; [split; [lia|done]|]. apply Hn in Hi as [Hi Hs]. split; [lia|]. split; [done|by exists n].
  - intros (Hl & Hi & [n Hs]). destruct (decide (l = lv)) as [->|Hne]; [|left; split; [lia|]; split; [done|by exists n]].
    right. exists i. split; [done|]. exists n. by apply Hn.
Qed.

Lemma replace_levels_spec n : forall st kept lv nodes, (lv + n = LEVELS)%nat -> half st lv -> kept_below lv kept -> level_nodes lv nodes ->
  exists st' kept', replace_levels context application st stale kept lv n nodes = Ok (st', kept') /\
    half st' (S LEVELS) /\ kept_below (S LEVELS) kept' /\ same_elsewhere application st st'.
Proof.
  induction n as [|n IH]; intros st kept lv nodes Hl Hh Hk Hn; cbn [replace_levels];
    destruct (fresh_half st lv nodes Hh Hn) as [Hh' Hs]; pose proof (keep_level_below lv nodes kept Hk Hn) as Hk'.
  - replace lv with LEVELS in * by lia. eauto 10.
  - destruct (level_parents_above lv nodes Hn) as (above & -> & Hn'); [lia|]. cbn [mbind result_bind].
    destruct (IH (write_fresh application st stale lv nodes) (keep_level kept lv nodes) (S lv) above) as (st' & kept' & -> & ? & ? & Hs'); [lia|done..|].
    exists st', kept'. repeat (split; [done|]). by etrans.
Qed.
End Replace.

Lemma clear_stale_spec kept ls : forall st, (forall e, e ∈ ls -> in_tree e.1.1 e.1.2) ->
  same_elsewhere application st (clear_stale application st kept ls) /\
  forall l i, in_tree l i -> read_node (clear_stale application st kept ls) l i
    = if decide ((l, i) ∈ fst <$> ls /\ (l, i) ∉ kept) then Ok None else read_node st l i.
Proof.
  induction ls as [|[[l0 i0] n0] ls IH]; intros st Hin.
  { split; [done|]. intros l i _. rewrite decide_False; [done|]. by intros [?%not_elem_of_nil _]. }
  assert (in_tree l0 i0) as H0 by (apply (Hin (l0, i0, n0)); set_solver).
  unfold clear_stale in *. cbn [foldl fst snd]. rewrite fmap_cons. cbn [fst].
  destruct (decide ((l0, i0) ∈ kept)) as [Hk|Hk].
  - destruct (IH st) as [Hs Hr]; [intros; apply Hin; set_solver|]. split; [done|]. intros l i Hi. rewrite Hr by done.
    apply decide_ext. rewrite elem_of_cons. naive_solver.
  - destruct (IH (write_node application st l0 i0 None)) as [Hs Hr]; [intros; apply Hin; set_solver|].
    split; [etrans; [by apply write_node_elsewhere|done]|]. intros l i Hi. rewrite Hr, read_write_node by done.
    destruct (decide (l0 = l /\ i0 = i)) as [[-> ->]|Hne].
    + rewrite (decide_True (P := (l, i) ∈ (l, i) :: _ /\ _)) by (split; [set_solver|done]). by case_decide.
    + apply decide_ext. rewrite elem_of_cons. naive_solver.
Qed.

Lemma leaf_nodes leaves level : leaves_ok leaves -> leaf_level leaves = Ok level ->
  level_nodes (set_blocks ∅ leaves) 0 (omap id level).
Proof.
  intros Hl El i n. destruct (leaf_loop_spec leaves ∅ Hl) as (level' & El' & Hlev); [intros; apply lookup_empty|].
  unfold leaf_level in El. assert (level' = level) as -> by congruence. rewrite lookup_omap, bind_Some. pose proof Hl as [Hnd Hall].
  rewrite Forall_forall in Hall. split.
  - intros (o & Ho & Eo). cbn in Eo. subst o. apply Hlev in Ho as [Ho | (c & r & Hin & E)]; [by rewrite lookup_empty in Ho|].
    split; [|by rewrite (summary_set context ∅ leaves i c r)]. apply Hall in Hin as [Hb _]. split; [lia|]. by rewrite Nat.sub_0_r.
  - intros [Hi Hs]. exists (Some n). split; [|done]. apply Hlev. right. destruct (decide (i ∈ (fun e => e.1.1) <$> leaves)) as [Hb|Hb].
    + apply list_elem_of_fmap in Hb as ([[b c] r] & -> & Hin). exists c, r. split; [done|]. rewrite <- Hs. by apply summary_set.
    + cbn [SummaryCorrect.summary] in Hs. by rewrite set_blocks_other, lookup_empty in Hs.
Qed.

Lemma empty_ok : blocks_ok (∅ : Blocks).
Proof. intros b x. by rewrite lookup_empty. Qed.

Lemma replace_spec st B leaves (B' := set_blocks ∅ leaves) : blocks_ok B -> total_coins B <= u64_max -> represents st B ->
  leaves_ok leaves -> total_coins B' <= u64_max ->
  exists st', represents st' B' /\ same_elsewhere application st st' /\
    replace context application st leaves = if decide (Z.of_nat (size B') <= MAX_NONEMPTY_BLOCKS) then Ok st' else invalid.
Proof.
  intros Hok Ht Hr Hl Ht'. pose proof (set_blocks_ok ∅ leaves empty_ok Hl) as Hok'.
  destruct (stored_positions_map st B Hr) as (found & Ef & Hnd & Hst). set (stale := list_to_map found : gmap (nat * Z) TreeNode) in *.
  destruct (leaf_loop_spec leaves ∅ Hl) as (level & El & _); [intros; apply lookup_empty|].
  destruct (replace_levels_spec B B' Hok Hok' Ht Ht' stale Hst LEVELS st ∅ 0 (omap id level)) as (st1 & kept & E1 & Hh & Hk & Hs1).
  - done.
  - intros l i Hi. rewrite Hr by done. by destruct (summary B' l i).
  - intros l i. split; [set_solver|]. intros [? _]. lia.
  - by apply leaf_nodes.
  - destruct (clear_stale_spec kept (map_to_list stale) st1) as [Hs2 Hc].
    { intros [[l i] n] Hin%elem_of_map_to_list. by apply Hst in Hin as [Hin _]. }
    set (st' := clear_stale application st1 kept (map_to_list stale)) in *.
    assert (represents st' B') as Hr'.
    { intros l i Hi. rewrite Hc, Hh by done. rewrite (proj2 (Nat.ltb_lt _ _)) by (destruct Hi; lia).
      assert ((l, i) ∈ fst <$> map_to_list stale <-> is_Some (summary B l i)) as Hin.
      { rewrite list_elem_of_fmap. split.
        - intros ([[l' i'] n] & [= -> ->] & Hin%elem_of_map_to_list). apply Hst in Hin as [_ Hin]. by exists n.
        - intros [n Hn]. exists (l, i, n). split; [done|]. apply elem_of_map_to_list. by apply Hst. }
      specialize (Hk l i). destruct (summary B' l i) as [n|].
      - rewrite decide_False; [done|]. intros [_ Hnk]. apply Hnk, Hk. split; [destruct Hi; lia|]. split; [done|by eexists].
      - destruct (summary B l i) as [n|]; [|by case_decide]. rewrite decide_True; [done|]. split; [by apply Hin; eexists|].
        rewrite Hk. by intros (_ & _ & [? ?]). }
    exists st'. split; [done|]. split; [by etrans|]. unfold replace, leaf_level. rewrite Ef. cbn [mbind result_bind].
    rewrite El. cbn [mbind result_bind]. fold stale. rewrite E1. cbn [mbind result_bind]. fold st'.
    rewrite (check_cap_spec context application st' B') by done. by case_decide.
Qed.

(** ** The root is the fold of the block roots *)

Definition block_roots (B : Blocks) : list (Z * Node) := (fun e => (e.1, e.2.2)) <$> map_to_list B.

Lemma node_or_subtree B l : forall i,
  node_or context l (summary B l i) = subtree context (fun b => default (zero_tree context SUBTREE_BITS) (snd <$> B !! b)) l i.
Proof.
  induction l as [|l IH]; intros i; cbn [SummaryCorrect.summary subtree].
  - unfold node_or. rewrite Nat.add_0_r. by destruct (B !! i).
  - rewrite <- !IH. unfold node_or at 1. replace (SUBTREE_BITS + S l)%nat with (S (SUBTREE_BITS + l)) by lia. rewrite zero_tree_S.
    by destruct (summary B l (2 * i)), (summary B l (2 * i + 1)).
Qed.

Lemma root_is_fold B : blocks_ok B -> fold_subtree_roots context (mkShape BLOCK_INDEX_BITS SUBTREE_BITS) (block_roots B)
  = TOk (node_or context LEVELS (summary B LEVELS 0)).
Proof.
  intros Hok. assert (fst <$> block_roots B = fst <$> map_to_list B) as Ek by (unfold block_roots; rewrite <- list_fmap_compose; done).
  assert (forall b r, (b, r) ∈ block_roots B <-> exists c, B !! b = Some (c, r)) as Hel.
  { intros b r. unfold block_roots. rewrite list_elem_of_fmap. split.
    - intros ([b' [c r']] & [= -> ->] & Hin%elem_of_map_to_list). eauto.
    - intros [c Hc%elem_of_map_to_list]. by exists (b, (c, r)). }
  unfold fold_subtree_roots. change (shape_validate _) with (TOk ()). cbn [mbind tree_bind].
  assert (existsb (fun e => shards (mkShape BLOCK_INDEX_BITS SUBTREE_BITS) <=? e.1) (block_roots B) = false) as ->.
  { apply not_true_iff_false. rewrite existsb_exists. intros ([b r] & Hin%list_elem_of_In & Hb%Z.leb_le).
    apply Hel in Hin as [c Hc%Hok]. unfold shards, LEVELS in *. cbn [fst shard_bits] in *. lia. }
  cbn [negb tree_guard mbind tree_bind]. rewrite node_or_subtree.
  apply (fold_level_roots context _ SUBTREE_BITS LEVELS).
  - intros k Hk. apply zero_nodes_drop. unfold shape_depth. cbn [shard_bits subtree_bits]. unfold LEVELS in Hk. lia.
  - done.
  - rewrite Ek. apply NoDup_fst_map_to_list.
  - intros i ([b r] & -> & Hin)%list_elem_of_fmap. apply Hel in Hin as [c Hc%Hok]. by destruct Hc.
  - intros b. f_equal. destruct (search (block_roots B) b) as [r|] eqn:E.
    + apply search_elem, Hel in E as [c ->]. done.
    + apply search_None in E. rewrite Ek in E. destruct (B !! b) as [[c r]|] eqn:Eb; [|done]. exfalso. apply E.
      apply list_elem_of_fmap. exists (b, (c, r)). split; [done|]. by apply elem_of_map_to_list.
Qed.

(** ** The entries, ascending *)

Lemma leaf_entries_elem B level index b c r : (b, c, r) ∈ leaf_entries (walk B level index) <->
  b / 2 ^ Z.of_nat level = index /\ B !! b = Some (c, r).
Proof.
  unfold leaf_entries. rewrite list_elem_of_fmap. split.
  - intros ([[l i] n] & [= -> -> ->] & [Hl Hin]%list_elem_of_filter). cbn in Hl. subst l.
    apply walk_elem in Hin as (_ & Hi & Hs). rewrite Nat.sub_0_r in Hi. split; [done|]. cbn [SummaryCorrect.summary] in Hs.
    destruct (B !! i) as [[c' r']|]; [|done]. by injection Hs as <-.
  - intros [Hi Hb]. exists (0%nat, b, mkTreeNode c 1 r). split; [done|]. apply list_elem_of_filter. split; [done|].
    apply walk_elem. rewrite Nat.sub_0_r. split; [lia|]. split; [done|]. cbn [SummaryCorrect.summary]. by rewrite Hb.
Qed.

Definition block_lt (x y : Z * Z * Node) : Prop := x.1.1 < y.1.1.

Lemma leaf_entries_sorted B level : forall index, StronglySorted block_lt (leaf_entries (walk B level index)).
Proof.
  assert (forall l i x, x ∈ leaf_entries (walk B l i) -> x.1.1 / 2 ^ Z.of_nat l = i) as Hr
    by (intros l i [[b c] r] Hx; by apply leaf_entries_elem in Hx as [Hx _]).
  induction level as [|l IH]; intros index; cbn [walk]; destruct (summary _ _ _); unfold leaf_entries; try constructor; [constructor..|].
  rewrite filter_cons_False by done. rewrite filter_app, fmap_app.
  fold (leaf_entries (walk B l (2 * index))) (leaf_entries (walk B l (2 * index + 1))).
  apply StronglySorted_app. split; [|split; [apply IH|apply IH]]. intros x y Hx%Hr Hy%Hr. unfold block_lt.
  assert (0 < 2 ^ Z.of_nat l) by lia. pose proof (Z.div_mod x.1.1 (2 ^ Z.of_nat l)). pose proof (Z.mod_pos_bound x.1.1 (2 ^ Z.of_nat l)).
  pose proof (Z.div_mod y.1.1 (2 ^ Z.of_nat l)). pose proof (Z.mod_pos_bound y.1.1 (2 ^ Z.of_nat l)). nia.
Qed.

(** What the stored summary answers about the blocks it represents: the
    application root it returns is the fold of the block roots, the top node
    counts all coins and all non-empty blocks, the node over a shard's range of
    one width is the tree of the blocks there, and [entries] lists every block
    once, in ascending order. *)
Theorem summary_reads st B : blocks_ok B -> represents st B ->
  (exists root, summary_root context application st = Ok root /\
     fold_subtree_roots context (mkShape BLOCK_INDEX_BITS SUBTREE_BITS) (block_roots B) = TOk root) /\
  (exists top, top_node application st = Ok top /\ field tn_coins top = total_coins B /\ field tn_blocks top = Z.of_nat (size B)) /\
  (forall level index, in_tree level index -> shard_node application st (SUBTREE_BITS + level) index = Ok (summary B level index)) /\
  (exists list, entries application st = Ok list /\ StronglySorted block_lt list /\
     forall b c r, (b, c, r) ∈ list <-> B !! b = Some (c, r)).
Proof.
  intros Hok Hr. assert (in_tree LEVELS 0) as Htop by (split; [lia|rewrite Nat.sub_diag; cbn; lia]). split; [|split; [|split]].
  - exists (node_or context LEVELS (summary B LEVELS 0)). split; [|by apply root_is_fold]. unfold summary_root, top_node. rewrite Hr by done.
    cbn [mbind result_bind]. unfold node_or, summary_zeros. rewrite zero_nodes_total by lia. by destruct (summary B LEVELS 0).
  - exists (summary B LEVELS 0). split; [by apply Hr|]. split; [by apply top_coins|by apply top_blocks].
  - intros level index Hin. unfold shard_node. rewrite (proj2 (Nat.ltb_ge _ _)) by lia.
    replace (SUBTREE_BITS + level - SUBTREE_BITS)%nat with level by lia. by apply Hr.
  - exists (leaf_entries (walk B LEVELS 0)). split; [|split; [apply leaf_entries_sorted|]].
    + unfold entries, stored_positions. by rewrite (stored_from_walk st B LEVELS Hr 0 Htop).
    + intros b c r. rewrite leaf_entries_elem. split; [tauto|]. intros Hb. split; [|done]. apply Z.div_small. by destruct (Hok b (c, r) Hb).
Qed.

(** ** Histories *)

Inductive summary_op :=
| OpUpdate (leaves : list (Z * Z * Node))
| OpReplace (leaves : list (Z * Z * Node)).
Definition op_leaves (op : summary_op) : list (Z * Z * Node) := match op with OpUpdate l | OpReplace l => l end.
Definition run_op (st : AppState) (op : summary_op) : result AppState :=
  match op with OpUpdate l => update context application st l | OpReplace l => replace context application st l end.
Definition spec_op (B : Blocks) (op : summary_op) : Blocks :=
  match op with OpUpdate l => set_blocks B l | OpReplace l => set_blocks ∅ l end.
Fixpoint run (st : AppState) (ops : list summary_op) : result AppState :=
  match ops with [] => Ok st | op :: ops => st ← run_op st op; run st ops end.
(** Every set of blocks on the way is within the counters. *)
Fixpoint counted (B : Blocks) (ops : list summary_op) : Prop :=
  match ops with
  | [] => True
  | op :: ops => leaves_ok (op_leaves op) /\ total_coins (spec_op B op) <= u64_max /\ counted (spec_op B op) ops
  end.
Fixpoint capped (B : Blocks) (ops : list summary_op) : bool :=
  match ops with
  | [] => true
  | op :: ops => (Z.of_nat (size (spec_op B op)) <=? MAX_NONEMPTY_BLOCKS) && capped (spec_op B op) ops
  end.

Lemma run_op_spec st B op : blocks_ok B -> total_coins B <= u64_max -> represents st B ->
  leaves_ok (op_leaves op) -> total_coins (spec_op B op) <= u64_max ->
  exists st', represents st' (spec_op B op) /\ same_elsewhere application st st' /\
    run_op st op = if decide (Z.of_nat (size (spec_op B op)) <= MAX_NONEMPTY_BLOCKS) then Ok st' else invalid.
Proof. destruct op; [apply update_spec|apply replace_spec]. Qed.

Lemma spec_op_ok B op : blocks_ok B -> leaves_ok (op_leaves op) -> blocks_ok (spec_op B op).
Proof. destruct op; intros; apply set_blocks_ok; (done || apply empty_ok). Qed.

Lemma run_spec ops : forall st B, blocks_ok B -> total_coins B <= u64_max -> represents st B -> counted B ops ->
  exists st', represents st' (foldl spec_op B ops) /\ same_elsewhere application st st' /\
    run st ops = if capped B ops then Ok st' else invalid.
Proof.
  induction ops as [|op ops IH]; intros st B Hok Ht Hr Hc; cbn [run capped foldl]; [exists st; done|].
  destruct Hc as (Hl & Ht' & Hc). destruct (run_op_spec st B op Hok Ht Hr Hl Ht') as (st1 & Hr1 & Hs1 & ->).
  destruct (IH st1 (spec_op B op)) as (st' & Hr' & Hs' & E); [by apply spec_op_ok|done..|].
  exists st'. split; [done|]. split; [by etrans|]. case_decide.
  - rewrite (proj2 (Z.leb_le _ _)) by done. cbn [mbind result_bind andb]. done.
  - rewrite (proj2 (Z.leb_gt _ _)) by lia. done.
Qed.

(** A state with no summary record. *)
Definition no_summary (st : AppState) : Prop :=
  forall level index, in_tree level index -> read_local st application (node_address level index) = None.

Lemma no_summary_empty st : no_summary st -> represents st ∅.
Proof.
  intros Hn l i Hi. unfold SummaryTree.read_node. rewrite (proj2 (Nat.ltb_ge _ _)), (proj2 (Z.leb_gt _ _)) by (destruct Hi; lia).
  cbn [orb]. by rewrite Hn, summary_empty.
Qed.

(** C13. The stored summary keeps no trace of how it came about.  From a state
    without one, any history of [update]s and [replace]s whose counts fit the
    counters either stores at every place exactly the node the blocks set last
    determine, so that it is what one rebuild would store, or fails because the
    blocks on the way exceed the cap, and never otherwise; no other record of the
    state is touched. *)
Theorem summary_history st ops : no_summary st -> counted ∅ ops ->
  exists st', run st ops = (if capped ∅ ops then Ok st' else invalid) /\
    represents st' (foldl spec_op ∅ ops) /\ same_elsewhere application st st'.
Proof.
  intros Hn Hc. destruct (run_spec ops st ∅ empty_ok) as (st' & Hr & Hs & E); [by vm_compute|by apply no_summary_empty|done|].
  by exists st'.
Qed.
End Rebuild.

Section Example.
#[local] Existing Instance small_hash.

Definition sample_summary_ops : list summary_op :=
  [OpUpdate [(64, 2, x05); (65, 1, x09)]; OpReplace [(130, 7, x05); (64, 3, x06)]; OpUpdate [(64, 0, x00); (40000, 1, x21)]].

Lemma sample_counted : counted ∅ sample_summary_ops.
Proof.
  cbn [counted sample_summary_ops op_leaves]. repeat split;
    match goal with
    | |- NoDup _ => apply (bool_decide_unpack _); vm_compute; reflexivity
    | |- Forall _ _ => repeat constructor; vm_compute; congruence
    | |- _ <= _ => vm_compute; congruence
    end.
Qed.

Lemma sample_no_summary : no_summary sample_context (mkState ∅ ∅).
Proof. intros l i _. unfold read_local. cbn. by rewrite !lookup_empty. Qed.

Lemma summary_history_witness : exists st',
  run [x07] sample_context (mkState ∅ ∅) sample_summary_ops = (if capped ∅ sample_summary_ops then Ok st' else invalid) /\
  represents [x07] sample_context st' (foldl spec_op ∅ sample_summary_ops) /\
  same_elsewhere sample_context (mkState ∅ ∅) st'.
Proof. apply (summary_history [x07] sample_context (mkState ∅ ∅) sample_summary_ops); [exact sample_no_summary|exact sample_counted]. Defined.

Lemma summary_reads_witness : exists st B, B !! 130 = Some (7, x05 : Node) /\
  (exists root, summary_root [x07] sample_context st = Ok root /\
     fold_subtree_roots [x07] (mkShape BLOCK_INDEX_BITS SUBTREE_BITS) (block_roots B) = TOk root) /\
  (exists top, top_node sample_context st = Ok top /\ field tn_coins top = total_coins B /\ field tn_blocks top = Z.of_nat (size B)) /\
  (forall level index, in_tree level index ->
     shard_node sample_context st (SUBTREE_BITS + level) index = Ok (SummaryCorrect.summary [x07] B level index)) /\
  (exists list, entries sample_context st = Ok list /\ StronglySorted block_lt list /\
     forall b c r, (b, c, r) ∈ list <-> B !! b = Some (c, r)).
Proof.
  destruct (run_spec [x07] sample_context sample_summary_ops (mkState ∅ ∅) ∅) as (st & Hr & _);
    [apply empty_ok|by vm_compute|apply no_summary_empty, sample_no_summary|exact sample_counted|].
  exists st, (foldl spec_op ∅ sample_summary_ops). split; [vm_compute; reflexivity|]. apply (summary_reads [x07] sample_context st _); [|exact Hr].
  cbn [foldl sample_summary_ops spec_op]. pose proof sample_counted as (H1 & _ & H2 & _ & H3 & _).
  repeat apply set_blocks_ok; try done; apply empty_ok.
Defined.
End Example.
