(* ===== verification/SettlementRecord.v ===== *)
(** * Settlement entries and their relay ([token_intrinsic/settlement_record.rs])

    The entry of a cross-domain settlement as bytes, the canonical list of one
    frame's entries, and the relay of the last thirty-two frames a shard header
    carries.  The record written into the global state is the entry itself; its
    tree form and the membership proof of it are the tries of other files. *)

From S2P Require Import Prelude Bytes Cursor.

(** ** Fixed arrays and wide integers *)

Definition put_bytes (bs : list byte) : list byte := bs.
(** [Reader::array]: a fixed number of bytes. *)
Definition read_fixed (n : nat) : reader (list byte) := read_exact InvalidArgument n.
Definition digest_ok (n : nat) (bs : list byte) : Prop := length bs = n.
#[export] Instance fixed_codec n : Codec put_bytes (read_fixed n) (digest_ok n).
Proof. split; [intros bs rest Hn; by apply read_exact_app|by intros r bs r' [-> <-]%read_exact_inv]. Qed.

Definition is_u128 (z : Z) : Prop := 0 <= z < 2 ^ 128.
Definition put_u128 (v : Z) : list byte := be_bytes 16 v.
Definition read_u128 : reader Z := be_val <$> read_exact InvalidArgument 16.
#[export] Instance u128_codec : Codec put_u128 read_u128 is_u128.
Proof. apply (be_codec 16). Qed.
#[global] Arguments put_u128 : simpl never.

(** [&c[a..b]] *)
Definition segment (a b : nat) (c : list byte) : list byte := take (b - a) (drop a c).

(** [bytes.chunks_exact(n)] *)
Fixpoint chunks (k n : nat) (bs : list byte) : list (list byte) :=
  match k with O => [] | S k' => take n bs :: chunks k' n (drop n bs) end.
Definition chunks_exact (n : nat) (bs : list byte) : list (list byte) := chunks (length bs / n) n bs.

(** ** Entries *)

Record SettlementEntry := mkSettlement {
  receipt : list byte;
  parameter_context : list byte;
  destination : list byte;
  se_context : list byte;
  settlement : Z;
  payment_address : list byte;
  payment : Z;
  claimant : list byte;
}.

#[export] Instance SettlementEntry_eq_dec : EqDecision SettlementEntry.
Proof. solve_decision. Defined.

Definition SETTLEMENT_BYTES : nat := 224.
Definition RELAY_ENTRY_BYTES : nat := 8 + SETTLEMENT_BYTES.
Definition MAX_SETTLEMENTS_PER_FRAME : nat := 64.
Definition SETTLEMENT_WINDOW : Z := 32.
Definition MAX_RELAY_ENTRIES : nat := MAX_SETTLEMENTS_PER_FRAME * Z.to_nat SETTLEMENT_WINDOW.

Definition put_entry (e : SettlementEntry) : list byte :=
  receipt e ++ parameter_context e ++ destination e ++ se_context e ++ put_u128 (settlement e)
  ++ payment_address e ++ put_u128 (payment e) ++ claimant e.

Definition read_entry (c : list byte) : SettlementEntry := {|
  receipt := segment 0 32 c;
  parameter_context := segment 32 64 c;
  destination := segment 64 96 c;
  se_context := segment 96 128 c;
  settlement := be_val (segment 128 144 c);
  payment_address := segment 144 176 c;
  payment := be_val (segment 176 192 c);
  claimant := segment 192 224 c;
|}.

(** [#[derive(PartialOrd, Ord)]]: the fields in order. *)
Definition bytes_cmp (xs ys : list byte) : comparison :=
  if bytes_leb xs ys then (if bytes_leb ys xs then Eq else Lt) else Gt.
Definition cmp_then (c d : comparison) : comparison := match c with Eq => d | _ => c end.
Definition entry_cmp (a b : SettlementEntry) : comparison :=
  cmp_then (bytes_cmp (receipt a) (receipt b))
  (cmp_then (bytes_cmp (parameter_context a) (parameter_context b))
  (cmp_then (bytes_cmp (destination a) (destination b))
  (cmp_then (bytes_cmp (se_context a) (se_context b))
  (cmp_then (settlement a ?= settlement b)
  (cmp_then (bytes_cmp (payment_address a) (payment_address b))
  (cmp_then (payment a ?= payment b)
  (bytes_cmp (claimant a) (claimant b)))))))).
Definition entry_leb (a b : SettlementEntry) : bool := match entry_cmp a b with Gt => false | _ => true end.

Definition zero32 : list byte := replicate 32 x00.
Definition receipt_ltb (a b : SettlementEntry) : bool := negb (bytes_leb (receipt b) (receipt a)).
Definition entry_canonical (e : SettlementEntry) : bool :=
  negb (settlement e =? 0)
  && Bool.eqb (payment e =? 0) (bool_decide (payment_address e = zero32))
  && negb (Bool.eqb (bool_decide (se_context e = zero32)) (bool_decide (claimant e = zero32))).
Definition canonical (entries : list SettlementEntry) : bool :=
  (length entries <=? MAX_SETTLEMENTS_PER_FRAME)%nat && sortedb receipt_ltb entries && forallb entry_canonical entries.

Definition canonical_frame_entries (entries : list SettlementEntry) : result (list SettlementEntry) :=
  let sorted := sort_by entry_leb entries in
  if negb (canonical sorted) then Err InvalidArgument else Ok sorted.

Definition encode_entries (entries : list SettlementEntry) : result (list byte) :=
  sorted ← canonical_frame_entries entries; Ok (concat (put_entry <$> sorted)).

Definition decode_entries (bytes : list byte) : result (list SettlementEntry) :=
  if (negb (length bytes mod SETTLEMENT_BYTES =? 0) || (MAX_SETTLEMENTS_PER_FRAME <? length bytes / SETTLEMENT_BYTES))%nat
  then Err InvalidArgument
  else let entries := read_entry <$> chunks_exact SETTLEMENT_BYTES bytes in
       if negb (canonical entries) then Err InvalidArgument else Ok entries.

(** ** The relay *)

(** [frame_number.saturating_sub(WINDOW).max(1) ..= frame_number.saturating_sub(1)] *)
Definition in_window (window header_frame frame : Z) : bool :=
  (Z.max 1 (Z.max 0 (header_frame - window)) <=? frame) && (frame <=? Z.max 0 (header_frame - 1)).

Definition SettlementFrames : Type := list (Z * list SettlementEntry).

Definition frame_ltb {A} (a b : Z * A) : bool := a.1 <? b.1.

Fixpoint encode_settlement_frames (frames : SettlementFrames) : result (list byte) :=
  match frames with
  | [] => Ok []
  | (frame, entries) :: frames' =>
      sorted ← canonical_frame_entries entries;
      rest ← encode_settlement_frames frames';
      Ok (concat ((fun e => put_u64 frame ++ put_entry e) <$> sorted) ++ rest)
  end.
Definition encode_settlement_relay (frames : SettlementFrames) : result (list byte) :=
  if negb (sortedb frame_ltb frames) then Err InvalidArgument
  else bytes ← encode_settlement_frames frames;
       if (MAX_RELAY_ENTRIES <? length bytes / RELAY_ENTRY_BYTES)%nat then Err InvalidArgument else Ok bytes.

(** [frames], newest last in the source, is kept newest first. *)
Definition push_settlement (frames : SettlementFrames) (frame : Z) (e : SettlementEntry) : result SettlementFrames :=
  match frames with
  | (last, entries) :: older =>
      if last =? frame then Ok ((last, entries ++ [e]) :: older)
      else if frame <? last then Err InvalidArgument
      else Ok ((frame, [e]) :: frames)
  | [] => Ok [(frame, [e])]
  end.
Fixpoint decode_settlement_chunks (header_frame : Z) (frames : SettlementFrames) (cs : list (list byte)) : result SettlementFrames :=
  match cs with
  | [] => Ok frames
  | chunk :: cs' =>
      let frame := be_val (take 8 chunk) in
      if negb (in_window SETTLEMENT_WINDOW header_frame frame) then Err InvalidArgument
      else frames' ← push_settlement frames frame (read_entry (drop 8 chunk));
           decode_settlement_chunks header_frame frames' cs'
  end.
Definition decode_settlement_relay (header_frame : Z) (bytes : list byte) : result SettlementFrames :=
  if (negb (length bytes mod RELAY_ENTRY_BYTES =? 0) || (MAX_RELAY_ENTRIES <? length bytes / RELAY_ENTRY_BYTES))%nat
  then Err InvalidArgument
  else frames ← decode_settlement_chunks header_frame [] (chunks_exact RELAY_ENTRY_BYTES bytes);
       if existsb (fun f => negb (canonical f.2)) (reverse frames) then Err InvalidArgument else Ok (reverse frames).

(** ** Chunks *)

Lemma chunks_concat n (l : list (list byte)) : Forall (digest_ok n) l -> chunks (length l) n (concat l) = l.
Proof.
  induction 1 as [|c l Hc _ IH]; [done|]. cbn [length chunks concat].
  rewrite take_app_length', drop_app_length' by done. by rewrite IH.
Qed.

Lemma length_concat_fixed n (l : list (list byte)) : Forall (digest_ok n) l -> length (concat l) = (length l * n)%nat.
Proof. induction 1 as [|c l Hc _ IH]; [done|]. cbn [length concat]. rewrite length_app, IH, Hc. lia. Qed.

Lemma chunks_cover k n bs : length bs = (k * n)%nat -> concat (chunks k n bs) = bs /\ Forall (digest_ok n) (chunks k n bs).
Proof.
  revert bs. induction k as [|k IH]; intros bs Hl; cbn [chunks concat].
  - by destruct bs.
  - destruct (IH (drop n bs)) as [-> HF]; [rewrite length_drop; lia|].
    rewrite take_drop. split; [done|]. constructor; [unfold digest_ok; rewrite length_take; lia|done].
Qed.

Lemma length_chunks k n bs : length (chunks k n bs) = k.
Proof. revert bs. induction k as [|k IH]; intros bs; [done|]. cbn. by rewrite IH. Qed.

(** Whole chunks: the bytes are the chunks one after the other. *)
Lemma chunks_exact_iff n bs l : n <> 0%nat ->
  ((length bs mod n = 0)%nat /\ chunks_exact n bs = l) <-> (bs = concat l /\ Forall (digest_ok n) l).
Proof.
  intros Hn. unfold chunks_exact. split.
  - intros [Hm <-]. destruct (chunks_cover (length bs / n) n bs) as [-> HF]; [|done].
    pose proof (Nat.div_mod_eq (length bs) n). nia.
  - intros [-> HF]. rewrite (length_concat_fixed n) by done. rewrite Nat.Div0.mod_mul, Nat.div_mul by done.
    split; [done|]. by apply chunks_concat.
Qed.

Lemma length_chunks_exact n bs : length (chunks_exact n bs) = (length bs / n)%nat.
Proof. apply length_chunks. Qed.

(** ** Entries as bytes *)

Definition entry_ok (e : SettlementEntry) : Prop :=
  digest_ok 32 (receipt e) /\ digest_ok 32 (parameter_context e) /\ digest_ok 32 (destination e) /\
  digest_ok 32 (se_context e) /\ is_u128 (settlement e) /\ digest_ok 32 (payment_address e) /\
  is_u128 (payment e) /\ digest_ok 32 (claimant e).

Lemma length_put_u128 v : length (put_u128 v) = 16%nat.
Proof. apply be_bytes_length. Qed.

Lemma length_put_entry e : entry_ok e -> digest_ok SETTLEMENT_BYTES (put_entry e).
Proof.
  unfold entry_ok, digest_ok, put_entry. intros (? & ? & ? & ? & ? & ? & ? & ?).
  rewrite !length_app, !length_put_u128. unfold SETTLEMENT_BYTES. lia.
Qed.

Lemma segment_app a b xs ys : (length xs <= a)%nat -> segment a b (xs ++ ys) = segment (a - length xs) (b - length xs) ys.
Proof.
  intros Ha. unfold segment. rewrite drop_app_ge by done. f_equal. lia.
Qed.
Lemma segment_here b xs ys : length xs = b -> segment 0 b (xs ++ ys) = xs.
Proof. intros <-. unfold segment. by rewrite drop_0, Nat.sub_0_r, take_app_length. Qed.
Lemma segment_all b xs : length xs = b -> segment 0 b xs = xs.
Proof. intros <-. unfold segment. by rewrite drop_0, Nat.sub_0_r, firstn_all. Qed.

Lemma u128_back v : is_u128 v -> be_val (put_u128 v) = v.
Proof. intros Hv. unfold put_u128. rewrite be_val_bytes. by apply Z.mod_small. Qed.

Lemma read_put_entry e : entry_ok e -> read_entry (put_entry e) = e.
Proof.
  destruct e as [r p d c s a y k]. unfold entry_ok, digest_ok, put_entry, read_entry.
  cbn [receipt parameter_context destination se_context settlement payment_address payment claimant].
  intros (Hr & Hp & Hd & Hc & Hs & Ha & Hy & Hk).
  assert (length (put_u128 s) = 16%nat /\ length (put_u128 y) = 16%nat) as [Ls Ly] by by rewrite !length_put_u128.
  f_equal;
    repeat (rewrite segment_app by lia); rewrite ?Hr, ?Hp, ?Hd, ?Hc, ?Ls, ?Ha, ?Ly; cbn [Nat.sub];
    first [rewrite segment_here by done | rewrite segment_all by done]; auto using u128_back.
Qed.

Lemma segment_split a b c : (a <= b <= length c)%nat -> drop a c = segment a b c ++ drop b c.
Proof.
  intros Hb. unfold segment. rewrite <- (take_drop (b - a) (drop a c)) at 1. rewrite drop_drop. do 2 f_equal. lia.
Qed.
Lemma length_segment a b c : (a <= b <= length c)%nat -> length (segment a b c) = (b - a)%nat.
Proof. intros Hb. unfold segment. rewrite length_take, length_drop. lia. Qed.

Lemma u128_segment a b c : (b = a + 16)%nat -> (b <= length c)%nat ->
  put_u128 (be_val (segment a b c)) = segment a b c /\ is_u128 (be_val (segment a b c)).
Proof.
  intros Ha Hb. assert (length (segment a b c) = 16%nat) as Hl by (rewrite length_segment; lia). split.
  - unfold put_u128. rewrite <- Hl at 1. by rewrite be_bytes_val.
  - pose proof (be_val_range (segment a b c)) as Hr. by rewrite Hl in Hr.
Qed.

Lemma put_read_entry c : digest_ok SETTLEMENT_BYTES c -> put_entry (read_entry c) = c /\ entry_ok (read_entry c).
Proof.
  unfold digest_ok, SETTLEMENT_BYTES. intros Hl.
  destruct (u128_segment 128 144 c eq_refl ltac:(lia)) as [Es Us], (u128_segment 176 192 c eq_refl ltac:(lia)) as [Ey Uy]. split.
  - unfold put_entry, read_entry. cbn [receipt parameter_context destination se_context settlement payment_address payment claimant].
    rewrite Es, Ey. rewrite <- (drop_0 c) at 9.
    rewrite (segment_split 0 32), (segment_split 32 64), (segment_split 64 96), (segment_split 96 128),
      (segment_split 128 144), (segment_split 144 176), (segment_split 176 192), (segment_split 192 224) by lia.
    rewrite (drop_ge c 224) by lia. by rewrite app_nil_r.
  - unfold entry_ok, digest_ok, read_entry.
    cbn [receipt parameter_context destination se_context settlement payment_address payment claimant].
    split_and!; try done; by rewrite length_segment by lia.
Qed.

(** Bytes of whole items are a list of items, for an item of a fixed size. *)
Lemma items_chunks {A} (enc : A -> list byte) (dec : list byte -> A) (ok : A -> Prop) n bytes l : n <> 0%nat ->
  (forall a, ok a -> digest_ok n (enc a) /\ dec (enc a) = a) ->
  (forall c, digest_ok n c -> enc (dec c) = c /\ ok (dec c)) ->
  ((length bytes mod n = 0)%nat /\ dec <$> chunks_exact n bytes = l) <-> (bytes = concat (enc <$> l) /\ Forall ok l).
Proof.
  intros Hn Hed Hde. split.
  - intros [Hm <-]. destruct (proj1 (chunks_exact_iff n bytes _ Hn) (conj Hm eq_refl)) as [E HF].
    rewrite <- list_fmap_compose. split.
    + rewrite E at 1. f_equal. rewrite <- (list_fmap_id (chunks_exact _ bytes)) at 1. apply list_fmap_ext.
      intros i c Hc. symmetry. apply Hde. by eapply Forall_lookup_1.
    + apply Forall_fmap. eapply Forall_impl; [exact HF|]. intros c Hc. by apply Hde.
  - intros [-> HF]. destruct (proj2 (chunks_exact_iff n (concat (enc <$> l)) (enc <$> l) Hn)) as [Hm ->].
    { split; [done|]. apply Forall_fmap. eapply Forall_impl; [exact HF|]. intros a Ha. by apply Hed. }
    split; [done|]. rewrite <- list_fmap_compose. rewrite <- (list_fmap_id l) at 2. apply list_fmap_ext.
    intros i a Ha. apply Hed. by eapply Forall_lookup_1.
Qed.

Lemma entries_chunks bytes l :
  ((length bytes mod SETTLEMENT_BYTES = 0)%nat /\ read_entry <$> chunks_exact SETTLEMENT_BYTES bytes = l) <->
  (bytes = concat (put_entry <$> l) /\ Forall entry_ok l).
Proof.
  apply items_chunks; [done| |apply put_read_entry]. intros e He. split; [by apply length_put_entry|by apply read_put_entry].
Qed.

(** ** Sorting *)

Lemma sort_by_fixed {A} (le : A -> A -> bool) l : sortedb le l = true -> sort_by le l = l.
Proof.
  induction l as [|x l IH]; [done|]. intros Hs. change (ins le x (sort_by le l) = x :: l).
  destruct l as [|y l]; [done|]. cbn [sortedb] in Hs. apply andb_true_iff in Hs as [Hxy Hs].
  rewrite IH by done. cbn [ins]. by rewrite Hxy.
Qed.

Lemma receipt_ltb_leb a b : receipt_ltb a b = true -> entry_leb a b = true.
Proof.
  unfold receipt_ltb, entry_leb, entry_cmp, bytes_cmp at 1. intros Hlt%negb_true_iff.
  rewrite Hlt, (bytes_leb_total _ _ Hlt). done.
Qed.

Lemma sortedb_impl {A} (R S : A -> A -> bool) l : (forall a b, R a b = true -> S a b = true) ->
  sortedb R l = true -> sortedb S l = true.
Proof.
  intros HRS. induction l as [|x [|y l] IH]; try done. cbn [sortedb]. rewrite !andb_true_iff. intros [Hxy Hs].
  split; [by apply HRS|by apply IH].
Qed.

(** Canonical entries are in the order the encoder sorts them into. *)
Lemma canonical_sorted l : canonical l = true -> canonical_frame_entries l = Ok l.
Proof.
  intros Hc. unfold canonical_frame_entries. rewrite sort_by_fixed; [by rewrite Hc|].
  unfold canonical in Hc. apply andb_true_iff in Hc as [[_ Hs]%andb_true_iff _].
  by apply (sortedb_impl receipt_ltb); [apply receipt_ltb_leb|].
Qed.

Lemma canonical_frame_inv l sorted : canonical_frame_entries l = Ok sorted ->
  canonical sorted = true /\ sorted = sort_by entry_leb l.
Proof.
  unfold canonical_frame_entries. destruct (canonical (sort_by entry_leb l)) eqn:E; [|done]. by intros [= <-].
Qed.

Lemma canonical_count l : canonical l = true -> (length l <= MAX_SETTLEMENTS_PER_FRAME)%nat.
Proof. unfold canonical. rewrite !andb_true_iff, Nat.leb_le. tauto. Qed.

(** The decoder of a frame's entries accepts exactly what the encoder writes. *)
Lemma decode_entries_iff bytes l :
  decode_entries bytes = Ok l <-> (bytes = concat (put_entry <$> l) /\ Forall entry_ok l /\ canonical l = true).
Proof.
  unfold decode_entries. split.
  - destruct (Nat.eqb_spec (length bytes mod SETTLEMENT_BYTES) 0) as [Hm|]; [|done]. cbn [negb orb].
    destruct (Nat.ltb_spec MAX_SETTLEMENTS_PER_FRAME (length bytes / SETTLEMENT_BYTES)); [done|].
    destruct (canonical _) eqn:Hc; [|done]. intros [= E].
    destruct (proj1 (entries_chunks bytes l) (conj Hm E)) as [-> HF]. by rewrite E in Hc.
  - intros (E & HF & Hc). destruct (proj2 (entries_chunks bytes l) (conj E HF)) as [-> E'].
    pose proof (canonical_count l Hc) as Hn. rewrite <- E', length_fmap, length_chunks_exact in Hn.
    destruct (Nat.ltb_spec MAX_SETTLEMENTS_PER_FRAME (length bytes / SETTLEMENT_BYTES)); [lia|].
    rewrite E', Hc. done.
Qed.

(** ** The relay *)

Definition flat (frames : SettlementFrames) : list (Z * SettlementEntry) := frames ≫= fun f => pair f.1 <$> f.2.

Definition put_relayed (p : Z * SettlementEntry) : list byte := put_u64 p.1 ++ put_entry p.2.
Definition read_relayed (chunk : list byte) : Z * SettlementEntry := (be_val (take 8 chunk), read_entry (drop 8 chunk)).
Definition relayed_ok (p : Z * SettlementEntry) : Prop := is_u64 p.1 /\ entry_ok p.2.

Lemma relayed_chunks bytes l :
  ((length bytes mod RELAY_ENTRY_BYTES = 0)%nat /\ read_relayed <$> chunks_exact RELAY_ENTRY_BYTES bytes = l) <->
  (bytes = concat (put_relayed <$> l) /\ Forall relayed_ok l).
Proof.
  apply items_chunks; [done| |].
  - intros [f e] [Hf He]. unfold put_relayed, read_relayed, digest_ok. cbn [fst snd].
    assert (length (put_u64 f) = 8%nat) as Hl by apply be_bytes_length.
    rewrite length_app, Hl, length_put_entry, take_app_length', drop_app_length', read_put_entry by done.
    split; [done|]. f_equal. unfold put_u64. rewrite be_val_bytes. by apply Z.mod_small.
  - intros c Hc. unfold digest_ok, RELAY_ENTRY_BYTES in Hc. unfold put_relayed, read_relayed, relayed_ok. cbn [fst snd].
    assert (length (take 8 c) = 8%nat) as Hl by (rewrite length_take; lia).
    destruct (put_read_entry (drop 8 c)) as [-> He]; [unfold digest_ok; rewrite length_drop; lia|].
    unfold put_u64. rewrite <- Hl at 1. rewrite be_bytes_val, take_drop. split; [done|]. split; [|done].
    pose proof (be_val_range (take 8 c)) as Hr. by rewrite Hl in Hr.
Qed.

(** The decoder's loop without its window check. *)
Fixpoint push_all (frames : SettlementFrames) (l : list (Z * SettlementEntry)) : result SettlementFrames :=
  match l with
  | [] => Ok frames
  | p :: l' => frames' ← push_settlement frames p.1 p.2; push_all frames' l'
  end.

Lemma decode_chunks_push h acc cs r :
  decode_settlement_chunks h acc cs = Ok r <->
  (Forall (fun p => in_window SETTLEMENT_WINDOW h p.1 = true) (read_relayed <$> cs) /\ push_all acc (read_relayed <$> cs) = Ok r).
Proof.
  revert acc. induction cs as [|c cs IH]; intros acc; cbn [decode_settlement_chunks fmap list_fmap push_all].
  - split; [by intros [= ->]|by intros [_ [= ->]]].
  - change (be_val (take 8 c)) with (read_relayed c).1. change (read_entry (drop 8 c)) with (read_relayed c).2.
    rewrite Forall_cons. destruct (in_window _ _ _); cbn [negb]; [|naive_solver].
    destruct (push_settlement acc _ _) as [acc'| |]; cbn [mbind result_bind]; [|naive_solver|naive_solver].
    rewrite IH. naive_solver.
Qed.

(** Frames decoded so far, newest first: descending, none empty. *)
Definition newest_first (frames : SettlementFrames) : Prop :=
  StronglySorted (fun a b => b.1 < a.1) frames /\ Forall (fun f => f.2 <> []) frames.
Definition oldest_first (frames : SettlementFrames) : Prop :=
  StronglySorted (fun a b => a.1 < b.1) frames /\ Forall (fun f => f.2 <> []) frames.

Lemma flat_app a b : flat (a ++ b) = flat a ++ flat b.
Proof. apply bind_app. Qed.

Lemma push_settlement_spec frames f e frames' : newest_first frames -> push_settlement frames f e = Ok frames' ->
  newest_first frames' /\ flat (reverse frames') = flat (reverse frames) ++ [(f, e)].
Proof.
  intros [Hs Hn]. unfold push_settlement. destruct frames as [|[last es] older].
  - intros [= <-]. split; [|done]. split; [repeat constructor|by repeat constructor].
  - destruct (Z.eqb_spec last f) as [->|Hlf]; [|destruct (Z.ltb_spec f last); [done|]]; intros [= <-].
    + split.
      * apply StronglySorted_inv in Hs as [Hs Hl]. apply Forall_cons in Hn as [_ Hn].
        split; [by constructor|]. constructor; [|done]. cbn. by destruct es.
      * rewrite !reverse_cons, !flat_app. unfold flat at 2 4. cbn [mbind list_bind fst snd].
        by rewrite fmap_app, !app_nil_r, app_assoc.
    + split; [|rewrite reverse_cons, flat_app; done]. split; [|by constructor].
      apply StronglySorted_inv in Hs as Hs'. destruct Hs' as [_ Hl]. constructor; [done|]. constructor; [cbn; lia|].
      eapply Forall_impl; [exact Hl|]. cbn. lia.
Qed.

Lemma push_all_spec l frames r : newest_first frames -> push_all frames l = Ok r ->
  newest_first r /\ flat (reverse r) = flat (reverse frames) ++ l.
Proof.
  revert frames. induction l as [|[f e] l IH]; intros frames Hf; cbn [push_all].
  - intros [= <-]. by rewrite app_nil_r.
  - intros (fr & Hp & Hr)%bind_inv. apply push_settlement_spec in Hp as [Hfr E]; [|done].
    apply IH in Hr as [Hr ->]; [|done]. split; [done|]. by rewrite E, <- app_assoc.
Qed.

Lemma push_all_app a b frames : push_all frames (a ++ b) = push_all frames a ≫= fun fr => push_all fr b.
Proof.
  revert frames. induction a as [|p a IH]; intros frames; [done|]. cbn [app push_all].
  destruct (push_settlement _ _ _); [apply IH|done|done].
Qed.

Lemma push_same f es es' older : push_all ((f, es) :: older) (pair f <$> es') = Ok ((f, es ++ es') :: older).
Proof.
  revert es. induction es' as [|e es' IH]; intros es; cbn [fmap list_fmap push_all]; [by rewrite app_nil_r|].
  cbn [push_settlement fst snd]. rewrite Z.eqb_refl. cbn [mbind result_bind]. rewrite IH, <- app_assoc. done.
Qed.

Lemma push_frame f es frames : es <> [] -> Forall (fun g => g.1 < f) frames ->
  push_all frames (pair f <$> es) = Ok ((f, es) :: frames).
Proof.
  intros Hes Hf. destruct es as [|e es]; [done|]. cbn [fmap list_fmap push_all fst snd].
  assert (push_settlement frames f e = Ok ((f, [e]) :: frames)) as ->; [|apply push_same].
  unfold push_settlement. destruct frames as [|[g gs] older]; [done|]. apply Forall_cons in Hf as [Hg _]. cbn in Hg.
  destruct (Z.eqb_spec g f); [lia|]. destruct (Z.ltb_spec f g); [lia|done].
Qed.

Lemma push_all_flat frames acc : oldest_first frames -> (forall a b, a ∈ acc -> b ∈ frames -> a.1 < b.1) ->
  push_all acc (flat frames) = Ok (reverse frames ++ acc).
Proof.
  intros [Hs Hn]. revert acc. induction Hs as [|[f es] frames Hs IH Hf]; intros acc Hacc; [done|].
  apply Forall_cons in Hn as [He Hn]. change (flat ((f, es) :: frames)) with ((pair f <$> es) ++ flat frames).
  rewrite push_all_app, push_frame; [|done|].
  - cbn [mbind result_bind]. rewrite IH, reverse_cons, <- app_assoc; [done|done|].
    intros a b [->|Ha]%elem_of_cons Hb; [|apply Hacc; [done|by right]]. rewrite Forall_forall in Hf. by apply (Hf b).
  - apply Forall_forall. intros a Ha. apply (Hacc a (f, es)); [done|left].
Qed.

Lemma oldest_reverse frames : newest_first frames -> oldest_first (reverse frames).
Proof.
  intros [Hs Hn]. split; [|by apply Forall_reverse]. clear Hn.
  induction Hs as [|f frames Hs IH Hf]; [constructor|]. rewrite reverse_cons, StronglySorted_app.
  split_and!; [|done|by repeat constructor].
  intros a b Ha ->%list_elem_of_singleton. rewrite Forall_forall in Hf. apply Hf. by apply elem_of_reverse.
Qed.

(** Decoding finds the one list of frames the relayed entries come from. *)
Lemma push_all_iff l frames :
  (exists r, push_all [] l = Ok r /\ reverse r = frames) <-> (oldest_first frames /\ l = flat frames).
Proof.
  split.
  - intros (r & Hr & <-). apply push_all_spec in Hr as [Hr E]; [|repeat constructor].
    split; [by apply oldest_reverse|done].
  - intros [Hf ->]. exists (reverse frames). rewrite push_all_flat, app_nil_r; [|done|by intros ? ? ?%not_elem_of_nil].
    by rewrite reverse_involutive.
Qed.

Lemma sortedb_strong {A} (R : A -> A -> bool) (S : A -> A -> Prop) l : Transitive S -> (forall a b, R a b = true <-> S a b) ->
  sortedb R l = true <-> StronglySorted S l.
Proof.
  intros HT HRS. split.
  - intros Hs. apply Sorted_StronglySorted; [done|]. induction l as [|x [|y l] IH]; [done|repeat constructor|].
    cbn [sortedb] in Hs. apply andb_true_iff in Hs as [Hxy Hs]. constructor; [by apply IH|]. constructor. by apply HRS.
  - induction 1 as [|x l Hl IH Hx]; [done|]. destruct l as [|y l]; [done|]. cbn [sortedb].
    apply Forall_cons in Hx as [Hxy _]. apply andb_true_iff. split; [by apply HRS|by apply IH].
Qed.

Lemma frames_ascending {A} (frames : list (Z * A)) :
  sortedb frame_ltb frames = true <-> StronglySorted (fun a b => a.1 < b.1) frames.
Proof. apply sortedb_strong; [intros a b c; lia|intros a b; apply Z.ltb_lt]. Qed.

Lemma encode_frames_flat frames : Forall (fun f => canonical f.2 = true) frames ->
  encode_settlement_frames frames = Ok (concat (put_relayed <$> flat frames)).
Proof.
  induction 1 as [|[f es] frames Hf _ IH]; [done|]. cbn [encode_settlement_frames fst snd] in *.
  rewrite canonical_sorted by done. cbn [mbind result_bind]. rewrite IH. cbn [mbind result_bind]. f_equal.
  change (flat ((f, es) :: frames)) with ((pair f <$> es) ++ flat frames).
  rewrite fmap_app, concat_app, <- list_fmap_compose. done.
Qed.

(** A frame a header may relay. *)
Definition relayed (window header_frame : Z) (f : Z * list SettlementEntry) : Prop :=
  is_u64 f.1 /\ in_window window header_frame f.1 = true /\ f.2 <> [] /\ canonical f.2 = true /\ Forall entry_ok f.2.

Lemma Forall_flat (P : Z -> Prop) (Q : SettlementEntry -> Prop) frames : Forall (fun f => f.2 <> []) frames ->
  Forall (fun p => P p.1 /\ Q p.2) (flat frames) <-> Forall (fun f => P f.1 /\ Forall Q f.2) frames.
Proof.
  induction 1 as [|[f es] frames Hne _ IH]; [done|]. cbn [snd] in Hne.
  change (flat ((f, es) :: frames)) with ((pair f <$> es) ++ flat frames).
  rewrite Forall_app, Forall_cons, IH, Forall_fmap. cbn [fst snd].
  assert (Forall ((λ p : Z * SettlementEntry, P p.1 ∧ Q p.2) ∘ pair f) es <-> P f /\ Forall Q es) as ->; [|done].
  unfold compose. cbn [fst snd]. rewrite Forall_and. split; [|intros [HP HQ]; split; [by apply Forall_true|done]].
  intros [HP HQ]. split; [|done]. destruct es; [done|]. by apply Forall_cons in HP as [HP _].
Qed.

Lemma relayed_flat w h frames : Forall (relayed w h) frames <->
  Forall (fun f => f.2 <> []) frames /\ Forall (fun f => canonical f.2 = true) frames /\
  Forall relayed_ok (flat frames) /\ Forall (fun p => in_window w h p.1 = true) (flat frames).
Proof.
  assert (Forall (fun p => in_window w h p.1 = true) (flat frames) <->
          Forall (fun p => in_window w h p.1 = true /\ True) (flat frames)) as -> by (apply Forall_iff; tauto).
  split.
  - intros HF. assert (Forall (fun f => f.2 <> []) frames) as Hne by (eapply Forall_impl; [exact HF|unfold relayed; tauto]).
    split_and!; [done|eapply Forall_impl; [exact HF|unfold relayed; tauto]| |].
    + apply (Forall_flat is_u64 entry_ok); [done|]. eapply Forall_impl; [exact HF|unfold relayed; tauto].
    + apply (Forall_flat (fun f => in_window w h f = true) (fun _ => True)); [done|].
      eapply Forall_impl; [exact HF|]. intros f Hf. split; [apply Hf|by apply Forall_true].
  - intros (Hne & Hc & Hok & Hw). apply (Forall_flat is_u64 entry_ok) in Hok; [|done].
    apply (Forall_flat (fun f => in_window w h f = true) (fun _ => True)) in Hw; [|done].
    rewrite Forall_forall in *. intros f Hin. destruct (Hok f Hin), (Hw f Hin). by split_and!; auto.
Qed.

Lemma all_canonical (frames : SettlementFrames) :
  existsb (fun f => negb (canonical f.2)) frames = false <-> Forall (fun f => canonical f.2 = true) frames.
Proof.
  induction frames as [|f frames IH]; [by split|]. cbn [existsb]. rewrite orb_false_iff, negb_false_iff, Forall_cons, IH. done.
Qed.

Lemma encode_relay_iff frames bytes : Forall (fun f => canonical f.2 = true) frames ->
  encode_settlement_relay frames = Ok bytes <->
  (StronglySorted (fun a b => a.1 < b.1) frames /\ bytes = concat (put_relayed <$> flat frames) /\
   (length bytes / RELAY_ENTRY_BYTES <= MAX_RELAY_ENTRIES)%nat).
Proof.
  intros Hc. unfold encode_settlement_relay. rewrite <- frames_ascending, encode_frames_flat by done.
  destruct (sortedb frame_ltb frames); cbn [negb mbind result_bind]; [|naive_solver].
  destruct (Nat.ltb_spec MAX_RELAY_ENTRIES (length (concat (put_relayed <$> flat frames)) / RELAY_ENTRY_BYTES)); naive_solver lia.
Qed.

Lemma decode_relay_iff h bytes frames :
  decode_settlement_relay h bytes = Ok frames <->
  ((length bytes mod RELAY_ENTRY_BYTES = 0)%nat /\ (length bytes / RELAY_ENTRY_BYTES <= MAX_RELAY_ENTRIES)%nat /\
   Forall (fun p => in_window SETTLEMENT_WINDOW h p.1 = true) (flat frames) /\ oldest_first frames /\
   read_relayed <$> chunks_exact RELAY_ENTRY_BYTES bytes = flat frames /\ Forall (fun f => canonical f.2 = true) frames).
Proof.
  unfold decode_settlement_relay. destruct (Nat.eqb_spec (length bytes mod RELAY_ENTRY_BYTES) 0) as [Hm|]; [|naive_solver].
  destruct (Nat.ltb_spec MAX_RELAY_ENTRIES (length bytes / RELAY_ENTRY_BYTES)) as [|Hn]; cbn [negb orb]; [naive_solver lia|].
  split.
  - intros (r & [Hw Hr]%decode_chunks_push & Hf)%bind_inv. destruct (existsb _ (reverse r)) eqn:Hcan; [done|]. injection Hf as Hf.
    destruct (proj1 (push_all_iff _ frames) (ex_intro _ r (conj Hr Hf))) as [Ho Hl]. rewrite Hl in Hw. rewrite Hf in Hcan.
    by apply all_canonical in Hcan.
  - intros (_ & _ & Hw & Ho & Hch & Hcan). destruct (proj2 (push_all_iff (flat frames) frames) (conj Ho eq_refl)) as (r & Hr & E).
    rewrite (proj2 (decode_chunks_push h [] _ r)) by by rewrite Hch. cbn [mbind result_bind].
    rewrite E. apply all_canonical in Hcan. by rewrite Hcan.
Qed.

(** What the decoder returns has the widths and bounds of a relay. *)
Lemma decode_relay_typed h bytes frames : decode_settlement_relay h bytes = Ok frames -> Forall (relayed SETTLEMENT_WINDOW h) frames.
Proof.
  intros (Hm & Hn & Hw & [Hs Hne] & Hch & Hc)%decode_relay_iff.
  destruct (proj1 (relayed_chunks bytes _) (conj Hm Hch)) as [E Hok]. by apply relayed_flat.
Qed.

(** C18. A header's settlement relay is accepted exactly when it is the one
    encoding of the frames it is decoded to: frames ascending inside the
    thirty-two frames before the header, none empty, the entries of each in
    receipt order with non-zero amounts, no more than the relay may carry.
    So two headers with the same settlements carry the same bytes. *)
Theorem settlement_relay_canonical h bytes frames :
  decode_settlement_relay h bytes = Ok frames <->
  (encode_settlement_relay frames = Ok bytes /\ Forall (relayed SETTLEMENT_WINDOW h) frames).
Proof.
  rewrite decode_relay_iff. split.
  - intros (Hm & Hn & Hw & [Hs Hne] & Hch & Hc). destruct (proj1 (relayed_chunks bytes _) (conj Hm Hch)) as [E Hok].
    rewrite encode_relay_iff, relayed_flat by done. by split_and!.
  - intros [He (Hne & Hc & Hok & Hw)%relayed_flat]. apply encode_relay_iff in He as (Hs & E & Hn); [|done].
    destruct (proj2 (relayed_chunks bytes _) (conj E Hok)) as [Hm Hch]. by split_and!.
Qed.
