(* ===== verification/SpendEntry.v ===== *)
(** * Spend entries and their relay ([token_intrinsic/global_commit.rs], [spend_relay.rs])

    What an executing shard relays for a verified operation, as bytes: the entry
    with its escrow and settlement parts, and the relay of the last eight frames
    a header carries.  The frame from which a shield may consume more than sixteen
    markers is a setting of the node, an argument of the definitions here. *)

From S2P Require Import Prelude Bytes Cursor SettlementRecord.

(** ** Pieces of an encoding *)

Definition is_u16 (z : Z) : Prop := 0 <= z < 2 ^ 16.
Definition put_u16 (v : Z) : list byte := be_bytes 2 v.
Definition read_u16 : reader Z := be_val <$> read_exact InvalidArgument 2.
#[export] Instance u16_codec : Codec put_u16 read_u16 is_u16.
Proof. apply (be_codec 2). Qed.
#[global] Arguments put_u16 : simpl never.

Definition is_u8 (z : Z) : Prop := 0 <= z < 2 ^ 8.
Definition put_u8 (v : Z) : list byte := be_bytes 1 v.
Definition read_u8 : reader Z := be_val <$> read_exact InvalidArgument 1.
#[export] Instance u8_codec : Codec put_u8 read_u8 is_u8.
Proof. apply (be_codec 1). Qed.
#[global] Arguments put_u8 : simpl never.

Definition put_flag (b : bool) : list byte := [if b then x01 else x00].
(** [Reader::flag] *)
Definition read_flag : reader bool :=
  b ← read_exact InvalidArgument 1;
  match b with [x00] => mret false | [x01] => mret true | _ => reader_fail InvalidArgument end.
Definition always {A} (_ : A) : Prop := True.
#[export] Instance flag_codec : Codec put_flag read_flag always.
Proof.
  split.
  - intros [] rest _; reflexivity.
  - intros r b r' (bs & r1 & [-> Hl]%read_exact_inv & Hb)%reader_bind_inv.
    destruct bs as [|x [|]]; try done. destruct x; try done; by injection Hb as <- <-.
Qed.

(** An optional part behind a flag. *)
Definition put_maybe {A} (enc : A -> list byte) (o : option A) : list byte :=
  match o with None => put_flag false | Some a => put_flag true ++ enc a end.
Definition read_maybe {A} (rd : reader A) : reader (option A) :=
  present ← read_flag; if (present : bool) then Some <$> rd else mret None.
Definition maybe_ok {A} (ok : A -> Prop) (o : option A) : Prop := match o with Some a => ok a | None => True end.
#[export] Instance maybe_codec {A} (enc : A -> list byte) dec ok `{!Codec enc dec ok} :
  Codec (put_maybe enc) (read_maybe dec) (maybe_ok ok).
Proof.
  split.
  - intros [a|] rest Ha; unfold put_maybe, read_maybe; rewrite <- ?app_assoc, (rt_bind put_flag _ always) by done; [|done].
    apply reader_fmap_Ok. by apply (round_trip (ok := ok)).
  - intros r o r' (b & r1 & [-> _]%codec_exact & Hb)%reader_bind_inv. destruct b; cbn in Hb.
    + apply fmap_inv in Hb as (a & [-> Ha]%codec_exact & ->). cbn. by rewrite <- ?app_assoc.
    + by injection Hb as <- <-.
Qed.

(** A counted list: the count in [put_n], bounded by [max], then the items. *)
Definition put_counted {A} (put_n : Z -> list byte) (enc : A -> list byte) (l : list A) : list byte :=
  put_n (Z.of_nat (length l)) ++ concat (enc <$> l).
Definition read_counted {A} (read_n : reader Z) (max : nat) (rd : reader A) : reader (list A) :=
  n ← read_n; _ ← reader_guard (negb (Z.of_nat max <? n)) InvalidArgument; read_many rd (Z.to_nat n).
Definition counted_ok {A} (ok_n : Z -> Prop) (max : nat) (ok : A -> Prop) (l : list A) : Prop :=
  ok_n (Z.of_nat (length l)) /\ (length l <= max)%nat /\ Forall ok l.

Lemma counted_codec {A} put_n read_n ok_n max (enc : A -> list byte) dec ok `{!Codec put_n read_n ok_n} `{!Codec enc dec ok} :
  (forall z, ok_n z -> 0 <= z) -> Codec (put_counted put_n enc) (read_counted read_n max dec) (counted_ok ok_n max ok).
Proof.
  intros Hpos. split.
  - intros l rest (Hn & Hm & Hl). unfold put_counted, read_counted. rewrite <- app_assoc, (rt_bind put_n _ ok_n) by done.
    rewrite guard_bind by (apply negb_true_iff, Z.ltb_ge; lia). rewrite Nat2Z.id.
    by apply (read_many_app enc dec ok).
  - intros r l r' (n & r1 & [-> Hn]%codec_exact & (u & r2 & [Hg <-]%guard_inv & (-> & Hl & Hlen)%(many_exact enc _ ok))%reader_bind_inv)%reader_bind_inv.
    apply negb_true_iff, Z.ltb_ge in Hg. pose proof (Hpos n Hn). assert (Z.of_nat (length l) = n) as E by lia.
    unfold put_counted, counted_ok. rewrite E, <- app_assoc. split; [done|]. split; [done|]. split; [lia|done].
Qed.

(** [Reader::list]: at most [max] digests behind a one-byte count. *)
Definition put_items : list (list byte) -> list byte := put_counted put_u8 put_bytes.
Definition read_items (max : nat) : reader (list (list byte)) := read_counted read_u8 max (read_fixed 32).
#[export] Instance items_codec max : Codec put_items (read_items max) (counted_ok is_u8 max (digest_ok 32)).
Proof. apply counted_codec; [apply u8_codec|apply fixed_codec|unfold is_u8; lia]. Qed.

(** ** The entry *)

Record EscrowCreate := mkEscrowCreate { ec_address : list byte; ec_binding : list byte; refund_after_global_frame : Z }.
Record EscrowClaim := mkEscrowClaim { cl_address : list byte; cl_binding : list byte; refund : bool }.

Record SpendEntry := mkSpend {
  kind : Z;
  tx_id : list byte;
  source_frame : Z;
  context : list byte;
  root_digest : option (list byte);
  consumptions : list (list byte);
  outputs : list (list byte);
  escrow_create : option EscrowCreate;
  escrow_claim : option EscrowClaim;
  fee : Z;
  se_settlement : option SettlementEntry;
}.

Definition ENTRY_VERSION : list byte := [x51; x43; x54; x33; x53; x45; x00; x01].
Definition MAX_CONSUMPTIONS : nat := 16.
Definition MAX_SHIELD_SOURCES : nat := 96.
Definition MAX_OUTPUTS : nat := 16.
Definition TYPE_LATTICE_SHIELD : Z := 0x0516.

(** [Option::is_some] *)
Definition is_some {A} (o : option A) : bool := match o with Some _ => true | None => false end.

(** ** Operations of the entry *)

Section Entry.
Context (batch_shield_frame : Z).

Definition max_consumptions (kd frame : Z) : nat :=
  if (kd =? TYPE_LATTICE_SHIELD) && (batch_shield_frame <=? frame) then MAX_SHIELD_SOURCES else MAX_CONSUMPTIONS.

Definition validate_at (e : SpendEntry) (frame : Z) : result unit :=
  if ((max_consumptions (kind e) frame <? length (consumptions e)) || (MAX_OUTPUTS <? length (outputs e)))%nat
  then Err InvalidArgument
  else if negb (bool_decide (NoDup (consumptions e))) || negb (bool_decide (NoDup (outputs e))) then Err InvalidArgument
  else if bool_decide (consumptions e = []) && negb (is_some (escrow_claim e)) then Err InvalidArgument
  else if is_some (escrow_create e) && is_some (escrow_claim e) then Err InvalidArgument
  else Ok ().

Definition put_create (c : EscrowCreate) : list byte :=
  put_bytes (ec_address c) ++ put_bytes (ec_binding c) ++ put_u64 (refund_after_global_frame c).
Definition put_claim (c : EscrowClaim) : list byte :=
  put_bytes (cl_address c) ++ put_bytes (cl_binding c) ++ put_flag (refund c).

(** [encode_entries(std::slice::from_ref(entry))?] inside an entry. *)
Definition encode_settlement (o : option SettlementEntry) : result (list byte) :=
  match o with
  | None => Ok (put_flag false)
  | Some s => bytes ← encode_entries [s]; Ok (put_flag true ++ bytes)
  end.

Definition encode (e : SpendEntry) : result (list byte) :=
  _ ← validate_at e (2 ^ 64 - 1);
  settlement ← encode_settlement (se_settlement e);
  Ok (ENTRY_VERSION ++ put_u32 (kind e) ++ put_bytes (tx_id e) ++ put_u64 (source_frame e) ++ put_bytes (context e)
      ++ put_maybe put_bytes (root_digest e) ++ put_items (consumptions e) ++ put_items (outputs e)
      ++ put_maybe put_create (escrow_create e) ++ put_maybe put_claim (escrow_claim e)
      ++ put_u128 (fee e) ++ settlement).

Definition read_create : reader EscrowCreate :=
  address ← read_fixed 32; binding ← read_fixed 32; after ← read_u64; mret (mkEscrowCreate address binding after).
Definition read_claim : reader EscrowClaim :=
  address ← read_fixed 32; binding ← read_fixed 32; back ← read_flag; mret (mkEscrowClaim address binding back).
(** [decode_entries(r.take(ENTRY_BYTES)?)?.pop()] *)
Definition read_settlement : reader SettlementEntry :=
  bytes ← read_exact InvalidArgument SETTLEMENT_BYTES;
  match decode_entries bytes with
  | Ok entries => match last entries with Some s => mret s | None => reader_fail InvalidArgument end
  | Err x => reader_fail x
  | Panic => fun _ => Panic
  end.

Definition read_spend (frame : Z) : reader SpendEntry :=
  version ← read_fixed 8;
  _ ← reader_guard (bool_decide (version = ENTRY_VERSION)) InvalidArgument;
  kd ← read_u32; id ← read_fixed 32; src ← read_u64; ctx ← read_fixed 32;
  digest ← read_maybe (read_fixed 32);
  consumed ← read_items (max_consumptions kd frame);
  outs ← read_items MAX_OUTPUTS;
  create ← read_maybe read_create;
  claim ← read_maybe read_claim;
  fees ← read_u128;
  settle ← read_maybe read_settlement;
  mret (mkSpend kd id src ctx digest consumed outs create claim fees settle).

Definition decode_at (bytes : list byte) (frame : Z) : result SpendEntry :=
  p ← read_spend frame bytes;
  if negb (bool_decide (p.2 = [])) then Err InvalidArgument
  else _ ← validate_at p.1 frame; Ok p.1.
End Entry.

(** ** The relay *)

Definition SPEND_WINDOW : Z := 8.
Definition MAX_ENTRIES_PER_FRAME : nat := 64.
Definition MAX_ENTRY_BYTES : Z := 4096.

Definition size_ok (n : Z) : bool := negb (n =? 0) && negb (MAX_ENTRY_BYTES <? n).

Definition put_sized (entry : list byte) : list byte := put_u16 (Z.of_nat (length entry)) ++ entry.
(** [as u16] of a length above the bound does not arise: the entry is refused first. *)
Definition encode_frame_entries (entries : list (list byte)) : result (list byte) :=
  if (MAX_ENTRIES_PER_FRAME <? length entries)%nat then Err InvalidArgument
  else if negb (forallb (fun e => size_ok (Z.of_nat (length e))) entries) then Err InvalidArgument
  else Ok (put_counted put_u16 put_sized entries).

Definition read_sized : reader (list byte) :=
  len ← read_u16; _ ← reader_guard (size_ok len) InvalidArgument; read_exact InvalidArgument (Z.to_nat len).
Definition read_frame_entries : reader (list (list byte)) := read_counted read_u16 MAX_ENTRIES_PER_FRAME read_sized.

Definition decode_frame_entries (bytes : list byte) : result (list (list byte)) :=
  p ← read_frame_entries bytes; if negb (bool_decide (p.2 = [])) then Err InvalidArgument else Ok p.1.

Definition RelayFrames : Type := list (Z * list (list byte)).

Fixpoint encode_frames (frames : RelayFrames) : result (list byte) :=
  match frames with
  | [] => Ok []
  | (frame, entries) :: frames' =>
      if bool_decide (entries = []) then Err InvalidArgument
      else bytes ← encode_frame_entries entries;
           rest ← encode_frames frames';
           Ok (put_u64 frame ++ bytes ++ rest)
  end.
Definition encode_relay (frames : RelayFrames) : result (list byte) :=
  if negb (sortedb frame_ltb frames) then Err InvalidArgument else encode_frames frames.

(** One round of the loop of [decode_relay]. *)
Definition read_relay_frame (header_frame : Z) (last : option Z) : reader (Z * list (list byte)) :=
  frame ← read_u64;
  _ ← reader_guard (in_window SPEND_WINDOW header_frame frame
                    && match last with Some l => l <? frame | None => true end) InvalidArgument;
  entries ← read_frame_entries;
  _ ← reader_guard (negb (bool_decide (entries = []))) InvalidArgument;
  mret (frame, entries).

(** [while !bytes.is_empty()]: every round consumes bytes, so as many rounds as
    bytes are enough; [Panic] marks the rounds running out. *)
Fixpoint decode_loop (rounds : nat) (header_frame : Z) (last : option Z) (bytes : list byte) : result RelayFrames :=
  if bool_decide (bytes = []) then Ok []
  else match rounds with
       | O => Panic
       | S k => p ← read_relay_frame header_frame last bytes;
                rest ← decode_loop k header_frame (Some p.1.1) p.2;
                Ok (p.1 :: rest)
       end.
Definition decode_relay (header_frame : Z) (bytes : list byte) : result RelayFrames :=
  decode_loop (length bytes) header_frame None bytes.

(** ** Automation for encodings written with [Codec] pieces *)

Lemma rt_step {A B} (enc : A -> list byte) dec ok `{!Codec enc dec ok} (f : A -> reader B) a rest out :
  ok a -> f a rest = out -> (dec ≫= f) (enc a ++ rest) = out.
Proof. intros Ha <-. by apply (rt_bind enc dec ok). Qed.

Lemma rt_last {A B} (enc : A -> list byte) dec ok `{!Codec enc dec ok} (f : A -> reader B) a out :
  ok a -> f a [] = out -> (dec ≫= f) (enc a) = out.
Proof. intros Ha <-. rewrite <- (app_nil_r (enc a)). by apply (rt_bind enc dec ok). Qed.

Lemma exact_step {A B} (enc : A -> list byte) dec ok `{!Codec enc dec ok} (f : A -> reader B) r b r' :
  (dec ≫= f) r = Ok (b, r') -> exists a r1, r = enc a ++ r1 /\ ok a /\ f a r1 = Ok (b, r').
Proof. intros (a & r1 & [-> Ha]%codec_exact & Hf)%reader_bind_inv. eauto 6. Qed.

Ltac codec_round :=
  repeat (rewrite <- app_assoc || (eapply rt_step; [typeclasses eauto|by auto|]) ||
          rewrite guard_bind by done).
Ltac codec_inv H :=
  repeat match type of H with
  | (reader_guard _ _ ≫= _) _ = Ok _ => let g := fresh "Hguard" in
      apply reader_bind_inv in H as (? & ? & g & H); apply guard_inv in g as [g <-]
  | (_ ≫= _) _ = Ok _ => let o := fresh "Hok" in
      eapply exact_step in H as (? & ? & -> & o & H); [|typeclasses eauto]
  | mret _ _ = Ok _ => injection H as <- <-
  end.

#[global] Arguments put_bytes : simpl never.
#[global] Arguments put_flag : simpl never.
#[global] Arguments put_maybe {_} : simpl never.
#[global] Arguments put_counted {_} : simpl never.
#[global] Arguments put_items : simpl never.

Definition create_ok (c : EscrowCreate) : Prop :=
  digest_ok 32 (ec_address c) /\ digest_ok 32 (ec_binding c) /\ is_u64 (refund_after_global_frame c).
Definition claim_ok (c : EscrowClaim) : Prop := digest_ok 32 (cl_address c) /\ digest_ok 32 (cl_binding c).

#[export] Instance create_codec : Codec put_create read_create create_ok.
Proof.
  split.
  - intros [a b f] rest (Ha & Hb & Hf). unfold put_create, read_create. cbn in *. codec_round. done.
  - intros r c r' H. unfold read_create in H. codec_inv H. unfold put_create. cbn. by rewrite <- !app_assoc.
Qed.
#[export] Instance claim_codec : Codec put_claim read_claim claim_ok.
Proof.
  split.
  - intros [a b f] rest (Ha & Hb). unfold put_claim, read_claim. cbn in *. codec_round. done.
  - intros r c r' H. unfold read_claim in H. codec_inv H. unfold put_claim. cbn. by rewrite <- !app_assoc.
Qed.

Definition settlement_ok (s : SettlementEntry) : Prop := entry_ok s /\ entry_canonical s = true.

Lemma canonical_one s : canonical [s] = entry_canonical s.
Proof. unfold canonical. cbn [length sortedb forallb]. rewrite !andb_true_r. reflexivity. Qed.

Lemma decode_one c s : decode_entries c = Ok [s] <-> c = put_entry s /\ settlement_ok s.
Proof.
  rewrite decode_entries_iff, canonical_one, Forall_singleton. unfold settlement_ok. cbn [fmap list_fmap concat].
  rewrite app_nil_r. tauto.
Qed.

#[export] Instance settlement_codec : Codec put_entry read_settlement settlement_ok.
Proof.
  split.
  - intros s rest Hs. unfold read_settlement. destruct Hs as [Hs Hc].
    erewrite reader_bind_Ok by (apply read_exact_app; symmetry; by apply length_put_entry).
    by rewrite (proj2 (decode_one _ s)).
  - intros r s r' (bytes & r1 & [-> Hl]%read_exact_inv & Hd)%reader_bind_inv.
    destruct (decode_entries bytes) as [es| |] eqn:E; [|done|done].
    destruct (last es) as [s'|] eqn:El; [|done]. injection Hd as -> ->.
    assert (es = [s]) as ->; [|by apply decode_one in E as [-> Hs]].
    apply decode_entries_iff in E as (-> & HF & _). unfold digest_ok in Hl.
    rewrite (length_concat_fixed SETTLEMENT_BYTES), length_fmap in Hl
      by (apply Forall_fmap; eapply Forall_impl; [exact HF|apply length_put_entry]).
    destruct es as [|x [|y es]]; [done|by injection El as ->|]. cbn [length] in Hl. unfold SETTLEMENT_BYTES in Hl. lia.
Qed.

(** ** The entry's encoding is canonical *)

Definition put_spend (e : SpendEntry) : list byte :=
  put_bytes ENTRY_VERSION ++ put_u32 (kind e) ++ put_bytes (tx_id e) ++ put_u64 (source_frame e) ++ put_bytes (context e)
  ++ put_maybe put_bytes (root_digest e) ++ put_items (consumptions e) ++ put_items (outputs e)
  ++ put_maybe put_create (escrow_create e) ++ put_maybe put_claim (escrow_claim e)
  ++ put_u128 (fee e) ++ put_maybe put_entry (se_settlement e).

(** The fields have their widths. *)
Definition typed (e : SpendEntry) : Prop :=
  is_u32 (kind e) /\ digest_ok 32 (tx_id e) /\ is_u64 (source_frame e) /\ digest_ok 32 (context e) /\
  maybe_ok (digest_ok 32) (root_digest e) /\ Forall (digest_ok 32) (consumptions e) /\ Forall (digest_ok 32) (outputs e) /\
  maybe_ok create_ok (escrow_create e) /\ maybe_ok claim_ok (escrow_claim e) /\ is_u128 (fee e) /\
  maybe_ok entry_ok (se_settlement e).

Section Canonical.
Context (batch : Z).

Definition bounded (frame : Z) (e : SpendEntry) : Prop :=
  (length (consumptions e) <= max_consumptions batch (kind e) frame)%nat /\ (length (outputs e) <= MAX_OUTPUTS)%nat.
Definition settles (e : SpendEntry) : Prop := maybe_ok (fun s => entry_canonical s = true) (se_settlement e).

Lemma max_consumptions_u8 kd frame : (max_consumptions batch kd frame <= 96)%nat.
Proof. unfold max_consumptions, MAX_SHIELD_SOURCES, MAX_CONSUMPTIONS. destruct (_ && _); lia. Qed.

Lemma items_bound {A} max (ok : A -> Prop) l : (max < 256)%nat -> (length l <= max)%nat -> Forall ok l -> counted_ok is_u8 max ok l.
Proof. intros Hm Hl HF. split; [|done]. unfold is_u8. lia. Qed.

Lemma maybe_settles e : maybe_ok settlement_ok (se_settlement e) <-> maybe_ok entry_ok (se_settlement e) /\ settles e.
Proof. unfold settles. destruct (se_settlement e); cbn; [unfold settlement_ok|]; tauto. Qed.

#[export] Instance spend_codec frame :
  Codec put_spend (read_spend batch frame) (fun e => typed e /\ bounded frame e /\ settles e).
Proof.
  pose proof (fun kd => max_consumptions_u8 kd frame) as Hmax. split.
  - intros [kd id src ctx dg cs os cr cl fe st] rest ((? & ? & ? & ? & ? & ? & ? & ? & ? & ? & ?) & [Hc Ho] & Hs).
    unfold put_spend, read_spend. cbn in *. specialize (Hmax kd).
    assert (maybe_ok settlement_ok st) by (destruct st; [by split|done]).
    assert (counted_ok is_u8 (max_consumptions batch kd frame) (digest_ok 32) cs) by (apply items_bound; [lia|done|done]).
    assert (counted_ok is_u8 MAX_OUTPUTS (digest_ok 32) os) by (apply items_bound; [unfold MAX_OUTPUTS; lia|done|done]).
    assert (digest_ok 8 ENTRY_VERSION) by done. codec_round. done.
  - intros r e r' H. unfold read_spend in H. codec_inv H.
    repeat match goal with H : bool_decide _ = true |- _ => apply bool_decide_eq_true in H; subst end.
    match goal with H : maybe_ok settlement_ok ?s |- _ => assert (maybe_ok entry_ok s /\ maybe_ok (fun s => entry_canonical s = true) s)
      as [? ?] by (by destruct s; [destruct H|]) end.
    unfold counted_ok in *. destruct_and?. unfold put_spend, typed, bounded, settles. cbn.
    rewrite <- !app_assoc. split; [done|]. by split_and!.
Qed.

Lemma validate_inv e frame : validate_at batch e frame = Ok () ->
  bounded frame e /\ NoDup (consumptions e) /\ NoDup (outputs e) /\ (consumptions e <> [] \/ is_some (escrow_claim e) = true) /\
  ~ (is_some (escrow_create e) = true /\ is_some (escrow_claim e) = true).
Proof.
  unfold validate_at, bounded. destruct (_ || _)%nat eqn:E1; [done|]. apply orb_false_iff in E1 as [?%Nat.ltb_ge ?%Nat.ltb_ge].
  destruct (negb _ || negb _) eqn:E2; [done|].
  apply orb_false_iff in E2 as [Hc%negb_false_iff%bool_decide_eq_true Ho%negb_false_iff%bool_decide_eq_true].
  destruct (bool_decide _ && _) eqn:E3; [done|]. destruct (is_some _ && is_some _) eqn:E4; [done|]. intros _.
  apply andb_false_iff in E3, E4. rewrite negb_false_iff, bool_decide_eq_false in E3.
  split_and!; try done. destruct E4 as [->| ->]; naive_solver.
Qed.

(** A later frame allows no less. *)
Lemma validate_mono e frame frame' : frame <= frame' -> validate_at batch e frame = Ok () -> validate_at batch e frame' = Ok ().
Proof.
  intros Hf. unfold validate_at, max_consumptions. destruct (kind e =? TYPE_LATTICE_SHIELD); [|done]. cbn [andb].
  destruct (Z.leb_spec batch frame), (Z.leb_spec batch frame'); try done; [lia|].
  unfold MAX_SHIELD_SOURCES, MAX_CONSUMPTIONS. destruct (Nat.ltb_spec 16 (length (consumptions e))); [done|].
  destruct (Nat.ltb_spec 96 (length (consumptions e))); [lia|done].
Qed.

Lemma encode_settlement_iff o bytes :
  encode_settlement o = Ok bytes <-> maybe_ok (fun s => entry_canonical s = true) o /\ bytes = put_maybe put_entry o.
Proof.
  destruct o as [s|]; cbn; [|naive_solver]. unfold encode_entries, canonical_frame_entries.
  change (sort_by entry_leb [s]) with [s]. rewrite canonical_one. destruct (entry_canonical s); cbn; [|naive_solver].
  rewrite app_nil_r. unfold put_maybe. naive_solver.
Qed.

Lemma encode_iff e bytes : encode batch e = Ok bytes <->
  (validate_at batch e (2 ^ 64 - 1) = Ok () /\ settles e /\ bytes = put_spend e).
Proof.
  unfold encode. destruct (validate_at batch e (2 ^ 64 - 1)) as [[]| |]; cbn [mbind result_bind]; [|naive_solver|naive_solver].
  destruct (encode_settlement (se_settlement e)) as [sb| |] eqn:E; cbn [mbind result_bind].
  - apply encode_settlement_iff in E as [Hs ->]. unfold put_spend, settles. naive_solver.
  - split; [done|]. intros (_ & Hs & _). by rewrite (proj2 (encode_settlement_iff _ _) (conj Hs eq_refl)) in E.
  - split; [done|]. intros (_ & Hs & _). by rewrite (proj2 (encode_settlement_iff _ _) (conj Hs eq_refl)) in E.
Qed.

Lemma decode_iff bytes frame e : decode_at batch bytes frame = Ok e <->
  (typed e /\ settles e /\ validate_at batch e frame = Ok () /\ bytes = put_spend e).
Proof.
  unfold decode_at. split.
  - intros ([e' r] & [-> (Ht & Hb & Hs)]%(codec_exact (Codec := spend_codec frame)) & H)%bind_inv. cbn [fst snd] in H.
    destruct (bool_decide_reflect (r = [])) as [->|]; [|done]. cbn [negb] in H.
    apply bind_inv in H as ([] & Hv & [= ->]). by rewrite app_nil_r.
  - intros (Ht & Hs & Hv & ->). rewrite <- (app_nil_r (put_spend e)).
    rewrite (round_trip (RoundTrip := codec_round (Codec := spend_codec frame)) e []) by (by destruct (validate_inv _ _ Hv)).
    cbn. by rewrite Hv.
Qed.
End Canonical.

(** ** Sizes *)

Lemma length_put_maybe {A} (enc : A -> list byte) n o : (forall a, o = Some a -> length (enc a) = n) ->
  length (put_maybe enc o) = (if is_some o then 1 + n else 1)%nat.
Proof. intros Hn. destruct o as [a|]; cbn; [|done]. unfold put_maybe. rewrite length_app, (Hn a) by done. done. Qed.

Lemma length_put_items l : Forall (digest_ok 32) l -> length (put_items l) = (1 + length l * 32)%nat.
Proof.
  intros HF. unfold put_items, put_counted. rewrite length_app. unfold put_u8 at 1. rewrite be_bytes_length.
  rewrite (length_concat_fixed 32), length_fmap; [done|]. by apply Forall_fmap.
Qed.

Lemma length_put_create c : create_ok c -> length (put_create c) = 72%nat.
Proof.
  intros (Ha & Hb & _). unfold put_create, put_bytes, digest_ok, put_u64 in *. rewrite !length_app, be_bytes_length. lia.
Qed.
Lemma length_put_claim c : claim_ok c -> length (put_claim c) = 65%nat.
Proof. intros (Ha & Hb). unfold put_claim, put_bytes, digest_ok in *. rewrite !length_app, Ha, Hb. done. Qed.

Lemma length_put_spend batch e frame : typed e -> validate_at batch e frame = Ok () -> 1 <= Z.of_nat (length (put_spend e)) <= 4018.
Proof.
  intros (_ & Hid & _ & Hctx & Hd & Hc & Ho & Hcr & Hcl & _ & Hs) (( Hnc & Hno) & _ & _ & _ & Hx)%validate_inv.
  pose proof (max_consumptions_u8 batch (kind e) frame) as Hm. unfold MAX_OUTPUTS in Hno.
  unfold put_spend, put_u32, put_u64, put_u128. rewrite !length_app, !be_bytes_length, !length_put_items by done.
  rewrite (length_put_maybe put_bytes 32), (length_put_maybe put_create 72), (length_put_maybe put_claim 65),
    (length_put_maybe put_entry SETTLEMENT_BYTES).
  - unfold put_bytes, digest_ok in *. rewrite Hid, Hctx. unfold SETTLEMENT_BYTES. cbn [ENTRY_VERSION length].
    destruct (is_some (escrow_create e)), (is_some (escrow_claim e)), (is_some (root_digest e)), (is_some (se_settlement e)); naive_solver lia.
  - intros s E. rewrite E in Hs. by apply length_put_entry.
  - intros s E. rewrite E in Hcl. by apply length_put_claim.
  - intros s E. rewrite E in Hcr. by apply length_put_create.
  - intros s E. by rewrite E in Hd.
Qed.

(** ** The relay's encoding is canonical *)

Definition sized (e : list byte) : Prop := size_ok (Z.of_nat (length e)) = true.
Definition entries_ok : list (list byte) -> Prop := counted_ok is_u16 MAX_ENTRIES_PER_FRAME sized.
Definition put_entries : list (list byte) -> list byte := put_counted put_u16 put_sized.

Lemma size_ok_iff n : size_ok n = true <-> n <> 0 /\ n <= MAX_ENTRY_BYTES.
Proof. unfold size_ok. rewrite andb_true_iff, !negb_true_iff, Z.eqb_neq, Z.ltb_ge. done. Qed.

#[export] Instance sized_codec : Codec put_sized read_sized sized.
Proof.
  split.
  - intros e rest He. pose proof (proj1 (size_ok_iff _) He). unfold put_sized, read_sized, MAX_ENTRY_BYTES in *.
    rewrite <- app_assoc, (rt_bind put_u16 _ is_u16) by (unfold is_u16; lia).
    rewrite guard_bind by done. apply read_exact_app. lia.
  - intros r e r' (n & r1 & [-> Hn]%codec_exact & (u & r2 & [Hg <-]%guard_inv & [-> Hl]%read_exact_inv)%reader_bind_inv)%reader_bind_inv.
    unfold put_sized, sized, is_u16 in *. replace (Z.of_nat (length e)) with n by lia. by rewrite <- app_assoc.
Qed.

#[export] Instance entries_codec : Codec put_entries read_frame_entries entries_ok.
Proof. apply counted_codec; [apply u16_codec|apply sized_codec|unfold is_u16; lia]. Qed.
#[global] Arguments put_entries : simpl never.

Lemma encode_entries_iff es bytes : encode_frame_entries es = Ok bytes <-> entries_ok es /\ bytes = put_entries es.
Proof.
  unfold encode_frame_entries, entries_ok, counted_ok, MAX_ENTRIES_PER_FRAME, is_u16.
  destruct (Nat.ltb_spec 64 (length es)); [naive_solver lia|].
  destruct (forallb _ es) eqn:E; cbn [negb].
  - assert (Forall sized es).
    { apply Forall_forall. intros x Hx%list_elem_of_In. rewrite forallb_forall in E. by apply E. }
    split; [intros [= <-]; split_and!; [lia..|done|done]|by intros (_ & ->)].
  - split; [done|]. intros ((_ & _ & HF) & _). apply not_true_iff_false in E. exfalso. apply E.
    apply forallb_forall. intros x Hx. rewrite Forall_forall in HF. by apply HF, list_elem_of_In.
Qed.

Definition put_frame (f : Z * list (list byte)) : list byte := put_u64 f.1 ++ put_entries f.2.
Definition after (last : option Z) (f : Z) : Prop := match last with Some l => l < f | None => True end.
Definition frame_ok (h : Z) (last : option Z) (f : Z * list (list byte)) : Prop :=
  is_u64 f.1 /\ in_window SPEND_WINDOW h f.1 = true /\ after last f.1 /\ f.2 <> [] /\ entries_ok f.2.

Lemma after_iff last f : match last with Some l => l <? f | None => true end = true <-> after last f.
Proof. destruct last; cbn; [apply Z.ltb_lt|done]. Qed.

#[export] Instance frame_codec h last : Codec put_frame (read_relay_frame h last) (frame_ok h last).
Proof.
  split.
  - intros [f es] rest (Hf & Hw & Ha & Hn & He). unfold put_frame, read_relay_frame. cbn [fst snd] in *.
    rewrite <- app_assoc, (rt_bind put_u64 _ is_u64) by done.
    rewrite guard_bind by (rewrite Hw; by apply after_iff).
    rewrite (rt_bind put_entries _ entries_ok) by done. by rewrite guard_bind by by rewrite bool_decide_eq_false_2.
  - intros r p r' H. unfold read_relay_frame in H. codec_inv H. unfold put_frame, frame_ok. cbn [fst snd].
    rewrite <- app_assoc. split; [done|]. apply andb_true_iff in Hguard as [Hw Ha%after_iff].
    by apply negb_true_iff, bool_decide_eq_false in Hguard0.
Qed.

(** Frames in ascending order, all after [last], each one the header may relay. *)
Fixpoint frames_from (h : Z) (last : option Z) (frames : RelayFrames) : Prop :=
  match frames with [] => True | f :: frames' => frame_ok h last f /\ frames_from h (Some f.1) frames' end.

Lemma put_frame_long f : (8 <= length (put_frame f))%nat.
Proof. unfold put_frame, put_u64. rewrite length_app, be_bytes_length. lia. Qed.

Lemma decode_loop_iff k h last bytes frames : (length bytes <= k)%nat ->
  decode_loop k h last bytes = Ok frames <-> (bytes = concat (put_frame <$> frames) /\ frames_from h last frames).
Proof.
  revert last bytes frames. induction k as [|k IH]; intros last bytes frames Hl.
  - destruct bytes; [|cbn in Hl; lia]. cbn [decode_loop]. rewrite bool_decide_eq_true_2 by done. split; [by intros [= <-]|].
    destruct frames as [|f frames]; [done|]. cbn. intros [E _]. pose proof (put_frame_long f) as Hf.
    destruct (put_frame f); [cbn in Hf; lia|done].
  - cbn [decode_loop]. destruct (bool_decide_reflect (bytes = [])) as [->|Hb].
    + split; [by intros [= <-]|]. destruct frames as [|f frames]; [done|]. cbn. intros [E _]. pose proof (put_frame_long f) as Hf.
      destruct (put_frame f); [cbn in Hf; lia|done].
    + split.
      * intros ([f r] & [-> Hf]%codec_exact & (rest & Hr & [= <-])%bind_inv)%bind_inv. cbn [fst snd] in *.
        pose proof (put_frame_long f). rewrite length_app in Hl. apply IH in Hr as [-> Hr]; [|lia]. done.
      * destruct frames as [|f frames]; [by intros [-> _]|]. cbn [fmap list_fmap concat frames_from]. intros [-> [Hf Hr]].
        rewrite (round_trip (RoundTrip := codec_round (Codec := frame_codec h last)) f) by done. cbn [mbind result_bind fst snd].
        pose proof (put_frame_long f). rewrite length_app in Hl. by rewrite (proj2 (IH (Some f.1) (concat (put_frame <$> frames)) frames ltac:(lia)) (conj eq_refl Hr)).
Qed.

Lemma relay_frame_safe h last : reader_safe (read_relay_frame h last).
Proof.
  unfold read_relay_frame, read_u64, read_frame_entries, read_counted, read_u16, read_sized.
  repeat first [apply safe_bind; [|intros ?] | apply safe_fmap | apply safe_many | apply safe_guard | apply safe_ret | apply safe_exact].
Qed.

Lemma decode_loop_total k h last bytes : (length bytes <= k)%nat -> decode_loop k h last bytes <> Panic.
Proof.
  revert last bytes. induction k as [|k IH]; intros last bytes Hl; cbn [decode_loop].
  - destruct bytes; [done|cbn in Hl; lia].
  - destruct (bool_decide (bytes = [])); [done|].
    destruct (read_relay_frame h last bytes) as [[f r]| |] eqn:E; cbn [mbind result_bind fst snd]; [|done|].
    + apply codec_exact in E as [-> _]. pose proof (put_frame_long f). rewrite length_app in Hl.
      specialize (IH (Some f.1) r ltac:(lia)). by destruct (decode_loop k h (Some f.1) r).
    + exfalso. revert E. apply relay_frame_safe.
Qed.

Lemma encode_frames_iff frames bytes : encode_frames frames = Ok bytes <->
  (bytes = concat (put_frame <$> frames) /\ Forall (fun f => f.2 <> [] /\ entries_ok f.2) frames).
Proof.
  revert bytes. induction frames as [|[f es] frames IH]; intros bytes; cbn [encode_frames fmap list_fmap concat].
  - split; [by intros [= <-]|by intros [-> _]].
  - rewrite Forall_cons. cbn [fst snd]. destruct (bool_decide_reflect (es = [])) as [->|Hes]; [naive_solver|]. split.
    + intros (b & [He ->]%encode_entries_iff & (rest & [-> Hr]%IH & [= <-])%bind_inv)%bind_inv.
      unfold put_frame. cbn [fst snd]. by rewrite <- app_assoc.
    + intros [-> [[_ He] Hr]]. rewrite (proj2 (encode_entries_iff es _) (conj He eq_refl)). cbn [mbind result_bind].
      rewrite (proj2 (IH _) (conj eq_refl Hr)). cbn. unfold put_frame. cbn [fst snd]. by rewrite <- app_assoc.
Qed.

Definition spend_relayed (h : Z) (f : Z * list (list byte)) : Prop := is_u64 f.1 /\ in_window SPEND_WINDOW h f.1 = true.

Lemma frames_from_iff h last frames : frames_from h last frames <->
  (Forall (spend_relayed h) frames /\ Forall (fun f => f.2 <> [] /\ entries_ok f.2) frames /\
   sortedb frame_ltb frames = true /\ match frames with [] => True | f :: _ => after last f.1 end).
Proof.
  revert last. induction frames as [|f frames IH]; intros last; [by split|]. cbn [frames_from]. rewrite IH, !Forall_cons.
  unfold frame_ok, spend_relayed. assert (sortedb frame_ltb (f :: frames) = true <->
    sortedb frame_ltb frames = true /\ match frames with [] => True | g :: _ => after (Some f.1) g.1 end) as ->; [|tauto].
  destruct frames as [|g frames]; [done|]. cbn [sortedb after]. unfold frame_ltb at 1. rewrite andb_true_iff, Z.ltb_lt. tauto.
Qed.

(** C16. A spend entry relayed into a global frame is accepted exactly when it is
    the one encoding of an entry within that frame's bounds: the widths of its
    fields, at most sixteen outputs and as many consumptions as the frame
    allows its kind, none repeated, something consumed, not both an escrow
    created and one claimed, a well-formed settlement if any.  Every such
    encoding fits the space the relay gives an entry. *)
Theorem spend_entry_canonical batch bytes frame e : frame < 2 ^ 64 ->
  (decode_at batch bytes frame = Ok e <->
   typed e /\ validate_at batch e frame = Ok () /\ encode batch e = Ok bytes) /\
  (decode_at batch bytes frame = Ok e -> size_ok (Z.of_nat (length bytes)) = true).
Proof.
  intros Hf. split.
  - rewrite decode_iff, encode_iff. split; [|tauto]. intros (Ht & Hs & Hv & ->). split_and!; try done.
    by apply (validate_mono _ _ frame); [lia|].
  - intros (Ht & Hs & Hv & ->)%decode_iff. apply size_ok_iff. pose proof (length_put_spend _ _ _ Ht Hv).
    unfold MAX_ENTRY_BYTES. lia.
Qed.

(** C17. Reading a header's spend relay always ends, and accepts exactly the
    encodings of ascending, non-empty frames from the eight before the header,
    at most sixty-four entries in each. *)
Theorem spend_relay_canonical h bytes frames :
  decode_relay h bytes <> Panic /\
  (decode_relay h bytes = Ok frames <-> encode_relay frames = Ok bytes /\ Forall (spend_relayed h) frames).
Proof.
  split; [by apply decode_loop_total|]. unfold decode_relay, encode_relay. rewrite decode_loop_iff, frames_from_iff by done.
  destruct (sortedb frame_ltb frames); cbn [negb]; [|naive_solver]. rewrite encode_frames_iff.
  assert (match frames with [] => True | f :: _ => after None f.1 end) by by destruct frames. tauto.
Qed.

Definition sample_spend : SpendEntry :=
  mkSpend 0x0514 (replicate 32 x01) 7 (replicate 32 x02) (Some (replicate 32 x05)) [replicate 32 x03; replicate 32 x06]
    [replicate 32 x04] (Some (mkEscrowCreate (replicate 32 x07) (replicate 32 x08) 900)) None 9 None.

Lemma spend_entry_canonical_witness :
  encode 864000 sample_spend = Ok (put_spend sample_spend) /\ decode_at 864000 (put_spend sample_spend) 11 = Ok sample_spend.
Proof.
  split; [vm_compute; reflexivity|].
  apply (spend_entry_canonical 864000 (put_spend sample_spend) 11 sample_spend); [lia|].
  split; [|split; vm_compute; reflexivity].
  unfold typed, is_u32, is_u64, is_u128, create_ok, maybe_ok, digest_ok, is_u64; cbn.
  split_and!; try done; repeat constructor; done.
Defined.
