(* ===== verification/Poseidon.v ===== *)
(** * The Poseidon sponge over bytes ([quil-crypto/src/poseidon.rs])

    The chunking and chaining of [hash_bytes_to_32] around the permutation of the
    [poseidon-rs] crate, which is a parameter: the field, its conversions and the
    hash of sixteen elements, with the collision resistance the callers rely on
    as laws.  Addresses of global records are hashes of this kind, so what two
    messages with the same hash have in common matters to every component that
    keeps records: they are equal up to zero bytes at the end. *)

From S2P Require Import Prelude Bytes SettlementRecord.

Definition SPONGE_CHUNK_SIZE : nat := 31.
Definition FRAME_SIZE : nat := 16.

Class FieldHash := {
  Fr : Type;
  (** [fr_from_be_bytes]: a chunk of 31 bytes is below the field's modulus. *)
  fr_from_be_bytes : list byte -> Fr;
  zero_fr : Fr;
  (** [Poseidon::hash] *)
  permutation : list Fr -> Fr;
  fr_to_32_be : Fr -> list byte;
  fr_from_inj : forall a b, length a = SPONGE_CHUNK_SIZE -> length b = SPONGE_CHUNK_SIZE ->
    fr_from_be_bytes a = fr_from_be_bytes b -> a = b;
  fr_from_zero : fr_from_be_bytes (replicate SPONGE_CHUNK_SIZE x00) = zero_fr;
  permutation_inj : forall xs ys, length xs = FRAME_SIZE -> length ys = FRAME_SIZE -> permutation xs = permutation ys -> xs = ys;
  fr_to_inj : Inj (=) (=) fr_to_32_be;
}.

Section Sponge.
Context `{FieldHash}.

Record Sponge := mkSponge { sp_inputs : list Fr; sp_dirty : bool; sp_hash : option Fr; sp_k : nat }.

Definition empty_inputs : list Fr := replicate FRAME_SIZE zero_fr.
Definition sponge_start : Sponge := mkSponge empty_inputs false None 0.

Definition absorb (s : Sponge) (chunk : list byte) : Sponge :=
  let inputs := <[sp_k s := fr_from_be_bytes chunk]> (sp_inputs s) in
  if (sp_k s =? FRAME_SIZE - 1)%nat then
    let h := permutation inputs in
    mkSponge (<[0%nat := h]> empty_inputs) false (Some h) 1
  else mkSponge inputs true (sp_hash s) (S (sp_k s)).

(** Remaining bytes, zero-padded on the right to a chunk. *)
Definition absorb_rest (s : Sponge) (rem : list byte) : Sponge :=
  mkSponge (<[sp_k s := fr_from_be_bytes (rem ++ replicate (SPONGE_CHUNK_SIZE - length rem) x00)]> (sp_inputs s)) true (sp_hash s) (sp_k s).

Definition squeeze (s : Sponge) : result (list byte) :=
  match (if sp_dirty s then Some (permutation (sp_inputs s)) else sp_hash s) with
  | Some h => Ok (fr_to_32_be h)
  | None => Err Crypto
  end.

Definition hash_bytes_to_32 (msg : list byte) : result (list byte) :=
  let num_chunks := (length msg / SPONGE_CHUNK_SIZE)%nat in
  let s := foldl absorb sponge_start (chunks num_chunks SPONGE_CHUNK_SIZE msg) in
  let s := if (length msg mod SPONGE_CHUNK_SIZE =? 0)%nat then s
           else absorb_rest s (drop (num_chunks * SPONGE_CHUNK_SIZE) msg) in
  squeeze s.

Definition hash_elements (inputs : list (list byte)) : result (list byte) :=
  if bool_decide (inputs = []) then Err InvalidArgument
  else if (FRAME_SIZE <? length inputs)%nat then Err InvalidArgument
  else Ok (fr_to_32_be (permutation (fr_from_be_bytes <$> inputs))).

(** ** One frame *)

Definition FRAME_BYTES : nat := FRAME_SIZE * SPONGE_CHUNK_SIZE.
Definition pad_frame (msg : list byte) : list byte := msg ++ replicate (FRAME_BYTES - length msg) x00.
Definition frame_elements (msg : list byte) : list Fr := fr_from_be_bytes <$> chunks FRAME_SIZE SPONGE_CHUNK_SIZE (pad_frame msg).

(** Elements absorbed so far, the frame not yet full. *)
Definition filled (xs : list Fr) : list Fr := xs ++ replicate (FRAME_SIZE - length xs) zero_fr.

Lemma filled_insert xs x : (length xs < FRAME_SIZE)%nat -> <[length xs := x]> (filled xs) = filled (xs ++ [x]).
Proof.
  intros Hl. unfold filled. rewrite insert_app_r_alt by done. rewrite Nat.sub_diag, length_app.
  replace (FRAME_SIZE - length xs)%nat with (S (FRAME_SIZE - (length xs + length [x]))) by (cbn [length]; lia).
  cbn [replicate list_insert insert]. by rewrite <- app_assoc.
Qed.

Lemma absorb_many cs xs dirty : (length xs + length cs < FRAME_SIZE)%nat ->
  foldl absorb (mkSponge (filled xs) dirty None (length xs)) cs
  = mkSponge (filled (xs ++ (fr_from_be_bytes <$> cs))) (dirty || negb (bool_decide (cs = []))) None (length xs + length cs).
Proof.
  revert xs dirty. induction cs as [|c cs IH]; intros xs dirty Hl; cbn [length] in Hl.
  - cbn. by rewrite app_nil_r, orb_false_r, Nat.add_0_r.
  - cbn [foldl]. unfold absorb at 2. cbn [sp_inputs sp_k sp_hash sp_dirty].
    destruct (Nat.eqb_spec (length xs) (FRAME_SIZE - 1)); [lia|]. rewrite filled_insert by lia.
    replace (S (length xs)) with (length (xs ++ [fr_from_be_bytes c])) by (rewrite length_app; cbn; lia).
    rewrite IH by (rewrite length_app; cbn [length]; lia). rewrite <- app_assoc. rewrite length_app. cbn [length].
    replace (length xs + 1 + length cs)%nat with (length xs + S (length cs))%nat by lia. by destruct dirty.
Qed.

Lemma chunks_app a b n xs ys : length xs = (a * n)%nat -> chunks (a + b) n (xs ++ ys) = chunks a n xs ++ chunks b n ys.
Proof.
  revert xs. induction a as [|a IH]; intros xs Hl.
  - by destruct xs.
  - cbn [Nat.add chunks app]. rewrite take_app_le, drop_app_le by lia. rewrite IH by (rewrite length_drop; lia). done.
Qed.

Lemma chunks_zero k n : chunks k n (replicate (k * n) x00) = replicate k (replicate n x00).
Proof.
  induction k as [|k IH]; [done|]. change (S k * n)%nat with (n + k * n)%nat. rewrite replicate_add.
  cbn [chunks]. rewrite take_app_length', drop_app_length' by by rewrite length_replicate. by rewrite IH.
Qed.

Lemma chunks_one n xs : length xs = n -> chunks 1 n xs = [xs].
Proof. intros <-. cbn. by rewrite firstn_all. Qed.

(** Whole chunks, then nothing: the frame of the message. *)
Lemma filled_chunks k msg : (k <= FRAME_SIZE)%nat -> length msg = (k * SPONGE_CHUNK_SIZE)%nat ->
  filled (fr_from_be_bytes <$> chunks k SPONGE_CHUNK_SIZE msg) = frame_elements msg.
Proof.
  intros Hk Hl. unfold filled, frame_elements, pad_frame, FRAME_BYTES. rewrite Hl, length_fmap, length_chunks.
  rewrite <- Nat.mul_sub_distr_r. replace FRAME_SIZE with (k + (FRAME_SIZE - k))%nat at 2 by lia.
  rewrite chunks_app by done. rewrite chunks_zero, fmap_app, fmap_replicate. by rewrite fr_from_zero.
Qed.

Lemma pad_frame_zeros msg k : (length msg + k <= FRAME_BYTES)%nat -> pad_frame (msg ++ replicate k x00) = pad_frame msg.
Proof.
  intros Hk. unfold pad_frame. rewrite length_app, length_replicate, <- app_assoc, <- replicate_add. do 2 f_equal. lia.
Qed.

(** The three ends of a message: on a full frame, on a chunk, inside a chunk. *)
Lemma hash_full_frame msg : length msg = FRAME_BYTES ->
  foldl absorb sponge_start (chunks FRAME_SIZE SPONGE_CHUNK_SIZE msg)
  = mkSponge (<[0%nat := permutation (frame_elements msg)]> empty_inputs) false (Some (permutation (frame_elements msg))) 1.
Proof.
  intros Hl. set (m1 := take (15 * SPONGE_CHUNK_SIZE) msg). set (m2 := drop (15 * SPONGE_CHUNK_SIZE) msg).
  assert (length m1 = 15 * SPONGE_CHUNK_SIZE /\ length m2 = SPONGE_CHUNK_SIZE)%nat as [H1 H2].
  { unfold m1, m2. rewrite length_take, length_drop, Hl. done. }
  assert (chunks FRAME_SIZE SPONGE_CHUNK_SIZE msg = chunks 15 SPONGE_CHUNK_SIZE m1 ++ [m2]) as Hc.
  { rewrite <- (take_drop (15 * SPONGE_CHUNK_SIZE) msg) at 1. change FRAME_SIZE with (15 + 1)%nat.
    rewrite chunks_app by done. by rewrite (chunks_one _ m2). }
  rewrite <- (filled_chunks FRAME_SIZE msg) by done. rewrite Hc, foldl_app, fmap_app.
  change sponge_start with (mkSponge (filled []) false None (length (@nil Fr))).
  rewrite absorb_many by (rewrite length_chunks; unfold FRAME_SIZE; cbn; lia). cbn [foldl app length]. rewrite length_chunks.
  set (xs := fr_from_be_bytes <$> chunks 15 SPONGE_CHUNK_SIZE m1).
  assert (length xs = 15%nat) as Hxs by (unfold xs; by rewrite length_fmap, length_chunks).
  unfold absorb. cbn [sp_inputs sp_k Nat.add]. change (15 =? FRAME_SIZE - 1)%nat with true. cbv zeta.
  rewrite <- Hxs at 1 2. rewrite filled_insert by (rewrite Hxs; unfold FRAME_SIZE; lia). done.
Qed.

Lemma hash_chunks n msg : (n < FRAME_SIZE)%nat -> length msg = (n * SPONGE_CHUNK_SIZE)%nat ->
  foldl absorb sponge_start (chunks n SPONGE_CHUNK_SIZE msg)
  = mkSponge (frame_elements msg) (negb (bool_decide (chunks n SPONGE_CHUNK_SIZE msg = []))) None n.
Proof.
  intros Hn Hl. change sponge_start with (mkSponge (filled []) false None (length (@nil Fr))).
  rewrite absorb_many by (rewrite length_chunks; cbn; lia). cbn [app length orb Nat.add].
  rewrite filled_chunks by (done || lia). by rewrite length_chunks.
Qed.

Lemma frame_rest n msg rem : (n < FRAME_SIZE)%nat -> length msg = (n * SPONGE_CHUNK_SIZE)%nat -> (length rem <= SPONGE_CHUNK_SIZE)%nat ->
  <[n := fr_from_be_bytes (rem ++ replicate (SPONGE_CHUNK_SIZE - length rem) x00)]> (frame_elements msg) = frame_elements (msg ++ rem).
Proof.
  intros Hn Hl Hr. set (last := rem ++ replicate (SPONGE_CHUNK_SIZE - length rem) x00).
  assert (length last = SPONGE_CHUNK_SIZE) as Hlast by (unfold last; rewrite length_app, length_replicate; lia).
  rewrite <- (filled_chunks n msg) by (done || lia). set (xs := fr_from_be_bytes <$> chunks n SPONGE_CHUNK_SIZE msg).
  assert (length xs = n) as Hxs by (unfold xs; by rewrite length_fmap, length_chunks).
  rewrite <- Hxs at 1. rewrite filled_insert by lia.
  assert (xs ++ [fr_from_be_bytes last] = fr_from_be_bytes <$> chunks (n + 1) SPONGE_CHUNK_SIZE (msg ++ last)) as ->.
  { rewrite chunks_app by done. rewrite chunks_one by done. by rewrite fmap_app. }
  rewrite filled_chunks by (rewrite ?length_app; lia).
  unfold frame_elements. do 2 f_equal. unfold last. rewrite app_assoc. apply pad_frame_zeros.
  rewrite length_app. unfold FRAME_BYTES. nia.
Qed.

(** A message of at most one frame is hashed as its zero-padded frame. *)
Lemma hash_one_frame msg : msg <> [] -> (length msg <= FRAME_BYTES)%nat ->
  hash_bytes_to_32 msg = Ok (fr_to_32_be (permutation (frame_elements msg))).
Proof.
  intros Hne Hle. unfold hash_bytes_to_32. cbv zeta. set (n := (length msg / SPONGE_CHUNK_SIZE)%nat).
  assert (length msg = n * SPONGE_CHUNK_SIZE + length msg mod SPONGE_CHUNK_SIZE)%nat as Hdm
    by (pose proof (Nat.div_mod_eq (length msg) SPONGE_CHUNK_SIZE); unfold n; lia).
  assert (length msg mod SPONGE_CHUNK_SIZE < SPONGE_CHUNK_SIZE)%nat as Hr by (apply Nat.mod_upper_bound; done).
  clearbody n.
  destruct (Nat.eqb_spec (length msg mod SPONGE_CHUNK_SIZE) 0) as [Hz|Hnz].
  - rewrite Hz, Nat.add_0_r in Hdm. destruct (decide (n = FRAME_SIZE)) as [En|].
    + rewrite En in Hdm |- *. by rewrite hash_full_frame.
    + rewrite hash_chunks; [|unfold FRAME_BYTES, SPONGE_CHUNK_SIZE in *; nia|done]. unfold squeeze. cbn [sp_dirty sp_inputs].
      rewrite bool_decide_eq_false_2; [done|]. intros E. apply (f_equal length) in E. rewrite length_chunks in E. cbn in E.
      rewrite E in Hdm. by destruct msg.
  - assert (n < FRAME_SIZE)%nat as Hn by (unfold FRAME_BYTES, SPONGE_CHUNK_SIZE in *; nia).
    set (m1 := take (n * SPONGE_CHUNK_SIZE) msg). set (rem := drop (n * SPONGE_CHUNK_SIZE) msg).
    assert (length m1 = n * SPONGE_CHUNK_SIZE /\ length rem <= SPONGE_CHUNK_SIZE)%nat as [H1 H2]
      by (unfold m1, rem; rewrite length_take, length_drop; lia).
    assert (chunks n SPONGE_CHUNK_SIZE msg = chunks n SPONGE_CHUNK_SIZE m1) as ->.
    { rewrite <- (take_drop (n * SPONGE_CHUNK_SIZE) msg) at 1. replace n with (n + 0)%nat at 1 by lia.
      rewrite chunks_app by done. apply app_nil_r. }
    rewrite hash_chunks by done. unfold squeeze, absorb_rest. cbn [sp_dirty sp_inputs sp_k].
    rewrite frame_rest by done. unfold m1, rem. by rewrite take_drop.
Qed.

Lemma frame_elements_inj x y : (length x <= FRAME_BYTES)%nat -> (length y <= FRAME_BYTES)%nat ->
  frame_elements x = frame_elements y -> pad_frame x = pad_frame y.
Proof.
  intros Hx Hy E. assert (forall z, (length z <= FRAME_BYTES)%nat -> length (pad_frame z) = (FRAME_SIZE * SPONGE_CHUNK_SIZE)%nat) as Hp.
  { intros z Hz. unfold pad_frame. rewrite length_app, length_replicate. unfold FRAME_BYTES in *. lia. }
  destruct (chunks_cover FRAME_SIZE SPONGE_CHUNK_SIZE (pad_frame x) (Hp x Hx)) as [Ex Fx].
  destruct (chunks_cover FRAME_SIZE SPONGE_CHUNK_SIZE (pad_frame y) (Hp y Hy)) as [Ey Fy].
  rewrite <- Ex, <- Ey. f_equal. clear Ex Ey.
  unfold frame_elements in E. revert E Fx Fy. generalize (chunks FRAME_SIZE SPONGE_CHUNK_SIZE (pad_frame x)).
  generalize (chunks FRAME_SIZE SPONGE_CHUNK_SIZE (pad_frame y)). intros l' l. revert l'.
  induction l as [|c l IH]; intros [|d l'] E Fx Fy; try done. injection E as Ec El.
  apply Forall_cons in Fx as [Hc Fx], Fy as [Hd Fy]. f_equal; [by apply fr_from_inj|by apply IH].
Qed.

End Sponge.

(** A field in which nothing collides: elements are numbers, a frame is their list's code. *)
Fixpoint spell (p : positive) : list byte :=
  match p with xH => [] | xO q => x00 :: spell q | xI q => x01 :: spell q end.
Lemma spell_inj : Inj (=) (=) spell.
Proof. intros p. induction p as [p IH|p IH|]; intros [q|q|]; cbn; try done; intros [= E]; by rewrite (IH q E). Qed.

#[local, refine] Instance free_field : FieldHash := {|
  Fr := positive;
  fr_from_be_bytes := encode;
  zero_fr := encode (replicate SPONGE_CHUNK_SIZE x00);
  permutation := encode;
  fr_to_32_be := spell;
|}.
Proof.
  - intros a b _ _ E. by apply (inj encode).
  - done.
  - intros xs ys _ _ E. by apply (inj encode).
  - apply spell_inj.
Defined.

