(* ===== verification/ShardForest.v ===== *)
(** * Shard addressing ([quil-forest/src/lib.rs], [quil-types/src/execution.rs])

    A shard is a path of address bits.  It travels as a filter (the application's
    address, a bit count, the packed bits), as levels of a shard row with a
    sentinel in front, and as a packed path of at most 64 bits inside records.
    [split_spine_siblings] are the shards a deep split registers beside its two
    children. *)

From S2P Require Import Prelude Bytes SettlementRecord Bitmask MembershipTree ShardedTree CoinBlocks.

(** ** Filters *)

Definition SHARD_BIT_LEN_BYTES : nat := 2.
Definition div_ceil (n d : nat) : nat := ((n + (d - 1)) / d)%nat.

(** [(packed[i / 8] >> (7 - (i % 8))) & 1 == 1] *)
Definition shard_bit (packed : list byte) (i : nat) : bool :=
  Z.land (Z.shiftr (byte_val (default x00 (packed !! (i / 8)%nat))) (Z.of_nat (7 - i mod 8))) 1 =? 1.
(** [out[i / 8] |= 1 << (7 - (i % 8))] *)
Definition set_shard_bit (out : list byte) (i : nat) : list byte :=
  alter (fun b => byte_of (Z.lor (byte_val b) (Z.shiftl 1 (Z.of_nat (7 - i mod 8))))) (i / 8)%nat out.

Fixpoint pack_from (out : list byte) (i : nat) (bits : list bool) : list byte :=
  match bits with
  | [] => out
  | b :: bits' => pack_from (if (b : bool) then set_shard_bit out i else out) (S i) bits'
  end.
Definition pack_bits (bit_path : list bool) : list byte :=
  pack_from (replicate (div_ceil (length bit_path) 8) x00) 0 bit_path.

Definition encode_shard_bit_path (app : list byte) (bit_path : list bool) : list byte :=
  app ++ be_bytes 2 (Z.of_nat (length bit_path)) ++ pack_bits bit_path.

Definition decode_shard_bit_path (filter : list byte) (app_len : nat) : option (list byte * list bool) :=
  if (length filter <? app_len + SHARD_BIT_LEN_BYTES)%nat then None
  else
    let app := take app_len filter in
    let n := Z.to_nat (be_val (take SHARD_BIT_LEN_BYTES (drop app_len filter))) in
    let n_bytes := div_ceil n 8 in
    if negb (length filter =? app_len + SHARD_BIT_LEN_BYTES + n_bytes)%nat then None
    else
      let packed := drop (app_len + SHARD_BIT_LEN_BYTES) filter in
      if existsb (shard_bit packed) (seq n (n_bytes * 8 - n)) then None
      else Some (app, shard_bit packed <$> seq 0 n).

Definition bit_path_starts_with (child parent : list bool) : bool :=
  (length parent <=? length child)%nat && bool_decide (take (length parent) child = parent).

(** [(lvl >> i) & 1 == 1] for [i] from the top of a level down. *)
Definition prefix_to_bits (prefix : list Z) (bits_per_level : nat) : list bool :=
  prefix ≫= fun lvl => (fun i => Z.land (Z.shiftr lvl (Z.of_nat i)) 1 =? 1) <$> reverse (seq 0 bits_per_level).

Definition decode_shard_filter_or_root (filter : list byte) (app_len : nat) : option (list byte * list bool) :=
  if (length filter =? app_len)%nat then Some (take app_len filter, [])
  else if (app_len <? length filter)%nat && (length filter <? app_len + SHARD_BIT_LEN_BYTES)%nat
  then Some (take app_len filter, prefix_to_bits (byte_val <$> drop app_len filter) 6)
  else decode_shard_bit_path filter app_len.

Definition shard_filter_extends (child_filter parent_filter : list byte) (app_len : nat) : bool :=
  match decode_shard_filter_or_root child_filter app_len, decode_shard_filter_or_root parent_filter app_len with
  | Some (ca, cb), Some (pa, pb) => bool_decide (ca = pa) && bit_path_starts_with cb pb
  | _, _ => false
  end.

(** ** Levels of a shard row *)

Definition BIT_PATH_PREFIX_SENTINEL : Z := 0xFFFFFFFF.
Definition bit_path_to_prefix (bit_path : list bool) : list Z :=
  BIT_PATH_PREFIX_SENTINEL :: ((fun b : bool => if b then 1 else 0) <$> bit_path).

Fixpoint levels_bits (rest : list Z) : option (list bool) :=
  match rest with
  | [] => Some []
  | lvl :: rest' =>
      if lvl =? 0 then cons false <$> levels_bits rest'
      else if lvl =? 1 then cons true <$> levels_bits rest'
      else None
  end.
Definition shard_bit_path_from_prefix (prefix : list Z) : option (list bool) :=
  match prefix with
  | [] => None
  | head :: rest => if negb (head =? BIT_PATH_PREFIX_SENTINEL) then None else levels_bits rest
  end.

Definition shard_prefix_to_filter (l2 : list byte) (prefix : list Z) : list byte :=
  match shard_bit_path_from_prefix prefix with
  | Some bits => encode_shard_bit_path l2 bits
  | None => l2 ++ (byte_of <$> prefix)
  end.

Definition genesis_grid_prefixes (network : Z) : list (list Z) :=
  if network =? 0 then (fun i => bit_path_to_prefix (prefix_to_bits [i] 6)) <$> zrange 64 else [[]].

(** ** Splits *)

Definition split_spine_siblings (parent branch : list bool) : list (list bool) :=
  (fun i => take i branch ++ [negb (default false (branch !! i))]) <$> seq (length parent) (length branch - length parent).

(** ** [ShardPath] *)

Record ShardPath := mkPath { sp_bits : Z; sp_len : Z }.
Definition WHOLE : ShardPath := mkPath 0 0.
Definition UNKNOWN : ShardPath := mkPath 0 255.
Definition MAX_BITS : nat := 64.

Fixpoint pack_u64 (acc : Z) (i : nat) (bits : list bool) : Z :=
  match bits with
  | [] => acc
  | b :: bits' => pack_u64 (if (b : bool) then Z.lor acc (Z.shiftl 1 (Z.of_nat (63 - i))) else acc) (S i) bits'
  end.
Definition from_bits (bits : list bool) : ShardPath :=
  if (MAX_BITS <? length bits)%nat then UNKNOWN else mkPath (pack_u64 0 0 bits) (Z.of_nat (length bits)).

Definition is_whole (p : ShardPath) : bool := sp_len p =? 0.

Definition path_bit (bits : Z) (i : nat) : bool := negb (Z.land bits (Z.shiftl 1 (Z.of_nat (63 - i))) =? 0).

Definition path_to_bytes (p : ShardPath) : list byte := be_bytes 1 (sp_len p) ++ be_bytes 8 (sp_bits p).
Definition path_from_bytes (bytes : list byte) : option ShardPath :=
  if negb (length bytes =? 9)%nat then None
  else
    let len := be_val (take 1 bytes) in
    let bits := be_val (drop 1 bytes) in
    if Z.of_nat MAX_BITS <? len then if (len =? 255) && (bits =? 0) then Some UNKNOWN else None
    else
      let used := if len =? 0 then 0 else Z.land (Z.shiftl (2 ^ 64 - 1) (64 - len)) (2 ^ 64 - 1) in
      if Z.land bits (Z.lxor used (2 ^ 64 - 1)) =? 0 then Some (mkPath bits len) else None.

Definition covers (p : ShardPath) (address : list byte) : bool :=
  let len := Z.to_nat (sp_len p) in
  if ((MAX_BITS <? len) || (length address * 8 <? len))%nat then false
  else forallb (fun i => Bool.eqb (negb (Z.land (byte_val (default x00 (address !! (i / 8)%nat))) (Z.shiftr 0x80 (Z.of_nat (i mod 8))) =? 0))
                           (path_bit (sp_bits p) i)) (seq 0 len).

Definition bits (p : ShardPath) : option (list bool) :=
  if (MAX_BITS <? Z.to_nat (sp_len p))%nat then None else Some (path_bit (sp_bits p) <$> seq 0 (Z.to_nat (sp_len p))).

(** ** Packed bits *)

Lemma shard_bit_test packed i :
  shard_bit packed i = Z.testbit (byte_val (default x00 (packed !! (i / 8)%nat))) (Z.of_nat (7 - i mod 8)).
Proof. apply land_shiftr_bit. Qed.

Lemma set_shard_bit_length out i : length (set_shard_bit out i) = length out.
Proof. apply length_alter. Qed.

Lemma same_bit i j : (i / 8 = j / 8)%nat -> (7 - i mod 8 = 7 - j mod 8)%nat -> i = j.
Proof.
  intros Hd Hm. pose proof (Nat.mod_upper_bound i 8 ltac:(done)). pose proof (Nat.mod_upper_bound j 8 ltac:(done)).
  rewrite (Nat.div_mod_eq i 8), (Nat.div_mod_eq j 8). lia.
Qed.

Lemma shard_bit_set out i j : (i < length out * 8)%nat ->
  shard_bit (set_shard_bit out i) j = if decide (i = j) then true else shard_bit out j.
Proof.
  intros Hi. rewrite !shard_bit_test. unfold set_shard_bit.
  destruct (decide ((i / 8 = j / 8)%nat)) as [Hd|Hd].
  - rewrite Hd, list_lookup_alter_eq. destruct (lookup_lt_is_Some_2 out (j / 8)) as [b Hb].
    { rewrite <- Hd. apply Nat.Div0.div_lt_upper_bound. lia. }
    rewrite Hb. cbn [fmap option_fmap option_map default from_option id].
    rewrite byte_of_bit by lia. rewrite Z.lor_spec, Z.shiftl_1_l, Z.pow2_bits_eqb by lia.
    destruct (decide (i = j)) as [->|Hne]; [by rewrite Z.eqb_refl, orb_true_r|].
    destruct (Z.eqb_spec (Z.of_nat (7 - i mod 8)) (Z.of_nat (7 - j mod 8))) as [E|]; [|apply orb_false_r].
    destruct Hne. apply same_bit; [done|lia].
  - rewrite list_lookup_alter_ne by done. rewrite decide_False by (by intros ->). done.
Qed.

Lemma pack_from_length out i bs : length (pack_from out i bs) = length out.
Proof.
  revert out i. induction bs as [|b bs IH]; intros out i; [done|]. cbn [pack_from]. rewrite IH.
  destruct b; [apply set_shard_bit_length|done].
Qed.

Lemma shard_bit_pack out i bs j : (i + length bs <= length out * 8)%nat ->
  shard_bit (pack_from out i bs) j
  = if decide (i <= j < i + length bs)%nat then default false (bs !! (j - i)%nat) || shard_bit out j else shard_bit out j.
Proof.
  revert out i. induction bs as [|b bs IH]; intros out i Hl; cbn [pack_from length] in *; [by rewrite decide_False by lia|].
  rewrite IH by (destruct b; rewrite ?set_shard_bit_length; lia).
  assert (shard_bit (if b then set_shard_bit out i else out) j = if decide (i = j) then b || shard_bit out j else shard_bit out j) as ->.
  { destruct b; [rewrite shard_bit_set by lia|]; by case_decide. }
  destruct (decide (i = j)) as [<-|Hne].
  - rewrite decide_False by lia. rewrite decide_True by lia. by rewrite Nat.sub_diag.
  - destruct (decide (i <= j < i + S (length bs))%nat) as [Hj|Hj].
    + rewrite decide_True by lia. replace (j - i)%nat with (S (j - S i)) by lia. done.
    + by rewrite decide_False by lia.
Qed.

Lemma div_ceil_bounds n : (n <= div_ceil n 8 * 8 < n + 8)%nat.
Proof. unfold div_ceil. pose proof (Nat.div_mod_eq (n + (8 - 1)) 8). pose proof (Nat.mod_upper_bound (n + (8 - 1)) 8). lia. Qed.

Lemma pack_bits_length bs : length (pack_bits bs) = div_ceil (length bs) 8.
Proof. unfold pack_bits. by rewrite pack_from_length, length_replicate. Qed.

Lemma shard_bit_zero k i : shard_bit (replicate k x00) i = false.
Proof.
  rewrite shard_bit_test. assert (default x00 (replicate k x00 !! (i / 8)%nat) = x00) as ->; [|apply Z.bits_0].
  destruct (replicate k x00 !! (i / 8)%nat) eqn:E; [|done]. by apply lookup_replicate in E as [-> _].
Qed.

Lemma pack_bits_bit bs j : shard_bit (pack_bits bs) j = default false (bs !! j).
Proof.
  unfold pack_bits. pose proof (div_ceil_bounds (length bs)).
  rewrite shard_bit_pack by (rewrite length_replicate; lia). rewrite shard_bit_zero, Nat.sub_0_r, orb_false_r.
  case_decide; [done|]. rewrite lookup_ge_None_2 by lia. done.
Qed.

(** Bytes are determined by their bits. *)
Lemma byte_bits_eq a b : (forall k, (k < 8)%nat -> Z.testbit (byte_val a) (Z.of_nat k) = Z.testbit (byte_val b) (Z.of_nat k)) -> a = b.
Proof.
  intros Hk. apply byte_val_inj, Z.bits_inj'. intros n Hn. destruct (decide (n < 8)).
  - specialize (Hk (Z.to_nat n) ltac:(lia)). by rewrite Z2Nat.id in Hk by done.
  - by rewrite !byte_high_bit by lia.
Qed.

Lemma bits_determine xs ys : length xs = length ys -> (forall j, (j < length xs * 8)%nat -> shard_bit xs j = shard_bit ys j) -> xs = ys.
Proof.
  intros Hl Hb. apply list_eq_same_length with (length xs); [done|done|]. intros i a b Hi Ha Hb'. apply byte_bits_eq. intros k Hk.
  assert ((i * 8 + (7 - k)) / 8 = i)%nat as Ed by (rewrite Nat.div_add_l by done; rewrite Nat.div_small by lia; lia).
  assert ((i * 8 + (7 - k)) mod 8 = 7 - k)%nat as Em by (rewrite Nat.add_comm, Nat.Div0.mod_add; apply Nat.mod_small; lia).
  specialize (Hb (i * 8 + (7 - k))%nat ltac:(lia)). rewrite !shard_bit_test, Ed, Em, Ha, Hb' in Hb. cbn in Hb.
  replace (7 - (7 - k))%nat with k in Hb by lia. done.
Qed.

(** ** Filters are canonical *)

Lemma fmap_seq_lookup bs : (fun j => default false (bs !! j)) <$> seq 0 (length bs) = bs.
Proof.
  apply list_eq. intros i. rewrite list_lookup_fmap. destruct (decide (i < length bs)%nat).
  - rewrite lookup_seq_lt by lia. cbn. destruct (lookup_lt_is_Some_2 bs i) as [b Hb]; [done|]. by rewrite Hb.
  - rewrite lookup_seq_ge by lia. cbn. symmetry. apply lookup_ge_None. lia.
Qed.

Lemma existsb_seq_false f a n : existsb f (seq a n) = false <-> forall i, (a <= i < a + n)%nat -> f i = false.
Proof.
  rewrite <- not_true_iff_false, existsb_exists. split.
  - intros Hn i Hi. destruct (f i) eqn:E; [|done]. destruct Hn. exists i. split; [|done]. apply in_seq. lia.
  - intros Hf (i & Hi%in_seq & Ht). rewrite Hf in Ht by lia. done.
Qed.

(** A shard filter is decoded exactly when it is the encoding of its
    application and bit path: one filter per shard, whatever the padding. *)
Theorem shard_filter_canonical filter app_len app bs :
  decode_shard_bit_path filter app_len = Some (app, bs) <->
  (length app = app_len /\ Z.of_nat (length bs) < 2 ^ 16 /\ filter = encode_shard_bit_path app bs).
Proof.
  unfold decode_shard_bit_path, encode_shard_bit_path. split.
  - destruct (Nat.ltb_spec (length filter) (app_len + SHARD_BIT_LEN_BYTES)) as [|Hlen]; [done|]. cbv zeta.
    set (len := take SHARD_BIT_LEN_BYTES (drop app_len filter)). set (n := Z.to_nat (be_val len)).
    set (packed := drop (app_len + SHARD_BIT_LEN_BYTES) filter).
    destruct (Nat.eqb_spec (length filter) (app_len + SHARD_BIT_LEN_BYTES + div_ceil n 8)) as [Hl|]; [|done]. cbn [negb].
    destruct (existsb _ _) eqn:Hpad; [done|]. intros [= <- <-]. unfold SHARD_BIT_LEN_BYTES in *.
    assert (length len = 2%nat) as Hlen2 by (unfold len; rewrite length_take, length_drop; lia).
    pose proof (be_val_range len) as Hr. rewrite Hlen2 in Hr. change (256 ^ Z.of_nat 2) with (2 ^ 16) in Hr.
    rewrite length_take, length_fmap, length_seq. split_and!; [lia|lia|].
    assert (be_bytes 2 (Z.of_nat n) = len) as ->.
    { unfold n. rewrite Z2Nat.id by lia. rewrite <- Hlen2. apply be_bytes_val. }
    assert (pack_bits (shard_bit packed <$> seq 0 n) = packed) as ->.
    { apply bits_determine; rewrite pack_bits_length, length_fmap, length_seq; [unfold packed; rewrite length_drop; lia|].
      intros j Hj. rewrite pack_bits_bit, list_lookup_fmap. pose proof (div_ceil_bounds n).
      destruct (decide (j < n)%nat); [by rewrite lookup_seq_lt by done|]. rewrite lookup_seq_ge by lia. cbn. symmetry.
      rewrite existsb_seq_false in Hpad. apply Hpad. lia. }
    unfold len, packed. rewrite <- drop_drop, !take_drop. done.
  - intros (<- & Hn & ->). rewrite !length_app, be_bytes_length, pack_bits_length. unfold SHARD_BIT_LEN_BYTES.
    destruct (Nat.ltb_spec (length app + (2 + div_ceil (length bs) 8)) (length app + 2)); [lia|]. cbv zeta.
    rewrite take_app_length, drop_app_length, take_app_length' by by rewrite be_bytes_length.
    assert (be_val (be_bytes 2 (Z.of_nat (length bs))) = Z.of_nat (length bs)) as ->
      by (rewrite be_val_bytes; apply Z.mod_small; change (256 ^ Z.of_nat 2) with (2 ^ 16); lia).
    rewrite Nat2Z.id, Nat.add_assoc, Nat.eqb_refl. cbn [negb].
    rewrite <- drop_drop, drop_app_length, drop_app_length' by by rewrite be_bytes_length.
    assert (existsb (shard_bit (pack_bits bs)) (seq (length bs) (div_ceil (length bs) 8 * 8 - length bs)) = false) as ->.
    { apply existsb_seq_false. intros i Hi. rewrite pack_bits_bit, lookup_ge_None_2 by lia. done. }
    do 2 f_equal. rewrite <- (fmap_seq_lookup bs) at 3. apply list_fmap_ext. intros i x _. apply pack_bits_bit.
Qed.

(** ** Splits *)

Lemma spine_step p x rest : split_spine_siblings p (p ++ x :: rest) =
  (p ++ [negb x]) :: split_spine_siblings (p ++ [x]) ((p ++ [x]) ++ rest).
Proof.
  unfold split_spine_siblings. rewrite <- app_assoc. cbn [app]. rewrite !length_app. cbn [length].
  replace (length p + S (length rest) - length p)%nat with (S (length rest)) by lia. cbn [seq fmap list_fmap].
  rewrite take_app_length, list_lookup_middle by done. f_equal.
  replace (length p + S (length rest) - (length p + 1))%nat with (length rest) by lia. by rewrite Nat.add_1_r.
Qed.

Lemma covering_flip path p x : length (covering path [p ++ [negb x]; p ++ [x]]) = length (covering path [p ++ [false]; p ++ [true]]).
Proof.
  destruct x; [done|]. change [p ++ [negb false]; p ++ [false]] with ([p ++ [true]] ++ [p ++ [false]]).
  change [p ++ [false]; p ++ [true]] with ([p ++ [false]] ++ [p ++ [true]]). rewrite !covering_app, !length_app. lia.
Qed.

Definition deep_split (parent branch : list bool) : list (list bool) :=
  split_spine_siblings parent branch ++ [branch ++ [false]; branch ++ [true]].

(** The shards of a deep split cover together what the parent covers, once. *)
Lemma deep_split_covers path p rest : (length (p ++ rest) < length path)%nat ->
  length (covering path (deep_split p (p ++ rest))) = length (covering path [p]).
Proof.
  revert p. induction rest as [|x rest IH]; intros p Hl.
  - rewrite app_nil_r in *. unfold deep_split, split_spine_siblings. rewrite Nat.sub_diag. cbn [seq fmap list_fmap app].
    by apply covering_halves.
  - unfold deep_split. rewrite spine_step. rewrite length_app in Hl. cbn [length] in Hl.
    change (?a :: ?b) with ([a] ++ b). rewrite <- app_assoc, covering_app, length_app.
    assert (p ++ x :: rest = (p ++ [x]) ++ rest) as -> by by rewrite <- app_assoc.
    change (split_spine_siblings (p ++ [x]) ((p ++ [x]) ++ rest) ++ _) with (deep_split (p ++ [x]) ((p ++ [x]) ++ rest)).
    rewrite IH by (rewrite !length_app; cbn [length]; lia). rewrite <- length_app, <- covering_app. cbn [app].
    rewrite covering_flip. apply covering_halves. lia.
Qed.

(** C19. A deep split of a shard keeps the grid exact: replacing the parent by the
    spine of siblings its descent passed and the two children below the
    branch, every address path still lies in exactly one shard. *)
Theorem deep_split_exact l p r branch : p `prefix_of` branch -> covers_once (l ++ p :: r) ->
  covers_once (l ++ deep_split p branch ++ r).
Proof.
  intros [rest ->] Hc path Hlong. rewrite !covering_app, !length_app.
  assert (length ((p ++ rest) ++ [true]) <= length path)%nat as Hb.
  { apply Hlong. rewrite !elem_of_app. right. left. unfold deep_split. rewrite elem_of_app. right. by apply list_elem_of_further, list_elem_of_here. }
  rewrite length_app in Hb. cbn in Hb. rewrite deep_split_covers by lia.
  specialize (Hc path). change (p :: r) with ([p] ++ r) in Hc. rewrite !covering_app, !length_app in Hc. apply Hc.
  intros s Hs. rewrite !elem_of_app, list_elem_of_singleton in Hs.
  destruct Hs as [Hs|[-> | Hs]]; [apply Hlong; rewrite !elem_of_app; tauto|rewrite length_app in Hb; lia|].
  apply Hlong. rewrite !elem_of_app. tauto.
Qed.

Lemma deep_split_exact_witness : covers_once ([] ++ deep_split [] [false; false] ++ []).
Proof.
  apply (deep_split_exact [] [] [] [false; false]); [by exists [false; false]|].
  intros path _. unfold covering. cbn [app]. rewrite filter_cons_True by (by exists path). reflexivity.
Defined.

(** ** Packed paths *)

Lemma pack_u64_bit acc i bs k : (i + length bs <= 64)%nat -> 0 <= k ->
  Z.testbit (pack_u64 acc i bs) k
  = Z.testbit acc k || (bool_decide (k < 64) && bool_decide (i <= 63 - Z.to_nat k)%nat && default false (bs !! (63 - Z.to_nat k - i)%nat)).
Proof.
  revert acc i. induction bs as [|b bs IH]; intros acc i Hl Hk; cbn [pack_u64 length] in *.
  - rewrite lookup_nil. cbn. by rewrite andb_false_r, orb_false_r.
  - rewrite IH by (done || lia).
    assert (Z.testbit (if b then Z.lor acc (Z.shiftl 1 (Z.of_nat (63 - i))) else acc) k
      = Z.testbit acc k || (b && bool_decide (k = Z.of_nat (63 - i)))) as ->.
    { destruct b; [|by rewrite orb_false_r]. rewrite Z.lor_spec, Z.shiftl_1_l, Z.pow2_bits_eqb by lia. f_equal.
      rewrite andb_true_l, Z.eqb_sym. destruct (Z.eqb_spec k (Z.of_nat (63 - i))); [by rewrite bool_decide_eq_true_2|by rewrite bool_decide_eq_false_2]. }
    rewrite <- orb_assoc. f_equal. destruct (decide (k = Z.of_nat (63 - i))) as [->|Hne].
    + rewrite (bool_decide_eq_true_2 (_ = _)) by done. rewrite Nat2Z.id.
      rewrite (bool_decide_eq_false_2 (S i <= 63 - (63 - i))%nat) by lia. rewrite andb_false_r, orb_false_r, andb_true_r.
      rewrite bool_decide_eq_true_2, bool_decide_eq_true_2 by lia. replace (63 - (63 - i) - i)%nat with 0%nat by lia. done.
    + rewrite (bool_decide_eq_false_2 (k = _)) by done. rewrite andb_false_r. cbn [orb].
      destruct (decide (k < 64)); [|by rewrite bool_decide_eq_false_2 by done].
      destruct (decide (S i <= 63 - Z.to_nat k)%nat).
      * rewrite !(bool_decide_eq_true_2 (_ <= _)%nat) by lia.
        by replace (63 - Z.to_nat k - i)%nat with (S (63 - Z.to_nat k - S i)) by lia.
      * rewrite (bool_decide_eq_false_2 (S i <= _)%nat) by lia. rewrite (bool_decide_eq_false_2 (i <= _)%nat) by lia. by rewrite !andb_false_r.
Qed.

Definition packed (bs : list bool) : Z := pack_u64 0 0 bs.

Lemma packed_bit bs k : (length bs <= 64)%nat -> 0 <= k ->
  Z.testbit (packed bs) k = bool_decide (k < 64) && default false (bs !! (63 - Z.to_nat k)%nat).
Proof.
  intros Hl Hk. unfold packed. rewrite pack_u64_bit, Z.bits_0, Nat.sub_0_r by (done || lia). cbn [orb].
  rewrite (bool_decide_eq_true_2 (0 <= _)%nat) by lia. by rewrite andb_true_r.
Qed.

Lemma packed_high bs k : (length bs <= 64)%nat -> 0 <= k -> k < 64 - Z.of_nat (length bs) \/ 64 <= k -> Z.testbit (packed bs) k = false.
Proof.
  intros Hl Hk Hr. rewrite packed_bit by done. case_bool_decide; [|done]. rewrite lookup_ge_None_2 by lia. done.
Qed.

Lemma pack_u64_nonneg acc i bs : 0 <= acc -> 0 <= pack_u64 acc i bs.
Proof.
  revert acc i. induction bs as [|b bs IH]; intros acc i Ha; [done|]. cbn [pack_u64]. apply IH. destruct b; [|done].
  apply Z.lor_nonneg. split; [done|]. apply Z.shiftl_nonneg. lia.
Qed.

Lemma packed_u64 bs : (length bs <= 64)%nat -> is_u64 (packed bs).
Proof.
  intros Hl. assert (0 <= packed bs) by by apply pack_u64_nonneg. split; [done|].
  assert (packed bs = packed bs mod 2 ^ 64) as ->; [|by apply Z.mod_pos_bound].
  apply Z.bits_inj'. intros k Hk. destruct (decide (k < 64)); [by rewrite Z.mod_pow2_bits_low by lia|].
  rewrite Z.mod_pow2_bits_high by lia. apply packed_high; lia.
Qed.

Lemma path_bit_packed bs i : (length bs <= 64)%nat -> (i < 64)%nat -> path_bit (packed bs) i = default false (bs !! i).
Proof.
  intros Hl Hi. unfold path_bit. rewrite land_bit_zero, negb_involutive, packed_bit by lia.
  rewrite bool_decide_eq_true_2 by lia. rewrite Nat2Z.id. by replace (63 - (63 - i))%nat with i by lia.
Qed.

Lemma from_bits_packed bs : (length bs <= 64)%nat -> from_bits bs = mkPath (packed bs) (Z.of_nat (length bs)).
Proof. intros Hl. unfold from_bits, MAX_BITS. destruct (Nat.ltb_spec 64 (length bs)); [lia|done]. Qed.

(** The unused low bits of a packed path are clear. *)
Lemma packed_unused bs : (length bs <= 64)%nat ->
  let len := Z.of_nat (length bs) in
  Z.land (packed bs) (Z.lxor (if len =? 0 then 0 else Z.land (Z.shiftl (2 ^ 64 - 1) (64 - len)) (2 ^ 64 - 1)) (2 ^ 64 - 1)) = 0.
Proof.
  intros Hl len. apply Z.bits_inj'. intros k Hk. rewrite Z.land_spec, Z.lxor_spec, Z.bits_0.
  replace (2 ^ 64 - 1) with (Z.ones 64) by reflexivity.
  destruct (decide (k < 64 - len \/ 64 <= k)) as [Hr|Hr]; [by rewrite packed_high by (unfold len in *; lia || done)|].
  assert (Z.testbit (Z.ones 64) k = true) as Ho by (apply Z.ones_spec_low; lia). rewrite Ho.
  destruct (Z.eqb_spec len 0); [lia|]. rewrite Z.land_spec, Z.shiftl_spec, Ho by lia.
  rewrite (Z.ones_spec_low 64 (k - (64 - len))) by lia. apply andb_false_r.
Qed.

Lemma covers_bit address i : (Z.land (byte_val (default x00 (address !! (i / 8)%nat))) (Z.shiftr 0x80 (Z.of_nat (i mod 8))) =? 0)
  = negb (shard_bit address i).
Proof.
  rewrite shard_bit_test. pose proof (Nat.mod_upper_bound i 8 ltac:(done)).
  assert (Z.shiftr 0x80 (Z.of_nat (i mod 8)) = Z.shiftl 1 (Z.of_nat (7 - i mod 8))) as ->.
  { assert (exists m, (i mod 8 = m /\ m < 8)%nat) as (m & -> & Hm) by eauto. do 8 (destruct m as [|m]; [reflexivity|]). lia. }
  apply land_bit_zero. lia.
Qed.

(** The bits of an address, most significant first. *)
Definition all_bits (address : list byte) : list bool := shard_bit address <$> seq 0 (length address * 8).

Lemma covers_prefix bs address : (length bs <= 64)%nat -> covers (from_bits bs) address = true <-> bs `prefix_of` all_bits address.
Proof.
  intros Hl. rewrite from_bits_packed by done. unfold covers. cbn [sp_len sp_bits]. rewrite Nat2Z.id. unfold MAX_BITS.
  destruct (Nat.ltb_spec 64 (length bs)); [lia|]. cbn [orb].
  destruct (Nat.ltb_spec (length address * 8) (length bs)) as [Hs|Hs].
  { split; [done|]. intros [r Hr]. apply (f_equal length) in Hr. unfold all_bits in Hr.
    rewrite length_fmap, length_seq, length_app in Hr. lia. }
  rewrite forallb_forall. split.
  - intros Hall. exists (drop (length bs) (all_bits address)). rewrite <- (take_drop (length bs) (all_bits address)) at 1. f_equal.
    apply list_eq_same_length with (length bs); [done|unfold all_bits; rewrite length_take, length_fmap, length_seq; lia|].
    intros i x y Hi Hx Hy. rewrite lookup_take_lt in Hx by lia. unfold all_bits in Hx.
    rewrite list_lookup_fmap, lookup_seq_lt in Hx by lia. injection Hx as <-.
    specialize (Hall i ltac:(apply in_seq; lia)). rewrite covers_bit, negb_involutive in Hall.
    rewrite path_bit_packed, Hy in Hall by lia. by apply Bool.eqb_prop in Hall.
  - intros [r Hr] i Hi%in_seq. rewrite covers_bit, negb_involutive, path_bit_packed by lia.
    assert (all_bits address !! i = bs !! i) as E by (rewrite Hr; apply lookup_app_l; lia).
    unfold all_bits in E. rewrite list_lookup_fmap, lookup_seq_lt in E by lia. rewrite <- E. apply Bool.eqb_reflx.
Qed.

(** A shard's path survives its packed form: the path recorded with a
    delivery gives back the shard's bits, its nine bytes read back as the
    same path, and it covers exactly the addresses that begin with them. *)
Theorem shard_path_faithful bs address : (length bs <= MAX_BITS)%nat ->
  bits (from_bits bs) = Some bs /\ path_from_bytes (path_to_bytes (from_bits bs)) = Some (from_bits bs) /\
  (covers (from_bits bs) address = true <-> bs `prefix_of` all_bits address).
Proof.
  unfold MAX_BITS. intros Hl. split_and!; [| |by apply covers_prefix]; rewrite from_bits_packed by done.
  - unfold bits, MAX_BITS. cbn [sp_len sp_bits]. rewrite Nat2Z.id. destruct (Nat.ltb_spec 64 (length bs)); [lia|]. f_equal.
    rewrite <- (fmap_seq_lookup bs) at 3. apply list_fmap_ext. intros i x Hx%lookup_seq. apply path_bit_packed; lia.
  - unfold path_from_bytes, path_to_bytes. cbn [sp_len sp_bits]. rewrite length_app, !be_bytes_length. cbn [Nat.add Nat.eqb negb].
    rewrite take_app_length', drop_app_length' by by rewrite be_bytes_length. rewrite !be_val_bytes.
    pose proof (packed_u64 bs Hl) as Hu. unfold is_u64 in Hu. change (256 ^ Z.of_nat 1) with 256. change (256 ^ Z.of_nat 8) with (2 ^ 64).
    rewrite !Z.mod_small by lia. unfold MAX_BITS. destruct (Z.ltb_spec (Z.of_nat 64) (Z.of_nat (length bs))); [lia|].
    by rewrite (packed_unused bs Hl).
Qed.

Lemma shard_path_faithful_witness :
  bits (from_bits [true; false; true]) = Some [true; false; true] /\ covers (from_bits [true; false; true]) [xbf; x00] = true.
Proof.
  destruct (shard_path_faithful [true; false; true] [xbf; x00]) as (Hb & _ & Hc); [unfold MAX_BITS; cbn; lia|].
  split; [exact Hb|]. apply Hc. by exists (drop 3 (all_bits [xbf; x00])).
Defined.

(** A shard row's levels give its path back, whatever the path. *)
Lemma bit_path_prefix_round_trip bs : shard_bit_path_from_prefix (bit_path_to_prefix bs) = Some bs.
Proof.
  unfold shard_bit_path_from_prefix, bit_path_to_prefix. rewrite Z.eqb_refl. cbn [negb].
  induction bs as [|b bs IH]; [done|]. cbn [fmap list_fmap levels_bits]. destruct b; cbn; by rewrite IH.
Qed.

(** The one-byte legacy suffix is not checked against the 64 shards it names: its
    upper two bits are ignored, so four suffixes name one shard, as does the
    encoded path of six bits. *)
Lemma legacy_suffix_aliases :
  let app := replicate 32 x01 in
  decode_shard_filter_or_root (app ++ [x05]) 32 = decode_shard_filter_or_root (app ++ [x45]) 32 /\
  decode_shard_filter_or_root (app ++ [x05]) 32
  = decode_shard_filter_or_root (encode_shard_bit_path app [false; false; false; true; false; true]) 32.
Proof. by vm_compute. Qed.
