(* ===== verification/FrameRelay.v ===== *)
(** * What a shard's headers carry ([quil-engine/src/app_engine.rs], [accumulator_header.rs])

    A member's records of the frames of one shard: in memory, pruned to the
    newest 4096 frames, and in the clock store ([quil-store/src/clock.rs]).  From
    them the header of a frame relays the spends of the last eight frames, the
    settlements of the last thirty-two, and the accumulator report when it
    changed or on a heartbeat.  A store access that fails is not modelled.
    Whether a frame precedes the relay's activation is a function of the settings
    and the frame's anchor, an argument here; so is the digest of a report. *)

From S2P Require Import Prelude Bytes Cursor MembershipTree ShardedTree CoinBlocks SettlementRecord SpendEntry.

Record FrameOutflow := mkOutflow {
  fo_fee_total : option Z;
  fo_settlements : option (list SettlementEntry);
  fo_accumulator : option (list byte);
  fo_spends : option (list (list byte));
}.
Definition no_outflow : FrameOutflow := mkOutflow None None None None.

Record Member := mkMember {
  mb_memory : gmap Z FrameOutflow;
  mb_fees : gmap Z Z;
  mb_settlements : gmap Z (list byte);
  mb_spends : gmap Z (list byte);
  mb_digests : gmap Z (list byte);
  mb_reports : gmap (list byte) (list byte);
}.

Definition MAX_OUTFLOWS : nat := 4096.
Definition oldest (m : gmap Z FrameOutflow) : option Z :=
  map_fold (fun k _ acc => match acc with None => Some k | Some j => Some (Z.min k j) end) None m.
(** [while map.len() > 4096]: every round removes a key. *)
Fixpoint prune (rounds : nat) (m : gmap Z FrameOutflow) : gmap Z FrameOutflow :=
  if (size m <=? MAX_OUTFLOWS)%nat then m
  else match rounds, oldest m with S k, Some f => prune k (delete f m) | _, _ => m end.
Definition update_outflow (st : Member) (frame : Z) (upd : FrameOutflow -> FrameOutflow) : Member :=
  let m := <[frame := upd (default no_outflow (mb_memory st !! frame))]> (mb_memory st) in
  mkMember (prune (size m) m) (mb_fees st) (mb_settlements st) (mb_spends st) (mb_digests st) (mb_reports st).

Definition set_fee_total v (o : FrameOutflow) := mkOutflow (Some v) (fo_settlements o) (fo_accumulator o) (fo_spends o).
Definition set_settlements v (o : FrameOutflow) := mkOutflow (fo_fee_total o) (Some v) (fo_accumulator o) (fo_spends o).
Definition set_accumulator v (o : FrameOutflow) := mkOutflow (fo_fee_total o) (fo_settlements o) (Some v) (fo_spends o).
Definition set_spends v (o : FrameOutflow) := mkOutflow (fo_fee_total o) (fo_settlements o) (fo_accumulator o) (Some v).

(** The clock store's writes. *)
Definition put_fee_total (st : Member) (frame v : Z) : Member :=
  mkMember (mb_memory st) (<[frame := v]> (mb_fees st)) (mb_settlements st) (mb_spends st) (mb_digests st) (mb_reports st).
Definition put_settlements (st : Member) (frame : Z) (b : list byte) : Member :=
  mkMember (mb_memory st) (mb_fees st) (<[frame := b]> (mb_settlements st)) (mb_spends st) (mb_digests st) (mb_reports st).
Definition put_spends (st : Member) (frame : Z) (b : list byte) : Member :=
  mkMember (mb_memory st) (mb_fees st) (mb_settlements st) (<[frame := b]> (mb_spends st)) (mb_digests st) (mb_reports st).
Definition put_accumulator (st : Member) (frame : Z) (digest report : list byte) : Member :=
  mkMember (mb_memory st) (mb_fees st) (mb_settlements st) (mb_spends st) (<[frame := digest]> (mb_digests st))
    (if bool_decide (digest = []) then mb_reports st
     else match mb_reports st !! digest with Some _ => mb_reports st | None => <[digest := report]> (mb_reports st) end).

Definition result_option {A} (r : result A) : option A := match r with Ok a => Some a | _ => None end.

Definition HEARTBEAT_FRAMES : Z := 32.
Definition CARRY_WINDOW_FRAMES : nat := 8.

Definition header_carries (frame_number : Z) (earlier : list (list byte)) (last : list byte) : bool :=
  negb (bool_decide (last = [])) && (existsb (fun d => negb (bool_decide (d = last))) earlier || (frame_number mod HEARTBEAT_FRAMES =? 0)).

(** The frames of a relay window, oldest first. *)
Definition relay_window (window frame_number : Z) : list Z :=
  let lo := Z.max 1 (Z.max 0 (frame_number - window)) in
  (fun i => lo + i) <$> zrange (Z.max 0 (frame_number - 1) - lo + 1).

Section Records.
Context (sha3_256 : list byte -> list byte) (legacy : Z -> bool).

Definition report_digest (report : list byte) : list byte := if bool_decide (report = []) then [] else sha3_256 report.

Definition record_fee_total (st : Member) (frame fee_total : Z) : Member :=
  put_fee_total (update_outflow st frame (set_fee_total fee_total)) frame fee_total.
Definition materialized_fee_total (st : Member) (frame : Z) : option Z :=
  if (frame =? 0) || legacy frame then Some 0
  else match mb_memory st !! frame ≫= fo_fee_total with Some v => Some v | None => mb_fees st !! frame end.

Definition record_frame_settlements (st : Member) (frame : Z) (entries : list SettlementEntry) : Member :=
  match sorted ← canonical_frame_entries entries; bytes ← encode_entries sorted; Ok (sorted, bytes) with
  | Ok (sorted, bytes) => update_outflow (put_settlements st frame bytes) frame (set_settlements sorted)
  | _ => st
  end.
Definition record_frame_spends (st : Member) (frame : Z) (entries : list (list byte)) : Member :=
  match encode_frame_entries entries with
  | Ok bytes => update_outflow (put_spends st frame bytes) frame (set_spends entries)
  | _ => st
  end.
Definition record_frame_accumulator (st : Member) (frame : Z) (report : list byte) : Member :=
  let digest := report_digest report in
  update_outflow (put_accumulator st frame digest report) frame (set_accumulator digest).

(** A frame's record from memory, else from the store, which memory then keeps. *)
Definition materialized {A B} (field : FrameOutflow -> option A) (cache : A -> FrameOutflow -> FrameOutflow)
    (store : Member -> gmap Z B) (decode : B -> option A) (none : A) (st : Member) (frame : Z) : option A * Member :=
  if (frame =? 0) || legacy frame then (Some none, st)
  else match mb_memory st !! frame ≫= field with
       | Some v => (Some v, st)
       | None => match store st !! frame ≫= decode with
                 | Some v => (Some v, update_outflow st frame (cache v))
                 | None => (None, st)
                 end
       end.
Definition materialized_frame_settlements : Member -> Z -> option (list SettlementEntry) * Member :=
  materialized fo_settlements set_settlements mb_settlements (fun b => result_option (decode_entries b)) [].
Definition materialized_frame_spends : Member -> Z -> option (list (list byte)) * Member :=
  materialized fo_spends set_spends mb_spends (fun b => result_option (decode_frame_entries b)) [].
Definition materialized_accumulator_digest : Member -> Z -> option (list byte) * Member :=
  materialized fo_accumulator set_accumulator mb_digests Some [].

(** The loop of a relay: the non-empty frames of the window, or nothing when one is unknown. *)
Fixpoint gather {A} (read : Member -> Z -> option (list A) * Member) (st : Member) (frames : list Z) :
    option (list (Z * list A)) * Member :=
  match frames with
  | [] => (Some [], st)
  | f :: frames' =>
      match read st f with
      | (None, st') => (None, st')
      | (Some es, st') =>
          match gather read st' frames' with
          | (None, st'') => (None, st'')
          | (Some l, st'') => (Some (if bool_decide (length es = 0%nat) then l else (f, es) :: l), st'')
          end
      end
  end.

Definition settlement_relay (st : Member) (frame_number : Z) : option (list byte) * Member :=
  let (frames, st') := gather materialized_frame_settlements st (relay_window SETTLEMENT_WINDOW frame_number) in
  (frames ≫= fun fs => result_option (encode_settlement_relay fs), st').
Definition spend_relay (st : Member) (frame_number : Z) : option (list byte) * Member :=
  let (frames, st') := gather materialized_frame_spends st (relay_window SPEND_WINDOW frame_number) in
  (frames ≫= fun fs => result_option (encode_relay fs), st').

(** [for back in 2..=CARRY_WINDOW_FRAMES + 1], stopping at the first difference. *)
Fixpoint earlier_digests (st : Member) (frame_number : Z) (last : list byte) (backs : list Z) : option (list (list byte)) * Member :=
  match backs with
  | [] => (Some [], st)
  | back :: backs' =>
      let frame := frame_number - back in
      let (digest, st') := if 0 <? frame then materialized_accumulator_digest st frame else (Some [], st) in
      match digest with
      | None => (None, st')
      | Some d =>
          if bool_decide (d = last) then
            let (ds, st'') := earlier_digests st' frame_number last backs' in (cons d <$> ds, st'')
          else (Some [d], st')
      end
  end.

Definition accumulator_field (st : Member) (frame_number : Z) : option (list byte) * Member :=
  if frame_number =? 0 then (Some [], st)
  else
    let (last, st') := materialized_accumulator_digest st (frame_number - 1) in
    match last with
    | None => (None, st')
    | Some last =>
        if bool_decide (last = []) then (Some [], st')
        else
          let (earlier, st'') := earlier_digests st' frame_number last ((fun i => 2 + i) <$> zrange (Z.of_nat CARRY_WINDOW_FRAMES)) in
          match earlier with
          | None => (None, st'')
          | Some earlier =>
              if negb (header_carries frame_number earlier last) then (Some [], st'')
              else (report ← mb_reports st'' !! last; if bool_decide (report_digest report = last) then Some report else None, st'')
          end
    end.

(** ** Adopting what a certified header establishes *)

Definition find_frame {A} (frames : list (Z * list A)) (frame : Z) : list A :=
  match find (fun p => p.1 =? frame) frames with Some p => p.2 | None => [] end.
Definition adopt_frames {A} (read : Member -> Z -> option (list A) * Member) (record : Member -> Z -> list A -> Member)
    (certified : list (Z * list A)) (st : Member) (frames : list Z) : Member :=
  foldl (fun st frame => match read st frame with
                         | (None, st') => record st' frame (find_frame certified frame)
                         | (Some _, st') => st'
                         end) st frames.
Definition adopt_certified_settlements (st : Member) (frame_number : Z) (settlements : list byte) : Member :=
  match decode_settlement_relay frame_number settlements with
  | Ok certified => adopt_frames materialized_frame_settlements record_frame_settlements certified st (relay_window SETTLEMENT_WINDOW frame_number)
  | _ => st
  end.
Definition adopt_certified_spends (st : Member) (frame_number : Z) (spends : list byte) : Member :=
  match decode_relay frame_number spends with
  | Ok certified => adopt_frames materialized_frame_spends record_frame_spends certified st (relay_window SPEND_WINDOW frame_number)
  | _ => st
  end.
(** [filter_matches]: [header.address == filter]. *)
Definition adopt_certified_accumulator (st : Member) (filter_matches : bool) (n : Z) (accumulator : list byte) : Member :=
  if (n <=? 1) || negb filter_matches || (bool_decide (accumulator = []) && negb (n mod HEARTBEAT_FRAMES =? 0)) then st
  else match materialized_accumulator_digest st (n - 1) with
       | (None, st') => record_frame_accumulator st' (n - 1) accumulator
       | (Some _, st') => st'
       end.
End Records.

(** ** Memory is a cache of the store *)

Lemma prune_subseteq k m : prune k m ⊆ m.
Proof.
  revert m. induction k as [|k IH]; intros m; cbn [prune]; destruct (size m <=? MAX_OUTFLOWS)%nat; try done.
  destruct (oldest m) as [f|]; [|done]. etrans; [apply IH|apply delete_subseteq].
Qed.

Lemma oldest_spec m : match oldest m with
  | Some f => is_Some (m !! f) /\ forall g, is_Some (m !! g) -> f <= g
  | None => m = ∅ end.
Proof.
  unfold oldest. apply (map_fold_weak_ind (fun acc (m : gmap Z FrameOutflow) => match acc with
    | Some f => is_Some (m !! f) /\ forall g, is_Some (m !! g) -> f <= g | None => m = ∅ end)); [done|].
  intros i x m' [f|] Hi; [intros [Hf Hle]|intros ->]; split.
  - destruct (Z.min_spec i f) as [[_ ->]|[_ ->]]; [by rewrite lookup_insert_eq|].
    apply lookup_insert_is_Some. destruct (decide (i = f)); [by left|by right].
  - intros g [->|[_ Hg]]%lookup_insert_is_Some; [lia|]. specialize (Hle g Hg). lia.
  - by rewrite lookup_insert_eq.
  - intros g [->|[_ [? Hg]]]%lookup_insert_is_Some; [lia|]. by rewrite lookup_empty in Hg.
Qed.

(** As many rounds as frames are enough: memory never holds more than 4096
    frames, and only frames older than all that stay are dropped. *)
Lemma prune_bounded k m : (size m <= k)%nat ->
  (size (prune k m) <= MAX_OUTFLOWS)%nat /\
  (forall f g, is_Some (m !! f) -> prune k m !! f = None -> is_Some (prune k m !! g) -> f < g).
Proof.
  revert m. induction k as [|k IH]; intros m Hk; cbn [prune]; destruct (Nat.leb_spec (size m) MAX_OUTFLOWS) as [Hs|Hs].
  1,3: split; [done|]; intros f g [x Hf] Hn; congruence.
  - unfold MAX_OUTFLOWS in Hs. lia.
  - pose proof (oldest_spec m) as Ho. destruct (oldest m) as [f|]; cycle 1.
    { subst. rewrite map_size_empty in Hs. unfold MAX_OUTFLOWS in Hs. lia. }
    destruct Ho as [[x Hf] Hle]. destruct (IH (delete f m)) as [Hb Hdrop].
    { rewrite map_size_delete_Some by eauto. lia. }
    split; [done|]. intros h g Hh Hn Hg. destruct (decide (h = f)) as [->|Hne].
    + destruct Hg as [y Hg]. eapply lookup_weaken in Hg; [|apply prune_subseteq].
      apply lookup_delete_Some in Hg as [Hfg Hg]. specialize (Hle g (mk_is_Some _ _ Hg)). lia.
    + apply Hdrop; [by rewrite lookup_delete_ne|done|done].
Qed.

Lemma update_memory st f upd g o : mb_memory (update_outflow st f upd) !! g = Some o ->
  (g = f /\ o = upd (default no_outflow (mb_memory st !! f))) \/ (g <> f /\ mb_memory st !! g = Some o).
Proof.
  cbn. intros Hg. eapply lookup_weaken in Hg; [|apply prune_subseteq].
  apply lookup_insert_Some in Hg as [[<- <-]|[Hne Hg]]; [by left|by right].
Qed.

(** What memory says of a frame, the store says too. *)
Definition agrees_on {A B} (field : FrameOutflow -> option A) (store : Member -> gmap Z B) (decode : B -> option A) (st : Member) : Prop :=
  forall f v, mb_memory st !! f ≫= field = Some v -> store st !! f ≫= decode = Some v.

Definition dec_settlements (b : list byte) : option (list SettlementEntry) := result_option (decode_entries b).
Definition dec_spends (b : list byte) : option (list (list byte)) := result_option (decode_frame_entries b).

Definition agrees (st : Member) : Prop :=
  agrees_on fo_fee_total mb_fees Some st /\ agrees_on fo_settlements mb_settlements dec_settlements st /\
  agrees_on fo_spends mb_spends dec_spends st /\ agrees_on fo_accumulator mb_digests Some st.

Definition same_store (a b : Member) : Prop :=
  mb_fees a = mb_fees b /\ mb_settlements a = mb_settlements b /\ mb_spends a = mb_spends b /\
  mb_digests a = mb_digests b /\ mb_reports a = mb_reports b.
#[export] Instance same_store_equiv : Equivalence same_store.
Proof. split; [done|intros ? ? ?; unfold same_store in *; naive_solver|intros ? ? ?; unfold same_store in *; naive_solver congruence]. Qed.

Lemma update_same_store st f upd : same_store st (update_outflow st f upd).
Proof. done. Qed.

(** Keeping a field for a frame is sound when the store holds it; the other fields stay. *)
Lemma agrees_update {A B} (field : FrameOutflow -> option A) (store : Member -> gmap Z B) decode st f upd :
  (forall m a b c d e, store (mkMember m a b c d e) = store (mkMember ∅ a b c d e)) -> field no_outflow = None ->
  agrees_on field store decode st ->
  (forall o v, field (upd o) = Some v -> field o = Some v \/ store st !! f ≫= decode = Some v) ->
  agrees_on field store decode (update_outflow st f upd).
Proof.
  intros Hs Hno Ha Hu g v Hg. assert (store (update_outflow st f upd) = store st) as ->.
  { destruct st. unfold update_outflow. cbn. rewrite Hs. symmetry. apply Hs. }
  apply bind_Some in Hg as (o & Ho & Hv). apply update_memory in Ho as [[-> ->]|[_ Ho]].
  - apply Hu in Hv as [Hv|Hv]; [|done]. apply Ha. destruct (mb_memory st !! f); cbn in Hv; [done|congruence].
  - apply Ha. by rewrite Ho.
Qed.

Lemma agrees_cache st f upd : agrees st ->
  (forall o v, fo_fee_total (upd o) = Some v -> fo_fee_total o = Some v \/ mb_fees st !! f = Some v) ->
  (forall o v, fo_settlements (upd o) = Some v -> fo_settlements o = Some v \/ mb_settlements st !! f ≫= dec_settlements = Some v) ->
  (forall o v, fo_spends (upd o) = Some v -> fo_spends o = Some v \/ mb_spends st !! f ≫= dec_spends = Some v) ->
  (forall o v, fo_accumulator (upd o) = Some v -> fo_accumulator o = Some v \/ mb_digests st !! f = Some v) ->
  agrees (update_outflow st f upd).
Proof.
  intros (Ha & Hb & Hc & Hd) H1 H2 H3 H4. split_and!; apply agrees_update; try done.
  - intros o v Hv. destruct (H1 o v Hv) as [?|E]; [by left|right]. by rewrite E.
  - intros o v Hv. destruct (H4 o v Hv) as [?|E]; [by left|right]. by rewrite E.
Qed.

(** Recording a frame writes the store and memory alike. *)
Lemma agrees_record {A B} (field : FrameOutflow -> option A) (store : Member -> gmap Z B) decode st st' f upd b v :
  (forall m a b c d e, store (mkMember m a b c d e) = store (mkMember ∅ a b c d e)) ->
  mb_memory st' = mb_memory st -> store st' = <[f := b]> (store st) -> decode b = Some v -> (forall o, field (upd o) = Some v) ->
  agrees_on field store decode st -> agrees_on field store decode (update_outflow st' f upd).
Proof.
  intros Hs Hm Hst Hd Hu Ha g w Hg. assert (store (update_outflow st' f upd) = store st') as ->.
  { destruct st'. unfold update_outflow. cbn. rewrite Hs. symmetry. apply Hs. }
  apply bind_Some in Hg as (o & Ho & Hv). rewrite Hst. apply update_memory in Ho as [[-> ->]|[Hne Ho]].
  - rewrite lookup_insert_eq. cbn. rewrite Hd. by rewrite Hu in Hv.
  - rewrite Hm in Ho. rewrite lookup_insert_ne by done. apply Ha. by rewrite Ho.
Qed.

Section Relays.
Context (sha3_256 : list byte -> list byte) (legacy : Z -> bool).

(** A member's record of a frame, wherever it is kept. *)
Definition recorded {A B} (store : Member -> gmap Z B) (decode : B -> option A) (none : A) (st : Member) (frame : Z) : option A :=
  if (frame =? 0) || legacy frame then Some none else store st !! frame ≫= decode.
Definition recorded_settlements := recorded mb_settlements dec_settlements [].
Definition recorded_spends := recorded mb_spends dec_spends [].
Definition recorded_digest := recorded mb_digests Some [].

Lemma materialized_spec {A B} field cache (store : Member -> gmap Z B) decode (none : A) st f :
  agrees_on field store decode st ->
  exists st', materialized legacy field cache store decode none st f = (recorded store decode none st f, st') /\
    (st' = st \/ exists v, store st !! f ≫= decode = Some v /\ st' = update_outflow st f (cache v)).
Proof.
  intros Ha. unfold materialized, recorded. destruct ((f =? 0) || legacy f); [by eauto|].
  destruct (mb_memory st !! f ≫= field) as [v|] eqn:Ev; [rewrite (Ha f v Ev); by eauto|].
  destruct (store st !! f ≫= decode) as [v|] eqn:Es; [|by eauto]. eauto 6.
Qed.

Lemma settlements_read st f : agrees st -> exists st',
  materialized_frame_settlements legacy st f = (recorded_settlements st f, st') /\ agrees st' /\ same_store st st'.
Proof.
  intros Ha. destruct (materialized_spec fo_settlements set_settlements mb_settlements dec_settlements [] st f) as (st' & E & Hst);
    [apply Ha|]. exists st'. split; [exact E|]. destruct Hst as [->|(v & Hv & ->)]; [done|].
  split; [|apply update_same_store]. apply agrees_cache; [done| | | |]; intros o w; cbn; auto. intros [= <-]. by right.
Qed.
Lemma spends_read st f : agrees st -> exists st',
  materialized_frame_spends legacy st f = (recorded_spends st f, st') /\ agrees st' /\ same_store st st'.
Proof.
  intros Ha. destruct (materialized_spec fo_spends set_spends mb_spends dec_spends [] st f) as (st' & E & Hst); [apply Ha|].
  exists st'. split; [exact E|]. destruct Hst as [->|(v & Hv & ->)]; [done|].
  split; [|apply update_same_store]. apply agrees_cache; [done| | | |]; intros o w; cbn; auto. intros [= <-]. by right.
Qed.
Lemma digest_read st f : agrees st -> exists st',
  materialized_accumulator_digest legacy st f = (recorded_digest st f, st') /\ agrees st' /\ same_store st st'.
Proof.
  intros Ha. destruct (materialized_spec fo_accumulator set_accumulator mb_digests Some [] st f) as (st' & E & Hst); [apply Ha|].
  exists st'. split; [exact E|]. destruct Hst as [->|(v & Hv & ->)]; [done|].
  split; [|apply update_same_store]. apply agrees_cache; [done| | | |]; intros o w; cbn; auto. intros [= <-]. right.
  destruct (mb_digests st !! f); cbn in Hv; congruence.
Qed.

(** ** Every operation keeps memory and store in agreement *)

Lemma agrees_same {A B} (field : FrameOutflow -> option A) (store : Member -> gmap Z B) decode st st' f upd :
  (forall m a b c d e, store (mkMember m a b c d e) = store (mkMember ∅ a b c d e)) -> field no_outflow = None ->
  mb_memory st' = mb_memory st -> store st' = store st -> (forall o, field (upd o) = field o) ->
  agrees_on field store decode st -> agrees_on field store decode (update_outflow st' f upd).
Proof.
  intros Hs Hno Hm Hst Hu Ha. apply agrees_update; [done|done| |intros o v Hv; left; by rewrite Hu in Hv].
  intros g v Hg. rewrite Hm in Hg. rewrite Hst. by apply Ha.
Qed.

Lemma frame_entries_back es b : encode_frame_entries es = Ok b -> dec_spends b = Some es /\ b = put_entries es.
Proof.
  intros [Hes ->]%encode_entries_iff. split; [|done]. unfold dec_spends, decode_frame_entries.
  rewrite <- (app_nil_r (put_entries es)). by rewrite (round_trip (RoundTrip := codec_round (Codec := entries_codec)) es []).
Qed.

Lemma agrees_record_fee st f v : agrees st -> agrees (record_fee_total st f v).
Proof.
  intros Ha. change (record_fee_total st f v) with (update_outflow (put_fee_total st f v) f (set_fee_total v)).
  destruct Ha as (H1 & H2 & H3 & H4). split_and!; [by apply (agrees_record _ _ _ st _ f _ v v)|by apply (agrees_same _ _ _ st)..].
Qed.
Lemma agrees_record_spends st f es : agrees st -> agrees (record_frame_spends st f es).
Proof.
  intros Ha. unfold record_frame_spends. destruct (encode_frame_entries es) as [b| |] eqn:E; [|done|done].
  apply frame_entries_back in E as [E _]. destruct Ha as (H1 & H2 & H3 & H4).
  split_and!; [by apply (agrees_same _ _ _ st)..|by apply (agrees_record _ _ _ st _ f _ b es)|by apply (agrees_same _ _ _ st)].
Qed.
Lemma agrees_record_accumulator st f r : agrees st -> agrees (record_frame_accumulator sha3_256 st f r).
Proof.
  intros (H1 & H2 & H3 & H4). unfold record_frame_accumulator.
  split_and!; [by apply (agrees_same _ _ _ st)..|]. by apply (agrees_record _ _ _ st _ f _ (report_digest sha3_256 r) (report_digest sha3_256 r)).
Qed.

Lemma agrees_record_settlements st f es : Forall entry_ok es -> agrees st -> agrees (record_frame_settlements st f es).
Proof.
  intros Hok (H1 & H2 & H3 & H4). unfold record_frame_settlements.
  destruct (canonical_frame_entries es) as [l| |] eqn:E; cbn [mbind result_bind]; [|done|done].
  apply canonical_frame_inv in E as [Hc El]. unfold encode_entries. rewrite canonical_sorted by done. cbn [mbind result_bind].
  assert (dec_settlements (concat (put_entry <$> l)) = Some l) as Hd.
  { unfold dec_settlements. rewrite (proj2 (decode_entries_iff (concat (put_entry <$> l)) l)); [done|]. split_and!; [done| |done].
    rewrite El. by rewrite sort_by_perm. }
  split_and!; [by apply (agrees_same _ _ _ st)|by apply (agrees_record _ _ _ st _ f _ (concat (put_entry <$> l)) l)|by apply (agrees_same _ _ _ st)..].
Qed.

(** ** Gathering a window *)

Fixpoint gathered {A} (rec : Z -> option (list A)) (frames : list Z) : option (list (Z * list A)) :=
  match frames with
  | [] => Some []
  | f :: frames' => es ← rec f; l ← gathered rec frames'; Some (if bool_decide (length es = 0%nat) then l else (f, es) :: l)
  end.

Lemma gathered_ext {A} (rec rec' : Z -> option (list A)) fs : (forall f, rec f = rec' f) -> gathered rec fs = gathered rec' fs.
Proof. intros Hr. induction fs as [|f fs IH]; [done|]. cbn. by rewrite Hr, IH. Qed.

Lemma gather_spec {A} (read : Member -> Z -> option (list A) * Member) rec fs :
  (forall st f, agrees st -> exists st', read st f = (rec st f, st') /\ agrees st' /\ same_store st st') ->
  (forall st st' f, same_store st st' -> rec st f = rec st' f) ->
  forall st, agrees st -> exists st', gather read st fs = (gathered (rec st) fs, st') /\ agrees st' /\ same_store st st'.
Proof.
  intros Hread Hrec. induction fs as [|f fs IH]; intros st Ha; cbn [gather gathered]; [by exists st|].
  destruct (Hread st f Ha) as (st1 & -> & Ha1 & Hs1). destruct (rec st f) as [es|]; cbn [mbind option_bind]; [|by exists st1].
  destruct (IH st1 Ha1) as (st2 & -> & Ha2 & Hs2). rewrite (gathered_ext (rec st1) (rec st)) by (intros g; symmetry; by apply Hrec).
  exists st2. split; [by destruct (gathered (rec st) fs)|]. split; [done|by etrans].
Qed.

Lemma recorded_store {A B} (store : Member -> gmap Z B) decode (none : A) st st' f :
  store st = store st' -> recorded store decode none st f = recorded store decode none st' f.
Proof. intros E. unfold recorded. by rewrite E. Qed.

(** The relay fields are functions of the records. *)
Lemma spend_relay_spec st h : agrees st -> exists st',
  spend_relay legacy st h = (gathered (recorded_spends st) (relay_window SPEND_WINDOW h) ≫= fun fs => result_option (encode_relay fs), st')
  /\ agrees st' /\ same_store st st'.
Proof.
  intros Ha. unfold spend_relay.
  destruct (gather_spec (materialized_frame_spends legacy) (recorded_spends) (relay_window SPEND_WINDOW h)) with (st := st)
    as (st' & -> & Ha' & Hs'); [apply spends_read|intros; apply recorded_store; by destruct H as (_ & _ & ? & _)|done|by exists st'].
Qed.
Lemma settlement_relay_spec st h : agrees st -> exists st',
  settlement_relay legacy st h
  = (gathered (recorded_settlements st) (relay_window SETTLEMENT_WINDOW h) ≫= fun fs => result_option (encode_settlement_relay fs), st')
  /\ agrees st' /\ same_store st st'.
Proof.
  intros Ha. unfold settlement_relay.
  destruct (gather_spec (materialized_frame_settlements legacy) (recorded_settlements) (relay_window SETTLEMENT_WINDOW h)) with (st := st)
    as (st' & -> & Ha' & Hs'); [apply settlements_read|intros; apply recorded_store; by destruct H as (_ & ? & _)|done|by exists st'].
Qed.

Fixpoint first_difference (rec : Z -> option (list byte)) (h : Z) (last : list byte) (backs : list Z) : option (list (list byte)) :=
  match backs with
  | [] => Some []
  | back :: backs' =>
      d ← (if 0 <? h - back then rec (h - back) else Some []);
      if bool_decide (d = last) then cons d <$> first_difference rec h last backs' else Some [d]
  end.

Lemma earlier_spec h last backs st : agrees st -> exists st',
  earlier_digests legacy st h last backs = (first_difference (recorded_digest st) h last backs, st') /\ agrees st' /\ same_store st st'.
Proof.
  revert st. induction backs as [|back backs IH]; intros st Ha; cbn [earlier_digests first_difference]; [by exists st|].
  assert (exists st1, (if 0 <? h - back then materialized_accumulator_digest legacy st (h - back) else (Some [], st))
    = ((if 0 <? h - back then recorded_digest st (h - back) else Some []), st1) /\ agrees st1 /\ same_store st st1)
    as (st1 & -> & Ha1 & Hs1) by (destruct (0 <? h - back); [by apply digest_read|by exists st]).
  destruct (if 0 <? h - back then _ else _) as [d|]; cbn [mbind option_bind]; [|by exists st1].
  destruct (bool_decide (d = last)); [|by exists st1].
  destruct (IH st1 Ha1) as (st2 & -> & Ha2 & Hs2). exists st2. split; [|split; [done|by etrans]].
  f_equal. f_equal. assert (forall f, recorded_digest st1 f = recorded_digest st f) as Hext.
  { intros f. apply recorded_store. by destruct Hs1 as (_ & _ & _ & ? & _). }
  clear -Hext. induction backs as [|b bs IHb]; [done|]. cbn. rewrite Hext. by rewrite IHb.
Qed.

(** The accumulator field as a function of the records. *)
Definition field_value (st : Member) (h : Z) : option (list byte) :=
  if h =? 0 then Some []
  else
    last ← recorded_digest st (h - 1);
    if bool_decide (last = []) then Some []
    else
      earlier ← first_difference (recorded_digest st) h last ((fun i => 2 + i) <$> zrange (Z.of_nat CARRY_WINDOW_FRAMES));
      if negb (header_carries h earlier last) then Some []
      else report ← mb_reports st !! last; if bool_decide (report_digest sha3_256 report = last) then Some report else None.

Lemma first_difference_ext (rec rec' : Z -> option (list byte)) h last backs : (forall f, rec f = rec' f) ->
  first_difference rec h last backs = first_difference rec' h last backs.
Proof. intros Hr. induction backs as [|b bs IH]; [done|]. cbn. rewrite Hr. by rewrite IH. Qed.

Lemma accumulator_spec st h : agrees st -> exists st',
  accumulator_field sha3_256 legacy st h = (field_value st h, st') /\ agrees st' /\ same_store st st'.
Proof.
  intros Ha. unfold accumulator_field, field_value. destruct (h =? 0); [by exists st|].
  destruct (digest_read st (h - 1) Ha) as (st1 & -> & Ha1 & Hs1).
  destruct (recorded_digest st (h - 1)) as [last|]; cbn [mbind option_bind]; [|by exists st1].
  destruct (bool_decide (last = [])); [by exists st1|].
  destruct (earlier_spec h last ((fun i => 2 + i) <$> zrange (Z.of_nat CARRY_WINDOW_FRAMES)) st1 Ha1) as (st2 & -> & Ha2 & Hs2).
  rewrite (first_difference_ext (recorded_digest st1) (recorded_digest st))
    by (intros f; apply recorded_store; by destruct Hs1 as (_ & _ & _ & ? & _)).
  assert (same_store st st2) as Hs by by etrans. assert (mb_reports st2 = mb_reports st) as -> by (by destruct Hs as (_ & _ & _ & _ & ?)).
  exists st2. split; [|done]. destruct (first_difference _ _ _ _) as [e|]; cbn [mbind option_bind]; [|done]. by destruct (header_carries h e last).
Qed.

(** ** A member's life *)

Inductive member_op :=
| Op_fee (frame total : Z) | Op_settlements (frame : Z) (entries : list SettlementEntry)
| Op_spends (frame : Z) (entries : list (list byte)) | Op_report (frame : Z) (report : list byte)
| Op_settlement_relay (header : Z) | Op_spend_relay (header : Z) | Op_field (header : Z)
| Op_adopt_settlements (header : Z) (bytes : list byte) | Op_adopt_spends (header : Z) (bytes : list byte)
| Op_adopt_report (filter_matches : bool) (header : Z) (bytes : list byte).

Definition run_op (st : Member) (op : member_op) : Member :=
  match op with
  | Op_fee f v => record_fee_total st f v
  | Op_settlements f es => record_frame_settlements st f es
  | Op_spends f es => record_frame_spends st f es
  | Op_report f r => record_frame_accumulator sha3_256 st f r
  | Op_settlement_relay h => (settlement_relay legacy st h).2
  | Op_spend_relay h => (spend_relay legacy st h).2
  | Op_field h => (accumulator_field sha3_256 legacy st h).2
  | Op_adopt_settlements h b => adopt_certified_settlements legacy st h b
  | Op_adopt_spends h b => adopt_certified_spends legacy st h b
  | Op_adopt_report m h b => adopt_certified_accumulator sha3_256 legacy st m h b
  end.
Definition op_ok (op : member_op) : Prop := match op with Op_settlements _ es => Forall entry_ok es | _ => True end.

Definition new_member : Member := mkMember ∅ ∅ ∅ ∅ ∅ ∅.
Definition reached (st : Member) : Prop := exists ops, Forall op_ok ops /\ st = foldl run_op new_member ops.

Lemma agrees_adopt {A} (read : Member -> Z -> option (list A) * Member) rec record (P : list A -> Prop) certified fs st :
  (forall st f, agrees st -> exists st', read st f = (rec st f, st') /\ agrees st' /\ same_store st st') ->
  (forall st f es, P es -> agrees st -> agrees (record st f es)) -> (forall f, P (find_frame certified f)) ->
  agrees st -> agrees (adopt_frames read record certified st fs).
Proof.
  intros Hread Hrec HP. revert st. unfold adopt_frames. induction fs as [|f fs IH]; intros st Ha; [done|]. cbn [foldl]. apply IH.
  destruct (Hread st f Ha) as (st' & -> & Ha' & _). destruct (rec st f); [done|]. by apply Hrec.
Qed.

Lemma find_frame_ok certified h f : Forall (relayed SETTLEMENT_WINDOW h) certified -> Forall entry_ok (find_frame certified f).
Proof.
  intros HF. unfold find_frame. destruct (find _ certified) as [p|] eqn:E; [|constructor].
  apply find_some in E as [Hin%list_elem_of_In _]. rewrite Forall_forall in HF. by destruct (HF p Hin) as (_ & _ & _ & _ & ?).
Qed.

Lemma agrees_run st op : op_ok op -> agrees st -> agrees (run_op st op).
Proof.
  intros Hok Ha. destruct op as [f v|f es|f es|f r|h|h|h|h b|h b|m h b]; cbn [run_op op_ok] in *.
  - by apply agrees_record_fee.
  - by apply agrees_record_settlements.
  - by apply agrees_record_spends.
  - by apply agrees_record_accumulator.
  - by destruct (settlement_relay_spec st h Ha) as (st' & -> & Ha' & _).
  - by destruct (spend_relay_spec st h Ha) as (st' & -> & Ha' & _).
  - by destruct (accumulator_spec st h Ha) as (st' & -> & Ha' & _).
  - unfold adopt_certified_settlements. destruct (decode_settlement_relay h b) as [c| |] eqn:E; [|done|done].
    apply decode_relay_typed in E. eapply (agrees_adopt _ _ _ (Forall entry_ok)); [apply settlements_read| | |done].
    + intros. by apply agrees_record_settlements.
    + intros f. by eapply find_frame_ok.
  - unfold adopt_certified_spends. destruct (decode_relay h b) as [c| |]; [|done|done].
    eapply (agrees_adopt _ _ _ (fun _ => True)); [apply spends_read| |done|done]. intros. by apply agrees_record_spends.
  - unfold adopt_certified_accumulator. destruct (_ || _); [done|]. destruct (digest_read st (h - 1) Ha) as (st' & -> & Ha' & _).
    destruct (recorded_digest st (h - 1)); [done|]. by apply agrees_record_accumulator.
Qed.

Lemma agrees_reached st : reached st -> agrees st.
Proof.
  intros (ops & HF & ->). assert (agrees new_member) as H0.
  { split_and!; intros f v; cbn; by rewrite lookup_empty. }
  revert H0. generalize new_member. induction HF as [|op ops Hop _ IH]; intros st Ha; [done|]. cbn [foldl]. apply IH. by apply agrees_run.
Qed.

(** ** What reaches the global chain *)

Lemma elem_of_window w h f : f ∈ relay_window w h <-> Z.max 1 (h - w) <= f < h /\ 1 <= f.
Proof.
  unfold relay_window, zrange. rewrite <- list_fmap_compose, list_elem_of_fmap. split.
  - intros (i & -> & Hi%elem_of_seq). cbn. lia.
  - intros Hf. exists (Z.to_nat (f - Z.max 1 (Z.max 0 (h - w)))). split; [cbn; lia|]. apply elem_of_seq. lia.
Qed.

Lemma window_ascending w h : StronglySorted Z.lt (relay_window w h).
Proof.
  unfold relay_window, zrange. rewrite <- list_fmap_compose. set (lo := Z.max 1 (Z.max 0 (h - w))).
  generalize (Z.to_nat (Z.max 0 (h - 1) - lo + 1)) as n. intros n. generalize 0%nat as a. induction n as [|n IH]; intros a; [constructor|].
  cbn [seq fmap list_fmap]. constructor; [apply IH|]. apply Forall_fmap, Forall_forall. intros i Hi%elem_of_seq. cbn. lia.
Qed.

Lemma strong_filter {A} (R : A -> A -> Prop) (P : A -> Prop) `{!forall x, Decision (P x)} l :
  StronglySorted R l -> StronglySorted R (base.filter P l).
Proof.
  induction 1 as [|x l _ IH Hx]; [constructor|]. rewrite filter_cons. case_decide; [|done]. constructor; [done|].
  rewrite Forall_forall in *. intros y [_ Hy]%list_elem_of_filter. by apply Hx.
Qed.

Lemma gathered_known {A} (rec : Z -> option (list A)) (E : Z -> list A) fs : (forall f, f ∈ fs -> rec f = Some (E f)) ->
  gathered rec fs = Some (base.filter (fun p => length p.2 <> 0%nat) ((fun f => (f, E f)) <$> fs)).
Proof.
  induction fs as [|f fs IH]; intros Hk; [done|]. cbn [gathered fmap list_fmap]. rewrite (Hk f) by left. cbn [mbind option_bind].
  rewrite IH by (intros g Hg; apply Hk; by right). cbn [mbind option_bind]. rewrite filter_cons.
  destruct (decide (length (E f) = 0%nat)) as [El|El].
  - rewrite bool_decide_eq_true_2 by done. rewrite decide_False; [done|]. cbn. tauto.
  - rewrite bool_decide_eq_false_2 by done. by rewrite decide_True.
Qed.

Lemma recorded_spends_ok st f es : recorded_spends st f = Some es -> es <> [] -> entries_ok es.
Proof.
  unfold recorded_spends, recorded. destruct (_ || _); [by intros [= <-]|]. intros (b & _ & Hd)%bind_Some _.
  unfold dec_spends, decode_frame_entries in Hd. destruct (read_frame_entries b) as [[es' r]| |] eqn:Er; cbn in Hd; try done.
  apply codec_exact in Er as [_ Hok]. destruct (bool_decide _) in Hd; cbn in Hd; [|done]. by injection Hd as <-.
Qed.

(** The relay of a member that knows the window decodes to the window. *)
Lemma spend_relay_carries st h (E : Z -> list (list byte)) : agrees st -> h <= 2 ^ 64 ->
  (forall f, f ∈ relay_window SPEND_WINDOW h -> recorded_spends st f = Some (E f)) ->
  let frames := base.filter (fun p => length p.2 <> 0%nat) ((fun f => (f, E f)) <$> relay_window SPEND_WINDOW h) in
  exists bytes, (spend_relay legacy st h).1 = Some bytes /\ decode_relay h bytes = Ok frames.
Proof.
  intros Ha Hh Hk frames. destruct (spend_relay_spec st h Ha) as (st' & -> & _). cbn [fst].
  rewrite (gathered_known _ E) by done. cbn [mbind option_bind]. fold frames.
  assert (forall p, p ∈ frames -> p.2 = E p.1 /\ p.1 ∈ relay_window SPEND_WINDOW h /\ p.2 <> []) as Hin.
  { intros p [Hne (f & -> & Hf)%list_elem_of_fmap]%list_elem_of_filter. cbn in *. split_and!; [done|done|]. by destruct (E f). }
  assert (frames_from h None frames) as Hff.
  { apply frames_from_iff. split_and!; [| | |by destruct frames].
    - apply Forall_forall. intros p (_ & Hw%elem_of_window & _)%Hin. unfold spend_relayed, is_u64, in_window, SPEND_WINDOW in *.
      split; [lia|]. apply andb_true_iff. rewrite !Z.leb_le. lia.
    - apply Forall_forall. intros p (Ep & Hw & Hne)%Hin. split; [done|]. apply (recorded_spends_ok st p.1); [|done].
      rewrite Ep. by apply Hk.
    - apply frames_ascending. unfold frames. apply strong_filter. generalize (window_ascending SPEND_WINDOW h).
      generalize (relay_window SPEND_WINDOW h). clear. induction 1 as [|f fs _ IH Hf]; [constructor|]. constructor; [done|]. apply Forall_fmap. exact Hf. }
  pose proof (proj1 (frames_from_iff h None frames) Hff) as (_ & Hok & Hs & _).
  exists (concat (put_frame <$> frames)). split.
  - unfold encode_relay. rewrite Hs. cbn [negb]. by rewrite (proj2 (encode_frames_iff frames _) (conj eq_refl Hok)).
  - unfold decode_relay. by apply decode_loop_iff.
Qed.

(** C14. An executed operation reaches the global chain.  Suppose the member that
    makes header [h] has recorded the frames before it, and of any eight
    consecutive headers at least one reaches the global chain.  Then the spend
    entries of every frame are, within eight headers, in the relay of a header
    that reaches it, and the relay is decoded there with exactly these entries. *)
Theorem spend_reaches_global (member_at : Z -> Member) (E : Z -> list (list byte)) (reaches : Z -> Prop) f :
  (forall h, reached (member_at h)) -> (forall h g, 1 <= g < h -> recorded_spends (member_at h) g = Some (E g)) ->
  (forall n, exists h, n < h <= n + SPEND_WINDOW /\ reaches h) -> 1 <= f < 2 ^ 64 - SPEND_WINDOW -> E f <> [] ->
  exists h bytes frames, f < h <= f + SPEND_WINDOW /\ reaches h /\ (spend_relay legacy (member_at h) h).1 = Some bytes /\
    decode_relay h bytes = Ok frames /\ (f, E f) ∈ frames.
Proof.
  intros Hr Hk Hfair Hf Hne. destruct (Hfair f) as (h & Hh & Hreach). unfold SPEND_WINDOW in Hf, Hh.
  destruct (spend_relay_carries (member_at h) h E) as (bytes & Hb & Hd).
  - by apply agrees_reached.
  - lia.
  - intros g Hg%elem_of_window. apply Hk. lia.
  - exists h, bytes. eexists. split; [unfold SPEND_WINDOW; lia|]. split; [done|]. split; [exact Hb|]. split; [exact Hd|].
    apply list_elem_of_filter. cbn. split; [by destruct (E f)|]. apply list_elem_of_fmap. exists f. split; [done|].
    apply elem_of_window. unfold SPEND_WINDOW. lia.
Qed.

(** ** Reports *)

Lemma first_difference_any rec D h last backs : (forall b, b ∈ backs -> 0 < h - b -> rec (h - b) = Some (D (h - b))) ->
  exists ds, first_difference rec h last backs = Some ds /\
    ((exists b, b ∈ backs /\ (if 0 <? h - b then D (h - b) else []) <> last) -> existsb (fun d => negb (bool_decide (d = last))) ds = true).
Proof.
  induction backs as [|b bs IH]; intros Hk; cbn [first_difference].
  - exists []. split; [done|]. intros (b & Hb & _). by apply not_elem_of_nil in Hb.
  - assert ((if 0 <? h - b then rec (h - b) else Some []) = Some (if 0 <? h - b then D (h - b) else [])) as ->.
    { destruct (Z.ltb_spec 0 (h - b)); [|done]. apply Hk; [left|done]. }
    cbn [mbind option_bind]. destruct (bool_decide_reflect ((if 0 <? h - b then D (h - b) else []) = last)) as [E|Hne].
    + destruct IH as (ds & -> & Hds); [intros c Hc; apply Hk; by right|]. eexists. split; [done|].
      intros (c & [-> |Hc]%elem_of_cons & Hd); [done|]. cbn. rewrite Hds by eauto. apply orb_true_r.
    + eexists. split; [done|]. intros _. cbn. by rewrite bool_decide_eq_false_2.
Qed.

(** The records a header's field is made from. *)
Definition knows_reports (st : Member) (R : Z -> list byte) (h : Z) : Prop :=
  (forall g, 1 <= g < h -> recorded_digest st g = Some (report_digest sha3_256 (R g))) /\
  (forall g, 1 <= g < h -> R g <> [] -> mb_reports st !! sha3_256 (R g) = Some (R g)).

Lemma field_carries st R h : (forall r, r <> [] -> sha3_256 r <> []) -> knows_reports st R h -> 2 <= h -> R (h - 1) <> [] ->
  (h mod HEARTBEAT_FRAMES = 0 \/
   exists g, h - 1 - Z.of_nat CARRY_WINDOW_FRAMES <= g < h - 1 /\ (if 0 <? g then report_digest sha3_256 (R g) else []) <> report_digest sha3_256 (R (h - 1))) ->
  field_value st h = Some (R (h - 1)).
Proof.
  intros Hsha [Hd Hrep] Hh Hne Hwhy. unfold field_value. destruct (Z.eqb_spec h 0); [lia|]. rewrite (Hd (h - 1)) by lia.
  assert (report_digest sha3_256 (R (h - 1)) = sha3_256 (R (h - 1))) as Er by (unfold report_digest; by rewrite bool_decide_eq_false_2).
  rewrite Er in *. cbn [mbind option_bind]. rewrite bool_decide_eq_false_2 by by apply Hsha.
  set (backs := (fun i => 2 + i) <$> zrange (Z.of_nat CARRY_WINDOW_FRAMES)).
  destruct (first_difference_any (recorded_digest st) (fun g => report_digest sha3_256 (R g)) h (sha3_256 (R (h - 1))) backs)
    as (ds & -> & Hany).
  { intros b (i & -> & Hi)%list_elem_of_fmap Hpos. unfold zrange in Hi. apply list_elem_of_fmap in Hi as (k & -> & _). apply Hd. lia. }
  cbn [mbind option_bind]. assert (header_carries h ds (sha3_256 (R (h - 1))) = true) as ->.
  { unfold header_carries. rewrite bool_decide_eq_false_2 by by apply Hsha. cbn [negb andb]. apply orb_true_iff.
    destruct Hwhy as [Hm|(g & Hg & Hdiff)]; [right; by apply Z.eqb_eq|left]. apply Hany. exists (h - g). split.
    - unfold backs, zrange. rewrite <- list_fmap_compose, list_elem_of_fmap. exists (Z.to_nat (h - g - 2)). split; [cbn; lia|].
      apply elem_of_seq. unfold CARRY_WINDOW_FRAMES in *. lia.
    - by replace (h - (h - g)) with g by lia. }
  cbn [negb]. rewrite (Hrep (h - 1)) by (done || lia). cbn [mbind option_bind]. rewrite Er. by rewrite bool_decide_eq_true_2.
Qed.


(** ** A member that materializes every frame *)

Definition frame_ops (E : Z -> list (list byte)) (R : Z -> list byte) (k : nat) : list member_op :=
  [Op_spends (Z.of_nat k) (E (Z.of_nat k)); Op_report (Z.of_nat k) (R (Z.of_nat k))].
Definition history (E : Z -> list (list byte)) (R : Z -> list byte) (n : nat) : Member :=
  foldl run_op new_member (seq 1 n ≫= frame_ops E R).

Lemma history_reached E R n : reached (history E R n).
Proof.
  exists (seq 1 n ≫= frame_ops E R). split; [|done]. apply Forall_bind, Forall_true. intros k. by repeat constructor.
Qed.

Lemma history_step E R n : history E R (S n) =
  record_frame_accumulator sha3_256 (record_frame_spends (history E R n) (Z.of_nat (S n)) (E (Z.of_nat (S n)))) (Z.of_nat (S n)) (R (Z.of_nat (S n))).
Proof. unfold history. rewrite seq_S, bind_app, foldl_app. done. Qed.

Lemma history_records E R n g : (forall k, entries_ok (E k)) -> (forall x, x <> [] -> sha3_256 x <> []) -> Inj (=) (=) sha3_256 -> 1 <= g <= Z.of_nat n ->
  mb_spends (history E R n) !! g = Some (put_entries (E g)) /\ mb_digests (history E R n) !! g = Some (report_digest sha3_256 (R g)) /\
  (R g <> [] -> mb_reports (history E R n) !! sha3_256 (R g) = Some (R g)).
Proof.
  intros HE Hsha Hinj.
  assert (forall m d r, mb_reports (history E R m) !! d = Some r -> d = sha3_256 r) as Hown.
  { induction m as [|m IH]; intros d r; [done|]. rewrite history_step. unfold record_frame_spends.
    rewrite (proj2 (encode_entries_iff _ _) (conj (HE _) eq_refl)). cbn. case_bool_decide as Hd; [apply IH|].
    destruct (mb_reports (history E R m) !! _); [apply IH|]. intros [[<- <-]|[_ Hl]]%lookup_insert_Some; [|by apply IH].
    unfold report_digest in *. by destruct (bool_decide _). }
  induction n as [|n IH]; intros Hg; [lia|]. rewrite history_step. unfold record_frame_spends.
  rewrite (proj2 (encode_entries_iff _ _) (conj (HE _) eq_refl)).
  cbn [record_frame_accumulator update_outflow put_accumulator put_spends mb_spends mb_digests mb_reports].
  destruct (decide (g = Z.of_nat (S n))) as [->|Hne].
  - rewrite !lookup_insert_eq. split; [done|]. split; [done|]. intros Hr.
    assert (report_digest sha3_256 (R (Z.of_nat (S n))) = sha3_256 (R (Z.of_nat (S n)))) as ->
      by (unfold report_digest; by rewrite bool_decide_eq_false_2).
    rewrite bool_decide_eq_false_2 by by apply Hsha. destruct (mb_reports (history E R n) !! _) as [r|] eqn:El; [|by rewrite lookup_insert_eq].
    rewrite El. f_equal. apply Hown in El. by apply Hinj.
  - rewrite !lookup_insert_ne by done. destruct IH as (-> & -> & Hrep); [lia|]. split; [done|]. split; [done|]. intros Hr.
    case_bool_decide; [by apply Hrep|]. destruct (mb_reports (history E R n) !! report_digest _ _) eqn:El; [by apply Hrep|].
    rewrite lookup_insert_ne; [by apply Hrep|]. intros Ed. rewrite Ed, Hrep in El by done. done.
Qed.
End Relays.

(** One entry and an unchanging report in every frame. *)
Definition sample_frames : Z -> list (list byte) := fun _ => [[x01]].
Definition sample_report : Z -> list byte := fun _ => [x02].
Definition sample_member (h : Z) : Member := history (fun x => x) (fun _ => false) sample_frames sample_report (Z.to_nat (h - 1)).

Lemma sample_entries_ok k : entries_ok (sample_frames k).
Proof. split; [unfold is_u16; cbn; lia|]. split; [unfold MAX_ENTRIES_PER_FRAME; cbn; lia|]. by repeat constructor. Qed.

Lemma sample_records h g : 1 <= g < h ->
  mb_spends (sample_member h) !! g = Some (put_entries [[x01]]) /\ mb_digests (sample_member h) !! g = Some [x02] /\
  mb_reports (sample_member h) !! [x02] = Some [x02].
Proof.
  intros Hg. destruct (history_records (fun x => x) (fun _ => false) sample_frames sample_report (Z.to_nat (h - 1)) g) as (H1 & H2 & H3);
    [apply sample_entries_ok|done|by intros x y E|lia|]. split; [exact H1|]. split; [exact H2|]. by apply H3.
Qed.

Lemma spend_reaches_global_witness : exists h bytes frames, 5 < h <= 5 + SPEND_WINDOW /\ h mod 8 = 0 /\
  (spend_relay (fun _ => false) (sample_member h) h).1 = Some bytes /\ decode_relay h bytes = Ok frames /\ (5, [[x01]]) ∈ frames.
Proof.
  apply (spend_reaches_global (fun x => x) (fun _ => false) sample_member sample_frames (fun h => h mod 8 = 0) 5).
  - intros h. apply history_reached.
  - intros h g Hg. unfold recorded_spends, recorded. destruct (Z.eqb_spec g 0); [lia|]. cbn [orb].
    destruct (sample_records h g Hg) as (-> & _). reflexivity.
  - intros n. exists (8 * (n / 8 + 1)). unfold SPEND_WINDOW. pose proof (Z.div_mod n 8 ltac:(lia)). pose proof (Z.mod_pos_bound n 8 ltac:(lia)).
    split; [lia|]. rewrite Z.mul_comm. apply Z.mod_mul. lia.
  - unfold SPEND_WINDOW. lia.
  - done.
Defined.

